(* ===== verification/_CoqProject ===== *)
-Q . S2P
Prelude.v
Platform.v
Objects.v
Machine.v
Scripted.v
StreamIo.v
Stream.v
StreamWrite.v
StreamRead.v
StreamLife.v
Perm.v
InodeSet.v
FilePath.v
DirentReader.v
Mmap.v
FileOpen.v
Random.v
Interleave.v
Ownership.v
Client.v
Fuzz.v
FuzzMmap.v
DiskSpec.v
DiskKernel.v
StreamTrace.v
RoundTrip.v
WalkEntry.v
WalkSpec.v
SnapshotKernel.v
WalkSequential.v
WalkPreorder.v
Concurrency.v
WalkParallel.v
ParallelSafe.v
ParallelPool.v
ParallelTour.v
ParallelFair.v
