(* ===== verification/Prelude.v ===== *)
(** * bc-io: a verified model of the library

    bc-io is a C library for Linux: buffered streams, memory maps, opening files,
    directory reading, paths and metadata, permissions as text, sets of inodes,
    random bytes, and two walkers of directory trees.  This development models every
    function of the implementation ([src/]) and proves what makes each part correct.  Paths
    are those of the repository.

    ** How C is modelled

    - Machine words are [Z] with their wrap-around written out ([wrap64], [+u], [-u],
      [*u], in this file); bytes, [char]s and blocks of memory are [Z] and [list Z].
      An access outside a block is [Undefined].
    - Code that calls the platform is [M A] ([Machine]): it runs on a [world] (state of the
      kernel and of the allocators, [errno], heap of objects, trace) and gives [Done], [Undefined]
      or [OutOfFuel].  [wp m Q w] says that [m] run in [w] is [Done] with [Q]; so every
      theorem stated with it also says that the code ends and is defined.
    - The ledger ([held], computed from the trace) counts each descriptor, block, arena, mapping and
      queue that was acquired and not given back; "balanced" theorems say that it ends as
      it began, which excludes leaks, double closes and double frees alike.
    - The kernel, bc-allocators, bc-core and bc-concurrency are not in the
      repository: they are type classes of operations with classes of laws
      ([Platform], [Concurrency]; the user database in [Perm], a file
      system that stands still in [WalkSpec], one that keeps what is written in [DiskSpec], temporary
      files in [FuzzMmap]).  [Scripted], [SnapshotKernel] and [DiskKernel] are concrete instances that
      meet the laws and on which code evaluates; the witnesses use them.
    - One law deserves mention: [patience].  A kernel may answer "try again" or serve one more
      batch of records only so often; the fuel of a loop is enough when it exceeds what the patience
      allows.  The theorems take any larger fuel, so they do not depend on it.

    ** Parts

    - [Objects]: the structs and enums behind pointers ([include/public/],
      [include/internal/]).
    - [StreamIo], [Stream], [StreamWrite], [StreamRead], [StreamLife]
      ([src/stream/*.c]): full reads and writes, open, read, write, flush, advise, close.  A
      write stream refines an append-only log; draining a descriptor or a memory
      stream delivers its bytes in order; sessions are balanced on every error path.
    - [Perm] ([src/perm/bc_io_perm.c]): modes as text and back, exactly; names of users and groups.
    - [InodeSet] ([src/file/bc_io_file_inode.c]): the open-addressing table
      refines a mathematical set, its probing ends, its capacity is rounded exactly.
    - [FilePath] ([src/file/bc_io_file_path.c], [src/file/bc_io_file_stat.c],
      [src/path/bc_io_path.c]): joining, opening for reading, types and attributes.
    - [DirentReader] ([src/file/bc_io_dirent_reader.c]): the records of [getdents64] parsed
      from their bytes, in order, each entry once, on any kernel within the buffer.
    - [Mmap] ([src/mmap/bc_io_mmap.c]), [FileOpen] ([src/file/bc_io_file_open.c]):
      maps, streams over them, handles; what a session gives back, and what it leaks.
    - [Random] ([src/random/bc_io_random.c]).
    - [DiskSpec], [StreamTrace], [RoundTrip]: what the events of a trace do to regular files, a
      logic for what code leaves on the trace, and the round trip of the streams: what is written
      to a path through one is what is read back through another.
    - [Interleave] (its lemmas on splitting a heap), [Ownership], [Client]: every object the library
      hands out owns cells and resources; a client that uses streams, maps, read handles, sets and
      readers through their types, in any order, never goes wrong and can give everything back.
    - [Fuzz], [FuzzMmap] ([fuzzing/*.c]): the fuzz targets as sessions on arbitrary bytes, and the
      loops of their drivers.
    - [WalkEntry], [WalkSequential] ([src/walk/bc_io_walk_sequential.c]): the recursive
      walk with its callbacks; balanced on any kernel; no callback after a refusal.
    - [WalkSpec], [WalkPreorder]: the reference traversal [tour] of a tree, and that the
      sequential walk makes it, event for event.
    - [Interleave]: threads as sequences of atomic actions, and a program logic for
      them in which every thread owns a share of the state.
    - [WalkParallel] ([src/walk/bc_io_walk_parallel.c]): the code of the workers in those actions, the worker's
      loop as a state machine ([worker_step]), the pool under a schedule ([pool_run]).
    - [ParallelSafe], [ParallelPool]: the invariant of the pool and what it gives for every
      interleaving: nothing undefined, everything given back, refusals reported, the
      count of outstanding directories detects the end, the work is bounded.
    - [ParallelTour]: the workers together make the tour; hence both walks agree.
    - [ParallelFair]: under a fair scheduler the parallel walk returns.

    The walkers call the reader, the path functions and the platform as the C code does; the
    map calls the stream it owns; the handle calls both.  Clients' theorems use the
    lemmas of the parts they call, never their code.

    ** Fuel

    Recursion over directories takes [deep]: each level makes the path longer and paths are
    shorter than 4096 bytes, so 4096 is enough.  The loop over a directory takes [laps]: a batch has fewer
    than 8193 records and each batch takes patience, so [laps_enough] suffices.  Loops of the other
    parts state their own bounds, as theorems.

    ** Modelling choices

    - There is one allocator context where the code passes several ([main_memory_context], the
      worker's own, the [memory_context] of a stream).
    - Callbacks are functions on a state of the client; they do not call the library.
    - In the parallel walk an action is one atomic operation, one call of the queue, one
      callback, or one system call with the reading of the thread's own [errno]; a call of the
      reader is one action, since its object and descriptor belong to one thread.  Relaxed
      atomics are interleaved: the counters are independent, and the flag [visit_failed] may be
      seen late, which schedules include.  The pauses of an idle worker have no effect.
    - How many of the submitted tasks the dispatcher runs, in which order they take turns and what it
      returns is an argument ([dispatch]); the result of submitting a task is not looked at by
      the code.
    - A client's calls on a slot of its table are the calls its own tests let through: a slot whose
      open failed, or that was released, is not used ([Client.run_call]).
    - The pages behind a mapping and the contents of the allocator's blocks beyond what the code reads are
      not kept.

    ** Not modelled

    [tests/] and [benchmarks/] are programs that call the library; of [fuzzing/] the reading of the
    arguments of the [main] functions, and the creation and destruction of the allocator context
    around each run (the model has that one context from the start).  What [bc_core_align_up] leaves
    in its output when it refuses a size is a parameter, with a refused size that leaves nothing the code reads an unset
    variable, which is [Undefined].  The bodies of the libraries named above are not in the
    repository. *)

From stdpp Require Export base option list numbers strings gmap.
From Stdlib Require Export ZArith Lia Ascii.

Declare Scope bcio_scope.
Delimit Scope bcio_scope with bcio.
Open Scope Z_scope.
Open Scope bcio_scope.

(** ** Machine words *)

Definition u64_modulus : Z := 18446744073709551616.
Definition u32_modulus : Z := 4294967296.
Definition wrap64 (z : Z) : Z := z mod u64_modulus.
Definition wrap32 (z : Z) : Z := z mod u32_modulus.
Definition signed64 (z : Z) : Z := if decide (z < 9223372036854775808) then z else z - u64_modulus.
Definition signed32 (z : Z) : Z :=
  if decide (wrap32 z < 2147483648) then wrap32 z else wrap32 z - u32_modulus.
Definition is_u64 (z : Z) : Prop := 0 <= z < u64_modulus.
Definition is_u32 (z : Z) : Prop := 0 <= z < u32_modulus.
Definition is_byte (z : Z) : Prop := 0 <= z < 256.

Notation "a +u b" := (wrap64 (a + b)) (at level 50, left associativity) : bcio_scope.
Notation "a -u b" := (wrap64 (a - b)) (at level 50, left associativity) : bcio_scope.
Notation "a *u b" := (wrap64 (a * b)) (at level 40, left associativity) : bcio_scope.

(** ** Results of C code: a value, undefined behaviour, or no answer within
    the fuel given to the loops. *)

Inductive res (A : Type) : Type :=
| Done (a : A)
| Undefined
| OutOfFuel.
Arguments Done {A} a.
Arguments Undefined {A}.
Arguments OutOfFuel {A}.

#[export] Instance res_ret : MRet res := fun A a => Done a.
#[export] Instance res_bind : MBind res := fun A B k m =>
  match m with
  | Done a => k a
  | Undefined => Undefined
  | OutOfFuel => OutOfFuel
  end.

(** [safe r Q]: the computation ends without undefined behaviour, within its
    fuel, in a value satisfying [Q] (total correctness). *)
Definition safe {A} (r : res A) (Q : A -> Prop) : Prop :=
  match r with
  | Done a => Q a
  | Undefined | OutOfFuel => False
  end.

(** ** Memory blocks *)

(** A block of memory is a list of cells; an index is a [size_t] or pointer
    difference. *)
Definition zlen {A} (l : list A) : Z := Z.of_nat (length l).
Definition ztake {A} (n : Z) (l : list A) : list A := take (Z.to_nat n) l.
Definition zdrop {A} (n : Z) (l : list A) : list A := drop (Z.to_nat n) l.
Definition zrepeat {A} (x : A) (n : Z) : list A := replicate (Z.to_nat n) x.

Definition peek {A} (block : list A) (index : Z) : res A :=
  if decide (0 <= index) then
    match block !! Z.to_nat index with
    | Some v => Done v
    | None => Undefined
    end
  else Undefined.

Definition poke {A} (block : list A) (index : Z) (v : A) : res (list A) :=
  if decide (0 <= index < zlen block) then Done (<[Z.to_nat index := v]> block)
  else Undefined.

(** The cells [offset, offset + size) of a block, and a block with these cells
    replaced; both undefined when the range leaves the block. *)
Definition span {A} (block : list A) (offset size : Z) : res (list A) :=
  if decide (0 <= offset /\ 0 <= size /\ offset + size <= zlen block)
  then Done (ztake size (zdrop offset block))
  else Undefined.

Definition blit {A} (block : list A) (offset : Z) (data : list A) : res (list A) :=
  if decide (0 <= offset /\ offset + zlen data <= zlen block)
  then Done (ztake offset block ++ data ++ zdrop (offset + zlen data) block)
  else Undefined.

(** The number little-endian bytes denote. *)
Definition le_word (bytes : list Z) : Z := foldr (fun b acc => b + 256 * acc) 0 bytes.

Fixpoint le_bytes (n : nat) (z : Z) : list Z :=
  match n with
  | O => []
  | S n => z mod 256 :: le_bytes n (z / 256)
  end.

(** Characters and string literals as the bytes the C compiler makes of them. *)
Definition ch (a : ascii) : Z := Z.of_N (N_of_ascii a).
Arguments ch a%_char_scope.
Fixpoint bytes_of_string (s : string) : list Z :=
  match s with
  | EmptyString => []
  | String a s' => ch a :: bytes_of_string s'
  end.

(** The bytes of a C string up to its terminator. *)
Fixpoint c_string (block : list Z) : list Z :=
  match block with
  | [] => []
  | c :: block => if decide (c = 0) then [] else c :: c_string block
  end.

(** ** Tactics *)

Ltac split_and_lia := repeat split; try lia.

(** Case analysis on the test of the goal or of a hypothesis, closing the
    branches arithmetic refutes. *)
Ltac decide_goal :=
  match goal with
  | |- context [decide ?P] => destruct (decide P); try lia
  | |- context [if ?b then _ else _] => destruct b eqn:?; try lia
  end.

(** Closed arithmetic facts and closed lists of them. *)
Ltac concrete := first [by vm_compute|vm_compute; lia|vm_compute; split_and!; congruence].
Ltac concrete_Forall := repeat (apply Forall_cons; split; [split; concrete|]); by apply Forall_nil.

(** ** Lemmas on results *)

Lemma safe_bind {A B} (m : res A) (k : A -> res B) (Q : B -> Prop) :
  safe m (fun a => safe (k a) Q) -> safe (m ≫= k) Q.
Proof. by destruct m. Qed.

Lemma safe_mono {A} (m : res A) (P Q : A -> Prop) :
  safe m P -> (forall a, P a -> Q a) -> safe m Q.
Proof. destruct m; naive_solver. Qed.

Lemma safe_Done {A} (m : res A) (Q : A -> Prop) :
  safe m Q <-> exists a, m = Done a /\ Q a.
Proof. destruct m; naive_solver. Qed.

(** ** Lemmas on words *)

Lemma wrap64_small z : is_u64 z -> wrap64 z = z.
Proof. apply Z.mod_small. Qed.

Lemma wrap64_range z : is_u64 (wrap64 z).
Proof. by apply Z.mod_pos_bound. Qed.

Lemma wrap64_idem z : wrap64 (wrap64 z) = wrap64 z.
Proof. apply wrap64_small, wrap64_range. Qed.

Lemma wrap64_add_l a b : wrap64 (wrap64 a + b) = wrap64 (a + b).
Proof. apply Zplus_mod_idemp_l. Qed.

Lemma wrap64_add_r a b : wrap64 (a + wrap64 b) = wrap64 (a + b).
Proof. apply Zplus_mod_idemp_r. Qed.

(** ** Lemmas on blocks *)

Lemma zlen_nonneg {A} (l : list A) : 0 <= zlen l.
Proof. unfold zlen; lia. Qed.

Lemma zlen_nil {A} : zlen (@nil A) = 0.
Proof. done. Qed.

Lemma zlen_nil_inv {A} (l : list A) : zlen l = 0 -> l = [].
Proof. destruct l; [done|]. unfold zlen; simpl; lia. Qed.

Lemma zlen_cons {A} (x : A) l : zlen (x :: l) = 1 + zlen l.
Proof. unfold zlen; simpl; lia. Qed.

Lemma zlen_app {A} (l k : list A) : zlen (l ++ k) = zlen l + zlen k.
Proof. unfold zlen; rewrite length_app; lia. Qed.

Lemma zlen_ztake {A} n (l : list A) : zlen (ztake n l) = Z.min (Z.max 0 n) (zlen l).
Proof. unfold zlen, ztake; rewrite length_take; lia. Qed.

Lemma zlen_zdrop {A} n (l : list A) : zlen (zdrop n l) = Z.max 0 (zlen l - Z.max 0 n).
Proof. unfold zlen, zdrop; rewrite length_drop; lia. Qed.

Lemma zlen_zrepeat {A} (x : A) n : zlen (zrepeat x n) = Z.max 0 n.
Proof. unfold zlen, zrepeat; rewrite length_replicate; lia. Qed.

Lemma zdrop_zrepeat {A} (x : A) m n : 0 <= m -> zdrop m (zrepeat x n) = zrepeat x (n - m).
Proof.
  intros Hm. unfold zdrop, zrepeat. rewrite drop_replicate. f_equal. lia.
Qed.

Lemma zlen_insert {A} i (x : A) (l : list A) : zlen (<[i := x]> l) = zlen l.
Proof. unfold zlen; by rewrite length_insert. Qed.

Lemma ztake_all {A} n (l : list A) : zlen l <= n -> ztake n l = l.
Proof. intros; apply take_ge; unfold zlen in *; lia. Qed.

Lemma ztake_0 {A} n (l : list A) : n <= 0 -> ztake n l = [].
Proof. intros; unfold ztake; by replace (Z.to_nat n) with 0%nat by lia. Qed.

Lemma zdrop_0 {A} n (l : list A) : n <= 0 -> zdrop n l = l.
Proof. intros; unfold zdrop; by replace (Z.to_nat n) with 0%nat by lia. Qed.

Lemma zdrop_all {A} n (l : list A) : zlen l <= n -> zdrop n l = [].
Proof. intros; apply drop_ge; unfold zlen in *; lia. Qed.

Lemma ztake_zdrop {A} n (l : list A) : ztake n l ++ zdrop n l = l.
Proof. apply take_drop. Qed.

Lemma ztake_app {A} n (l k : list A) :
  n = zlen l -> ztake n (l ++ k) = l.
Proof. intros ->; unfold ztake, zlen; rewrite Nat2Z.id; apply take_app_length. Qed.

Lemma ztake_app_le {A} n (l k : list A) :
  n <= zlen l -> ztake n (l ++ k) = ztake n l.
Proof. intros; unfold ztake, zlen in *; apply take_app_le; lia. Qed.

Lemma zdrop_app {A} n (l k : list A) :
  n = zlen l -> zdrop n (l ++ k) = k.
Proof. intros ->; unfold zdrop, zlen; rewrite Nat2Z.id; apply drop_app_length. Qed.

Lemma zdrop_zdrop {A} n m (l : list A) :
  0 <= n -> 0 <= m -> zdrop n (zdrop m l) = zdrop (m + n) l.
Proof. intros; unfold zdrop; rewrite drop_drop; f_equal; lia. Qed.

Lemma ztake_ztake {A} n m (l : list A) :
  ztake n (ztake m l) = ztake (Z.min n m) l.
Proof. unfold ztake; rewrite take_take; f_equal; lia. Qed.

Lemma ztake_zlen_ztake {A} n (l : list A) : ztake (zlen (ztake n l)) l = ztake n l.
Proof.
  unfold ztake, zlen. rewrite Nat2Z.id, length_take, <- firstn_firstn.
  by rewrite (firstn_all2 l).
Qed.

Lemma ztake_add {A} n m (l : list A) :
  0 <= n -> 0 <= m -> ztake (n + m) l = ztake n l ++ ztake m (zdrop n l).
Proof.
  intros; unfold ztake, zdrop. rewrite Z2Nat.inj_add by lia.
  rewrite <- (take_drop (Z.to_nat n) l) at 1.
  destruct (decide (Z.to_nat n <= length l)%nat).
  - rewrite take_app, firstn_length_le by done.
    rewrite take_take. f_equal; [f_equal; lia | f_equal; lia].
  - rewrite drop_ge, take_nil, !app_nil_r by lia. rewrite take_take. f_equal; lia.
Qed.

Create HintDb bcio.
#[export] Hint Resolve zlen_nonneg wrap64_range : bcio.
Create Rewrite HintDb blocks.
#[export] Hint Rewrite @zlen_nil @zlen_cons @zlen_app @zlen_ztake @zlen_zdrop
  @zlen_zrepeat @zlen_insert : blocks.

(** [block_lia]: arithmetic on lengths of blocks. *)
Ltac note_length l :=
  lazymatch goal with
  | _ : 0 <= zlen l |- _ => fail
  | _ => pose proof (zlen_nonneg l)
  end.

Ltac block_lia :=
  autorewrite with blocks in *;
  repeat match goal with
  | l : list _ |- _ => note_length l
  | |- context [zlen ?l] => note_length l
  | _ : context [zlen ?l] |- _ => note_length l
  end; lia.

Lemma zlen_le_bytes n z : zlen (le_bytes n z) = Z.of_nat n.
Proof. revert z. induction n as [|n IH]; intros z; simpl; [done|]. rewrite zlen_cons, IH. lia. Qed.

Lemma le_word_bytes n z : 0 <= z < 256 ^ Z.of_nat n -> le_word (le_bytes n z) = z.
Proof.
  revert z. induction n as [|n IH]; intros z Hz; simpl; [simpl in Hz; lia|].
  rewrite Nat2Z.inj_succ, Z.pow_succ_r in Hz by lia.
  rewrite IH; [pose proof (Z.div_mod z 256); lia|].
  split; [apply Z.div_pos; lia|apply Z.div_lt_upper_bound; lia].
Qed.

(** Accesses in range are defined. *)
Lemma peek_Done {A} (block : list A) i v :
  peek block i = Done v <-> 0 <= i /\ block !! Z.to_nat i = Some v.
Proof.
  unfold peek. decide_goal; [|naive_solver lia].
  destruct (block !! Z.to_nat i); naive_solver.
Qed.

Lemma peek_in_range {A} (block : list A) i :
  0 <= i < zlen block -> exists v, peek block i = Done v.
Proof.
  intros. destruct (lookup_lt_is_Some_2 block (Z.to_nat i)) as [v Hv];
    [unfold zlen in *; lia|].
  exists v. apply peek_Done. split; [lia|done].
Qed.

Lemma poke_in_range {A} (block : list A) i v :
  0 <= i < zlen block -> poke block i v = Done (<[Z.to_nat i := v]> block).
Proof. intros; unfold poke; by rewrite decide_True by lia. Qed.

Lemma span_in_range {A} (block : list A) off n :
  0 <= off -> 0 <= n -> off + n <= zlen block ->
  span block off n = Done (ztake n (zdrop off block)).
Proof. intros; unfold span; by rewrite decide_True by lia. Qed.

Lemma blit_in_range {A} (block : list A) off data :
  0 <= off -> off + zlen data <= zlen block ->
  blit block off data =
    Done (ztake off block ++ data ++ zdrop (off + zlen data) block).
Proof. intros; unfold blit; by rewrite decide_True by lia. Qed.

(** Writing [data] right after a prefix [pre] of known content extends that
    content. *)
Lemma blit_append {A} (pre rest data : list A) :
  zlen data <= zlen rest ->
  blit (pre ++ rest) (zlen pre) data = Done (pre ++ data ++ zdrop (zlen data) rest).
Proof.
  intros. rewrite blit_in_range by block_lia.
  rewrite <- zdrop_zdrop by block_lia. by rewrite ztake_app, zdrop_app.
Qed.

Lemma peek_app {A} (pre post : list A) x i : i = zlen pre -> peek (pre ++ x :: post) i = Done x.
Proof.
  intros ->. apply peek_Done. split; [block_lia|]. unfold zlen. rewrite Nat2Z.id.
  by apply list_lookup_middle.
Qed.

Lemma span_app {A} (pre mid post : list A) i n :
  i = zlen pre -> n = zlen mid -> span (pre ++ mid ++ post) i n = Done mid.
Proof. intros -> ->. rewrite span_in_range by block_lia. by rewrite zdrop_app, ztake_app. Qed.

Lemma zdrop_peek {A} (l : list A) i x : peek l i = Done x -> zdrop i l = x :: zdrop (i + 1) l.
Proof.
  intros [Hi Hx]%peek_Done. unfold zdrop. rewrite (drop_S _ x _ Hx). do 2 f_equal. lia.
Qed.

Lemma c_string_app s rest : 0 ∉ s -> c_string (s ++ 0 :: rest) = s.
Proof.
  induction s as [|c s IH]; intros H0; simpl; [done|].
  rewrite decide_False by set_solver. rewrite IH; [done|set_solver].
Qed.

Lemma c_string_all s : 0 ∉ s -> c_string s = s.
Proof.
  induction s as [|c s IH]; intros H0; simpl; [done|].
  rewrite decide_False by set_solver. rewrite IH; [done|set_solver].
Qed.

Lemma c_string_no_0 s : 0 ∉ c_string s.
Proof. induction s as [|c s IH]; simpl; [set_solver|]. case_decide; set_solver. Qed.

Lemma c_string_split s : c_string s = s \/ exists rest, s = c_string s ++ 0 :: rest.
Proof.
  induction s as [|c s IH]; simpl; [by left|]. case_decide as E.
  - subst. right. by exists s.
  - destruct IH as [IH|[rest IH]]; [left; congruence|right; exists rest; simpl; congruence].
Qed.
