(* ===== verification/Platform.v ===== *)
(** * The platform bc-io runs on

    The code under [src/] calls three outside parties: the Linux kernel through
    libc, the bc-allocators library and the bc-core library.  Each is a type
    class of operations, with a second class of laws: the documented behaviour
    the code relies on.  Nothing here models a file of the repository; the
    constants are those of the Linux x86-64 headers the code includes. *)

From S2P Require Import Prelude.

(** ** Constants of the system headers *)

Definition EPERM : Z := 1.
Definition EINTR : Z := 4.
Definition EAGAIN : Z := 11.
Definition ENOMEM : Z := 12.
Definition EINVAL : Z := 22.
Definition ENAMETOOLONG : Z := 36.

Definition O_RDONLY : Z := 0.
Definition O_WRONLY : Z := 1.
Definition O_CREAT : Z := 64.
Definition O_TRUNC : Z := 512.
Definition O_NONBLOCK : Z := 2048.
Definition O_DIRECTORY : Z := 65536.
Definition O_NOFOLLOW : Z := 131072.
Definition O_NOATIME : Z := 262144.
Definition O_CLOEXEC : Z := 524288.

Definition AT_SYMLINK_NOFOLLOW : Z := 256.

Definition S_IFMT : Z := 61440.
Definition S_IFSOCK : Z := 49152.
Definition S_IFLNK : Z := 40960.
Definition S_IFREG : Z := 32768.
Definition S_IFBLK : Z := 24576.
Definition S_IFDIR : Z := 16384.
Definition S_IFCHR : Z := 8192.
Definition S_IFIFO : Z := 4096.
Definition S_ISUID : Z := 2048.
Definition S_ISGID : Z := 1024.
Definition S_ISVTX : Z := 512.
Definition S_IRUSR : Z := 256.
Definition S_IWUSR : Z := 128.
Definition S_IXUSR : Z := 64.
Definition S_IRGRP : Z := 32.
Definition S_IWGRP : Z := 16.
Definition S_IXGRP : Z := 8.
Definition S_IROTH : Z := 4.
Definition S_IWOTH : Z := 2.
Definition S_IXOTH : Z := 1.

(** The [S_ISxxx] macros: the type field of a mode word. *)
Definition S_ISTYPE (type mode : Z) : bool := bool_decide (Z.land mode S_IFMT = type).
Notation S_ISREG := (S_ISTYPE S_IFREG).
Notation S_ISDIR := (S_ISTYPE S_IFDIR).
Notation S_ISLNK := (S_ISTYPE S_IFLNK).
Notation S_ISCHR := (S_ISTYPE S_IFCHR).
Notation S_ISBLK := (S_ISTYPE S_IFBLK).
Notation S_ISFIFO := (S_ISTYPE S_IFIFO).
Notation S_ISSOCK := (S_ISTYPE S_IFSOCK).

Definition DT_UNKNOWN : Z := 0.
Definition DT_DIR : Z := 4.
Definition DT_REG : Z := 8.
Definition DT_LNK : Z := 10.

Definition POSIX_FADV_NORMAL : Z := 0.
Definition POSIX_FADV_RANDOM : Z := 1.
Definition POSIX_FADV_SEQUENTIAL : Z := 2.
Definition POSIX_FADV_WILLNEED : Z := 3.
Definition POSIX_FADV_DONTNEED : Z := 4.

Definition PROT_READ : Z := 1.
Definition MAP_SHARED : Z := 1.
Definition MAP_POPULATE : Z := 32768.
Definition MAP_HUGETLB : Z := 262144.
Definition MADV_NORMAL : Z := 0.
Definition MADV_RANDOM : Z := 1.
Definition MADV_SEQUENTIAL : Z := 2.
Definition MADV_WILLNEED : Z := 3.
Definition MADV_DONTNEED : Z := 4.

(** [struct stat] *)
Record stat_t := mk_stat {
  st_dev : Z;
  st_ino : Z;
  st_mode : Z;
  st_nlink : Z;
  st_uid : Z;
  st_gid : Z;
  st_size : Z;
  st_mtime : Z;
  st_mtime_nsec : Z;
}.

(** [struct linux_dirent64] as [getdents64] lays it out: inode and offset in
    eight bytes each, the length of the record in two, the type in one, the name
    with its terminator, padding. *)
Record dirent := mk_dirent {
  d_ino : Z;
  d_off : Z;
  d_type : Z;
  d_name : list Z;
  d_pad : list Z;
}.

Definition d_reclen (d : dirent) : Z := 20 + zlen (d_name d) + zlen (d_pad d).

Definition encode_dirent (d : dirent) : list Z :=
  le_bytes 8 (d_ino d) ++ le_bytes 8 (d_off d) ++ le_bytes 2 (d_reclen d) ++
  d_type d :: d_name d ++ 0 :: d_pad d.

Definition encode_batch (ds : list dirent) : list Z := concat (encode_dirent <$> ds).

(** Records the kernel may produce: a non-empty name without terminator. *)
Definition dirent_ok (d : dirent) : Prop :=
  0 ∉ d_name d /\ d_name d <> [] /\ d_reclen d < 65536.

(** What a system call returns: its value, or -1 with [errno] set. *)
Inductive sysret (A : Type) : Type :=
| SysOk (a : A)
| SysErr (e : Z).
Arguments SysOk {A} a.
Arguments SysErr {A} e.

#[export] Instance sysret_eq_dec {A} `{EqDecision A} : EqDecision (sysret A).
Proof. solve_decision. Defined.

(** ** The kernel *)

(** [kstate] is everything outside the process.  A read-like call returns the
    bytes it stored; a write-like call is given the bytes and returns how many
    it took.  Paths and names are byte strings without their terminator. *)
Class Kernel := {
  kstate : Type;
  sys_open : kstate -> list Z -> Z -> Z -> sysret Z * kstate;
  sys_close : kstate -> Z -> kstate;
  sys_read : kstate -> Z -> Z -> sysret (list Z) * kstate;
  sys_write : kstate -> Z -> list Z -> sysret Z * kstate;
  sys_fstat : kstate -> Z -> sysret stat_t * kstate;
  sys_stat : kstate -> list Z -> sysret stat_t * kstate;
  sys_lstat : kstate -> list Z -> sysret stat_t * kstate;
  sys_fstatat : kstate -> Z -> list Z -> Z -> sysret stat_t * kstate;
  sys_posix_fadvise : kstate -> Z -> Z -> Z -> Z -> Z * kstate;
  sys_mmap : kstate -> Z -> Z -> Z -> Z -> Z -> sysret Z * kstate;
  sys_munmap : kstate -> Z -> Z -> kstate;
  sys_madvise : kstate -> Z -> Z -> Z -> sysret unit * kstate;
  sys_getrandom : kstate -> Z -> sysret (list Z) * kstate;
  sys_getdents64 : kstate -> Z -> Z -> sysret (list Z) * kstate;
  sys_getcwd : kstate -> Z -> sysret (list Z) * kstate;
  patience : kstate -> nat;
}.

(** Documented behaviour of the calls: a descriptor is not negative, a mapping
    is not at address 0, a transfer does not exceed the size asked for, a file
    size is an [off_t], directory entries come as whole records.  [patience], a
    view of the kernel state that no code consults, bounds how often the calls may
    still make a loop go round without moving a byte of a transfer: be interrupted
    by a signal, take no byte, or produce a further batch of directory entries.
    It is the assumption under which the loops terminate. *)
Class KernelLaws (KN : Kernel) : Prop := {
  sys_open_fd k p f m fd k' :
    sys_open k p f m = (SysOk fd, k') -> 0 <= fd;
  sys_open_patience k p f m r k' :
    sys_open k p f m = (r, k') -> (patience k' <= patience k)%nat;
  sys_close_patience k fd : (patience (sys_close k fd) <= patience k)%nat;
  sys_read_len k fd n bs k' :
    sys_read k fd n = (SysOk bs, k') -> zlen bs <= n;
  sys_read_patience k fd n r k' :
    sys_read k fd n = (r, k') -> (patience k' <= patience k)%nat;
  sys_read_interrupted k fd n k' :
    sys_read k fd n = (SysErr EINTR, k') -> (patience k' < patience k)%nat;
  sys_write_count k fd bs n k' :
    sys_write k fd bs = (SysOk n, k') -> 0 <= n <= zlen bs;
  sys_write_patience k fd bs r k' :
    sys_write k fd bs = (r, k') -> (patience k' <= patience k)%nat;
  sys_write_interrupted k fd bs k' :
    sys_write k fd bs = (SysErr EINTR, k') -> (patience k' < patience k)%nat;
  sys_write_stalled k fd bs k' :
    sys_write k fd bs = (SysOk 0, k') -> bs <> [] -> (patience k' < patience k)%nat;
  sys_fstat_patience k fd r k' :
    sys_fstat k fd = (r, k') -> (patience k' <= patience k)%nat;
  sys_fstat_size k fd s k' :
    sys_fstat k fd = (SysOk s, k') -> 0 <= st_size s < 9223372036854775808;
  sys_fadvise_patience k fd o l a r k' :
    sys_posix_fadvise k fd o l a = (r, k') -> (patience k' <= patience k)%nat;
  sys_mmap_addr k l p f fd o a k' :
    sys_mmap k l p f fd o = (SysOk a, k') -> a <> 0;
  sys_mmap_patience k l p f fd o r k' :
    sys_mmap k l p f fd o = (r, k') -> (patience k' <= patience k)%nat;
  sys_munmap_patience k a l : (patience (sys_munmap k a l) <= patience k)%nat;
  sys_madvise_patience k a l h r k' :
    sys_madvise k a l h = (r, k') -> (patience k' <= patience k)%nat;
  sys_getrandom_len k n bs k' :
    sys_getrandom k n = (SysOk bs, k') -> zlen bs <= n;
  sys_getrandom_patience k n r k' :
    sys_getrandom k n = (r, k') -> (patience k' <= patience k)%nat;
  sys_getrandom_interrupted k n k' :
    sys_getrandom k n = (SysErr EINTR, k') -> (patience k' < patience k)%nat;
  sys_stat_size k p s k' :
    sys_stat k p = (SysOk s, k') -> 0 <= st_size s < 9223372036854775808;
  sys_lstat_size k p s k' :
    sys_lstat k p = (SysOk s, k') -> 0 <= st_size s < 9223372036854775808;
  sys_fstatat_size k fd n f s k' :
    sys_fstatat k fd n f = (SysOk s, k') -> 0 <= st_size s < 9223372036854775808;
  sys_fstatat_patience k fd n f r k' :
    sys_fstatat k fd n f = (r, k') -> (patience k' <= patience k)%nat;
  sys_getdents64_records k fd n bs k' :
    sys_getdents64 k fd n = (SysOk bs, k') ->
    exists ds, bs = encode_batch ds /\ Forall dirent_ok ds;
  sys_getdents64_progress k fd n bs k' :
    sys_getdents64 k fd n = (SysOk bs, k') -> bs <> [] -> (patience k' < patience k)%nat;
  sys_getdents64_len k fd n bs k' :
    sys_getdents64 k fd n = (SysOk bs, k') -> zlen bs <= n;
  sys_getdents64_patience k fd n r k' :
    sys_getdents64 k fd n = (r, k') -> (patience k' <= patience k)%nat;
  sys_getrandom_stalled k n k' :
    sys_getrandom k n = (SysOk [], k') -> 0 < n -> (patience k' < patience k)%nat;
}.

(** ** bc-allocators *)

(** [pstate] is the state of an allocator context.  [pool_allocate] returns the
    address of the new block, whose bytes are then [pool_bytes]; [arena_allocate]
    returns address and bytes; [live], a view of the state that no code consults,
    is the set of pool blocks in use. *)
Class Allocators := {
  pstate : Type;
  pool_alloc : pstate -> Z -> option Z * pstate;
  pool_bytes : pstate -> Z -> Z -> list Z;
  pool_release : pstate -> Z -> pstate;
  arena_new : pstate -> Z -> option Z * pstate;
  arena_alloc : pstate -> Z -> Z -> Z -> option (Z * list Z) * pstate;
  arena_release : pstate -> Z -> pstate;
  context_page_size : pstate -> option Z;
  live : pstate -> gset Z;
}.

(** A pool block is new and not at address 0; an arena block has the size asked
    for; the page size is positive. *)
Class AllocatorsLaws (AL : Allocators) : Prop := {
  pool_alloc_fresh m n p m' :
    pool_alloc m n = (Some p, m') -> p <> 0 /\ p ∉ live m;
  pool_alloc_live m n p m' :
    pool_alloc m n = (Some p, m') -> live m' = {[p]} ∪ live m;
  pool_alloc_fail m n m' : pool_alloc m n = (None, m') -> live m' = live m;
  pool_bytes_size m p n : 0 <= n -> zlen (pool_bytes m p n) = n;
  pool_release_live m p : live (pool_release m p) = live m ∖ {[p]};
  arena_new_live m n r m' : arena_new m n = (r, m') -> live m' = live m;
  arena_new_addr m n a m' : arena_new m n = (Some a, m') -> a <> 0;
  arena_alloc_live m a n al r m' : arena_alloc m a n al = (r, m') -> live m' = live m;
  arena_alloc_size m a n al p bs m' :
    arena_alloc m a n al = (Some (p, bs), m') -> 0 <= n -> zlen bs = n;
  arena_release_live m a : live (arena_release m a) = live m;
  page_size_positive m n : context_page_size m = Some n -> 0 < n;
}.

(** ** bc-core *)

(** Block operations take the present contents of the cells involved:
    [core_copy dst src] is what the destination holds afterwards, and
    [core_move block dst src n] the whole block after an overlapping move.
    [core_align_up] answers whether it succeeded and what it stored, if anything. *)
Class BcCore := {
  core_align_up : Z -> Z -> bool * option Z;
  core_safe_multiply : Z -> Z -> option Z;
  core_safe_add : Z -> Z -> option Z;
  core_length : list Z -> Z -> option Z;
  core_copy : list Z -> list Z -> list Z;
  core_move : list Z -> Z -> Z -> Z -> list Z;
  core_zero : list Z -> bool * list Z;
}.

Class BcCoreLaws (BC : BcCore) : Prop := {
  core_align_up_spec v a :
    is_u64 v -> 0 < a -> v + (a - 1) < u64_modulus ->
    core_align_up v a = (true, Some ((v + (a - 1)) / a * a));
  core_safe_multiply_spec a b :
    core_safe_multiply a b = if decide (a * b < u64_modulus) then Some (a * b) else None;
  core_safe_add_spec a b :
    core_safe_add a b = if decide (a + b < u64_modulus) then Some (a + b) else None;
  core_length_spec s rest t : t ∉ s -> core_length (s ++ t :: rest) t = Some (zlen s);
  core_copy_spec dst src : zlen dst = zlen src -> core_copy dst src = src;
  core_move_spec block dst src n :
    0 <= dst -> 0 <= src -> 0 <= n -> dst + n <= zlen block -> src + n <= zlen block ->
    core_move block dst src n =
      ztake dst block ++ ztake n (zdrop src block) ++ zdrop (dst + n) block;
  core_zero_spec block : core_zero block = (true, zrepeat 0 (zlen block));
}.

(** ** The three together *)

Class Platform := {
  platform_kernel :: Kernel;
  platform_allocators :: Allocators;
  platform_core :: BcCore;
}.

Class PlatformLaws (PF : Platform) : Prop := {
  platform_kernel_laws :: KernelLaws platform_kernel;
  platform_allocators_laws :: AllocatorsLaws platform_allocators;
  platform_core_laws :: BcCoreLaws platform_core;
}.
