(* ===== verification/Objects.v ===== *)
(** * The structs of bc-io that live behind pointers

    The enums and structs of [include/public/bc_io_stream.h],
    [include/public/bc_io_mmap.h], [include/internal/bc_io_stream_internal.h],
    [src/mmap/bc_io_mmap.c], [src/file/bc_io_file_open.c],
    [src/file/bc_io_file_inode.c] and [src/file/bc_io_dirent_reader.c].  A pointer is an
    address (0 is NULL); the objects a pointer can lead to are the constructors
    of [object].  The stream's buffer is kept as the bytes it holds
    ([buffer_bytes]) beside its address ([buffer]). *)

From S2P Require Import Prelude Platform.

(** ** Streams *)

Inductive bc_io_stream_source_type_t :=
| BC_IO_STREAM_SOURCE_FILE
| BC_IO_STREAM_SOURCE_SOCKET
| BC_IO_STREAM_SOURCE_MEMORY
| BC_IO_STREAM_SOURCE_PIPE.
#[export] Instance source_type_eq_dec : EqDecision bc_io_stream_source_type_t.
Proof. solve_decision. Defined.

Inductive bc_io_stream_mode_t :=
| BC_IO_STREAM_MODE_READ
| BC_IO_STREAM_MODE_WRITE.
#[export] Instance stream_mode_eq_dec : EqDecision bc_io_stream_mode_t.
Proof. solve_decision. Defined.

Inductive bc_io_stream_access_hint_t :=
| BC_IO_STREAM_ACCESS_SEQUENTIAL
| BC_IO_STREAM_ACCESS_RANDOM
| BC_IO_STREAM_ACCESS_DROP.
#[export] Instance access_hint_eq_dec : EqDecision bc_io_stream_access_hint_t.
Proof. solve_decision. Defined.

Record bc_io_stream_chunk_t := mk_chunk {
  chunk_data : Z;
  chunk_size : Z;
  chunk_owned : bool;
}.

Record bc_io_stream_stats_t := mk_stats {
  bytes_read : Z;
  bytes_written : Z;
  read_count : Z;
  write_count : Z;
  short_read_count : Z;
  short_write_count : Z;
  retry_count : Z;
}.

Definition zero_stats : bc_io_stream_stats_t := mk_stats 0 0 0 0 0 0 0.

Record bc_io_stream_t := mk_stream {
  buffer_arena : Z;
  buffer : Z;
  buffer_bytes : list Z;
  buffer_size : Z;
  buffer_used : Z;
  source_type : bc_io_stream_source_type_t;
  mode : bc_io_stream_mode_t;
  file_descriptor : Z;
  owns_file_descriptor : bool;
  end_of_stream : bool;
  memory_data : Z;
  memory_size : Z;
  memory_position : Z;
  total_size : Z;
  total_size_known : bool;
  logical_position : Z;
  stats : bc_io_stream_stats_t;
}.

(** Assignments to the fields the operations change. *)
Definition set_buffer (bytes : list Z) (used : Z) (s : bc_io_stream_t) : bc_io_stream_t :=
  mk_stream (buffer_arena s) (buffer s) bytes (buffer_size s) used
    (source_type s) (mode s) (file_descriptor s) (owns_file_descriptor s) (end_of_stream s)
    (memory_data s) (memory_size s) (memory_position s) (total_size s) (total_size_known s)
    (logical_position s) (stats s).

Definition set_end_of_stream (b : bool) (s : bc_io_stream_t) : bc_io_stream_t :=
  mk_stream (buffer_arena s) (buffer s) (buffer_bytes s) (buffer_size s) (buffer_used s)
    (source_type s) (mode s) (file_descriptor s) (owns_file_descriptor s) b
    (memory_data s) (memory_size s) (memory_position s) (total_size s) (total_size_known s)
    (logical_position s) (stats s).

Definition set_memory (data size position : Z) (s : bc_io_stream_t) : bc_io_stream_t :=
  mk_stream (buffer_arena s) (buffer s) (buffer_bytes s) (buffer_size s) (buffer_used s)
    (source_type s) (mode s) (file_descriptor s) (owns_file_descriptor s) (end_of_stream s)
    data size position (total_size s) (total_size_known s)
    (logical_position s) (stats s).

Definition set_total_size (size : Z) (known : bool) (s : bc_io_stream_t) : bc_io_stream_t :=
  mk_stream (buffer_arena s) (buffer s) (buffer_bytes s) (buffer_size s) (buffer_used s)
    (source_type s) (mode s) (file_descriptor s) (owns_file_descriptor s) (end_of_stream s)
    (memory_data s) (memory_size s) (memory_position s) size known
    (logical_position s) (stats s).

Definition set_logical_position (p : Z) (s : bc_io_stream_t) : bc_io_stream_t :=
  mk_stream (buffer_arena s) (buffer s) (buffer_bytes s) (buffer_size s) (buffer_used s)
    (source_type s) (mode s) (file_descriptor s) (owns_file_descriptor s) (end_of_stream s)
    (memory_data s) (memory_size s) (memory_position s) (total_size s) (total_size_known s)
    p (stats s).

Definition set_stats (st : bc_io_stream_stats_t) (s : bc_io_stream_t) : bc_io_stream_t :=
  mk_stream (buffer_arena s) (buffer s) (buffer_bytes s) (buffer_size s) (buffer_used s)
    (source_type s) (mode s) (file_descriptor s) (owns_file_descriptor s) (end_of_stream s)
    (memory_data s) (memory_size s) (memory_position s) (total_size s) (total_size_known s)
    (logical_position s) st.

(** ** Memory maps *)

Inductive bc_io_mmap_madvise_hint_t :=
| BC_IO_MADVISE_NORMAL
| BC_IO_MADVISE_SEQUENTIAL
| BC_IO_MADVISE_RANDOM
| BC_IO_MADVISE_WILLNEED
| BC_IO_MADVISE_DONTNEED.
#[export] Instance madvise_hint_eq_dec : EqDecision bc_io_mmap_madvise_hint_t.
Proof. solve_decision. Defined.

Record bc_io_mmap_options_t := mk_mmap_options {
  read_only : bool;
  populate : bool;
  hugepages_hint : bool;
  madvise_hint : bc_io_mmap_madvise_hint_t;
  map_offset : Z;
  map_length : Z;
}.

(** [struct bc_io_file_map] *)
Record bc_io_mmap_t := mk_map {
  base_address : Z;
  mapped_size : Z;
  map_stream : Z;
  is_mapped : bool;
}.

Definition set_map_stream (stream : Z) (m : bc_io_mmap_t) : bc_io_mmap_t :=
  mk_map (base_address m) (mapped_size m) stream (is_mapped m).

(** ** Read handles *)

Inductive bc_io_file_read_handle_kind_t :=
| BC_IO_READ_HANDLE_KIND_BUFFERED
| BC_IO_READ_HANDLE_KIND_MEMORY_MAPPED.
#[export] Instance handle_kind_eq_dec : EqDecision bc_io_file_read_handle_kind_t.
Proof. solve_decision. Defined.

(** The kind is not set before the handle's contents are. *)
Record bc_io_file_read_handle_t := mk_handle {
  handle_kind : option bc_io_file_read_handle_kind_t;
  handle_stream : Z;
  handle_map : Z;
  handle_file_size : Z;
}.

(** ** Inode sets *)

(** [struct bc_io_file_inode_set]: the block of the buckets is at
    [bucket_block]; it holds the entries (device, inode) and, behind them, the
    occupied bytes. *)
Record bc_io_file_inode_set_t := mk_set {
  bucket_block : Z;
  entries : list (Z * Z);
  occupied : list Z;
  capacity : Z;
  set_size : Z;
}.

(** ** Directory readers *)

(** [struct bc_io_dirent_reader] *)
Record bc_io_dirent_reader_t := mk_reader {
  dir_fd : Z;
  last_errno : Z;
  reader_used : Z;
  cursor : Z;
  reader_buffer : list Z;
}.

(** ** What a heap cell holds *)

Inductive object :=
| ORaw
| OStream (s : bc_io_stream_t)
| OMap (m : bc_io_mmap_t)
| OHandle (h : bc_io_file_read_handle_t)
| OSet (s : bc_io_file_inode_set_t)
| OReader (r : bc_io_dirent_reader_t).
