(* ===== verification/Machine.v ===== *)
(** * Running C code against the platform

    The state of a run ([world]): the kernel and allocator states, [errno], the
    heap of objects, and the trace of what the process did to its environment.
    [M A] is the type of C code that returns an [A]; [wp m Q w] says that [m]
    run in [w] ends, without undefined behaviour, with [Q].  The ledger reads
    off the trace which descriptors, blocks, arenas and mappings are held. *)

From S2P Require Import Prelude Platform Objects.

(** ** The trace *)

Inductive event :=
| EvOpen (path : list Z) (flags : Z) (fd : option Z)
| EvClose (fd : Z)
| EvRead (fd : Z) (bytes : list Z)
| EvWrite (fd : Z) (bytes : list Z)
| EvPoolAlloc (p size : Z)
| EvPoolFree (p : Z)
| EvArenaNew (a : Z)
| EvArenaFree (a : Z)
| EvQueueNew (q : Z)
| EvQueueFree (q : Z)
| EvMmap (addr size : Z)
| EvMunmap (addr size : Z)
| EvAdvise (fd offset size advice : Z)
| EvMadvise (addr size advice : Z)
| EvRandom (bytes : list Z).

(** What the process has to give back. *)
Inductive resource :=
| RFd (fd : Z)
| RPool (p : Z)
| RArena (a : Z)
| RQueue (q : Z)
| RMap (addr size : Z).
#[export] Instance resource_eq_dec : EqDecision resource.
Proof. solve_decision. Defined.

Definition one (r x : resource) : Z := if decide (r = x) then 1 else 0.

Definition ledger1 (e : event) (r : resource) : Z :=
  match e with
  | EvOpen _ _ (Some fd) => one r (RFd fd)
  | EvClose fd => - one r (RFd fd)
  | EvPoolAlloc p _ => one r (RPool p)
  | EvPoolFree p => - one r (RPool p)
  | EvArenaNew a => one r (RArena a)
  | EvArenaFree a => - one r (RArena a)
  | EvQueueNew q => one r (RQueue q)
  | EvQueueFree q => - one r (RQueue q)
  | EvMmap a n => one r (RMap a n)
  | EvMunmap a n => - one r (RMap a n)
  | _ => 0
  end.

Fixpoint ledger (evs : list event) (r : resource) : Z :=
  match evs with
  | [] => 0
  | e :: evs' => ledger1 e r + ledger evs' r
  end.

(** How often each resource of a list occurs. *)
Fixpoint tokens (rs : list resource) (r : resource) : Z :=
  match rs with
  | [] => 0
  | x :: rs' => one r x + tokens rs' r
  end.

(** The bytes read from and written to a descriptor, in order. *)
Fixpoint received (fd : Z) (evs : list event) : list Z :=
  match evs with
  | [] => []
  | EvRead fd' bs :: evs' => if decide (fd = fd') then bs ++ received fd evs' else received fd evs'
  | _ :: evs' => received fd evs'
  end.

Fixpoint sent (fd : Z) (evs : list event) : list Z :=
  match evs with
  | [] => []
  | EvWrite fd' bs :: evs' => if decide (fd = fd') then bs ++ sent fd evs' else sent fd evs'
  | _ :: evs' => sent fd evs'
  end.

Lemma ledger_app evs evs' r : ledger (evs ++ evs') r = ledger evs r + ledger evs' r.
Proof. induction evs; simpl; lia. Qed.

Lemma tokens_app rs rs' r : tokens (rs ++ rs') r = tokens rs r + tokens rs' r.
Proof. induction rs; simpl; lia. Qed.

Lemma received_app fd evs evs' : received fd (evs ++ evs') = received fd evs ++ received fd evs'.
Proof.
  induction evs as [|[] evs IH]; simpl; try done.
  case_decide; by rewrite IH, ?app_assoc.
Qed.

Lemma sent_app fd evs evs' : sent fd (evs ++ evs') = sent fd evs ++ sent fd evs'.
Proof.
  induction evs as [|[] evs IH]; simpl; try done.
  case_decide; by rewrite IH, ?app_assoc.
Qed.

(** ** Worlds and code *)

Section machine.
Context {PF : Platform}.

Record world := mk_world {
  env : kstate;
  mem : pstate;
  errno : Z;
  heap : gmap Z object;
  trace : list event;
}.

Definition M (A : Type) : Type := world -> res (A * world).

#[export] Instance M_ret : MRet M := fun A a w => Done (a, w).
#[export] Instance M_bind : MBind M := fun A B k m w =>
  match m w with
  | Done (a, w') => k a w'
  | Undefined => Undefined
  | OutOfFuel => OutOfFuel
  end.

Definition wp {A} (m : M A) (Q : A -> world -> Prop) (w : world) : Prop :=
  safe (m w) (fun '(a, w') => Q a w').

(** Code without effects. *)
Definition lift {A} (r : res A) : M A := fun w =>
  match r with
  | Done a => Done (a, w)
  | Undefined => Undefined
  | OutOfFuel => OutOfFuel
  end.

Definition undefined {A} : M A := fun _ => Undefined.
Definition out_of_fuel {A} : M A := fun _ => OutOfFuel.

Definition get_errno : M Z := fun w => Done (errno w, w).
Definition set_errno (e : Z) : M unit := fun w =>
  Done (tt, mk_world (env w) (mem w) e (heap w) (trace w)).

(** ** System calls *)

Definition after_call (w : world) (k : kstate) (e : Z) (evs : list event) : world :=
  mk_world k (mem w) e (heap w) (trace w ++ evs).

(** A call that fails sets [errno]; a call that succeeds leaves it. *)
Definition syscall {A} (f : kstate -> sysret A * kstate) (log : option A -> list event)
    : M (option A) := fun w =>
  match f (env w) with
  | (SysOk a, k) => Done (Some a, after_call w k (errno w) (log (Some a)))
  | (SysErr e, k) => Done (None, after_call w k e (log None))
  end.

Definition open_ (path : list Z) (flags file_mode : Z) : M Z :=
  r ← syscall (fun k => sys_open k path flags file_mode)
        (fun fd => [EvOpen path flags fd]);
  mret (default (-1) r).

Definition close (fd : Z) : M unit := fun w =>
  Done (tt, after_call w (sys_close (env w) fd) (errno w) [EvClose fd]).

(** [read] returns the count and the bytes to store; -1 stores nothing. *)
Definition read (fd count : Z) : M (Z * list Z) :=
  r ← syscall (fun k => sys_read k fd count)
        (fun r => match r with Some bs => [EvRead fd bs] | None => [] end);
  mret (match r with Some bs => (zlen bs, bs) | None => (-1, []) end).

Definition write (fd : Z) (data : list Z) : M Z :=
  r ← syscall (fun k => sys_write k fd data)
        (fun r => match r with Some n => [EvWrite fd (ztake n data)] | None => [] end);
  mret (default (-1) r).

Definition fstat (fd : Z) : M (option stat_t) :=
  syscall (fun k => sys_fstat k fd) (fun _ => []).

Definition stat_ (path : list Z) : M (option stat_t) :=
  syscall (fun k => sys_stat k path) (fun _ => []).

Definition lstat (path : list Z) : M (option stat_t) :=
  syscall (fun k => sys_lstat k path) (fun _ => []).

Definition fstatat (dirfd : Z) (name : list Z) (flags : Z) : M (option stat_t) :=
  syscall (fun k => sys_fstatat k dirfd name flags) (fun _ => []).

(** [posix_fadvise] returns the error and leaves [errno]. *)
Definition posix_fadvise (fd offset size advice : Z) : M Z := fun w =>
  let '(r, k) := sys_posix_fadvise (env w) fd offset size advice in
  Done (r, after_call w k (errno w) [EvAdvise fd offset size advice]).

(** [MAP_FAILED] is [None]. *)
Definition mmap_ (size prot flags fd offset : Z) : M (option Z) :=
  syscall (fun k => sys_mmap k size prot flags fd offset)
    (fun r => match r with Some a => [EvMmap a size] | None => [] end).

Definition munmap (addr size : Z) : M unit := fun w =>
  Done (tt, after_call w (sys_munmap (env w) addr size) (errno w) [EvMunmap addr size]).

Definition madvise (addr size advice : Z) : M Z :=
  r ← syscall (fun k => sys_madvise k addr size advice)
        (fun _ => [EvMadvise addr size advice]);
  mret (match r with Some _ => 0 | None => -1 end).

Definition getrandom (count : Z) : M (Z * list Z) :=
  r ← syscall (fun k => sys_getrandom k count)
        (fun r => match r with Some bs => [EvRandom bs] | None => [] end);
  mret (match r with Some bs => (zlen bs, bs) | None => (-1, []) end).

Definition getdents64 (fd count : Z) : M (Z * list Z) :=
  r ← syscall (fun k => sys_getdents64 k fd count) (fun _ => []);
  mret (match r with Some bs => (zlen bs, bs) | None => (-1, []) end).

(** [getcwd] stores a path with its terminator, or returns NULL. *)
Definition getcwd (count : Z) : M (option (list Z)) :=
  syscall (fun k => sys_getcwd k count) (fun _ => []).

(** ** Allocation *)

Definition after_alloc (w : world) (m : pstate) (h : gmap Z object) (evs : list event) : world :=
  mk_world (env w) m (errno w) h (trace w ++ evs).

Definition bc_allocators_pool_allocate (size : Z) : M (option Z) := fun w =>
  match pool_alloc (mem w) size with
  | (Some p, m) => Done (Some p, after_alloc w m (<[p := ORaw]> (heap w)) [EvPoolAlloc p size])
  | (None, m) => Done (None, after_alloc w m (heap w) [])
  end.

(** What a block of the pool just allocated holds. *)
Definition fresh_bytes (p size : Z) : M (list Z) := fun w =>
  Done (pool_bytes (mem w) p size, w).

(** Releasing what is not allocated is undefined. *)
Definition bc_allocators_pool_free (p : Z) : M unit := fun w =>
  match heap w !! p with
  | Some _ => Done (tt, after_alloc w (pool_release (mem w) p) (delete p (heap w)) [EvPoolFree p])
  | None => Undefined
  end.

Definition bc_allocators_arena_create (size : Z) : M (option Z) := fun w =>
  match arena_new (mem w) size with
  | (Some a, m) => Done (Some a, after_alloc w m (heap w) [EvArenaNew a])
  | (None, m) => Done (None, after_alloc w m (heap w) [])
  end.

Definition bc_allocators_arena_allocate (a size alignment : Z) : M (option (Z * list Z)) := fun w =>
  let '(r, m) := arena_alloc (mem w) a size alignment in
  Done (r, after_alloc w m (heap w) []).

Definition bc_allocators_arena_destroy (a : Z) : M unit := fun w =>
  Done (tt, after_alloc w (arena_release (mem w) a) (heap w) [EvArenaFree a]).

Definition bc_allocators_context_page_size : M (option Z) := fun w =>
  Done (context_page_size (mem w), w).

(** ** Objects *)

Definition load (p : Z) : M object := fun w =>
  match heap w !! p with
  | Some o => Done (o, w)
  | None => Undefined
  end.

Definition store (p : Z) (o : object) : M unit := fun w =>
  match heap w !! p with
  | Some _ => Done (tt, mk_world (env w) (mem w) (errno w) (<[p := o]> (heap w)) (trace w))
  | None => Undefined
  end.

Definition load_stream (p : Z) : M bc_io_stream_t :=
  o ← load p; match o with OStream s => mret s | _ => undefined end.

Definition load_map (p : Z) : M bc_io_mmap_t :=
  o ← load p; match o with OMap m => mret m | _ => undefined end.

Definition load_set (p : Z) : M bc_io_file_inode_set_t :=
  o ← load p; match o with OSet s => mret s | _ => undefined end.

Definition load_reader (p : Z) : M bc_io_dirent_reader_t :=
  o ← load p; match o with OReader r => mret r | _ => undefined end.

Definition load_handle (p : Z) : M bc_io_file_read_handle_t :=
  o ← load p; match o with OHandle h => mret h | _ => undefined end.

(** ** Invariants of runs *)

Definition held (w : world) (r : resource) : Z := ledger (trace w) r.

Section laws.
Context {PL : PlatformLaws PF}.

(** Every object is in a live block. *)
Definition wf_world (w : world) : Prop := dom (heap w) ⊆ live (mem w).

(** [quiet w w']: the run from [w] to [w'] allocated and released nothing. *)
Record quiet (w w' : world) : Prop := {
  quiet_mem : mem w' = mem w;
  quiet_heap : heap w' = heap w;
  quiet_held : forall r, held w' r = held w r;
  quiet_patience : (patience (env w') <= patience (env w))%nat;
}.

(** ** Lemmas *)

Lemma wf_world_dom w p : wf_world w -> p ∉ live (mem w) -> heap w !! p = None.
Proof. unfold wf_world. intros Hwf Hp. apply not_elem_of_dom. set_solver. Qed.

#[export] Instance quiet_preorder : PreOrder quiet.
Proof.
  split.
  - intros w; by constructor.
  - intros w1 w2 w3 [Hm1 Hh1 Hr1 Hp1] [Hm2 Hh2 Hr2 Hp2].
    constructor; [congruence|congruence| |lia].
    intros r; by rewrite Hr2, Hr1.
Qed.

Lemma wf_world_quiet w w' : quiet w w' -> wf_world w -> wf_world w'.
Proof. intros [Hm Hh _ _]. unfold wf_world. by rewrite Hm, Hh. Qed.

(** *** Weakest preconditions: structure *)

Lemma wp_ret {A} (a : A) Q w : Q a w -> wp (mret a) Q w.
Proof. done. Qed.

Lemma wp_bind {A B} (m : M A) (k : A -> M B) Q w :
  wp m (fun a => wp (k a) Q) w -> wp (m ≫= k) Q w.
Proof. unfold wp, mbind, M_bind. destruct (m w) as [[a w']| |]; done. Qed.

Lemma wp_mono {A} (m : M A) (P Q : A -> world -> Prop) w :
  wp m P w -> (forall a w', P a w' -> Q a w') -> wp m Q w.
Proof. unfold wp. destruct (m w) as [[a w']| |]; simpl; eauto. Qed.

Lemma wp_lift {A} (r : res A) Q w : safe r (fun a => Q a w) -> wp (lift r) Q w.
Proof. unfold wp, lift. by destruct r. Qed.

Lemma wp_run {A} (m : M A) Q w :
  wp m Q w <-> exists a w', m w = Done (a, w') /\ Q a w'.
Proof. unfold wp. destruct (m w) as [[a w']| |]; naive_solver. Qed.

(** A specification, with the equation of the run. *)
Lemma wp_equation {A} (m : M A) Q w : wp m Q w -> wp m (fun a w' => m w = Done (a, w') /\ Q a w') w.
Proof. unfold wp. destruct (m w) as [[a w']| |]; [by split|done|done]. Qed.

Lemma wp_get_errno Q w : Q (errno w) w -> wp get_errno Q w.
Proof. done. Qed.

Lemma wp_set_errno e Q w :
  Q tt (mk_world (env w) (mem w) e (heap w) (trace w)) -> wp (set_errno e) Q w.
Proof. done. Qed.

(** *** Weakest preconditions: system calls *)

Lemma wp_syscall {A} (f : kstate -> sysret A * kstate) log Q w :
  (forall a k, f (env w) = (SysOk a, k) ->
     Q (Some a) (after_call w k (errno w) (log (Some a)))) ->
  (forall e k, f (env w) = (SysErr e, k) -> Q None (after_call w k e (log None))) ->
  wp (syscall f log) Q w.
Proof. intros Hok Herr. unfold wp, syscall. destruct (f (env w)) as [[a|e] k]; simpl; auto. Qed.

Lemma wp_open_answer path flags fm Q w :
  (forall fd k, sys_open (env w) path flags fm = (SysOk fd, k) -> 0 <= fd ->
     (patience k <= patience (env w))%nat ->
     Q fd (after_call w k (errno w) [EvOpen path flags (Some fd)])) ->
  (forall e k, sys_open (env w) path flags fm = (SysErr e, k) -> (patience k <= patience (env w))%nat ->
     Q (-1) (after_call w k e [EvOpen path flags None])) ->
  wp (open_ path flags fm) Q w.
Proof.
  intros Hok Herr. apply wp_bind, wp_syscall; intros ? k Hk; apply wp_ret; simpl.
  - apply Hok; [done|by eapply sys_open_fd|by eapply sys_open_patience].
  - apply Herr; [done|by eapply sys_open_patience].
Qed.

Lemma wp_open path flags fm Q w :
  (forall fd k, 0 <= fd -> (patience k <= patience (env w))%nat ->
     Q fd (after_call w k (errno w) [EvOpen path flags (Some fd)])) ->
  (forall e k, (patience k <= patience (env w))%nat ->
     Q (-1) (after_call w k e [EvOpen path flags None])) ->
  wp (open_ path flags fm) Q w.
Proof. intros Hok Herr. apply wp_open_answer; intros; auto. Qed.

Lemma wp_close fd Q w :
  (forall k, (patience k <= patience (env w))%nat ->
     Q tt (after_call w k (errno w) [EvClose fd])) ->
  wp (close fd) Q w.
Proof. intros H. apply H, sys_close_patience. Qed.

Lemma wp_read fd n Q w :
  (forall bs k, zlen bs <= n -> (patience k <= patience (env w))%nat ->
     Q (zlen bs, bs) (after_call w k (errno w) [EvRead fd bs])) ->
  (forall e k, (patience k <= patience (env w))%nat ->
     (e = EINTR -> (patience k < patience (env w))%nat) ->
     Q (-1, []) (after_call w k e [])) ->
  wp (read fd n) Q w.
Proof.
  intros Hok Herr. apply wp_bind, wp_syscall; intros ? k Hk; apply wp_ret; simpl.
  - apply Hok; [by eapply sys_read_len|by eapply sys_read_patience].
  - apply Herr; [by eapply sys_read_patience|]. intros ->. by eapply sys_read_interrupted.
Qed.

Lemma wp_write fd bs Q w :
  (forall n k, 0 <= n <= zlen bs -> (patience k <= patience (env w))%nat ->
     (n = 0 -> bs <> [] -> (patience k < patience (env w))%nat) ->
     Q n (after_call w k (errno w) [EvWrite fd (ztake n bs)])) ->
  (forall e k, (patience k <= patience (env w))%nat ->
     (e = EINTR -> (patience k < patience (env w))%nat) ->
     Q (-1) (after_call w k e [])) ->
  wp (write fd bs) Q w.
Proof.
  intros Hok Herr. apply wp_bind, wp_syscall; intros ? k Hk; apply wp_ret; simpl.
  - apply Hok; [by eapply sys_write_count|by eapply sys_write_patience|].
    intros -> ?. by eapply sys_write_stalled.
  - apply Herr; [by eapply sys_write_patience|]. intros ->. by eapply sys_write_interrupted.
Qed.

Lemma wp_fstat_answer fd Q w :
  (forall s k, sys_fstat (env w) fd = (SysOk s, k) -> 0 <= st_size s < 9223372036854775808 ->
     (patience k <= patience (env w))%nat ->
     Q (Some s) (after_call w k (errno w) [])) ->
  (forall e k, (patience k <= patience (env w))%nat -> Q None (after_call w k e [])) ->
  wp (fstat fd) Q w.
Proof.
  intros Hok Herr. apply wp_syscall; intros ? k Hk.
  - apply Hok; [done|by eapply sys_fstat_size|by eapply sys_fstat_patience].
  - apply Herr; by eapply sys_fstat_patience.
Qed.

Lemma wp_fstat fd Q w :
  (forall s k, 0 <= st_size s < 9223372036854775808 ->
     (patience k <= patience (env w))%nat ->
     Q (Some s) (after_call w k (errno w) [])) ->
  (forall e k, (patience k <= patience (env w))%nat -> Q None (after_call w k e [])) ->
  wp (fstat fd) Q w.
Proof. intros Hok Herr. apply wp_fstat_answer; intros; auto. Qed.

Lemma wp_fstatat fd name flags Q w :
  (forall s k, 0 <= st_size s < 9223372036854775808 ->
     (patience k <= patience (env w))%nat ->
     Q (Some s) (after_call w k (errno w) [])) ->
  (forall e k, (patience k <= patience (env w))%nat -> Q None (after_call w k e [])) ->
  wp (fstatat fd name flags) Q w.
Proof.
  intros Hok Herr. apply wp_syscall; intros ? k Hk.
  - apply Hok; [by eapply sys_fstatat_size|by eapply sys_fstatat_patience].
  - apply Herr; by eapply sys_fstatat_patience.
Qed.

Lemma wp_getdents64 fd n Q w :
  (forall ds k, let bs := encode_batch ds in
     Forall dirent_ok ds -> zlen bs <= n -> (patience k <= patience (env w))%nat ->
     (bs <> [] -> (patience k < patience (env w))%nat) ->
     Q (zlen bs, bs) (after_call w k (errno w) [])) ->
  (forall e k, (patience k <= patience (env w))%nat -> Q (-1, []) (after_call w k e [])) ->
  wp (getdents64 fd n) Q w.
Proof.
  intros Hok Herr. apply wp_bind, wp_syscall; intros ? k Hk; apply wp_ret; simpl.
  - destruct (sys_getdents64_records _ _ _ _ _ Hk) as (ds & -> & Hds).
    apply Hok; [done|by eapply sys_getdents64_len|by eapply sys_getdents64_patience|].
    intros. by eapply sys_getdents64_progress.
  - apply Herr; by eapply sys_getdents64_patience.
Qed.

Lemma wp_posix_fadvise fd o l a Q w :
  (forall r k, (patience k <= patience (env w))%nat ->
     Q r (after_call w k (errno w) [EvAdvise fd o l a])) ->
  wp (posix_fadvise fd o l a) Q w.
Proof.
  intros H. unfold wp, posix_fadvise. destruct (sys_posix_fadvise _ _ _ _ _) as [r k] eqn:E.
  apply H. by eapply sys_fadvise_patience.
Qed.

Lemma wp_mmap n prot flags fd o Q w :
  (forall a k, a <> 0 -> (patience k <= patience (env w))%nat ->
     Q (Some a) (after_call w k (errno w) [EvMmap a n])) ->
  (forall e k, (patience k <= patience (env w))%nat -> Q None (after_call w k e [])) ->
  wp (mmap_ n prot flags fd o) Q w.
Proof.
  intros Hok Herr. apply wp_syscall; intros ? k Hk.
  - apply Hok; [by eapply sys_mmap_addr|by eapply sys_mmap_patience].
  - apply Herr; by eapply sys_mmap_patience.
Qed.

Lemma wp_munmap a n Q w :
  (forall k, (patience k <= patience (env w))%nat ->
     Q tt (after_call w k (errno w) [EvMunmap a n])) ->
  wp (munmap a n) Q w.
Proof. intros H. apply H, sys_munmap_patience. Qed.

Lemma wp_madvise a n h Q w :
  (forall r e k, (patience k <= patience (env w))%nat ->
     Q r (after_call w k e [EvMadvise a n h])) ->
  wp (madvise a n h) Q w.
Proof.
  intros H. apply wp_bind, wp_syscall; intros ? k Hk; apply wp_ret;
    apply H; by eapply sys_madvise_patience.
Qed.

Lemma wp_getrandom n Q w :
  (forall bs k, zlen bs <= n -> (patience k <= patience (env w))%nat ->
     (bs = [] -> 0 < n -> (patience k < patience (env w))%nat) ->
     Q (zlen bs, bs) (after_call w k (errno w) [EvRandom bs])) ->
  (forall e k, (patience k <= patience (env w))%nat ->
     (e = EINTR -> (patience k < patience (env w))%nat) ->
     Q (-1, []) (after_call w k e [])) ->
  wp (getrandom n) Q w.
Proof.
  intros Hok Herr. apply wp_bind, wp_syscall; intros ? k Hk; apply wp_ret; simpl.
  - apply Hok; [by eapply sys_getrandom_len|by eapply sys_getrandom_patience|].
    intros -> ?. by eapply sys_getrandom_stalled.
  - apply Herr; [by eapply sys_getrandom_patience|]. intros ->.
    by eapply sys_getrandom_interrupted.
Qed.

(** *** Weakest preconditions: allocation and objects *)

Lemma wp_pool_allocate n Q w :
  (forall p m, p <> 0 -> p ∉ live (mem w) -> live m = {[p]} ∪ live (mem w) ->
     Q (Some p) (after_alloc w m (<[p := ORaw]> (heap w)) [EvPoolAlloc p n])) ->
  (forall m, live m = live (mem w) -> Q None (after_alloc w m (heap w) [])) ->
  wp (bc_allocators_pool_allocate n) Q w.
Proof.
  intros Hok Hno. unfold wp, bc_allocators_pool_allocate.
  destruct (pool_alloc (mem w) n) as [[p|] m] eqn:E; simpl.
  - destruct (pool_alloc_fresh _ _ _ _ E). apply Hok; [done..|by eapply pool_alloc_live].
  - apply Hno. by eapply pool_alloc_fail.
Qed.

Lemma wp_pool_free p o Q w :
  heap w !! p = Some o ->
  (forall m, live m = live (mem w) ∖ {[p]} ->
     Q tt (after_alloc w m (delete p (heap w)) [EvPoolFree p])) ->
  wp (bc_allocators_pool_free p) Q w.
Proof.
  intros Hp H. unfold wp, bc_allocators_pool_free. rewrite Hp.
  apply H, pool_release_live.
Qed.

Lemma wp_arena_create n Q w :
  (forall a m, a <> 0 -> live m = live (mem w) ->
     Q (Some a) (after_alloc w m (heap w) [EvArenaNew a])) ->
  (forall m, live m = live (mem w) -> Q None (after_alloc w m (heap w) [])) ->
  wp (bc_allocators_arena_create n) Q w.
Proof.
  intros Hok Hno. unfold wp, bc_allocators_arena_create.
  destruct (arena_new (mem w) n) as [[a|] m] eqn:E; simpl.
  - apply Hok; [by eapply arena_new_addr|by eapply arena_new_live].
  - apply Hno; by eapply arena_new_live.
Qed.

Lemma wp_arena_allocate a n al Q w :
  (forall p bs m, (0 <= n -> zlen bs = n) -> live m = live (mem w) ->
     Q (Some (p, bs)) (after_alloc w m (heap w) [])) ->
  (forall m, live m = live (mem w) -> Q None (after_alloc w m (heap w) [])) ->
  wp (bc_allocators_arena_allocate a n al) Q w.
Proof.
  intros Hok Hno. unfold wp, bc_allocators_arena_allocate.
  destruct (arena_alloc (mem w) a n al) as [[[p bs]|] m] eqn:E; simpl.
  - apply Hok; [by eapply arena_alloc_size|by eapply arena_alloc_live].
  - apply Hno; by eapply arena_alloc_live.
Qed.

Lemma wp_arena_destroy a Q w :
  (forall m, live m = live (mem w) -> Q tt (after_alloc w m (heap w) [EvArenaFree a])) ->
  wp (bc_allocators_arena_destroy a) Q w.
Proof. intros H. apply H, arena_release_live. Qed.

Lemma wp_page_size Q w :
  (forall n, 0 < n -> Q (Some n) w) -> Q None w ->
  wp bc_allocators_context_page_size Q w.
Proof.
  intros Hok Hno. unfold wp, bc_allocators_context_page_size; simpl.
  destruct (context_page_size (mem w)) eqn:E; [|done].
  apply Hok. by eapply page_size_positive.
Qed.

Lemma wp_store p o o' Q w :
  heap w !! p = Some o ->
  Q tt (mk_world (env w) (mem w) (errno w) (<[p := o']> (heap w)) (trace w)) ->
  wp (store p o') Q w.
Proof. intros Hp H. unfold wp, store. by rewrite Hp. Qed.

Lemma wp_load_stream p s Q w :
  heap w !! p = Some (OStream s) -> Q s w -> wp (load_stream p) Q w.
Proof. intros Hp H. unfold wp, load_stream, mbind, M_bind, load. by rewrite Hp. Qed.

Lemma wp_load_map p m Q w :
  heap w !! p = Some (OMap m) -> Q m w -> wp (load_map p) Q w.
Proof. intros Hp H. unfold wp, load_map, mbind, M_bind, load. by rewrite Hp. Qed.

Lemma wp_load_set p s Q w :
  heap w !! p = Some (OSet s) -> Q s w -> wp (load_set p) Q w.
Proof. intros Hp H. unfold wp, load_set, mbind, M_bind, load. by rewrite Hp. Qed.

Lemma wp_fresh_bytes p n Q w :
  (forall bytes, (0 <= n -> zlen bytes = n) -> Q bytes w) -> wp (fresh_bytes p n) Q w.
Proof. intros H. apply H, pool_bytes_size. Qed.

Lemma wp_load_reader p r Q w :
  heap w !! p = Some (OReader r) -> Q r w -> wp (load_reader p) Q w.
Proof. intros Hp H. unfold wp, load_reader, mbind, M_bind, load. by rewrite Hp. Qed.

Lemma wp_load_handle p h Q w :
  heap w !! p = Some (OHandle h) -> Q h w -> wp (load_handle p) Q w.
Proof. intros Hp H. unfold wp, load_handle, mbind, M_bind, load. by rewrite Hp. Qed.

(** ** Runs that allocate and release *)

(** [evolved h d w w']: a run from [w] to [w'] ended with heap [h] and moved the
    ledger by [d]. *)
Record evolved (h : gmap Z object) (d : resource -> Z) (w w' : world) : Prop := {
  evolved_heap : heap w' = h;
  evolved_held : forall r, held w' r = held w r + d r;
  evolved_wf : wf_world w';
  evolved_patience : (patience (env w') <= patience (env w))%nat;
}.

Definition nothing : resource -> Z := fun _ => 0.

Lemma evolved_quiet w w' : quiet w w' -> wf_world w -> evolved (heap w) nothing w w'.
Proof.
  intros Hq Hwf. split; [apply Hq| | |apply Hq].
  - intros r. rewrite (quiet_held _ _ Hq). unfold nothing. lia.
  - by eapply wf_world_quiet.
Qed.

Lemma evolved_trans h1 h2 d1 d2 w1 w2 w3 :
  evolved h1 d1 w1 w2 -> evolved h2 d2 w2 w3 ->
  evolved h2 (fun r => d1 r + d2 r) w1 w3.
Proof.
  intros [Hh1 Hd1 Hw1 Hp1] [Hh2 Hd2 Hw2 Hp2]. split; [done| |done|lia].
  intros r. rewrite Hd2, Hd1. lia.
Qed.

Lemma evolved_ext h h' d d' w w' :
  evolved h d w w' -> h = h' -> (forall r, d r = d' r) -> evolved h' d' w w'.
Proof. intros [] <- E. split; try done. intros r. by rewrite <- E. Qed.

Lemma evolved_balanced w w' :
  evolved (heap w) nothing w w' -> heap w' = heap w /\ forall r, held w' r = held w r.
Proof. intros [Hh Hd _ _]. split; [done|]. intros r. rewrite Hd. unfold nothing. lia. Qed.

End laws.
End machine.
Arguments world : clear implicits.
Arguments world {PF}.
Arguments M {PF} A.

(** ** Automation *)

Create Rewrite HintDb machine.
#[export] Hint Rewrite ledger_app tokens_app received_app sent_app : machine.

(** One step of symbolic execution: open a sequence, return a value, run an
    operation by its rule. *)
Ltac wp_step :=
  match goal with
  | |- wp (mbind _ _) _ _ => apply wp_bind
  | |- wp (mret _) _ _ => apply wp_ret
  | |- wp get_errno _ _ => apply wp_get_errno
  | |- wp (set_errno _) _ _ => apply wp_set_errno
  | |- wp (open_ _ _ _) _ _ => apply wp_open; intros
  | |- wp (close _) _ _ => apply wp_close; intros
  | |- wp (fstat _) _ _ => apply wp_fstat; intros
  | |- wp (fstatat _ _ _) _ _ => apply wp_fstatat; intros
  | |- wp (getdents64 _ _) _ _ => apply wp_getdents64; intros
  | |- wp (posix_fadvise _ _ _ _) _ _ => apply wp_posix_fadvise; intros
  | |- wp (mmap_ _ _ _ _ _) _ _ => apply wp_mmap; intros
  | |- wp (munmap _ _) _ _ => apply wp_munmap; intros
  | |- wp (madvise _ _ _) _ _ => apply wp_madvise; intros
  | |- wp (bc_allocators_pool_allocate _) _ _ => apply wp_pool_allocate; intros
  | |- wp (bc_allocators_arena_create _) _ _ => apply wp_arena_create; intros
  | |- wp (bc_allocators_arena_allocate _ _ _) _ _ => apply wp_arena_allocate; intros
  | |- wp (bc_allocators_arena_destroy _) _ _ => apply wp_arena_destroy; intros
  | |- wp bc_allocators_context_page_size _ _ => apply wp_page_size; intros
  | |- wp (bc_allocators_pool_free _) _ _ =>
      eapply wp_pool_free; [by simpl; simplify_map_eq|intros]
  | |- wp (store _ _) _ _ => eapply wp_store; [by simpl; simplify_map_eq|]
  | |- wp (load_stream _) _ _ => eapply wp_load_stream; [by simpl; simplify_map_eq|]
  | |- wp (fresh_bytes _ _) _ _ => apply wp_fresh_bytes; intros
  | |- wp (load_set _) _ _ => eapply wp_load_set; [by simpl; simplify_map_eq|]
  | |- wp (load_reader _) _ _ => eapply wp_load_reader; [by simpl; simplify_map_eq|]
  | |- wp (load_map _) _ _ => eapply wp_load_map; [by simpl; simplify_map_eq|]
  | |- wp (load_handle _) _ _ => eapply wp_load_handle; [by simpl; simplify_map_eq|]
  | |- wp (match ?x with _ => _ end) _ _ => destruct x eqn:?; simplify_eq
  | |- wp (if ?b then _ else _) _ _ => destruct b eqn:?
  end; simpl; try lia.

Ltac wp_run := repeat wp_step.

(** Balances of the ledger after a run. *)
Ltac held_lia :=
  unfold held; simpl; autorewrite with machine; simpl; try lia.

(** Closing goals about worlds after a run of allocations: every object is in a
    live block, the heap is the expected one, the ledger balances. *)
Ltac solve_wf :=
  unfold wf_world in *; simpl in *; rewrite ?dom_delete_L, ?dom_insert_L;
  repeat match goal with H : live _ = _ |- _ => rewrite H; clear H end; set_solver.

Ltac solve_heap :=
  simpl; rewrite ?insert_insert_eq, ?delete_insert_eq, ?insert_delete_eq, ?delete_id;
  try done; by apply wf_world_dom.

Ltac solve_evolved :=
  split; [solve_heap|intros ?; unfold nothing; held_lia|solve_wf|simpl in *; lia].

Lemma close_evolved `{PF : Platform} {PL : PlatformLaws PF} fd w :
  wf_world w ->
  wp (close fd) (fun _ w' => evolved (heap w) (fun r => - one r (RFd fd)) w w') w.
Proof. intros Hwf. apply wp_close. intros k Hk. solve_evolved. Qed.

Lemma evolved_refl `{PF : Platform} w : wf_world w -> evolved (heap w) nothing w w.
Proof. intros Hwf. by apply evolved_quiet. Qed.

Lemma evolved_free `{PF : Platform} {PL : PlatformLaws PF} h d w0 w p x :
  evolved h d w0 w -> h !! p = Some x ->
  wp (bc_allocators_pool_free p)
    (fun _ w' => evolved (delete p h) (fun r => d r - one r (RPool p)) w0 w') w.
Proof.
  intros [Hh Hd Hw Hpat] Hp. subst h. eapply wp_pool_free; [done|]. intros m Hm. split; [done| |solve_wf|done].
  intros r. specialize (Hd r). unfold held in *. held_lia.
Qed.

Lemma evolved_close `{PF : Platform} {PL : PlatformLaws PF} h d w0 w fd :
  evolved h d w0 w -> wp (close fd) (fun _ w' => evolved h (fun r => d r - one r (RFd fd)) w0 w') w.
Proof.
  intros He. eapply wp_mono; [apply close_evolved, He|]. intros ? w' He'.
  eapply evolved_ext; [eapply evolved_trans; [exact He|exact He']|apply He|]. intros r. simpl. lia.
Qed.
