(* ===== verification/Scripted.v ===== *)
(** * A concrete platform

    A kernel that answers from scripts (one list of answers per call, a benign
    answer when the list is used up), an allocator that hands out increasing
    addresses or fails as its script says, and reference definitions of the
    bc-core operations.  It meets the platform laws, so the theorems that assume
    them can be applied to it, and code run on it evaluates. *)

From S2P Require Import Prelude Platform Objects Machine.

(** ** The kernel *)

(** Errors of the concrete kernels. *)
Definition ENOENT : Z := 2.
Definition EBADF : Z := 9.
Definition ENOSYS : Z := 38.

Record script := mk_script {
  sc_opens : list (sysret Z);
  sc_reads : list (sysret (list Z));
  sc_writes : list (sysret Z);
  sc_stats : list (sysret stat_t);
  sc_maps : list (sysret Z);
  sc_randoms : list (sysret (list Z));
  sc_dents : list (sysret (list dirent));
}.

Definition quiet_script : script := mk_script [] [] [] [] [] [] [].

Definition regular_file (size : Z) : stat_t := mk_stat 1 2 33188 1 0 0 size 0 0.

(** The answers a well-behaved kernel may give. *)
Definition sane_fd (r : sysret Z) : sysret Z :=
  match r with
  | SysOk fd => if decide (0 <= fd) then SysOk fd else SysErr EINVAL
  | SysErr e => SysErr e
  end.
Definition sane_bytes (n : Z) (r : sysret (list Z)) : sysret (list Z) :=
  match r with
  | SysOk bs => if decide (0 <= n) then SysOk (ztake n bs) else SysErr EINVAL
  | SysErr e => SysErr e
  end.
Definition sane_count (data : list Z) (r : sysret Z) : sysret Z :=
  match r with
  | SysOk n => SysOk (Z.max 0 (Z.min n (zlen data)))
  | SysErr e => SysErr e
  end.
Definition sane_batch (n : Z) (r : sysret (list dirent)) : sysret (list Z) :=
  match r with
  | SysOk ds =>
      if decide (Forall dirent_ok ds /\ zlen (encode_batch ds) <= n)
      then SysOk (encode_batch ds) else SysErr EINVAL
  | SysErr e => SysErr e
  end.
Definition sane_stat (r : sysret stat_t) : sysret stat_t :=
  match r with
  | SysOk s => if decide (0 <= st_size s < 9223372036854775808) then SysOk s else SysErr EINVAL
  | SysErr e => SysErr e
  end.
Definition sane_addr (r : sysret Z) : sysret Z :=
  match r with
  | SysOk a => if decide (a <> 0) then SysOk a else SysErr ENOMEM
  | SysErr e => SysErr e
  end.

Definition pop {A} (dflt : A) (l : list A) : A := match l with [] => dflt | x :: _ => x end.

Definition with_reads (l : list (sysret (list Z))) (k : script) : script :=
  mk_script (sc_opens k) l (sc_writes k) (sc_stats k) (sc_maps k) (sc_randoms k) (sc_dents k).
Definition with_stats (l : list (sysret stat_t)) (k : script) : script :=
  mk_script (sc_opens k) (sc_reads k) (sc_writes k) l (sc_maps k) (sc_randoms k) (sc_dents k).

Definition script_patience (k : script) : nat :=
  length (sc_reads k) + length (sc_writes k) + length (sc_randoms k) + length (sc_dents k).

Definition answer_stat (k : script) : sysret stat_t * script :=
  (sane_stat (pop (SysOk (regular_file 0)) (sc_stats k)), with_stats (tail (sc_stats k)) k).

#[local] Instance scripted_kernel : Kernel := {|
  kstate := script;
  sys_open k _ _ _ :=
    (sane_fd (pop (SysOk 3) (sc_opens k)),
     mk_script (tail (sc_opens k)) (sc_reads k) (sc_writes k) (sc_stats k) (sc_maps k)
       (sc_randoms k) (sc_dents k));
  sys_close k _ := k;
  sys_read k _ n :=
    (sane_bytes n (pop (SysOk []) (sc_reads k)), with_reads (tail (sc_reads k)) k);
  sys_write k _ data :=
    (sane_count data (pop (SysOk (zlen data)) (sc_writes k)),
     mk_script (sc_opens k) (sc_reads k) (tail (sc_writes k)) (sc_stats k) (sc_maps k)
       (sc_randoms k) (sc_dents k));
  sys_fstat k _ := answer_stat k;
  sys_stat k _ := answer_stat k;
  sys_lstat k _ := answer_stat k;
  sys_fstatat k _ _ _ := answer_stat k;
  sys_posix_fadvise k _ _ _ _ := (0, k);
  sys_mmap k _ _ _ _ _ :=
    (sane_addr (pop (SysOk 1048576) (sc_maps k)),
     mk_script (sc_opens k) (sc_reads k) (sc_writes k) (sc_stats k) (tail (sc_maps k))
       (sc_randoms k) (sc_dents k));
  sys_munmap k _ _ := k;
  sys_madvise k _ _ _ := (SysOk tt, k);
  sys_getrandom k n :=
    (sane_bytes n (pop (SysOk (zrepeat 7 n)) (sc_randoms k)),
     mk_script (sc_opens k) (sc_reads k) (sc_writes k) (sc_stats k) (sc_maps k)
       (tail (sc_randoms k)) (sc_dents k));
  sys_getdents64 k _ n :=
    (sane_batch n (pop (SysOk []) (sc_dents k)),
     mk_script (sc_opens k) (sc_reads k) (sc_writes k) (sc_stats k) (sc_maps k)
       (sc_randoms k) (tail (sc_dents k)));
  sys_getcwd k n := (sane_bytes n (SysOk (bytes_of_string "/srv" ++ [0])), k);
  patience := script_patience;
|}.

(** ** The allocator *)

Record scripted_pool := mk_pool {
  pool_live : gset Z;
  pool_failures : list bool;
}.

Definition next_address (live : gset Z) : Z := 1 + foldr Z.max 0 (elements live).

Definition quiet_pool : scripted_pool := mk_pool ∅ [].

#[local] Instance scripted_allocators : Allocators := {|
  pstate := scripted_pool;
  pool_alloc m _ :=
    let rest := tail (pool_failures m) in
    if pop false (pool_failures m) then (None, mk_pool (pool_live m) rest)
    else (Some (next_address (pool_live m)),
          mk_pool ({[next_address (pool_live m)]} ∪ pool_live m) rest);
  pool_bytes _ _ n := zrepeat 165 n;
  pool_release m p := mk_pool (pool_live m ∖ {[p]}) (pool_failures m);
  arena_new m _ :=
    let rest := tail (pool_failures m) in
    if pop false (pool_failures m) then (None, mk_pool (pool_live m) rest)
    else (Some 4096, mk_pool (pool_live m) rest);
  arena_alloc m _ n _ :=
    let rest := tail (pool_failures m) in
    if pop false (pool_failures m) then (None, mk_pool (pool_live m) rest)
    else (Some (65536, zrepeat 0 n), mk_pool (pool_live m) rest);
  arena_release m _ := m;
  context_page_size _ := Some 4096;
  live := pool_live;
|}.

(** ** bc-core *)

Fixpoint find_terminator (l : list Z) (t : Z) : option Z :=
  match l with
  | [] => None
  | x :: l' => if decide (x = t) then Some 0 else (Z.add 1) <$> find_terminator l' t
  end.

#[local] Instance reference_core : BcCore := {|
  core_align_up v a :=
    if decide (v + (a - 1) < u64_modulus) then (true, Some ((v + (a - 1)) / a * a)) else (false, None);
  core_safe_multiply a b := if decide (a * b < u64_modulus) then Some (a * b) else None;
  core_safe_add a b := if decide (a + b < u64_modulus) then Some (a + b) else None;
  core_length := find_terminator;
  core_copy _ src := src;
  core_move block dst src n :=
    ztake dst block ++ ztake n (zdrop src block) ++ zdrop (dst + n) block;
  core_zero block := (true, zrepeat 0 (zlen block));
|}.

#[export] Instance scripted_platform : Platform := {|
  platform_kernel := scripted_kernel;
  platform_allocators := scripted_allocators;
  platform_core := reference_core;
|}.

Definition scripted_world (k : script) : world := mk_world k quiet_pool 0 ∅ [].

(** ** It meets the laws *)

Ltac scripted_step :=
  simpl; unfold answer_stat, script_patience; intros; simplify_eq; simpl;
  rewrite ?length_tl; lia.

#[export] Instance scripted_kernel_laws : KernelLaws scripted_kernel.
Proof.
  split; try scripted_step; simpl; unfold answer_stat, script_patience.
  - intros k p f m fd k' H. simplify_eq. destruct (sc_opens k) as [|[a|e] l]; simpl in *;
      simplify_eq; try lia; by case_decide; simplify_eq.
  - intros k fd n bs k' H. simplify_eq.
    destruct (pop _ _) as [a|e]; simpl in *; [|done]. case_decide; simplify_eq. block_lia.
  - intros k fd n k' H. simplify_eq. destruct (sc_reads k) as [|[a|e] l]; simpl in *;
      try (case_decide; simplify_eq); lia.
  - intros k fd bs n k' H. simplify_eq. destruct (pop _ _) as [a|e]; simpl in *; simplify_eq.
    block_lia.
  - intros k fd bs k' H. simplify_eq. destruct (sc_writes k) as [|[a|e] l]; simpl in *;
      simplify_eq; lia.
  - intros k fd bs k' H Hbs. simplify_eq. destruct (sc_writes k) as [|[a|e] l]; simpl in *;
      simplify_eq; try lia.
    assert (zlen bs = 0) as E%zlen_nil_inv by block_lia. done.
  - intros k fd s k' H. simplify_eq. destruct (pop _ _) as [a|e]; simpl in *; [|done].
    by case_decide; simplify_eq.
  - intros k l p f fd o a k' H. simplify_eq. destruct (pop _ _) as [x|e]; simpl in *; [|done].
    by case_decide; simplify_eq.
  - intros k n bs k' H. simplify_eq.
    destruct (pop _ _) as [a|e]; simpl in *; [|done]. case_decide; simplify_eq. block_lia.
  - intros k n k' H. simplify_eq. destruct (sc_randoms k) as [|[a|e] l]; simpl in *;
      try (case_decide; simplify_eq); lia.
  - intros k p s k' H. simplify_eq. destruct (pop _ _) as [a|e]; simpl in *; [|done].
    by case_decide; simplify_eq.
  - intros k p s k' H. simplify_eq. destruct (pop _ _) as [a|e]; simpl in *; [|done].
    by case_decide; simplify_eq.
  - intros k fd n f s k' H. simplify_eq. destruct (pop _ _) as [a|e]; simpl in *; [|done].
    by case_decide; simplify_eq.
  - intros k fd n bs k' H. simplify_eq. destruct (pop _ _) as [ds|e]; simpl in *; [|done].
    case_decide as Hok; simplify_eq. exists ds. by split; [|apply Hok].
  - intros k fd n bs k' H Hbs. simplify_eq.
    destruct (sc_dents k) as [|[ds|e] l]; simpl in *; try (case_decide; simplify_eq); simpl; lia || done.
  - intros k fd n bs k' H. simplify_eq. destruct (pop _ _) as [ds|e]; simpl in *; [|done].
    case_decide as Hok; simplify_eq. apply Hok.
  - intros k n k' H Hn. simplify_eq. destruct (sc_randoms k) as [|[a|e] l]; simpl in *;
      try (case_decide; simplify_eq); try lia.
    match goal with E : ztake _ _ = [] |- _ => apply (f_equal zlen) in E end. block_lia.
Qed.

Lemma foldr_max_ge l x : x ∈ l -> x <= foldr Z.max 0 l.
Proof. induction 1; simpl; lia. Qed.

Lemma foldr_max_nonneg l : 0 <= foldr Z.max 0 l.
Proof. induction l; simpl; lia. Qed.

Lemma next_address_fresh live : next_address live <> 0 /\ next_address live ∉ live.
Proof.
  unfold next_address. pose proof (foldr_max_nonneg (elements live)). split; [lia|].
  intros H'%elem_of_elements%foldr_max_ge. lia.
Qed.

#[export] Instance scripted_allocators_laws : AllocatorsLaws scripted_allocators.
Proof.
  split; simpl; intros; try case_match; simplify_eq; try done; try lia.
  - apply next_address_fresh.
  - rewrite zlen_zrepeat. lia.
  - rewrite zlen_zrepeat. lia.
Qed.

Lemma find_terminator_spec s rest t : t ∉ s -> find_terminator (s ++ t :: rest) t = Some (zlen s).
Proof.
  induction s as [|x s IH]; simpl; intros Ht; [by rewrite decide_True|].
  rewrite not_elem_of_cons in Ht. rewrite decide_False by naive_solver.
  rewrite IH by naive_solver. simpl. by rewrite zlen_cons.
Qed.

#[export] Instance reference_core_laws : BcCoreLaws reference_core.
Proof.
  split; simpl; intros; try done.
  - by rewrite decide_True.
  - by apply find_terminator_spec.
Qed.

#[export] Instance scripted_platform_laws : PlatformLaws scripted_platform.
Proof. split; apply _. Qed.

Lemma scripted_world_wf k : wf_world (scripted_world k).
Proof. unfold wf_world. simpl. set_solver. Qed.
