(* ===== verification/StreamIo.v ===== *)
(** * Stream primitives ([src/stream/bc_io_stream_io.c])

    Reading or writing a whole block through short transfers, interruptions and
    would-block answers; opening a file; the buffer size of a stream.  Each loop
    takes fuel: one unit per system call.  The loops of a call of [n] bytes need
    at most [n] calls that progress and [patience] calls that do not. *)

From S2P Require Import Prelude Platform Objects Machine.

Definition BC_IO_STREAM_DEFAULT_FILE_BUFFER_SIZE : Z := 131072.
Definition BC_IO_STREAM_DEFAULT_SOCKET_BUFFER_SIZE : Z := 32768.
Definition BC_IO_STREAM_DEFAULT_PIPE_BUFFER_SIZE : Z := 65536.
Definition BC_IO_STREAM_DEFAULT_MEMORY_CHUNK_SIZE : Z := 131072.
Definition BC_IO_STREAM_BUFFER_ALIGNMENT : Z := 64.

Definition bc_io_stream_io_default_buffer_size (source : bc_io_stream_source_type_t) : Z :=
  match source with
  | BC_IO_STREAM_SOURCE_FILE => BC_IO_STREAM_DEFAULT_FILE_BUFFER_SIZE
  | BC_IO_STREAM_SOURCE_SOCKET => BC_IO_STREAM_DEFAULT_SOCKET_BUFFER_SIZE
  | BC_IO_STREAM_SOURCE_PIPE => BC_IO_STREAM_DEFAULT_PIPE_BUFFER_SIZE
  | _ => BC_IO_STREAM_DEFAULT_MEMORY_CHUNK_SIZE
  end.

Section stream_io.
Context {PF : Platform}.

(** The result, and what is stored in [*out_aligned_size], if anything. *)
Definition bc_io_stream_io_align_buffer_size (requested_size : Z) : bool * option Z :=
  core_align_up requested_size BC_IO_STREAM_BUFFER_ALIGNMENT.

(** What [read_full] leaves: its result, [*out_bytes_read], [*out_eof], and the
    destination block. *)
Record read_result := mk_read_result {
  rr_ok : bool;
  rr_bytes : Z;
  rr_eof : bool;
  rr_block : list Z;
}.

Fixpoint read_full_loop (fuel : nat) (fd : Z) (destination : list Z)
    (requested_size total_read : Z) : M read_result :=
  if decide (total_read < requested_size) then
    match fuel with
    | O => out_of_fuel
    | S fuel =>
        '(result, data) ← read fd (requested_size -u total_read);
        if decide (0 < result) then
          destination ← lift (blit destination total_read data);
          read_full_loop fuel fd destination requested_size (total_read +u result)
        else if decide (result = 0) then
          mret (mk_read_result true total_read true destination)
        else
          e ← get_errno;
          if decide (e = EINTR) then
            read_full_loop fuel fd destination requested_size total_read
          else if decide (e = EAGAIN) then
            mret (mk_read_result true total_read false destination)
          else mret (mk_read_result false total_read false destination)
    end
  else mret (mk_read_result true total_read false destination).

Definition bc_io_stream_io_read_full (fuel : nat) (fd : Z) (block : list Z)
    (requested_size : Z) : M read_result :=
  read_full_loop fuel fd block requested_size 0.

(** [write_full]: its result and [*out_bytes_written]. *)
Fixpoint write_full_loop (fuel : nat) (fd : Z) (source : list Z)
    (size total_written : Z) : M (bool * Z) :=
  if decide (total_written < size) then
    match fuel with
    | O => out_of_fuel
    | S fuel =>
        data ← lift (span source total_written (size -u total_written));
        result ← write fd data;
        if decide (0 <= result) then
          write_full_loop fuel fd source size (total_written +u result)
        else
          e ← get_errno;
          if decide (e = EINTR) then write_full_loop fuel fd source size total_written
          else if decide (e = EAGAIN) then mret (true, total_written)
          else mret (false, total_written)
    end
  else mret (true, total_written).

Definition bc_io_stream_io_write_full (fuel : nat) (fd : Z) (data : list Z)
    (size : Z) : M (bool * Z) :=
  write_full_loop fuel fd data size 0.

Definition bc_io_stream_io_open_file (path : list Z) (mode : bc_io_stream_mode_t)
    : M (option Z) :=
  let flags :=
    if decide (mode = BC_IO_STREAM_MODE_READ)
    then Z.lor (Z.lor O_RDONLY O_CLOEXEC) O_NOFOLLOW
    else Z.lor (Z.lor (Z.lor (Z.lor O_WRONLY O_CREAT) O_TRUNC) O_CLOEXEC) O_NOFOLLOW in
  file_descriptor ← open_ path flags 420;
  if decide (file_descriptor < 0) then mret None else mret (Some file_descriptor).

Definition bc_io_stream_io_get_file_size (fd : Z) : M (option Z) :=
  file_stat ← fstat fd;
  match file_stat with
  | None => mret None
  | Some st => if S_ISREG (st_mode st) then mret (Some (st_size st)) else mret None
  end.

Definition bc_io_stream_io_advise_sequential (fd : Z) : M bool :=
  result ← posix_fadvise fd 0 0 POSIX_FADV_SEQUENTIAL;
  mret (bool_decide (result = 0)).

(** ** Transfers *)

Section laws.
Context {PL : PlatformLaws PF}.

(** [transfer fd inb outb w w']: from [w] to [w'] the process received [inb]
    from [fd], sent [outb] to it, and neither allocated nor released. *)
Record transfer (fd : Z) (inb outb : list Z) (w w' : world) : Prop := {
  transfer_quiet : quiet w w';
  transfer_in : received fd (trace w') = received fd (trace w) ++ inb;
  transfer_out : sent fd (trace w') = sent fd (trace w) ++ outb;
}.

(** Enough fuel for a loop that transfers [n] bytes. *)
Definition enough (fuel : nat) (n : Z) (w : world) : Prop :=
  (Z.to_nat n + patience (env w) < fuel)%nat.

Lemma transfer_refl fd w : transfer fd [] [] w w.
Proof. split; [done|by rewrite app_nil_r..]. Qed.

Lemma transfer_trans fd i1 o1 i2 o2 w1 w2 w3 :
  transfer fd i1 o1 w1 w2 -> transfer fd i2 o2 w2 w3 ->
  transfer fd (i1 ++ i2) (o1 ++ o2) w1 w3.
Proof.
  intros [Hq Hi Ho] [Hq' Hi' Ho']. split.
  - by etrans.
  - by rewrite Hi', Hi, app_assoc.
  - by rewrite Ho', Ho, app_assoc.
Qed.

Lemma transfer_patience fd i o w w' :
  transfer fd i o w w' -> (patience (env w') <= patience (env w))%nat.
Proof. by intros [[] _ _]. Qed.

Lemma transfer_nothing fd w k e :
  (patience k <= patience (env w))%nat -> transfer fd [] [] w (after_call w k e []).
Proof. intros. split; [split|..]; try done; try intros r; held_lia; by rewrite ?app_nil_r. Qed.

Lemma transfer_read fd w k e bs :
  (patience k <= patience (env w))%nat ->
  transfer fd bs [] w (after_call w k e [EvRead fd bs]).
Proof.
  intros. split; [split|..]; try done; try intros r; held_lia;
    rewrite ?decide_True by done; by rewrite ?app_nil_r.
Qed.

Lemma transfer_write fd w k e bs :
  (patience k <= patience (env w))%nat ->
  transfer fd [] bs w (after_call w k e [EvWrite fd bs]).
Proof.
  intros. split; [split|..]; try done; try intros r; held_lia;
    rewrite ?decide_True by done; by rewrite ?app_nil_r.
Qed.

(** The loop of [read_full], started after [pre] has been stored. *)
Lemma read_full_loop_spec fuel fd pre rest n w :
  is_u64 n -> zlen pre <= n <= zlen pre + zlen rest -> enough fuel (n - zlen pre) w ->
  wp (read_full_loop fuel fd (pre ++ rest) n (zlen pre))
    (fun r w' => exists data,
       transfer fd data [] w w' /\
       rr_block r = pre ++ data ++ zdrop (zlen data) rest /\
       rr_bytes r = zlen pre + zlen data /\ rr_bytes r <= n /\
       (rr_eof r = true -> rr_ok r = true /\ rr_bytes r < n) /\
       (rr_ok r = true -> rr_eof r = false -> rr_bytes r < n -> errno w' = EAGAIN)) w.
Proof.
  unfold is_u64, enough. intros Hn. revert pre rest w.
  induction fuel as [|fuel IH]; intros pre rest w Hlen Hfuel; [lia|simpl].
  case_decide as Hlt; last first.
  { apply wp_ret. exists []. simpl. autorewrite with blocks.
    rewrite zdrop_0 by done. repeat split; try done || lia; apply transfer_refl. }
  apply wp_bind. rewrite wrap64_small by (unfold is_u64; block_lia).
  apply wp_read; [intros bs k Hbs Hk|intros e k Hk Hintr]; simpl.
  - case_decide as Hpos.
    + apply wp_bind, wp_lift. rewrite blit_append by lia. simpl.
      rewrite wrap64_small by (unfold is_u64; block_lia).
      replace (zlen pre + zlen bs) with (zlen (pre ++ bs)) by block_lia.
      rewrite app_assoc. eapply wp_mono; [apply IH|].
      * block_lia.
      * simpl. block_lia.
      * intros r w' (data & Ht & -> & -> & Hle & He & Ha). exists (bs ++ data).
        rewrite !zlen_app in *. split_and!; [| | |lia|done|done].
        -- refine (transfer_trans fd bs [] data [] _ _ _ _ Ht). by apply transfer_read.
        -- rewrite zdrop_zdrop, <- !app_assoc by block_lia. done.
        -- lia.
    + replace bs with (@nil Z) by (destruct bs; [done|block_lia]). simpl.
      apply wp_ret. exists []. simpl.
      autorewrite with blocks. rewrite zdrop_0 by done.
      repeat split; try done || lia; by apply transfer_read.
  - apply wp_bind, wp_get_errno. simpl.
    case_decide as He; [|case_decide].
    + eapply wp_mono; [apply IH; simpl; [lia|specialize (Hintr He); lia]|].
      intros r w' (data & Ht & Hrest). exists data. split; [|done].
      refine (transfer_trans fd [] [] data [] _ _ _ _ Ht). by apply transfer_nothing.
    + apply wp_ret. exists []. simpl. autorewrite with blocks. rewrite zdrop_0 by done.
      repeat split; try done || lia; by apply transfer_nothing.
    + apply wp_ret. exists []. simpl. autorewrite with blocks. rewrite zdrop_0 by done.
      repeat split; try done || lia; by apply transfer_nothing.
Qed.

(** The loop of [write_full], started after the first [total] bytes. *)
Lemma write_full_loop_spec fuel fd source size total w :
  is_u64 size -> size <= zlen source -> 0 <= total <= size ->
  enough fuel (size - total) w ->
  wp (write_full_loop fuel fd source size total)
    (fun '(ok, written) w' =>
       total <= written <= size /\
       transfer fd [] (ztake (written - total) (zdrop total source)) w w' /\
       (ok = true -> written < size -> errno w' = EAGAIN) /\
       (ok = false -> written < size)) w.
Proof.
  unfold is_u64, enough. intros Hn Hsize. revert total w.
  induction fuel as [|fuel IH]; intros total w Hlen Hfuel; [lia|simpl].
  assert (Hnil : ztake (total - total) (zdrop total source) = []) by (apply ztake_0; lia).
  case_decide as Hlt; last first.
  { apply wp_ret. rewrite Hnil. split_and!; [lia|lia|apply transfer_refl|lia|done]. }
  apply wp_bind, wp_lift. rewrite wrap64_small by (unfold is_u64; lia).
  rewrite span_in_range by lia. simpl.
  apply wp_bind, wp_write; [intros n k Hcount Hk Hstall|intros e k Hk Hintr]; simpl.
  - autorewrite with blocks in Hcount. rewrite decide_True by lia.
    rewrite wrap64_small by (unfold is_u64; lia).
    eapply wp_mono; [apply IH; simpl; [lia|]|].
    + destruct (decide (n = 0)) as [->|]; [|lia].
      enough (patience k < patience (env w))%nat by lia. apply Hstall; [done|].
      intros E. apply (f_equal zlen) in E. autorewrite with blocks in E. lia.
    + intros [ok written] w' (Hw & Ht & Ha). split_and!; [lia|lia| |apply Ha..].
      replace (written - total) with (n + (written - (total + n))) by lia.
      rewrite ztake_add, zdrop_zdrop by lia.
      refine (transfer_trans fd [] _ [] _ _ _ _ _ Ht).
      rewrite ztake_ztake, Z.min_l by lia. by apply transfer_write.
  - apply wp_bind, wp_get_errno. simpl.
    case_decide as He; [|case_decide].
    + eapply wp_mono; [apply IH; simpl; [lia|specialize (Hintr He); lia]|].
      intros [ok written] w' (Hw & Ht & Ha). split_and!; [lia|lia| |apply Ha..].
      refine (transfer_trans fd [] [] [] _ _ _ _ _ Ht). by apply transfer_nothing.
    + apply wp_ret. rewrite Hnil. split_and!; [lia|lia|by apply transfer_nothing|done|done].
    + apply wp_ret. rewrite Hnil. split_and!; [lia|lia|by apply transfer_nothing|done|done].
Qed.

(** [read_full] fills a prefix of the block with what it received.  It stops
    short only at the end of the input, on an error, or when the descriptor
    would block. *)
Lemma read_full_spec fuel fd block n w :
  is_u64 n -> n <= zlen block -> enough fuel n w ->
  wp (bc_io_stream_io_read_full fuel fd block n)
    (fun r w' => exists data,
       transfer fd data [] w w' /\
       rr_block r = data ++ zdrop (zlen data) block /\
       rr_bytes r = zlen data /\ zlen data <= n /\
       (rr_eof r = true -> rr_ok r = true /\ zlen data < n) /\
       (rr_ok r = true -> rr_eof r = false -> zlen data < n -> errno w' = EAGAIN)) w.
Proof.
  unfold is_u64. intros Hn Hle Hfuel.
  eapply wp_mono; [apply (read_full_loop_spec _ _ []); [done|block_lia|]|].
  - rewrite zlen_nil. by replace (n - 0) with n by lia.
  - intros r w' (data & Ht & Hb & Hr & Hrest). exists data.
    rewrite zlen_nil, Z.add_0_l in Hr. by rewrite Hr in Hrest.
Qed.

(** [write_full] sends a prefix of the block, and stops short only on an error
    or when the descriptor would block. *)
Lemma write_full_spec fuel fd data size w :
  is_u64 size -> size <= zlen data -> enough fuel size w ->
  wp (bc_io_stream_io_write_full fuel fd data size)
    (fun '(ok, written) w' =>
       0 <= written <= size /\
       transfer fd [] (ztake written data) w w' /\
       (ok = true -> written < size -> errno w' = EAGAIN) /\
       (ok = false -> written < size)) w.
Proof.
  unfold is_u64. intros Hn Hle Hfuel.
  eapply wp_mono; [apply write_full_loop_spec; [done|done|lia|]|].
  - by rewrite Z.sub_0_r.
  - intros [ok written] w'. by rewrite Z.sub_0_r, (zdrop_0 0) by done.
Qed.

(** A stream source opened by path never follows a final symbolic link and is
    closed on exec; a failed open holds nothing. *)
Lemma open_file_spec path m w :
  wp (bc_io_stream_io_open_file path m)
    (fun r w' =>
       heap w' = heap w /\ mem w' = mem w /\
       (patience (env w') <= patience (env w))%nat /\
       match r with
       | Some fd => 0 <= fd /\ forall x, held w' x = held w x + one x (RFd fd)
       | None => forall x, held w' x = held w x
       end) w.
Proof.
  unfold bc_io_stream_io_open_file. apply wp_bind, wp_open; intros ? k Hk; simpl.
  - intros Hp. rewrite decide_False by lia. apply wp_ret. split_and!; try done.
    intros x. held_lia.
  - apply wp_ret. split_and!; try done. intros x. held_lia.
Qed.

Lemma get_file_size_spec fd w :
  wp (bc_io_stream_io_get_file_size fd)
    (fun r w' => quiet w w' /\ match r with Some n => is_u64 n | None => True end) w.
Proof.
  unfold bc_io_stream_io_get_file_size, is_u64, u64_modulus.
  apply wp_bind, wp_fstat; intros; simpl; [destruct (S_ISREG _)|]; apply wp_ret;
    (split; [split; try done; intros x; held_lia|try lia; done]).
Qed.

Lemma advise_sequential_spec fd w :
  wp (bc_io_stream_io_advise_sequential fd) (fun _ w' => quiet w w') w.
Proof.
  apply wp_bind, wp_posix_fadvise; intros; apply wp_ret.
  split; try done; intros x; held_lia.
Qed.
End laws.
End stream_io.
