(* ===== verification/Stream.v ===== *)
(** * Buffered streams ([src/stream/])

    Opening, reading, writing, flushing and closing a stream.  An operation on
    an open stream takes the stream and returns it changed; opening and closing
    work on the heap. *)

From S2P Require Import Prelude Platform Objects Machine StreamIo.

(** The size of [struct bc_io_stream] (x86-64 layout). *)
Definition sizeof_bc_io_stream_t : Z := 160.

(** ** Metadata ([bc_io_stream.c]) *)

Definition bc_io_stream_source_type (s : bc_io_stream_t) : bc_io_stream_source_type_t :=
  source_type s.

Definition bc_io_stream_total_size (s : bc_io_stream_t) : option Z :=
  if total_size_known s then Some (total_size s) else None.

Definition bc_io_stream_current_position (s : bc_io_stream_t) : Z := logical_position s.

Definition bc_io_stream_remaining_bytes (s : bc_io_stream_t) : option Z :=
  if total_size_known s then Some (total_size s -u logical_position s) else None.

Definition bc_io_stream_is_end_of_stream (s : bc_io_stream_t) : bool := end_of_stream s.

Definition bc_io_stream_get_stats (s : bc_io_stream_t) : bc_io_stream_stats_t := stats s.

Section stream.
Context {PF : Platform}.

(** ** Opening ([bc_io_stream.c]) *)

(** The result of [bc_io_stream_io_align_buffer_size] is not looked at: when the
    alignment fails, [aligned_size] is what that call left, which is no value at
    all if it stored none. *)
Definition bc_io_stream_allocate_with_buffer (requested : Z)
    (source : bc_io_stream_source_type_t) : M (option (Z * Z * (Z * list Z) * Z)) :=
  let effective_buffer_size :=
    if decide (requested = 0) then bc_io_stream_io_default_buffer_size source
    else requested in
  aligned_size ← match (bc_io_stream_io_align_buffer_size effective_buffer_size).2 with
                 | Some n => mret n
                 | None => undefined
                 end;
  stream ← bc_allocators_pool_allocate sizeof_bc_io_stream_t;
  match stream with
  | None => mret None
  | Some stream =>
      arena ← bc_allocators_arena_create aligned_size;
      match arena with
      | None => bc_allocators_pool_free stream;; mret None
      | Some arena =>
          block ← bc_allocators_arena_allocate arena aligned_size 64;
          match block with
          | None =>
              bc_allocators_arena_destroy arena;;
              bc_allocators_pool_free stream;;
              mret None
          | Some block => mret (Some (stream, arena, block, aligned_size))
          end
      end
  end.

Definition bc_io_stream_init_common_fields (arena : Z) (block : Z * list Z) (size : Z)
    (source : bc_io_stream_source_type_t) (m : bc_io_stream_mode_t) (fd : Z) (owns : bool)
    : bc_io_stream_t :=
  mk_stream arena block.1 block.2 size 0 source m fd owns false 0 0 0 0 false 0 zero_stats.

Definition bc_io_stream_open_file (path : list Z) (m : bc_io_stream_mode_t) (size : Z)
    : M (option Z) :=
  file_descriptor ← bc_io_stream_io_open_file path m;
  match file_descriptor with
  | None => mret None
  | Some fd =>
      total ← (if decide (m = BC_IO_STREAM_MODE_READ) then
                 total ← bc_io_stream_io_get_file_size fd;
                 bc_io_stream_io_advise_sequential fd;;
                 mret total
               else mret None);
      allocated ← bc_io_stream_allocate_with_buffer size BC_IO_STREAM_SOURCE_FILE;
      match allocated with
      | None => close fd;; mret None
      | Some (stream, arena, block, aligned_size) =>
          store stream (OStream
            (set_total_size (default 0 total) (bool_decide (is_Some total))
              (bc_io_stream_init_common_fields arena block aligned_size
                 BC_IO_STREAM_SOURCE_FILE m fd true)));;
          mret (Some stream)
      end
  end.

Definition bc_io_stream_open_file_descriptor (fd : Z) (source : bc_io_stream_source_type_t)
    (m : bc_io_stream_mode_t) (size : Z) : M (option Z) :=
  total ← (if decide (source = BC_IO_STREAM_SOURCE_FILE /\ m = BC_IO_STREAM_MODE_READ) then
             total ← bc_io_stream_io_get_file_size fd;
             bc_io_stream_io_advise_sequential fd;;
             mret total
           else mret None);
  allocated ← bc_io_stream_allocate_with_buffer size source;
  match allocated with
  | None => mret None
  | Some (stream, arena, block, aligned_size) =>
      store stream (OStream
        (set_total_size (default 0 total) (bool_decide (is_Some total))
          (bc_io_stream_init_common_fields arena block aligned_size source m fd false)));;
      mret (Some stream)
  end.

Definition bc_io_stream_open_memory (data size : Z) : M (option Z) :=
  let chunk := bc_io_stream_io_default_buffer_size BC_IO_STREAM_SOURCE_MEMORY in
  stream ← bc_allocators_pool_allocate sizeof_bc_io_stream_t;
  match stream with
  | None => mret None
  | Some stream =>
      store stream (OStream
        (set_total_size size true
          (set_memory data size 0
            (bc_io_stream_init_common_fields 0 (0, []) chunk
               BC_IO_STREAM_SOURCE_MEMORY BC_IO_STREAM_MODE_READ (-1) false))));;
      mret (Some stream)
  end.

(** ** Reading ([bc_io_stream_read.c]) *)

Definition count_read (n : Z) (short : bool) (st : bc_io_stream_stats_t)
    : bc_io_stream_stats_t :=
  mk_stats (bytes_read st +u n) (bytes_written st) (read_count st +u 1) (write_count st)
    (if short then short_read_count st +u 1 else short_read_count st)
    (short_write_count st) (retry_count st).

Definition bc_io_stream_read_chunk_file (fuel : nat) (s : bc_io_stream_t)
    : M (option bc_io_stream_chunk_t * bc_io_stream_t) :=
  r ← bc_io_stream_io_read_full fuel (file_descriptor s) (buffer_bytes s) (buffer_size s);
  let s := set_buffer (rr_block r) (buffer_used s) s in
  if negb (rr_ok r) then mret (None, s)
  else if decide (rr_bytes r = 0 /\ rr_eof r = true) then
    mret (None, set_end_of_stream true s)
  else
    let chunk := mk_chunk (buffer s) (rr_bytes r) true in
    let s := set_stats (count_read (rr_bytes r)
               (bool_decide (rr_bytes r < buffer_size s)) (stats s)) s in
    let s := if rr_eof r then set_end_of_stream true s else s in
    let s := set_logical_position (logical_position s +u rr_bytes r) s in
    mret (Some chunk, s).

Definition bc_io_stream_read_chunk_memory (s : bc_io_stream_t)
    : option bc_io_stream_chunk_t * bc_io_stream_t :=
  if decide (memory_size s <= memory_position s) then
    (None, set_end_of_stream true s)
  else
    let remaining := memory_size s -u memory_position s in
    let chunk_size := if decide (remaining < buffer_size s) then remaining else buffer_size s in
    let chunk := mk_chunk (memory_data s +u memory_position s) chunk_size false in
    let s := set_memory (memory_data s) (memory_size s) (memory_position s +u chunk_size) s in
    let s := set_logical_position (logical_position s +u chunk_size) s in
    let s := set_stats (count_read chunk_size false (stats s)) s in
    (Some chunk, s).

Definition bc_io_stream_read_chunk (fuel : nat) (s : bc_io_stream_t)
    : M (option bc_io_stream_chunk_t * bc_io_stream_t) :=
  if end_of_stream s then mret (None, s)
  else if decide (mode s <> BC_IO_STREAM_MODE_READ) then mret (None, s)
  else if decide (source_type s = BC_IO_STREAM_SOURCE_MEMORY) then
    mret (bc_io_stream_read_chunk_memory s)
  else bc_io_stream_read_chunk_file fuel s.

(** ** Writing ([bc_io_stream_write.c]) *)

Definition count_short_write (st : bc_io_stream_stats_t) : bc_io_stream_stats_t :=
  mk_stats (bytes_read st) (bytes_written st) (read_count st) (write_count st)
    (short_read_count st) (short_write_count st +u 1) (retry_count st).

Definition count_write (n : Z) (st : bc_io_stream_stats_t) : bc_io_stream_stats_t :=
  mk_stats (bytes_read st) (bytes_written st +u n) (read_count st) (write_count st +u 1)
    (short_read_count st) (short_write_count st) (retry_count st).

Definition bc_io_stream_flush (fuel : nat) (s : bc_io_stream_t)
    : M (bool * bc_io_stream_t) :=
  if decide (buffer_used s = 0) then mret (true, s)
  else
    let original_used := buffer_used s in
    '(write_ok, written) ←
      bc_io_stream_io_write_full fuel (file_descriptor s) (buffer_bytes s) original_used;
    let remaining := original_used -u written in
    let s := set_buffer (core_move (buffer_bytes s) 0 written remaining) remaining s in
    if decide (written < original_used) then
      mret (false, set_stats (count_short_write (stats s)) s)
    else mret (write_ok, s).

(** [bc_core_copy] of [data] to the cells of the buffer at [offset]. *)
Definition copy_to_buffer (s : bc_io_stream_t) (offset : Z) (data : list Z) : M (list Z) :=
  old ← lift (span (buffer_bytes s) offset (zlen data));
  lift (blit (buffer_bytes s) offset (core_copy old data)).

(** The result, [*out_bytes_written] and the stream. *)
Definition bc_io_stream_write_chunk (fuel : nat) (s : bc_io_stream_t) (data : list Z)
    : M (bool * Z * bc_io_stream_t) :=
  let size := zlen data in
  if decide (mode s <> BC_IO_STREAM_MODE_WRITE) then mret (false, 0, s)
  else if decide (source_type s = BC_IO_STREAM_SOURCE_MEMORY) then mret (false, 0, s)
  else if decide (size = 0) then mret (true, 0, s)
  else
    let remaining_buffer := buffer_size s -u buffer_used s in
    if decide (size <= remaining_buffer) then
      bytes ← copy_to_buffer s (buffer_used s) data;
      let s := set_buffer bytes (buffer_used s +u size) s in
      let s := set_stats (count_write size (stats s)) s in
      mret (true, size, set_logical_position (logical_position s +u size) s)
    else
      '(flushed, s) ← (if decide (0 < buffer_used s) then bc_io_stream_flush fuel s
                       else mret (true, s));
      if negb flushed then mret (false, 0, s)
      else if decide (buffer_size s <= size) then
        '(ok, written) ← bc_io_stream_io_write_full fuel (file_descriptor s) data size;
        let s := set_stats (count_write written (stats s)) s in
        let s := set_logical_position (logical_position s +u written) s in
        let s := if decide (written < size) then set_stats (count_short_write (stats s)) s else s in
        mret (ok, written, s)
      else
        bytes ← copy_to_buffer s 0 data;
        let s := set_buffer bytes size s in
        let s := set_stats (count_write size (stats s)) s in
        mret (true, size, set_logical_position (logical_position s +u size) s).

(** ** Advice and closing ([bc_io_stream.c]) *)

Definition bc_io_stream_advise (s : bc_io_stream_t) (hint : bc_io_stream_access_hint_t)
    : M bool :=
  if decide (source_type s = BC_IO_STREAM_SOURCE_MEMORY) then mret true
  else
    let advice := match hint with
                  | BC_IO_STREAM_ACCESS_SEQUENTIAL => POSIX_FADV_SEQUENTIAL
                  | BC_IO_STREAM_ACCESS_RANDOM => POSIX_FADV_RANDOM
                  | BC_IO_STREAM_ACCESS_DROP => POSIX_FADV_DONTNEED
                  end in
    r ← posix_fadvise (file_descriptor s) 0 0 advice;
    mret (bool_decide (r = 0)).

Definition bc_io_stream_close (fuel : nat) (stream : Z) : M unit :=
  s ← load_stream stream;
  '(_, s) ← bc_io_stream_flush fuel s;
  store stream (OStream s);;
  (if decide (buffer_arena s <> 0) then bc_allocators_arena_destroy (buffer_arena s)
   else mret tt);;
  (if owns_file_descriptor s then close (file_descriptor s) else mret tt);;
  bc_allocators_pool_free stream.

(** ** Well-formed streams *)

(** The bytes accepted and not yet sent. *)
Definition pending (s : bc_io_stream_t) : list Z := ztake (buffer_used s) (buffer_bytes s).

Record wf_stream (s : bc_io_stream_t) : Prop := {
  wf_size : is_u64 (buffer_size s);
  wf_used : 0 <= buffer_used s <= buffer_size s;
  wf_reader : mode s = BC_IO_STREAM_MODE_READ -> buffer_used s = 0;
  wf_block : source_type s <> BC_IO_STREAM_SOURCE_MEMORY ->
    zlen (buffer_bytes s) = buffer_size s;
  wf_memory : source_type s = BC_IO_STREAM_SOURCE_MEMORY ->
    mode s = BC_IO_STREAM_MODE_READ /\ 0 < buffer_size s /\
    0 <= memory_position s <= memory_size s /\ is_u64 (memory_size s) /\
    logical_position s = memory_position s;
  wf_words : is_u64 (logical_position s) /\ is_u64 (bytes_written (stats s)) /\
    is_u64 (bytes_read (stats s));
}.

(** The fields fixed when the stream is opened. *)
Definition setup (s : bc_io_stream_t) :=
  (buffer_arena s, buffer s, buffer_size s, source_type s, mode s, file_descriptor s,
   owns_file_descriptor s, (memory_data s, memory_size s), (total_size s, total_size_known s)).

(** What closing the stream at [p] gives back. *)
Definition stream_resources (p : Z) (s : bc_io_stream_t) : list resource :=
  RPool p ::
  (if decide (buffer_arena s <> 0) then [RArena (buffer_arena s)] else []) ++
  (if owns_file_descriptor s then [RFd (file_descriptor s)] else []).

(** ** Lemmas *)

Lemma zlen_pending s : wf_stream s -> zlen (pending s) = buffer_used s.
Proof.
  intros [_ Hu Hr Hb Hm _]. unfold pending. rewrite zlen_ztake.
  destruct (decide (source_type s = BC_IO_STREAM_SOURCE_MEMORY)) as [E|E].
  - destruct (Hm E) as [E' _]. rewrite (Hr E'). block_lia.
  - rewrite (Hb E). lia.
Qed.

Lemma pending_nil s : wf_stream s -> pending s = [] <-> buffer_used s = 0.
Proof.
  intros Hs. rewrite <- (zlen_pending s Hs). split; [by intros ->|].
  destruct (pending s); [done|]. rewrite zlen_cons. block_lia.
Qed.

Lemma wf_set_counters s p st :
  wf_stream s -> source_type s <> BC_IO_STREAM_SOURCE_MEMORY ->
  is_u64 p -> is_u64 (bytes_written st) -> is_u64 (bytes_read st) ->
  wf_stream (set_logical_position p (set_stats st s)).
Proof. intros [Hsz Hu Hr Hb Hm Hc] Hsrc **. by split. Qed.

Lemma wf_set_end s eos : wf_stream s -> wf_stream (set_end_of_stream eos s).
Proof. by intros []. Qed.
End stream.
