(* ===== verification/StreamWrite.v ===== *)
(** * Writing to a stream

    Every path of [bc_io_stream_flush] and [bc_io_stream_write_chunk] keeps the
    stream a queue of bytes: what has been sent followed by what is pending is
    what was accepted.  [write_log] states it for whole sequences of calls. *)

From S2P Require Import Prelude Platform Objects Machine Scripted StreamIo Stream.

(** A client's call on a write stream. *)
Inductive write_op :=
| WriteChunk (data : list Z)
| Flush.

Definition op_data (op : write_op) : list Z :=
  match op with WriteChunk data => data | Flush => [] end.

Section stream_write.
Context {PF : Platform} {PL : PlatformLaws PF}.

(** [accepts s data n s' w w']: from [s] to [s'] the stream took the first [n]
    bytes of [data]: what it sent and what is pending in [s'] is what was
    pending in [s] followed by these bytes, and the position and the count of
    written bytes moved by [n] (as 64-bit words). *)
Record accepts (s : bc_io_stream_t) (data : list Z) (n : Z) (s' : bc_io_stream_t)
    (w w' : world) : Prop := {
  accepts_wf : wf_stream s';
  accepts_setup : setup s' = setup s;
  accepts_count : 0 <= n <= zlen data;
  accepts_bytes : exists out,
    transfer (file_descriptor s) [] out w w' /\
    pending s ++ ztake n data = out ++ pending s';
  accepts_position : logical_position s' = logical_position s +u n;
  accepts_written : bytes_written (stats s') = bytes_written (stats s) +u n;
}.

(** ** Flushing *)

(** Flushing sends a prefix of the pending bytes and keeps the rest, in order;
    it succeeds exactly when nothing is left. *)
Lemma flush_spec fuel s w :
  wf_stream s -> enough fuel (buffer_used s) w ->
  wp (bc_io_stream_flush fuel s)
    (fun '(ok, s') w' => exists out bytes used,
       s' = set_stats (if ok then stats s else count_short_write (stats s))
              (set_buffer bytes used s) /\
       wf_stream s' /\
       transfer (file_descriptor s) [] out w w' /\
       pending s = out ++ pending s' /\
       (ok = true <-> pending s' = [])) w.
Proof.
  intros Hs Hfuel. unfold bc_io_stream_flush. pose proof Hs as [Hsz Hu Hr Hb Hm Hc].
  case_decide as H0.
  { apply wp_ret. exists [], (buffer_bytes s), 0. split_and!.
    - destruct s; simpl in *; by subst.
    - done.
    - apply transfer_refl.
    - done.
    - by rewrite pending_nil. }
  assert (Hblock : zlen (buffer_bytes s) = buffer_size s).
  { apply Hb. intros E. destruct (Hm E) as [E' _]. by apply H0, Hr. }
  apply wp_bind. unfold is_u64 in Hsz.
  eapply wp_mono; [apply write_full_spec; [unfold is_u64; lia|lia|done]|].
  intros [ok written] w' (Hw & Ht & _ & Hf). simpl.
  rewrite wrap64_small by (unfold is_u64; lia).
  rewrite core_move_spec, ztake_0 by lia. simpl.
  set (bytes := ztake (buffer_used s - written) (zdrop written (buffer_bytes s)) ++
                zdrop (buffer_used s - written) (buffer_bytes s)).
  assert (Hbytes : zlen bytes = buffer_size s) by (subst bytes; block_lia).
  assert (Hpend : pending (set_buffer bytes (buffer_used s - written) s) =
                  ztake (buffer_used s - written) (zdrop written (buffer_bytes s))).
  { unfold pending. simpl. subst bytes. apply ztake_app. block_lia. }
  assert (Hsplit : pending s = ztake written (buffer_bytes s) ++
                     pending (set_buffer bytes (buffer_used s - written) s)).
  { rewrite Hpend. unfold pending. rewrite <- ztake_add by lia. f_equal. lia. }
  assert (Hwf : forall short : bool, wf_stream
    (set_stats (if short then count_short_write (stats s) else stats s)
       (set_buffer bytes (buffer_used s - written) s))).
  { intros short. split; simpl; try done; [lia| |by destruct short].
    intros E. specialize (Hr E). lia. }
  case_decide as Hlt; apply wp_ret;
    exists (ztake written (buffer_bytes s)), bytes, (buffer_used s - written).
  - split_and!; [done|apply (Hwf true)|done|done|]. split; [done|].
    intros E. apply pending_nil in E; [simpl in E; lia|apply (Hwf true)].
  - assert (written = buffer_used s) as -> by lia. split_and!; try done.
    + destruct ok; [done|]. specialize (Hf eq_refl). lia.
    + apply (Hwf false).
    + split; intros _.
      * apply pending_nil; [apply (Hwf false)|]. simpl. lia.
      * destruct ok; [done|]. specialize (Hf eq_refl). lia.
Qed.

(** ** Writing *)

Lemma copy_to_buffer_spec s offset data w :
  zlen (buffer_bytes s) = buffer_size s ->
  0 <= offset -> offset + zlen data <= buffer_size s ->
  wp (copy_to_buffer s offset data)
    (fun bytes w' => w' = w /\
       bytes = ztake offset (buffer_bytes s) ++ data ++
               zdrop (offset + zlen data) (buffer_bytes s)) w.
Proof.
  intros Hb H0 Hle. unfold copy_to_buffer. apply wp_bind, wp_lift.
  rewrite span_in_range by block_lia. simpl.
  rewrite core_copy_spec by block_lia. apply wp_lift.
  by rewrite blit_in_range by block_lia.
Qed.

Lemma ztake_app_app {A} n (l k r : list A) : n = zlen l + zlen k -> ztake n (l ++ k ++ r) = l ++ k.
Proof. intros ->. rewrite app_assoc. apply ztake_app. by rewrite zlen_app. Qed.

(** Copying [data] behind the pending bytes, when it fits. *)
Lemma accepts_copy s data w :
  wf_stream s -> source_type s <> BC_IO_STREAM_SOURCE_MEMORY ->
  mode s = BC_IO_STREAM_MODE_WRITE ->
  buffer_used s + zlen data <= buffer_size s ->
  accepts s data (zlen data)
    (set_logical_position (logical_position s +u zlen data)
      (set_stats (count_write (zlen data) (stats s))
        (set_buffer (pending s ++ data ++ zdrop (buffer_used s + zlen data) (buffer_bytes s))
           (buffer_used s + zlen data) s))) w w.
Proof.
  intros Hs Hsrc Hmode Hle. pose proof (zlen_pending s Hs) as Hp.
  pose proof Hs as [Hsz Hu _ Hb _ Hc]. specialize (Hb Hsrc).
  split; simpl; try done.
  - split; simpl; try done.
    + block_lia.
    + intros E; congruence.
    + block_lia.
    + split_and!; try apply wrap64_range; apply Hc.
  - block_lia.
  - exists []. split; [apply transfer_refl|]. rewrite ztake_all by done.
    unfold pending at 2. simpl. by rewrite ztake_app_app by lia.
Qed.

(** Sending [data] directly, when nothing is pending. *)
Lemma accepts_direct s data n w w' :
  wf_stream s -> source_type s <> BC_IO_STREAM_SOURCE_MEMORY ->
  pending s = [] -> 0 <= n <= zlen data ->
  transfer (file_descriptor s) [] (ztake n data) w w' ->
  accepts s data n
    (let s' := set_logical_position (logical_position s +u n)
                 (set_stats (count_write n (stats s)) s) in
     if decide (n < zlen data)
     then set_stats (count_short_write (count_write n (stats s))) s' else s') w w'.
Proof.
  intros Hs Hsrc Hp Hn Ht. pose proof Hs as [_ _ _ _ _ (Hl & Hw & Hrd)].
  match goal with |- accepts _ _ _ ?x _ _ =>
    assert (exists st, x = set_logical_position (logical_position s +u n) (set_stats st s) /\
      bytes_written st = bytes_written (stats s) +u n /\ bytes_read st = bytes_read (stats s))
      as (st & -> & Hst & Hst') by (simpl; case_decide; by eexists) end.
  split; simpl; try done.
  - apply wf_set_counters; try done; [apply wrap64_range|rewrite Hst; apply wrap64_range|congruence].
  - exists (ztake n data). split; [done|].
    change (pending (set_logical_position _ _)) with (pending s). by rewrite Hp, app_nil_r.
Qed.

Lemma accepts_nothing s data w : wf_stream s -> accepts s data 0 s w w.
Proof.
  intros Hs. pose proof Hs as [_ _ _ _ _ (Hl & Hw & _)].
  split; rewrite ?Z.add_0_r, ?wrap64_small by done; try done; [block_lia|].
  exists []. split; [apply transfer_refl|]. rewrite ztake_0 by done. by rewrite app_nil_r.
Qed.

(** The flush before a copy or a direct write. *)
Lemma accepts_after_flush s data n s1 s2 w w1 w2 out bytes used ok :
  transfer (file_descriptor s) [] out w w1 ->
  pending s = out ++ pending s1 ->
  s1 = set_stats (if ok : bool then stats s else count_short_write (stats s))
         (set_buffer bytes used s) ->
  accepts s1 data n s2 w1 w2 ->
  accepts s data n s2 w w2.
Proof.
  intros Ht Hp -> [Hwf Hset Hn (out' & Ht' & Hp') Hl Hw]. split; try done.
  - exists (out ++ out'). split.
    + refine (transfer_trans _ [] _ [] _ _ _ _ Ht Ht').
    + by rewrite Hp, <- app_assoc, Hp', app_assoc.
  - rewrite Hw. by destruct ok.
Qed.

(** A stream with pending bytes is flushed before more than its buffer can hold is
    written; what is accepted afterwards is accepted all the same. *)
Lemma flush_first fuel s data w :
  wf_stream s -> enough fuel (buffer_used s) w ->
  wp (if decide (0 < buffer_used s) then bc_io_stream_flush fuel s else mret (true, s))
    (fun '(flushed, s1) w1 => wf_stream s1 /\ (flushed = true <-> pending s1 = []) /\ setup s1 = setup s /\
       (patience (env w1) <= patience (env w))%nat /\
       forall n s2 w2, accepts s1 data n s2 w1 w2 -> accepts s data n s2 w w2) w.
Proof.
  intros Hs Hfuel. case_decide as Hused.
  - eapply wp_mono; [by apply flush_spec|].
    intros [ok s1] w1 (out & bytes & used & Hs1 & Hwf1 & Ht & Hp & Hok).
    split_and!; [done|done| |by eapply transfer_patience|].
    + subst s1. by destruct ok.
    + intros n s2 w2. by eapply accepts_after_flush.
  - apply wp_ret. split_and!; [done| |done|done|done].
    rewrite pending_nil by done. pose proof (wf_used _ Hs). split; [lia|done].
Qed.

(** What [write_chunk] does on every path: it accepts a prefix of the data, all
    of it when it succeeds without the descriptor blocking. *)
Lemma write_chunk_spec fuel s data w :
  wf_stream s -> is_u64 (zlen data) ->
  mode s = BC_IO_STREAM_MODE_WRITE ->
  enough fuel (buffer_used s + zlen data) w ->
  wp (bc_io_stream_write_chunk fuel s data)
    (fun '(ok, n, s') w' =>
       accepts s data n s' w w' /\
       (ok = false -> n < zlen data) /\
       (ok = true -> n < zlen data -> errno w' = EAGAIN /\ pending s' = [])) w.
Proof.
  intros Hs Hn Hmode Hfuel. unfold bc_io_stream_write_chunk.
  pose proof Hs as [Hsz Hu Hr Hb Hm Hc]. unfold is_u64 in Hsz, Hn.
  assert (Hsrc : source_type s <> BC_IO_STREAM_SOURCE_MEMORY) by (intros E; destruct (Hm E); congruence).
  rewrite decide_False by (by intros []). rewrite decide_False by done.
  case_decide as H0; [apply wp_ret; split_and!; [by apply accepts_nothing|done|lia]|].
  rewrite wrap64_small by (unfold is_u64; lia). case_decide as Hfit.
  { apply wp_bind. eapply wp_mono; [apply copy_to_buffer_spec; [by apply Hb|lia|lia]|].
    intros bytes w' [-> ->]. apply wp_ret. rewrite (wrap64_small (buffer_used s + _)) by (unfold is_u64; lia).
    split_and!; [|done|lia]. apply (accepts_copy s data w); [done..|lia]. }
  apply wp_bind. eapply wp_mono; [apply (flush_first fuel s data); [done|unfold enough in *; lia]|].
  intros [flushed s1] w1 (Hwf1 & Hflushed & Hset & Hpat & Hafter). destruct flushed; simpl; last first.
  { apply wp_ret. split_and!; [by apply Hafter, accepts_nothing|lia|done]. }
  assert (Hnil : pending s1 = []) by (by apply Hflushed).
  assert (Hused : buffer_used s1 = 0) by (by apply pending_nil).
  unfold setup in Hset. injection Hset as _ _ Esz Esrc Em Efd _ _ _ _ _.
  rewrite <- Esz in *. rewrite <- Em in Hmode. rewrite <- Esrc in Hsrc. case_decide as Hbig.
  - apply wp_bind. eapply wp_mono; [apply write_full_spec; [done|done|unfold enough in *; lia]|].
    intros [ok n] w2 (Hcount & Ht & Hagain & Hfail). apply wp_ret.
    split_and!; [apply Hafter; by apply accepts_direct|done|].
    intros Hok Hlt. split; [by apply Hagain|]. case_decide; [|lia]. by rewrite <- Hnil.
  - apply wp_bind. eapply wp_mono; [apply copy_to_buffer_spec; [by apply Hwf1|lia|lia]|].
    intros bytes' w' [-> ->]. apply wp_ret. split_and!; [|done|lia].
    apply Hafter. pose proof (accepts_copy s1 data w1 Hwf1 Hsrc Hmode) as Hcopy.
    rewrite Hused, Hnil in Hcopy. apply Hcopy. lia.
Qed.

(** ** Whole sequences of calls *)

(** One call on a write stream, and what it returned. *)
Definition run_write_op (fuel : nat) (s : bc_io_stream_t) (op : write_op)
    : M (Z * bool * bc_io_stream_t) :=
  match op with
  | WriteChunk data =>
      '(ok, n, s) ← bc_io_stream_write_chunk fuel s data; mret (n, ok, s)
  | Flush => '(ok, s) ← bc_io_stream_flush fuel s; mret (0, ok, s)
  end.

Fixpoint run_write_ops (fuel : nat) (s : bc_io_stream_t) (ops : list write_op)
    : M (list (Z * bool) * bc_io_stream_t) :=
  match ops with
  | [] => mret ([], s)
  | op :: ops =>
      '(n, ok, s) ← run_write_op fuel s op;
      '(rs, s) ← run_write_ops fuel s ops;
      mret ((n, ok) :: rs, s)
  end.

Lemma flush_accepts fuel s w :
  wf_stream s -> enough fuel (buffer_used s) w ->
  wp (bc_io_stream_flush fuel s)
    (fun '(ok, s') w' => accepts s [] 0 s' w w' /\ (ok = true <-> pending s' = [])) w.
Proof.
  intros Hs Hfuel. pose proof Hs as [_ _ _ _ _ (Hl & Hw & _)].
  eapply wp_mono; [by apply flush_spec|].
  intros [ok s'] w' (out & bytes & used & -> & Hwf & Ht & Hp & Hok). split; [|done].
  split; try done.
  - exists out. split; [done|]. by rewrite ztake_0, app_nil_r.
  - by rewrite Z.add_0_r, wrap64_small.
  - rewrite Z.add_0_r, wrap64_small by done. by destruct ok.
Qed.

Lemma run_write_op_spec fuel s op w :
  wf_stream s -> mode s = BC_IO_STREAM_MODE_WRITE -> is_u64 (zlen (op_data op)) ->
  enough fuel (buffer_size s + zlen (op_data op)) w ->
  wp (run_write_op fuel s op)
    (fun '(n, ok, s') w' => accepts s (op_data op) n s' w w') w.
Proof.
  intros Hs Hmode Hn Hfuel. pose proof (wf_used _ Hs). unfold enough in *.
  destruct op as [data|]; simpl in *; apply wp_bind.
  - eapply wp_mono; [apply write_chunk_spec; try done; unfold enough; lia|].
    intros [[ok n] s'] w' (Ha & _). by apply wp_ret.
  - eapply wp_mono; [apply flush_accepts; [done|unfold enough; rewrite zlen_nil in Hfuel; lia]|].
    intros [ok s'] w' [Ha _]. by apply wp_ret.
Qed.

(** What the calls accepted, in order. *)
Definition accepted (ops : list write_op) (rs : list (Z * bool)) : list Z :=
  concat (zip_with (fun op r => ztake r.1 (op_data op)) ops rs).

Lemma run_write_ops_spec fuel s ops w :
  wf_stream s -> mode s = BC_IO_STREAM_MODE_WRITE ->
  Forall (fun op => is_u64 (zlen (op_data op)) /\
            enough fuel (buffer_size s + zlen (op_data op)) w) ops ->
  wp (run_write_ops fuel s ops)
    (fun '(rs, s') w' => wf_stream s' /\ setup s' = setup s /\ length rs = length ops /\
       (exists out, transfer (file_descriptor s) [] out w w' /\
          pending s ++ accepted ops rs = out ++ pending s') /\
       logical_position s' = logical_position s +u zlen (accepted ops rs)) w.
Proof.
  revert s w. induction ops as [|op ops IH]; intros s w Hs Hmode Hall; simpl.
  { apply wp_ret. split_and!; try done.
    - exists []. split; [apply transfer_refl|]. by rewrite app_nil_r.
    - rewrite Z.add_0_r, wrap64_small; [done|apply (wf_words _ Hs)]. }
  inversion Hall as [|? ? [Hn Hfuel] Hall']; subst. apply wp_bind.
  eapply wp_mono; [by apply run_write_op_spec|].
  intros [[n ok] s1] w1 [Hwf1 Hset Hcount (out & Ht & Hp) Hl _].
  assert (Hset1 := Hset). unfold setup in Hset1. injection Hset1 as _ _ Esz _ Em Efd _ _ _ _ _.
  apply wp_bind. eapply wp_mono; [apply IH; [done|congruence|]|].
  { eapply Forall_impl; [done|]. intros op' [? ?]. split; [done|].
    apply transfer_patience in Ht. rewrite Esz. unfold enough in *. lia. }
  intros [rs s'] w' (Hwf' & Hset' & Hlen & (out' & Ht' & Hp') & Hl').
  apply wp_ret. rewrite Efd in Ht'. unfold accepted in *. simpl.
  assert (Hpre : zlen (ztake n (op_data op)) = n) by (rewrite zlen_ztake; lia).
  split_and!; [done|congruence|by rewrite Hlen| |].
  - exists (out ++ out'). split; [refine (transfer_trans _ [] _ [] _ _ _ _ Ht Ht')|].
    by rewrite app_assoc, Hp, <- !app_assoc, Hp'.
  - by rewrite Hl', Hl, wrap64_add_l, zlen_app, Hpre, Z.add_assoc.
Qed.

(** ** Properties *)

(** C1. A write stream is a log.  For every sequence of [bc_io_stream_write_chunk]
    and [bc_io_stream_flush] calls on an open write stream, whatever the kernel
    answers (short writes, interruptions, would-block, errors), followed by a
    flush: the bytes sent to the descriptor, followed by the bytes still in the
    buffer, are the bytes pending before followed by what the calls reported as
    written, in order and without loss or repetition; when the last flush
    succeeds all of them have been sent; the position moves by their number, and
    nothing is allocated or released. *)
Theorem write_stream_refines_log fuel s ops w :
  wf_stream s -> mode s = BC_IO_STREAM_MODE_WRITE ->
  Forall (fun op => is_u64 (zlen (op_data op)) /\
            enough fuel (buffer_size s + zlen (op_data op)) w) (Flush :: ops) ->
  wp ('(rs, s) ← run_write_ops fuel s ops;
      '(ok, s) ← bc_io_stream_flush fuel s;
      mret (rs, ok, s))
    (fun '(rs, ok, s') w' => length rs = length ops /\ wf_stream s' /\
       logical_position s' = logical_position s +u zlen (accepted ops rs) /\
       (forall r, held w' r = held w r) /\
       exists out,
         sent (file_descriptor s) (trace w') = sent (file_descriptor s) (trace w) ++ out /\
         pending s ++ accepted ops rs = out ++ pending s' /\
         (ok = true -> out = pending s ++ accepted ops rs)) w.
Proof.
  intros Hs Hmode Hall. inversion Hall as [|? ? [_ Hfuel] Hops]; subst.
  apply wp_bind. eapply wp_mono; [by apply run_write_ops_spec|].
  intros [rs s1] w1 (Hwf1 & Hset & Hlen & (out1 & Ht1 & Hp1) & Hl1).
  unfold setup in Hset. injection Hset as _ _ Esz _ _ Efd _ _ _ _ _.
  apply wp_bind. eapply wp_mono; [apply flush_accepts; [done|]|].
  { pose proof (wf_used _ Hwf1). pose proof (transfer_patience _ _ _ _ _ Ht1).
    unfold enough in *. simpl in Hfuel. rewrite zlen_nil in Hfuel. lia. }
  intros [ok s2] w2 [[Hwf2 _ _ (out2 & Ht2 & Hp2) Hl2 _] Hok]. apply wp_ret.
  rewrite Efd in Ht2. pose proof (transfer_trans _ _ _ _ _ _ _ _ Ht1 Ht2) as [Hq _ Hout].
  rewrite ztake_0, app_nil_r in Hp2 by done.
  split_and!; [done|done| |apply Hq|].
  - by rewrite Hl2, Hl1, Z.add_0_r, wrap64_idem.
  - exists (out1 ++ out2). split_and!; [done|by rewrite Hp1, Hp2, app_assoc|].
    intros E%Hok. by rewrite Hp1, Hp2, E, app_nil_r.
Qed.

(** C27. One [bc_io_stream_write_chunk] on every path (copy into the buffer, flush
    then copy, flush then direct write, failed flush): it accepts a prefix of the
    data behind everything accepted before, reports its length exactly, and is
    short only after an error or a descriptor that would block. *)
Theorem write_chunk_accepts_prefix fuel s data w :
  wf_stream s -> is_u64 (zlen data) ->
  mode s = BC_IO_STREAM_MODE_WRITE ->
  enough fuel (buffer_used s + zlen data) w ->
  wp (bc_io_stream_write_chunk fuel s data)
    (fun '(ok, n, s') w' =>
       wf_stream s' /\ setup s' = setup s /\ 0 <= n <= zlen data /\
       (exists out, transfer (file_descriptor s) [] out w w' /\
          pending s ++ ztake n data = out ++ pending s') /\
       logical_position s' = logical_position s +u n /\
       bytes_written (stats s') = bytes_written (stats s) +u n /\
       (ok = false -> n < zlen data) /\
       (ok = true -> n < zlen data -> errno w' = EAGAIN /\ pending s' = [])) w.
Proof.
  intros Hs Hn Hmode Hfuel. eapply wp_mono; [by apply write_chunk_spec|].
  intros [[ok n] s'] w' ([Hwf Hset [Hlo Hhi] Hbytes Hl Hw] & Hf & Ht). by split_and!.
Qed.
End stream_write.

(** ** Witnesses *)

(** A write stream with a four-byte buffer holding two bytes. *)
Definition small_writer : bc_io_stream_t :=
  mk_stream 4096 65536 [1; 2; 0; 0] 4 2 BC_IO_STREAM_SOURCE_FILE BC_IO_STREAM_MODE_WRITE
    5 true false 0 0 0 0 false 2 zero_stats.

Lemma small_writer_wf : wf_stream small_writer.
Proof. by split. Qed.

(** An interrupted, then a short, then a blocking descriptor. *)
Definition moody_writes : script :=
  mk_script [] [] [SysErr EINTR; SysOk 1; SysErr EAGAIN] [] [] [] [].

Definition small_ops : list write_op := [WriteChunk [3; 4; 5]; WriteChunk [6]; Flush].

Example small_writer_run :
  safe (run_write_ops 50 small_writer small_ops (scripted_world moody_writes))
    (fun '(rs, s, w) => rs = [(0, false); (1, true); (0, true)] /\
       sent 5 (trace w) = [1; 2; 6] /\ pending s = [] /\ logical_position s = 3).
Proof. vm_compute. by split_and!. Qed.

Lemma write_stream_refines_log_witness :
  wp ('(rs, s) ← run_write_ops 50 small_writer small_ops;
      '(ok, s) ← bc_io_stream_flush 50 s;
      mret (rs, ok, s))
    (fun '(rs, ok, s') w' => length rs = 3%nat /\ wf_stream s' /\
       logical_position s' = 2 +u zlen (accepted small_ops rs) /\
       (forall r, held w' r = 0) /\
       exists out,
         sent 5 (trace w') = out /\
         [1; 2] ++ accepted small_ops rs = out ++ pending s' /\
         (ok = true -> out = [1; 2] ++ accepted small_ops rs))
    (scripted_world moody_writes).
Proof.
  apply (write_stream_refines_log 50 small_writer small_ops (scripted_world moody_writes));
    [exact small_writer_wf|reflexivity|].
  concrete_Forall.
Defined.

Lemma write_chunk_accepts_prefix_witness :
  wp (bc_io_stream_write_chunk 50 small_writer [3; 4; 5; 6; 7])
    (fun '(ok, n, s') w' =>
       wf_stream s' /\ setup s' = setup small_writer /\ 0 <= n <= 5 /\
       (exists out, transfer 5 [] out (scripted_world moody_writes) w' /\
          [1; 2] ++ ztake n [3; 4; 5; 6; 7] = out ++ pending s') /\
       logical_position s' = 2 +u n /\
       bytes_written (stats s') = 0 +u n /\
       (ok = false -> n < 5) /\
       (ok = true -> n < 5 -> errno w' = EAGAIN /\ pending s' = []))
    (scripted_world moody_writes).
Proof.
  apply (write_chunk_accepts_prefix 50 small_writer [3; 4; 5; 6; 7]);
    [exact small_writer_wf|concrete|reflexivity|concrete].
Defined.
