(* ===== verification/StreamRead.v ===== *)
(** * Reading from a stream

    A chunk of a descriptor-backed stream is what the call received; a chunk of
    a memory stream is the next range of the memory.  [drain] is the reading
    loop of a client: call [bc_io_stream_read_chunk] until it returns false. *)

From S2P Require Import Prelude Platform Objects Machine Scripted StreamIo Stream.

(** The client's loop, making at most [calls] calls: the chunks with the bytes
    each one's buffer held when it was returned, the stream, and whether a call
    returned false. *)
Fixpoint drain `{PF : Platform} (calls fuel : nat) (s : bc_io_stream_t)
    : M (list (bc_io_stream_chunk_t * list Z) * bc_io_stream_t * bool) :=
  match calls with
  | O => mret ([], s, false)
  | S calls =>
      '(chunk, s) ← bc_io_stream_read_chunk fuel s;
      match chunk with
      | None => mret ([], s, true)
      | Some c =>
          let bytes := ztake (chunk_size c) (buffer_bytes s) in
          '(chunks, s, stopped) ← drain calls fuel s;
          mret ((c, bytes) :: chunks, s, stopped)
      end
  end.

(** The bytes of a chunk of memory that starts at [base] and holds [contents]. *)
Definition memory_view (base : Z) (contents : list Z) (c : bc_io_stream_chunk_t) : list Z :=
  ztake (chunk_size c) (zdrop (chunk_data c - base) contents).

Section stream_read.
Context {PF : Platform} {PL : PlatformLaws PF}.

(** What one call on a descriptor-backed stream does. *)
Record read_step (s : bc_io_stream_t) (c : option bc_io_stream_chunk_t) (data : list Z)
    (s' : bc_io_stream_t) (w w' : world) : Prop := {
  read_transfer : transfer (file_descriptor s) data [] w w';
  read_wf : wf_stream s';
  read_setup : setup s' = setup s;
  read_outcome :
    match c with
    | Some c =>
        c = mk_chunk (buffer s) (zlen data) true /\
        ztake (zlen data) (buffer_bytes s') = data /\
        zlen data <= buffer_size s /\
        logical_position s' = logical_position s +u zlen data /\
        bytes_read (stats s') = bytes_read (stats s) +u zlen data /\
        (zlen data < buffer_size s -> end_of_stream s' = true \/ errno w' = EAGAIN)
    | None =>
        logical_position s' = logical_position s /\ stats s' = stats s /\
        (end_of_stream s' = true -> data = [])
    end;
}.

Lemma wf_set_read_buffer s bytes p st eos :
  wf_stream s -> source_type s <> BC_IO_STREAM_SOURCE_MEMORY ->
  zlen bytes = buffer_size s -> is_u64 p ->
  is_u64 (bytes_written st) -> is_u64 (bytes_read st) ->
  wf_stream (set_logical_position p (set_end_of_stream eos
    (set_stats st (set_buffer bytes (buffer_used s) s)))).
Proof. intros [Hsz Hu Hr Hb Hm Hc] Hsrc Hl **. by split. Qed.

Lemma read_chunk_file_spec fuel s w :
  wf_stream s -> source_type s <> BC_IO_STREAM_SOURCE_MEMORY ->
  end_of_stream s = false -> enough fuel (buffer_size s) w ->
  wp (bc_io_stream_read_chunk_file fuel s)
    (fun '(c, s') w' => exists data, read_step s c data s' w w') w.
Proof.
  intros Hs Hsrc Heos Hfuel. pose proof Hs as [Hsz Hu Hr Hb Hm (Hl & Hw & Hrd)].
  specialize (Hb Hsrc). apply wp_bind.
  eapply wp_mono; [apply read_full_spec; [done|lia|done]|].
  intros r w' (data & Ht & Hblock & Hbytes & Hle & Heof & Hagain).
  rewrite Hbytes, Hblock. set (bytes := data ++ zdrop (zlen data) (buffer_bytes s)).
  assert (Hlen : zlen bytes = buffer_size s) by (subst bytes; block_lia).
  assert (Hwf : forall p eos st, is_u64 p -> is_u64 (bytes_written st) -> is_u64 (bytes_read st) ->
    wf_stream (set_logical_position p (set_end_of_stream eos
      (set_stats st (set_buffer bytes (buffer_used s) s)))))
    by (intros; by apply wf_set_read_buffer).
  destruct (rr_ok r) eqn:Hok; simpl; last first.
  { apply wp_ret. exists data. constructor; [done| |done|].
    - by apply (Hwf (logical_position s) (end_of_stream s) (stats s)).
    - simpl. rewrite Heos. by split_and!. }
  case_decide as Hend; apply wp_ret; exists data.
  { constructor; [done| |done|].
    - by apply (Hwf (logical_position s) true (stats s)).
    - simpl. split_and!; [done..|]. intros _. by apply zlen_nil_inv, Hend. }
  assert (Hdata : ztake (zlen data) bytes = data) by by apply ztake_app.
  constructor; [done| |by destruct (rr_eof r)|].
  - pose (st := count_read (zlen data) (bool_decide (zlen data < buffer_size s)) (stats s)).
    destruct (rr_eof r);
      [apply (Hwf (logical_position s +u zlen data) true st)
      |apply (Hwf (logical_position s +u zlen data) (end_of_stream s) st)];
      try apply wrap64_range; done.
  - destruct (rr_eof r) eqn:He; simpl; split_and!; try done; [by left|].
    intros Hlt. right. apply Hagain; [done|done|lia].
Qed.

Lemma read_chunk_file_spec' fuel s w :
  wf_stream s -> source_type s <> BC_IO_STREAM_SOURCE_MEMORY ->
  mode s = BC_IO_STREAM_MODE_READ -> enough fuel (buffer_size s) w ->
  wp (bc_io_stream_read_chunk fuel s)
    (fun '(c, s') w' => exists data, read_step s c data s' w w') w.
Proof.
  intros Hs Hsrc Hmode Hfuel. unfold bc_io_stream_read_chunk.
  destruct (end_of_stream s) eqn:Heos.
  { apply wp_ret. exists []. constructor; try done. apply transfer_refl. }
  rewrite decide_False by (intros E; by apply E). rewrite decide_False by done.
  by apply read_chunk_file_spec.
Qed.

(** The chunks of a drained stream, as bytes. *)
Definition delivered (chunks : list (bc_io_stream_chunk_t * list Z)) : list Z :=
  concat (snd <$> chunks).

Lemma drain_file_spec calls fuel s w :
  wf_stream s -> source_type s <> BC_IO_STREAM_SOURCE_MEMORY ->
  mode s = BC_IO_STREAM_MODE_READ -> enough fuel (buffer_size s) w ->
  wp (drain calls fuel s)
    (fun '(chunks, s', stopped) w' => exists lost,
       transfer (file_descriptor s) (delivered chunks ++ lost) [] w w' /\
       wf_stream s' /\ setup s' = setup s /\
       logical_position s' = logical_position s +u zlen (delivered chunks) /\
       bytes_read (stats s') = bytes_read (stats s) +u zlen (delivered chunks) /\
       Forall (fun '(c, bytes) => c = mk_chunk (buffer s) (zlen bytes) true /\
                 zlen bytes <= buffer_size s) chunks /\
       (end_of_stream s' = true -> lost = []) /\
       (stopped = false -> lost = [] /\ length chunks = calls)) w.
Proof.
  revert s w. induction calls as [|calls IH]; intros s w Hs Hsrc Hmode Hfuel; simpl.
  { apply wp_ret. exists []. pose proof Hs as [_ _ _ _ _ (Hl & Hw & Hr)].
    rewrite !Z.add_0_r, !wrap64_small by done. split_and!; try done. apply transfer_refl. }
  apply wp_bind. eapply wp_mono; [by apply read_chunk_file_spec'|].
  intros [c s1] w1 (data & [Ht Hwf Hset Hout]).
  destruct c as [c|]; last first.
  { apply wp_ret. destruct Hout as (Hl & Hst & Hend). exists data.
    pose proof Hs as [_ _ _ _ _ (Hlw & Hww & Hrw)].
    rewrite Hl, Hst, !Z.add_0_r, !wrap64_small by done. by split_and!. }
  destruct Hout as (-> & Hdata & Hle & Hl & Hr & _). simpl. rewrite Hdata.
  pose proof Hset as Hset'. unfold setup in Hset'.
  injection Hset' as _ Ebuf Esz Esrc Em Efd _ _ _ _ _.
  apply wp_bind. eapply wp_mono; [apply IH|].
  - done.
  - by rewrite Esrc.
  - by rewrite Em.
  - rewrite Esz. apply transfer_patience in Ht. unfold enough in *. lia.
  - intros [[chunks s'] stopped] w' (lost & Ht' & Hwf' & Hset' & Hl' & Hr' & Hall & Hend & Hstop).
    apply wp_ret. exists lost. unfold delivered in *. simpl. rewrite Efd in Ht'.
    rewrite Ebuf, Esz in Hall. rewrite Hl', Hr', Hl, Hr, !wrap64_add_l, zlen_app, !Z.add_assoc.
    split_and!; try done.
    + rewrite <- app_assoc. refine (transfer_trans _ _ [] _ [] _ _ _ Ht Ht').
    + congruence.
    + by constructor.
    + intros E. destruct (Hstop E) as [? <-]. by split.
Qed.

(** ** Memory streams *)

Definition ceil_div (n d : Z) : Z := (n + d - 1) / d.

Lemma ceil_div_step n d : 0 < n -> 0 < d -> ceil_div n d = 1 + ceil_div (n - Z.min n d) d.
Proof.
  intros Hn Hd. unfold ceil_div. destruct (Z.min_spec n d) as [[Hlt ->]|[Hle ->]].
  - rewrite Z.sub_diag, (Z.div_small (0 + d - 1)) by lia.
    symmetry. apply (Z.div_unique _ _ _ (n - 1)); lia.
  - replace (n + d - 1) with (n - d + d - 1 + 1 * d) by lia. rewrite Z.div_add by lia. lia.
Qed.

Lemma read_chunk_memory_end s :
  memory_size s <= memory_position s ->
  bc_io_stream_read_chunk_memory s = (None, set_end_of_stream true s).
Proof. intros. unfold bc_io_stream_read_chunk_memory. by rewrite decide_True. Qed.

(** One call on a memory stream before its end. *)
Lemma read_chunk_memory_spec s :
  wf_stream s -> source_type s = BC_IO_STREAM_SOURCE_MEMORY ->
  is_u64 (memory_data s) -> is_u64 (memory_data s + memory_size s) ->
  memory_position s < memory_size s ->
  let n := Z.min (memory_size s - memory_position s) (buffer_size s) in
  exists s',
    bc_io_stream_read_chunk_memory s =
      (Some (mk_chunk (memory_data s + memory_position s) n false), s') /\
    wf_stream s' /\ setup s' = setup s /\ end_of_stream s' = end_of_stream s /\
    memory_position s' = memory_position s + n.
Proof.
  intros Hs Hsrc Hdata Hall Hlt n.
  pose proof Hs as [Hsz Hu Hr Hb Hm Hc]. destruct (Hm Hsrc) as (Hmode & Hpos & Hrange & Hsize & Hlog).
  unfold is_u64 in *. unfold bc_io_stream_read_chunk_memory.
  rewrite decide_False by lia. rewrite !(wrap64_small (memory_size s - _)) by (unfold is_u64; lia).
  replace (if decide (memory_size s - memory_position s < buffer_size s) then _ else _) with n
    by (subst n; case_decide; lia).
  rewrite (wrap64_small (memory_data s + _)), (wrap64_small (memory_position s + n)) by (unfold is_u64; subst n; lia).
  eexists. split; [done|]. split_and!; try done.
  split; simpl; try done.
  - intros _. rewrite Hlog, wrap64_small by (unfold is_u64; subst n; lia).
    unfold is_u64. subst n. split_and!; lia || done.
  - split_and!; [apply wrap64_range|apply Hc|apply wrap64_range].
Qed.

Lemma drain_memory_spec calls fuel s contents w :
  wf_stream s -> source_type s = BC_IO_STREAM_SOURCE_MEMORY -> end_of_stream s = false ->
  is_u64 (memory_data s) -> is_u64 (memory_data s + memory_size s) ->
  memory_size s - memory_position s < Z.of_nat calls -> zlen contents = memory_size s ->
  wp (drain calls fuel s)
    (fun '(chunks, s', stopped) w' => w' = w /\ stopped = true /\
       end_of_stream s' = true /\ wf_stream s' /\ setup s' = setup s /\
       logical_position s' = memory_size s /\
       concat (memory_view (memory_data s) contents <$> chunks.*1) =
         zdrop (memory_position s) contents /\
       zlen chunks = ceil_div (memory_size s - memory_position s) (buffer_size s) /\
       Forall (fun c => 0 < chunk_size c <= buffer_size s /\ chunk_owned c = false) chunks.*1) w.
Proof.
  revert s. induction calls as [|calls IH]; intros s Hs Hsrc Heos Hdata Hall Hcalls Hcont.
  { destruct (wf_memory _ Hs Hsrc) as (_ & _ & ? & _). lia. }
  pose proof (wf_memory _ Hs Hsrc) as (Hmode & Hpos & Hrange & Hsize & Hlog).
  simpl. unfold bc_io_stream_read_chunk. rewrite Heos.
  rewrite decide_False by (intros E; by apply E). rewrite decide_True by done.
  apply wp_bind, wp_ret.
  destruct (decide (memory_size s <= memory_position s)) as [Hend|Hlt].
  { rewrite read_chunk_memory_end by done. apply wp_ret.
    replace (memory_position s) with (memory_size s) in * by lia. simpl.
    rewrite zdrop_all, Z.sub_diag by lia. unfold ceil_div.
    rewrite Z.div_small by lia. split_and!; try done. by apply wf_set_end. }
  destruct (read_chunk_memory_spec s) as (s1 & -> & Hwf1 & Hset & Heos1 & Hpos1); try done || lia.
  pose proof Hset as Hset'. unfold setup in Hset'.
  injection Hset' as _ _ Esz Esrc _ _ _ Edata Esize _ _. simpl.
  apply wp_bind. eapply wp_mono; [apply IH; try congruence|]; try lia.
  intros [[chunks s'] stopped] w' (-> & -> & Hend & Hwf' & Hs' & Hl' & Hcat & Hnum & Hfor).
  rewrite Edata, Esize, Esz, Hpos1 in *. apply wp_ret.
  rewrite !fmap_cons. split_and!; try done; [congruence| | |].
  - cbn [concat]. rewrite Hcat. unfold memory_view at 1. simpl.
    rewrite Z.add_simpl_l. rewrite <- zdrop_zdrop by lia. apply ztake_zdrop.
  - rewrite zlen_cons, Hnum. rewrite (ceil_div_step (memory_size s - memory_position s)) by lia.
    do 2 f_equal. lia.
  - constructor; [simpl; split; [lia|done]|done].
Qed.

(** ** Properties *)

(** C14. Draining a descriptor-backed read stream delivers what the kernel gave,
    in order: the contents of the chunks, concatenated, are the bytes received
    from the descriptor, and the bytes a failed call had already received
    ([lost]) are the only ones missing; none is missing when the stream reached
    its end.  Position and byte count move by what was delivered, every chunk
    lies in the stream's buffer, and nothing is allocated or released. *)
Theorem drained_descriptor_delivers_received calls fuel s w :
  wf_stream s -> source_type s <> BC_IO_STREAM_SOURCE_MEMORY ->
  mode s = BC_IO_STREAM_MODE_READ -> enough fuel (buffer_size s) w ->
  wp (drain calls fuel s)
    (fun '(chunks, s', stopped) w' => exists lost,
       received (file_descriptor s) (trace w') =
         received (file_descriptor s) (trace w) ++ delivered chunks ++ lost /\
       (end_of_stream s' = true \/ stopped = false -> lost = []) /\
       Forall (fun '(c, bytes) => c = mk_chunk (buffer s) (zlen bytes) true /\
                 zlen bytes <= buffer_size s) chunks /\
       wf_stream s' /\ setup s' = setup s /\
       logical_position s' = logical_position s +u zlen (delivered chunks) /\
       bytes_read (stats s') = bytes_read (stats s) +u zlen (delivered chunks) /\
       heap w' = heap w /\ (forall r, held w' r = held w r)) w.
Proof.
  intros Hs Hsrc Hmode Hfuel. eapply wp_mono; [by apply drain_file_spec|].
  intros [[chunks s'] stopped] w' (lost & [Hq Hin _] & Hwf & Hset & Hl & Hr & Hall & Hend & Hstop).
  exists lost. split_and!; try done; [|apply Hq..].
  intros [E|E]; [by apply Hend|by apply Hstop].
Qed.

(** C28. Draining a memory stream tiles the memory: the chunks are consecutive
    non-empty views of at most the chunk size, their concatenation is the memory
    from the position on, there are exactly as many of them as the division of
    the remaining size by the chunk size, rounded up; the stream then is at its
    end, and no system call, copy or allocation was made. *)
Theorem drained_memory_tiles calls fuel s contents w :
  wf_stream s -> source_type s = BC_IO_STREAM_SOURCE_MEMORY -> end_of_stream s = false ->
  is_u64 (memory_data s) -> is_u64 (memory_data s + memory_size s) ->
  memory_size s - memory_position s < Z.of_nat calls -> zlen contents = memory_size s ->
  wp (drain calls fuel s)
    (fun '(chunks, s', stopped) w' => w' = w /\ stopped = true /\
       concat (memory_view (memory_data s) contents <$> chunks.*1) =
         zdrop (memory_position s) contents /\
       zlen chunks = ceil_div (memory_size s - memory_position s) (buffer_size s) /\
       Forall (fun c => 0 < chunk_size c <= buffer_size s /\ chunk_owned c = false) chunks.*1 /\
       bc_io_stream_is_end_of_stream s' = true /\
       bc_io_stream_current_position s' = memory_size s) w.
Proof.
  intros. eapply wp_mono; [by apply drain_memory_spec|].
  intros [[chunks s'] stopped] w' (-> & -> & ? & ? & ? & ? & ? & ? & ?). by split_and!.
Qed.
End stream_read.

(** ** Witnesses *)

(** A read stream with a four-byte buffer. *)
Definition small_reader : bc_io_stream_t :=
  mk_stream 4096 65536 [0; 0; 0; 0] 4 0 BC_IO_STREAM_SOURCE_FILE BC_IO_STREAM_MODE_READ
    5 true false 0 0 0 10 true 0 zero_stats.

Lemma small_reader_wf : wf_stream small_reader.
Proof. by split. Qed.

(** Short reads, an interruption, then the end of the file. *)
Definition halting_reads : script :=
  mk_script [] [SysOk [1; 2]; SysErr EINTR; SysOk [3; 4]; SysOk [5]; SysOk []] [] [] [] [] [].

Example small_reader_run :
  safe (drain 5 50 small_reader (scripted_world halting_reads))
    (fun '(chunks, s, stopped, w) => delivered chunks = [1; 2; 3; 4; 5] /\
       stopped = true /\ end_of_stream s = true).
Proof. vm_compute. by split_and!. Qed.

Lemma drained_descriptor_delivers_received_witness :
  wp (drain 5 50 small_reader)
    (fun '(chunks, s', stopped) w' => exists lost,
       received 5 (trace w') = [] ++ delivered chunks ++ lost /\
       (end_of_stream s' = true \/ stopped = false -> lost = []) /\
       Forall (fun '(c, bytes) => c = mk_chunk 65536 (zlen bytes) true /\
                 zlen bytes <= 4) chunks /\
       wf_stream s' /\ setup s' = setup small_reader /\
       logical_position s' = 0 +u zlen (delivered chunks) /\
       bytes_read (stats s') = 0 +u zlen (delivered chunks) /\
       heap w' = ∅ /\ (forall r, held w' r = 0))
    (scripted_world halting_reads).
Proof.
  apply (drained_descriptor_delivers_received 5 50 small_reader (scripted_world halting_reads));
    [exact small_reader_wf|done|done|concrete].
Defined.

(** Ten bytes of memory at address 1000, read in chunks of four. *)
Definition small_memory : bc_io_stream_t :=
  mk_stream 0 0 [] 4 0 BC_IO_STREAM_SOURCE_MEMORY BC_IO_STREAM_MODE_READ
    (-1) false false 1000 10 0 10 true 0 zero_stats.

Lemma small_memory_wf : wf_stream small_memory.
Proof. by split. Qed.

Lemma drained_memory_tiles_witness :
  wp (drain 11 0 small_memory)
    (fun '(chunks, s', stopped) w' => w' = scripted_world quiet_script /\ stopped = true /\
       concat (memory_view 1000 [0; 1; 2; 3; 4; 5; 6; 7; 8; 9] <$> chunks.*1) =
         [0; 1; 2; 3; 4; 5; 6; 7; 8; 9] /\
       zlen chunks = 3 /\
       Forall (fun c => 0 < chunk_size c <= 4 /\ chunk_owned c = false) chunks.*1 /\
       bc_io_stream_is_end_of_stream s' = true /\
       bc_io_stream_current_position s' = 10)
    (scripted_world quiet_script).
Proof.
  apply (drained_memory_tiles 11 0 small_memory [0; 1; 2; 3; 4; 5; 6; 7; 8; 9]);
    [exact small_memory_wf|done|done|concrete..].
Defined.
