(* ===== verification/StreamLife.v ===== *)
(** * The life of a stream: opening and closing

    A failed open leaves the heap and the ledger as they were; a successful one
    holds exactly what closing the stream releases.  Sessions of a client, from
    opening to closing, therefore hold nothing at their end. *)

From S2P Require Import Prelude Platform Objects Machine Scripted.
From S2P Require Import StreamIo Stream StreamWrite StreamRead.

(** Client sessions: open a file by path, make the calls of [ops], close it; and
    read a descriptor of the client's through a stream. *)
Definition write_session `{PF : Platform} (fuel : nat) (path : list Z) (size : Z)
    (ops : list write_op) : M (option (list (Z * bool))) :=
  stream ← bc_io_stream_open_file path BC_IO_STREAM_MODE_WRITE size;
  match stream with
  | None => mret None
  | Some p =>
      s ← load_stream p;
      '(rs, s) ← run_write_ops fuel s ops;
      store p (OStream s);;
      bc_io_stream_close fuel p;;
      mret (Some rs)
  end.

Definition read_session `{PF : Platform} (calls fuel : nat) (fd : Z)
    (source : bc_io_stream_source_type_t) (size : Z) : M (option (list Z)) :=
  stream ← bc_io_stream_open_file_descriptor fd source BC_IO_STREAM_MODE_READ size;
  match stream with
  | None => mret None
  | Some p =>
      s ← load_stream p;
      '(chunks, s, _) ← drain calls fuel s;
      store p (OStream s);;
      bc_io_stream_close fuel p;;
      mret (Some (delivered chunks))
  end.

Section stream_life.
Context {PF : Platform} {PL : PlatformLaws PF}.

(** The size of the buffer of a stream opened with [size]. *)
Definition effective_size (size : Z) (source : bc_io_stream_source_type_t) : Z :=
  if decide (size = 0) then bc_io_stream_io_default_buffer_size source else size.
Definition aligned_size (size : Z) (source : bc_io_stream_source_type_t) : Z :=
  (effective_size size source + 63) / 64 * 64.

(** Sizes whose alignment does not overflow a [size_t]. *)
Definition alignable (size : Z) : Prop := 0 <= size /\ size + 63 < u64_modulus.

Lemma aligned_size_bounds size source :
  alignable size ->
  is_u64 (aligned_size size source) /\ 0 < aligned_size size source /\
  effective_size size source <= aligned_size size source < effective_size size source + 64 /\
  (64 | aligned_size size source).
Proof.
  unfold alignable, aligned_size, is_u64. intros [H0 Hmax].
  assert (0 < effective_size size source /\ effective_size size source + 63 < u64_modulus).
  { unfold effective_size, u64_modulus in *. case_decide; [|lia]. by destruct source. }
  set (n := effective_size size source) in *.
  pose proof (Z.div_mod (n + 63) 64 ltac:(lia)). pose proof (Z.mod_pos_bound (n + 63) 64 ltac:(lia)).
  split_and!; try lia. apply Z.divide_factor_r.
Qed.

Lemma allocate_with_buffer_spec size source w :
  wf_world w -> alignable size ->
  wp (bc_io_stream_allocate_with_buffer size source)
    (fun r w' =>
       match r with
       | None => evolved (heap w) nothing w w'
       | Some (p, a, (b, bytes), n) =>
           heap w !! p = None /\ a <> 0 /\ p <> 0 /\ n = aligned_size size source /\ zlen bytes = n /\
           evolved (<[p := ORaw]> (heap w)) (tokens [RPool p; RArena a]) w w'
       end) w.
Proof.
  intros Hwf Hsize. pose proof (aligned_size_bounds size source Hsize) as (Hn & Hpos & Hle & _).
  unfold bc_io_stream_allocate_with_buffer, bc_io_stream_io_align_buffer_size.
  fold (effective_size size source).
  assert (Heff : is_u64 (effective_size size source) /\ effective_size size source + 63 < u64_modulus).
  { unfold alignable, effective_size, is_u64, u64_modulus in *. case_decide; [|lia]. by destruct source. }
  unfold BC_IO_STREAM_BUFFER_ALIGNMENT. rewrite core_align_up_spec by (apply Heff || lia).
  change ((effective_size size source + (64 - 1)) / 64 * 64) with (aligned_size size source).
  wp_run; [|solve_evolved..].
  split_and!; [by apply wf_world_dom|done|done|done|auto with lia|solve_evolved].
Qed.

(** ** Opening *)

(** A stream as it is opened. *)
Record fresh_stream (s : bc_io_stream_t) : Prop := {
  fresh_wf : wf_stream s;
  fresh_empty : buffer_used s = 0;
  fresh_open : end_of_stream s = false;
  fresh_position : logical_position s = 0;
  fresh_stats : stats s = zero_stats;
}.

Lemma fresh_buffered arena b bytes n source m fd owns total known :
  source <> BC_IO_STREAM_SOURCE_MEMORY -> is_u64 n -> zlen bytes = n ->
  fresh_stream (set_total_size total known
    (bc_io_stream_init_common_fields arena (b, bytes) n source m fd owns)).
Proof.
  intros Hsrc Hn Hb. split; try done. split; simpl; try done.
  unfold is_u64 in Hn. lia.
Qed.

(** The part of [open_file] and [open_file_descriptor] after the descriptor is
    there. *)
Lemma query_total_spec (b : bool) fd w :
  wp (if b then total ← bc_io_stream_io_get_file_size fd;
           bc_io_stream_io_advise_sequential fd;; mret total
      else mret None) (fun _ w' => quiet w w') w.
Proof.
  destruct b; [|by apply wp_ret].
  apply wp_bind. eapply wp_mono; [apply get_file_size_spec|]. intros total w1 [Hq1 _].
  apply wp_bind. eapply wp_mono; [apply advise_sequential_spec|]. intros ? w2 Hq2.
  apply wp_ret. by etrans.
Qed.

Lemma open_descriptor_spec fd source m size w :
  wf_world w -> alignable size -> source <> BC_IO_STREAM_SOURCE_MEMORY ->
  wp (bc_io_stream_open_file_descriptor fd source m size)
    (fun r w' =>
       match r with
       | None => evolved (heap w) nothing w w'
       | Some p => exists s,
           heap w !! p = None /\ p <> 0 /\ fresh_stream s /\
           mode s = m /\ source_type s = source /\ file_descriptor s = fd /\
           owns_file_descriptor s = false /\ buffer_size s = aligned_size size source /\
           buffer_arena s <> 0 /\
           evolved (<[p := OStream s]> (heap w)) (tokens (stream_resources p s)) w w'
       end) w.
Proof.
  intros Hwf Hsize Hsrc. apply wp_bind.
  eapply (wp_mono _ (fun _ w' => quiet w w')).
  { case_decide; [exact (query_total_spec true fd w)|exact (query_total_spec false fd w)]. }
  intros total w1 Hq. pose proof (evolved_quiet _ _ Hq Hwf) as He1.
  apply wp_bind. eapply wp_mono; [apply allocate_with_buffer_spec; [apply He1|done]|].
  rewrite (quiet_heap _ _ Hq).
  intros [[[[p a] [b bytes]] n]|] w2; simpl.
  - intros (Hp & Ha & Hp0 & -> & Hb & He2).
    wp_step. eapply wp_store; [rewrite (evolved_heap _ _ _ _ He2); by simplify_map_eq|].
    apply wp_ret.
    destruct (aligned_size_bounds size source Hsize) as [Hn _].
    exists (set_total_size (default 0 total) (bool_decide (is_Some total))
      (bc_io_stream_init_common_fields a (b, bytes) (aligned_size size source) source m fd false)).
    split_and!; try done; [by apply fresh_buffered|].
    pose proof (evolved_trans _ _ _ _ _ _ _ He1 He2) as [Hh Hd Hw Hpat].
    split; simpl; [by rewrite Hh, insert_insert_eq| | |done].
    + intros r. change (held (mk_world _ _ _ _ _) r) with (held w2 r). rewrite Hd.
      unfold nothing, stream_resources. simpl. rewrite decide_True by done. simpl. lia.
    + unfold wf_world in *. simpl. rewrite Hh, !dom_insert_L in *. set_solver.
  - intros He2. apply wp_ret. eapply evolved_ext; [by eapply evolved_trans|done|].
    intros r. unfold nothing. lia.
Qed.

Lemma open_path_evolved path m w :
  wf_world w ->
  wp (bc_io_stream_io_open_file path m)
    (fun r w' => evolved (heap w) (tokens (match r with Some fd => [RFd fd] | None => [] end)) w w' /\
       match r with Some fd => 0 <= fd | None => True end) w.
Proof.
  intros Hwf. eapply wp_mono; [apply open_file_spec|].
  intros r w' (Hh & Hm & Hpat & Hr). split; [split; [done| | |done]|].
  - intros x. destruct r; simpl; [destruct Hr as [_ Hr]|]; rewrite Hr; lia.
  - unfold wf_world in *. by rewrite Hh, Hm.
  - destruct r; [apply Hr|done].
Qed.

Lemma open_file_life path m size w :
  wf_world w -> alignable size ->
  wp (bc_io_stream_open_file path m size)
    (fun r w' =>
       match r with
       | None => evolved (heap w) nothing w w'
       | Some p => exists s,
           heap w !! p = None /\ p <> 0 /\ fresh_stream s /\
           mode s = m /\ source_type s = BC_IO_STREAM_SOURCE_FILE /\
           0 <= file_descriptor s /\ owns_file_descriptor s = true /\
           buffer_size s = aligned_size size BC_IO_STREAM_SOURCE_FILE /\
           buffer_arena s <> 0 /\
           evolved (<[p := OStream s]> (heap w)) (tokens (stream_resources p s)) w w'
       end) w.
Proof.
  intros Hwf Hsize. apply wp_bind. eapply wp_mono; [by apply open_path_evolved|].
  intros [fd|] w0 [He0 Hfd].
  2: { apply wp_ret. eapply evolved_ext; [done..|]. by intros r. }
  apply wp_bind. eapply (wp_mono _ (fun _ w' => quiet w0 w')).
  { case_decide; [exact (query_total_spec true fd w0)|exact (query_total_spec false fd w0)]. }
  intros total w1 Hq. pose proof (evolved_quiet _ _ Hq (evolved_wf _ _ _ _ He0)) as He1.
  rewrite (evolved_heap _ _ _ _ He0) in He1.
  pose proof (evolved_trans _ _ _ _ _ _ _ He0 He1) as He. clear He0 He1 Hq.
  apply wp_bind. eapply wp_mono; [apply allocate_with_buffer_spec; [apply He|done]|].
  rewrite (evolved_heap _ _ _ _ He).
  intros [[[[p a] [b bytes]] n]|] w2; simpl.
  - intros (Hp & Ha & Hp0 & -> & Hb & He2).
    wp_step. eapply wp_store; [rewrite (evolved_heap _ _ _ _ He2); by simplify_map_eq|].
    apply wp_ret. destruct (aligned_size_bounds size BC_IO_STREAM_SOURCE_FILE Hsize) as [Hn _].
    exists (set_total_size (default 0 total) (bool_decide (is_Some total))
      (bc_io_stream_init_common_fields a (b, bytes) (aligned_size size BC_IO_STREAM_SOURCE_FILE)
         BC_IO_STREAM_SOURCE_FILE m fd true)).
    split_and!; try done; [by apply fresh_buffered|].
    pose proof (evolved_trans _ _ _ _ _ _ _ He He2) as [Hh Hd Hw Hpat].
    split; simpl; [by rewrite Hh, insert_insert_eq| | |done].
    + intros r. change (held (mk_world _ _ _ _ _) r) with (held w2 r). rewrite Hd.
      unfold nothing, stream_resources. simpl. rewrite decide_True by done. simpl. lia.
    + unfold wf_world in *. simpl. rewrite Hh, !dom_insert_L in *. set_solver.
  - intros He2. apply wp_bind. eapply wp_mono; [apply close_evolved; apply He2|].
    intros ? w3 He3. apply wp_ret. rewrite (evolved_heap _ _ _ _ He2) in He3.
    eapply evolved_ext;
      [eapply evolved_trans; [done|by eapply evolved_trans]|done|].
    intros r. unfold nothing. simpl. lia.
Qed.

Lemma open_memory_life data size w :
  wf_world w -> is_u64 size ->
  wp (bc_io_stream_open_memory data size)
    (fun r w' =>
       match r with
       | None => evolved (heap w) nothing w w'
       | Some p => exists s,
           heap w !! p = None /\ p <> 0 /\ fresh_stream s /\
           mode s = BC_IO_STREAM_MODE_READ /\ source_type s = BC_IO_STREAM_SOURCE_MEMORY /\
           memory_data s = data /\ memory_size s = size /\ memory_position s = 0 /\
           buffer_size s = BC_IO_STREAM_DEFAULT_MEMORY_CHUNK_SIZE /\
           bc_io_stream_total_size s = Some size /\
           owns_file_descriptor s = false /\ buffer_arena s = 0 /\
           evolved (<[p := OStream s]> (heap w)) (tokens [RPool p]) w w'
       end) w.
Proof.
  intros Hwf Hsize. unfold bc_io_stream_open_memory. wp_run; [|solve_evolved].
  exists (set_total_size size true (set_memory data size 0 (bc_io_stream_init_common_fields
    0 (0, []) BC_IO_STREAM_DEFAULT_MEMORY_CHUNK_SIZE BC_IO_STREAM_SOURCE_MEMORY BC_IO_STREAM_MODE_READ (-1) false))).
  split_and!; try done; [by apply wf_world_dom| |solve_evolved].
  split; try done. split; simpl; try done.
  intros _. unfold is_u64 in *. split_and!; done || lia.
Qed.

(** ** Closing *)

(** Closing flushes, then releases the buffer, the descriptor when the stream
    owns it, and the stream itself. *)
Lemma close_life fuel p s w :
  wf_world w -> heap w !! p = Some (OStream s) -> wf_stream s ->
  enough fuel (buffer_used s) w ->
  wp (bc_io_stream_close fuel p)
    (fun _ w' =>
       evolved (delete p (heap w)) (fun r => - tokens (stream_resources p s) r) w w' /\
       exists out rest, pending s = out ++ rest /\
         sent (file_descriptor s) (trace w') = sent (file_descriptor s) (trace w) ++ out) w.
Proof.
  intros Hwf Hp Hs Hfuel. apply wp_bind. eapply wp_load_stream; [done|].
  apply wp_bind. eapply wp_mono; [by apply flush_spec|].
  intros [ok s1] w1 (out & bytes & used & -> & Hwf1 & [Hq Hin Hout] & Hpend & _).
  set (s1 := set_stats _ _) in *.
  pose proof (evolved_quiet _ _ Hq Hwf) as [Hh1 Hd1 Hw1 Hp1].
  apply wp_bind. eapply wp_store; [by rewrite Hh1|].
  apply wp_bind. change (buffer_arena s1) with (buffer_arena s).
  change (owns_file_descriptor s1) with (owns_file_descriptor s).
  change (file_descriptor s1) with (file_descriptor s). unfold stream_resources.
  destruct (decide (buffer_arena s <> 0)), (owns_file_descriptor s); wp_run.
  all: split; [split; [simpl; by rewrite Hh1, delete_insert_eq| |solve_wf|simpl in *; lia]|].
  all: try (intros r; specialize (Hd1 r); unfold held, nothing in *; held_lia).
  all: exists out, (pending s1); split; [done|].
  all: simpl; autorewrite with machine; simpl; by rewrite !app_nil_r.
Qed.

(** Putting back a stream that its client used quietly, and closing it, gives
    back what its opening took; a part of what was pending may still be sent. *)
Lemma end_session {A} fuel p s s' (k : M A) Q (w0 w1 w2 : world) :
  wf_world w0 -> heap w0 !! p = None ->
  evolved (<[p := OStream s]> (heap w0)) (tokens (stream_resources p s)) w0 w1 ->
  quiet w1 w2 -> wf_stream s' -> setup s' = setup s ->
  enough fuel (buffer_size s) w0 ->
  (forall w' out rest, evolved (heap w0) nothing w0 w' -> pending s' = out ++ rest ->
     sent (file_descriptor s) (trace w') = sent (file_descriptor s) (trace w2) ++ out -> wp k Q w') ->
  wp (store p (OStream s');; bc_io_stream_close fuel p;; k) Q w2.
Proof.
  intros Hwf Hp He [Hm Hh Hheld Hpat] Hs Hset Hfuel Hk. unfold setup in Hset.
  injection Hset as Ea _ Esz _ _ Efd Eown _ _ _ _. destruct He as [Eh Ed Ewf Epat].
  apply wp_bind. eapply wp_store; [rewrite Hh, Eh; by simplify_map_eq|].
  rewrite Hh, Eh, insert_insert_eq. apply wp_bind.
  eapply wp_mono; [apply (close_life _ _ s')|].
  - unfold wf_world in *. simpl. rewrite Hm. rewrite Eh in Ewf.
    rewrite dom_insert_L in *. done.
  - simpl. by simplify_map_eq.
  - done.
  - pose proof (wf_used _ Hs). unfold enough in *. simpl. lia.
  - intros ? w' [[Hh' Hd' Hw' Hp'] (out & rest & Hpend & Hsent)]. rewrite Efd in Hsent.
    apply (Hk w' out rest); [|done|done]. split; [|intros r|done|simpl in *; lia].
    + rewrite Hh'. simpl. rewrite delete_insert_eq. by apply delete_id.
    + rewrite Hd'. unfold stream_resources. rewrite Ea, Efd, Eown.
      change (held (mk_world _ _ _ _ _) r) with (held w2 r).
      rewrite Hheld, Ed. unfold nothing, stream_resources. lia.
Qed.

Lemma finish_session {A} fuel p s s' (k : M A) Q (w0 w1 w2 : world) :
  wf_world w0 -> heap w0 !! p = None ->
  evolved (<[p := OStream s]> (heap w0)) (tokens (stream_resources p s)) w0 w1 ->
  quiet w1 w2 -> wf_stream s' -> setup s' = setup s ->
  enough fuel (buffer_size s) w0 ->
  (forall w', evolved (heap w0) nothing w0 w' -> wp k Q w') ->
  wp (store p (OStream s');; bc_io_stream_close fuel p;; k) Q w2.
Proof. intros. eapply end_session; eauto. Qed.

(** When [bc_core_align_up] stores nothing for the size, the allocation computes
    with an [aligned_size] that was never set. *)
Lemma allocate_unalignable size source w :
  size <> 0 -> (core_align_up size BC_IO_STREAM_BUFFER_ALIGNMENT).2 = None ->
  bc_io_stream_allocate_with_buffer size source w = Undefined.
Proof.
  intros Hsize Hno. unfold bc_io_stream_allocate_with_buffer.
  rewrite decide_False by done. unfold bc_io_stream_io_align_buffer_size. by rewrite Hno.
Qed.

(** A stream as a call with this size, source and mode is to make it. *)
Definition opened_with (size : Z) (source : bc_io_stream_source_type_t) (m : bc_io_stream_mode_t)
    (s : bc_io_stream_t) : Prop :=
  let wanted := if decide (size = 0) then bc_io_stream_io_default_buffer_size source else size in
  mode s = m /\ source_type s = source /\
  zlen (buffer_bytes s) = buffer_size s /\ (64 | buffer_size s) /\
  wanted <= buffer_size s < wanted + 64 /\ buffer_size s < u64_modulus /\
  buffer_used s = 0 /\ end_of_stream s = false /\ bc_io_stream_current_position s = 0.

(** What a call that opens a stream leaves: nothing, or a stream in a new block
    and the resources that go with it. *)
Definition opened (w : world) (made : Z -> bc_io_stream_t -> Prop) (takes : Z -> bc_io_stream_t -> list resource)
    (r : option Z) (w' : world) : Prop :=
  match r with
  | None => heap w' = heap w /\ forall x, held w' x = held w x
  | Some p => exists s, heap w !! p = None /\ heap w' = <[p := OStream s]> (heap w) /\ made p s /\
      forall x, held w' x = held w x + tokens (takes p s) x
  end.

Lemma fresh_opened size source m s :
  alignable size -> source <> BC_IO_STREAM_SOURCE_MEMORY -> fresh_stream s ->
  mode s = m -> source_type s = source -> buffer_size s = aligned_size size source ->
  opened_with size source m s.
Proof.
  intros Hsize Hsource [Hwf Hu He Hpos _] Hm Hs Esz.
  destruct (aligned_size_bounds size source Hsize) as ([_ Hmax] & _ & Hle & Hdiv).
  unfold opened_with. rewrite Esz. split_and!; try done; try apply Hle.
  rewrite <- Esz. apply (wf_block s Hwf). by rewrite Hs.
Qed.

(** ** Properties *)

(** C17. A session on a file opened by path is balanced whatever happens in it:
    the open fails at any of its steps, a write is refused, a flush fails.  At
    the end the heap is the one before, and every descriptor, block and arena
    taken has been given back exactly once. *)
Theorem write_session_balanced fuel path size ops w :
  wf_world w -> alignable size ->
  Forall (fun op => is_u64 (zlen (op_data op)) /\
            enough fuel (aligned_size size BC_IO_STREAM_SOURCE_FILE + zlen (op_data op)) w)
    (Flush :: ops) ->
  wp (write_session fuel path size ops)
    (fun r w' => heap w' = heap w /\ (forall x, held w' x = held w x) /\
       match r with Some rs => length rs = length ops | None => True end) w.
Proof.
  intros Hwf Hsize Hall. inversion Hall as [|? ? [_ Hfuel] Hops]; subst.
  apply wp_bind. eapply wp_mono; [by apply open_file_life|]. intros [p|] w1; last first.
  { intros [? ?]%evolved_balanced. by apply wp_ret. }
  intros (s & Hp & _ & Hfresh & Hmode & Hsrc & _ & _ & Esz & _ & He).
  apply wp_bind. eapply wp_load_stream; [rewrite (evolved_heap _ _ _ _ He); by simplify_map_eq|].
  apply wp_bind. eapply wp_mono; [apply run_write_ops_spec; [apply Hfresh|done|]|].
  { eapply Forall_impl; [done|]. intros op [? Hf]. split; [done|].
    rewrite Esz. apply evolved_patience in He. unfold enough in *. lia. }
  intros [rs s'] w2 (Hwf' & Hset & Hlen & (out & [Hq _ _] & _) & _).
  apply (finish_session fuel p s s' (mret (Some rs)) _ w w1 w2); try done.
  - rewrite Esz. simpl in Hfuel. by rewrite zlen_nil, Z.add_0_r in Hfuel.
  - intros w' [Hh Hd]%evolved_balanced. by apply wp_ret.
Qed.

(** A stream on a descriptor of the client's never closes it: reading the
    descriptor to the end through a stream and closing the stream leaves the heap
    and the ledger of descriptors, blocks and arenas as they were, also when the
    stream cannot be allocated. *)
Theorem read_session_balanced calls fuel fd source size w :
  wf_world w -> alignable size -> source <> BC_IO_STREAM_SOURCE_MEMORY ->
  enough fuel (aligned_size size source) w ->
  wp (read_session calls fuel fd source size)
    (fun _ w' => heap w' = heap w /\ forall x, held w' x = held w x) w.
Proof.
  intros Hwf Hsize Hsource Hfuel. apply wp_bind.
  eapply wp_mono; [by apply open_descriptor_spec|]. intros [p|] w1; last first.
  { intros [? ?]%evolved_balanced. by apply wp_ret. }
  intros (s & Hp & _ & Hfresh & Hmode & Hsrc & _ & _ & Esz & _ & He).
  apply wp_bind. eapply wp_load_stream; [rewrite (evolved_heap _ _ _ _ He); by simplify_map_eq|].
  apply wp_bind. eapply wp_mono; [apply drain_file_spec; [apply Hfresh|by rewrite Hsrc|done|]|].
  { rewrite Esz. apply evolved_patience in He. unfold enough in *. lia. }
  intros [[chunks s'] stopped] w2 (lost & [Hq _ _] & Hwf' & Hset & _).
  apply (finish_session fuel p s s' (mret (Some (delivered chunks))) _ w w1 w2); try done.
  - by rewrite Esz.
  - intros w' ?%evolved_balanced. by apply wp_ret.
Qed.

(** C36. Opening a stream, by path or on a descriptor, whatever fails in it.
    Either nothing is left behind, or there is a new stream as [opened_with]
    says: its buffer has the least multiple of 64 bytes that is not below the
    size asked for (the default of the source when that is 0), with no wrap for
    sizes up to 2^64 - 64, and it is empty, at position 0.  The process then
    holds the stream's block, the arena of its buffer and, when it was opened by
    path, its descriptor. *)
Theorem opened_buffer_aligned path fd source m size w :
  wf_world w -> alignable size -> source <> BC_IO_STREAM_SOURCE_MEMORY ->
  wp (bc_io_stream_open_file path m size)
    (opened w (fun p s => opened_with size BC_IO_STREAM_SOURCE_FILE m s /\ 0 <= file_descriptor s)
       (fun p s => [RFd (file_descriptor s); RPool p; RArena (buffer_arena s)])) w /\
  wp (bc_io_stream_open_file_descriptor fd source m size)
    (opened w (fun p s => opened_with size source m s /\ file_descriptor s = fd)
       (fun p s => [RPool p; RArena (buffer_arena s)])) w.
Proof.
  intros Hwf Hsize Hsource. split.
  - eapply wp_mono; [by apply open_file_life|]. intros [p|] w'; [|by intros [? ?]%evolved_balanced].
    intros (s & Hp & _ & Hfresh & Hmode & Hsrc & Hfd & Hown & Esz & Harena & He).
    exists s. split_and!; [done|by rewrite (evolved_heap _ _ _ _ He)|by apply fresh_opened|done|].
    intros x. rewrite (evolved_held _ _ _ _ He). unfold stream_resources.
    rewrite Hown, decide_True by done. simpl. lia.
  - eapply wp_mono; [by apply open_descriptor_spec|]. intros [p|] w'; [|by intros [? ?]%evolved_balanced].
    intros (s & Hp & _ & Hfresh & Hmode & Hsrc & Hfd & Hown & Esz & Harena & He).
    exists s. split_and!; [done|by rewrite (evolved_heap _ _ _ _ He)|by apply fresh_opened|done|].
    intros x. rewrite (evolved_held _ _ _ _ He). unfold stream_resources.
    rewrite Hown, decide_True by done. simpl. lia.
Qed.
End stream_life.

(** ** Witnesses *)

(** The second write of the session fails. *)
Definition failing_write : script := mk_script [] [] [SysOk 1; SysErr EINTR; SysErr 5] [] [] [] [].

Example write_session_run :
  safe (write_session 500 [97] 64 [WriteChunk [1; 2; 3]; Flush; WriteChunk [4]]
          (scripted_world failing_write))
    (fun '(r, w) => r = Some [(3, true); (0, false); (1, true)] /\ sent 3 (trace w) = [1; 2; 3; 4]).
Proof. vm_compute. by split_and!. Qed.

Lemma write_session_balanced_witness :
  wp (write_session 500 [97] 64 [WriteChunk [1; 2; 3]; Flush; WriteChunk [4]])
    (fun r w' => heap w' = ∅ /\ (forall x, held w' x = 0) /\
       match r with Some rs => length rs = 3%nat | None => True end)
    (scripted_world failing_write).
Proof.
  apply (write_session_balanced 500 [97] 64 [WriteChunk [1; 2; 3]; Flush; WriteChunk [4]]
           (scripted_world failing_write));
    [apply scripted_world_wf|concrete|].
  concrete_Forall.
Defined.

Lemma read_session_balanced_witness :
  wp (read_session 5 500 7 BC_IO_STREAM_SOURCE_PIPE 64)
    (fun _ w' => heap w' = ∅ /\ forall x, held w' x = 0)
    (scripted_world halting_reads).
Proof.
  apply (read_session_balanced 5 500 7 BC_IO_STREAM_SOURCE_PIPE 64 (scripted_world halting_reads));
    [apply scripted_world_wf|concrete|done|concrete].
Defined.

Lemma opened_buffer_aligned_witness :
  wp (bc_io_stream_open_file [97] BC_IO_STREAM_MODE_WRITE 100)
    (opened (scripted_world failing_write)
       (fun p s => opened_with 100 BC_IO_STREAM_SOURCE_FILE BC_IO_STREAM_MODE_WRITE s /\ 0 <= file_descriptor s)
       (fun p s => [RFd (file_descriptor s); RPool p; RArena (buffer_arena s)])) (scripted_world failing_write) /\
  wp (bc_io_stream_open_file_descriptor 7 BC_IO_STREAM_SOURCE_PIPE BC_IO_STREAM_MODE_WRITE 100)
    (opened (scripted_world failing_write)
       (fun p s => opened_with 100 BC_IO_STREAM_SOURCE_PIPE BC_IO_STREAM_MODE_WRITE s /\ file_descriptor s = 7)
       (fun p s => [RPool p; RArena (buffer_arena s)])) (scripted_world failing_write).
Proof.
  apply (opened_buffer_aligned [97] 7 BC_IO_STREAM_SOURCE_PIPE BC_IO_STREAM_MODE_WRITE 100);
    [apply scripted_world_wf|concrete|done].
Defined.

(** A size that cannot be aligned. *)
Example unalignable_size_run :
  bc_io_stream_open_file_descriptor 7 BC_IO_STREAM_SOURCE_PIPE BC_IO_STREAM_MODE_READ
    18446744073709551615 (scripted_world quiet_script) = Undefined.
Proof. reflexivity. Qed.

Example opened_buffer_run :
  safe (bc_io_stream_open_file_descriptor 7 BC_IO_STREAM_SOURCE_PIPE BC_IO_STREAM_MODE_READ 100
          (scripted_world quiet_script))
    (fun '(r, w) => (r ≫= fun p => heap w !! p) ≫= (fun o => match o with OStream s => Some (buffer_size s) | _ => None end)
       = Some 128).
Proof. by vm_compute. Qed.
