(* ===== verification/Perm.v ===== *)
(** * Modes as text, names of users and groups ([src/perm/bc_io_perm.c])

    A [char] is a [Z]; buffers are blocks beside their capacity, and an access
    outside a block is undefined.  The four reentrant lookups of the user and
    group databases are the parameters of class [NameService]. *)

From S2P Require Import Prelude Platform.

(** ** Formatting *)

(** [mode & mask] as a C condition. *)
Definition has (mode mask : Z) : bool := bool_decide (Z.land mode mask <> 0).

Definition bc_io_perm_file_type_char (mode : Z) : Z :=
  if S_ISREG mode then ch "-"
  else if S_ISDIR mode then ch "d"
  else if S_ISLNK mode then ch "l"
  else if S_ISCHR mode then ch "c"
  else if S_ISBLK mode then ch "b"
  else if S_ISFIFO mode then ch "p"
  else if S_ISSOCK mode then ch "s"
  else ch "?".

(** [Some *out_length] on success; the second component is the output block. *)
Definition bc_io_perm_format_mode_human (mode : Z) (output : list Z) (capacity : Z)
    : res (option Z * list Z) :=
  if decide (capacity < 10) then Done (None, output)
  else
    output ← poke output 0 (bc_io_perm_file_type_char mode);
    output ← poke output 1 (if has mode S_IRUSR then ch "r" else ch "-");
    output ← poke output 2 (if has mode S_IWUSR then ch "w" else ch "-");
    output ← (if has mode S_ISUID then poke output 3 (if has mode S_IXUSR then ch "s" else ch "S")
              else poke output 3 (if has mode S_IXUSR then ch "x" else ch "-"));
    output ← poke output 4 (if has mode S_IRGRP then ch "r" else ch "-");
    output ← poke output 5 (if has mode S_IWGRP then ch "w" else ch "-");
    output ← (if has mode S_ISGID then poke output 6 (if has mode S_IXGRP then ch "s" else ch "S")
              else poke output 6 (if has mode S_IXGRP then ch "x" else ch "-"));
    output ← poke output 7 (if has mode S_IROTH then ch "r" else ch "-");
    output ← poke output 8 (if has mode S_IWOTH then ch "w" else ch "-");
    output ← (if has mode S_ISVTX then poke output 9 (if has mode S_IXOTH then ch "t" else ch "T")
              else poke output 9 (if has mode S_IXOTH then ch "x" else ch "-"));
    Done (Some 10, output).

Definition bc_io_perm_format_mode_octal (mode : Z) (output : list Z) (capacity : Z)
    : res (option Z * list Z) :=
  if decide (capacity < 4) then Done (None, output)
  else
    let special := Z.shiftr (Z.land mode (Z.lor (Z.lor S_ISUID S_ISGID) S_ISVTX)) 9 in
    output ← poke output 0 (ch "0" + Z.land special 7);
    output ← poke output 1 (ch "0" + Z.land (Z.shiftr mode 6) 7);
    output ← poke output 2 (ch "0" + Z.land (Z.shiftr mode 3) 7);
    output ← poke output 3 (ch "0" + Z.land mode 7);
    Done (Some 4, output).

(** ** Parsing *)

(** The triple starts at [base]; the result and [*accumulated]. *)
Definition bc_io_perm_parse_rwx_triple (input : list Z) (base : Z)
    (read_bit write_bit exec_bit special_bit special_with_exec special_no_exec accumulated : Z)
    : res (bool * Z) :=
  c0 ← peek input base;
  if decide (c0 <> ch "r" /\ c0 <> ch "-") then Done (false, accumulated)
  else
    c1 ← peek input (base + 1);
    if decide (c1 <> ch "w" /\ c1 <> ch "-") then Done (false, accumulated)
    else
      let accumulated := if decide (c0 = ch "r") then Z.lor accumulated read_bit else accumulated in
      let accumulated := if decide (c1 = ch "w") then Z.lor accumulated write_bit else accumulated in
      execute_char ← peek input (base + 2);
      if decide (execute_char = ch "x") then Done (true, Z.lor accumulated exec_bit)
      else if decide (execute_char = ch "-") then Done (true, accumulated)
      else if decide (execute_char = special_with_exec) then
        Done (true, Z.lor (Z.lor accumulated exec_bit) special_bit)
      else if decide (execute_char = special_no_exec) then
        Done (true, Z.lor accumulated special_bit)
      else Done (false, accumulated).

(** [Some *out_mode] on success. *)
Definition bc_io_perm_parse_mode_human (input : list Z) (length : Z) : res (option Z) :=
  if decide (length <> 10 /\ length <> 9) then Done None
  else
    accepted ← (if decide (length = 10) then
                  type_char ← peek input 0;
                  Done (bool_decide (type_char ∈ [ch "-"; ch "d"; ch "l"; ch "c"; ch "b";
                                                  ch "p"; ch "s"; ch "?"]))
                else Done true);
    if negb accepted then Done None
    else
      let base := if decide (length = 10) then 1 else 0 in
      '(ok, mode) ← bc_io_perm_parse_rwx_triple input base
                      S_IRUSR S_IWUSR S_IXUSR S_ISUID (ch "s") (ch "S") 0;
      if negb ok then Done None
      else
        '(ok, mode) ← bc_io_perm_parse_rwx_triple input (base + 3)
                        S_IRGRP S_IWGRP S_IXGRP S_ISGID (ch "s") (ch "S") mode;
        if negb ok then Done None
        else
          '(ok, mode) ← bc_io_perm_parse_rwx_triple input (base + 6)
                          S_IROTH S_IWOTH S_IXOTH S_ISVTX (ch "t") (ch "T") mode;
          if negb ok then Done None else Done (Some mode).

(** The digits from [index] on; [todo] of them are left. *)
Fixpoint parse_octal_loop (todo : nat) (input : list Z) (index result : Z) : res (option Z) :=
  match todo with
  | O => Done (Some result)
  | S todo =>
      c ← peek input index;
      if decide (c < ch "0" \/ ch "7" < c) then Done None
      else parse_octal_loop todo input (index + 1)
             (Z.lor (wrap32 (Z.shiftl result 3)) (wrap32 (c - ch "0")))
  end.

Definition bc_io_perm_parse_mode_octal (input : list Z) (length : Z) : res (option Z) :=
  if decide (length = 0 \/ 4 < length) then Done None
  else
    result ← parse_octal_loop (Z.to_nat length) input 0 0;
    match result with
    | None => Done None
    | Some result =>
        if decide (length = 4) then
          let special := Z.land (Z.shiftr result 9) 7 in
          let mode := Z.land result 511 in
          let mode := if has special 4 then Z.lor mode S_ISUID else mode in
          let mode := if has special 2 then Z.lor mode S_ISGID else mode in
          let mode := if has special 1 then Z.lor mode S_ISVTX else mode in
          Done (Some mode)
        else Done (Some result)
    end.

(** ** Strings *)

(** [while (source[length] != 0) length += 1] *)
Fixpoint string_length_loop (fuel : nat) (source : list Z) (length : Z) : res Z :=
  match fuel with
  | O => OutOfFuel
  | S fuel =>
      c ← peek source length;
      if decide (c = 0) then Done length else string_length_loop fuel source (length +u 1)
  end.

(** [for (; index < length; index++) output[index] = source[index]] *)
Fixpoint copy_loop (fuel : nat) (source output : list Z) (index length : Z) : res (list Z) :=
  if decide (index < length) then
    match fuel with
    | O => OutOfFuel
    | S fuel =>
        c ← peek source index;
        output ← poke output index c;
        copy_loop fuel source output (index +u 1) length
    end
  else Done output.

Definition bc_io_perm_copy_string (fuel : nat) (source output : list Z) (capacity : Z)
    : res (option Z * list Z) :=
  length ← string_length_loop fuel source 0;
  if decide (capacity < length) then Done (None, output)
  else
    output ← copy_loop fuel source output 0 length;
    Done (Some length, output).

Definition bc_io_perm_copy_to_zero_terminated (fuel : nat) (source : list Z) (length : Z)
    (output : list Z) (capacity : Z) : res (bool * list Z) :=
  if decide (capacity < length +u 1) then Done (false, output)
  else
    output ← copy_loop fuel source output 0 length;
    output ← poke output length 0;
    Done (true, output).

(** ** Users and groups *)

(** [getpwuid_r], [getgrgid_r]: the return value, and the name of the entry found
    (a block with its terminator); [getpwnam_r], [getgrnam_r]: the return value,
    and the id of the entry found. *)
Class NameService := {
  getpwuid_r : Z -> Z * option (list Z);
  getgrgid_r : Z -> Z * option (list Z);
  getpwnam_r : list Z -> Z * option Z;
  getgrnam_r : list Z -> Z * option Z;
}.

(** An entry found has its name in the 1024-byte buffer of the call, terminated. *)
Definition name_ok (name : list Z) : Prop := 0 ∈ name /\ zlen name <= 1024.

Class NameServiceLaws (NS : NameService) : Prop := {
  pw_name_terminated id name : getpwuid_r id = (0, Some name) -> name_ok name;
  gr_name_terminated id name : getgrgid_r id = (0, Some name) -> name_ok name;
}.

Section names.
Context {NS : NameService}.

Definition bc_io_perm_resolve_user_name (fuel : nat) (user_id : Z) (output : list Z)
    (capacity : Z) : res (option Z * list Z) :=
  let '(r, result) := getpwuid_r user_id in
  if decide (r <> 0) then Done (None, output)
  else match result with
       | None => Done (None, output)
       | Some pw_name => bc_io_perm_copy_string fuel pw_name output capacity
       end.

Definition bc_io_perm_resolve_group_name (fuel : nat) (group_id : Z) (output : list Z)
    (capacity : Z) : res (option Z * list Z) :=
  let '(r, result) := getgrgid_r group_id in
  if decide (r <> 0) then Done (None, output)
  else match result with
       | None => Done (None, output)
       | Some gr_name => bc_io_perm_copy_string fuel gr_name output capacity
       end.

(** [zero_terminated] is what the 256-byte array on the stack holds before. *)
Definition bc_io_perm_resolve_user_id (fuel : nat) (zero_terminated name : list Z) (length : Z)
    : res (option Z) :=
  '(ok, zero_terminated) ← bc_io_perm_copy_to_zero_terminated fuel name length zero_terminated 256;
  if negb ok then Done None
  else
    let '(r, result) := getpwnam_r (c_string zero_terminated) in
    if decide (r <> 0) then Done None
    else match result with
         | None => Done None
         | Some pw_uid => Done (Some (wrap32 pw_uid))
         end.

Definition bc_io_perm_resolve_group_id (fuel : nat) (zero_terminated name : list Z) (length : Z)
    : res (option Z) :=
  '(ok, zero_terminated) ← bc_io_perm_copy_to_zero_terminated fuel name length zero_terminated 256;
  if negb ok then Done None
  else
    let '(r, result) := getgrnam_r (c_string zero_terminated) in
    if decide (r <> 0) then Done None
    else match result with
         | None => Done None
         | Some gr_gid => Done (Some (wrap32 gr_gid))
         end.
End names.

(** ** The text of a mode *)

(** Three characters of the human form. *)
Definition triple (r w x special : bool) (special_with_exec special_no_exec : Z) : list Z :=
  [if r then ch "r" else ch "-"; if w then ch "w" else ch "-";
   if special then (if x then special_with_exec else special_no_exec)
   else (if x then ch "x" else ch "-")].

(** The nine permission characters of a mode. *)
Definition permission_chars (mode : Z) : list Z :=
  triple (has mode S_IRUSR) (has mode S_IWUSR) (has mode S_IXUSR) (has mode S_ISUID) (ch "s") (ch "S") ++
  triple (has mode S_IRGRP) (has mode S_IWGRP) (has mode S_IXGRP) (has mode S_ISGID) (ch "s") (ch "S") ++
  triple (has mode S_IROTH) (has mode S_IWOTH) (has mode S_IXOTH) (has mode S_ISVTX) (ch "t") (ch "T").

Definition type_chars : list Z :=
  [ch "-"; ch "d"; ch "l"; ch "c"; ch "b"; ch "p"; ch "s"; ch "?"].

(** The number an octal numeral denotes. *)
Definition octal_digit (c : Z) : Prop := ch "0" <= c <= ch "7".
#[export] Instance octal_digit_dec c : Decision (octal_digit c).
Proof. unfold octal_digit. apply _. Defined.
Definition octal_value (digits : list Z) : Z :=
  foldl (fun acc c => 8 * acc + (c - ch "0")) 0 digits.

(** ** Lemmas *)

(** A boolean property of the modes below 4096, checked on each of them. *)
Lemma below_4096 (P : Z -> bool) :
  forallb P (Z.of_nat <$> seq 0 4096) = true -> forall x, 0 <= x < 4096 -> P x = true.
Proof.
  intros H x Hx. rewrite forallb_forall in H. apply H.
  apply list_elem_of_In, list_elem_of_fmap. exists (Z.to_nat x).
  split; [lia|]. apply elem_of_seq. lia.
Qed.

Lemma land_4095_range mode : 0 <= Z.land mode 4095 < 4096.
Proof. change 4095 with (Z.ones 12). rewrite Z.land_ones by lia. by apply Z.mod_pos_bound. Qed.

(** The permission bits are the low twelve. *)
Lemma has_low mode mask : Z.land 4095 mask = mask -> has (Z.land mode 4095) mask = has mode mask.
Proof. intros H. unfold has. by rewrite <- Z.land_assoc, H. Qed.

Lemma permission_chars_low mode : permission_chars (Z.land mode 4095) = permission_chars mode.
Proof. unfold permission_chars. by rewrite !has_low. Qed.

Definition or_if (b : bool) (mask acc : Z) : Z := if b then Z.lor acc mask else acc.

(** What the parser accumulates from three triples. *)
Definition triple_mode (r w x special : bool) (rb wb xb sb acc : Z) : Z :=
  or_if special sb (or_if x xb (or_if w wb (or_if r rb acc))).

Definition rebuilt (mode : Z) : Z :=
  triple_mode (has mode S_IROTH) (has mode S_IWOTH) (has mode S_IXOTH) (has mode S_ISVTX)
    S_IROTH S_IWOTH S_IXOTH S_ISVTX
  (triple_mode (has mode S_IRGRP) (has mode S_IWGRP) (has mode S_IXGRP) (has mode S_ISGID)
    S_IRGRP S_IWGRP S_IXGRP S_ISGID
  (triple_mode (has mode S_IRUSR) (has mode S_IWUSR) (has mode S_IXUSR) (has mode S_ISUID)
    S_IRUSR S_IWUSR S_IXUSR S_ISUID 0)).

Lemma rebuilt_low mode : rebuilt mode = Z.land mode 4095.
Proof.
  transitivity (rebuilt (Z.land mode 4095)); [by unfold rebuilt; rewrite !has_low|].
  apply Z.eqb_eq, (below_4096 (fun x => rebuilt x =? x)); [by vm_compute|].
  apply land_4095_range.
Qed.

(** Both values of a boolean. *)
Definition both (f : bool -> bool) : bool := f true && f false.

Lemma both_spec (f : bool -> bool) b : both f = true -> f b = true.
Proof. unfold both. destruct b, (f true), (f false); naive_solver. Qed.

Definition spelled (r1 w1 x1 s1 r2 w2 x2 s2 r3 w3 x3 s3 : bool) : Z :=
  triple_mode r3 w3 x3 s3 S_IROTH S_IWOTH S_IXOTH S_ISVTX
    (triple_mode r2 w2 x2 s2 S_IRGRP S_IWGRP S_IXGRP S_ISGID
      (triple_mode r1 w1 x1 s1 S_IRUSR S_IWUSR S_IXUSR S_ISUID 0)).

(** Every choice of the twelve booleans is the mode it spells. *)
Lemma spelled_mode r1 w1 x1 s1 r2 w2 x2 s2 r3 w3 x3 s3 :
  0 <= spelled r1 w1 x1 s1 r2 w2 x2 s2 r3 w3 x3 s3 < 4096 /\
  permission_chars (spelled r1 w1 x1 s1 r2 w2 x2 s2 r3 w3 x3 s3) =
    triple r1 w1 x1 s1 (ch "s") (ch "S") ++ triple r2 w2 x2 s2 (ch "s") (ch "S") ++
    triple r3 w3 x3 s3 (ch "t") (ch "T").
Proof.
  assert (H : both (fun r1 => both (fun w1 => both (fun x1 => both (fun s1 =>
      both (fun r2 => both (fun w2 => both (fun x2 => both (fun s2 =>
      both (fun r3 => both (fun w3 => both (fun x3 => both (fun s3 =>
        let m := spelled r1 w1 x1 s1 r2 w2 x2 s2 r3 w3 x3 s3 in
        bool_decide (0 <= m < 4096 /\ permission_chars m =
          triple r1 w1 x1 s1 (ch "s") (ch "S") ++ triple r2 w2 x2 s2 (ch "s") (ch "S") ++
          triple r3 w3 x3 s3 (ch "t") (ch "T"))))))))))))))  = true) by by vm_compute.
  apply (both_spec _ r1), (both_spec _ w1), (both_spec _ x1), (both_spec _ s1),
    (both_spec _ r2), (both_spec _ w2), (both_spec _ x2), (both_spec _ s2),
    (both_spec _ r3), (both_spec _ w3), (both_spec _ x3), (both_spec _ s3) in H.
  exact (bool_decide_eq_true_1 _ H).
Qed.

(** The cells read by one triple. *)
Lemma three_cells (input : list Z) base :
  0 <= base -> base + 3 <= zlen input ->
  exists c0 c1 c2, ztake 3 (zdrop base input) = [c0; c1; c2] /\
    peek input base = Done c0 /\ peek input (base + 1) = Done c1 /\
    peek input (base + 2) = Done c2.
Proof.
  intros H0 Hlen.
  destruct (peek_in_range input base) as [c0 H1]; [lia|].
  destruct (peek_in_range input (base + 1)) as [c1 H2]; [lia|].
  destruct (peek_in_range input (base + 2)) as [c2 H3]; [lia|].
  exists c0, c1, c2. split_and!; [|done..].
  apply peek_Done in H1 as [_ H1], H2 as [_ H2], H3 as [_ H3].
  unfold ztake, zdrop. apply list_eq. intros i.
  rewrite lookup_take, lookup_drop. change (Z.to_nat 3) with 3%nat.
  destruct i as [|[|[|i]]]; simpl.
  - by rewrite Nat.add_0_r.
  - by replace (Z.to_nat base + 1)%nat with (Z.to_nat (base + 1)) by lia.
  - by replace (Z.to_nat base + 2)%nat with (Z.to_nat (base + 2)) by lia.
  - done.
Qed.

(** A triple is accepted exactly when it spells four booleans, and accumulates
    their bits. *)
Lemma parse_triple_spec input base rb wb xb sb se sn acc :
  0 <= base -> base + 3 <= zlen input -> NoDup [ch "x"; ch "-"; se; sn] ->
  safe (bc_io_perm_parse_rwx_triple input base rb wb xb sb se sn acc)
    (fun '(ok, acc') =>
       if ok then exists r w x s, ztake 3 (zdrop base input) = triple r w x s se sn /\
                    acc' = triple_mode r w x s rb wb xb sb acc
       else forall r w x s, ztake 3 (zdrop base input) <> triple r w x s se sn).
Proof.
  intros H0 Hlen Hdup. destruct (three_cells input base H0 Hlen) as (c0 & c1 & c2 & -> & E0 & E1 & E2).
  unfold bc_io_perm_parse_rwx_triple. rewrite E0. simpl. case_decide as Hc0.
  { simpl. intros r w x s [= -> -> _]. destruct r; tauto. }
  rewrite E1. simpl. case_decide as Hc1.
  { simpl. intros r' w x s [= _ -> _]. destruct w; tauto. }
  rewrite E2. simpl.
  assert (exists r : bool, c0 = if r then ch "r" else ch "-") as [r ->].
  { destruct (decide (c0 = ch "r")), (decide (c0 = ch "-"));
      [exists true|exists true|exists false|]; tauto. }
  assert (exists w : bool, c1 = if w then ch "w" else ch "-") as [w ->].
  { destruct (decide (c1 = ch "w")), (decide (c1 = ch "-"));
      [exists true|exists true|exists false|]; tauto. }
  replace (if decide ((if r then ch "r" else ch "-") = ch "r") then Z.lor acc rb else acc)
    with (or_if r rb acc) by (by destruct r).
  replace (if decide ((if w then ch "w" else ch "-") = ch "w") then _ else _)
    with (or_if w wb (or_if r rb acc)) by (by destruct w).
  rewrite !NoDup_cons, !not_elem_of_cons in Hdup.
  destruct Hdup as ((? & ? & ? & _) & (? & ? & _) & (? & _) & _).
  case_decide; [subst; by exists r, w, true, false|].
  case_decide; [subst; by exists r, w, false, false|].
  case_decide; [subst; by exists r, w, true, true|].
  case_decide; [subst; by exists r, w, false, true|].
  simpl. intros r' w' x s [= _ _ E]. by destruct x, s.
Qed.

(** [human_form input length mode]: the first [length] characters are the human
    form of [mode], with or without a leading type character. *)
Definition human_form (input : list Z) (length mode : Z) : Prop :=
  (length = 9 \/ length = 10 /\ exists t, t ∈ type_chars /\ peek input 0 = Done t) /\
  0 <= mode < 4096 /\ ztake 9 (zdrop (length - 9) input) = permission_chars mode.

Lemma nine_cells (input : list Z) base :
  0 <= base ->
  ztake 9 (zdrop base input) =
    ztake 3 (zdrop base input) ++ ztake 3 (zdrop (base + 3) input) ++
    ztake 3 (zdrop (base + 6) input).
Proof.
  intros. change 9 with (3 + (3 + 3)). rewrite !ztake_add, !zdrop_zdrop by lia.
  do 4 f_equal. lia.
Qed.

Lemma permission_chars_split input base mode :
  0 <= base -> base + 9 <= zlen input ->
  ztake 9 (zdrop base input) = permission_chars mode ->
  ztake 3 (zdrop base input) = triple (has mode S_IRUSR) (has mode S_IWUSR) (has mode S_IXUSR)
    (has mode S_ISUID) (ch "s") (ch "S") /\
  ztake 3 (zdrop (base + 3) input) = triple (has mode S_IRGRP) (has mode S_IWGRP)
    (has mode S_IXGRP) (has mode S_ISGID) (ch "s") (ch "S") /\
  ztake 3 (zdrop (base + 6) input) = triple (has mode S_IROTH) (has mode S_IWOTH)
    (has mode S_IXOTH) (has mode S_ISVTX) (ch "t") (ch "T").
Proof.
  intros H0 Hlen. rewrite nine_cells by done.
  destruct (three_cells input base) as (?&?&? & -> & _); [lia..|].
  destruct (three_cells input (base + 3)) as (?&?&? & -> & _); [lia..|].
  destruct (three_cells input (base + 6)) as (?&?&? & -> & _); [lia..|].
  unfold permission_chars, triple. simpl. intros H. by simplify_eq.
Qed.

Lemma parse_mode_human_spec input length :
  length <= zlen input ->
  safe (bc_io_perm_parse_mode_human input length)
    (fun r => match r with
              | Some m => human_form input length m
              | None => forall m, ~ human_form input length m
              end).
Proof.
  intros Hlen. unfold bc_io_perm_parse_mode_human, human_form.
  case_decide as Hl; [simpl; naive_solver lia|].
  set (base := if decide (length = 10) then 1 else 0).
  assert (Hb : base = length - 9 /\ 0 <= base) by (subst base; case_decide; lia).
  assert (Hs : NoDup [ch "x"; ch "-"; ch "s"; ch "S"] /\ NoDup [ch "x"; ch "-"; ch "t"; ch "T"])
    by (split; refine (bool_decide_unpack _ _); by vm_compute).
  eapply safe_bind, (safe_mono _ (fun ok : bool => if ok then length = 9 \/ length = 10 /\
    exists t, t ∈ type_chars /\ peek input 0 = Done t
    else length = 10 /\ forall t, peek input 0 = Done t -> t ∉ type_chars)).
  { case_decide; [|simpl; left; lia].
    destruct (peek_in_range input 0) as [t Ht]; [lia|]. rewrite Ht. simpl.
    case_bool_decide as Hin; [right; eauto|]. split; [done|]. by intros ? [= <-]. }
  intros [] Hok; simpl; [|naive_solver lia].
  destruct Hb as [Hb Hb0]. rewrite <- Hb.
  eapply safe_bind, safe_mono; [apply parse_triple_spec; [done|lia|apply Hs]|].
  intros [[] m1] H1; simpl; [destruct H1 as (r1 & w1 & x1 & s1 & E1 & ->)|].
  2: { intros m (_ & _ & E). apply permission_chars_split in E as (E & _); [|lia..].
       by apply H1 in E. }
  eapply safe_bind, safe_mono; [apply parse_triple_spec; [lia|lia|apply Hs]|].
  intros [[] m2] H2; simpl; [destruct H2 as (r2 & w2 & x2 & s2 & E2 & ->)|].
  2: { intros m (_ & _ & E). apply permission_chars_split in E as (_ & E & _); [|lia..].
       by apply H2 in E. }
  eapply safe_bind, safe_mono; [apply parse_triple_spec; [lia|lia|apply Hs]|].
  intros [[] m3] H3; simpl; [destruct H3 as (r3 & w3 & x3 & s3 & E3 & ->)|].
  2: { intros m (_ & _ & E). apply permission_chars_split in E as (_ & _ & E); [|lia..].
       by apply H3 in E. }
  destruct (spelled_mode r1 w1 x1 s1 r2 w2 x2 s2 r3 w3 x3 s3) as [Hr Hp].
  split_and!; [done|apply Hr..|]. rewrite nine_cells, E1, E2, E3 by done. symmetry. apply Hp.
Qed.

(** The human form written into a block of at least ten cells. *)
Lemma format_mode_human_spec mode output capacity :
  10 <= capacity <= zlen output ->
  bc_io_perm_format_mode_human mode output capacity =
    Done (Some 10, bc_io_perm_file_type_char mode :: permission_chars mode ++ zdrop 10 output).
Proof.
  intros H. unfold bc_io_perm_format_mode_human. rewrite decide_False by lia.
  assert (exists a0 a1 a2 a3 a4 a5 a6 a7 a8 a9 rest,
    output = a0 :: a1 :: a2 :: a3 :: a4 :: a5 :: a6 :: a7 :: a8 :: a9 :: rest)
    as (a0&a1&a2&a3&a4&a5&a6&a7&a8&a9&rest&->).
  { do 10 (destruct output as [|? output]; [unfold zlen in H; simpl in H; lia|]). by repeat eexists. }
  unfold permission_chars, triple.
  destruct (has mode S_ISUID), (has mode S_ISGID), (has mode S_ISVTX);
    repeat (rewrite poke_in_range by block_lia; simpl); done.
Qed.

Lemma triple_inj r w x s r' w' x' s' se sn :
  NoDup [ch "x"; ch "-"; se; sn] -> triple r w x s se sn = triple r' w' x' s' se sn ->
  r = r' /\ w = w' /\ x = x' /\ s = s'.
Proof.
  rewrite !NoDup_cons, !not_elem_of_cons.
  intros ((? & ? & ? & _) & (? & ? & _) & (? & _) & _). unfold triple. intros [= E1 E2 E3].
  split_and!; [by destruct r, r'|by destruct w, w'|destruct x, x', s, s'; congruence..].
Qed.

Lemma permission_chars_inj m m' :
  permission_chars m = permission_chars m' -> Z.land m 4095 = Z.land m' 4095.
Proof.
  intros E. rewrite <- !rebuilt_low. unfold rebuilt.
  apply (permission_chars_split (permission_chars m) 0) in E as (E1 & E2 & E3); [|done..].
  apply triple_inj in E1 as (-> & -> & -> & ->); [|refine (bool_decide_unpack _ _); by vm_compute].
  apply triple_inj in E2 as (-> & -> & -> & ->); [|refine (bool_decide_unpack _ _); by vm_compute].
  apply triple_inj in E3 as (-> & -> & -> & ->); [|refine (bool_decide_unpack _ _); by vm_compute].
  done.
Qed.

(** A mode has one human form, and a human form one mode. *)
Lemma human_form_unique input length m m' :
  human_form input length m -> human_form input length m' -> m = m'.
Proof.
  intros (_ & Hm & E) (_ & Hm' & E'). rewrite E in E'. apply permission_chars_inj in E'.
  change 4095 with (Z.ones 12) in E'. rewrite !Z.land_ones, !Z.mod_small in E' by lia. done.
Qed.

Lemma file_type_char_listed mode : bc_io_perm_file_type_char mode ∈ type_chars.
Proof.
  unfold bc_io_perm_file_type_char, type_chars.
  repeat case_match; refine (bool_decide_unpack _ _); by vm_compute.
Qed.

(** ** Octal numerals *)

Definition octal_chars (mode : Z) : list Z :=
  [ch "0" + Z.land (Z.shiftr (Z.land mode (Z.lor (Z.lor S_ISUID S_ISGID) S_ISVTX)) 9) 7;
   ch "0" + Z.land (Z.shiftr mode 6) 7;
   ch "0" + Z.land (Z.shiftr mode 3) 7;
   ch "0" + Z.land mode 7].

Lemma format_mode_octal_spec mode output capacity :
  4 <= capacity <= zlen output ->
  bc_io_perm_format_mode_octal mode output capacity =
    Done (Some 4, octal_chars mode ++ zdrop 4 output).
Proof.
  intros H. unfold bc_io_perm_format_mode_octal. rewrite decide_False by lia.
  do 4 (destruct output as [|? output]; [unfold zlen in H; simpl in H; lia|]).
  by repeat (rewrite poke_in_range by (unfold zlen; simpl; lia); simpl).
Qed.

Lemma octal_chars_low mode : octal_chars (Z.land mode 4095) = octal_chars mode.
Proof.
  unfold octal_chars. rewrite !Z.shiftr_land, <- !Z.land_assoc. done.
Qed.

Lemma octal_chars_value mode :
  Forall octal_digit (octal_chars mode) /\ octal_value (octal_chars mode) = Z.land mode 4095.
Proof.
  rewrite <- octal_chars_low. pose proof (land_4095_range mode) as H.
  assert (Hall : forall x, 0 <= x < 4096 -> bool_decide (Forall octal_digit (octal_chars x) /\
    octal_value (octal_chars x) = x) = true) by (apply below_4096; by vm_compute).
  exact (bool_decide_eq_true_1 _ (Hall _ H)).
Qed.

Lemma octal_value_app digits c :
  octal_value (digits ++ [c]) = 8 * octal_value digits + (c - ch "0").
Proof. unfold octal_value. by rewrite foldl_app. Qed.

Lemma octal_value_bound digits :
  Forall octal_digit digits -> 0 <= octal_value digits < 8 ^ zlen digits.
Proof.
  induction digits as [|c digits IH] using rev_ind; intros H; [done|].
  apply Forall_app in H as [H Hc]. rewrite Forall_singleton in Hc. specialize (IH H).
  rewrite octal_value_app, zlen_app. unfold octal_digit in Hc. change (ch "0") with 48 in *.
  change (ch "7") with 55 in *.
  change (zlen [c]) with 1. rewrite Z.pow_add_r by block_lia. change (8 ^ 1) with 8. lia.
Qed.

Lemma lor_digit r d : 0 <= r -> 0 <= d < 8 -> Z.lor (Z.shiftl r 3) d = 8 * r + d.
Proof.
  intros Hr Hd. rewrite <- Z.add_nocarry_lor; [rewrite Z.shiftl_mul_pow2 by lia; lia|].
  apply Z.bits_inj_0. intros n. rewrite Z.land_spec.
  destruct (decide (n < 3)); [destruct (decide (0 <= n))|].
  - by rewrite Z.shiftl_spec, (Z.testbit_neg_r r) by lia.
  - by rewrite Z.testbit_neg_r by lia.
  - rewrite (Z.bits_above_log2 d), andb_false_r; [done|lia|].
    destruct (decide (d = 0)) as [->|]; [simpl; lia|]. apply Z.log2_lt_pow2; [lia|].
    apply Z.lt_le_trans with (2 ^ 3); [lia|]. apply Z.pow_le_mono_r; lia.
Qed.

(** The digits read so far are [pre]; the word never overflows. *)
Lemma parse_octal_loop_spec todo input pre rest :
  input = pre ++ rest -> Forall octal_digit pre ->
  Z.of_nat todo <= zlen rest -> zlen pre + Z.of_nat todo <= 4 ->
  parse_octal_loop todo input (zlen pre) (octal_value pre) =
    Done (if decide (Forall octal_digit (take todo rest))
          then Some (octal_value (pre ++ take todo rest)) else None).
Proof.
  revert pre rest. induction todo as [|todo IH]; intros pre rest Hin Hpre Hlen H4; simpl.
  { by rewrite app_nil_r. }
  destruct rest as [|c rest]; [rewrite zlen_nil in Hlen; lia|].
  assert (Hc : peek input (zlen pre) = Done c).
  { apply peek_Done. split; [block_lia|]. rewrite Hin. unfold zlen. rewrite Nat2Z.id.
    by apply list_lookup_middle. }
  rewrite Hc. simpl. unfold octal_digit at 1. case_decide as Hd.
  { rewrite decide_False; [done|]. rewrite Forall_cons. unfold octal_digit. lia. }
  pose proof (octal_value_bound pre Hpre) as Hb. rewrite zlen_cons in Hlen.
  assert (8 ^ zlen pre <= 8 ^ 3) by (apply Z.pow_le_mono_r; block_lia).
  change (ch "0") with 48 in *. change (ch "7") with 55 in *. change (8 ^ 3) with 512 in *.
  assert (Hw : forall z, 0 <= z < u32_modulus -> wrap32 z = z) by (intros; by apply Z.mod_small).
  rewrite !Hw by (rewrite ?Z.shiftl_mul_pow2 by lia; unfold u32_modulus; lia).
  rewrite lor_digit by lia.
  replace (zlen pre + 1) with (zlen (pre ++ [c])) by block_lia.
  rewrite <- octal_value_app. rewrite (IH (pre ++ [c]) rest).
  - rewrite <- app_assoc. simpl. f_equal. repeat case_decide; try done.
    + rewrite Forall_cons in *. unfold octal_digit in *. change (ch "0") with 48 in *.
      change (ch "7") with 55 in *. naive_solver lia.
    + rewrite Forall_cons in *. naive_solver.
  - by rewrite <- app_assoc.
  - apply Forall_app. split; [done|]. apply Forall_singleton. split; [change (ch "0") with 48|change (ch "7") with 55]; lia.
  - lia.
  - rewrite zlen_app. change (zlen [c]) with 1. lia.
Qed.

(** The four-digit numerals rebuild their own value. *)
Lemma octal_special_bits result :
  0 <= result < 4096 ->
  let special := Z.land (Z.shiftr result 9) 7 in
  let mode := Z.land result 511 in
  let mode := if has special 4 then Z.lor mode S_ISUID else mode in
  let mode := if has special 2 then Z.lor mode S_ISGID else mode in
  (if has special 1 then Z.lor mode S_ISVTX else mode) = result.
Proof.
  intros H. cbv zeta. apply Z.eqb_eq. revert result H. apply below_4096. by vm_compute.
Qed.

Lemma parse_mode_octal_spec input length :
  0 <= length <= zlen input ->
  bc_io_perm_parse_mode_octal input length =
    Done (if decide (1 <= length <= 4 /\ Forall octal_digit (ztake length input))
          then Some (octal_value (ztake length input)) else None).
Proof.
  intros Hlen. unfold bc_io_perm_parse_mode_octal.
  case_decide as H0; [by rewrite decide_False by lia|].
  pose proof (parse_octal_loop_spec (Z.to_nat length) input [] input) as E.
  change (octal_value []) with 0 in E. rewrite zlen_nil in E. rewrite E by (done || lia). clear E.
  fold (ztake length input). rewrite app_nil_l.
  destruct (decide (Forall octal_digit (ztake length input))) as [Hd|Hd];
    cbn [mbind res_bind]; [|by rewrite decide_False by tauto].
  rewrite (decide_True (P := _ /\ _)) by (split; [lia|done]).
  case_decide as H4; [|done]. rewrite octal_special_bits; [done|].
  pose proof (octal_value_bound _ Hd) as Hb. rewrite zlen_ztake in Hb.
  replace (Z.min (Z.max 0 length) (zlen input)) with 4 in Hb by lia. exact Hb.
Qed.

(** ** Strings *)

Lemma string_length_loop_spec fuel s pre rest :
  0 ∉ s -> is_u64 (zlen pre + zlen s) -> (length s < fuel)%nat ->
  string_length_loop fuel (pre ++ s ++ 0 :: rest) (zlen pre) = Done (zlen pre + zlen s).
Proof.
  revert pre fuel. induction s as [|c s IH]; intros pre fuel H0 Hmax Hfuel;
    (destruct fuel as [|fuel]; [simpl in Hfuel; lia|]); simpl.
  - rewrite (proj2 (peek_Done _ _ 0)).
    + simpl. f_equal. rewrite zlen_nil. lia.
    + split; [block_lia|]. unfold zlen. rewrite Nat2Z.id. by apply list_lookup_middle.
  - rewrite (proj2 (peek_Done _ _ c)).
    + simpl. rewrite decide_False by set_solver. unfold is_u64 in Hmax. rewrite zlen_cons in *.
      rewrite wrap64_small by (unfold is_u64; block_lia).
      replace (zlen pre + 1) with (zlen (pre ++ [c])) by block_lia.
      replace (pre ++ c :: s ++ 0 :: rest) with ((pre ++ [c]) ++ s ++ 0 :: rest)
        by by rewrite <- app_assoc.
      rewrite IH; [f_equal; block_lia|set_solver|unfold is_u64; block_lia|simpl in Hfuel; lia].
    + split; [block_lia|]. unfold zlen. rewrite Nat2Z.id. by apply list_lookup_middle.
Qed.

Lemma copy_loop_spec fuel source output index length :
  0 <= index <= length -> is_u64 length -> length <= zlen source -> length <= zlen output ->
  (Z.to_nat (length - index) <= fuel)%nat ->
  copy_loop fuel source output index length =
    Done (ztake index output ++ ztake (length - index) (zdrop index source) ++ zdrop length output).
Proof.
  revert output index. induction fuel as [|fuel IH]; intros output index Hi Hu Hs Ho Hfuel; simpl.
  all: destruct (decide (index < length)); [|assert (index = length) as -> by lia;
    rewrite Z.sub_diag, (ztake_0 0) by lia; by rewrite app_nil_l, ztake_zdrop].
  { exfalso. lia. }
  destruct (peek_in_range source index) as [c Hc]; [lia|]. rewrite Hc. simpl.
  rewrite poke_in_range by lia. simpl. unfold is_u64 in Hu.
  rewrite wrap64_small by (unfold is_u64; lia). rewrite IH; try done; try lia; [|block_lia].
  f_equal. rewrite (zdrop_peek _ _ _ Hc).
  replace (length - index) with (1 + (length - (index + 1))) by lia.
  rewrite (ztake_add 1 (length - (index + 1))) by lia. change (ztake 1 (c :: zdrop (index + 1) source)) with [c].
  change (zdrop 1 (c :: zdrop (index + 1) source)) with (zdrop (index + 1) source).
  assert (E1 : ztake (index + 1) (<[Z.to_nat index:=c]> output) = ztake index output ++ [c]).
  { unfold ztake, zlen in *. replace (Z.to_nat (index + 1)) with (S (Z.to_nat index)) by lia.
    rewrite (take_S_r _ _ c) by (apply list_lookup_insert_eq; lia). by rewrite take_insert_ge by lia. }
  rewrite E1, <- app_assoc. f_equal. simpl. f_equal. f_equal.
  unfold zdrop. by rewrite drop_insert_lt by lia.
Qed.

Lemma copy_string_spec fuel s rest output capacity :
  0 ∉ s -> is_u64 (zlen s) -> (length s < fuel)%nat -> capacity <= zlen output ->
  bc_io_perm_copy_string fuel (s ++ 0 :: rest) output capacity =
    Done (if decide (zlen s <= capacity) then (Some (zlen s), s ++ zdrop (zlen s) output)
          else (None, output)).
Proof.
  intros H0 Hu Hfuel Hcap. unfold bc_io_perm_copy_string.
  pose proof (string_length_loop_spec fuel s [] rest H0) as E. change (zlen (@nil Z)) with 0 in E.
  rewrite !Z.add_0_l in E. simpl app in E. rewrite E by done. simpl.
  repeat case_decide; try lia; [done|]. rewrite copy_loop_spec; try done; try block_lia; simpl.
  - rewrite Z.sub_0_r. do 3 f_equal. by apply ztake_app.
  - unfold zlen. lia.
Qed.

(** What a lookup by id is to give, from the answer of the database. *)
Definition name_copied (answer : Z * option (list Z)) (output : list Z) (capacity : Z)
    : option Z * list Z :=
  match answer with
  | (0, Some name) =>
      let s := c_string name in
      if decide (zlen s <= capacity) then (Some (zlen s), s ++ zdrop (zlen s) output) else (None, output)
  | _ => (None, output)
  end.

Lemma copy_answer fuel answer output capacity :
  (1024 <= fuel)%nat -> capacity <= zlen output -> (forall name, answer = (0, Some name) -> name_ok name) ->
  (let '(r, result) := answer in
   if decide (r <> 0) then Done (None, output)
   else match result with
        | None => Done (None, output)
        | Some name => bc_io_perm_copy_string fuel name output capacity
        end) = Done (name_copied answer output capacity).
Proof.
  intros Hfuel Hcap Hok. destruct answer as [r result]. unfold name_copied.
  case_decide as Hr; [by destruct r|]. assert (r = 0) as -> by (by destruct (decide (r = 0))).
  destruct result as [name|]; [|done]. destruct (Hok name eq_refl) as [H0 Hlen].
  destruct (c_string_split name) as [E|(rest & E)]; [rewrite <- E in H0; by apply c_string_no_0 in H0|].
  rewrite E at 1. rewrite E in Hlen. rewrite zlen_app, zlen_cons in Hlen. pose proof (zlen_nonneg rest).
  pose proof (zlen_nonneg (c_string name)). unfold zlen in Hlen.
  apply copy_string_spec; [apply c_string_no_0|unfold is_u64, u64_modulus, zlen; lia|lia|done].
Qed.

(** Copying a name into the array: what the lookup then sees. *)
Lemma copy_to_zero_terminated_spec fuel name length array :
  0 <= length <= zlen name -> length + 1 < u64_modulus -> 0 ∉ ztake length name ->
  zlen array = 256 -> (Z.to_nat length <= fuel)%nat ->
  safe (bc_io_perm_copy_to_zero_terminated fuel name length array 256)
    (fun '(ok, array') => ok = bool_decide (length <= 255) /\
       (ok = true -> c_string array' = ztake length name)).
Proof.
  intros Hl Hmax H0 Ha Hfuel. unfold bc_io_perm_copy_to_zero_terminated.
  rewrite wrap64_small by (unfold is_u64; lia). case_decide.
  { rewrite bool_decide_false by lia. by split. }
  rewrite bool_decide_true by lia. rewrite copy_loop_spec; try done; try lia; [|unfold is_u64; lia].
  simpl. rewrite Z.sub_0_r. change (zdrop 0 name) with name.
  rewrite poke_in_range by block_lia. simpl. split; [done|]. intros _.
  assert (Hn : List.length (ztake length name) = Z.to_nat length).
  { unfold ztake. rewrite length_take. unfold zlen in *. lia. }
  rewrite insert_app_r_alt, Hn, Nat.sub_diag by lia.
  destruct (zdrop length array) as [|x rest] eqn:E.
  { apply (f_equal zlen) in E. autorewrite with blocks in E. lia. }
  by apply c_string_app.
Qed.

Lemma parse_human_form input length m :
  length <= zlen input ->
  (bc_io_perm_parse_mode_human input length = Done (Some m) <-> human_form input length m).
Proof.
  intros Hlen. pose proof (parse_mode_human_spec input length Hlen) as (r & -> & H)%safe_Done.
  split; [by intros [= ->]|]. intros Hm. destruct r as [m'|]; [|by apply H in Hm].
  do 2 f_equal. by eapply human_form_unique.
Qed.

Lemma human_form_of mode :
  human_form (bc_io_perm_file_type_char mode :: permission_chars mode) 10 (Z.land mode 4095) /\
  human_form (permission_chars mode) 9 (Z.land mode 4095).
Proof.
  split; (split; [|split; [apply land_4095_range|by rewrite permission_chars_low]]).
  - right. split; [done|]. eexists. split; [apply file_type_char_listed|done].
  - by left.
Qed.

(** [written_form input length mode]: the first [length] characters are the text
    the formatter writes for some mode with the permission bits [mode], with or
    without its first character. *)
Definition written_form (input : list Z) (length m : Z) : Prop :=
  exists mode text, Z.land mode 4095 = m /\
    bc_io_perm_format_mode_human mode (zrepeat 0 10) 10 = Done (Some 10, text) /\
    (length = 10 /\ ztake 10 input = text \/ length = 9 /\ ztake 9 input = zdrop 1 text).

(** Any type character goes with any permission bits. *)
Lemma typed_mode t m :
  t ∈ type_chars -> 0 <= m < 4096 ->
  exists mode, bc_io_perm_file_type_char mode = t /\ Z.land mode 4095 = m.
Proof.
  intros Ht Hm.
  assert (Hsplit : forall f, 0 <= f -> Z.land (f * 4096 + m) S_IFMT = Z.land f 15 * 4096 /\
    Z.land (f * 4096 + m) 4095 = m).
  { intros f Hf. split; [|change 4095 with (Z.ones 12); rewrite Z.land_ones by lia;
      rewrite Z.add_comm, Z_mod_plus_full; apply Z.mod_small; lia].
    change S_IFMT with (15 * 2 ^ 12). change 4096 with (2 ^ 12). rewrite <- !Z.shiftl_mul_pow2 by lia.
    apply Z.bits_inj'. intros n Hn. rewrite Z.land_spec, !Z.shiftl_spec, Z.land_spec by done.
    destruct (decide (n < 12)) as [Hlow|Hhigh];
      [by rewrite !(Z.testbit_neg_r _ (n - 12)), ?andb_false_r by lia|].
    f_equal. rewrite Z.shiftl_mul_pow2 by lia.
    transitivity (Z.testbit (Z.shiftr (f * 2 ^ 12 + m) 12) (n - 12)).
    - rewrite Z.shiftr_spec by lia. f_equal. lia.
    - rewrite Z.shiftr_div_pow2, Z.div_add_l, (Z.div_small m) by lia. by rewrite Z.add_0_r. }
  assert (exists f, 0 <= f /\ forall mode, Z.land mode S_IFMT = Z.land f 15 * 4096 ->
    bc_io_perm_file_type_char mode = t) as (f & Hf & Hchar).
  { unfold bc_io_perm_file_type_char, S_ISTYPE. unfold type_chars in Ht.
    repeat (apply elem_of_cons in Ht as [->|Ht]); [..|by apply not_elem_of_nil in Ht].
    all: first [ by (exists 8; split; [done|intros mode ->])
               | by (exists 4; split; [done|intros mode ->])
               | by (exists 10; split; [done|intros mode ->])
               | by (exists 2; split; [done|intros mode ->])
               | by (exists 6; split; [done|intros mode ->])
               | by (exists 1; split; [done|intros mode ->])
               | by (exists 12; split; [done|intros mode ->])
               | by (exists 0; split; [done|intros mode ->]) ]. }
  exists (f * 4096 + m). destruct (Hsplit f Hf). split; [by apply Hchar|done].
Qed.

Lemma human_written input length m :
  length <= zlen input -> human_form input length m <-> written_form input length m.
Proof.
  intros Hlen. unfold written_form. split.
  - intros (Hform & Hm & E).
    assert (exists t, t ∈ type_chars /\ (length = 10 -> peek input 0 = Done t)) as (t & Ht & Hpeek).
    { destruct Hform as [->|(-> & t & ? & ?)]; [|by exists t].
      exists (ch "-"). split; [by refine (bool_decide_unpack _ _); vm_compute|lia]. }
    destruct (typed_mode t m Ht Hm) as (mode & Et & Em). exists mode. eexists.
    rewrite format_mode_human_spec by done. rewrite Et, <- (permission_chars_low mode), Em, <- E.
    split_and!; [done|done|]. destruct Hform as [->|[-> _]]; [right|left]; (split; [done|]).
    + rewrite (zdrop_0 (9 - 9)), app_nil_r by lia. done.
    + specialize (Hpeek eq_refl). destruct input as [|c input]; [done|]. injection Hpeek as ->.
      by rewrite app_nil_r.
  - intros (mode & text & <- & Ef & Hform). rewrite format_mode_human_spec in Ef by done.
    change (zdrop 10 (zrepeat 0 10)) with (@nil Z) in Ef. rewrite app_nil_r in Ef.
    assert (text = bc_io_perm_file_type_char mode :: permission_chars mode) as -> by congruence.
    clear Ef. destruct Hform as [[-> E]|[-> E]].
    + destruct (human_form_of mode) as [_ (_ & Hm & Hp)]. split; [|split; [done|]].
      * right. split; [done|]. eexists. split; [apply (file_type_char_listed mode)|].
        destruct input as [|c input]; [done|]. by injection E as ->.
      * rewrite permission_chars_low. destruct input as [|c input]; [done|]. by injection E as _ E.
    + destruct (human_form_of mode) as [_ (_ & Hm & Hp)]. split; [by left|split; [done|]].
      rewrite permission_chars_low, zdrop_0 by lia. exact E.
Qed.

(** ** Properties *)

(** C16. The human form of every mode parses back to its permission bits, with
    and without the type character; formatting fills exactly the first ten cells
    of the block. *)
Theorem human_mode_roundtrip mode output capacity :
  10 <= capacity <= zlen output ->
  exists text,
    bc_io_perm_format_mode_human mode output capacity =
      Done (Some 10, text ++ zdrop 10 output) /\ zlen text = 10 /\
    bc_io_perm_parse_mode_human text 10 = Done (Some (Z.land mode 4095)) /\
    bc_io_perm_parse_mode_human (zdrop 1 text) 9 = Done (Some (Z.land mode 4095)).
Proof.
  intros Hcap. exists (bc_io_perm_file_type_char mode :: permission_chars mode).
  rewrite format_mode_human_spec by done.
  split_and!; [done|done|apply parse_human_form; [done|apply human_form_of]..].
Qed.

(** C15. The human parser accepts exactly the ten-character texts the formatter
    writes and the nine-character texts they are without their type character:
    on any input block, it returns the mode below 4096 that the first [length]
    characters spell in one of these forms, and false when there is none; it
    reads no cell past them. *)
Theorem human_parser_exact input length :
  length <= zlen input ->
  exists r, bc_io_perm_parse_mode_human input length = Done r /\
    forall m, (r = Some m <-> human_form input length m) /\
              (r = Some m <-> written_form input length m).
Proof.
  intros Hlen. pose proof (parse_mode_human_spec input length Hlen) as (r & E & _)%safe_Done.
  exists r. split; [done|]. intros m. rewrite <- (human_written input length m) by done.
  rewrite <- parse_human_form by done. rewrite E. naive_solver.
Qed.

(** C30. The octal form: formatting fills four cells, and parsing them gives back
    the permission bits; the octal parser accepts exactly the numerals of one to
    four octal digits, with their value, and refuses everything else. *)
Theorem octal_mode_roundtrip mode output capacity input length :
  4 <= capacity <= zlen output -> 0 <= length <= zlen input ->
  bc_io_perm_format_mode_octal mode output capacity =
    Done (Some 4, octal_chars mode ++ zdrop 4 output) /\
  bc_io_perm_parse_mode_octal (octal_chars mode) 4 = Done (Some (Z.land mode 4095)) /\
  bc_io_perm_parse_mode_octal input length =
    Done (if decide (1 <= length <= 4 /\ Forall octal_digit (ztake length input))
          then Some (octal_value (ztake length input)) else None).
Proof.
  intros Hcap Hlen. destruct (octal_chars_value mode) as [Hd Hv].
  split_and!; [by apply format_mode_octal_spec| |by apply parse_mode_octal_spec].
  rewrite parse_mode_octal_spec by done. rewrite (ztake_all 4 (octal_chars mode)) by done.
  by rewrite decide_True, Hv.
Qed.

(** C37. Looking a name up copies it whole or not at all, whatever the database
    answers: when the lookup succeeds with an entry whose name fits in the
    capacity given, the name without its terminator and its length; false, with
    the block untouched, when the name does not fit, the lookup fails, or there is
    no entry. *)
Theorem resolve_name_copies `{NL : NameServiceLaws} fuel id output capacity :
  (1024 <= fuel)%nat -> capacity <= zlen output ->
  bc_io_perm_resolve_user_name fuel id output capacity =
    Done (name_copied (getpwuid_r id) output capacity) /\
  bc_io_perm_resolve_group_name fuel id output capacity =
    Done (name_copied (getgrgid_r id) output capacity).
Proof.
  intros Hfuel Hcap. unfold bc_io_perm_resolve_user_name, bc_io_perm_resolve_group_name.
  split; eapply copy_answer; try done; [apply pw_name_terminated|apply gr_name_terminated].
Qed.

(** C38. Looking an id up by name passes exactly the name to the database: names
    of up to 255 bytes are looked up as they are, longer ones are refused before
    any write past the 256-byte array, whatever the array held before. *)
Theorem resolve_id_looks_up `{NS : NameService} fuel array name length :
  0 <= length <= zlen name -> length + 1 < u64_modulus -> 0 ∉ ztake length name ->
  zlen array = 256 -> (Z.to_nat length <= fuel)%nat ->
  bc_io_perm_resolve_user_id fuel array name length =
    Done (if decide (length <= 255) then
            match getpwnam_r (ztake length name) with
            | (0, Some pw_uid) => Some (wrap32 pw_uid) | _ => None end
          else None) /\
  bc_io_perm_resolve_group_id fuel array name length =
    Done (if decide (length <= 255) then
            match getgrnam_r (ztake length name) with
            | (0, Some gr_gid) => Some (wrap32 gr_gid) | _ => None end
          else None).
Proof.
  intros Hl Hmax H0 Ha Hfuel.
  pose proof (copy_to_zero_terminated_spec fuel name length array Hl Hmax H0 Ha Hfuel)
    as ([ok array'] & E & Hok & Hc)%safe_Done.
  unfold bc_io_perm_resolve_user_id, bc_io_perm_resolve_group_id. rewrite E. simpl.
  case_decide as Hle; [rewrite bool_decide_true in Hok by done|
    rewrite bool_decide_false in Hok by done]; subst ok; simpl; [|done].
  rewrite Hc by done.
  split; [destruct (getpwnam_r _) as [r [u|]]|destruct (getgrnam_r _) as [r [u|]]];
    simpl; case_decide; destruct r; by try lia.
Qed.

(** ** Witnesses *)

Definition setuid_mode : Z := 35309.

Lemma human_mode_roundtrip_witness :
  exists text,
    bc_io_perm_format_mode_human setuid_mode (zrepeat 0 12) 12 =
      Done (Some 10, text ++ [0; 0]) /\ zlen text = 10 /\
    bc_io_perm_parse_mode_human text 10 = Done (Some 2541) /\
    bc_io_perm_parse_mode_human (zdrop 1 text) 9 = Done (Some 2541).
Proof. apply (human_mode_roundtrip setuid_mode (zrepeat 0 12) 12). concrete. Defined.

Lemma human_parser_exact_witness :
  exists r, bc_io_perm_parse_mode_human (bytes_of_string "rwsr-x--T") 9 = Done r /\
    forall m, (r = Some m <-> human_form (bytes_of_string "rwsr-x--T") 9 m) /\
              (r = Some m <-> written_form (bytes_of_string "rwsr-x--T") 9 m).
Proof. apply human_parser_exact. concrete. Defined.

Example human_parser_runs :
  bc_io_perm_parse_mode_human (bytes_of_string "rwsr-x--T") 9 = Done (Some 3048) /\
  bc_io_perm_parse_mode_human (bytes_of_string "rwtr-x--T") 9 = Done None /\
  bc_io_perm_parse_mode_human (bytes_of_string "?rw-r--r--") 10 = Done (Some 420).
Proof. by split_and!. Qed.

Lemma octal_mode_roundtrip_witness :
  bc_io_perm_format_mode_octal setuid_mode (zrepeat 0 5) 5 =
    Done (Some 4, octal_chars setuid_mode ++ [0]) /\
  bc_io_perm_parse_mode_octal (octal_chars setuid_mode) 4 = Done (Some 2541) /\
  bc_io_perm_parse_mode_octal (bytes_of_string "755") 3 = Done (Some 493).
Proof.
  apply (octal_mode_roundtrip setuid_mode (zrepeat 0 5) 5 (bytes_of_string "755") 3); concrete.
Defined.

(** A database with one user and one group, [root], of id 0. *)
#[local] Instance one_entry : NameService := {|
  getpwuid_r id := (0, if decide (id = 0) then Some (bytes_of_string "root" ++ [0; 9]) else None);
  getgrgid_r id := (0, if decide (id = 0) then Some (bytes_of_string "root" ++ [0; 9]) else None);
  getpwnam_r name := (0, if decide (name = bytes_of_string "root") then Some 0 else None);
  getgrnam_r name := (0, if decide (name = bytes_of_string "root") then Some 0 else None);
|}.

#[local] Instance one_entry_laws : NameServiceLaws one_entry.
Proof.
  split; intros id name; unfold getpwuid_r, getgrgid_r, one_entry; case_decide; [|done| |done]; intros [= <-].
  all: split; [refine (bool_decide_unpack _ _); by vm_compute|by vm_compute].
Qed.

Lemma resolve_name_copies_witness :
  bc_io_perm_resolve_user_name 1024 0 (zrepeat 1 6) 6 =
    Done (name_copied (getpwuid_r 0) (zrepeat 1 6) 6) /\
  bc_io_perm_resolve_group_name 1024 0 (zrepeat 1 6) 6 =
    Done (name_copied (getgrgid_r 0) (zrepeat 1 6) 6).
Proof. apply (resolve_name_copies 1024 0 (zrepeat 1 6) 6); [done|concrete]. Defined.

(** Found, too long for the block, and not found. *)
Example resolve_name_runs :
  bc_io_perm_resolve_user_name 10 0 (zrepeat 1 6) 6 = Done (Some 4, bytes_of_string "root" ++ [1; 1]) /\
  bc_io_perm_resolve_user_name 10 0 (zrepeat 1 6) 3 = Done (None, zrepeat 1 6) /\
  bc_io_perm_resolve_group_name 10 5 (zrepeat 1 6) 6 = Done (None, zrepeat 1 6).
Proof. by split_and!. Qed.

Lemma resolve_id_looks_up_witness :
  bc_io_perm_resolve_user_id 300 (zrepeat 5 256) (bytes_of_string "rooted") 4 = Done (Some 0) /\
  bc_io_perm_resolve_group_id 300 (zrepeat 5 256) (bytes_of_string "rooted") 4 = Done (Some 0).
Proof.
  assert (H0 : 0 ∉ ztake 4 (bytes_of_string "rooted"))
    by (refine (bool_decide_unpack _ _); by vm_compute).
  pose proof (resolve_id_looks_up 300 (zrepeat 5 256) (bytes_of_string "rooted") 4
    ltac:(concrete) ltac:(concrete) H0 ltac:(concrete) ltac:(concrete)) as H.
  vm_compute in H. exact H.
Defined.
