(* ===== verification/InodeSet.v ===== *)
(** * Sets of inodes ([src/file/bc_io_file_inode.c])

    A hash set of (device, inode) pairs: open addressing with linear probing on
    a power-of-two table that doubles when more than three quarters would be
    occupied.  Loops take fuel; a probe of a table with a free slot ends within
    its capacity. *)

From S2P Require Import Prelude Platform Objects Machine Scripted.

(** ** Specification

    A client's calls and their answers, and what the abstract set allows: a set
    may refuse an insertion (it could not grow) and then is unchanged; every
    other answer is determined. *)
Inductive set_op :=
| Insert (device inode : Z)
| Contains (device inode : Z)
| Clear
| GetSize.

Inductive set_answer :=
| Refused
| Present (b : bool)
| Cleared
| Size (n : Z).

Definition set_step (X : gset (Z * Z)) (op : set_op) (a : set_answer) : option (gset (Z * Z)) :=
  match op, a with
  | Insert d i, Refused => Some X
  | Insert d i, Present b =>
      if decide (b = bool_decide ((d, i) ∈ X)) then Some ({[(d, i)]} ∪ X) else None
  | Contains d i, Present b => if decide (b = bool_decide ((d, i) ∈ X)) then Some X else None
  | Clear, Cleared => Some ∅
  | GetSize, Size n => if decide (n = Z.of_nat (size X)) then Some X else None
  | _, _ => None
  end.

Fixpoint set_run (X : gset (Z * Z)) (ops : list set_op) (answers : list set_answer)
    : option (gset (Z * Z)) :=
  match ops, answers with
  | [], [] => Some X
  | op :: ops, a :: answers =>
      match set_step X op a with Some X => set_run X ops answers | None => None end
  | _, _ => None
  end.

(** ** Constants *)

Definition BC_IO_INODE_SET_DEFAULT_CAPACITY : Z := 8192.
Definition sizeof_bc_io_file_inode_set_t : Z := 40.
Definition sizeof_bc_io_file_inode_set_entry_t : Z := 16.

(** ** Code *)

Fixpoint round_up_loop (fuel : nat) (value result : Z) : res Z :=
  if decide (result < value) then
    match fuel with
    | O => OutOfFuel
    | S fuel => round_up_loop fuel value (wrap64 (Z.shiftl result 1))
    end
  else Done result.

Definition bc_io_file_inode_set_round_up_to_power_of_two (fuel : nat) (value : Z) : res Z :=
  if decide (value < 2) then Done 2 else round_up_loop fuel value 1.

Definition bc_io_file_inode_set_hash (device inode capacity : Z) : Z :=
  let x := device *u 11400714819323198485 in
  let x := Z.lxor x (inode +u 11400714819323198485 +u wrap64 (Z.shiftl x 6) +u Z.shiftr x 2) in
  let x := Z.lxor x (Z.shiftr x 33) in
  let x := x *u 18397679294719823053 in
  let x := Z.lxor x (Z.shiftr x 33) in
  Z.land x (capacity -u 1).

(** The zeroed block read as an array of entries. *)
Fixpoint entries_of_bytes (n : nat) (bytes : list Z) : list (Z * Z) :=
  match n with
  | O => []
  | S n => (le_word (take 8 bytes), le_word (take 8 (drop 8 bytes))) ::
           entries_of_bytes n (drop 16 bytes)
  end.

(** [while (occupied[slot]) slot = (slot + 1) & mask;] *)
Fixpoint free_slot_loop (fuel : nat) (occupied : list Z) (mask slot : Z) : res Z :=
  match fuel with
  | O => OutOfFuel
  | S fuel =>
      o ← peek occupied slot;
      if decide (o <> 0) then free_slot_loop fuel occupied mask (Z.land (slot +u 1) mask)
      else Done slot
  end.

(** The probing loop of [insert] and [contains]: whether the pair was found, and
    the slot where the loop stopped. *)
Fixpoint probe_loop (fuel : nat) (entries : list (Z * Z)) (occupied : list Z)
    (device inode mask slot : Z) : res (bool * Z) :=
  match fuel with
  | O => OutOfFuel
  | S fuel =>
      o ← peek occupied slot;
      if decide (o <> 0) then
        e ← peek entries slot;
        if decide (e.1 = device /\ e.2 = inode) then Done (true, slot)
        else probe_loop fuel entries occupied device inode mask (Z.land (slot +u 1) mask)
      else Done (false, slot)
  end.

(** The copying loop of [grow]: [todo] slots of the old table from [index] on. *)
Fixpoint rehash_loop (fuel todo : nat) (old : bc_io_file_inode_set_t) (index new_capacity : Z)
    (new_entries : list (Z * Z)) (new_occupied : list Z) : res (list (Z * Z) * list Z) :=
  match todo with
  | O => Done (new_entries, new_occupied)
  | S todo =>
      o ← peek (occupied old) index;
      if decide (o = 0) then
        rehash_loop fuel todo old (index + 1) new_capacity new_entries new_occupied
      else
        e ← peek (entries old) index;
        slot ← free_slot_loop fuel new_occupied (new_capacity -u 1)
                 (bc_io_file_inode_set_hash e.1 e.2 new_capacity);
        new_entries ← poke new_entries slot e;
        new_occupied ← poke new_occupied slot 1;
        rehash_loop fuel todo old (index + 1) new_capacity new_entries new_occupied
  end.

Definition bc_io_file_inode_set_get_size (s : bc_io_file_inode_set_t) : Z := set_size s.

Definition bc_io_file_inode_set_contains (fuel : nat) (s : bc_io_file_inode_set_t)
    (device inode : Z) : res bool :=
  '(found, _) ← probe_loop fuel (entries s) (occupied s) device inode (capacity s -u 1)
                  (bc_io_file_inode_set_hash device inode (capacity s));
  Done found.

Section inode_set.
Context {PF : Platform}.

Definition bc_io_file_inode_set_clear (s : bc_io_file_inode_set_t) : bc_io_file_inode_set_t :=
  mk_set (bucket_block s) (entries s)
    ((core_zero (ztake (capacity s) (occupied s))).2 ++ zdrop (capacity s) (occupied s))
    (capacity s) 0.

(** The address of the block, the entries and the occupied bytes. *)
Definition bc_io_file_inode_set_allocate_buckets (new_capacity : Z)
    : M (option (Z * list (Z * Z) * list Z)) :=
  match core_safe_multiply new_capacity sizeof_bc_io_file_inode_set_entry_t with
  | None => set_errno ENOMEM;; mret None
  | Some entries_size =>
      match core_safe_add entries_size new_capacity with
      | None => set_errno ENOMEM;; mret None
      | Some total_size =>
          mapped ← bc_allocators_pool_allocate total_size;
          match mapped with
          | None => mret None
          | Some mapped =>
              bytes ← fresh_bytes mapped total_size;
              let bytes := (core_zero bytes).2 in
              mret (Some (mapped, entries_of_bytes (Z.to_nat new_capacity) (ztake entries_size bytes),
                          zdrop entries_size bytes))
          end
      end
  end.

Definition bc_io_file_inode_set_create (fuel : nat) (initial_capacity : Z) : M (option Z) :=
  let new_capacity := if decide (initial_capacity = 0) then BC_IO_INODE_SET_DEFAULT_CAPACITY
                      else initial_capacity in
  new_capacity ← lift (bc_io_file_inode_set_round_up_to_power_of_two fuel new_capacity);
  set ← bc_allocators_pool_allocate sizeof_bc_io_file_inode_set_t;
  match set with
  | None => mret None
  | Some set =>
      buckets ← bc_io_file_inode_set_allocate_buckets new_capacity;
      match buckets with
      | None => bc_allocators_pool_free set;; mret None
      | Some (block, entries, occupied) =>
          store set (OSet (mk_set block entries occupied new_capacity 0));;
          mret (Some set)
      end
  end.

Definition bc_io_file_inode_set_destroy (set : Z) : M unit :=
  s ← load_set set;
  bc_allocators_pool_free (bucket_block s);;
  bc_allocators_pool_free set.

Definition bc_io_file_inode_set_grow (fuel : nat) (s : bc_io_file_inode_set_t)
    : M (bool * bc_io_file_inode_set_t) :=
  let new_capacity := capacity s *u 2 in
  buckets ← bc_io_file_inode_set_allocate_buckets new_capacity;
  match buckets with
  | None => mret (false, s)
  | Some (block, new_entries, new_occupied) =>
      '(new_entries, new_occupied) ←
        lift (rehash_loop fuel (Z.to_nat (capacity s)) s 0 new_capacity new_entries new_occupied);
      bc_allocators_pool_free (bucket_block s);;
      mret (true, mk_set block new_entries new_occupied new_capacity (set_size s))
  end.

(** [Some *out_was_already_present] on success. *)
Definition bc_io_file_inode_set_insert (fuel : nat) (s : bc_io_file_inode_set_t)
    (device inode : Z) : M (option bool * bc_io_file_inode_set_t) :=
  '(ok, s) ← (if decide (capacity s *u 3 < (set_size s +u 1) *u 4)
              then bc_io_file_inode_set_grow fuel s else mret (true, s));
  if negb ok then mret (None, s)
  else
    '(found, slot) ← lift (probe_loop fuel (entries s) (occupied s) device inode (capacity s -u 1)
                             (bc_io_file_inode_set_hash device inode (capacity s)));
    if (found : bool) then mret (Some true, s)
    else
      entries' ← lift (poke (entries s) slot (device, inode));
      occupied' ← lift (poke (occupied s) slot 1);
      mret (Some false, mk_set (bucket_block s) entries' occupied' (capacity s) (set_size s +u 1)).
End inode_set.

(** ** Rounding up *)

Lemma round_up_loop_spec fuel value k :
  0 <= k -> 1 < value <= 2 ^ 63 -> 2 ^ k < 2 * value -> (64 - Z.to_nat k <= fuel)%nat ->
  safe (round_up_loop fuel value (2 ^ k)) (fun r => value <= r < 2 * value /\
    exists j, k <= j <= 63 /\ r = 2 ^ j).
Proof.
  revert k. induction fuel as [|fuel IH]; intros k Hk Hv Hlt Hfuel; simpl.
  all: case_decide as Hr; [|split; [lia|]; exists k; split; [|done]; split; [lia|];
    destruct (decide (k <= 63)); [done|]; assert (2 ^ 64 <= 2 ^ k) by (apply Z.pow_le_mono_r; lia); lia].
  all: assert (k < 63) by (apply (Z.pow_lt_mono_r_iff 2); lia).
  { lia. }
  rewrite Z.shiftl_mul_pow2, (Z.mul_comm _ (2 ^ 1)), <- Z.pow_add_r by lia.
  rewrite wrap64_small.
  - eapply safe_mono; [apply IH; [lia|done| |lia]|].
    + rewrite Z.pow_add_r by lia. lia.
    + intros r (? & j & ? & ?). split; [done|]. exists j. split; [lia|done].
  - assert (2 ^ (1 + k) < 2 ^ 64) by (apply Z.pow_lt_mono_r; lia).
    unfold is_u64, u64_modulus. lia.
Qed.

(** Above 2^63 no power of two is reached: the word is shifted to 0 and stays 0. *)
Lemma round_up_loop_diverges fuel value result :
  2 ^ 63 < value -> result = 0 \/ (exists k, 0 <= k <= 63 /\ result = 2 ^ k) ->
  round_up_loop fuel value result = OutOfFuel.
Proof.
  intros Hv. revert result. induction fuel as [|fuel IH]; intros result Hr; simpl.
  all: assert (Hlt : result < value).
  1, 3: destruct Hr as [->|(k & Hk & ->)]; [lia|];
    assert (2 ^ k <= 2 ^ 63) by (apply Z.pow_le_mono_r; lia); lia.
  all: rewrite decide_True by done.
  { done. }
  apply IH. destruct Hr as [->|(k & Hk & ->)]; [by left|].
  destruct (decide (k = 63)) as [->|]; [by left|]. right. exists (k + 1). split; [lia|].
  rewrite Z.shiftl_mul_pow2, <- Z.pow_add_r by lia. apply wrap64_small.
  assert (2 ^ (k + 1) < 2 ^ 64) by (apply Z.pow_lt_mono_r; lia). unfold is_u64, u64_modulus. lia.
Qed.

(** ** Tables with linear probing *)

(** What a slot holds. *)
Definition view (entries : list (Z * Z)) (occupied : list Z) (i : Z) : option (Z * Z) :=
  match occupied !! Z.to_nat i, entries !! Z.to_nat i with
  | Some o, Some e => if decide (o <> 0) then Some e else None
  | _, _ => None
  end.

Section table.
Context (n : Z) (hash : Z * Z -> Z).

(** The slot [d] steps after [h]. *)
Definition at_ (h d : Z) : Z := (h + d) mod n.

Definition path_full (t : Z -> option (Z * Z)) (h d : Z) : Prop :=
  forall j, 0 <= j < d -> t (at_ h j) <> None.

(** Every entry is reached from its hash over occupied slots, and stands once. *)
Record table (t : Z -> option (Z * Z)) : Prop := {
  table_reach i e : 0 <= i < n -> t i = Some e ->
    exists d, 0 <= d < n /\ i = at_ (hash e) d /\ path_full t (hash e) d;
  table_unique i j e : 0 <= i < n -> 0 <= j < n -> t i = Some e -> t j = Some e -> i = j;
}.

Definition member (t : Z -> option (Z * Z)) (e : Z * Z) : Prop :=
  exists i, 0 <= i < n /\ t i = Some e.

Definition add (t : Z -> option (Z * Z)) (slot : Z) (e : Z * Z) (i : Z) : option (Z * Z) :=
  if decide (i = slot) then Some e else t i.

(** [missed t e d]: the first [d] slots of the path of [e] hold other entries. *)
Definition missed (t : Z -> option (Z * Z)) (e : Z * Z) (d : Z) : Prop :=
  path_full t (hash e) d /\ forall j, 0 <= j < d -> t (at_ (hash e) j) <> Some e.

Context (Hn : 0 < n).

Lemma at_range h d : 0 <= at_ h d < n.
Proof. by apply Z.mod_pos_bound. Qed.

Lemma at_succ h d : at_ h (d + 1) = (at_ h d + 1) mod n.
Proof. unfold at_. rewrite Zplus_mod_idemp_l. f_equal. lia. Qed.

Lemma at_reaches h i : 0 <= i < n -> exists d, 0 <= d < n /\ at_ h d = i.
Proof.
  intros Hi. exists ((i - h) mod n). split; [by apply Z.mod_pos_bound|].
  unfold at_. rewrite Zplus_mod_idemp_r. replace (h + (i - h)) with i by lia. by apply Z.mod_small.
Qed.

Lemma missed_not_member t e d :
  table t -> 0 <= d -> missed t e d -> t (at_ (hash e) d) = None -> ~ member t e.
Proof.
  intros Ht Hd [Hfull Hmiss] Hfree (i & Hi & Hti).
  destruct (table_reach t Ht i e Hi Hti) as (d' & Hd' & -> & Hpath).
  destruct (Z.lt_trichotomy d' d) as [Hlt|[->|Hlt]].
  - by apply (Hmiss d'); [lia|].
  - congruence.
  - by apply (Hpath d); [lia|].
Qed.

(** Putting a new entry at the end of its path keeps the table. *)
Lemma table_add t e d :
  table t -> 0 <= d < n -> path_full t (hash e) d -> t (at_ (hash e) d) = None ->
  ~ member t e -> table (add t (at_ (hash e) d) e).
Proof.
  intros Ht Hd Hpath Hfree Hnew.
  assert (Hgrow : forall h d', path_full t h d' -> path_full (add t (at_ (hash e) d) e) h d').
  { intros h d' Hp j Hj. unfold add. case_decide; [done|by apply Hp]. }
  split.
  - intros i e' Hi. unfold add at 1. case_decide as Heq; [intros [= <-]|intros Hti].
    + subst i. exists d. split_and!; try lia. by apply Hgrow.
    + destruct (table_reach t Ht i e' Hi Hti) as (d' & Hd' & Hat & Hp).
      exists d'. split_and!; try lia. by apply Hgrow.
  - intros i j e' Hi Hj. unfold add. repeat case_decide; intros; simplify_eq; try done.
    + exfalso. apply Hnew. by exists j.
    + exfalso. apply Hnew. by exists i.
    + by eapply table_unique.
Qed.

Lemma member_add t e d e' :
  t (at_ (hash e) d) = None ->
  member (add t (at_ (hash e) d) e) e' <-> e' = e \/ member t e'.
Proof.
  intros Hfree. unfold member, add. split.
  - intros (i & Hi & Hti). case_decide; [left; congruence|right; eauto].
  - intros [->|(i & Hi & Hti)].
    + exists (at_ (hash e) d). split; [apply at_range|by rewrite decide_True].
    + exists i. split; [done|]. rewrite decide_False; [done|]. intros ->. congruence.
Qed.

Lemma table_ext t t' : (forall i, 0 <= i < n -> t i = t' i) -> table t -> table t'.
Proof.
  intros E [Hr Hu]. split.
  - intros i e Hi Hti. rewrite <- E in Hti by done. destruct (Hr i e Hi Hti) as (d & ? & ? & Hp).
    exists d. split_and!; try lia; try done. intros j Hj. rewrite <- E by apply at_range. by apply Hp.
  - intros i j e Hi Hj. rewrite <- !E by done. by apply Hu.
Qed.

Lemma member_ext t t' e : (forall i, 0 <= i < n -> t i = t' i) -> member t e <-> member t' e.
Proof. intros E. unfold member. split; intros (i & Hi & H); exists i; rewrite E in * || rewrite <- E in *; done. Qed.
End table.

(** ** Arrays as tables *)

Definition count (occupied : list Z) : Z := zlen (filter (fun o => o <> 0) occupied).

Lemma count_nonneg occ : 0 <= count occ.
Proof. apply zlen_nonneg. Qed.

Lemma count_app occ occ' : count (occ ++ occ') = count occ + count occ'.
Proof. unfold count. by rewrite filter_app, zlen_app. Qed.

Lemma count_cons o occ : count (o :: occ) = (if decide (o = 0) then 0 else 1) + count occ.
Proof.
  unfold count. rewrite filter_cons. repeat case_decide; try done. apply zlen_cons.
Qed.

Lemma count_le occ : count occ <= zlen occ.
Proof. induction occ as [|o occ IH]; [done|]. rewrite count_cons, zlen_cons. case_decide; lia. Qed.

Lemma count_zeros n : count (zrepeat 0 n) = 0.
Proof. unfold zrepeat. by induction (Z.to_nat n). Qed.

Lemma count_insert occ i : occ !! i = Some 0 -> count (<[i := 1]> occ) = count occ + 1.
Proof.
  revert i. induction occ as [|o occ IH]; intros [|i] H; simplify_eq/=.
  - rewrite !count_cons. simpl. lia.
  - rewrite !count_cons, IH by done. lia.
Qed.

Lemma free_slot_exists occ : count occ < zlen occ -> exists i, occ !! i = Some 0.
Proof.
  induction occ as [|o occ IH]; [by unfold count|]. rewrite count_cons, zlen_cons.
  case_decide; [subst; by exists 0%nat|]. intros. destruct IH as [i Hi]; [lia|]. by exists (S i).
Qed.

Lemma peek_view_occupied ents occ i o :
  zlen ents = zlen occ -> peek occ i = Done o ->
  if decide (o = 0) then view ents occ i = None
  else exists e, peek ents i = Done e /\ view ents occ i = Some e.
Proof.
  intros Hlen [Hi Ho]%peek_Done. unfold view. rewrite Ho.
  destruct (peek_in_range ents i) as [e He].
  { apply lookup_lt_Some in Ho. unfold zlen in *. lia. }
  apply peek_Done in He as He'. destruct He' as [_ ->].
  case_decide; [subst; done|]. exists e. split; [done|]. by rewrite decide_True.
Qed.

Lemma view_insert ents occ slot e i :
  zlen ents = zlen occ -> 0 <= slot < zlen occ -> 0 <= i < zlen occ ->
  view (<[Z.to_nat slot := e]> ents) (<[Z.to_nat slot := 1]> occ) i =
    add (view ents occ) slot e i.
Proof.
  intros Hlen Hs Hi. unfold view, add. case_decide as E.
  - subst. rewrite !list_lookup_insert_eq by (unfold zlen in *; lia). by rewrite decide_True.
  - by rewrite !list_lookup_insert_ne by lia.
Qed.

Lemma land_mask k x : 0 <= k -> Z.land x (2 ^ k - 1) = x mod 2 ^ k.
Proof. intros. rewrite <- Z.land_ones by done. by rewrite Z.ones_equiv, Z.sub_1_r. Qed.

(** Capacities of tables: powers of two whose buckets fit the address space. *)
Definition capacity_ok (n : Z) : Prop := exists k, 1 <= k <= 59 /\ n = 2 ^ k.

Lemma capacity_bounds n : capacity_ok n -> 2 <= n <= 2 ^ 59.
Proof.
  intros (k & Hk & ->). split; [change 2 with (2 ^ 1) at 1|]; apply Z.pow_le_mono_r; lia.
Qed.

Lemma capacity_mask n x : capacity_ok n -> Z.land x (n -u 1) = x mod n.
Proof.
  intros H. pose proof (capacity_bounds n H) as Hb. destruct H as (k & Hk & ->).
  rewrite wrap64_small by (unfold is_u64, u64_modulus; lia). apply land_mask. lia.
Qed.

Definition hash_of (n : Z) (e : Z * Z) : Z := bc_io_file_inode_set_hash e.1 e.2 n.

Lemma hash_range n e : capacity_ok n -> 0 <= hash_of n e < n.
Proof.
  intros H. pose proof (capacity_bounds n H). unfold hash_of, bc_io_file_inode_set_hash.
  rewrite capacity_mask by done. apply Z.mod_pos_bound. lia.
Qed.

Lemma next_slot n h d :
  capacity_ok n -> Z.land (at_ n h d +u 1) (n -u 1) = at_ n h (d + 1).
Proof.
  intros H. pose proof (capacity_bounds n H) as Hb. rewrite capacity_mask by done.
  pose proof (at_range n ltac:(lia) h d). rewrite wrap64_small by (unfold is_u64, u64_modulus; lia).
  by rewrite at_succ.
Qed.

Lemma hash_at n e : capacity_ok n -> hash_of n e = at_ n (hash_of n e) 0.
Proof.
  intros H. pose proof (hash_range n e H). unfold at_. rewrite Z.add_0_r. by rewrite Z.mod_small.
Qed.

(** The arrays of a table of [n] slots. *)
Definition arrays (n : Z) (ents : list (Z * Z)) (occ : list Z) : Prop :=
  capacity_ok n /\ zlen ents = n /\ zlen occ = n.

Lemma missed_step n t e d :
  missed n (hash_of n) t e d -> t (at_ n (hash_of n e) d) <> None ->
  t (at_ n (hash_of n e) d) <> Some e -> missed n (hash_of n) t e (d + 1).
Proof.
  intros [Hp Hm] H1 H2. split; intros j Hj; (destruct (decide (j = d)) as [->|]; [done|]).
  - apply Hp. lia.
  - apply Hm. lia.
Qed.

(** Probing finds the entry, or ends at the free slot that shows it absent, no
    later than at the free slot [f] steps away. *)
Lemma probe_loop_spec fuel n ents occ e d f :
  arrays n ents occ -> missed n (hash_of n) (view ents occ) e d ->
  0 <= d <= f -> view ents occ (at_ n (hash_of n e) f) = None -> f < n ->
  (Z.to_nat (f - d) < fuel)%nat ->
  safe (probe_loop fuel ents occ e.1 e.2 (n -u 1) (at_ n (hash_of n e) d))
    (fun '(found, slot) => exists d', 0 <= d' < n /\ slot = at_ n (hash_of n e) d' /\
       if found : bool then view ents occ slot = Some e
       else missed n (hash_of n) (view ents occ) e d' /\ view ents occ slot = None).
Proof.
  intros (Hcap & He & Ho) Hmiss Hd Hf Hfn. revert d Hmiss Hd.
  pose proof (capacity_bounds n Hcap) as Hb.
  induction fuel as [|fuel IH]; intros d Hmiss Hd Hfuel; [lia|]. simpl.
  pose proof (at_range n ltac:(lia) (hash_of n e) d) as Hat.
  destruct (peek_in_range occ (at_ n (hash_of n e) d)) as [o Hpo]; [lia|]. rewrite Hpo. simpl.
  pose proof (peek_view_occupied ents occ _ o ltac:(lia) Hpo) as Hv.
  destruct (decide (o = 0)) as [->|Hne]; simpl.
  { exists d. split; [lia|]. by split. }
  rewrite decide_True by done. destruct Hv as (e' & Hpe & Hv). rewrite Hpe. simpl.
  case_decide as Heq.
  { simpl. exists d. split; [lia|]. split; [done|]. rewrite Hv. f_equal. destruct e, e'; naive_solver. }
  rewrite next_slot by done. apply IH; [|..].
  - apply missed_step; [done|by rewrite Hv|]. rewrite Hv. intros [= ->]. tauto.
  - destruct (decide (d = f)) as [->|]; [congruence|lia].
  - destruct (decide (d = f)) as [->|]; [congruence|lia].
Qed.

(** The same for a pair known to be absent, as [grow] looks for its slot. *)
Lemma free_slot_loop_spec fuel n ents occ e d f :
  arrays n ents occ -> path_full n (view ents occ) (hash_of n e) d ->
  0 <= d <= f -> view ents occ (at_ n (hash_of n e) f) = None -> f < n ->
  (Z.to_nat (f - d) < fuel)%nat ->
  safe (free_slot_loop fuel occ (n -u 1) (at_ n (hash_of n e) d))
    (fun slot => exists d', 0 <= d' < n /\ slot = at_ n (hash_of n e) d' /\
       path_full n (view ents occ) (hash_of n e) d' /\ view ents occ slot = None).
Proof.
  intros (Hcap & He & Ho) Hpath Hd Hf Hfn. revert d Hpath Hd.
  pose proof (capacity_bounds n Hcap) as Hb.
  induction fuel as [|fuel IH]; intros d Hpath Hd Hfuel; [lia|]. simpl.
  pose proof (at_range n ltac:(lia) (hash_of n e) d) as Hat.
  destruct (peek_in_range occ (at_ n (hash_of n e) d)) as [o Hpo]; [lia|]. rewrite Hpo. simpl.
  pose proof (peek_view_occupied ents occ _ o ltac:(lia) Hpo) as Hv.
  destruct (decide (o = 0)) as [->|Hne]; simpl.
  { exists d. split; [lia|]. by split. }
  rewrite decide_True by done. destruct Hv as (e' & _ & Hv).
  rewrite next_slot by done. apply IH; [|..].
  - intros j Hj. destruct (decide (j = d)) as [->|]; [by rewrite Hv|]. apply Hpath. lia.
  - destruct (decide (d = f)) as [->|]; [congruence|lia].
  - destruct (decide (d = f)) as [->|]; [congruence|lia].
Qed.

(** A table with a free slot has one on every path. *)
Lemma free_on_path n ents occ e :
  arrays n ents occ -> count occ < n ->
  exists f, 0 <= f < n /\ view ents occ (at_ n (hash_of n e) f) = None.
Proof.
  intros (Hcap & He & Ho) Hc. pose proof (capacity_bounds n Hcap).
  destruct (free_slot_exists occ) as [i Hi]; [lia|].
  assert (Z.of_nat i < n) by (apply lookup_lt_Some in Hi; unfold zlen in *; lia).
  destruct (at_reaches n ltac:(lia) (hash_of n e) (Z.of_nat i)) as (f & Hf & E); [lia|].
  exists f. split; [done|]. rewrite E. unfold view. rewrite Nat2Z.id, Hi. destruct (ents !! i); [by rewrite decide_False by lia|done].
Qed.

(** Storing a new entry at the slot found. *)
Lemma store_entry n ents occ e d :
  arrays n ents occ -> table n (hash_of n) (view ents occ) -> 0 <= d < n ->
  path_full n (view ents occ) (hash_of n e) d ->
  view ents occ (at_ n (hash_of n e) d) = None -> ~ member n (view ents occ) e ->
  let slot := at_ n (hash_of n e) d in
  let ents' := <[Z.to_nat slot := e]> ents in
  let occ' := <[Z.to_nat slot := 1]> occ in
  poke ents slot e = Done ents' /\ poke occ slot 1 = Done occ' /\
  arrays n ents' occ' /\ table n (hash_of n) (view ents' occ') /\
  (forall e', member n (view ents' occ') e' <-> e' = e \/ member n (view ents occ) e') /\
  count occ' = count occ + 1.
Proof.
  intros (Hcap & He & Ho) Ht Hd Hpath Hfree Hnew slot ents' occ'.
  pose proof (capacity_bounds n Hcap).
  pose proof (at_range n ltac:(lia) (hash_of n e) d) as Hslot. fold slot in Hslot.
  assert (Hview : forall i, 0 <= i < n -> add (view ents occ) slot e i = view ents' occ' i).
  { intros i Hi. symmetry. apply view_insert; lia. }
  split_and!; [apply poke_in_range; lia..| | | |].
  - subst ents' occ'. split_and!; [done|by rewrite zlen_insert..].
  - eapply table_ext; [lia|done|]. apply table_add; done || lia.
  - intros e'. rewrite <- (member_ext n _ _ e' Hview). by apply member_add; [lia|].
  - apply count_insert. unfold view in Hfree. fold slot in Hfree.
    destruct (occ !! Z.to_nat slot) as [o|] eqn:E.
    + destruct (lookup_lt_is_Some_2 ents (Z.to_nat slot)) as [x Hx]; [unfold zlen in *; lia|].
      rewrite Hx in Hfree. case_decide; [done|]. f_equal. lia.
    + apply lookup_ge_None in E. unfold zlen in *. lia.
Qed.

(** ** Sets *)

(** [represents s X]: the set holds exactly the pairs of [X]. *)
Record represents (s : bc_io_file_inode_set_t) (X : gset (Z * Z)) : Prop := {
  rep_arrays : arrays (capacity s) (entries s) (occupied s);
  rep_table : table (capacity s) (hash_of (capacity s)) (view (entries s) (occupied s));
  rep_member e : e ∈ X <-> member (capacity s) (view (entries s) (occupied s)) e;
  rep_count : set_size s = count (occupied s);
  rep_size : set_size s = Z.of_nat (size X);
  rep_load : 4 * set_size s <= 3 * capacity s;
}.

(** A table without entries. *)
Lemma represents_empty block ents n :
  capacity_ok n -> zlen ents = n -> represents (mk_set block ents (zrepeat 0 n) n 0) ∅.
Proof.
  intros Hcap He. pose proof (capacity_bounds n Hcap).
  assert (Hnone : forall i, view ents (zrepeat 0 n) i = None).
  { intros i. unfold view. destruct (zrepeat 0 n !! Z.to_nat i) eqn:E; [|done].
    apply lookup_replicate in E as [-> _]. destruct (ents !! _); [by rewrite decide_False by lia|done]. }
  split; simpl; [split_and!; [done|done|rewrite zlen_zrepeat; lia]| | |by rewrite count_zeros
    |done|lia].
  - split; [intros i e _|intros i j e _ _]; by rewrite Hnone.
  - intros e. split; [set_solver|]. intros (i & _ & H'). by rewrite Hnone in H'.
Qed.

Lemma represents_probe fuel s X e :
  represents s X -> (Z.to_nat (capacity s) <= fuel)%nat ->
  safe (probe_loop fuel (entries s) (occupied s) e.1 e.2 (capacity s -u 1)
          (hash_of (capacity s) e))
    (fun '(found, slot) =>
       if found : bool then e ∈ X
       else e ∉ X /\ exists d, 0 <= d < capacity s /\ slot = at_ (capacity s) (hash_of (capacity s) e) d /\
              path_full (capacity s) (view (entries s) (occupied s)) (hash_of (capacity s) e) d /\
              view (entries s) (occupied s) slot = None).
Proof.
  intros [Ha Ht Hm Hc Hsz Hl] Hfuel. pose proof Ha as (Hcap & _ & _).
  pose proof (capacity_bounds _ Hcap) as Hb.
  destruct (free_on_path _ _ _ e Ha) as (f & Hf & Hfree); [lia|].
  pose proof (probe_loop_spec fuel _ _ _ e 0 f Ha) as Hprobe. rewrite <- (hash_at _ e Hcap) in Hprobe.
  eapply safe_mono; [apply Hprobe; [|lia|done|lia|lia]|].
  - split; intros j Hj; lia.
  - intros [found slot] (d & Hd & -> & H). destruct found.
    + apply Hm. eexists. split; [apply at_range; lia|done].
    + destruct H as [Hmiss Hnone]. split.
      * rewrite Hm. eapply missed_not_member; [done|apply Hd|done|done].
      * exists d. split_and!; try done; try lia. apply Hmiss.
Qed.

(** ** Growing *)

Lemma ztake_snoc {A} (l : list A) i x : peek l i = Done x -> ztake (i + 1) l = ztake i l ++ [x].
Proof.
  intros [Hi Hx]%peek_Done. unfold ztake. replace (Z.to_nat (i + 1)) with (S (Z.to_nat i)) by lia.
  by apply take_S_r.
Qed.

(** One turn of the copying loop. *)
Lemma rehash_loop_skip fuel todo old i n ents occ :
  peek (occupied old) i = Done 0 ->
  rehash_loop fuel (S todo) old i n ents occ = rehash_loop fuel todo old (i + 1) n ents occ.
Proof. intros E. simpl. by rewrite E. Qed.

Lemma rehash_loop_move fuel todo old i n ents occ o e slot ents' occ' :
  peek (occupied old) i = Done o -> o <> 0 -> peek (entries old) i = Done e ->
  free_slot_loop fuel occ (n -u 1) (hash_of n e) = Done slot ->
  poke ents slot e = Done ents' -> poke occ slot 1 = Done occ' ->
  rehash_loop fuel (S todo) old i n ents occ = rehash_loop fuel todo old (i + 1) n ents' occ'.
Proof.
  unfold hash_of. intros E1 Ho E2 E3 E4 E5. cbn [rehash_loop]. rewrite E1. cbn [mbind res_bind].
  rewrite decide_False by done. rewrite E2. cbn [mbind res_bind]. rewrite E3.
  cbn [mbind res_bind]. rewrite E4. cbn [mbind res_bind]. rewrite E5. done.
Qed.

(** The copying loop at slot [i]: the new table holds what the old one holds
    below [i]. *)
Lemma rehash_loop_spec fuel todo old X i n ents occ :
  represents old X -> arrays n ents occ -> table n (hash_of n) (view ents occ) ->
  0 <= i -> i + Z.of_nat todo = capacity old ->
  (forall e, member n (view ents occ) e <->
     exists j, 0 <= j < i /\ view (entries old) (occupied old) j = Some e) ->
  count occ = count (ztake i (occupied old)) -> set_size old < n -> (Z.to_nat n <= fuel)%nat ->
  safe (rehash_loop fuel todo old i n ents occ)
    (fun '(ents', occ') => arrays n ents' occ' /\ table n (hash_of n) (view ents' occ') /\
       (forall e, member n (view ents' occ') e <-> e ∈ X) /\ count occ' = set_size old).
Proof.
  intros [Ha0 Ht0 Hm0 Hc0 _ _]. pose proof Ha0 as (_ & He0 & Ho0).
  revert i ents occ. induction todo as [|todo IH]; intros i ents occ Ha Ht Hi Htodo Hm Hc Hn Hfuel.
  { simpl. replace i with (capacity old) in * by lia. rewrite ztake_all in Hc by lia.
    split_and!; [done|done| |lia]. intros e. by rewrite Hm, Hm0. }
  destruct (peek_in_range (occupied old) i) as [o Hpo]; [lia|].
  pose proof (peek_view_occupied (entries old) (occupied old) i o ltac:(lia) Hpo) as Hv.
  assert (Hcount : count (ztake (i + 1) (occupied old)) =
    count (ztake i (occupied old)) + (if decide (o = 0) then 0 else 1)).
  { rewrite (ztake_snoc _ _ _ Hpo), count_app, count_cons. change (count []) with 0. lia. }
  revert Hv Hcount. destruct (decide (o = 0)) as [->|Hne]; intros Hv Hcount.
  - rewrite rehash_loop_skip by done. apply IH; try done; try lia. intros e. rewrite Hm. split.
    + intros (j & Hj & E). exists j. split; [lia|done].
    + intros (j & Hj & E). destruct (decide (j = i)) as [->|]; [congruence|].
      exists j. split; [lia|done].
  - destruct Hv as (e & Hpe & Hv). pose proof Ha as (Hcap & He & Ho).
    pose proof (capacity_bounds n Hcap) as Hb.
    assert (count (ztake i (occupied old)) + 1 <= set_size old).
    { pose proof (count_app (ztake (i + 1) (occupied old)) (zdrop (i + 1) (occupied old))) as E.
      rewrite ztake_zdrop in E.
      pose proof (count_nonneg (zdrop (i + 1) (occupied old))). lia. }
    destruct (free_on_path n ents occ e Ha) as (f & Hf & Hfree); [lia|].
    pose proof (free_slot_loop_spec fuel n ents occ e 0 f Ha) as Hslot.
    rewrite <- (hash_at n e Hcap) in Hslot.
    apply safe_Done in Hslot as (slot & Eslot & d & Hd & -> & Hpath & Hnone);
      [|intros j Hj; lia|lia|done|lia|lia].
    assert (Hnew : ~ member n (view ents occ) e).
    { rewrite Hm. intros (j & Hj & E). assert (i = j); [|lia].
      eapply (table_unique _ _ _ Ht0); [lia|lia|done|done]. }
    destruct (store_entry n ents occ e d Ha Ht Hd Hpath Hnone Hnew)
      as (Hpoke1 & Hpoke2 & Ha' & Ht' & Hm' & Hc').
    erewrite rehash_loop_move by done. apply IH; try done; try lia.
    intros e'. rewrite Hm', Hm. split.
    + intros [->|(j & Hj & E)]; [exists i; split; [lia|done]|exists j; split; [lia|done]].
    + intros (j & Hj & E). destruct (decide (j = i)) as [->|]; [left; congruence|].
      right. exists j. split; [lia|done].
Qed.

Section inode_set_laws.
Context {PF : Platform} {PL : PlatformLaws PF}.

Lemma entries_of_bytes_length n bytes : length (entries_of_bytes n bytes) = n.
Proof. revert bytes. induction n as [|n IH]; intros bytes; simpl; [done|by rewrite IH]. Qed.

Lemma capacity_fits k :
  1 <= k <= 63 -> 2 ^ k * 16 + 2 ^ k < u64_modulus -> capacity_ok (2 ^ k).
Proof.
  intros Hk Hfit. exists k. split; [|done]. split; [lia|].
  destruct (decide (k <= 59)); [done|].
  assert (2 ^ 60 <= 2 ^ k) by (apply Z.pow_le_mono_r; lia). unfold u64_modulus in Hfit. lia.
Qed.

(** Buckets are allocated only for capacities that fit, and are empty. *)
Lemma allocate_buckets_spec k w :
  wf_world w -> 1 <= k <= 63 ->
  wp (bc_io_file_inode_set_allocate_buckets (2 ^ k))
    (fun r w' =>
       match r with
       | None => evolved (heap w) nothing w w'
       | Some (p, ents, occ) =>
           capacity_ok (2 ^ k) /\ heap w !! p = None /\ zlen ents = 2 ^ k /\ occ = zrepeat 0 (2 ^ k) /\
           evolved (<[p := ORaw]> (heap w)) (tokens [RPool p]) w w'
       end) w.
Proof.
  intros Hwf Hk. unfold bc_io_file_inode_set_allocate_buckets.
  rewrite core_safe_multiply_spec. case_decide as H16; [|wp_run; solve_evolved].
  rewrite core_safe_add_spec. case_decide as H17; [|wp_run; solve_evolved].
  unfold sizeof_bc_io_file_inode_set_entry_t in *.
  assert (Hpos : 0 < 2 ^ k) by (apply Z.pow_pos_nonneg; lia).
  wp_run; [|solve_evolved].
  match goal with H : 0 <= _ -> zlen _ = _ |- _ => specialize (H ltac:(lia)) as Hbytes end.
  split_and!.
  - by apply capacity_fits.
  - by apply wf_world_dom.
  - unfold zlen. rewrite entries_of_bytes_length. lia.
  - rewrite core_zero_spec, Hbytes. simpl. unfold zdrop, zrepeat. rewrite drop_replicate.
    f_equal. lia.
  - solve_evolved.
Qed.

(** [moved s s' w w']: the run from [w] to [w'] left the buckets of [s'] where
    those of [s] were, or replaced their block. *)
Definition moved (s s' : bc_io_file_inode_set_t) (w w' : world) : Prop :=
  (bucket_block s' = bucket_block s \/ heap w !! bucket_block s' = None) /\
  evolved (<[bucket_block s' := ORaw]> (delete (bucket_block s) (heap w)))
    (fun r => one r (RPool (bucket_block s')) - one r (RPool (bucket_block s))) w w'.

Lemma moved_refl s s' w :
  wf_world w -> heap w !! bucket_block s = Some ORaw -> bucket_block s' = bucket_block s ->
  moved s s' w w.
Proof.
  intros Hwf Hp Heq. unfold moved. rewrite Heq. split; [by left|].
  split; [|intros r; lia|done|done].
  by rewrite insert_delete_eq, insert_id.
Qed.

(** Growing doubles the capacity and keeps the pairs, or changes nothing. *)
Lemma grow_spec fuel s X w :
  wf_world w -> represents s X -> heap w !! bucket_block s = Some ORaw ->
  (Z.to_nat (2 * capacity s) <= fuel)%nat ->
  wp (bc_io_file_inode_set_grow fuel s)
    (fun '(ok, s') w' =>
       if ok : bool then represents s' X /\ capacity s' = 2 * capacity s /\ moved s s' w w'
       else s' = s /\ evolved (heap w) nothing w w') w.
Proof.
  intros Hwf Hs Hblock Hfuel. pose proof Hs as [((k & Hk & Ecap) & _) _ _ Hc Hsz Hl].
  pose proof (capacity_bounds (capacity s) (ex_intro _ k (conj Hk Ecap))) as Hb.
  unfold bc_io_file_inode_set_grow. rewrite wrap64_small by (unfold is_u64, u64_modulus; lia).
  assert (Enew : capacity s * 2 = 2 ^ (k + 1)) by (rewrite Z.pow_add_r by lia; lia).
  rewrite Enew. apply wp_bind. eapply wp_mono; [apply allocate_buckets_spec; [done|lia]|].
  intros [[[p ents] occ]|] w1; last (intros He; by apply wp_ret).
  intros (Hcap & Hp & Hlen & -> & He). pose proof (capacity_bounds _ Hcap) as Hb'.
  destruct (represents_empty p ents _ Hcap Hlen) as [Ha Ht Hm0 Hc0 _ _]. simpl in *.
  apply wp_bind, wp_lift.
  eapply safe_mono; [apply (rehash_loop_spec _ _ s X 0); [done|done|done|lia|lia| | |lia|lia]|].
  - intros e. rewrite <- Hm0. split; [set_solver|]. intros (j & Hj & _). lia.
  - by rewrite count_zeros.
  - intros [ents' occ'] (Ha' & Ht' & Hm' & Hc').
    destruct He as [Hh Hd Hw Hpat].
    assert (Hne : p <> bucket_block s) by congruence.
    apply wp_bind. eapply wp_pool_free; [rewrite Hh; by simplify_map_eq|].
    intros m Hm. apply wp_ret. split_and!.
    + split; try done; simpl; lia.
    + simpl. lia.
    + split; [by right|]. split; simpl; [rewrite Hh; apply delete_insert_ne; congruence| | |done].
      * intros r. unfold held. simpl. rewrite ledger_app. simpl. specialize (Hd r).
        unfold held in Hd. rewrite Hd. simpl. lia.
      * unfold wf_world in *. simpl. rewrite Hm, Hh, dom_delete_L, dom_insert_L in *. set_solver.
Qed.

(** Fuel for [k] more insertions: the capacity never exceeds three times the
    number of pairs. *)
Definition roomy (fuel : nat) (s : bc_io_file_inode_set_t) (k : Z) : Prop :=
  (Z.to_nat (Z.max (capacity s) (3 * (set_size s + k))) <= fuel)%nat.

(** Insertion into a set with room. *)
Lemma insert_with_room fuel s X e :
  represents s X -> 4 * (set_size s + 1) <= 3 * capacity s ->
  (Z.to_nat (capacity s) <= fuel)%nat ->
  safe ('(found, slot) ← probe_loop fuel (entries s) (occupied s) e.1 e.2 (capacity s -u 1)
                           (hash_of (capacity s) e);
        if (found : bool) then Done (Some true, s)
        else entries' ← poke (entries s) slot e;
             occupied' ← poke (occupied s) slot 1;
             Done (Some false, mk_set (bucket_block s) entries' occupied' (capacity s)
                                 (set_size s +u 1)))
    (fun '(r, s') => r = Some (bool_decide (e ∈ X)) /\ represents s' ({[e]} ∪ X) /\
       bucket_block s' = bucket_block s /\ capacity s' = capacity s /\
       set_size s' <= set_size s + 1).
Proof.
  intros Hs Hroom Hfuel.
  pose proof (represents_probe fuel s X e Hs Hfuel) as ([found slot] & E & H)%safe_Done.
  rewrite E. clear E. destruct found; simpl.
  { rewrite bool_decide_true by done. replace ({[e]} ∪ X) with X by set_solver.
    split_and!; try done. lia. }
  destruct H as (Hnotin & d & Hd & Eslot & Hpath & Hnone).
  destruct Hs as [Ha Ht Hm Hc Hsz Hl]. pose proof Ha as (Hcap & _).
  pose proof (capacity_bounds _ Hcap) as Hb.
  rewrite Eslot in Hnone.
  destruct (store_entry _ _ _ e d Ha Ht Hd Hpath Hnone) as (E1 & E2 & Ha' & Ht' & Hm' & Hc').
  { by rewrite <- Hm. }
  rewrite <- Eslot in *. clear Eslot. rewrite E1. simpl. rewrite E2. simpl.
  assert (Hsz0 : 0 <= set_size s) by lia.
  rewrite wrap64_small by (unfold is_u64, u64_modulus; lia).
  rewrite bool_decide_false by done. simpl. split_and!; [done| |done|done|lia].
  split; simpl; [done|done| |lia| |lia].
  - intros e'. rewrite Hm', <- Hm. set_solver.
  - rewrite size_union by set_solver. rewrite size_singleton. lia.
Qed.

Lemma wp_lift_eq {A B} (r : res A) (k : A -> M B) Q w (P : A -> Prop) :
  safe r P -> (forall a, P a -> wp (k a) Q w) -> wp (lift r ≫= k) Q w.
Proof. intros H Hk. apply wp_bind, wp_lift. by eapply safe_mono. Qed.

(** Insertion answers whether the pair was there, or fails and changes nothing. *)
Lemma insert_spec fuel s X device inode w :
  wf_world w -> represents s X -> heap w !! bucket_block s = Some ORaw -> roomy fuel s 1 ->
  wp (bc_io_file_inode_set_insert fuel s device inode)
    (fun '(r, s') w' =>
       moved s s' w w' /\ capacity s' <= Z.max (capacity s) (3 * (set_size s + 1)) /\
       set_size s' <= set_size s + 1 /\
       match r with
       | Some already => already = bool_decide ((device, inode) ∈ X) /\
           represents s' ({[(device, inode)]} ∪ X)
       | None => s' = s
       end) w.
Proof.
  intros Hwf Hs Hblock Hroom. unfold roomy in Hroom.
  pose proof Hs as [Ha _ _ _ Hsz Hl].
  pose proof (capacity_bounds _ (proj1 Ha)) as Hb. assert (Hsz0 : 0 <= set_size s) by lia.
  unfold bc_io_file_inode_set_insert.
  rewrite (wrap64_small (capacity s * 3)), (wrap64_small (set_size s + 1)) by (unfold is_u64, u64_modulus; lia).
  rewrite (wrap64_small ((set_size s + 1) * 4)) by (unfold is_u64, u64_modulus; lia).
  apply wp_bind. eapply (wp_mono _ (fun '(ok, s1) w1 =>
    moved s s1 w w1 /\ capacity s1 <= Z.max (capacity s) (3 * (set_size s + 1)) /\
    set_size s1 = set_size s /\
    if ok : bool then represents s1 X /\ 4 * (set_size s + 1) <= 3 * capacity s1 else s1 = s)).
  { case_decide as Hload.
    - eapply wp_mono; [apply grow_spec; try done; lia|].
      intros [[] s1] w1; [intros (Hs1 & Ecap & Hmoved)|intros [-> He]].
      + split_and!; try done; try lia. rewrite (rep_size _ _ Hs1). lia.
      + split_and!; try done; try lia. split; [by left|]. eapply evolved_ext; [done| |].
        * by rewrite insert_delete_eq, insert_id.
        * intros r. unfold nothing. lia.
    - apply wp_ret. split_and!; try done; try lia. by apply moved_refl. }
  intros [[] s1] w1 (Hmoved & Hcap1 & Hsize1 & H); simpl; last first.
  { subst s1. apply wp_ret. split_and!; done || lia. }
  destruct H as [Hs1 Hload].
  pose proof (insert_with_room fuel s1 X (device, inode) Hs1 ltac:(lia) ltac:(lia)) as H.
  unfold hash_of in H. simpl in H.
  destruct (probe_loop fuel (entries s1) (occupied s1) device inode _ _) as [[found slot]| |]; simpl in H; try done.
  apply wp_bind, wp_lift; simpl. destruct found; simpl in H.
  - destruct H as ([= H1] & H2 & H3 & H4 & H5). apply wp_ret. split_and!; try done; lia.
  - destruct (poke (entries s1) slot _) as [ents'| |]; simpl in H; try done.
    apply wp_bind, wp_lift; simpl.
    destruct (poke (occupied s1) slot 1) as [occ'| |]; simpl in H; try done.
    apply wp_bind, wp_lift; simpl.
    destruct H as ([= H1] & H2 & H3 & H4 & H5). apply wp_ret. simpl in *. split_and!; try done; lia.
Qed.

Lemma contains_spec fuel s X device inode :
  represents s X -> (Z.to_nat (capacity s) <= fuel)%nat ->
  bc_io_file_inode_set_contains fuel s device inode = Done (bool_decide ((device, inode) ∈ X)).
Proof.
  intros Hs Hfuel. unfold bc_io_file_inode_set_contains.
  pose proof (represents_probe fuel s X (device, inode) Hs Hfuel) as ([found slot] & E & H)%safe_Done.
  unfold hash_of in E. simpl in E. rewrite E. simpl. f_equal. symmetry. destruct found.
  - by apply bool_decide_true.
  - destruct H as [H _]. by apply bool_decide_false.
Qed.

Lemma clear_spec s X : represents s X -> represents (bc_io_file_inode_set_clear s) ∅.
Proof.
  intros [(Hcap & He & Ho) _ _ _ _ _]. unfold bc_io_file_inode_set_clear.
  rewrite ztake_all, zdrop_all, app_nil_r, core_zero_spec, Ho by lia. simpl.
  by apply represents_empty.
Qed.

Lemma round_up_spec fuel value :
  0 <= value <= 2 ^ 63 -> (64 <= fuel)%nat ->
  safe (bc_io_file_inode_set_round_up_to_power_of_two fuel value)
    (fun r => Z.max 2 value <= r <= Z.max 2 (2 * value) /\ exists k, 1 <= k <= 63 /\ r = 2 ^ k /\
       forall j, 1 <= j -> value <= 2 ^ j -> r <= 2 ^ j).
Proof.
  intros Hv Hfuel. unfold bc_io_file_inode_set_round_up_to_power_of_two. case_decide as H2.
  { simpl. split; [lia|]. exists 1. split_and!; [lia|lia|done|]. intros j Hj _.
    change 2 with (2 ^ 1) at 1. apply Z.pow_le_mono_r; lia. }
  eapply safe_mono; [apply (round_up_loop_spec fuel value 0); lia|].
  intros r (Hr & k & Hk & ->). split; [lia|]. exists k.
  assert (k <> 0) by (intros ->; lia). split_and!; [lia|lia|done|]. intros j Hj Hvj.
  apply Z.pow_le_mono_r; [lia|]. destruct (decide (k <= j)); [done|].
  assert (2 ^ (j + 1) <= 2 ^ k) by (apply Z.pow_le_mono_r; lia).
  rewrite Z.pow_add_r in * by lia. lia.
Qed.

(** The capacity a set is created with, before rounding. *)
Definition requested (initial_capacity : Z) : Z :=
  if decide (initial_capacity = 0) then BC_IO_INODE_SET_DEFAULT_CAPACITY else initial_capacity.

Lemma create_spec fuel initial_capacity w :
  wf_world w -> 0 <= initial_capacity <= 2 ^ 63 -> (64 <= fuel)%nat ->
  wp (bc_io_file_inode_set_create fuel initial_capacity)
    (fun r w' =>
       match r with
       | None => evolved (heap w) nothing w w'
       | Some p => exists s, represents s ∅ /\
           requested initial_capacity <= capacity s <= Z.max 2 (2 * requested initial_capacity) /\
           heap w !! p = None /\ heap w !! bucket_block s = None /\ p <> bucket_block s /\
           evolved (<[p := OSet s]> (<[bucket_block s := ORaw]> (heap w)))
             (tokens [RPool p; RPool (bucket_block s)]) w w'
       end) w.
Proof.
  intros Hwf Hinit Hfuel. unfold bc_io_file_inode_set_create. fold (requested initial_capacity).
  eapply wp_lift_eq; [apply round_up_spec; [|done]|].
  { unfold requested, BC_IO_INODE_SET_DEFAULT_CAPACITY. case_decide; lia. }
  intros n (Hn & k & Hk & -> & _). apply wp_bind, wp_pool_allocate.
  - intros p m Hp0 Hp Hm.
    assert (Hfresh : heap w !! p = None) by by apply wf_world_dom.
    set (w1 := after_alloc _ _ _ _).
    assert (He1 : evolved (<[p := ORaw]> (heap w)) (tokens [RPool p]) w w1) by solve_evolved.
    apply wp_bind. eapply wp_mono; [apply allocate_buckets_spec; [apply He1|done]|].
    rewrite (evolved_heap _ _ _ _ He1).
    intros [[[b ents] occ]|] w2.
    + intros (Hcap & Hb & Hlen & -> & He2). apply lookup_insert_None in Hb as [Hb Hne].
      apply wp_bind. eapply wp_store; [rewrite (evolved_heap _ _ _ _ He2); by simplify_map_eq|].
      apply wp_ret. exists (mk_set b ents (zrepeat 0 (2 ^ k)) (2 ^ k) 0). simpl.
      split_and!; try done; try lia; [by apply represents_empty|].
      pose proof (evolved_trans _ _ _ _ _ _ _ He1 He2) as [Hh Hd Hw Hpat].
      split; simpl; [| | |done].
      * rewrite Hh, (insert_insert_ne _ p b), insert_insert_eq by done. by apply insert_insert_ne.
      * intros r. change (held (mk_world _ _ _ _ _) r) with (held w2 r). rewrite Hd. simpl. lia.
      * unfold wf_world in *. simpl. rewrite Hh, !dom_insert_L in *. set_solver.
    + intros He2. pose proof (evolved_trans _ _ _ _ _ _ _ He1 He2) as [Hh Hd Hw Hpat].
      apply wp_bind. eapply wp_pool_free; [rewrite Hh; by simplify_map_eq|].
      intros m' Hm'. apply wp_ret. split; simpl; [| | |done].
      * rewrite Hh. by rewrite delete_insert_eq, delete_id.
      * intros r. unfold held in *. simpl. rewrite ledger_app, Hd. unfold nothing. simpl. lia.
      * unfold wf_world in *. simpl. rewrite Hm', Hh, dom_delete_L, dom_insert_L in *. set_solver.
  - intros m Hm. apply wp_ret. solve_evolved.
Qed.

Lemma destroy_spec p s w :
  wf_world w -> heap w !! p = Some (OSet s) -> heap w !! bucket_block s = Some ORaw ->
  wp (bc_io_file_inode_set_destroy p)
    (fun _ w' => evolved (delete p (delete (bucket_block s) (heap w)))
       (fun r => - tokens [RPool p; RPool (bucket_block s)] r) w w') w.
Proof.
  intros Hwf Hp Hb. assert (Hne : p <> bucket_block s) by congruence.
  apply wp_bind. eapply wp_load_set; [done|].
  apply wp_bind. eapply wp_pool_free; [done|]. intros m Hm.
  eapply wp_pool_free; [simpl; by simplify_map_eq|]. intros m' Hm'.
  split; simpl; [done|intros r; held_lia| |done].
  unfold wf_world in *. simpl in *. rewrite Hm', Hm, !dom_delete_L. set_solver.
Qed.

(** ** A client's session *)

Definition run_set_op (fuel : nat) (s : bc_io_file_inode_set_t) (op : set_op)
    : M (set_answer * bc_io_file_inode_set_t) :=
  match op with
  | Insert d i =>
      '(r, s) ← bc_io_file_inode_set_insert fuel s d i;
      mret (match r with Some b => Present b | None => Refused end, s)
  | Contains d i =>
      b ← lift (bc_io_file_inode_set_contains fuel s d i);
      mret (Present b, s)
  | Clear => mret (Cleared, bc_io_file_inode_set_clear s)
  | GetSize => mret (Size (bc_io_file_inode_set_get_size s), s)
  end.

Fixpoint run_set_ops (fuel : nat) (s : bc_io_file_inode_set_t) (ops : list set_op)
    : M (list set_answer * bc_io_file_inode_set_t) :=
  match ops with
  | [] => mret ([], s)
  | op :: ops =>
      '(a, s) ← run_set_op fuel s op;
      '(answers, s) ← run_set_ops fuel s ops;
      mret (a :: answers, s)
  end.

(** Create a set, make the calls, destroy it. *)
Definition set_session (fuel : nat) (initial_capacity : Z) (ops : list set_op)
    : M (option (list set_answer)) :=
  set ← bc_io_file_inode_set_create fuel initial_capacity;
  match set with
  | None => mret None
  | Some p =>
      s ← load_set p;
      '(answers, s) ← run_set_ops fuel s ops;
      store p (OSet s);;
      bc_io_file_inode_set_destroy p;;
      mret (Some answers)
  end.

(** [holds w0 p s w]: since [w0], the process took the block [p] and the buckets
    of [s], and nothing else. *)
Definition holds (w0 : world) (p : Z) (s : bc_io_file_inode_set_t) (w : world) : Prop :=
  heap w0 !! p = None /\ heap w0 !! bucket_block s = None /\ p <> bucket_block s /\
  exists s0, evolved (<[p := OSet s0]> (<[bucket_block s := ORaw]> (heap w0)))
    (tokens [RPool p; RPool (bucket_block s)]) w0 w.

Lemma holds_lookup w0 p s w :
  holds w0 p s w -> wf_world w /\ heap w !! bucket_block s = Some ORaw.
Proof.
  intros (_ & _ & Hne & s0 & [Hh _ Hw _]). split; [done|]. rewrite Hh. by simplify_map_eq.
Qed.

Lemma holds_moved w0 p s s' w w' : holds w0 p s w -> moved s s' w w' -> holds w0 p s' w'.
Proof.
  intros (Hp & Hb & Hne & s0 & He) [Hfresh He']. pose proof He as [Hh _ _ _].
  assert (Hb' : heap w0 !! bucket_block s' = None /\ p <> bucket_block s').
  { destruct Hfresh as [->|Hnone]; [done|]. rewrite Hh in Hnone.
    apply lookup_insert_None in Hnone as [Hnone ?].
    by apply lookup_insert_None in Hnone as [? _]. }
  split_and!; [done|apply Hb'..|]. exists s0.
  eapply evolved_ext; [eapply evolved_trans; [exact He|exact He']| |].
  - rewrite Hh. rewrite (delete_insert_ne _ _ p), delete_insert_eq, delete_id by done.
    apply insert_insert_ne. naive_solver.
  - intros r. simpl. lia.
Qed.

(** One call does what the specification allows. *)
Lemma run_set_op_spec fuel s X op w0 p w :
  holds w0 p s w -> represents s X -> roomy fuel s 1 ->
  wp (run_set_op fuel s op)
    (fun '(a, s') w' => holds w0 p s' w' /\ (exists X', set_step X op a = Some X' /\ represents s' X') /\
       capacity s' <= Z.max (capacity s) (3 * (set_size s + 1)) /\ set_size s' <= set_size s + 1) w.
Proof.
  intros Hh Hs Hroom. destruct (holds_lookup _ _ _ _ Hh) as [Hwf Hblock].
  assert (0 <= set_size s) by (rewrite (rep_size _ _ Hs); lia).
  destruct op as [d i|d i| |]; simpl.
  - apply wp_bind. eapply wp_mono; [by apply insert_spec|].
    intros [[b|] s'] w' (Hmoved & Hcap & Hsize & Hr); apply wp_ret; split_and!; try done.
    + by eapply holds_moved.
    + destruct Hr as [-> Hs']. exists ({[(d, i)]} ∪ X). simpl. by rewrite decide_True.
    + by eapply holds_moved.
    + subst s'. by exists X.
  - rewrite (contains_spec fuel s X d i Hs) by (unfold roomy in Hroom; lia).
    apply wp_bind, wp_lift, wp_ret. split_and!; [done| |lia|lia].
    exists X. simpl. by rewrite decide_True.
  - apply wp_ret. split_and!; [done| |simpl; lia|simpl; lia]. exists ∅. split; [done|].
    by eapply clear_spec.
  - apply wp_ret. split_and!; [done| |lia|lia]. exists X. simpl.
    unfold bc_io_file_inode_set_get_size. by rewrite decide_True by apply Hs.
Qed.

Lemma run_set_ops_spec fuel s X ops w0 p w :
  holds w0 p s w -> represents s X -> roomy fuel s (zlen ops) ->
  wp (run_set_ops fuel s ops)
    (fun '(answers, s') w' => holds w0 p s' w' /\ exists X', set_run X ops answers = Some X') w.
Proof.
  revert s X w. induction ops as [|op ops IH]; intros s X w Hh Hs Hroom; simpl.
  { apply wp_ret. split; [done|]. by exists X. }
  assert (0 <= set_size s) by (rewrite (rep_size _ _ Hs); lia).
  unfold roomy in *. rewrite zlen_cons in Hroom. pose proof (zlen_nonneg ops).
  apply wp_bind. eapply wp_mono; [apply run_set_op_spec; [done|done|unfold roomy; lia]|].
  intros [a s1] w1 (Hh1 & (X1 & Hstep & Hs1) & Hcap & Hsize).
  apply wp_bind. eapply wp_mono; [apply (IH s1 X1); [done|done|lia]|].
  intros [answers s'] w' (Hh' & X' & Hrun). apply wp_ret. split; [done|]. exists X'.
  simpl. by rewrite Hstep.
Qed.

(** The two ends of a session. *)
Lemma create_holds fuel initial_capacity w :
  wf_world w -> 0 <= initial_capacity <= 2 ^ 63 -> (64 <= fuel)%nat ->
  wp (bc_io_file_inode_set_create fuel initial_capacity)
    (fun r w' =>
       match r with
       | None => evolved (heap w) nothing w w'
       | Some p => exists s, represents s ∅ /\ holds w p s w' /\ heap w' !! p = Some (OSet s) /\
           capacity s <= Z.max 2 (2 * requested initial_capacity)
       end) w.
Proof.
  intros Hwf Hinit Hfuel. eapply wp_mono; [by apply create_spec|]. intros [p|] w1; [|done].
  intros (s & Hs & Hcap & Hp & Hb & Hne & He). exists s. split; [done|]. split.
  { split_and!; try done. by exists s. }
  split; [|lia]. rewrite (evolved_heap _ _ _ _ He). by simplify_map_eq.
Qed.

Lemma finish_set {A} p s w0 w (k : M A) Q :
  holds w0 p s w -> (forall w', evolved (heap w0) nothing w0 w' -> wp k Q w') ->
  wp (store p (OSet s);; bc_io_file_inode_set_destroy p;; k) Q w.
Proof.
  intros (Hp & Hb & Hne & s0 & [Hh Hd Hw Hpat]) Hk.
  apply wp_bind. eapply wp_store; [rewrite Hh; by simplify_map_eq|].
  apply wp_bind. eapply wp_mono; [apply (destroy_spec _ s)|].
  - unfold wf_world in *. simpl. rewrite Hh, !dom_insert_L in *. set_solver.
  - simpl. by simplify_map_eq.
  - simpl. rewrite Hh. by simplify_map_eq.
  - intros ? w3 [Hh3 Hd3 Hw3 Hpat3]. apply Hk. split; [| |done|simpl in *; lia].
    + rewrite Hh3. simpl. rewrite Hh. rewrite insert_insert_eq, delete_insert_ne by done.
      rewrite delete_insert_eq, delete_insert_eq. by rewrite !delete_id by (rewrite ?lookup_delete_ne by done; done).
    + intros r. rewrite Hd3. change (held (mk_world _ _ _ _ _) r) with (held w r). rewrite Hd. unfold nothing. lia.
Qed.

(** ** Properties *)

(** C2. An inode set is a set.  For every initial capacity up to 2^63 and every
    sequence of insert, contains, clear and size calls, whatever the allocator
    refuses: creation fails, or every answer is the one of a mathematical set of
    (device, inode) pairs (an insertion may be refused and then changes nothing);
    probing always ends; and destroying the set gives back every block, those
    replaced by growing included. *)
Theorem inode_set_refines_set fuel initial_capacity ops w :
  wf_world w -> 0 <= initial_capacity <= 2 ^ 63 ->
  (64 + Z.to_nat (Z.max (2 * requested initial_capacity) (3 * zlen ops)) <= fuel)%nat ->
  wp (set_session fuel initial_capacity ops)
    (fun r w' => heap w' = heap w /\ (forall x, held w' x = held w x) /\
       match r with
       | Some answers => exists X, set_run ∅ ops answers = Some X
       | None => True
       end) w.
Proof.
  intros Hwf Hinit Hfuel. apply wp_bind. eapply wp_mono; [apply create_holds; [done|done|lia]|].
  intros [p|] w1; last (intros [? ?]%evolved_balanced; by apply wp_ret).
  intros (s & Hs & Hholds & Hp & Hcap). apply wp_bind. eapply wp_load_set; [done|].
  apply wp_bind. eapply wp_mono; [apply (run_set_ops_spec fuel s ∅ ops w p); [done|done|]|].
  - unfold roomy. rewrite (rep_size _ _ Hs), size_empty. lia.
  - intros [answers s'] w2 (Hholds' & X & Hrun). eapply finish_set; [done|]. intros w' [Hh Hd]%evolved_balanced.
    apply wp_ret. split_and!; try done. by exists X.
Qed.

(** C25. One insertion, on every path.  It needs no growth, or grows first, or is
    refused because it cannot grow; it answers whether the pair was there, and
    afterwards the table holds it, is at most three quarters full, and every pair
    is still reached by probing from its hash. *)
Theorem insert_keeps_table fuel s X device inode w :
  wf_world w -> represents s X -> heap w !! bucket_block s = Some ORaw -> roomy fuel s 1 ->
  wp (bc_io_file_inode_set_insert fuel s device inode)
    (fun '(r, s') w' =>
       match r with
       | Some already =>
           already = bool_decide ((device, inode) ∈ X) /\
           represents s' ({[(device, inode)]} ∪ X) /\
           bc_io_file_inode_set_contains fuel s' device inode = Done true
       | None => s' = s
       end) w.
Proof.
  intros Hwf Hs Hb Hroom. pose proof (rep_size _ _ Hs) as Hsz.
  eapply wp_mono; [by apply insert_spec|].
  intros [[b|] s'] w' (_ & Hcap & _ & H); [|done]. destruct H as [-> Hs']. split_and!; [done..|].
  rewrite (contains_spec fuel s' _ device inode Hs') by (unfold roomy in Hroom; lia).
  by rewrite bool_decide_true by set_solver.
Qed.

(** C34. Rounding a capacity up gives the least power of two that is not below the
    capacity and not below 2, within 64 turns of the loop, for every capacity up
    to 2^63; a capacity of 0 or 1 gives 2. *)
Theorem round_up_least_power fuel value :
  0 <= value <= 2 ^ 63 -> (64 <= fuel)%nat ->
  exists k, 1 <= k <= 63 /\
    bc_io_file_inode_set_round_up_to_power_of_two fuel value = Done (2 ^ k) /\
    Z.max 2 value <= 2 ^ k /\ forall j, 0 <= j -> Z.max 2 value <= 2 ^ j -> 2 ^ k <= 2 ^ j.
Proof.
  intros Hv Hfuel.
  pose proof (round_up_spec fuel value Hv Hfuel) as (r & E & Hr & k & Hk & -> & Hmin)%safe_Done.
  pose proof (Z.pow_le_mono_r 2 1 k ltac:(lia) ltac:(lia)).
  exists k. split; [lia|]. split; [done|]. split; [lia|]. intros j Hj Hle.
  apply Hmin; [|lia]. destruct (decide (j = 0)) as [->|]; lia.
Qed.

(** C35. Above 2^63 the rounding loop never ends: the word it shifts becomes 0 and
    stays 0.  [bc_io_file_inode_set_create] with such a capacity does not return,
    however long it runs. *)
Theorem create_diverges fuel initial_capacity w :
  2 ^ 63 < initial_capacity < u64_modulus ->
  bc_io_file_inode_set_create fuel initial_capacity w = OutOfFuel.
Proof.
  intros H. unfold bc_io_file_inode_set_create. rewrite decide_False by lia.
  unfold bc_io_file_inode_set_round_up_to_power_of_two. rewrite decide_False by lia.
  rewrite round_up_loop_diverges; [done|lia|]. right. by exists 0.
Qed.
End inode_set_laws.

(** ** Witnesses *)

(** An allocator that refuses its third request. *)
Definition tight_world : world :=
  mk_world quiet_script (mk_pool ∅ [false; false; true]) 0 ∅ [].

Lemma tight_world_wf : wf_world tight_world.
Proof. unfold wf_world. simpl. set_solver. Qed.

(** The second insertion has to grow and is refused; the third grows. *)
Definition set_ops : list set_op :=
  [Insert 1 10; Insert 1 11; Contains 1 11; Insert 1 11; Insert 1 10; GetSize; Clear; Contains 1 10].

Example set_session_run :
  safe (set_session 200 2 set_ops tight_world)
    (fun '(answers, w) => answers = Some [Present false; Refused; Present false; Present false;
       Present true; Size 2; Cleared; Present false]).
Proof. by vm_compute. Qed.

Lemma inode_set_refines_set_witness :
  wp (set_session 200 2 set_ops)
    (fun r w' => heap w' = ∅ /\ (forall x, held w' x = 0) /\
       match r with
       | Some answers => exists X, set_run ∅ set_ops answers = Some X
       | None => True
       end) tight_world.
Proof.
  apply (inode_set_refines_set 200 2 set_ops tight_world); [exact tight_world_wf|concrete|concrete].
Defined.

(** An empty set of two slots whose buckets are at address 1. *)
Definition two_slots : bc_io_file_inode_set_t :=
  mk_set 1 [(0, 0); (0, 0)] [0; 0] 2 0.

Definition two_slots_world : world :=
  mk_world quiet_script (mk_pool {[1]} []) 0 {[1 := ORaw]} [].

Lemma insert_keeps_table_witness :
  wp (bc_io_file_inode_set_insert 10 two_slots 3 4)
    (fun '(r, s') w' =>
       match r with
       | Some already =>
           already = bool_decide ((3, 4) ∈ (∅ : gset (Z * Z))) /\
           represents s' ({[(3, 4)]} ∪ ∅) /\
           bc_io_file_inode_set_contains 10 s' 3 4 = Done true
       | None => s' = two_slots
       end) two_slots_world.
Proof.
  assert (Hwf : wf_world two_slots_world) by (unfold wf_world; simpl; set_solver).
  assert (Hs : represents two_slots ∅).
  { apply (represents_empty 1 [(0, 0); (0, 0)] 2); [by exists 1|done]. }
  apply (insert_keeps_table 10 two_slots ∅ 3 4 two_slots_world Hwf Hs eq_refl).
  unfold roomy. concrete.
Defined.

Lemma round_up_least_power_witness :
  exists k, 1 <= k <= 63 /\
    bc_io_file_inode_set_round_up_to_power_of_two 64 1000 = Done (2 ^ k) /\
    Z.max 2 1000 <= 2 ^ k /\ forall j, 0 <= j -> Z.max 2 1000 <= 2 ^ j -> 2 ^ k <= 2 ^ j.
Proof. apply (round_up_least_power 64 1000); [lia|lia]. Defined.

Lemma create_diverges_witness :
  bc_io_file_inode_set_create 1000 (2 ^ 63 + 1) (scripted_world quiet_script) = OutOfFuel.
Proof. apply create_diverges. concrete. Defined.
