(* ===== verification/FilePath.v ===== *)
(** * Paths, descriptors and metadata of files

    [src/file/bc_io_file_path.c], [src/file/bc_io_file_stat.c] and
    [src/path/bc_io_path.c]: opening for reading with the O_NOATIME fallback,
    joining paths, the type of a directory entry, [stat] as a struct of flags,
    advice, and the current directory. *)

From S2P Require Import Prelude Platform Objects Machine Scripted.

Definition BC_IO_MAX_PATH_LENGTH : Z := 4096.

Inductive bc_io_file_entry_type_t :=
| BC_IO_ENTRY_TYPE_FILE
| BC_IO_ENTRY_TYPE_DIRECTORY
| BC_IO_ENTRY_TYPE_SYMLINK
| BC_IO_ENTRY_TYPE_OTHER.
#[export] Instance entry_type_eq_dec : EqDecision bc_io_file_entry_type_t.
Proof. solve_decision. Defined.

Record bc_io_file_stat_t := mk_file_stat {
  is_regular : bool;
  is_directory : bool;
  is_symlink : bool;
  is_character_device : bool;
  is_block_device : bool;
  is_fifo : bool;
  is_socket : bool;
  size_bytes : Z;
  stat_mode : Z;
  modification_time_seconds : Z;
  modification_time_nanoseconds : Z;
  hardlink_count : Z;
  owner_user_id : Z;
  group_id : Z;
  device_id : Z;
  inode_number : Z;
}.

(** [sizeof(bc_io_file_stat_t)] (x86-64 layout). *)
Definition sizeof_bc_io_file_stat_t : Z := 80.

(** ** Entry types *)

Definition bc_io_file_dtype_to_entry_type (d_type : Z) : bc_io_file_entry_type_t :=
  if decide (d_type = DT_REG) then BC_IO_ENTRY_TYPE_FILE
  else if decide (d_type = DT_DIR) then BC_IO_ENTRY_TYPE_DIRECTORY
  else if decide (d_type = DT_LNK) then BC_IO_ENTRY_TYPE_SYMLINK
  else BC_IO_ENTRY_TYPE_OTHER.

(** What [stat_if_unknown] stores. *)
Record resolved_t := mk_resolved {
  r_type : bc_io_file_entry_type_t;
  r_device : Z;
  r_inode : Z;
  r_size : Z;
  r_modification_time : Z;
}.

Definition BC_IO_FILE_STAT_PERMISSION_BITS_MASK : Z := 4095.

Definition hint_to_posix_advice (hint : bc_io_mmap_madvise_hint_t) : Z :=
  match hint with
  | BC_IO_MADVISE_NORMAL => POSIX_FADV_NORMAL
  | BC_IO_MADVISE_SEQUENTIAL => POSIX_FADV_SEQUENTIAL
  | BC_IO_MADVISE_RANDOM => POSIX_FADV_RANDOM
  | BC_IO_MADVISE_WILLNEED => POSIX_FADV_WILLNEED
  | BC_IO_MADVISE_DONTNEED => POSIX_FADV_DONTNEED
  end.

Section file_path.
Context {PF : Platform}.

Definition bc_io_file_open_for_read (path : list Z) (additional_flags : Z) : M (option Z) :=
  let flags_with_noatime :=
    Z.lor (Z.lor (Z.lor (Z.lor O_RDONLY O_CLOEXEC) O_NOFOLLOW) O_NOATIME) additional_flags in
  file_descriptor ← open_ path flags_with_noatime 0;
  e ← get_errno;
  file_descriptor ← (if decide (file_descriptor < 0 /\ e = EPERM) then
                       let flags_without_noatime :=
                         Z.lor (Z.lor (Z.lor O_RDONLY O_CLOEXEC) O_NOFOLLOW) additional_flags in
                       open_ path flags_without_noatime 0
                     else mret file_descriptor);
  if decide (file_descriptor < 0) then mret None else mret (Some file_descriptor).

(** ** Joining *)

(** [bc_core_copy(block + offset, source, size)]. *)
Definition copy_into (block : list Z) (offset : Z) (source : list Z) (size : Z) : res (list Z) :=
  old ← span block offset size;
  data ← span source 0 size;
  blit block offset (core_copy old data).

(** [Some *out_length] on success, and the buffer. *)
Definition bc_io_file_path_join (buffer : list Z) (buffer_capacity : Z) (base : list Z)
    (base_length : Z) (name : list Z) (name_length : Z) : res (option Z * list Z) :=
  if decide (base_length = 0) then
    if decide (buffer_capacity < name_length +u 1) then Done (None, buffer)
    else
      buffer ← (if decide (0 < name_length) then copy_into buffer 0 name name_length
                else Done buffer);
      buffer ← poke buffer name_length 0;
      Done (Some name_length, buffer)
  else
    let total_length := base_length +u 1 +u name_length in
    if decide (buffer_capacity < total_length +u 1) then Done (None, buffer)
    else
      buffer ← copy_into buffer 0 base base_length;
      buffer ← poke buffer base_length (ch "/");
      buffer ← (if decide (0 < name_length)
                then copy_into buffer (base_length +u 1) name name_length else Done buffer);
      buffer ← poke buffer total_length 0;
      Done (Some total_length, buffer).

(** ** Metadata *)

Definition bc_io_file_stat_if_unknown (dirfd : Z) (name : list Z) : M (option resolved_t) :=
  r ← fstatat dirfd name AT_SYMLINK_NOFOLLOW;
  match r with
  | None => mret None
  | Some st =>
      let type := if S_ISREG (st_mode st) then BC_IO_ENTRY_TYPE_FILE
                  else if S_ISDIR (st_mode st) then BC_IO_ENTRY_TYPE_DIRECTORY
                  else if S_ISLNK (st_mode st) then BC_IO_ENTRY_TYPE_SYMLINK
                  else BC_IO_ENTRY_TYPE_OTHER in
      mret (Some (mk_resolved type (st_dev st) (st_ino st) (wrap64 (st_size st)) (st_mtime st)))
  end.

(** [out_stat] is what the struct holds before, as bytes. *)
Definition bc_io_file_stat_fill_from_struct_stat (source : stat_t) (out_stat : list Z)
    : option bc_io_file_stat_t :=
  if negb (core_zero out_stat).1 then None
  else
    let file_mode := st_mode source in
    Some (mk_file_stat (S_ISREG file_mode) (S_ISDIR file_mode) (S_ISLNK file_mode)
            (S_ISCHR file_mode) (S_ISBLK file_mode) (S_ISFIFO file_mode) (S_ISSOCK file_mode)
            (wrap64 (st_size source))
            (Z.land (wrap32 file_mode) BC_IO_FILE_STAT_PERMISSION_BITS_MASK)
            (st_mtime source) (signed32 (st_mtime_nsec source)) (wrap64 (st_nlink source))
            (wrap32 (st_uid source)) (wrap32 (st_gid source)) (wrap64 (st_dev source))
            (wrap64 (st_ino source))).

Definition bc_io_file_stat (path out_stat : list Z) : M (option bc_io_file_stat_t) :=
  r ← stat_ path;
  match r with
  | None => mret None
  | Some st => mret (bc_io_file_stat_fill_from_struct_stat st out_stat)
  end.

Definition bc_io_file_stat_lstat (path out_stat : list Z) : M (option bc_io_file_stat_t) :=
  r ← lstat path;
  match r with
  | None => mret None
  | Some st => mret (bc_io_file_stat_fill_from_struct_stat st out_stat)
  end.

(** ** Advice and the current directory *)

Definition bc_io_file_advise (fd offset length : Z) (hint : bc_io_mmap_madvise_hint_t) : M bool :=
  result ← posix_fadvise fd (signed64 offset) (signed64 length) (hint_to_posix_advice hint);
  if decide (result <> 0) then set_errno result;; mret false else mret true.

(** The buffer as [getcwd] leaves it, and [*out_length]. *)
Definition bc_io_path_current_directory (output_capacity : Z) : M (option (list Z * Z)) :=
  r ← getcwd output_capacity;
  match r with
  | None => mret None
  | Some output_buffer =>
      match core_length output_buffer 0 with
      | None => mret None
      | Some length => mret (Some (output_buffer, length))
      end
  end.

(** ** Lemmas *)

Section laws.
Context {PL : PlatformLaws PF}.

Lemma copy_into_spec block offset source n :
  0 <= n <= zlen source -> 0 <= offset -> offset + n <= zlen block ->
  copy_into block offset source n =
    Done (ztake offset block ++ ztake n source ++ zdrop (offset + n) block).
Proof.
  intros Hn Ho Hb. unfold copy_into. rewrite span_in_range by lia. simpl.
  rewrite span_in_range by lia. simpl. change (zdrop 0 source) with source.
  rewrite core_copy_spec by block_lia. rewrite blit_in_range by block_lia.
  do 4 f_equal. block_lia.
Qed.

Lemma poke_append {A} (pre rest : list A) x y :
  poke (pre ++ y :: rest) (zlen pre) x = Done (pre ++ x :: rest).
Proof.
  rewrite poke_in_range by block_lia. f_equal. unfold zlen. rewrite Nat2Z.id.
  rewrite insert_app_r_alt by lia. by rewrite Nat.sub_diag.
Qed.

Lemma poke_end {A} (pre block : list A) x :
  zlen pre < zlen block ->
  poke (pre ++ zdrop (zlen pre) block) (zlen pre) x = Done (pre ++ x :: zdrop (zlen pre + 1) block).
Proof.
  intros Hlt. destruct (peek_in_range block (zlen pre)) as [y Hy]; [block_lia|].
  apply peek_Done in Hy as [_ Hy].
  assert (E : zdrop (zlen pre) block = y :: zdrop (zlen pre + 1) block).
  { unfold zdrop. rewrite (drop_S _ y _ Hy). do 2 f_equal. block_lia. }
  rewrite E. apply poke_append.
Qed.

(** What [path_join] makes of its arguments. *)
Definition joined (base name : list Z) : list Z :=
  if decide (base = []) then name else base ++ ch "/" :: name.

Lemma ztake_nil_iff {A} n (l : list A) : 0 <= n <= zlen l -> ztake n l = [] <-> n = 0.
Proof.
  intros H. split; [|intros ->; done]. intros E. apply (f_equal zlen) in E.
  autorewrite with blocks in E. lia.
Qed.
Lemma ztake_exact {A} (l k : list A) n : n = zlen l -> ztake n (l ++ k) = l.
Proof. apply ztake_app. Qed.

Lemma path_join_spec buffer capacity base base_length name name_length :
  0 <= base_length <= zlen base -> 0 <= name_length <= zlen name ->
  base_length + name_length + 2 < u64_modulus -> capacity <= zlen buffer ->
  let path := joined (ztake base_length base) (ztake name_length name) in
  bc_io_file_path_join buffer capacity base base_length name name_length =
    Done (if decide (zlen path + 1 <= capacity)
          then (Some (zlen path), path ++ 0 :: zdrop (zlen path + 1) buffer)
          else (None, buffer)).
Proof.
  intros Hb Hn Hmax Hcap path. unfold bc_io_file_path_join.
  set (b := ztake base_length base) in *. set (nm := ztake name_length name) in *.
  assert (Hbn : b = [] <-> base_length = 0) by exact (ztake_nil_iff _ _ Hb).
  assert (Hzb : zlen b = base_length) by (subst b; block_lia).
  assert (Hzn : zlen nm = name_length) by (subst nm; block_lia).
  assert (Hcopy : forall block offset, 0 <= offset -> offset + name_length <= zlen block ->
    (if decide (0 < name_length) then copy_into block offset name name_length else Done block) =
      Done (ztake offset block ++ nm ++ zdrop (offset + name_length) block)).
  { intros block offset H0 Hle. case_decide; [by apply copy_into_spec; lia|].
    replace nm with (@nil Z) by (symmetry; apply zlen_nil_inv; lia).
    rewrite app_nil_l. by rewrite (ltac:(lia) : offset + name_length = offset), ztake_zdrop. }
  subst path. unfold joined. destruct (decide (base_length = 0)) as [E0|E0].
  - rewrite !(decide_True (P := b = [])) by tauto. rewrite Hzn.
    rewrite wrap64_small by (unfold is_u64; lia).
    destruct (decide (capacity < name_length + 1)).
    { by rewrite (decide_False (P := name_length + 1 <= capacity)) by lia. }
    rewrite (decide_True (P := name_length + 1 <= capacity)) by lia. rewrite Hcopy by lia. simpl.
    rewrite Z.add_0_l, <- Hzn, poke_end by lia. done.
  - rewrite !(decide_False (P := b = [])) by tauto.
    rewrite !(wrap64_small (base_length + 1)) by (unfold is_u64; lia).
    rewrite !(wrap64_small (base_length + 1 + name_length)) by (unfold is_u64; lia).
    rewrite (wrap64_small (base_length + 1 + name_length + 1)) by (unfold is_u64; lia).
    replace (zlen (b ++ ch "/" :: nm)) with (base_length + 1 + name_length) by block_lia.
    destruct (decide (capacity < base_length + 1 + name_length + 1)).
    { by rewrite (decide_False (P := base_length + 1 + name_length + 1 <= capacity)) by lia. }
    rewrite (decide_True (P := base_length + 1 + name_length + 1 <= capacity)) by lia.
    rewrite copy_into_spec by lia. simpl. fold b.
    rewrite Z.add_0_l, <- Hzb, poke_end by lia. simpl.
    replace (b ++ ch "/" :: zdrop (zlen b + 1) buffer) with ((b ++ [ch "/"]) ++ zdrop (zlen b + 1) buffer)
      by by rewrite <- app_assoc.
    rewrite Hcopy by block_lia.
    replace (zlen b + 1) with (zlen (b ++ [ch "/"])) by block_lia.
    rewrite ztake_exact by done. simpl.
    rewrite <- zdrop_zdrop by block_lia. rewrite zdrop_app by done.
    rewrite zdrop_zdrop by block_lia.
    replace (zlen (b ++ [ch "/"]) + name_length) with (zlen ((b ++ [ch "/"]) ++ nm)) by block_lia.
    rewrite app_assoc, poke_end by block_lia. simpl. by rewrite <- !app_assoc.
Qed.

Definition noatime_flags (extra : Z) : Z :=
  Z.lor (Z.lor (Z.lor (Z.lor O_RDONLY O_CLOEXEC) O_NOFOLLOW) O_NOATIME) extra.
Definition plain_flags (extra : Z) : Z :=
  Z.lor (Z.lor (Z.lor O_RDONLY O_CLOEXEC) O_NOFOLLOW) extra.

(** Both say where they do not follow a link and close on exec. *)
Lemma land_lor_absorb a b c : Z.land a c = c -> Z.land (Z.lor a b) c = c.
Proof.
  intros E. rewrite Z.land_lor_distr_l, E. apply Z.bits_inj'. intros n Hn.
  rewrite Z.lor_spec, Z.land_spec. by destruct (Z.testbit c n), (Z.testbit b n).
Qed.

Definition guarded (flags : Z) : Prop :=
  Z.land flags O_NOFOLLOW = O_NOFOLLOW /\ Z.land flags O_CLOEXEC = O_CLOEXEC.

Lemma open_flags_guarded extra : guarded (noatime_flags extra) /\ guarded (plain_flags extra).
Proof. by split; split; apply land_lor_absorb. Qed.

(** [answered r e answer]: [r] is the descriptor of the answer, or [e] its error. *)
Definition answered (r : option Z) (e : Z) (answer : sysret Z) : Prop :=
  match answer with
  | SysOk fd => r = Some fd
  | SysErr e' => r = None /\ e = e'
  end.

(** What [open_for_read] is to do when the kernel's answer to the first open is
    [first]. *)
Definition falls_back (path : list Z) (extra : Z) (w : world) (first : sysret Z * kstate)
    (r : option Z) (w' : world) : Prop :=
  if decide (first.1 = SysErr EPERM) then
    trace w' = trace w ++ [EvOpen path (noatime_flags extra) None; EvOpen path (plain_flags extra) r] /\
    answered r (errno w') (sys_open first.2 path (plain_flags extra) 0).1
  else
    trace w' = trace w ++ [EvOpen path (noatime_flags extra) r] /\ answered r (errno w') first.1.

Lemma open_for_read_spec path extra w :
  wf_world w ->
  wp (bc_io_file_open_for_read path extra)
    (fun r w' =>
       evolved (heap w) (tokens (match r with Some fd => [RFd fd] | None => [] end)) w w' /\
       match r with Some fd => 0 <= fd | None => True end /\
       falls_back path extra w (sys_open (env w) path (noatime_flags extra) 0) r w') w.
Proof.
  intros Hwf. unfold bc_io_file_open_for_read. cbv zeta.
  fold (noatime_flags extra) (plain_flags extra). unfold falls_back. apply wp_bind, wp_open_answer.
  - intros fd k E Hfd Hk. apply wp_bind, wp_get_errno, wp_bind. rewrite decide_False by lia.
    apply wp_ret. rewrite decide_False by lia. apply wp_ret. rewrite E.
    split_and!; [solve_evolved|done|]. case_decide; [done|]. by split.
  - intros e k E Hk. rewrite E. apply wp_bind, wp_get_errno, wp_bind. case_decide as He; simpl in He.
    + destruct He as [_ ->]. apply wp_open_answer.
      * intros fd k' E' Hfd Hk'. rewrite decide_False by lia. apply wp_ret. simpl in E'. split_and!; [solve_evolved|done|].
        case_decide; [|done]. simpl. rewrite E', <- app_assoc. by split_and!.
      * intros e' k' E' Hk'. apply wp_ret. simpl in E'. split_and!; [solve_evolved|done|].
        case_decide; [|done]. simpl. rewrite E', <- app_assoc. by split_and!.
    + apply wp_ret, wp_ret. split_and!; [solve_evolved|done|].
      case_decide as Hperm; [|by split_and!]. injection Hperm as ->. by destruct He.
Qed.

(** The type of a mode word, as [stat_if_unknown] computes it. *)
Definition entry_type_of_mode (mode : Z) : bc_io_file_entry_type_t :=
  if S_ISREG mode then BC_IO_ENTRY_TYPE_FILE
  else if S_ISDIR mode then BC_IO_ENTRY_TYPE_DIRECTORY
  else if S_ISLNK mode then BC_IO_ENTRY_TYPE_SYMLINK
  else BC_IO_ENTRY_TYPE_OTHER.

(** The flags of a [bc_io_file_stat_t], counted. *)
Definition type_flags (s : bc_io_file_stat_t) : Z :=
  Z.b2z (is_regular s) + Z.b2z (is_directory s) + Z.b2z (is_symlink s) +
  Z.b2z (is_character_device s) + Z.b2z (is_block_device s) + Z.b2z (is_fifo s) +
  Z.b2z (is_socket s).

(** The mode word a [bc_io_file_stat_t] tells of. *)
Definition mode_of_stat (s : bc_io_file_stat_t) : Z :=
  (if is_regular s then S_IFREG else 0) + (if is_directory s then S_IFDIR else 0) +
  (if is_symlink s then S_IFLNK else 0) + (if is_character_device s then S_IFCHR else 0) +
  (if is_block_device s then S_IFBLK else 0) + (if is_fifo s then S_IFIFO else 0) +
  (if is_socket s then S_IFSOCK else 0) + stat_mode s.

Lemma land_S_IFMT mode : 0 <= mode -> Z.land mode S_IFMT = (mode / 4096) mod 16 * 4096.
Proof.
  intros Hm. change S_IFMT with (Z.shiftl (Z.ones 4) 12).
  change 4096 with (2 ^ 12). change 16 with (2 ^ 4).
  rewrite <- (Z.shiftr_div_pow2 mode 12) by lia. rewrite <- (Z.land_ones _ 4) by lia.
  rewrite <- (Z.shiftl_mul_pow2 _ 12) by lia. apply Z.bits_inj'. intros n Hn.
  rewrite Z.land_spec, !Z.shiftl_spec by lia. destruct (decide (n < 12)).
  - by rewrite !(Z.testbit_neg_r _ (n - 12)), andb_false_r by lia.
  - rewrite Z.land_spec, Z.shiftr_spec by lia. by replace (n - 12 + 12) with n by lia.
Qed.

(** The sixteen values of the type field. *)
Lemma type_field_cases mode :
  0 <= mode -> exists t, 0 <= t < 16 /\ Z.land mode S_IFMT = t * 4096.
Proof.
  intros Hm. exists ((mode / 4096) mod 16). split; [by apply Z.mod_pos_bound|by apply land_S_IFMT].
Qed.

Lemma sixteen (P : Z -> Prop) :
  Forall P (Z.of_nat <$> seq 0 16) -> forall t, 0 <= t < 16 -> P t.
Proof.
  intros H t Ht. rewrite Forall_forall in H. apply H, list_elem_of_fmap.
  exists (Z.to_nat t). split; [lia|]. apply elem_of_seq. lia.
Qed.

(** The struct filled from a [struct stat]. *)
Definition filled (st : stat_t) : bc_io_file_stat_t :=
  let file_mode := st_mode st in
  mk_file_stat (S_ISREG file_mode) (S_ISDIR file_mode) (S_ISLNK file_mode)
    (S_ISCHR file_mode) (S_ISBLK file_mode) (S_ISFIFO file_mode) (S_ISSOCK file_mode)
    (wrap64 (st_size st)) (Z.land (wrap32 file_mode) BC_IO_FILE_STAT_PERMISSION_BITS_MASK)
    (st_mtime st) (signed32 (st_mtime_nsec st)) (wrap64 (st_nlink st)) (wrap32 (st_uid st))
    (wrap32 (st_gid st)) (wrap64 (st_dev st)) (wrap64 (st_ino st)).

Lemma fill_spec st out_stat : bc_io_file_stat_fill_from_struct_stat st out_stat = Some (filled st).
Proof. unfold bc_io_file_stat_fill_from_struct_stat. by rewrite core_zero_spec. Qed.

Lemma mode_split mode :
  0 <= mode < 65536 -> mode = Z.land mode S_IFMT + Z.land mode 4095.
Proof.
  intros Hm. rewrite land_S_IFMT by lia. change 4095 with (Z.ones 12). rewrite Z.land_ones by lia.
  change (2 ^ 12) with 4096. rewrite (Z.mod_small (mode / 4096)).
  - pose proof (Z.div_mod mode 4096). lia.
  - split; [apply Z.div_pos; lia|apply Z.div_lt_upper_bound; lia].
Qed.

(** The flags, and the type bits they tell of, at each value of the type field. *)
Definition flags_at (t : Z) : Z :=
  Z.b2z (bool_decide (t * 4096 = S_IFREG)) + Z.b2z (bool_decide (t * 4096 = S_IFDIR)) +
  Z.b2z (bool_decide (t * 4096 = S_IFLNK)) + Z.b2z (bool_decide (t * 4096 = S_IFCHR)) +
  Z.b2z (bool_decide (t * 4096 = S_IFBLK)) + Z.b2z (bool_decide (t * 4096 = S_IFIFO)) +
  Z.b2z (bool_decide (t * 4096 = S_IFSOCK)).
Definition types_at (t : Z) : Z :=
  (if bool_decide (t * 4096 = S_IFREG) then S_IFREG else 0) +
  (if bool_decide (t * 4096 = S_IFDIR) then S_IFDIR else 0) +
  (if bool_decide (t * 4096 = S_IFLNK) then S_IFLNK else 0) +
  (if bool_decide (t * 4096 = S_IFCHR) then S_IFCHR else 0) +
  (if bool_decide (t * 4096 = S_IFBLK) then S_IFBLK else 0) +
  (if bool_decide (t * 4096 = S_IFIFO) then S_IFIFO else 0) +
  (if bool_decide (t * 4096 = S_IFSOCK) then S_IFSOCK else 0).

Lemma flags_sixteen t :
  0 <= t < 16 ->
  0 <= flags_at t <= 1 /\ (flags_at t = 1 -> types_at t = t * 4096) /\
  (t * 4096 ∈ [S_IFSOCK; S_IFLNK; S_IFREG; S_IFBLK; S_IFDIR; S_IFCHR; S_IFIFO] -> flags_at t = 1).
Proof. revert t. apply sixteen. refine (bool_decide_unpack _ _). by vm_compute. Qed.

Lemma filled_flags st :
  0 <= st_mode st < 65536 ->
  0 <= type_flags (filled st) <= 1 /\
  (type_flags (filled st) = 1 -> mode_of_stat (filled st) = st_mode st) /\
  (Z.land (st_mode st) S_IFMT ∈ [S_IFSOCK; S_IFLNK; S_IFREG; S_IFBLK; S_IFDIR; S_IFCHR; S_IFIFO] ->
   type_flags (filled st) = 1).
Proof.
  intros Hm. pose proof (mode_split _ Hm) as Hsplit.
  unfold type_flags, mode_of_stat, filled, S_ISTYPE. simpl.
  assert (Hw : wrap32 (st_mode st) = st_mode st) by (apply Z.mod_small; unfold u32_modulus; lia).
  rewrite Hw. unfold BC_IO_FILE_STAT_PERMISSION_BITS_MASK.
  destruct (type_field_cases (st_mode st)) as (t & Ht & E); [lia|]. rewrite E in *.
  destruct (flags_sixteen t Ht) as (Hr & Hone & Hin). unfold flags_at, types_at in *.
  split_and!; [apply Hr..| |done]. intros H1. specialize (Hone H1). lia.
Qed.

(** ** Properties *)

(** C29. [bc_io_file_path_join] writes the joined path and its terminator at the
    start of the buffer, or refuses and leaves the buffer: it refuses exactly when
    path and terminator do not fit the capacity, and writes nothing behind them. *)
Theorem path_join_joins buffer capacity base base_length name name_length :
  0 <= base_length <= zlen base -> 0 <= name_length <= zlen name ->
  base_length + name_length + 2 < u64_modulus -> capacity <= zlen buffer ->
  let path := joined (ztake base_length base) (ztake name_length name) in
  bc_io_file_path_join buffer capacity base base_length name name_length =
    Done (if decide (zlen path + 1 <= capacity)
          then (Some (zlen path), path ++ 0 :: zdrop (zlen path + 1) buffer)
          else (None, buffer)).
Proof. apply path_join_spec. Qed.

(** C33. The two ways to learn the type of a directory entry agree: the type byte
    of [getdents64], which is the type field of the mode, and [fstatat] without
    following links. *)
Theorem dtype_agrees_with_stat fd name st w k :
  sys_fstatat (env w) fd name AT_SYMLINK_NOFOLLOW = (SysOk st, k) -> 0 <= st_mode st ->
  exists r w', bc_io_file_stat_if_unknown fd name w = Done (Some r, w') /\
    r_type r = bc_io_file_dtype_to_entry_type (Z.shiftr (Z.land (st_mode st) S_IFMT) 12) /\
    r_size r = st_size st /\ r_device r = st_dev st /\ r_inode r = st_ino st.
Proof.
  intros Hst Hm. unfold bc_io_file_stat_if_unknown, fstatat, syscall, mbind, M_bind.
  rewrite Hst. eexists _, _. split; [done|]. simpl. split_and!; try done.
  - fold (entry_type_of_mode (st_mode st)). unfold entry_type_of_mode, S_ISTYPE.
    destruct (type_field_cases _ Hm) as (t & Ht & ->). revert t Ht. apply sixteen.
    by repeat constructor.
  - apply wrap64_small. apply sys_fstatat_size in Hst. unfold is_u64, u64_modulus. lia.
Qed.

(** C31. [bc_io_file_stat] and [bc_io_file_stat_lstat] tell the mode of the file:
    at most one of the type flags is set, exactly one when the type is one of the
    seven the system has, and then type flags and permission bits give back the
    mode word; the size is the file's. *)
Theorem stat_tells_mode (follow : bool) path out_stat st w k :
  (if follow then sys_stat (env w) path else sys_lstat (env w) path) = (SysOk st, k) ->
  0 <= st_mode st < 65536 ->
  exists s w', (if follow then bc_io_file_stat path out_stat
                else bc_io_file_stat_lstat path out_stat) w = Done (Some s, w') /\
    0 <= type_flags s <= 1 /\ (type_flags s = 1 -> mode_of_stat s = st_mode st) /\
    (Z.land (st_mode st) S_IFMT ∈ [S_IFSOCK; S_IFLNK; S_IFREG; S_IFBLK; S_IFDIR; S_IFCHR; S_IFIFO] ->
     type_flags s = 1) /\
    size_bytes s = st_size st.
Proof.
  intros Hst Hm. exists (filled st).
  assert (Hsize : 0 <= st_size st < 9223372036854775808).
  { destruct follow; [by eapply sys_stat_size|by eapply sys_lstat_size]. }
  pose proof (fill_spec st out_stat) as Hfill.
  eexists. split.
  { destruct follow; unfold bc_io_file_stat, bc_io_file_stat_lstat, stat_, lstat, syscall, mbind, M_bind;
      rewrite Hst, Hfill; done. }
  split_and!; [apply filled_flags; lia..|by apply filled_flags; lia|by apply filled_flags; lia|].
  apply wrap64_small. unfold is_u64, u64_modulus. lia.
Qed.

(** C32. Opening for reading: the file is opened with O_NOATIME first, and a second
    time without it exactly when the kernel answered EPERM to the first; the
    result, descriptor or [errno], is what the kernel answered to the last open.
    Neither open goes through a final symbolic link, both close on exec.  Success
    holds the descriptor, a failure none. *)
Theorem open_for_read_falls_back path extra w :
  wf_world w ->
  wp (bc_io_file_open_for_read path extra)
    (fun r w' =>
       heap w' = heap w /\
       (forall x, held w' x = held w x + tokens (match r with Some fd => [RFd fd] | None => [] end) x) /\
       falls_back path extra w (sys_open (env w) path (noatime_flags extra) 0) r w' /\
       guarded (noatime_flags extra) /\ guarded (plain_flags extra)) w.
Proof.
  intros Hwf. eapply wp_mono; [by apply open_for_read_spec|].
  intros r w' ([Hh Hd _ _] & _ & Hev).
  split; [done|]. split; [done|]. split; [done|]. apply open_flags_guarded.
Qed.

(** [bc_io_file_advise] passes the hint on as the advice of the same name,
    succeeds exactly when the kernel does, and on failure leaves the kernel's
    error in [errno], which [posix_fadvise] itself does not set. *)
Theorem file_advise_reports fd offset length hint w :
  0 <= offset < 2 ^ 63 -> 0 <= length < 2 ^ 63 ->
  let '(r, k) := sys_posix_fadvise (env w) fd offset length (hint_to_posix_advice hint) in
  exists w', bc_io_file_advise fd offset length hint w = Done (bool_decide (r = 0), w') /\
    errno w' = (if decide (r = 0) then errno w else r) /\ env w' = k /\
    heap w' = heap w /\ forall x, held w' x = held w x.
Proof.
  intros Ho Hl. destruct (sys_posix_fadvise _ _ _ _ _) as [r k] eqn:E.
  unfold bc_io_file_advise, posix_fadvise, mbind, M_bind, signed64.
  rewrite !decide_True by lia. rewrite E. destruct (decide (r = 0)) as [->|Hr]; simpl.
  - eexists. split; [done|]. split_and!; try done. intros x. held_lia.
  - rewrite decide_True by done. rewrite bool_decide_false by done.
    eexists. split; [done|]. split_and!; try done. intros x. held_lia.
Qed.
End laws.
End file_path.

(** ** Witnesses *)

Lemma path_join_joins_witness :
  bc_io_file_path_join (zrepeat 7 12) 12 (bytes_of_string "/usr") 4 (bytes_of_string "lib.d") 3 =
    Done (Some 8, bytes_of_string "/usr/lib" ++ [0; 7; 7; 7]).
Proof.
  apply (path_join_joins (zrepeat 7 12) 12 (bytes_of_string "/usr") 4 (bytes_of_string "lib.d") 3);
    concrete.
Defined.

Definition link_stat : stat_t := mk_stat 5 9 41471 1 0 0 12 0 0.
Definition link_script : script := mk_script [] [] [] [SysOk link_stat] [] [] [].

Lemma dtype_agrees_with_stat_witness :
  exists r w', bc_io_file_stat_if_unknown 3 [97] (scripted_world link_script) = Done (Some r, w') /\
    r_type r = BC_IO_ENTRY_TYPE_SYMLINK /\ r_size r = 12 /\ r_device r = 5 /\ r_inode r = 9.
Proof.
  apply (dtype_agrees_with_stat 3 [97] link_stat (scripted_world link_script) quiet_script);
    [reflexivity|concrete].
Defined.

Lemma stat_tells_mode_witness :
  exists s w', bc_io_file_stat_lstat [97] [] (scripted_world link_script) = Done (Some s, w') /\
    0 <= type_flags s <= 1 /\ (type_flags s = 1 -> mode_of_stat s = 41471) /\
    (40960 ∈ [S_IFSOCK; S_IFLNK; S_IFREG; S_IFBLK; S_IFDIR; S_IFCHR; S_IFIFO] -> type_flags s = 1) /\
    size_bytes s = 12.
Proof.
  apply (stat_tells_mode false [97] [] link_stat (scripted_world link_script) quiet_script);
    [reflexivity|concrete].
Defined.

(** O_NOATIME is refused, the second open succeeds. *)
Definition eperm_script : script := mk_script [SysErr EPERM; SysOk 8] [] [] [] [] [] [].

Lemma open_for_read_falls_back_witness :
  wp (bc_io_file_open_for_read [97] 0)
    (fun r w' =>
       heap w' = ∅ /\
       (forall x, held w' x = 0 + tokens (match r with Some fd => [RFd fd] | None => [] end) x) /\
       falls_back [97] 0 (scripted_world eperm_script)
         (sys_open (env (scripted_world eperm_script)) [97] (noatime_flags 0) 0) r w' /\
       guarded (noatime_flags 0) /\ guarded (plain_flags 0))
    (scripted_world eperm_script).
Proof. apply (open_for_read_falls_back [97] 0), scripted_world_wf. Defined.

Lemma file_advise_reports_witness :
  exists w', bc_io_file_advise 4 0 4096 BC_IO_MADVISE_RANDOM (scripted_world quiet_script) =
      Done (true, w') /\
    errno w' = 0 /\ env w' = quiet_script /\ heap w' = ∅ /\ forall x, held w' x = 0.
Proof.
  apply (file_advise_reports 4 0 4096 BC_IO_MADVISE_RANDOM (scripted_world quiet_script)); concrete.
Defined.
