(* ===== verification/DirentReader.v ===== *)
(** * Reading directories ([src/file/bc_io_dirent_reader.c])

    The reader asks the kernel for batches of records and hands out one entry at
    a time, without the entries for the directory itself and its parent.  The
    records are read from the bytes of the buffer, at the offsets of
    [struct bc_io_linux_dirent64]. *)

From S2P Require Import Prelude Platform Objects Machine Scripted.

Definition BC_IO_DIRENT_READER_BUFFER_SIZE : Z := 8192.
Definition sizeof_bc_io_dirent_reader_t : Z := 8216.

(** [bc_io_dirent_entry_t]: the name is the memory from the pointer on. *)
Record bc_io_dirent_entry_t := mk_entry {
  entry_name : list Z;
  entry_name_length : Z;
  entry_d_type : Z;
}.

Definition bc_io_dirent_reader_last_errno (r : bc_io_dirent_reader_t) : Z := last_errno r.

Definition bc_io_dirent_reader_reset (r : bc_io_dirent_reader_t) (fd : Z) : bc_io_dirent_reader_t :=
  mk_reader fd 0 0 0 (reader_buffer r).

Definition set_last_errno (e : Z) (r : bc_io_dirent_reader_t) : bc_io_dirent_reader_t :=
  mk_reader (dir_fd r) e (reader_used r) (cursor r) (reader_buffer r).

Definition set_cursor (c : Z) (r : bc_io_dirent_reader_t) : bc_io_dirent_reader_t :=
  mk_reader (dir_fd r) (last_errno r) (reader_used r) c (reader_buffer r).

Definition refilled (used : Z) (bytes : list Z) (r : bc_io_dirent_reader_t) : bc_io_dirent_reader_t :=
  mk_reader (dir_fd r) (last_errno r) used 0 bytes.

Section dirent_reader.
Context {PF : Platform}.

Definition bc_io_dirent_reader_create (fd : Z) : M (option Z) :=
  reader ← bc_allocators_pool_allocate sizeof_bc_io_dirent_reader_t;
  match reader with
  | None => mret None
  | Some reader =>
      bytes ← fresh_bytes reader sizeof_bc_io_dirent_reader_t;
      store reader (OReader (mk_reader fd 0 0 0 (ztake BC_IO_DIRENT_READER_BUFFER_SIZE bytes)));;
      mret (Some reader)
  end.

Definition bc_io_dirent_reader_destroy (reader : Z) : M unit :=
  if decide (reader = 0) then mret tt else bc_allocators_pool_free reader.

(** The name at [name] in the buffer is "." or "..". *)
Definition is_dot_name (buffer : list Z) (name : Z) : res bool :=
  c0 ← peek buffer name;
  if decide (c0 <> ch ".") then Done false
  else
    c1 ← peek buffer (name + 1);
    if decide (c1 = 0) then Done true
    else if decide (c1 <> ch ".") then Done false
    else
      c2 ← peek buffer (name + 2);
      Done (bool_decide (c2 = 0)).

(** The record at the cursor: its length, and the entry unless it is skipped;
    [None] for a name without terminator. *)
Definition read_record (r : bc_io_dirent_reader_t)
    : res (Z * option (option bc_io_dirent_entry_t)) :=
  reclen ← span (reader_buffer r) (cursor r + 16) 2;
  let name := cursor r + 19 in
  dot ← is_dot_name (reader_buffer r) name;
  if dot : bool then Done (le_word reclen, Some None)
  else
    match core_length (zdrop name (reader_buffer r)) 0 with
    | None => Done (le_word reclen, None)
    | Some name_length =>
        type ← peek (reader_buffer r) (cursor r + 18);
        Done (le_word reclen,
              Some (Some (mk_entry (zdrop name (reader_buffer r)) name_length type)))
    end.

(** [None]: false.  [Some None]: true without an entry. *)
Fixpoint bc_io_dirent_reader_next (fuel : nat) (r : bc_io_dirent_reader_t)
    : M (option (option bc_io_dirent_entry_t) * bc_io_dirent_reader_t) :=
  match fuel with
  | O => out_of_fuel
  | S fuel =>
      '(bytes_read, r) ←
        (if decide (reader_used r <= signed64 (cursor r)) then
           '(bytes_read, bytes) ← getdents64 (dir_fd r) BC_IO_DIRENT_READER_BUFFER_SIZE;
           if decide (0 < bytes_read) then
             buffer ← lift (blit (reader_buffer r) 0 bytes);
             mret (bytes_read, refilled bytes_read buffer r)
           else mret (bytes_read, r)
         else mret (1, r));
      if decide (bytes_read < 0) then
        e ← get_errno;
        mret (None, set_last_errno e r)
      else if decide (bytes_read = 0) then mret (Some None, r)
      else
        '(reclen, entry) ← lift (read_record r);
        let r := set_cursor (cursor r +u reclen) r in
        match entry with
        | Some None => bc_io_dirent_reader_next fuel r
        | None => mret (None, set_last_errno EINVAL r)
        | Some (Some e) => mret (Some (Some e), r)
        end
  end.

(** The client's loop: all entries of a directory. *)
Fixpoint read_all (calls fuel : nat) (r : bc_io_dirent_reader_t)
    : M (option (list bc_io_dirent_entry_t) * bc_io_dirent_reader_t) :=
  match calls with
  | O => out_of_fuel
  | S calls =>
      '(answer, r) ← bc_io_dirent_reader_next fuel r;
      match answer with
      | None => mret (None, r)
      | Some None => mret (Some [], r)
      | Some (Some e) =>
          '(entries, r) ← read_all calls fuel r;
          mret (cons e <$> entries, r)
      end
  end.
End dirent_reader.

(** ** Entries and records *)

Definition is_dot (d : dirent) : bool :=
  bool_decide (d_name d = [ch "."] \/ d_name d = [ch "."; ch "."]).

(** An entry tells a record: name, terminator, length and type. *)
Definition tells (e : bc_io_dirent_entry_t) (d : dirent) : Prop :=
  c_string (entry_name e) = d_name d /\ entry_name_length e = zlen (d_name d) /\
  entry_d_type e = d_type d /\ zlen (d_name d) < zlen (entry_name e).

(** The records of the buffer not yet handed out. *)
Definition reader_holds (r : bc_io_dirent_reader_t) (ds : list dirent) : Prop :=
  exists pre post, reader_buffer r = pre ++ encode_batch ds ++ post /\ cursor r = zlen pre /\
    reader_used r = zlen pre + zlen (encode_batch ds) /\
    zlen (reader_buffer r) = BC_IO_DIRENT_READER_BUFFER_SIZE.

Lemma encode_batch_cons d ds : encode_batch (d :: ds) = encode_dirent d ++ encode_batch ds.
Proof. done. Qed.

Lemma zlen_encode_dirent d : zlen (encode_dirent d) = d_reclen d.
Proof. unfold encode_dirent, d_reclen. autorewrite with blocks. rewrite !zlen_le_bytes. lia. Qed.

Lemma d_reclen_pos d : 20 <= d_reclen d.
Proof. unfold d_reclen. pose proof (zlen_nonneg (d_name d)). pose proof (zlen_nonneg (d_pad d)). lia. Qed.

Lemma is_dot_name_spec pre name post i :
  i = zlen pre -> 0 ∉ name -> name <> [] ->
  is_dot_name (pre ++ name ++ 0 :: post) i =
    Done (bool_decide (name = [ch "."] \/ name = [ch "."; ch "."])).
Proof.
  intros -> H0 Hne. destruct name as [|c0 name]; [done|]. unfold is_dot_name. simpl.
  rewrite (peek_app pre _ c0 (zlen pre)) by done. simpl. rewrite not_elem_of_cons in H0.
  case_decide as E0; [by rewrite bool_decide_false by naive_solver|].
  destruct (decide (c0 = ch ".")) as [->|]; [|tauto].
  replace (pre ++ ch "." :: name ++ 0 :: post) with ((pre ++ [ch "."]) ++ name ++ 0 :: post)
    by by rewrite <- app_assoc.
  destruct name as [|c1 name]; simpl.
  { rewrite (peek_app (pre ++ [ch "."]) _ _ (zlen pre + 1)) by block_lia. done. }
  rewrite (peek_app (pre ++ [ch "."]) _ _ (zlen pre + 1)) by block_lia. simpl. rewrite not_elem_of_cons in H0.
  rewrite decide_False by naive_solver.
  case_decide as E1; [by rewrite bool_decide_false by naive_solver|].
  destruct (decide (c1 = ch ".")) as [->|]; [|tauto].
  replace ((pre ++ [ch "."]) ++ ch "." :: name ++ 0 :: post)
    with ((pre ++ [ch "."; ch "."]) ++ name ++ 0 :: post) by by rewrite <- !app_assoc.
  destruct name as [|c2 name]; simpl.
  { rewrite (peek_app (pre ++ [ch "."; ch "."]) _ _ (zlen pre + 2)) by block_lia. done. }
  rewrite (peek_app (pre ++ [ch "."; ch "."]) _ _ (zlen pre + 2)) by block_lia. simpl. rewrite not_elem_of_cons in H0.
  f_equal. apply bool_decide_false. naive_solver.
Qed.

Section laws.
Context {PF : Platform} {PL : PlatformLaws PF}.

(** Where the fields of a record at [i] are. *)
Record record_at (block : list Z) (i : Z) (d : dirent) : Prop := {
  at_reclen : span block (i + 16) 2 = Done (le_bytes 2 (d_reclen d));
  at_type : peek block (i + 18) = Done (d_type d);
  at_name : exists rest, zdrop (i + 19) block = d_name d ++ 0 :: rest;
  at_dot : is_dot_name block (i + 19) = Done (is_dot d);
}.

Lemma record_at_layout pre d post :
  0 ∉ d_name d -> d_name d <> [] -> record_at (pre ++ encode_dirent d ++ post) (zlen pre) d.
Proof.
  intros H0 Hne. set (block := pre ++ encode_dirent d ++ post).
  set (head := pre ++ le_bytes 8 (d_ino d) ++ le_bytes 8 (d_off d)). set (tail := d_pad d ++ post).
  assert (Hhead : zlen head = zlen pre + 16) by (subst head; rewrite !zlen_app, !zlen_le_bytes; lia).
  assert (Eb : block = head ++ le_bytes 2 (d_reclen d) ++ d_type d :: d_name d ++ 0 :: tail).
  { subst block head tail. unfold encode_dirent. repeat (rewrite <- app_assoc; simpl). done. }
  assert (Ename : block = (head ++ le_bytes 2 (d_reclen d) ++ [d_type d]) ++ d_name d ++ 0 :: tail).
  { rewrite Eb, <- !app_assoc. done. }
  assert (Hat : zlen pre + 19 = zlen (head ++ le_bytes 2 (d_reclen d) ++ [d_type d])).
  { rewrite !zlen_app, zlen_le_bytes, Hhead. change (zlen [d_type d]) with 1. lia. }
  split.
  - rewrite Eb. apply span_app; [done|]. by rewrite zlen_le_bytes.
  - rewrite Eb. replace (head ++ le_bytes 2 (d_reclen d) ++ d_type d :: d_name d ++ 0 :: tail)
      with ((head ++ le_bytes 2 (d_reclen d)) ++ d_type d :: d_name d ++ 0 :: tail)
      by by rewrite <- app_assoc.
    apply peek_app. rewrite zlen_app, zlen_le_bytes. lia.
  - exists tail. rewrite Ename. by apply zdrop_app.
  - rewrite Ename. by apply is_dot_name_spec.
Qed.

(** The record at the cursor is read back. *)
Lemma read_record_spec r d ds :
  reader_holds r (d :: ds) -> dirent_ok d ->
  exists entry, read_record r = Done (d_reclen d, Some entry) /\
    match entry with Some e => is_dot d = false /\ tells e d | None => is_dot d = true end /\
    reader_holds (set_cursor (cursor r +u d_reclen d) r) ds /\
    cursor r +u d_reclen d = cursor r + d_reclen d /\ 0 <= cursor r /\
    cursor r + d_reclen d <= reader_used r <= BC_IO_DIRENT_READER_BUFFER_SIZE.
Proof.
  intros (pre & post & Hbuf & Hcur & Hused & Hsize) (H0 & Hne & Hlen).
  pose proof (d_reclen_pos d) as Hpos. rewrite encode_batch_cons, <- app_assoc in Hbuf. rewrite encode_batch_cons in Hused.
  pose proof (zlen_encode_dirent d) as Henc.
  destruct (record_at_layout pre d (encode_batch ds ++ post) H0 Hne) as [Hspan Htype [rest Hdrop] Hdot].
  rewrite <- Hbuf, <- Hcur in *.
  assert (Hbound : cursor r + d_reclen d + zlen (encode_batch ds) + zlen post = 8192).
  { unfold BC_IO_DIRENT_READER_BUFFER_SIZE in Hsize. rewrite <- Hsize, Hbuf, Hcur. block_lia. }
  pose proof (zlen_nonneg pre). pose proof (zlen_nonneg post). pose proof (zlen_nonneg (encode_batch ds)).
  assert (Hcursor : cursor r +u d_reclen d = cursor r + d_reclen d).
  { apply wrap64_small. unfold is_u64, u64_modulus. lia. }
  exists (if is_dot d then None
          else Some (mk_entry (zdrop (cursor r + 19) (reader_buffer r)) (zlen (d_name d)) (d_type d))).
  split_and!; try lia.
  - unfold read_record. rewrite Hspan. cbn [mbind res_bind].
    rewrite Hdot. cbn [mbind res_bind]. rewrite le_word_bytes by (change (256 ^ Z.of_nat 2) with 65536; lia).
    destruct (is_dot d); [done|]. rewrite Hdrop, core_length_spec by done. by rewrite Htype.
  - destruct (is_dot d); [done|]. split; [done|]. unfold tells. simpl. rewrite Hdrop.
    rewrite c_string_app by done. split_and!; [done..|block_lia].
  - exists (pre ++ encode_dirent d), post. simpl. rewrite Hcursor, Hcur, Hused, !zlen_app, Henc.
    rewrite <- !app_assoc. split_and!; try done; lia.
  - rewrite Hused, zlen_app, Henc. lia.
  - rewrite Hused, zlen_app, Henc. unfold BC_IO_DIRENT_READER_BUFFER_SIZE. lia.
Qed.

Lemma zlen_encode_batch_cons d ds : 0 < zlen (encode_batch (d :: ds)).
Proof.
  rewrite encode_batch_cons, zlen_app, zlen_encode_dirent.
  pose proof (d_reclen_pos d). pose proof (zlen_nonneg (encode_batch ds)). lia.
Qed.

(** One turn of the loop with a record in the buffer. *)
Lemma next_record fuel r d ds w :
  reader_holds r (d :: ds) -> dirent_ok d ->
  exists r', reader_holds r' ds /\ dir_fd r' = dir_fd r /\
    reader_used r' = reader_used r /\ cursor r + 20 <= cursor r' /\
    last_errno r' = last_errno r /\
    if is_dot d then bc_io_dirent_reader_next (S fuel) r w = bc_io_dirent_reader_next fuel r' w
    else exists e, tells e d /\
      bc_io_dirent_reader_next (S fuel) r w = Done (Some (Some e), r', w).
Proof.
  intros Hr Hd. destruct (read_record_spec r d ds Hr Hd)
    as (entry & Hread & Hentry & Hr' & Hcur & H0 & Hle).
  pose proof (d_reclen_pos d) as Hpos. unfold BC_IO_DIRENT_READER_BUFFER_SIZE in Hle.
  exists (set_cursor (cursor r +u d_reclen d) r).
  split_and!; [done|done|done|simpl; lia|done|].
  cbn [bc_io_dirent_reader_next]. rewrite decide_False by (unfold signed64; case_decide; lia).
  unfold mbind, M_bind, mret, M_ret. rewrite decide_False by lia. rewrite decide_False by lia.
  unfold lift. rewrite Hread.
  destruct entry as [e|]; [destruct Hentry as [-> He]; by exists e|by rewrite Hentry].
Qed.

Lemma holds_bounds r ds :
  reader_holds r ds ->
  0 <= cursor r /\ reader_used r = cursor r + zlen (encode_batch ds) /\ reader_used r <= 8192.
Proof.
  intros (pre & post & Hbuf & -> & -> & Hsize). unfold BC_IO_DIRENT_READER_BUFFER_SIZE in Hsize.
  rewrite Hbuf, (zlen_app pre), (zlen_app (encode_batch ds)) in Hsize.
  pose proof (zlen_nonneg pre). pose proof (zlen_nonneg post). lia.
Qed.

Lemma reader_exhausted r : reader_holds r [] -> reader_used r = cursor r /\ 0 <= cursor r <= 8192.
Proof.
  intros H%holds_bounds. change (zlen (encode_batch [])) with 0 in H. lia.
Qed.

(** One turn of the loop with an empty buffer. *)
Lemma next_refill fuel r b w k :
  reader_holds r [] -> b <> [] ->
  sys_getdents64 (env w) (dir_fd r) BC_IO_DIRENT_READER_BUFFER_SIZE = (SysOk (encode_batch b), k) ->
  exists r', reader_holds r' b /\ dir_fd r' = dir_fd r /\
    bc_io_dirent_reader_next (S fuel) r w =
      bc_io_dirent_reader_next (S fuel) r' (after_call w k (errno w) []).
Proof.
  intros Hr Hb Hsys. destruct (reader_exhausted r Hr) as [Hused Hcur].
  destruct b as [|d ds]; [done|]. pose proof (zlen_encode_batch_cons d ds) as Hpos.
  pose proof (sys_getdents64_len _ _ _ _ _ Hsys) as Hlen.
  destruct Hr as (pre & post & _ & _ & _ & Hsize).
  set (bs := encode_batch (d :: ds)) in *.
  set (r' := refilled (zlen bs) (bs ++ zdrop (zlen bs) (reader_buffer r)) r).
  assert (Hr' : reader_holds r' (d :: ds)).
  { exists [], (zdrop (zlen bs) (reader_buffer r)). fold bs. split_and!; [done|done|done|].
    change (reader_buffer r') with (bs ++ zdrop (zlen bs) (reader_buffer r)).
    unfold BC_IO_DIRENT_READER_BUFFER_SIZE in *. rewrite zlen_app, zlen_zdrop. lia. }
  clearbody bs. exists r'. split_and!; [done|done|].
  cbn [bc_io_dirent_reader_next]. rewrite Hused, decide_True by (unfold signed64; case_decide; lia).
  rewrite (decide_False (P := reader_used r' <= _)) by (simpl; unfold signed64; case_decide; lia).
  unfold getdents64, syscall, lift, mbind, M_bind, mret, M_ret. rewrite Hsys. simpl.
  rewrite (decide_True (P := 0 < zlen bs)) by done.
  rewrite blit_in_range by lia. simpl.
  rewrite !(decide_False (P := zlen bs < 0)), !(decide_False (P := zlen bs = 0)) by lia. done.
Qed.

Lemma next_end fuel r w k :
  reader_holds r [] ->
  sys_getdents64 (env w) (dir_fd r) BC_IO_DIRENT_READER_BUFFER_SIZE = (SysOk [], k) ->
  bc_io_dirent_reader_next (S fuel) r w = Done (Some None, r, after_call w k (errno w) []).
Proof.
  intros Hr Hsys. destruct (reader_exhausted r Hr) as [Hused Hcur].
  cbn [bc_io_dirent_reader_next]. rewrite Hused, decide_True by (unfold signed64; case_decide; lia).
  unfold getdents64, syscall, lift, mbind, M_bind, mret, M_ret. by rewrite Hsys.
Qed.

Lemma next_error fuel r w k e :
  reader_holds r [] ->
  sys_getdents64 (env w) (dir_fd r) BC_IO_DIRENT_READER_BUFFER_SIZE = (SysErr e, k) ->
  bc_io_dirent_reader_next (S fuel) r w = Done (None, set_last_errno e r, after_call w k e []).
Proof.
  intros Hr Hsys. destruct (reader_exhausted r Hr) as [Hused Hcur].
  cbn [bc_io_dirent_reader_next]. rewrite Hused, decide_True by (unfold signed64; case_decide; lia).
  unfold getdents64, syscall, lift, mbind, M_bind, mret, M_ret. by rewrite Hsys.
Qed.

(** ** Any kernel *)

(** A bound on the turns left: each record takes at least twenty bytes of the
    buffer, each refill one unit of the kernel's patience. *)
Definition turns (r : bc_io_dirent_reader_t) (w : world) : nat :=
  Z.to_nat (reader_used r - cursor r + Z.of_nat (patience (env w)) * 8193).

Definition reader_ok (r : bc_io_dirent_reader_t) : Prop :=
  exists ds, reader_holds r ds /\ Forall dirent_ok ds.

Lemma reset_ok r fd :
  zlen (reader_buffer r) = BC_IO_DIRENT_READER_BUFFER_SIZE ->
  reader_ok (bc_io_dirent_reader_reset r fd).
Proof.
  intros Hsize. exists []. split; [|done]. exists [], (reader_buffer r). by split_and!.
Qed.

(** How [next] ends on every kernel: with an entry that is not "." or "..", at the
    end of the directory, or with the error of [getdents64] as [last_errno]. *)
Definition next_ends (r : bc_io_dirent_reader_t) (w : world)
    (out : option (option bc_io_dirent_entry_t) * bc_io_dirent_reader_t) (w' : world) : Prop :=
  let '(answer, r') := out in
  quiet w w' /\ trace w' = trace w /\ reader_ok r' /\ dir_fd r' = dir_fd r /\
  (turns r' w' <= turns r w)%nat /\
  match answer with
  | None => last_errno r' = errno w'
  | Some None => True
  | Some (Some e) => (turns r' w' < turns r w)%nat /\
      exists d, tells e d /\ dirent_ok d /\ is_dot d = false
  end.

(** After a first step that took no turn back. *)
Lemma next_ends_after r r1 w w1 out w' :
  quiet w w1 -> trace w1 = trace w -> dir_fd r1 = dir_fd r -> (turns r1 w1 <= turns r w)%nat ->
  next_ends r1 w1 out w' -> next_ends r w out w'.
Proof.
  destruct out as [answer r']. intros Hq Ht Hfd Hle (Hq' & Ht' & Hok & Hfd' & Hle' & Hans).
  split_and!; [by etrans|congruence|done|congruence|lia|].
  destruct answer as [[e|]|]; [|done|done]. split; [lia|apply Hans].
Qed.

(** A record is in the buffer: it is told, or skipped. *)
Lemma next_of_record fuel r w d ds :
  (forall r w, reader_ok r -> (turns r w < fuel)%nat -> wp (bc_io_dirent_reader_next fuel r) (next_ends r w) w) ->
  reader_holds r (d :: ds) -> Forall dirent_ok (d :: ds) -> (turns r w < S fuel)%nat ->
  wp (bc_io_dirent_reader_next (S fuel) r) (next_ends r w) w.
Proof.
  intros IH Hr [Hd Hds]%Forall_cons Hfuel.
  destruct (next_record fuel r d ds w Hr Hd) as (r' & Hr' & Efd & Eused & Hcur & _ & H).
  assert (Hturns : (turns r' w < turns r w)%nat).
  { pose proof (holds_bounds _ _ Hr). pose proof (zlen_encode_batch_cons d ds).
    unfold turns. rewrite Eused. lia. }
  unfold wp. destruct (is_dot d) eqn:Edot.
  - rewrite H. eapply safe_mono; [apply IH; [by exists ds|lia]|].
    intros [out w2] Hends. eapply next_ends_after; [done|done|exact Efd|lia|exact Hends].
  - destruct H as (e & He & ->). simpl. split_and!; [done|done|by exists ds|done|lia|lia|].
    by exists d.
Qed.

(** The buffer is used up, and the kernel serves the next batch. *)
Lemma next_of_batch fuel r w k d b :
  (forall r w, reader_ok r -> (turns r w < fuel)%nat -> wp (bc_io_dirent_reader_next fuel r) (next_ends r w) w) ->
  reader_holds r [] -> Forall dirent_ok (d :: b) -> (turns r w < S fuel)%nat ->
  sys_getdents64 (env w) (dir_fd r) BC_IO_DIRENT_READER_BUFFER_SIZE = (SysOk (encode_batch (d :: b)), k) ->
  wp (bc_io_dirent_reader_next (S fuel) r) (next_ends r w) w.
Proof.
  intros IH Hr Hb Hfuel Hsys.
  destruct (next_refill fuel r (d :: b) w k Hr ltac:(done) Hsys) as (r' & Hr' & Efd & E).
  unfold wp. rewrite E.
  assert (Hpat : (patience k < patience (env w))%nat).
  { eapply sys_getdents64_progress; [exact Hsys|]. intros E0.
    pose proof (zlen_encode_batch_cons d b) as Hp. rewrite E0 in Hp. by unfold zlen in Hp. }
  destruct (reader_exhausted r Hr) as [Hu Hc]. pose proof (holds_bounds _ _ Hr') as Hused'.
  assert (Hturns : (turns r' (after_call w k (errno w) []) <= turns r w)%nat) by (unfold turns; simpl; lia).
  eapply safe_mono; [apply (next_of_record fuel r' _ d b IH Hr' Hb); lia|].
  intros [out w2] Hends. eapply (next_ends_after _ r' _ (after_call w k (errno w) []));
    [|by simpl; rewrite app_nil_r|exact Efd|exact Hturns|exact Hends].
  split; try done; [intros x; held_lia|simpl; lia].
Qed.

Lemma next_spec fuel r w :
  reader_ok r -> (turns r w < fuel)%nat ->
  wp (bc_io_dirent_reader_next fuel r) (next_ends r w) w.
Proof.
  revert r w. induction fuel as [|fuel IH]; intros r w (ds & Hr & Hds) Hfuel; [lia|].
  destruct ds as [|d ds]; [|by eapply next_of_record].
  destruct (sys_getdents64 (env w) (dir_fd r) BC_IO_DIRENT_READER_BUFFER_SIZE) as [[bs|e] k] eqn:Hsys.
  - destruct (sys_getdents64_records _ _ _ _ _ Hsys) as (b & -> & Hb).
    destruct b as [|d b]; [|by eapply next_of_batch].
    unfold wp. rewrite (next_end fuel r w k Hr Hsys). apply sys_getdents64_patience in Hsys. simpl.
    split_and!; [|by rewrite app_nil_r|by exists []|done|unfold turns; simpl; lia|done].
    split; try done. intros x; held_lia.
  - unfold wp. rewrite (next_error fuel r w k e Hr Hsys). simpl.
    pose proof (sys_getdents64_patience _ _ _ _ _ Hsys) as Hpat.
    split_and!; [|by rewrite app_nil_r|exists []; by split|done|unfold turns; simpl; lia|done].
    split; try done. intros x; held_lia.
Qed.

(** Creating a reader takes its block; destroying it gives the block back. *)
Lemma reader_create_spec fd w :
  wf_world w ->
  wp (bc_io_dirent_reader_create fd)
    (fun p w' =>
       match p with
       | None => evolved (heap w) nothing w w'
       | Some p => exists r, heap w !! p = None /\ p <> 0 /\ reader_ok r /\ dir_fd r = fd /\
           reader_used r = 0 /\ cursor r = 0 /\ last_errno r = 0 /\
           evolved (<[p := OReader r]> (heap w)) (tokens [RPool p]) w w'
       end) w.
Proof.
  intros Hwf. apply wp_bind, wp_pool_allocate; intros; [|apply wp_ret; solve_evolved].
  apply wp_bind, wp_fresh_bytes. intros bytes Hsize.
  assert (Hbuf : zlen (ztake BC_IO_DIRENT_READER_BUFFER_SIZE bytes) = BC_IO_DIRENT_READER_BUFFER_SIZE).
  { unfold sizeof_bc_io_dirent_reader_t, BC_IO_DIRENT_READER_BUFFER_SIZE in *. rewrite zlen_ztake. lia. }
  set (buf := ztake _ _) in *. clearbody buf. clear Hsize bytes. wp_run.
  exists (mk_reader fd 0 0 0 buf). split_and!; try done; [by apply wf_world_dom| |solve_evolved].
  exact (reset_ok (mk_reader fd 0 0 0 buf) fd Hbuf).
Qed.

Lemma reader_destroy_spec h d w0 p r w :
  p <> 0 -> evolved (<[p := OReader r]> h) d w0 w -> h !! p = None ->
  wp (bc_io_dirent_reader_destroy p)
    (fun _ w' => evolved h (fun x => d x - one x (RPool p)) w0 w') w.
Proof.
  intros Hp0 He Hp. unfold bc_io_dirent_reader_destroy. rewrite decide_False by done.
  eapply wp_mono; [eapply evolved_free; [exact He|by simplify_map_eq]|].
  intros ? w' He'. eapply evolved_ext; [exact He'| |done]. by rewrite delete_insert_eq, delete_id.
Qed.

(** ** A directory that is served completely *)

(** [serves k fd batches k']: from [k] on, the kernel hands out these batches of
    records of [fd], then the end of the directory, leading to [k']. *)
Fixpoint serves (k : kstate) (fd : Z) (batches : list (list dirent)) (k' : kstate) : Prop :=
  match batches with
  | [] => sys_getdents64 k fd BC_IO_DIRENT_READER_BUFFER_SIZE = (SysOk [], k')
  | b :: batches => exists k1, b <> [] /\ Forall dirent_ok b /\
      sys_getdents64 k fd BC_IO_DIRENT_READER_BUFFER_SIZE = (SysOk (encode_batch b), k1) /\
      serves k1 fd batches k'
  end.

Definition listed (ds : list dirent) : list dirent := filter (fun d => is_dot d = false) ds.

(** The worlds differ in the kernel's state and [errno] only. *)
Definition same_process (w w' : world) : Prop :=
  mem w' = mem w /\ heap w' = heap w /\ trace w' = trace w.

Lemma same_process_call w k e : same_process w (after_call w k e []).
Proof. split_and!; [done|done|simpl; by rewrite app_nil_r]. Qed.

Lemma same_process_trans w1 w2 w3 : same_process w1 w2 -> same_process w2 w3 -> same_process w1 w3.
Proof. intros (? & ? & ?) (? & ? & ?). split_and!; congruence. Qed.

Lemma next_serves fuel r w ds batches k' :
  reader_holds r ds -> Forall dirent_ok ds -> serves (env w) (dir_fd r) batches k' ->
  (length (ds ++ concat batches) < fuel)%nat ->
  exists answer r' w', bc_io_dirent_reader_next fuel r w = Done (Some answer, r', w') /\
    same_process w w' /\ dir_fd r' = dir_fd r /\
    match answer with
    | None => listed (ds ++ concat batches) = [] /\ env w' = k'
    | Some e => exists d ds' batches',
        listed (ds ++ concat batches) = d :: listed (ds' ++ concat batches') /\ tells e d /\
        reader_holds r' ds' /\ Forall dirent_ok ds' /\ serves (env w') (dir_fd r') batches' k' /\
        (length (ds' ++ concat batches') < length (ds ++ concat batches))%nat
    end.
Proof.
  revert r w ds batches. induction fuel as [|fuel IH]; intros r w ds batches Hr Hds Hserves Hfuel; [lia|].
  assert (Hrecord : forall r w d ds batches, reader_holds r (d :: ds) -> Forall dirent_ok (d :: ds) ->
    serves (env w) (dir_fd r) batches k' -> (length ((d :: ds) ++ concat batches) < S fuel)%nat ->
    exists answer r' w', bc_io_dirent_reader_next (S fuel) r w = Done (Some answer, r', w') /\
      same_process w w' /\ dir_fd r' = dir_fd r /\
      match answer with
      | None => listed ((d :: ds) ++ concat batches) = [] /\ env w' = k'
      | Some e => exists d' ds' batches',
          listed ((d :: ds) ++ concat batches) = d' :: listed (ds' ++ concat batches') /\ tells e d' /\
          reader_holds r' ds' /\ Forall dirent_ok ds' /\ serves (env w') (dir_fd r') batches' k' /\
          (length (ds' ++ concat batches') < length ((d :: ds) ++ concat batches))%nat
      end).
  { clear r w ds batches Hr Hds Hserves Hfuel. intros r w d ds batches Hr [Hd Hds]%Forall_cons Hserves Hfuel.
    destruct (next_record fuel r d ds w Hr Hd) as (r' & Hr' & Efd & _ & _ & _ & H).
    unfold listed. rewrite <- app_comm_cons, filter_cons. simpl in Hfuel.
    destruct (is_dot d) eqn:Edot.
    - rewrite (decide_False (P := true = false)) by done. rewrite H.
      destruct (IH r' w ds batches) as (answer & r2 & w2 & E & Hs & Hfd & Hans);
        [done|done|by rewrite Efd|lia|].
      exists answer, r2, w2. split_and!; [done|done|congruence|].
      destruct answer as [e|]; [|done]. destruct Hans as (d' & ds' & bs' & Hl & ? & ? & ? & ? & ?).
      exists d', ds', bs'. split_and!; try done. simpl. lia.
    - rewrite (decide_True (P := false = false)) by done. destruct H as (e & He & E).
      exists (Some e), r', w. split_and!; [done|done|done|]. exists d, ds, batches.
      split_and!; try done; [by rewrite Efd|simpl; lia]. }
  destruct ds as [|d ds]; [|by apply Hrecord].
  destruct batches as [|b batches].
  - exists None, r, (after_call w k' (errno w) []). rewrite (next_end fuel r w k' Hr Hserves).
    split_and!; try done. apply same_process_call.
  - destruct Hserves as (k1 & Hb & Hok & Hsys & Hserves). destruct b as [|d b]; [done|].
    destruct (next_refill fuel r (d :: b) w k1 Hr Hb Hsys) as (r1 & Hr1 & Efd & E). rewrite E.
    destruct (Hrecord r1 (after_call w k1 (errno w) []) d b batches Hr1 Hok)
      as (answer & r2 & w2 & E2 & Hs & Hfd & Hans); [simpl; by rewrite Efd|done|].
    exists answer, r2, w2. split_and!; [done| |congruence|done].
    eapply same_process_trans; [apply same_process_call|done].
Qed.

(** Reading a served directory to its end. *)
Lemma read_all_spec calls fuel r w ds batches k' :
  reader_holds r ds -> Forall dirent_ok ds -> serves (env w) (dir_fd r) batches k' ->
  (length (ds ++ concat batches) < fuel)%nat -> (length (ds ++ concat batches) < calls)%nat ->
  exists es r' w', read_all calls fuel r w = Done (Some es, r', w') /\
    same_process w w' /\ env w' = k' /\ Forall2 tells es (listed (ds ++ concat batches)).
Proof.
  revert r w ds batches. induction calls as [|calls IH];
    intros r w ds batches Hr Hds Hserves Hfuel Hcalls; [lia|]. cbn [read_all].
  destruct (next_serves fuel r w ds batches k' Hr Hds Hserves Hfuel)
    as (answer & r1 & w1 & E & Hs & Hfd & Hans).
  unfold mbind, M_bind. rewrite E. destruct answer as [e|].
  - destruct Hans as (d & ds' & bs' & Hl & He & Hr1 & Hds' & Hserves' & Hlt).
    destruct (IH r1 w1 ds' bs') as (es & r2 & w2 & E2 & Hs2 & Hk & Hall); [done..|lia|lia|].
    rewrite E2. exists (e :: es), r2, w2. rewrite Hl.
    split_and!; [done|by eapply same_process_trans|done|by constructor].
  - destruct Hans as [Hl Hk]. exists [], r1, w1. rewrite Hl. by split_and!.
Qed.

(** ** Properties *)

(** C13. Reading a directory through the reader gives back its entries.  When the
    kernel hands out batches of records and then the end of the directory, the
    calls of [bc_io_dirent_reader_next] return, in order, an entry with the name
    and the type of each record except "." and "..", and then no entry; they make
    no other system call and allocate nothing. *)
Theorem directory_read_back calls fuel r fd batches k' w :
  zlen (reader_buffer r) = BC_IO_DIRENT_READER_BUFFER_SIZE ->
  serves (env w) fd batches k' ->
  (length (concat batches) < fuel)%nat -> (length (concat batches) < calls)%nat ->
  exists es r' w',
    read_all calls fuel (bc_io_dirent_reader_reset r fd) w = Done (Some es, r', w') /\
    same_process w w' /\ env w' = k' /\ Forall2 tells es (listed (concat batches)).
Proof.
  intros Hsize Hserves Hfuel Hcalls.
  apply (read_all_spec calls fuel (bc_io_dirent_reader_reset r fd) w [] batches k'); try done.
  exists [], (reader_buffer r). by split_and!.
Qed.

(** C26. On any kernel [bc_io_dirent_reader_next] ends, without reading outside its
    buffer: with an entry that is not "." or "..", with no entry, or with false
    and the error of the system call as [last_errno]. *)
Theorem dirent_next_total fuel r w :
  reader_ok r -> (turns r w < fuel)%nat ->
  wp (bc_io_dirent_reader_next fuel r)
    (fun '(answer, r') w' =>
       quiet w w' /\ reader_ok r' /\ dir_fd r' = dir_fd r /\
       match answer with
       | None => bc_io_dirent_reader_last_errno r' = errno w'
       | Some None => True
       | Some (Some e) => exists d, tells e d /\ dirent_ok d /\ is_dot d = false
       end) w.
Proof.
  intros Hr Hfuel. eapply wp_mono; [by apply next_spec|].
  intros [answer r'] w' (Hq & _ & Hok & Hfd & _ & Hans). split_and!; try done.
  destruct answer as [[e|]|]; [apply Hans|done|done].
Qed.
End laws.

(** ** Witnesses *)

Definition named (s : string) (type : Z) : dirent := mk_dirent 7 1 type (bytes_of_string s) [0; 0].

(** Two batches, then the end. *)
Definition listing : list (list dirent) :=
  [[named "." 4; named ".." 4; named "a.c" 8]; [named "..." 8; named "sub" 4]].
Definition listing_script : script :=
  mk_script [] [] [] [] [] [] (SysOk <$> listing).

Definition idle_reader : bc_io_dirent_reader_t := mk_reader (-1) 0 0 0 (zrepeat 165 8192).

Example listing_read :
  safe (read_all 9 9 (bc_io_dirent_reader_reset idle_reader 3) (scripted_world listing_script))
    (fun '(es, r, w) =>
       option_map (map (fun e => ztake (entry_name_length e) (entry_name e))) es =
         Some [bytes_of_string "a.c"; bytes_of_string "..."; bytes_of_string "sub"]).
Proof. by vm_compute. Qed.

Lemma directory_read_back_witness :
  exists es r' w',
    read_all 9 9 (bc_io_dirent_reader_reset idle_reader 3) (scripted_world listing_script) =
      Done (Some es, r', w') /\
    same_process (scripted_world listing_script) w' /\ env w' = quiet_script /\
    Forall2 tells es [named "a.c" 8; named "..." 8; named "sub" 4].
Proof.
  apply (directory_read_back (PF := scripted_platform) 9 9 idle_reader 3 listing quiet_script (scripted_world listing_script)).
  - by vm_compute.
  - eexists. split_and!; [done| |by vm_compute|].
    { refine (bool_decide_unpack _ _). by vm_compute. }
    eexists. split_and!; [done| |by vm_compute|by vm_compute].
    refine (bool_decide_unpack _ _). by vm_compute.
  - vm_compute. lia.
  - vm_compute. lia.
Defined.

Lemma dirent_next_total_witness :
  wp (bc_io_dirent_reader_next 20000 (bc_io_dirent_reader_reset idle_reader 3))
    (fun '(answer, r') w' =>
       quiet (scripted_world listing_script) w' /\ reader_ok r' /\ dir_fd r' = 3 /\
       match answer with
       | None => bc_io_dirent_reader_last_errno r' = errno w'
       | Some None => True
       | Some (Some e) => exists d, tells e d /\ dirent_ok d /\ is_dot d = false
       end) (scripted_world listing_script).
Proof.
  apply (dirent_next_total 20000 (bc_io_dirent_reader_reset idle_reader 3)).
  - apply reset_ok. by vm_compute.
  - apply Nat.ltb_lt. by vm_compute.
Defined.
