(* ===== verification/Mmap.v ===== *)
(** * Memory-mapped files ([src/mmap/bc_io_mmap.c])

    A map object owns a mapping of a file and, once asked for, a memory stream
    over it.  The pages themselves are not modelled: a mapping is an address and
    a size, and what the code does with them is system calls. *)

From S2P Require Import Prelude Platform Objects Machine Scripted StreamIo Stream StreamWrite StreamLife.

Definition sizeof_bc_io_mmap_t : Z := 40.

Definition bc_io_mmap_hint_to_madvise (hint : bc_io_mmap_madvise_hint_t) : Z :=
  match hint with
  | BC_IO_MADVISE_NORMAL => MADV_NORMAL
  | BC_IO_MADVISE_SEQUENTIAL => MADV_SEQUENTIAL
  | BC_IO_MADVISE_RANDOM => MADV_RANDOM
  | BC_IO_MADVISE_WILLNEED => MADV_WILLNEED
  | BC_IO_MADVISE_DONTNEED => MADV_DONTNEED
  end.

Definition bc_io_mmap_get_data (m : bc_io_mmap_t) : Z * Z := (base_address m, mapped_size m).

Section mmap.
Context {PF : Platform}.

Definition bc_io_mmap_create_from_address (base size : Z) : M (option Z) :=
  map ← bc_allocators_pool_allocate sizeof_bc_io_mmap_t;
  match map with
  | None => mret None
  | Some map => store map (OMap (mk_map base size 0 true));; mret (Some map)
  end.

(** The mapping of [mapped_size > 0] bytes, with the fallback without huge pages;
    [None] when both fail. *)
Definition map_pages (options : bc_io_mmap_options_t) (fd size offset : Z) : M (option Z) :=
  let mmap_flags := MAP_SHARED in
  let mmap_flags := if populate options then Z.lor mmap_flags MAP_POPULATE else mmap_flags in
  let mmap_flags := if hugepages_hint options then Z.lor mmap_flags MAP_HUGETLB else mmap_flags in
  base ← mmap_ size PROT_READ mmap_flags fd (signed64 offset);
  match base with
  | Some base => mret (Some base)
  | None =>
      if hugepages_hint options then
        mmap_ size PROT_READ (Z.ldiff mmap_flags MAP_HUGETLB) fd (signed64 offset)
      else mret None
  end.

Definition bc_io_mmap_file (path : list Z) (options : bc_io_mmap_options_t) : M (option Z) :=
  page_size ← bc_allocators_context_page_size;
  match page_size with
  | None => mret None
  | Some page_size =>
      if decide (map_offset options <> 0 /\ map_offset options mod page_size <> 0) then
        set_errno EINVAL;; mret None
      else
        file_descriptor ← open_ path (Z.lor (Z.lor O_RDONLY O_CLOEXEC) O_NOFOLLOW) 0;
        if decide (file_descriptor < 0) then mret None
        else
          stat_buffer ← fstat file_descriptor;
          match stat_buffer with
          | None => close file_descriptor;; mret None
          | Some st =>
              let file_size := wrap64 (st_size st) in
              if decide (map_length options = 0 /\ file_size < map_offset options) then
                close file_descriptor;; set_errno EINVAL;; mret None
              else
                let size := if decide (map_length options = 0)
                            then file_size -u map_offset options else map_length options in
                base ← (if decide (0 < size) then
                          base ← map_pages options file_descriptor size (map_offset options);
                          match base with
                          | None => close file_descriptor;; mret None
                          | Some base =>
                              (if decide (madvise_hint options <> BC_IO_MADVISE_NORMAL) then
                                 madvise base size (bc_io_mmap_hint_to_madvise (madvise_hint options));;
                                 mret tt
                               else mret tt);;
                              mret (Some base)
                          end
                        else mret (Some 0));
                match base with
                | None => mret None
                | Some base =>
                    close file_descriptor;;
                    map ← bc_io_mmap_create_from_address base size;
                    match map with
                    | Some map => mret (Some map)
                    | None =>
                        (if decide (base <> 0) then munmap base size else mret tt);; mret None
                    end
                end
          end
  end.

Definition bc_io_mmap_get_stream (map : Z) : M (option Z) :=
  m ← load_map map;
  if decide (map_stream m <> 0) then mret (Some (map_stream m))
  else
    stream ← bc_io_stream_open_memory (base_address m) (mapped_size m);
    match stream with
    | None => mret None
    | Some stream => store map (OMap (set_map_stream stream m));; mret (Some stream)
    end.

Definition bc_io_mmap_advise (m : bc_io_mmap_t) (offset length : Z)
    (hint : bc_io_mmap_madvise_hint_t) : M bool :=
  if decide (is_mapped m = false \/ base_address m = 0 \/ length = 0) then mret true
  else
    r ← madvise (base_address m +u offset) length (bc_io_mmap_hint_to_madvise hint);
    if decide (r <> 0) then mret false else mret true.

Definition bc_io_mmap_unmap (map : Z) : M bool :=
  m ← load_map map;
  if negb (is_mapped m) then mret true
  else
    (if decide (base_address m <> 0 /\ 0 < mapped_size m)
     then munmap (base_address m) (mapped_size m) else mret tt);;
    store map (OMap (mk_map 0 0 (map_stream m) false));;
    mret true.

Definition bc_io_mmap_destroy (fuel : nat) (map : Z) : M unit :=
  m ← load_map map;
  (if decide (map_stream m <> 0) then
     bc_io_stream_close fuel (map_stream m);; store map (OMap (set_map_stream 0 m))
   else mret tt);;
  (if decide (is_mapped m = true /\ base_address m <> 0 /\ 0 < mapped_size m)
   then munmap (base_address m) (mapped_size m) else mret tt);;
  bc_allocators_pool_free map.

(** What destroying the map gives back, its stream apart. *)
Definition map_resources (p : Z) (m : bc_io_mmap_t) : list resource :=
  RPool p ::
  (if decide (is_mapped m = true /\ base_address m <> 0 /\ 0 < mapped_size m)
   then [RMap (base_address m) (mapped_size m)] else []).

(** ** Lemmas *)

Section laws.
Context {PL : PlatformLaws PF}.

Lemma create_from_address_spec base size w :
  wf_world w ->
  wp (bc_io_mmap_create_from_address base size)
    (fun r w' =>
       match r with
       | None => evolved (heap w) nothing w w'
       | Some p => heap w !! p = None /\ p <> 0 /\
           evolved (<[p := OMap (mk_map base size 0 true)]> (heap w)) (tokens [RPool p]) w w'
       end) w.
Proof.
  intros Hwf. unfold bc_io_mmap_create_from_address. wp_run; [|solve_evolved].
  split_and!; [by apply wf_world_dom|done|solve_evolved].
Qed.

(** A mapping taken, or nothing. *)
Lemma map_pages_spec options fd size offset w :
  wf_world w ->
  wp (map_pages options fd size offset)
    (fun r w' =>
       evolved (heap w) (tokens (match r with Some a => [RMap a size] | None => [] end)) w w' /\
       match r with Some a => a <> 0 | None => True end) w.
Proof.
  intros Hwf. unfold map_pages. wp_run; (split; [solve_evolved|done]).
Qed.

Lemma munmap_evolved a n w :
  wf_world w -> wp (munmap a n) (fun _ w' => evolved (heap w) (fun r => - one r (RMap a n)) w w') w.
Proof. intros Hwf. apply wp_munmap. intros k Hk. solve_evolved. Qed.

(** Every path of [bc_io_mmap_file] closes the file; success holds the mapping
    and the map object. *)
Lemma mmap_file_life path options w :
  wf_world w -> is_u64 (map_length options) ->
  wp (bc_io_mmap_file path options)
    (fun r w' =>
       match r with
       | None => evolved (heap w) nothing w w'
       | Some p => exists base size,
           heap w !! p = None /\ p <> 0 /\ is_u64 size /\ (base = 0 <-> size = 0) /\
           evolved (<[p := OMap (mk_map base size 0 true)]> (heap w))
             (tokens (map_resources p (mk_map base size 0 true))) w w'
       end) w.
Proof.
  intros Hwf Hlen. unfold bc_io_mmap_file, bc_io_mmap_create_from_address, map_pages.
  pose proof wrap64_range as Hwrap. unfold is_u64 in *.
  wp_run; try solve_evolved.
  all: match goal with |- context [OMap (mk_map ?b ?n 0 true)] => exists b, n; set (size := n) in * end.
  all: assert (0 <= size < u64_modulus) by (subst size; case_decide; [apply Hwrap|lia]).
  all: split_and!; [by apply wf_world_dom|done|lia|lia|lia|].
  all: unfold map_resources; simpl.
  all: try (rewrite decide_True by (split_and!; [done|done|lia])).
  all: try (rewrite decide_False by (by intros (_ & ? & _))).
  all: clearbody size; solve_evolved.
Qed.
(** ** The stream of a map *)

(** A map at [p] with its stream, if it has one. *)
Definition map_at (h : gmap Z object) (p : Z) (m : bc_io_mmap_t) : Prop :=
  h !! p = Some (OMap m) /\
  (map_stream m <> 0 -> exists s, h !! map_stream m = Some (OStream s) /\ wf_stream s /\
     source_type s = BC_IO_STREAM_SOURCE_MEMORY /\ buffer_used s = 0 /\ buffer_arena s = 0 /\ owns_file_descriptor s = false).

(** What destroying the map gives back, and the heap it leaves. *)
Definition map_stream_resources (m : bc_io_mmap_t) : list resource :=
  if decide (map_stream m <> 0) then [RPool (map_stream m)] else [].
Definition without_map (h : gmap Z object) (p : Z) (m : bc_io_mmap_t) : gmap Z object :=
  delete p (if decide (map_stream m <> 0) then delete (map_stream m) h else h).

(** The stream is created once; a later call returns the same one. *)
Lemma get_stream_first p m w :
  wf_world w -> heap w !! p = Some (OMap m) -> map_stream m = 0 -> is_u64 (mapped_size m) ->
  wp (bc_io_mmap_get_stream p)
    (fun r w' =>
       match r with
       | None => evolved (heap w) nothing w w'
       | Some q => exists s, heap w !! q = None /\ q <> 0 /\
           memory_data s = base_address m /\ memory_size s = mapped_size m /\
           source_type s = BC_IO_STREAM_SOURCE_MEMORY /\
           map_at (<[p := OMap (set_map_stream q m)]> (<[q := OStream s]> (heap w))) p (set_map_stream q m) /\
           evolved (<[p := OMap (set_map_stream q m)]> (<[q := OStream s]> (heap w)))
             (tokens [RPool q]) w w'
       end) w.
Proof.
  intros Hwf Hp Hm Hsize. apply wp_bind. eapply wp_load_map; [done|].
  rewrite decide_False by (rewrite Hm; tauto). apply wp_bind.
  eapply wp_mono; [by apply open_memory_life|]. intros [q|] w1; [|intros He; by apply wp_ret].
  intros (s & Hq & Hq0 & [Hs Hused _ _ _] & _ & Hsrc & Hdata & Hms & _ & _ & _ & Hown & Harena & He).
  assert (Hne : p <> q) by congruence. destruct He as [Hh Hd Hw Hpat].
  apply wp_bind. eapply wp_store; [rewrite Hh; by simplify_map_eq|]. apply wp_ret.
  exists s. split_and!; try done.
  - split; [by simplify_map_eq|]. intros _. simpl. exists s. split; [by simplify_map_eq|done].
  - split; simpl; [by rewrite Hh|exact Hd| |exact Hpat].
    unfold wf_world in *. simpl. rewrite Hh, !dom_insert_L in *.
    apply elem_of_dom_2 in Hp. set_solver.
Qed.

Lemma get_stream_again p m w :
  heap w !! p = Some (OMap m) -> map_stream m <> 0 ->
  bc_io_mmap_get_stream p w = Done (Some (map_stream m), w).
Proof.
  intros Hp Hm. unfold bc_io_mmap_get_stream, load_map, load, mbind, M_bind. rewrite Hp. simpl.
  by rewrite decide_True.
Qed.

(** Destroying a map gives back its stream, its mapping and itself. *)
Lemma mmap_destroy_life fuel p m w :
  wf_world w -> map_at (heap w) p m -> (patience (env w) < fuel)%nat ->
  wp (bc_io_mmap_destroy fuel p)
    (fun _ w' => evolved (without_map (heap w) p m)
       (fun r => - tokens (map_resources p m ++ map_stream_resources m) r) w w') w.
Proof.
  intros Hwf [Hp Hstream] Hfuel. apply wp_bind. eapply wp_load_map; [done|].
  unfold without_map, map_stream_resources, map_resources. apply wp_bind.
  eapply (wp_mono _ (fun _ w1 => exists o,
    evolved (<[p := o]> (if decide (map_stream m <> 0) then delete (map_stream m) (heap w) else heap w))
      (fun r => - tokens (map_stream_resources m) r) w w1)).
  { unfold map_stream_resources. destruct (decide (map_stream m <> 0)) as [Hm|Hm].
    - destruct (Hstream Hm) as (s & Hq & Hs & _ & Hused & Harena & Hown).
      assert (p <> map_stream m) by congruence.
      apply wp_bind. eapply wp_mono; [apply (close_life fuel _ s); [done|done|done|]|].
      { unfold enough. rewrite Hused. simpl. lia. }
      intros ? w1 [[Hh Hd Hw Hpat] _].
      eapply wp_store; [rewrite Hh; by simplify_map_eq|].
      exists (OMap (set_map_stream 0 m)). split; simpl; [by rewrite Hh| | |exact Hpat].
      + intros r. change (held (mk_world _ _ _ _ _) r) with (held w1 r). rewrite Hd.
        unfold stream_resources. rewrite Hown, decide_False by tauto. simpl. lia.
      + unfold wf_world in *. simpl. rewrite dom_insert_L. apply union_subseteq. split; [|done].
        assert (Hin : p ∈ dom (heap w1)) by (rewrite Hh; apply elem_of_dom; by simplify_map_eq).
        set_solver.
    - apply wp_ret. exists (OMap m). split; [by rewrite insert_id|simpl; lia|done|done]. }
  intros ? w1 (o & [Hh Hd Hw Hpat]). apply wp_bind.
  eapply (wp_mono _ (fun _ w2 => evolved (heap w1) (fun r => - tokens
    (if decide (is_mapped m = true /\ base_address m <> 0 /\ 0 < mapped_size m)
     then [RMap (base_address m) (mapped_size m)] else []) r) w1 w2)).
  { destruct (decide (is_mapped m = true /\ base_address m <> 0 /\ 0 < mapped_size m)).
    - eapply wp_mono; [apply munmap_evolved; exact Hw|]. intros ? w2 He. eapply evolved_ext; [exact He|done|].
      intros r. simpl. lia.
    - apply wp_ret. split; [done|simpl; lia|done|done]. }
  intros ? w2 [Hh2 Hd2 Hw2 Hpat2]. eapply wp_pool_free; [rewrite Hh2, Hh; by simplify_map_eq|].
  intros mm Hmm. split; simpl; [|intros r| |lia].
  - by rewrite Hh2, Hh, delete_insert_eq.
  - unfold held in *. simpl. rewrite ledger_app. specialize (Hd r). specialize (Hd2 r).
    rewrite tokens_app. unfold map_stream_resources in *. simpl. lia.
  - unfold wf_world in *. simpl. rewrite Hmm, dom_delete_L. set_solver.
Qed.
(** [owns_map w0 p m w]: since [w0] the process took the map at [p], with its
    mapping and its stream, and nothing else. *)
Definition owns_map (w0 : world) (p : Z) (m : bc_io_mmap_t) (w : world) : Prop :=
  exists h, evolved h (tokens (map_resources p m ++ map_stream_resources m)) w0 w /\
    map_at h p m /\ without_map h p m = heap w0 /\ is_u64 (mapped_size m).

Lemma get_stream_owns w0 p m w :
  owns_map w0 p m w ->
  wp (bc_io_mmap_get_stream p)
    (fun r w' =>
       match r with
       | None => map_stream m = 0 /\ owns_map w0 p m w'
       | Some q => q <> 0 /\ (map_stream m <> 0 -> q = map_stream m) /\
           owns_map w0 p (set_map_stream q m) w'
       end) w.
Proof.
  intros (h & He & [Hp Hs] & Hh0 & Hsz). destruct (decide (map_stream m = 0)) as [Hm|Hm].
  - pose proof He as [Hh Hd Hw Hpat]. subst h.
    eapply wp_mono; [by apply get_stream_first|]. intros [q|] w'.
    + intros (s & Hq & Hq0 & _ & _ & _ & Hat & He'). split_and!; [done|done|].
      assert (Hpq : p <> q) by congruence.
      eexists. split_and!; [|exact Hat| |done].
      * eapply evolved_ext; [eapply evolved_trans; [exact He|exact He']|done|].
        intros r. unfold map_stream_resources, map_resources. simpl.
        rewrite (decide_False (P := map_stream m <> 0)) by tauto.
        rewrite (decide_True (P := q <> 0)) by done. rewrite !tokens_app. simpl. lia.
      * rewrite <- Hh0. unfold without_map. simpl.
        rewrite (decide_False (P := map_stream m <> 0)) by tauto.
        rewrite (decide_True (P := q <> 0)) by done.
        rewrite delete_insert_ne, delete_insert_eq, delete_insert_eq by done.
        by rewrite (delete_id _ q).
    + intros He'. split; [done|]. exists (heap w). split_and!; try done.
      eapply evolved_ext; [eapply evolved_trans; [exact He|exact He']|done|].
      intros r. unfold nothing. lia.
  - destruct He as [Hh Hd Hw Hpat]. unfold wp. rewrite (get_stream_again p m) by (by rewrite ?Hh).
    simpl. split_and!; [done|done|]. replace (set_map_stream (map_stream m) m) with m by by destruct m.
    exists h. by split_and!.
Qed.

(** Unmapping gives the pages back once; the stream stays, over memory that is
    no longer there. *)
Lemma unmap_owns w0 p m w :
  owns_map w0 p m w ->
  wp (bc_io_mmap_unmap p)
    (fun r w' => r = true /\ exists m', owns_map w0 p m' w' /\
       is_mapped m' = false /\ map_stream m' = map_stream m) w.
Proof.
  intros (h & He & [Hp Hs] & Hh0 & Hsz). pose proof He as [Hh Hd Hw Hpat]. subst h.
  apply wp_bind. eapply wp_load_map; [done|]. destruct (is_mapped m) eqn:Hmapped; simpl.
  2: { apply wp_ret. split; [done|]. exists m. split_and!; try done. exists (heap w). by split_and!. }
  apply wp_bind. eapply (wp_mono _ (fun _ w2 => evolved (heap w) (fun r => - tokens
    (if decide (is_mapped m = true /\ base_address m <> 0 /\ 0 < mapped_size m)
     then [RMap (base_address m) (mapped_size m)] else []) r) w w2)).
  { destruct (decide (base_address m <> 0 /\ 0 < mapped_size m)) as [H|H].
    - rewrite decide_True by done. eapply wp_mono; [apply munmap_evolved; exact Hw|].
      intros ? w2 He2. eapply evolved_ext; [exact He2|done|]. intros r. simpl. lia.
    - rewrite decide_False by tauto. apply wp_ret. split; [done|simpl; lia|done|done]. }
  intros ? w2 [Hh2 Hd2 Hw2 Hpat2]. apply wp_bind. eapply wp_store; [by rewrite Hh2|].
  apply wp_ret. split; [done|]. exists (mk_map 0 0 (map_stream m) false). split_and!; try done.
  exists (<[p := OMap (mk_map 0 0 (map_stream m) false)]> (heap w)). split_and!.
  - split; simpl; [by rewrite Hh2| | |lia].
    + intros r. change (held (mk_world _ _ _ _ _) r) with (held w2 r). rewrite Hd2, Hd.
      unfold map_resources, map_stream_resources. simpl.
      rewrite !tokens_app. simpl. lia.
    + unfold wf_world in *. simpl. rewrite Hh2, dom_insert_L in *.
      apply elem_of_dom_2 in Hp. set_solver.
  - split; [by simplify_map_eq|]. simpl. intros Hm. destruct (Hs Hm) as (s & Hq & Hrest).
    exists s. split; [|done]. by rewrite lookup_insert_ne by congruence.
  - rewrite <- Hh0. unfold without_map. simpl.
    destruct (decide (map_stream m <> 0)) as [Hm|Hm].
    + destruct (Hs Hm) as (s & Hq & _).
      rewrite delete_insert_ne by congruence. by rewrite delete_insert_eq.
    + by rewrite delete_insert_eq.
  - done.
Qed.

Lemma destroy_owns fuel w0 p m w :
  owns_map w0 p m w -> (patience (env w0) < fuel)%nat ->
  wp (bc_io_mmap_destroy fuel p) (fun _ w' => evolved (heap w0) nothing w0 w') w.
Proof.
  intros (h & He & Hat & Hh0 & _) Hfuel. pose proof He as [Hh Hd Hw Hpat]. subst h.
  eapply wp_mono; [apply (mmap_destroy_life fuel p m w Hw Hat); lia|]. intros ? w' He'.
  eapply evolved_ext; [eapply evolved_trans; [exact He|exact He']|done|].
  intros r. unfold nothing. lia.
Qed.

Lemma mmap_file_owns path options w :
  wf_world w -> is_u64 (map_length options) ->
  wp (bc_io_mmap_file path options)
    (fun r w' => match r with
       | None => evolved (heap w) nothing w w'
       | Some p => exists m, owns_map w p m w'
       end) w.
Proof.
  intros Hwf Hlen. eapply wp_mono; [by apply mmap_file_life|]. intros [p|] w1; [|done].
  intros (base & size & Hp & _ & Hsz & _ & He). exists (mk_map base size 0 true).
  eexists. split_and!; [| | |done].
  - eapply evolved_ext; [exact He|done|]. intros r. rewrite tokens_app. simpl. lia.
  - split; [by simplify_map_eq|done].
  - unfold without_map. simpl. by rewrite delete_insert_eq, delete_id.
Qed.

Lemma owns_map_load w0 p m w : owns_map w0 p m w -> heap w !! p = Some (OMap m).
Proof. intros (h & He & [Hp _] & _). by rewrite (evolved_heap _ _ _ _ He). Qed.

Lemma owns_map_quiet w0 p m w w' : owns_map w0 p m w -> quiet w w' -> owns_map w0 p m w'.
Proof.
  intros (h & He & Hat & Hrest) Hq. exists h. split; [|done].
  pose proof (evolved_heap _ _ _ _ He) as Hh.
  eapply evolved_ext; [eapply evolved_trans; [exact He|eapply evolved_quiet; [exact Hq|apply He]]|done|].
  intros r. unfold nothing. lia.
Qed.

(** ** Properties *)

(** C20. A session on a mapped file is balanced whatever happens in it.  The open,
    the stat, the mapping (with and without huge pages) or an allocation fails, a
    stream is asked for or not, the file is unmapped before the map is destroyed
    or not: at the end the heap is the one before, and the descriptor, the
    mapping, the map and its stream have each been given back exactly once.  The
    stream of a map is created once: asked again, the map returns the same. *)
Theorem map_session_balanced fuel path options (unmap_first : bool) w :
  wf_world w -> is_u64 (map_length options) -> (patience (env w) < fuel)%nat ->
  wp (map ← bc_io_mmap_file path options;
      match map with
      | None => mret None
      | Some p =>
          s1 ← bc_io_mmap_get_stream p;
          s2 ← bc_io_mmap_get_stream p;
          (if unmap_first then bc_io_mmap_unmap p;; mret tt else mret tt);;
          bc_io_mmap_destroy fuel p;;
          mret (Some (s1, s2))
      end)
    (fun r w' => heap w' = heap w /\ (forall x, held w' x = held w x) /\
       match r with
       | Some (Some q, s2) => s2 = Some q
       | _ => True
       end) w.
Proof.
  intros Hwf Hlen Hfuel. apply wp_bind. eapply wp_mono; [by apply mmap_file_owns|].
  intros [p|] w1; [|intros [? ?]%evolved_balanced; by apply wp_ret]. intros (m0 & H1).
  apply wp_bind. eapply wp_mono; [exact (get_stream_owns w p _ w1 H1)|]. intros r1 w2 H2.
  assert (exists m, owns_map w p m w2 /\ map_stream m = default 0 r1 /\ r1 <> Some 0)
    as (m & Hm & Hms & Hr1) by (destruct r1; naive_solver).
  apply wp_bind. eapply wp_mono; [exact (get_stream_owns w p m w2 Hm)|]. intros r2 w3 H3.
  assert (exists m', owns_map w p m' w3 /\ match r1 with Some q => r2 = Some q | _ => True end)
    as (m' & Hm' & Hr2).
  { destruct r2 as [q2|]; destruct r1 as [q1|]; simpl in *; naive_solver. }
  apply wp_bind. eapply (wp_mono _ (fun _ w4 => exists m4, owns_map w p m4 w4)).
  { destruct unmap_first; [|apply wp_ret; by exists m'].
    apply wp_bind. eapply wp_mono; [exact (unmap_owns w p m' w3 Hm')|].
    intros ? w4 (_ & m4 & H4 & _). apply wp_ret. by exists m4. }
  intros ? w4 (m4 & H4). apply wp_bind. eapply wp_mono; [exact (destroy_owns fuel w p m4 w4 H4 Hfuel)|].
  intros ? w5 [? ?]%evolved_balanced. apply wp_ret. split_and!; [done|done|].
  destruct r1; [by subst|done].
Qed.
End laws.
End mmap.

(** ** Witnesses *)

(** Huge pages are refused, the second mapping succeeds; the map is allocated but
    its stream is refused once. *)
Definition huge_script : script :=
  mk_script [SysOk 3] [] [] [SysOk (regular_file 100)] [SysErr ENOMEM; SysOk 8192] [] [].
Definition huge_world : world :=
  mk_world huge_script (mk_pool ∅ [false; true]) 0 ∅ [].
Definition huge_options : bc_io_mmap_options_t :=
  mk_mmap_options true true true BC_IO_MADVISE_SEQUENTIAL 0 0.

Lemma map_session_balanced_witness :
  wp (map ← bc_io_mmap_file [97] huge_options;
      match map with
      | None => mret None
      | Some p =>
          s1 ← bc_io_mmap_get_stream p;
          s2 ← bc_io_mmap_get_stream p;
          (bc_io_mmap_unmap p;; mret tt);;
          bc_io_mmap_destroy 9 p;;
          mret (Some (s1, s2))
      end)
    (fun r w' => heap w' = ∅ /\ (forall x, held w' x = 0) /\
       match r with
       | Some (Some q, s2) => s2 = Some q
       | _ => True
       end) huge_world.
Proof.
  apply (map_session_balanced 9 [97] huge_options true huge_world);
    [unfold wf_world; simpl; set_solver|concrete|concrete].
Defined.

Example map_session_run :
  safe ((map ← bc_io_mmap_file [97] huge_options;
         match map with
         | None => mret None
         | Some p =>
             s1 ← bc_io_mmap_get_stream p;
             s2 ← bc_io_mmap_get_stream p;
             bc_io_mmap_destroy 9 p;;
             mret (Some (s1, s2))
         end) huge_world)
    (fun '(r, w) => r = Some (None, Some 2)).
Proof. by vm_compute. Qed.
