(* ===== verification/FileOpen.v ===== *)
(** * Opening files for reading ([src/file/bc_io_file_open.c])

    [bc_io_file_open_read] gives a buffered stream; [bc_io_file_open_auto] a
    handle on a buffered stream for small files and on a memory-mapped one for
    large files.  The stream does not own the descriptor it reads, so no call of
    the library closes it: the sessions below state exactly what is left. *)

From S2P Require Import Prelude Platform Objects Machine Scripted.
From S2P Require Import StreamIo Stream StreamWrite StreamRead StreamLife FilePath Mmap.

Definition BC_IO_OPEN_DEFAULT_BUFFER_SIZE : Z := 65536.
Definition BC_IO_OPEN_DEFAULT_THRESHOLD : Z := 262144.
Definition sizeof_bc_io_file_read_handle_t : Z := 40.

Record bc_io_file_open_options_t := mk_open_options {
  use_noatime : bool;
  nonblock : bool;
  fadvise_hint : bc_io_mmap_madvise_hint_t;
  open_buffer_size : Z;
}.

Definition bc_io_file_open_options_flags (options : bc_io_file_open_options_t) : Z :=
  let additional := 0 in
  if nonblock options then Z.lor additional O_NONBLOCK else additional.

Definition bc_io_file_read_handle_get_stream (h : bc_io_file_read_handle_t) : Z := handle_stream h.

Definition bc_io_file_read_handle_is_memory_mapped (h : bc_io_file_read_handle_t) : bool :=
  bool_decide (handle_kind h = Some BC_IO_READ_HANDLE_KIND_MEMORY_MAPPED).

Definition bc_io_file_read_handle_get_size (h : bc_io_file_read_handle_t) : Z := handle_file_size h.

Section file_open.
Context {PF : Platform}.

Definition bc_io_file_open_resolve_descriptor (path : list Z)
    (options : bc_io_file_open_options_t) : M (option Z) :=
  let additional_flags := bc_io_file_open_options_flags options in
  if use_noatime options then bc_io_file_open_for_read path additional_flags
  else
    let flags := Z.lor (Z.lor (Z.lor O_RDONLY O_CLOEXEC) O_NOFOLLOW) additional_flags in
    file_descriptor ← open_ path flags 0;
    if decide (file_descriptor < 0) then mret None else mret (Some file_descriptor).

Definition effective_buffer_size (options : bc_io_file_open_options_t) : Z :=
  if decide (open_buffer_size options <> 0) then open_buffer_size options
  else BC_IO_OPEN_DEFAULT_BUFFER_SIZE.

Definition bc_io_file_open_read (path : list Z) (options : bc_io_file_open_options_t)
    : M (option Z) :=
  file_descriptor ← bc_io_file_open_resolve_descriptor path options;
  match file_descriptor with
  | None => mret None
  | Some fd =>
      stream ← bc_io_stream_open_file_descriptor fd BC_IO_STREAM_SOURCE_FILE
                 BC_IO_STREAM_MODE_READ (effective_buffer_size options);
      match stream with
      | None => close fd;; mret None
      | Some stream => mret (Some stream)
      end
  end.

(** [open_auto] once the handle is allocated, for a small file. *)
Definition open_auto_buffered (handle fd file_size : Z) (options : bc_io_file_open_options_t)
    : M (option Z) :=
  stream ← bc_io_stream_open_file_descriptor fd BC_IO_STREAM_SOURCE_FILE
             BC_IO_STREAM_MODE_READ (effective_buffer_size options);
  match stream with
  | None => close fd;; bc_allocators_pool_free handle;; mret None
  | Some stream =>
      store handle (OHandle (mk_handle (Some BC_IO_READ_HANDLE_KIND_BUFFERED) stream 0 file_size));;
      mret (Some handle)
  end.

(** The same for a large file. *)
Definition open_auto_mapped (fuel : nat) (handle fd file_size : Z) : M (option Z) :=
  base ← (if decide (0 < file_size) then
            base ← mmap_ file_size PROT_READ MAP_SHARED fd 0;
            match base with
            | None => close fd;; bc_allocators_pool_free handle;; mret None
            | Some base => mret (Some base)
            end
          else mret (Some 0));
  match base with
  | None => mret None
  | Some base =>
      close fd;;
      map ← bc_io_mmap_create_from_address base file_size;
      match map with
      | None =>
          (if decide (base <> 0) then munmap base file_size else mret tt);;
          bc_allocators_pool_free handle;;
          mret None
      | Some map =>
          stream ← bc_io_mmap_get_stream map;
          match stream with
          | None =>
              bc_io_mmap_destroy fuel map;;
              bc_allocators_pool_free handle;;
              mret None
          | Some stream =>
              store handle (OHandle
                (mk_handle (Some BC_IO_READ_HANDLE_KIND_MEMORY_MAPPED) stream map file_size));;
              mret (Some handle)
          end
      end
  end.

Definition effective_threshold (mmap_threshold : Z) : Z :=
  if decide (mmap_threshold = 0) then BC_IO_OPEN_DEFAULT_THRESHOLD else mmap_threshold.

Definition bc_io_file_open_auto (fuel : nat) (path : list Z) (mmap_threshold : Z)
    (options : bc_io_file_open_options_t) : M (option Z) :=
  file_descriptor ← bc_io_file_open_resolve_descriptor path options;
  match file_descriptor with
  | None => mret None
  | Some fd =>
      stat_buffer ← fstat fd;
      match stat_buffer with
      | None => close fd;; mret None
      | Some st =>
          let file_size := wrap64 (st_size st) in
          handle ← bc_allocators_pool_allocate sizeof_bc_io_file_read_handle_t;
          match handle with
          | None => close fd;; mret None
          | Some handle =>
              store handle (OHandle (mk_handle None 0 0 file_size));;
              if decide (file_size < effective_threshold mmap_threshold)
              then open_auto_buffered handle fd file_size options
              else open_auto_mapped fuel handle fd file_size
          end
      end
  end.

(** The kind of a handle that [open_auto] did not return is not set. *)
Definition bc_io_file_read_handle_destroy (fuel : nat) (handle : Z) : M unit :=
  h ← load_handle handle;
  match handle_kind h with
  | None => undefined
  | Some kind =>
      (if decide (kind = BC_IO_READ_HANDLE_KIND_MEMORY_MAPPED) then
         if decide (handle_map h <> 0) then bc_io_mmap_destroy fuel (handle_map h) else mret tt
       else
         if decide (handle_stream h <> 0) then bc_io_stream_close fuel (handle_stream h)
         else mret tt);;
      bc_allocators_pool_free handle
  end.

(** Client sessions. *)
Definition open_read_session (calls fuel : nat) (path : list Z)
    (options : bc_io_file_open_options_t) : M (option (list Z)) :=
  stream ← bc_io_file_open_read path options;
  match stream with
  | None => mret None
  | Some p =>
      s ← load_stream p;
      '(chunks, s, _) ← drain calls fuel s;
      store p (OStream s);;
      bc_io_stream_close fuel p;;
      mret (Some (delivered chunks))
  end.

Definition open_auto_session (fuel : nat) (path : list Z) (threshold : Z)
    (options : bc_io_file_open_options_t) : M (option bc_io_file_read_handle_t) :=
  handle ← bc_io_file_open_auto fuel path threshold options;
  match handle with
  | None => mret None
  | Some p =>
      h ← load_handle p;
      bc_io_file_read_handle_destroy fuel p;;
      mret (Some h)
  end.

(** ** Lemmas *)

Section laws.
Context {PL : PlatformLaws PF}.

Lemma resolve_descriptor_spec path options w :
  wf_world w ->
  wp (bc_io_file_open_resolve_descriptor path options)
    (fun r w' =>
       evolved (heap w) (tokens (match r with Some fd => [RFd fd] | None => [] end)) w w' /\
       match r with Some fd => 0 <= fd | None => True end) w.
Proof.
  intros Hwf. unfold bc_io_file_open_resolve_descriptor. destruct (use_noatime options).
  - eapply wp_mono; [by apply open_for_read_spec|]. by intros r w' (? & ? & _).
  - wp_run; (split; [solve_evolved|done]).
Qed.

Lemma effective_buffer_alignable options :
  alignable (open_buffer_size options) -> alignable (effective_buffer_size options).
Proof.
  unfold effective_buffer_size. case_decide; [done|]. intros _.
  unfold alignable, BC_IO_OPEN_DEFAULT_BUFFER_SIZE, u64_modulus. lia.
Qed.

(** Success takes the descriptor first ([w1]), then what the stream holds. *)
Lemma open_read_life path options w :
  wf_world w -> alignable (open_buffer_size options) ->
  wp (bc_io_file_open_read path options)
    (fun r w' =>
       match r with
       | None => evolved (heap w) nothing w w'
       | Some p => exists s w1,
           evolved (heap w) (tokens [RFd (file_descriptor s)]) w w1 /\
           heap w !! p = None /\ p <> 0 /\ fresh_stream s /\ mode s = BC_IO_STREAM_MODE_READ /\
           source_type s = BC_IO_STREAM_SOURCE_FILE /\ 0 <= file_descriptor s /\
           buffer_size s = aligned_size (effective_buffer_size options) BC_IO_STREAM_SOURCE_FILE /\
           evolved (<[p := OStream s]> (heap w)) (tokens (stream_resources p s)) w1 w'
       end) w.
Proof.
  intros Hwf Hsize. apply wp_bind. eapply wp_mono; [by apply resolve_descriptor_spec|].
  intros [fd|] w1 [He Hfd0]; [|by apply wp_ret].
  apply wp_bind. eapply wp_mono.
  { apply open_descriptor_spec; [apply He|by apply effective_buffer_alignable|done]. }
  intros [p|] w2; rewrite (evolved_heap _ _ _ _ He).
  - intros (s & Hp & Hp0 & Hfresh & Hmode & Hsrc & Hfd & Hown & Esz & Harena & He2). apply wp_ret.
    exists s, w1. rewrite Hfd. by split_and!.
  - intros He2. apply wp_bind. eapply wp_mono; [apply close_evolved, He2|].
    intros ? w3 He3. apply wp_ret. rewrite (evolved_heap _ _ _ _ He2) in He3.
    eapply evolved_ext; [eapply evolved_trans; [exact He|eapply evolved_trans; [exact He2|exact He3]]|done|].
    intros r. unfold nothing. simpl. lia.
Qed.

(** ** The handle *)

(** The part of [w0] in which the object at [p] is replaced. *)
Definition with_object (p : Z) (o : object) (w : world) : world :=
  mk_world (env w) (mem w) (errno w) (<[p := o]> (heap w)) (trace w).

Lemma with_object_wf p o w x : wf_world w -> heap w !! p = Some x -> wf_world (with_object p o w).
Proof.
  unfold wf_world, with_object. simpl. intros Hw Hp%elem_of_dom_2. rewrite dom_insert_L. set_solver.
Qed.

(** A map taken beside an object does not notice that the object changes. *)
Lemma owns_map_beside w0 q m w p o x :
  heap w0 !! p = Some x -> owns_map w0 q m w -> owns_map (with_object p o w0) q m (with_object p o w).
Proof.
  intros Hp (h & [Hh Hd Hw Hpat] & [Hq Hs] & Hh0 & Hsz).
  assert (p <> q /\ (map_stream m <> 0 -> p <> map_stream m) /\ h !! p = Some x)
    as (Hpq & Hps & Hph).
  { rewrite <- Hh0 in Hp. unfold without_map in Hp. apply lookup_delete_Some in Hp as [Hqp Hp].
    case_decide; [apply lookup_delete_Some in Hp as [? Hp]|]; split_and!; congruence. }
  exists (<[p := o]> h). split_and!; [split| | |done].
  - simpl. by rewrite Hh.
  - exact Hd.
  - eapply with_object_wf; [done|]. by rewrite Hh.
  - exact Hpat.
  - split; [by rewrite lookup_insert_ne|]. intros Hm. destruct (Hs Hm) as (s & Hl & Hrest).
    exists s. split; [|done]. rewrite lookup_insert_ne by (by apply Hps). done.
  - simpl. rewrite <- Hh0. unfold without_map. case_decide.
    + rewrite delete_insert_ne by (symmetry; auto). by rewrite delete_insert_ne.
    + by rewrite delete_insert_ne.
Qed.

(** The file that [open_auto] opens, by its descriptor and what [fstat] told of it. *)
Definition opened_file (path : list Z) (options : bc_io_file_open_options_t) (w : world)
    (fd : Z) (st : stat_t) : Prop :=
  exists w1 k, bc_io_file_open_resolve_descriptor path options w = Done (Some fd, w1) /\
    sys_fstat (env w1) fd = (SysOk st, k).

(** The stream of a handle reads this descriptor. *)
Definition handle_reads (hd : bc_io_file_read_handle_t) (fd : Z) (w : world) : Prop :=
  exists s, heap w !! handle_stream hd = Some (OStream s) /\ file_descriptor s = fd.

(** [owns_handle bound w0 p hd w]: since [w0] the process took the handle at [p] with
    what it stands for: a map, or a stream whose buffer has at most [bound] bytes,
    and then also a descriptor. *)
Definition owns_handle (bound : Z) (w0 : world) (p : Z) (hd : bc_io_file_read_handle_t) (w : world) : Prop :=
  heap w !! p = Some (OHandle hd) /\ heap w0 !! p = None /\
  match handle_kind hd with
  | None => False
  | Some BC_IO_READ_HANDLE_KIND_MEMORY_MAPPED => handle_map hd <> 0 /\ handle_stream hd <> 0 /\
      exists w1 m, evolved (<[p := OHandle hd]> (heap w0)) (tokens [RPool p]) w0 w1 /\
        map_stream m = handle_stream hd /\ owns_map w1 (handle_map hd) m w
  | Some BC_IO_READ_HANDLE_KIND_BUFFERED => handle_stream hd <> 0 /\
      exists s, heap w0 !! handle_stream hd = None /\ wf_stream s /\ buffer_size s <= bound /\ p <> handle_stream hd /\
        0 <= file_descriptor s /\ mode s = BC_IO_STREAM_MODE_READ /\
        evolved (<[p := OHandle hd]> (<[handle_stream hd := OStream s]> (heap w0)))
          (tokens (RFd (file_descriptor s) :: RPool p :: stream_resources (handle_stream hd) s)) w0 w
  end.

Lemma evolved_store h d w0 w p o x :
  evolved h d w0 w -> h !! p = Some x -> evolved (<[p := o]> h) d w0 (with_object p o w).
Proof.
  intros [Hh Hd Hw Hpat] Hp. subst h. split; [done|exact Hd|by eapply with_object_wf|done].
Qed.

Definition handle_bound (options : bc_io_file_open_options_t) : Z :=
  aligned_size (effective_buffer_size options) BC_IO_STREAM_SOURCE_FILE.

(** Freeing the handle when nothing else is held. *)
Lemma drop_handle {A} w0 p x d w (a : A) Q :
  heap w0 !! p = None -> evolved (<[p := x]> (heap w0)) d w0 w -> (forall r, d r = one r (RPool p)) ->
  (forall w', evolved (heap w0) nothing w0 w' -> Q a w') ->
  wp (bc_allocators_pool_free p;; mret a) Q w.
Proof.
  intros Hp He Hd HQ. apply wp_bind. eapply wp_mono; [eapply evolved_free; [exact He|by simplify_map_eq]|].
  intros ? w' He'. apply wp_ret, HQ. eapply evolved_ext; [exact He'| |].
  - by rewrite delete_insert_eq, delete_id.
  - intros r. unfold nothing. rewrite Hd. simpl. lia.
Qed.

Lemma open_auto_buffered_life w0 p fd n options w x :
  heap w0 !! p = None -> 0 <= fd -> alignable (open_buffer_size options) ->
  evolved (<[p := x]> (heap w0)) (tokens [RFd fd; RPool p]) w0 w ->
  wp (open_auto_buffered p fd n options)
    (fun r w' =>
       match r with
       | None => evolved (heap w0) nothing w0 w'
       | Some q => q = p /\ exists hd, owns_handle (handle_bound options) w0 p hd w' /\ handle_file_size hd = n /\
           handle_kind hd = Some BC_IO_READ_HANDLE_KIND_BUFFERED /\ handle_reads hd fd w'
       end) w.
Proof.
  intros Hp Hfd Hsize He. apply wp_bind. eapply wp_mono.
  { apply open_descriptor_spec; [apply He|by apply effective_buffer_alignable|done]. }
  intros [q|] w1; rewrite (evolved_heap _ _ _ _ He).
  - intros (s & Hq & Hq0 & Hfresh & Hmode & _ & Hsfd & _ & Esz & _ & He2).
    apply lookup_insert_None in Hq as [Hq Hpq].
    set (hd := mk_handle (Some BC_IO_READ_HANDLE_KIND_BUFFERED) q 0 n).
    pose proof (evolved_trans _ _ _ _ _ _ _ He He2) as He3.
    apply (evolved_store _ _ _ _ p (OHandle hd) x) in He3; [|by simplify_map_eq].
    apply wp_bind. eapply wp_store; [rewrite (evolved_heap _ _ _ _ He2); by simplify_map_eq|].
    apply wp_ret. split; [done|]. exists hd. split; [|split; [done|split; [done|]]].
    2: { exists s. split; [|done]. simpl. rewrite (evolved_heap _ _ _ _ He2). by simplify_map_eq. }
    split_and!.
    + rewrite (evolved_heap _ _ _ _ He2). by simplify_map_eq.
    + done.
    + split; [done|]. exists s. split_and!; try done; [apply Hfresh|unfold handle_bound; lia|by rewrite Hsfd|].
      eapply evolved_ext; [exact He3| |intros r; rewrite Hsfd; simpl; lia].
      rewrite (insert_insert_ne (heap w0) q p) by done. by rewrite insert_insert_eq.
  - intros He2. apply wp_bind. eapply wp_mono.
    { apply (evolved_close _ _ _ _ _ (evolved_trans _ _ _ _ _ _ _ He He2)). }
    intros ? w2 He3. eapply drop_handle; [done|exact He3|intros r; unfold nothing; simpl; lia|done].
Qed.

(** A world in which, since [w0], only the handle was taken. *)
Lemma handle_alone w0 w p x d :
  evolved (<[p := x]> (heap w0)) d w0 w ->
  exists wa, evolved (<[p := x]> (heap w0)) (tokens [RPool p]) w0 wa /\
    heap wa = <[p := x]> (heap w0) /\ patience (env wa) = patience (env w0) /\
    (forall r, held wa r = held w0 r + one r (RPool p)).
Proof.
  intros [Hh Hd Hw Hpat].
  set (wa := mk_world (env w0) (mem w) 0 (<[p := x]> (heap w0)) (trace w0 ++ [EvPoolAlloc p 0])).
  assert (Ha : forall r, held wa r = held w0 r + one r (RPool p)).
  { intros r. unfold held, wa. simpl trace. rewrite ledger_app. simpl. lia. }
  exists wa. split_and!; [|done|done|done]. split; [done| | |done].
  - intros r. rewrite Ha. simpl. lia.
  - unfold wf_world in *. simpl. by rewrite Hh in Hw.
Qed.

(** The descriptor and, unless the file is empty, the mapping. *)
Definition file_mapping (fd base n : Z) : list resource :=
  RFd fd :: (if decide (base <> 0 /\ 0 < n) then [RMap base n] else []).

Lemma map_file_or_drop w0 p fd n w x :
  heap w0 !! p = None -> 0 <= n ->
  evolved (<[p := x]> (heap w0)) (tokens [RFd fd; RPool p]) w0 w ->
  wp (if decide (0 < n) then
        base ← mmap_ n PROT_READ MAP_SHARED fd 0;
        match base with
        | None => close fd;; bc_allocators_pool_free p;; mret None
        | Some base => mret (Some base)
        end
      else mret (Some 0))
    (fun r w1 => match r with
       | None => evolved (heap w0) nothing w0 w1
       | Some base => (base = 0 <-> n = 0) /\
           evolved (<[p := x]> (heap w0)) (tokens (RPool p :: file_mapping fd base n)) w0 w1
       end) w.
Proof.
  intros Hp Hn He. unfold file_mapping. destruct (decide (0 < n)) as [Hpos|Hpos].
  2: { apply wp_ret. split; [lia|]. rewrite decide_False by lia.
       eapply evolved_ext; [exact He|done|]. intros r. simpl. lia. }
  assert (Hmap : wp (mmap_ n PROT_READ MAP_SHARED fd 0) (fun r w1 =>
    evolved (<[p := x]> (heap w0)) (tokens (RPool p :: RFd fd ::
      match r with Some a => [RMap a n] | None => [] end)) w0 w1 /\
    match r with Some a => a <> 0 | None => True end) w).
  { destruct He as [Hh Hd Hw Hpat].
    apply wp_mmap; intros; (split; [|done]); (split; [done| |done|simpl; lia]).
    all: intros r; specialize (Hd r); unfold held in *; simpl in Hd; held_lia. }
  apply wp_bind. eapply wp_mono; [exact Hmap|]. intros [a|] w1 [He1 Ha].
  - apply wp_ret. rewrite decide_True by done. split; [lia|done].
  - apply wp_bind. eapply wp_mono; [apply (evolved_close _ _ _ _ _ He1)|]. intros ? w2 He2.
    eapply drop_handle; [done|exact He2|intros r; simpl; lia|done].
Qed.

(** Without a map object the mapping and the handle go. *)
Lemma unmap_and_drop w0 p base n w x :
  heap w0 !! p = None -> 0 <= n -> (base = 0 <-> n = 0) ->
  evolved (<[p := x]> (heap w0))
    (tokens (RPool p :: (if decide (base <> 0 /\ 0 < n) then [RMap base n] else []))) w0 w ->
  wp ((if decide (base <> 0) then munmap base n else mret tt);;
      bc_allocators_pool_free p;; mret (None : option Z))
    (fun r w' => r = None /\ evolved (heap w0) nothing w0 w') w.
Proof.
  intros Hp Hn Hbase He. apply wp_bind.
  eapply (wp_mono _ (fun _ w4 => evolved (<[p := x]> (heap w0)) (tokens [RPool p]) w0 w4)).
  { destruct (decide (base <> 0)) as [Hb|Hb].
    - rewrite decide_True in He by lia. eapply wp_mono; [apply munmap_evolved, He|]. intros ? w4 He5.
      eapply evolved_ext; [eapply evolved_trans; [exact He|exact He5]|apply He|].
      intros r. unfold nothing. simpl. lia.
    - rewrite decide_False in He by lia. apply wp_ret. exact He. }
  intros ? w4 He5. eapply drop_handle; [done|exact He5|intros r; simpl; lia|by intros; split].
Qed.

(** From a map object on: its stream, and the handle. *)
Lemma handle_of_map bound fuel w0 wa p q base n w x :
  heap w0 !! p = None -> (patience (env w0) < fuel)%nat -> q <> 0 ->
  evolved (<[p := x]> (heap w0)) (tokens [RPool p]) w0 wa -> heap wa = <[p := x]> (heap w0) ->
  patience (env wa) = patience (env w0) -> owns_map wa q (mk_map base n 0 true) w ->
  wp (stream ← bc_io_mmap_get_stream q;
      match stream with
      | None => bc_io_mmap_destroy fuel q;; bc_allocators_pool_free p;; mret None
      | Some stream =>
          store p (OHandle (mk_handle (Some BC_IO_READ_HANDLE_KIND_MEMORY_MAPPED) stream q n));; mret (Some p)
      end)
    (fun r w' =>
       match r with
       | None => evolved (heap w0) nothing w0 w'
       | Some q => q = p /\ exists hd, owns_handle bound w0 p hd w' /\ handle_file_size hd = n /\
           handle_kind hd = Some BC_IO_READ_HANDLE_KIND_MEMORY_MAPPED
       end) w.
Proof.
  intros Hp Hfuel Hq0 Halone Eha Epa Hown.
  apply wp_bind. eapply wp_mono; [exact (get_stream_owns wa q _ w Hown)|].
  intros [sq|] w4.
  - intros (Hsq & _ & Hown4). destruct Hown4 as (h4 & He4 & Hat4 & Hh4' & Hsz4).
    set (hd := mk_handle (Some BC_IO_READ_HANDLE_KIND_MEMORY_MAPPED) sq q n).
    assert (Hown4 : owns_map wa q (set_map_stream sq (mk_map base n 0 true)) w4) by (by exists h4).
    pose proof (owns_map_beside _ _ _ _ p (OHandle hd) x ltac:(by rewrite Eha; simplify_map_eq) Hown4) as Hown5.
    assert (Hph : heap w4 !! p = Some x).
    { rewrite (evolved_heap _ _ _ _ He4). rewrite Eha in Hh4'. unfold without_map in Hh4'.
      assert (Hl : (<[p:=x]> (heap w0)) !! p = Some x) by (by simplify_map_eq).
      rewrite <- Hh4' in Hl. apply lookup_delete_Some in Hl as [_ Hl].
      case_decide; [by apply lookup_delete_Some in Hl as [_ Hl]|done]. }
    apply wp_bind. eapply wp_store; [exact Hph|]. apply wp_ret. split; [done|]. exists hd.
    split_and!; [|done|done]. split_and!; [by simplify_map_eq|done|]. simpl. split_and!; [done|done|].
    exists (with_object p (OHandle hd) wa), (set_map_stream sq (mk_map base n 0 true)).
    split_and!; [|done|done].
    eapply evolved_ext; [eapply evolved_store; [exact Halone|by simplify_map_eq]|by rewrite insert_insert_eq|done].
  - intros [_ Hown4]. apply wp_bind. eapply wp_mono; [apply (destroy_owns fuel wa q _ w4 Hown4); lia|].
    intros ? w5 He5. pose proof (evolved_trans _ _ _ _ _ _ _ Halone He5) as He6. rewrite Eha in He6.
    eapply drop_handle; [done|exact He6|intros r; unfold nothing; simpl; lia|done].
Qed.

Lemma open_auto_mapped_life bound fuel w0 p fd n w x :
  wf_world w0 -> heap w0 !! p = None -> is_u64 n -> (patience (env w0) < fuel)%nat ->
  evolved (<[p := x]> (heap w0)) (tokens [RFd fd; RPool p]) w0 w ->
  wp (open_auto_mapped fuel p fd n)
    (fun r w' =>
       match r with
       | None => evolved (heap w0) nothing w0 w'
       | Some q => q = p /\ exists hd, owns_handle bound w0 p hd w' /\ handle_file_size hd = n /\
           handle_kind hd = Some BC_IO_READ_HANDLE_KIND_MEMORY_MAPPED
       end) w.
Proof.
  intros Hwf Hp Hn Hfuel He. unfold is_u64 in Hn.
  apply wp_bind. eapply wp_mono; [eapply map_file_or_drop; [done|lia|exact He]|].
  intros [base|] w1; [|intros; by apply wp_ret]. clear He. intros [Hbase He].
  apply wp_bind. eapply wp_mono; [apply (evolved_close _ _ _ _ _ He)|]. clear He. intros ? w2 He.
  eapply (evolved_ext _ _ _ (tokens (RPool p :: (if decide (base <> 0 /\ 0 < n) then [RMap base n] else []))))
    in He; [|done|intros r; unfold file_mapping; simpl; lia].
  destruct (handle_alone w0 w2 p x _ He) as (wa & Halone & Eha & Epa & Hda).
  apply wp_bind. eapply wp_mono; [apply create_from_address_spec, He|].
  rewrite (evolved_heap _ _ _ _ He). intros [q|] w3; last first.
  { intros He3. pose proof (evolved_trans _ _ _ _ _ _ _ He He3) as He4.
    eapply wp_mono; [eapply unmap_and_drop; [done|lia|done|]|by intros ? ? [-> ?]].
    eapply evolved_ext; [exact He4|done|]. intros r. unfold nothing. lia. }
  intros (Hq & Hq0 & He3). apply lookup_insert_None in Hq as [Hq Hpq].
  pose proof (evolved_trans _ _ _ _ _ _ _ He He3) as [Hh4 Hd4 Hw4 Hpat4]. clear He He3.
  apply (handle_of_map bound fuel w0 wa p q base n w3 x); try done.
  exists (<[q := OMap (mk_map base n 0 true)]> (<[p := x]> (heap w0))). split_and!; [split| | |done].
  - done.
  - intros r. rewrite Hd4, Hda. unfold map_resources, map_stream_resources. simpl.
    destruct (decide (base <> 0 /\ 0 < n)), (decide (true = true /\ base <> 0 /\ 0 < n)); try tauto; simpl; lia.
  - done.
  - lia.
  - split; [by simplify_map_eq|done].
  - unfold without_map. simpl. rewrite delete_insert_eq, delete_id; [done|by simplify_map_eq].
Qed.

Lemma open_auto_life fuel path threshold options w :
  wf_world w -> alignable (open_buffer_size options) -> (patience (env w) < fuel)%nat ->
  wp (bc_io_file_open_auto fuel path threshold options)
    (fun r w' =>
       match r with
       | None => evolved (heap w) nothing w w'
       | Some p => exists hd fd st, owns_handle (handle_bound options) w p hd w' /\
           opened_file path options w fd st /\ handle_file_size hd = st_size st /\
           (handle_kind hd = Some BC_IO_READ_HANDLE_KIND_MEMORY_MAPPED <->
            effective_threshold threshold <= st_size st) /\
           (handle_kind hd = Some BC_IO_READ_HANDLE_KIND_BUFFERED -> handle_reads hd fd w')
       end) w.
Proof.
  intros Hwf Hsize Hfuel. apply wp_bind.
  eapply wp_mono; [by apply wp_equation, resolve_descriptor_spec|].
  intros [fd|] w1 (Eres & He & Hfd); [|by apply wp_ret].
  apply wp_bind. eapply (wp_mono _ (fun r w2 => evolved (heap w) (tokens [RFd fd]) w w2 /\
    match r with
    | Some st => opened_file path options w fd st /\ wrap64 (st_size st) = st_size st
    | None => True
    end)).
  { destruct He as [Hh Hd Hw Hpat]. apply wp_fstat_answer.
    - intros st k Est Hst Hk. split; [|split; [by exists w1, k|apply wrap64_small; unfold is_u64, u64_modulus; lia]].
      split; [done| |done|simpl; lia]. intros r; specialize (Hd r); unfold held in *; simpl in Hd; held_lia.
    - intros e k Hk. split; [|done].
      split; [done| |done|simpl; lia]. intros r; specialize (Hd r); unfold held in *; simpl in Hd; held_lia. }
  intros [st|] w2; clear He; intros [He Hst].
  2: { apply wp_bind. eapply wp_mono; [apply (evolved_close _ _ _ _ _ He)|]. intros ? w3 He3.
       apply wp_ret. eapply evolved_ext; [exact He3|done|]. intros r. unfold nothing. simpl. lia. }
  destruct Hst as [Hst Esz]. set (n := wrap64 (st_size st)) in *.
  assert (Hn : is_u64 n) by apply wrap64_range. clearbody n.
  apply wp_bind. eapply (wp_mono _ (fun r w3 => match r with
    | None => evolved (heap w) (tokens [RFd fd]) w w3
    | Some p => heap w !! p = None /\ evolved (<[p := ORaw]> (heap w)) (tokens [RFd fd; RPool p]) w w3
    end)).
  { destruct He as [Hh Hd Hw Hpat]. apply wp_pool_allocate.
    - intros p m Hp0 Hp Hm. split; [rewrite <- Hh; by apply wf_world_dom|].
      split; [simpl; by rewrite Hh| |solve_wf|done].
      intros r; specialize (Hd r); unfold held in *; simpl in Hd; held_lia.
    - intros m Hm. split; [done| |solve_wf|done].
      intros r; specialize (Hd r); unfold held in *; simpl in Hd; held_lia. }
  intros [p|] w3; clear He.
  2: { intros He. apply wp_bind. eapply wp_mono; [apply (evolved_close _ _ _ _ _ He)|]. intros ? w4 He4.
       apply wp_ret. eapply evolved_ext; [exact He4|done|]. intros r. unfold nothing. simpl. lia. }
  intros [Hp He]. apply wp_bind.
  eapply wp_store; [rewrite (evolved_heap _ _ _ _ He); by simplify_map_eq|].
  apply (evolved_store _ _ _ _ p (OHandle (mk_handle None 0 0 n)) ORaw) in He; [|by simplify_map_eq].
  rewrite insert_insert_eq in He. fold (with_object p (OHandle (mk_handle None 0 0 n)) w3).
  fold (effective_threshold threshold).
  destruct (decide (n < effective_threshold threshold)).
  - eapply wp_mono; [by eapply open_auto_buffered_life|]. intros [q|] w'; [|done].
    intros (-> & hd & Hhd & Hsz & Hk & Hr). exists hd, fd, st. rewrite Hk, <- Esz.
    split; [done|]. split; [done|]. split; [done|]. split; [split; [done|lia]|done].
  - eapply wp_mono; [by eapply open_auto_mapped_life|]. intros [q|] w'; [|done].
    intros (-> & hd & Hhd & Hsz & Hk). exists hd, fd, st. rewrite Hk, <- Esz.
    split; [done|]. split; [done|]. split; [done|]. split; [split; [lia|done]|done].
Qed.

(** Destroying the handle gives everything back but the descriptor of a buffered one. *)
Lemma handle_destroy_owns bound fuel w0 p hd w :
  wf_world w0 -> owns_handle bound w0 p hd w ->
  (patience (env w0) < fuel)%nat ->
  wp (bc_io_file_read_handle_destroy fuel p)
    (fun _ w' => exists left_open, evolved (heap w0) (tokens left_open) w0 w' /\
       match handle_kind hd with
       | Some BC_IO_READ_HANDLE_KIND_BUFFERED => exists fd, handle_reads hd fd w /\ 0 <= fd /\ left_open = [RFd fd]
       | _ => left_open = []
       end) w.
Proof.
  intros Hwf (Hload & Hp & Hkind) Hfuel. apply wp_bind. eapply wp_load_handle; [done|].
  destruct (handle_kind hd) as [[]|] eqn:Ek; [| |done].
  - destruct Hkind as (Hq0 & s & Hq & Hs & _ & Hpq & Hfd & Hmode & He).
    apply wp_bind. rewrite decide_False by done. rewrite decide_True by done.
    eapply wp_mono.
    { apply (close_life fuel _ s); [apply He| |apply Hs|].
      - rewrite (evolved_heap _ _ _ _ He). by simplify_map_eq.
      - apply evolved_patience in He as Hpat. unfold enough in *. rewrite (wf_reader s) by done. simpl. lia. }
    intros ? w1 [He1 _]. pose proof (evolved_trans _ _ _ _ _ _ _ He He1) as He2.
    rewrite (evolved_heap _ _ _ _ He) in He2.
    eapply wp_mono; [eapply evolved_free; [exact He2|by simplify_map_eq]|].
    intros ? w2 He3. exists [RFd (file_descriptor s)]. split.
    2: { exists (file_descriptor s). split_and!; [|done|done]. exists s.
         rewrite (evolved_heap _ _ _ _ He). by simplify_map_eq. }
    eapply evolved_ext; [exact He3| |intros r; simpl; lia].
    rewrite delete_insert_ne by done. rewrite !delete_insert_eq. by rewrite !delete_id by (by rewrite ?delete_id).
  - destruct Hkind as (Hm0 & Hs0 & w1 & m & He1 & Hms & Hown).
    apply wp_bind. rewrite decide_True by done. rewrite decide_True by done.
    eapply wp_mono; [apply (destroy_owns fuel w1 _ m w Hown)|].
    { apply evolved_patience in He1. lia. }
    intros ? w2 He2. pose proof (evolved_trans _ _ _ _ _ _ _ He1 He2) as He3.
    rewrite (evolved_heap _ _ _ _ He1) in He3.
    eapply wp_mono; [eapply evolved_free; [exact He3|by simplify_map_eq]|].
    intros ? w3 He4. exists []. split; [|done].
    eapply evolved_ext; [exact He4| |intros r; unfold nothing; simpl; lia].
    rewrite delete_insert_eq. by apply delete_id.
Qed.

(** ** Properties *)

(** C22. A client that opens a file for reading, reads it to the end and closes
    the stream gets its memory back, and one descriptor too many: no call of the
    library closes the descriptor that [bc_io_file_open_read] opened.  A failed
    open leaves nothing behind. *)
Theorem open_read_leaks_descriptor calls fuel path options w :
  wf_world w -> alignable (open_buffer_size options) ->
  enough fuel (aligned_size (effective_buffer_size options) BC_IO_STREAM_SOURCE_FILE) w ->
  wp (open_read_session calls fuel path options)
    (fun r w' => heap w' = heap w /\
       match r with
       | None => forall x, held w' x = held w x
       | Some _ => exists fd, 0 <= fd /\ forall x, held w' x = held w x + one x (RFd fd)
       end) w.
Proof.
  intros Hwf Hsize Hfuel. apply wp_bind. eapply wp_mono; [by apply open_read_life|].
  intros [p|] w2; [|intros [? ?]%evolved_balanced; by apply wp_ret].
  intros (s & w1 & Hfd & Hp & _ & Hfresh & Hmode & Hsrc & Hfd0 & Esz & He).
  pose proof (evolved_heap _ _ _ _ Hfd) as Eh. pose proof (evolved_patience _ _ _ _ Hfd) as Hpat.
  apply wp_bind. eapply wp_load_stream; [rewrite (evolved_heap _ _ _ _ He); by simplify_map_eq|].
  apply wp_bind. eapply wp_mono; [apply drain_file_spec; [apply Hfresh|by rewrite Hsrc|done|]|].
  { rewrite Esz. apply evolved_patience in He. unfold enough in *. lia. }
  intros [[chunks s'] stopped] w3 (lost & [Hq _ _] & Hwf' & Hset & _).
  apply (finish_session fuel p s s' (mret (Some (delivered chunks))) _ w1 w2 w3);
    rewrite ?Eh; try done; [apply Hfd|unfold enough in *; rewrite Esz; lia|].
  intros w' He'. pose proof (evolved_trans _ _ _ _ _ _ _ Hfd He') as [Hh Hd _ _].
  apply wp_ret. split; [done|]. exists (file_descriptor s). split; [done|].
  intros x. rewrite Hd. unfold nothing. simpl. lia.
Qed.

(** C21. A handle opened with [bc_io_file_open_auto] has the size that [fstat] tells
    of the file it opened, and is memory mapped exactly when that size reaches the
    threshold (256 KiB when none is given).  Whatever fails, opening and
    destroying a handle gives the memory back; a failed open and a mapped handle
    give everything back, but a buffered handle leaves open the descriptor that
    was opened for it. *)
Theorem open_auto_session_balance fuel path threshold options w :
  wf_world w -> alignable (open_buffer_size options) -> (patience (env w) < fuel)%nat ->
  wp (open_auto_session fuel path threshold options)
    (fun r w' => heap w' = heap w /\
       match r with
       | None => forall x, held w' x = held w x
       | Some h => exists fd st, opened_file path options w fd st /\
           bc_io_file_read_handle_get_size h = st_size st /\
           bc_io_file_read_handle_is_memory_mapped h =
             bool_decide (effective_threshold threshold <= st_size st) /\
           bc_io_file_read_handle_get_stream h <> 0 /\
           if bc_io_file_read_handle_is_memory_mapped h
           then forall x, held w' x = held w x
           else 0 <= fd /\ forall x, held w' x = held w x + one x (RFd fd)
       end) w.
Proof.
  intros Hwf Hsize Hfuel. apply wp_bind. eapply wp_mono; [by apply open_auto_life|].
  intros [p|] w1; [|intros [? ?]%evolved_balanced; by apply wp_ret].
  intros (hd & fd & st & Hown & Hfile & Esz & Hkind & Hreads). pose proof Hown as (Hload & _ & Hstream).
  apply wp_bind. eapply wp_load_handle; [done|].
  apply wp_bind. eapply wp_mono; [by eapply handle_destroy_owns|].
  intros ? w2 (left_open & [Hh Hd _ _] & Hleft). apply wp_ret. split; [done|].
  exists fd, st. unfold bc_io_file_read_handle_is_memory_mapped, bc_io_file_read_handle_get_stream.
  split_and!; [done|done|by apply bool_decide_ext|by destruct (handle_kind hd) as [[]|]; naive_solver|].
  case_bool_decide as Hk.
  - rewrite Hk in Hleft. subst. intros x. rewrite Hd. simpl. lia.
  - destruct (handle_kind hd) as [[]|]; [|done..]. destruct Hleft as (fd' & (s' & Hs' & <-) & ? & ->).
    destruct (Hreads eq_refl) as (s & Hs & <-). rewrite Hs in Hs'. injection Hs' as <-.
    split; [done|]. intros x. rewrite Hd. simpl. lia.
Qed.
End laws.
End file_open.

(** ** Witnesses *)

(** A small file and a large one; with a threshold of 50 the second is mapped. *)
Definition open_world (size : Z) : world :=
  mk_world (mk_script [SysOk 3] [SysOk [1; 2]; SysOk []] [] [SysOk (regular_file size); SysOk (regular_file size)]
              [SysOk 8192] [] []) (mk_pool ∅ []) 0 ∅ [].
Definition plain_options : bc_io_file_open_options_t :=
  mk_open_options false true BC_IO_MADVISE_NORMAL 64.

Lemma open_read_leaks_descriptor_witness :
  wp (open_read_session 5 200 [97] plain_options)
    (fun r w' => heap w' = ∅ /\
       match r with
       | None => forall x, held w' x = 0
       | Some _ => exists fd, 0 <= fd /\ forall x, held w' x = 0 + one x (RFd fd)
       end) (open_world 2).
Proof.
  apply (open_read_leaks_descriptor 5 200 [97] plain_options (open_world 2));
    [unfold wf_world; simpl; set_solver|concrete|concrete].
Defined.

(** The session does leak: it succeeds, and the descriptor is still open. *)
Example open_read_session_run :
  safe (open_read_session 5 200 [97] plain_options (open_world 2))
    (fun '(r, w) => r = Some [1; 2] /\ held w (RFd 3) = 1).
Proof. vm_compute. by split. Qed.

Lemma open_auto_session_balance_witness :
  wp (open_auto_session 50 [97] 50 plain_options)
    (fun r w' => heap w' = ∅ /\
       match r with
       | None => forall x, held w' x = 0
       | Some h => exists fd st, opened_file [97] plain_options (open_world 60) fd st /\
           bc_io_file_read_handle_get_size h = st_size st /\
           bc_io_file_read_handle_is_memory_mapped h =
             bool_decide (effective_threshold 50 <= st_size st) /\
           bc_io_file_read_handle_get_stream h <> 0 /\
           if bc_io_file_read_handle_is_memory_mapped h
           then forall x, held w' x = 0
           else 0 <= fd /\ forall x, held w' x = 0 + one x (RFd fd)
       end) (open_world 60).
Proof.
  apply (open_auto_session_balance 50 [97] 50 plain_options (open_world 60));
    [unfold wf_world; simpl; set_solver|concrete|concrete].
Defined.

Example open_auto_session_run :
  safe (open_auto_session 50 [97] 50 plain_options (open_world 60))
    (fun '(r, w) => handle_kind <$> r = Some (Some BC_IO_READ_HANDLE_KIND_MEMORY_MAPPED) /\
       held w (RFd 3) = 0 /\ held w (RMap 8192 60) = 0).
Proof. vm_compute. by split_and!. Qed.
