(* ===== verification/Random.v ===== *)
(** * Random bytes ([src/random/bc_io_random.c])

    [getrandom], and [/dev/urandom] when [getrandom] fails.  The descriptor of
    [/dev/urandom] is kept per thread: the model passes it along, -1 before it is
    opened.  The loops take one unit of fuel per system call. *)

From S2P Require Import Prelude Platform Objects Machine Scripted StreamIo.

Section random.
Context {PF : Platform}.

(** The result, and the thread's descriptor afterwards. *)
Definition bc_io_random_open_urandom (urandom_descriptor : Z) : M (bool * Z) :=
  if decide (0 <= urandom_descriptor) then mret (true, urandom_descriptor)
  else
    descriptor ← open_ (bytes_of_string "/dev/urandom") (Z.lor O_RDONLY O_CLOEXEC) 0;
    if decide (descriptor < 0) then mret (false, urandom_descriptor)
    else mret (true, descriptor).

(** [block] is the caller's memory, [output] the offset in it. *)
Fixpoint read_urandom_loop (fuel : nat) (fd : Z) (block : list Z) (output remaining : Z)
    : M (bool * list Z) :=
  if decide (0 < remaining) then
    match fuel with
    | O => out_of_fuel
    | S fuel =>
        '(read_count, data) ← read fd remaining;
        if decide (read_count < 0) then
          e ← get_errno;
          if decide (e = EINTR) then read_urandom_loop fuel fd block output remaining
          else mret (false, block)
        else if decide (read_count = 0) then mret (false, block)
        else
          block ← lift (blit block output data);
          read_urandom_loop fuel fd block (output + read_count) (remaining -u read_count)
    end
  else mret (true, block).

Definition bc_io_random_read_urandom (fuel : nat) (urandom_descriptor : Z) (block : list Z)
    (output length : Z) : M (bool * list Z * Z) :=
  '(opened, urandom_descriptor) ← bc_io_random_open_urandom urandom_descriptor;
  if negb opened then mret (false, block, urandom_descriptor)
  else
    '(ok, block) ← read_urandom_loop fuel urandom_descriptor block output length;
    mret (ok, block, urandom_descriptor).

Fixpoint getrandom_loop (fuel : nat) (urandom_descriptor : Z) (block : list Z)
    (buffer remaining : Z) : M (bool * list Z * Z) :=
  if decide (0 < remaining) then
    match fuel with
    | O => out_of_fuel
    | S fuel' =>
        '(produced, data) ← getrandom remaining;
        if decide (produced < 0) then
          e ← get_errno;
          if decide (e = EINTR) then getrandom_loop fuel' urandom_descriptor block buffer remaining
          else bc_io_random_read_urandom fuel urandom_descriptor block buffer remaining
        else
          block ← lift (blit block buffer data);
          getrandom_loop fuel' urandom_descriptor block (buffer + produced) (remaining -u produced)
    end
  else mret (true, block, urandom_descriptor).

(** A null [output] is [None]. *)
Definition bc_io_random_bytes (fuel : nat) (urandom_descriptor : Z) (output : option (list Z))
    (length : Z) : M (bool * option (list Z) * Z) :=
  if decide (length = 0) then mret (true, output, urandom_descriptor)
  else
    match output with
    | None => mret (false, None, urandom_descriptor)
    | Some block =>
        '(ok, block, urandom_descriptor) ← getrandom_loop fuel urandom_descriptor block 0 length;
        mret (ok, Some block, urandom_descriptor)
    end.

(** [*out_value] is its eight bytes, as the machine stores them. *)
Definition bc_io_random_unsigned_integer_64 (fuel : nat) (urandom_descriptor : Z)
    (out_value : option (list Z)) : M (bool * option (list Z) * Z) :=
  match out_value with
  | None => mret (false, None, urandom_descriptor)
  | Some value => bc_io_random_bytes fuel urandom_descriptor (Some value) 8
  end.

(** A thread's requests, one after the other: for each, the result and what its
    zeroed block then holds. *)
Fixpoint random_requests (fuel : nat) (urandom_descriptor : Z) (lengths : list Z)
    : M (list (bool * option (list Z)) * Z) :=
  match lengths with
  | [] => mret ([], urandom_descriptor)
  | n :: lengths =>
      '(ok, block, urandom_descriptor) ←
        bc_io_random_bytes fuel urandom_descriptor (Some (zrepeat 0 n)) n;
      '(rs, urandom_descriptor) ← random_requests fuel urandom_descriptor lengths;
      mret ((ok, block) :: rs, urandom_descriptor)
  end.

(** The bytes the process drew, from either source, in order. *)
Fixpoint drawn (evs : list event) : list Z :=
  match evs with
  | [] => []
  | EvRandom bs :: evs' | EvRead _ bs :: evs' => bs ++ drawn evs'
  | _ :: evs' => drawn evs'
  end.

(** How often [/dev/urandom] was opened. *)
Fixpoint urandom_opens (evs : list event) : nat :=
  match evs with
  | [] => 0
  | EvOpen path _ (Some _) :: evs' =>
      (if decide (path = bytes_of_string "/dev/urandom") then 1 else 0) + urandom_opens evs'
  | _ :: evs' => urandom_opens evs'
  end.

(** ** Lemmas *)

Lemma drawn_app evs evs' : drawn (evs ++ evs') = drawn evs ++ drawn evs'.
Proof. induction evs as [|[] evs IH]; simpl; try done; by rewrite IH, app_assoc. Qed.

Lemma urandom_opens_app evs evs' :
  urandom_opens (evs ++ evs') = (urandom_opens evs + urandom_opens evs')%nat.
Proof. induction evs as [|[? ? []| | | | | | | | | | | | | |] evs IH]; simpl; try done; lia. Qed.

Section laws.
Context {PL : PlatformLaws PF}.

(** [draws d d' data w w']: from [w] to [w'] the thread drew [data]; its
    descriptor was [d] and is [d'], opened in between if it is new. *)
Record draws (d d' : Z) (data : list Z) (w w' : world) : Prop := {
  draws_heap : heap w' = heap w;
  draws_mem : mem w' = mem w;
  draws_patience : (patience (env w') <= patience (env w))%nat;
  draws_data : drawn (trace w') = drawn (trace w) ++ data;
  draws_same : d = d' -> (forall r, held w' r = held w r) /\
    urandom_opens (trace w') = urandom_opens (trace w);
  draws_new : d <> d' -> d < 0 <= d' /\ (forall r, held w' r = held w r + one r (RFd d')) /\
    urandom_opens (trace w') = S (urandom_opens (trace w));
}.

Lemma draws_refl d w : draws d d [] w w.
Proof. split; try done. by rewrite app_nil_r. Qed.

Lemma draws_trans d1 d2 d3 x y w1 w2 w3 :
  draws d1 d2 x w1 w2 -> draws d2 d3 y w2 w3 -> draws d1 d3 (x ++ y) w1 w3.
Proof.
  intros [Hh1 Hm1 Hp1 Hd1 Hs1 Hn1] [Hh2 Hm2 Hp2 Hd2 Hs2 Hn2].
  split; [congruence|congruence|lia|by rewrite Hd2, Hd1, app_assoc|..].
  - intros <-. destruct (decide (d1 = d2)) as [E|E].
    + destruct (Hs1 E) as [H1 U1], (Hs2 (eq_sym E)) as [H2 U2]. split; [|congruence].
      intros r. by rewrite H2, H1.
    + destruct (Hn1 E) as [? _], (Hn2 (not_eq_sym E)) as [? _]. lia.
  - intros E. destruct (decide (d1 = d2)) as [E1|E1], (decide (d2 = d3)) as [E2|E2]; [congruence|..].
    + destruct (Hs1 E1) as [H1 U1], (Hn2 E2) as (? & H2 & U2). split_and!; [lia|lia| |congruence].
      intros r. by rewrite H2, H1.
    + destruct (Hn1 E1) as (? & H1 & U1), (Hs2 E2) as [H2 U2]. subst. split_and!; [lia|lia| |congruence].
      intros r. by rewrite H2, H1.
    + destruct (Hn1 E1) as [? _], (Hn2 E2) as [? _]. lia.
Qed.

Lemma draws_call d w k e evs :
  (patience k <= patience (env w))%nat -> (forall r, ledger evs r = 0) -> urandom_opens evs = 0%nat ->
  draws d d (drawn evs) w (after_call w k e evs).
Proof.
  intros Hk Hl Hu. split; try done; [by simpl; rewrite drawn_app|].
  intros _. simpl. split; [intros r; unfold held; simpl; rewrite ledger_app, Hl; lia|].
  rewrite urandom_opens_app. lia.
Qed.

Lemma open_urandom_spec d w :
  wp (bc_io_random_open_urandom d)
    (fun '(ok, d') w' => draws d d' [] w w' /\ (ok = true <-> 0 <= d')) w.
Proof.
  unfold bc_io_random_open_urandom. destruct (decide (0 <= d)) as [Hd|Hd].
  { apply wp_ret. split; [apply draws_refl|done]. }
  apply wp_bind, wp_open.
  - intros fd k Hfd Hk. rewrite decide_False by lia. apply wp_ret. split; [|done].
    split; try done; [by simpl; rewrite drawn_app|lia|]. intros _.
    split_and!; [lia|lia|intros r; held_lia|]. simpl trace.
    rewrite urandom_opens_app, Nat.add_comm. by cbn.
  - intros e k Hk. rewrite decide_True by lia. apply wp_ret. split; [|lia].
    by apply (draws_call d w k e [EvOpen _ _ None]).
Qed.

(** A loop that has stored [pre] stores what it draws behind it, up to the
    bytes that remain; it succeeds when none does. *)
Definition fills (pre rest : list Z) (remaining d : Z) (w : world)
    (ok : bool) (block : list Z) (d' : Z) (w' : world) : Prop :=
  exists data, draws d d' data w w' /\ block = pre ++ data ++ zdrop (zlen data) rest /\
    zlen data <= remaining /\ (ok = true <-> zlen data = remaining).

(** One more piece of a loop's data. *)
Lemma fills_step pre rest piece n d w ok block d' w1 w' :
  draws d d piece w w1 -> zlen piece <= zlen rest ->
  fills (pre ++ piece) (zdrop (zlen piece) rest) (n - zlen piece) d w1 ok block d' w' ->
  fills pre rest n d w ok block d' w'.
Proof.
  intros Hd Hle (data & Hd' & -> & Hn & Hok). exists (piece ++ data). split_and!.
  - by eapply draws_trans.
  - rewrite zdrop_zdrop, <- !app_assoc by block_lia. by rewrite zlen_app, Z.add_comm.
  - block_lia.
  - rewrite zlen_app. split; [intros ?%Hok|intros; apply Hok]; lia.
Qed.

Lemma fills_nothing pre rest n d w ok d' w' :
  draws d d' [] w w' -> 0 <= n -> (ok = true <-> n = 0) -> fills pre rest n d w ok (pre ++ rest) d' w'.
Proof.
  intros Hd Hn Hok. exists []. split_and!; [done|by rewrite zlen_nil, zdrop_0|by rewrite zlen_nil|rewrite zlen_nil; split; [intros ?%Hok|intros; apply Hok]; lia].
Qed.

Lemma fills_wait pre rest n d w ok block d' w1 w' :
  draws d d [] w w1 -> fills pre rest n d w1 ok block d' w' -> fills pre rest n d w ok block d' w'.
Proof.
  intros Hd (data & Hd' & Hrest). exists data. split; [|done]. by eapply (draws_trans _ _ _ []).
Qed.

Lemma read_urandom_loop_spec fuel fd pre rest n w :
  0 <= n < u64_modulus -> n <= zlen rest -> enough fuel n w ->
  wp (read_urandom_loop fuel fd (pre ++ rest) (zlen pre) n)
    (fun '(ok, block) w' => fills pre rest n fd w ok block fd w') w.
Proof.
  unfold enough. revert pre rest n w.
  induction fuel as [|fuel IH]; intros pre rest n w Hn Hlen Hfuel; [lia|simpl].
  case_decide as Hpos; last first.
  { apply wp_ret. apply fills_nothing; [apply draws_refl|lia|split; [lia|done]]. }
  apply wp_bind, wp_read; [intros bs k Hbs Hk|intros e k Hk Hintr]; simpl.
  - rewrite decide_False by block_lia.
    pose proof (draws_call fd w k (errno w) [EvRead fd bs] Hk ltac:(done) ltac:(done)) as Hd.
    simpl in Hd. rewrite app_nil_r in Hd. case_decide as Hz.
    + apply wp_ret. apply zlen_nil_inv in Hz as ->. apply fills_nothing; [done|lia|lia].
    + apply wp_bind, wp_lift. rewrite blit_append by lia. simpl.
      rewrite wrap64_small by (unfold is_u64; block_lia).
      replace (zlen pre + zlen bs) with (zlen (pre ++ bs)) by block_lia. rewrite app_assoc.
      eapply wp_mono; [apply IH; simpl; block_lia|]. intros [ok block] w' Hf.
      eapply fills_step; [exact Hd|lia|exact Hf].
  - apply wp_bind, wp_get_errno. simpl.
    pose proof (draws_call fd w k e [] Hk ltac:(done) ltac:(done)) as Hd.
    case_decide as He.
    + eapply wp_mono; [apply IH; simpl; [done|done|specialize (Hintr He); lia]|].
      intros [ok block] w' Hf. by eapply fills_wait.
    + apply wp_ret. apply fills_nothing; [done|lia|lia].
Qed.

Lemma read_urandom_spec fuel d pre rest n w :
  0 < n < u64_modulus -> n <= zlen rest -> enough fuel n w ->
  wp (bc_io_random_read_urandom fuel d (pre ++ rest) (zlen pre) n)
    (fun '(ok, block, d') w' => fills pre rest n d w ok block d' w') w.
Proof.
  intros Hn Hlen Hfuel. apply wp_bind. eapply wp_mono; [apply open_urandom_spec|].
  intros [opened d1] w1 [Hd Hopened]. destruct opened; simpl.
  - apply wp_bind. eapply wp_mono; [apply read_urandom_loop_spec; [lia|done|]|].
    { apply draws_patience in Hd. unfold enough in *. lia. }
    intros [ok block] w2 (data & Hd2 & Hrest). apply wp_ret. exists data. split; [|done].
    by eapply (draws_trans _ _ _ []).
  - apply wp_ret. apply fills_nothing; [done|lia|lia].
Qed.

Lemma getrandom_loop_spec fuel d pre rest n w :
  0 <= n < u64_modulus -> n <= zlen rest -> enough fuel n w ->
  wp (getrandom_loop fuel d (pre ++ rest) (zlen pre) n)
    (fun '(ok, block, d') w' => fills pre rest n d w ok block d' w') w.
Proof.
  unfold enough. revert pre rest n w.
  induction fuel as [|fuel IH]; intros pre rest n w Hn Hlen Hfuel; [lia|cbn [getrandom_loop]].
  case_decide as Hpos; last first.
  { apply wp_ret. apply fills_nothing; [apply draws_refl|lia|split; [lia|done]]. }
  apply wp_bind, wp_getrandom; [intros bs k Hbs Hk Hstall|intros e k Hk Hintr].
  - rewrite decide_False by block_lia.
    pose proof (draws_call d w k (errno w) [EvRandom bs] Hk ltac:(done) ltac:(done)) as Hd.
    simpl in Hd. rewrite app_nil_r in Hd.
    apply wp_bind, wp_lift. rewrite blit_append by lia. cbn [safe].
    rewrite wrap64_small by (unfold is_u64; block_lia).
    replace (zlen pre + zlen bs) with (zlen (pre ++ bs)) by block_lia. rewrite app_assoc.
    eapply wp_mono; [apply IH; simpl; [block_lia..|]|].
    { destruct bs as [|b bs]; [specialize (Hstall eq_refl Hpos)|]; block_lia. }
    intros [[ok block] d'] w' Hf. eapply fills_step; [exact Hd|lia|exact Hf].
  - apply wp_bind, wp_get_errno.
    pose proof (draws_call d w k e [] Hk ltac:(done) ltac:(done)) as Hd.
    case_decide as He.
    + simpl in He. eapply wp_mono; [apply IH; simpl; [done|done|specialize (Hintr He); lia]|].
      intros [[ok block] d'] w' Hf. by eapply fills_wait.
    + eapply wp_mono; [apply read_urandom_spec; [lia|done|unfold enough; simpl; lia]|].
      intros [[ok block] d'] w' Hf. by eapply fills_wait.
Qed.

(** A request on a block. *)
Lemma random_bytes_spec fuel d block n w :
  is_u64 n -> n <= zlen block -> enough fuel n w ->
  wp (bc_io_random_bytes fuel d (Some block) n)
    (fun '(ok, out, d') w' => exists data,
       draws d d' data w w' /\ out = Some (data ++ zdrop (zlen data) block) /\
       zlen data <= n /\ (ok = true <-> zlen data = n)) w.
Proof.
  unfold is_u64. intros Hn Hlen Hfuel. unfold bc_io_random_bytes. destruct (decide (n = 0)) as [->|Hn0].
  - apply wp_ret. exists []. rewrite zlen_nil, zdrop_0 by done. split_and!; done || apply draws_refl.
  - apply wp_bind. eapply wp_mono; [apply (getrandom_loop_spec fuel d [] block n); [lia|done|done]|].
    intros [[ok out] d'] w' (data & Hd & -> & Hrest). apply wp_ret. by exists data.
Qed.

Lemma random_requests_spec fuel d lengths w :
  Forall (fun n => is_u64 n /\ enough fuel n w) lengths ->
  wp (random_requests fuel d lengths)
    (fun '(rs, d') w' => exists chunks,
       draws d d' (concat chunks) w w' /\
       Forall2 (fun n '(ok, out, data) =>
         out = Some (data ++ zrepeat 0 (n - zlen data)) /\ (ok = true <-> zlen data = n))
         lengths (zip rs chunks) /\ length chunks = length rs) w.
Proof.
  revert d w. induction lengths as [|n lengths IH]; intros d w Hall.
  { apply wp_ret. exists []. split_and!; [apply draws_refl|constructor|done]. }
  apply Forall_cons in Hall as [[Hn Hf] Hall]. unfold is_u64 in Hn. apply wp_bind. eapply wp_mono.
  { apply random_bytes_spec; [done|rewrite zlen_zrepeat; lia|done]. }
  intros [[ok out] d1] w1 (data & Hd & -> & Hle & Hok). apply wp_bind. eapply wp_mono; [apply IH|].
  { eapply Forall_impl; [exact Hall|]. intros m [? ?]. split; [done|].
    apply draws_patience in Hd. unfold enough in *. lia. }
  intros [rs d2] w2 (chunks & Hd2 & Hrs & Hlen). apply wp_ret. exists (data :: chunks). split_and!.
  - by eapply draws_trans.
  - simpl. constructor; [|done]. split; [|done]. f_equal. f_equal. apply zdrop_zrepeat, zlen_nonneg.
  - simpl. by rewrite Hlen.
Qed.

(** ** Properties *)

(** C23. A request for random bytes ends, through interruptions, short answers and
    the fallback to [/dev/urandom], with the drawn bytes, in order and each once,
    at the front of the caller's block and the rest of the block untouched.  It
    succeeds exactly when all the bytes asked for were drawn; a null block is
    refused unless nothing is asked for. *)
Theorem random_bytes_fills fuel d output n w :
  is_u64 n -> enough fuel n w -> (forall block, output = Some block -> n <= zlen block) ->
  wp (bc_io_random_bytes fuel d output n)
    (fun '(ok, out, d') w' => exists data,
       drawn (trace w') = drawn (trace w) ++ data /\
       match output with
       | None => out = None /\ data = [] /\ (ok = true <-> n = 0)
       | Some block => out = Some (data ++ zdrop (zlen data) block) /\ zlen data <= n /\
           (ok = true <-> zlen data = n)
       end) w.
Proof.
  intros Hn Hfuel Hout. destruct output as [block|].
  - eapply wp_mono; [apply random_bytes_spec; auto|]. intros [[ok out] d'] w' (data & Hd & Hrest).
    exists data. split; [apply Hd|done].
  - unfold bc_io_random_bytes. case_decide; apply wp_ret; exists []; by rewrite app_nil_r.
Qed.

(** C24. A thread opens [/dev/urandom] at most once, and not when it already has:
    over any sequence of requests no descriptor is held but the one it keeps for
    the next request, and each request's block holds its own part of what was
    drawn. *)
Theorem urandom_opened_at_most_once fuel d lengths w :
  Forall (fun n => is_u64 n /\ enough fuel n w) lengths ->
  wp (random_requests fuel d lengths)
    (fun '(rs, d') w' =>
       (if decide (d = d')
        then (forall r, held w' r = held w r) /\ urandom_opens (trace w') = urandom_opens (trace w)
        else d < 0 <= d' /\ (forall r, held w' r = held w r + one r (RFd d')) /\
             urandom_opens (trace w') = S (urandom_opens (trace w))) /\
       exists chunks, drawn (trace w') = drawn (trace w) ++ concat chunks /\
         Forall2 (fun n '(ok, out, data) =>
           out = Some (data ++ zrepeat 0 (n - zlen data)) /\ (ok = true <-> zlen data = n))
           lengths (zip rs chunks) /\ length chunks = length rs) w.
Proof.
  intros Hall. eapply wp_mono; [by apply random_requests_spec|].
  intros [rs d'] w' (chunks & Hd & Hrs). split.
  - case_decide; by apply Hd.
  - exists chunks. split; [apply Hd|done].
Qed.
End laws.
End random.

(** ** Witnesses *)

(** [getrandom] is interrupted, gives two bytes and then fails; [/dev/urandom]
    gives one byte, is interrupted and gives the rest. *)
Definition scarce_world : world :=
  scripted_world (mk_script [SysOk 5] [SysOk [3]; SysErr EINTR; SysOk [4; 5; 6; 7; 8]] [] [] []
    [SysErr EINTR; SysOk [1; 2]; SysErr 38] []).

Example random_u64_run :
  safe (bc_io_random_unsigned_integer_64 40 (-1) (Some (zrepeat 0 8)) scarce_world)
    (fun '(ok, out, d, w) => ok = true /\ d = 5 /\ le_word <$> out = Some 578437695752307201).
Proof. vm_compute. by split_and!. Qed.

Lemma random_bytes_fills_witness :
  wp (bc_io_random_bytes 40 (-1) (Some (zrepeat 0 9)) 8)
    (fun '(ok, out, d') w' => exists data,
       drawn (trace w') = drawn [] ++ data /\
       (out = Some (data ++ zdrop (zlen data) (zrepeat 0 9)) /\ zlen data <= 8 /\
        (ok = true <-> zlen data = 8))) scarce_world.
Proof.
  apply (random_bytes_fills 40 (-1) (Some (zrepeat 0 9)) 8 scarce_world);
    [concrete|concrete|by intros ? [= <-]].
Defined.

Lemma urandom_opened_at_most_once_witness :
  wp (random_requests 40 (-1) [2; 6; 0])
    (fun '(rs, d') w' =>
       (if decide (-1 = d')
        then (forall r, held w' r = 0) /\ urandom_opens (trace w') = 0%nat
        else -1 < 0 <= d' /\ (forall r, held w' r = 0 + one r (RFd d')) /\
             urandom_opens (trace w') = 1%nat) /\
       exists chunks, drawn (trace w') = drawn [] ++ concat chunks /\
         Forall2 (fun n '(ok, out, data) =>
           out = Some (data ++ zrepeat 0 (n - zlen data)) /\ (ok = true <-> zlen data = n))
           [2; 6; 0] (zip rs chunks) /\ length chunks = length rs) scarce_world.
Proof.
  apply (urandom_opened_at_most_once 40 (-1) [2; 6; 0] scarce_world). concrete_Forall.
Defined.
