(* ===== verification/Interleave.v ===== *)
(** * Threads that share a state

    [proc S A] is the code of one thread as a sequence of atomic actions on a
    state [S] that other threads change in between.  [pwp] is a program logic for
    it: every thread has a share (of a type [G] of its own), the invariant relates
    the shared state to all the shares, and an action may use the invariant and
    its own share, whatever the others hold.  The file also has the lemmas on
    summing shares and on splitting a map among them. *)

From S2P Require Import Prelude.

(** ** Code of a thread *)

Inductive proc (S A : Type) : Type :=
| Return (a : A)
| Act {B : Type} (f : S -> res (B * S)) (k : B -> proc S A).
Arguments Return {S A} a.
Arguments Act {S A B} f k.

Fixpoint proc_bind {S A B} (k : A -> proc S B) (p : proc S A) : proc S B :=
  match p with
  | Return a => k a
  | Act f k' => Act f (fun b => proc_bind k (k' b))
  end.

#[export] Instance proc_ret {S} : MRet (proc S) := fun A => Return.
#[export] Instance proc_mbind {S} : MBind (proc S) := fun A B => proc_bind.

(** One atomic action. *)
Definition atomic {S B} (f : S -> res (B * S)) : proc S B := Act f Return.

(** Code without effect on what is shared. *)
Definition local {S B} (r : res B) : proc S B :=
  atomic (fun s => match r with
                   | Done b => Done (b, s)
                   | Undefined => Undefined
                   | OutOfFuel => OutOfFuel
                   end).

Definition exhausted {S A} : proc S A := local OutOfFuel.

(** ** Logic *)

Section logic.
Context {S G : Type}.
Variable Inv : S -> list G -> Prop.

Fixpoint pwp {A} (p : proc S A) (Q : A -> G -> Prop) (g : G) : Prop :=
  match p with
  | Return a => Q a g
  | Act f k => forall s F, Inv s (g :: F) ->
      exists b s' g', f s = Done (b, s') /\ Inv s' (g' :: F) /\ pwp (k b) Q g'
  end.

Lemma pwp_ret {A} (a : A) (Q : A -> G -> Prop) g : Q a g -> pwp (mret a) Q g.
Proof. done. Qed.

Lemma pwp_bind {A B} (p : proc S A) (k : A -> proc S B) Q g :
  pwp p (fun a => pwp (k a) Q) g -> pwp (p ≫= k) Q g.
Proof.
  unfold mbind, proc_mbind. revert g. induction p as [a|C f k' IH]; intros g; simpl; [done|].
  intros H s F Hinv. destruct (H s F Hinv) as (b & s' & g' & ? & ? & ?). exists b, s', g'. by auto.
Qed.

Lemma pwp_mono {A} (p : proc S A) (P Q : A -> G -> Prop) g :
  pwp p P g -> (forall a g', P a g' -> Q a g') -> pwp p Q g.
Proof.
  intros H HPQ. revert g H. induction p as [a|C f k IH]; intros g; simpl; [auto|].
  intros H s F Hinv. destruct (H s F Hinv) as (b & s' & g' & ? & ? & ?). exists b, s', g'. by auto.
Qed.

Lemma pwp_atomic {B} (f : S -> res (B * S)) (Q : B -> G -> Prop) g :
  (forall s F, Inv s (g :: F) ->
     exists b s' g', f s = Done (b, s') /\ Inv s' (g' :: F) /\ Q b g') ->
  pwp (atomic f) Q g.
Proof. done. Qed.

(** The next action of a thread. *)
Lemma pwp_act {A B} (f : S -> res (B * S)) (k : B -> proc S A) Q g s F :
  pwp (Act f k) Q g -> Inv s (g :: F) ->
  exists b s' g', f s = Done (b, s') /\ Inv s' (g' :: F) /\ pwp (k b) Q g'.
Proof. intros H. apply H. Qed.

Lemma pwp_local {B} (r : res B) (Q : B -> G -> Prop) g :
  safe r (fun b => Q b g) -> pwp (local r) Q g.
Proof.
  intros H. apply pwp_atomic. intros s F Hinv. destruct r as [b| |]; [|done|done].
  exists b, s, g. done.
Qed.
End logic.

#[global] Arguments pwp {S G} Inv {A} p Q g : simpl never.
#[global] Arguments proc_bind {S A B} k p : simpl never.

(** ** Sums over shares *)

Fixpoint total {G} (f : G -> Z) (gs : list G) : Z :=
  match gs with
  | [] => 0
  | g :: gs => f g + total f gs
  end.

Lemma total_perm {G} (f : G -> Z) gs gs' : gs ≡ₚ gs' -> total f gs = total f gs'.
Proof. induction 1; simpl; lia. Qed.

Lemma total_app {G} (f : G -> Z) gs gs' : total f (gs ++ gs') = total f gs + total f gs'.
Proof. induction gs; simpl; lia. Qed.

Lemma total_nonneg {G} (f : G -> Z) gs : (forall g, 0 <= f g) -> 0 <= total f gs.
Proof. intros Hf. induction gs as [|g gs IH]; simpl; [lia|]. specialize (Hf g). lia. Qed.

Lemma total_bound {G} (f : G -> Z) c gs : (forall g, g ∈ gs -> f g <= c) -> total f gs <= c * zlen gs.
Proof.
  intros Hf. induction gs as [|g gs IH]; simpl; [unfold zlen; simpl; lia|]. rewrite zlen_cons.
  pose proof (Hf g ltac:(set_solver)). pose proof (IH ltac:(set_solver)). lia.
Qed.

Lemma total_zero {G} (f : G -> Z) gs :
  (forall g, 0 <= f g) -> total f gs = 0 -> forall g, g ∈ gs -> f g = 0.
Proof.
  intros Hf. induction gs as [|g gs IH]; simpl; intros H g' Hg'; [set_solver|].
  pose proof (total_nonneg f gs Hf). pose proof (Hf g). apply elem_of_cons in Hg' as [->|Hg']; [lia|].
  apply IH; [lia|done].
Qed.

(** The shares of the others, when one thread's share is replaced. *)
Lemma others {G} (gs : list G) i g :
  gs !! i = Some g -> exists F, gs ≡ₚ g :: F /\ forall g', <[i := g']> gs ≡ₚ g' :: F.
Proof.
  intros Hg. pose proof (lookup_lt_Some _ _ _ Hg). exists (take i gs ++ drop (S i) gs). split.
  - rewrite <- (take_drop_middle gs i g Hg) at 1. symmetry. apply Permutation_middle.
  - intros g'. rewrite insert_take_drop by done. symmetry. apply Permutation_middle.
Qed.

(** ** Splitting a map *)

(** [splits h ms]: the maps [ms] are disjoint and make up [h]. *)
Fixpoint splits {X} (h : gmap Z X) (ms : list (gmap Z X)) : Prop :=
  match ms with
  | [] => h = ∅
  | m :: ms => exists h', h = m ∪ h' /\ m ##ₘ h' /\ splits h' ms
  end.

Section splits.
Context {X : Type}.
Implicit Types (h m : gmap Z X) (ms : list (gmap Z X)).

Lemma splits_perm h ms ms' : ms ≡ₚ ms' -> splits h ms -> splits h ms'.
Proof.
  intros Hp. revert h. induction Hp as [|m ms ms' _ IH|m1 m2 ms|ms1 ms2 ms3 _ IH1 _ IH2]; intros h; simpl.
  - done.
  - intros (h' & -> & Hd & Hs). exists h'. by auto.
  - intros (h1 & -> & Hd1 & h2 & -> & Hd2 & Hs). apply map_disjoint_union_r in Hd1 as [Hd12 Hd1].
    exists (m2 ∪ h2). split_and!.
    + by rewrite !map_union_assoc, (map_union_comm m2 m1).
    + by apply map_disjoint_union_r.
    + by exists h2.
  - auto.
Qed.

Lemma splits_lookup h m ms p x : splits h (m :: ms) -> m !! p = Some x -> h !! p = Some x.
Proof. intros (h' & -> & Hd & _) Hp. by apply lookup_union_Some_l. Qed.

Lemma splits_insert h m ms p x :
  splits h (m :: ms) -> h !! p = None -> splits (<[p := x]> h) (<[p := x]> m :: ms).
Proof.
  intros (h' & -> & Hd & Hs) [Hp1 Hp2]%lookup_union_None. exists h'. split_and!; [|by apply map_disjoint_insert_l|done].
  by rewrite insert_union_l.
Qed.

Lemma splits_update h m ms p x y :
  splits h (m :: ms) -> m !! p = Some x -> splits (<[p := y]> h) (<[p := y]> m :: ms).
Proof.
  intros (h' & -> & Hd & Hs) Hp. exists h'. split_and!; [by rewrite insert_union_l| |done].
  apply map_disjoint_insert_l. split; [by eapply map_disjoint_Some_l|done].
Qed.

Lemma splits_delete h m ms p x :
  splits h (m :: ms) -> m !! p = Some x -> splits (delete p h) (delete p m :: ms).
Proof.
  intros (h' & -> & Hd & Hs) Hp. exists h'. split_and!; [|by apply map_disjoint_delete_l|done].
  rewrite delete_union. f_equal. apply delete_id. by eapply map_disjoint_Some_l.
Qed.

Lemma splits_empty h ms : splits h ms -> splits h (∅ :: ms).
Proof. intros Hs. exists h. split_and!; [by rewrite (left_id_L ∅ (∪))|apply map_disjoint_empty_l|done]. Qed.
End splits.
