(* ===== verification/Ownership.v ===== *)
(** * Who owns what

    Every object the library hands out stands for some cells of the heap and some
    resources of the ledger.  [took m rs w0 w] says that since [w0] the process
    took the cells [m] and the resources [rs], and nothing else; [table_ok] that a
    table of objects accounts for everything taken since the world it started
    from.  One object can be brought into focus, worked on as if it had just been
    taken, and put back. *)

From S2P Require Import Prelude Platform Objects Machine Interleave.

(** ** Giving back, on paper *)

Definition give_back1 (r : resource) : event :=
  match r with
  | RFd fd => EvClose fd
  | RPool p => EvPoolFree p
  | RArena a => EvArenaFree a
  | RQueue q => EvQueueFree q
  | RMap a n => EvMunmap a n
  end.

Lemma ledger_give_back rs r : ledger (give_back1 <$> rs) r = - tokens rs r.
Proof. induction rs as [|[] rs IH]; [done|..]; rewrite fmap_cons; simpl; rewrite IH; lia. Qed.

Lemma tokens_concat_perm rss rss' r : rss ≡ₚ rss' -> tokens (concat rss) r = tokens (concat rss') r.
Proof.
  induction 1 as [|rs rss rss' _ IH|rs rs' rss|rss1 rss2 rss3 _ IH1 _ IH2]; simpl;
    rewrite ?tokens_app, ?IH; lia.
Qed.

Section ownership.
Context {PF : Platform} {PL : PlatformLaws PF}.
Implicit Types (m : gmap Z object) (rs lost : list resource).

Definition took m rs (w0 w : world) : Prop := m ##ₘ heap w0 /\ evolved (m ∪ heap w0) (tokens rs) w0 w.

Lemma took_one p o rs w0 w :
  took {[p := o]} rs w0 w <-> heap w0 !! p = None /\ evolved (<[p := o]> (heap w0)) (tokens rs) w0 w.
Proof. unfold took. by rewrite map_disjoint_singleton_l, <- insert_union_singleton_l. Qed.

(** What is taken in two steps. *)
Lemma took_trans m1 m2 rs1 rs2 w0 w1 w :
  took m1 rs1 w0 w1 -> took m2 rs2 w1 w -> took (m2 ∪ m1) (rs2 ++ rs1) w0 w.
Proof.
  intros [Hd1 He1] [Hd2 He2]. rewrite (evolved_heap _ _ _ _ He1) in Hd2, He2.
  apply map_disjoint_union_r in Hd2 as [Hd21 Hd20]. split; [by apply map_disjoint_union_l|].
  eapply evolved_ext; [eapply evolved_trans; [exact He1|exact He2]| |].
  - by rewrite map_union_assoc.
  - intros r. rewrite tokens_app. lia.
Qed.

(** The world without what was taken: the same kernel and allocator, on paper
    everything given back. *)
Definition without (h : gmap Z object) rs (w : world) : world :=
  mk_world (env w) (mem w) (errno w) h (trace w ++ (give_back1 <$> rs)).

Lemma took_without m h rs w :
  wf_world w -> heap w = m ∪ h -> m ##ₘ h -> took m rs (without h rs w) w /\ wf_world (without h rs w).
Proof.
  intros Hwf Hh Hd. split; [split; [done|]|].
  - split; [done| |done|done]. intros r. unfold held, without. simpl.
    rewrite ledger_app, ledger_give_back. lia.
  - unfold wf_world in *. simpl. rewrite Hh, dom_union_L in Hwf. set_solver.
Qed.

(** What was taken is taken in two steps. *)
Lemma took_split m1 m2 rs1 rs2 w0 w :
  took (m2 ∪ m1) (rs2 ++ rs1) w0 w -> m2 ##ₘ m1 -> exists w1, took m1 rs1 w0 w1 /\ took m2 rs2 w1 w.
Proof.
  intros [Hd [Hh Hheld Hwf Hpat]] Hd21. apply map_disjoint_union_l in Hd as [Hd2 Hd1].
  exists (without (m1 ∪ heap w0) rs2 w). rewrite <- map_union_assoc in Hh.
  destruct (took_without m2 (m1 ∪ heap w0) rs2 w) as [Ht Hw]; [done|done|by apply map_disjoint_union_r|].
  split; [|done]. split; [done|]. split; [done| |done|done].
  intros r. unfold held, without. simpl. rewrite ledger_app, ledger_give_back.
  specialize (Hheld r). unfold held in Hheld. rewrite Hheld, tokens_app. lia.
Qed.

Lemma took_quiet m rs w0 w w' : took m rs w0 w -> quiet w w' -> took m rs w0 w'.
Proof.
  intros [Hd He] Hq. split; [done|]. pose proof (evolved_heap _ _ _ _ He) as Hh.
  eapply evolved_ext; [eapply evolved_trans; [exact He|eapply evolved_quiet; [exact Hq|apply He]]|done|].
  intros r. unfold nothing. lia.
Qed.

Lemma took_lookup m rs w0 w p o : took m rs w0 w -> m !! p = Some o -> heap w !! p = Some o /\ heap w0 !! p = None.
Proof.
  intros [Hd He] Hp. rewrite (evolved_heap _ _ _ _ He). split; [by apply lookup_union_Some_l|].
  by eapply map_disjoint_Some_l.
Qed.

(** Assigning to a cell that was taken. *)
Lemma took_assign m rs w0 w p x o :
  took m rs w0 w -> m !! p = Some x ->
  took (<[p := o]> m) rs w0 (mk_world (env w) (mem w) (errno w) (<[p := o]> (heap w)) (trace w)).
Proof.
  intros Ht Hp. destruct (took_lookup _ _ _ _ _ _ Ht Hp) as [Hhp Hp0]. destruct Ht as [Hd [Hh Hheld Hwf Hpat]].
  split; [by apply map_disjoint_insert_l|]. split; simpl; [|exact Hheld| |done].
  - by rewrite Hh, insert_union_l.
  - unfold wf_world in *. simpl. apply elem_of_dom_2 in Hhp. rewrite dom_insert_L. set_solver.
Qed.

(** ** Tables *)

Section table.
Context {T : Type} (typed : T -> gmap Z object -> list resource -> Prop).

Definition owns (t : T) (w0 w : world) : Prop := exists m rs, typed t m rs /\ took m rs w0 w.

(** The objects of [table] account for all that was taken since [base], apart from
    the resources [lost]. *)
Definition table_ok (base : world) lost (table : list T) (w : world) : Prop :=
  exists items : list (gmap Z object * list resource),
    Forall2 (fun t i => typed t i.1 i.2) table items /\
    splits (heap w) (heap base :: items.*1) /\
    (forall r, held w r = held base r + tokens (concat items.*2) r + tokens lost r) /\
    wf_world w /\ (patience (env w) <= patience (env base))%nat.

Lemma table_ok_nil w : wf_world w -> table_ok w [] [] w.
Proof.
  intros Hwf. exists []. split_and!; [done| |simpl; lia|done|done].
  exists ∅. split_and!; [by rewrite (right_id_L ∅ (∪))|apply map_disjoint_empty_r|done].
Qed.

(** A table of objects that stand for nothing. *)
Lemma table_ok_closed base lost table w :
  table_ok base lost table w -> Forall (fun t => forall m rs, typed t m rs -> m = ∅ /\ rs = []) table ->
  heap w = heap base /\ forall r, held w r = held base r + tokens lost r.
Proof.
  intros (items & Hall & (h & Hh & _ & Hs) & Hheld & _) Hnone.
  assert (h = ∅ /\ concat items.*2 = []) as [-> E].
  { clear Hh Hheld. revert h Hs Hnone. induction Hall as [|t [m rs] table items Ht _ IH]; intros h Hs Hnone; [done|].
    apply Forall_cons in Hnone as [Hn Hnone]. destruct (Hn m rs Ht) as [-> ->].
    destruct Hs as (h' & -> & _ & Hs). destruct (IH h' Hs Hnone) as [-> E].
      split; [apply (left_id_L ∅ (∪))|]. rewrite fmap_cons. simpl. exact E. }
  split; [by rewrite (right_id_L ∅ (∪)) in Hh|]. intros r. rewrite Hheld, E. simpl. lia.
Qed.

Lemma table_ok_wf base lost table w :
  table_ok base lost table w -> wf_world w /\ (patience (env w) <= patience (env base))%nat.
Proof. by intros (items & _ & _ & _ & Hwf & Hpat). Qed.

(** A new object. *)
Lemma table_ok_new base lost table w t m rs more w' :
  table_ok base lost table w -> typed t m rs -> m ##ₘ heap w ->
  evolved (m ∪ heap w) (tokens (rs ++ more)) w w' -> table_ok base (more ++ lost) (table ++ [t]) w'.
Proof.
  intros (items & Hall & Hs & Hheld & Hwf & Hpat) Ht Hd [Hh Hheld' Hwf' Hpat'].
  exists (items ++ [(m, rs)]). split_and!; [by apply Forall2_app; [|constructor]| | |done|lia].
  - apply (splits_perm _ (m :: heap base :: items.*1)); [|rewrite Hh; by exists (heap w)].
    rewrite fmap_app. simpl. apply (Permutation_cons_append (heap base :: items.*1)).
  - intros r. rewrite Hheld', Hheld, fmap_app, concat_app. simpl. rewrite !tokens_app. simpl. lia.
Qed.

(** A call that took nothing. *)
Lemma table_ok_same base lost table w w' :
  table_ok base lost table w -> evolved (heap w) nothing w w' -> table_ok base lost table w'.
Proof.
  intros (items & Hall & Hs & Hheld & Hwf & Hpat) [Hh Hheld' Hwf' Hpat'].
  exists items. split_and!; [done|by rewrite Hh| |done|lia].
  intros r. rewrite Hheld', Hheld. unfold nothing. lia.
Qed.

End table.

(** One object in focus: what it becomes takes its place, and the other
    objects may lose part of their types. *)
Lemma table_ok_focus {T} (typed typed' : T -> gmap Z object -> list resource -> Prop) base lost table w i t :
  (forall t m rs, typed t m rs -> typed' t m rs) ->
  table_ok typed base lost table w -> table !! i = Some t ->
  exists w0, owns typed t w0 w /\ wf_world w0 /\ patience (env w0) = patience (env w) /\
    forall t' m rs more w', typed' t' m rs -> m ##ₘ heap w0 ->
      evolved (m ∪ heap w0) (tokens (rs ++ more)) w0 w' -> table_ok typed' base (more ++ lost) (<[i := t']> table) w'.
Proof.
  intros Hmono (items & Hall & Hs & Hheld & Hwf & Hpat) Hi.
  destruct (Forall2_lookup_l _ _ _ _ _ Hall Hi) as ([m rs] & Hitem & Ht). simpl in Ht.
  destruct (others items i (m, rs) Hitem) as (rest & Hperm & Hins).
  assert (Hsplit : splits (heap w) (m :: heap base :: rest.*1)).
  { apply (splits_perm _ (heap base :: items.*1)); [|done].
    rewrite (fmap_Permutation fst _ _ Hperm). apply perm_swap. }
  destruct Hsplit as (h & Hh & Hd & Hrest). destruct (took_without m h rs w Hwf Hh Hd) as [Htook Hwf0].
  exists (without h rs w). split_and!; [by exists m, rs|done|done|].
  intros t' m' rs' more w' Ht' Hd' [Hh' Hheld' Hwf' Hpat'].
  exists (<[i := (m', rs')]> items). split_and!.
  - apply Forall2_insert; [|done]. eapply Forall2_impl; [exact Hall|]. auto.
  - apply (splits_perm _ (m' :: heap base :: rest.*1)).
    + rewrite (fmap_Permutation fst _ _ (Hins (m', rs'))). apply perm_swap.
    + rewrite Hh'. by exists h.
  - intros r. rewrite Hheld'. unfold held at 1, without. simpl. rewrite ledger_app, ledger_give_back.
    fold (held w r). rewrite Hheld, !tokens_app.
    rewrite (tokens_concat_perm _ _ r (fmap_Permutation snd _ _ (Hins (m', rs')))).
    rewrite (tokens_concat_perm _ _ r (fmap_Permutation snd _ _ Hperm)).
    rewrite !fmap_cons. simpl. rewrite !tokens_app. lia.
  - done.
  - simpl in Hpat'. lia.
Qed.
Lemma table_ok_mono {T} (typed typed' : T -> gmap Z object -> list resource -> Prop) base lost table w :
  (forall t m rs, typed t m rs -> typed' t m rs) ->
  table_ok typed base lost table w -> table_ok typed' base lost table w.
Proof.
  intros Hmono (items & Hall & Hrest). exists items. split; [|done].
  eapply Forall2_impl; [exact Hall|]. auto.
Qed.
End ownership.
