(* ===== verification/Client.v ===== *)
(** * A client of the whole library

    A client holds a table of the objects the library gave it: streams, mapped
    files, read handles, inode sets and directory readers.  It opens, uses and
    releases them in any order, through the type of each slot of the table.  The
    table is the typing of the heap: no well-typed call is undefined, every call
    keeps the table well typed, and a client that releases what it holds has
    given everything back, some descriptors of [bc_io_file_open_*] apart. *)

From S2P Require Import Prelude Platform Objects Machine Scripted.
From S2P Require Import StreamIo Stream StreamWrite StreamRead StreamLife.
From S2P Require Import InodeSet DirentReader Mmap FileOpen Interleave Ownership.

(** ** Calls *)

Inductive handle :=
| HStream (p : Z)
| HMap (p : Z)
| HRead (p : Z)
| HSet (p : Z)
| HReader (p : Z).

(** What a client can do with an object. *)
Inductive use :=
| ReadChunk
| Write (op : write_op)
| Advise (hint : bc_io_stream_access_hint_t)
| AdviseMap (offset length : Z) (hint : bc_io_mmap_madvise_hint_t)
| Unmap
| SetOp (op : set_op)
| NextEntry
| ResetReader (fd : Z).

Inductive client_call :=
| OpenFile (path : list Z) (m : bc_io_stream_mode_t) (size : Z)
| OpenDescriptor (fd : Z) (source : bc_io_stream_source_type_t) (m : bc_io_stream_mode_t) (size : Z)
| OpenMemory (data size : Z)
| OpenRead (path : list Z) (options : bc_io_file_open_options_t)
| OpenAuto (path : list Z) (threshold : Z) (options : bc_io_file_open_options_t)
| MapFile (path : list Z) (options : bc_io_mmap_options_t)
| CreateSet (initial_capacity : Z)
| CreateReader (fd : Z)
| Use (slot : nat) (u : use)
| Release (slot : nat).

Section client.
Context {PF : Platform}.

Definition on_stream {A} (p : Z) (f : bc_io_stream_t -> M (A * bc_io_stream_t)) : M unit :=
  s ← load_stream p;
  '(_, s) ← f s;
  store p (OStream s).

(** A use that the type of the object does not have is not made. *)
Definition run_use (fuel : nat) (h : handle) (u : use) : M unit :=
  match h, u with
  | HStream p, ReadChunk => on_stream p (bc_io_stream_read_chunk fuel)
  | HStream p, Write op => on_stream p (fun s => run_write_op fuel s op)
  | HStream p, Advise hint => s ← load_stream p; bc_io_stream_advise s hint;; mret tt
  | HMap p, ReadChunk =>
      q ← bc_io_mmap_get_stream p;
      match q with
      | None => mret tt
      | Some q => on_stream q (bc_io_stream_read_chunk fuel)
      end
  | HMap p, AdviseMap offset length hint =>
      m ← load_map p; bc_io_mmap_advise m offset length hint;; mret tt
  | HMap p, Unmap => bc_io_mmap_unmap p;; mret tt
  | HRead p, ReadChunk => h ← load_handle p; on_stream (handle_stream h) (bc_io_stream_read_chunk fuel)
  | HSet p, SetOp op => s ← load_set p; '(_, s) ← run_set_op fuel s op; store p (OSet s)
  | HReader p, NextEntry => r ← load_reader p; '(_, r) ← bc_io_dirent_reader_next fuel r; store p (OReader r)
  | HReader p, ResetReader fd => r ← load_reader p; store p (OReader (bc_io_dirent_reader_reset r fd))
  | _, _ => mret tt
  end.

Definition release (fuel : nat) (h : handle) : M unit :=
  match h with
  | HStream p => bc_io_stream_close fuel p
  | HMap p => bc_io_mmap_destroy fuel p
  | HRead p => bc_io_file_read_handle_destroy fuel p
  | HSet p => bc_io_file_inode_set_destroy p
  | HReader p => bc_io_dirent_reader_destroy p
  end.

(** A slot is empty when the call that made it failed, and once it is released. *)
Definition run_call (fuel : nat) (table : list (option handle)) (c : client_call) : M (list (option handle)) :=
  let made h (r : option Z) := mret (table ++ [h <$> r]) in
  match c with
  | OpenFile path m size => bc_io_stream_open_file path m size ≫= made HStream
  | OpenDescriptor fd source m size => bc_io_stream_open_file_descriptor fd source m size ≫= made HStream
  | OpenMemory data size => bc_io_stream_open_memory data size ≫= made HStream
  | OpenRead path options => bc_io_file_open_read path options ≫= made HStream
  | OpenAuto path threshold options => bc_io_file_open_auto fuel path threshold options ≫= made HRead
  | MapFile path options => bc_io_mmap_file path options ≫= made HMap
  | CreateSet n => bc_io_file_inode_set_create fuel n ≫= made HSet
  | CreateReader fd => bc_io_dirent_reader_create fd ≫= made HReader
  | Use slot u =>
      match table !! slot with
      | Some (Some h) => run_use fuel h u;; mret table
      | _ => mret table
      end
  | Release slot =>
      match table !! slot with
      | Some (Some h) => release fuel h;; mret (<[slot := None]> table)
      | _ => mret table
      end
  end.

Fixpoint run_calls (fuel : nat) (table : list (option handle)) (calls : list client_call) : M (list (option handle)) :=
  match calls with
  | [] => mret table
  | c :: calls => table ← run_call fuel table c; run_calls fuel table calls
  end.

(** Releasing every slot, in order. *)
Definition release_all (fuel : nat) (table : list (option handle)) : M (list (option handle)) :=
  run_calls fuel table (Release <$> seq 0 (length table)).

(** ** The types *)

Section types.
Context {PL : PlatformLaws PF}.

(** No stream has a buffer of more than [bound] bytes; an inode set has room for
    [k] more insertions. *)
Variables (fuel : nat) (bound : Z).

Definition typed_stream (p : Z) (m : gmap Z object) (rs : list resource) : Prop :=
  exists s, m = {[p := OStream s]} /\ rs = stream_resources p s /\ wf_stream s /\
    (source_type s <> BC_IO_STREAM_SOURCE_MEMORY -> buffer_size s <= bound).

Definition typed_map (p : Z) (x : bc_io_mmap_t) (m : gmap Z object) (rs : list resource) : Prop :=
  map_at m p x /\ without_map m p x = ∅ /\ is_u64 (mapped_size x) /\
  rs = map_resources p x ++ map_stream_resources x.

(** A read handle, with the map or the stream (and the descriptor) behind it. *)
Definition typed_read (p : Z) (m : gmap Z object) (rs : list resource) : Prop :=
  exists hd m' rs', m = m' ∪ {[p := OHandle hd]} /\ m' !! p = None /\ rs = rs' ++ [RPool p] /\
  match handle_kind hd with
  | None => False
  | Some BC_IO_READ_HANDLE_KIND_MEMORY_MAPPED => handle_map hd <> 0 /\ handle_stream hd <> 0 /\
      exists x, typed_map (handle_map hd) x m' rs' /\ map_stream x = handle_stream hd
  | Some BC_IO_READ_HANDLE_KIND_BUFFERED => handle_stream hd <> 0 /\
      exists s, m' = {[handle_stream hd := OStream s]} /\ wf_stream s /\ buffer_size s <= bound /\
        mode s = BC_IO_STREAM_MODE_READ /\ 0 <= file_descriptor s /\
        rs' = RFd (file_descriptor s) :: stream_resources (handle_stream hd) s
  end.

Definition typed_set (k : Z) (p : Z) (m : gmap Z object) (rs : list resource) : Prop :=
  exists s X, m = {[p := OSet s; bucket_block s := ORaw]} /\ p <> bucket_block s /\
    rs = [RPool p; RPool (bucket_block s)] /\ represents s X /\ roomy fuel s k.

Definition typed_reader (p : Z) (m : gmap Z object) (rs : list resource) : Prop :=
  exists r, m = {[p := OReader r]} /\ rs = [RPool p] /\ p <> 0 /\ reader_ok r.

Definition typed (k : Z) (h : option handle) (m : gmap Z object) (rs : list resource) : Prop :=
  match h with
  | None => m = ∅ /\ rs = []
  | Some (HStream p) => typed_stream p m rs
  | Some (HMap p) => exists x, typed_map p x m rs
  | Some (HRead p) => typed_read p m rs
  | Some (HSet p) => typed_set k p m rs
  | Some (HReader p) => typed_reader p m rs
  end.

(** ** Uses of a stream *)

Lemma read_chunk_memory_keeps s :
  wf_stream s -> source_type s = BC_IO_STREAM_SOURCE_MEMORY ->
  let s' := (bc_io_stream_read_chunk_memory s).2 in wf_stream s' /\ setup s' = setup s.
Proof.
  intros Hs Hsrc. pose proof Hs as [Hsz Hu Hr Hb Hm Hc]. destruct (Hm Hsrc) as (Hmode & Hpos & Hrange & Hsize & Hlog).
  unfold is_u64 in *. unfold bc_io_stream_read_chunk_memory. case_decide as Hend; simpl.
  { split; [by apply wf_set_end|done]. }
  rewrite !(wrap64_small (memory_size s - _)) by (unfold is_u64; lia).
  set (n := if decide (_ < buffer_size s) then _ else _).
  assert (Hn : 0 < n <= memory_size s - memory_position s) by (subst n; case_decide; lia).
  rewrite (wrap64_small (memory_position s + n)) by (unfold is_u64; lia).
  split; [|done]. split; simpl; try done.
  - intros _. rewrite Hlog, wrap64_small by (unfold is_u64; lia). unfold is_u64. split_and!; done || lia.
  - split_and!; [apply wrap64_range|apply Hc|apply wrap64_range].
Qed.

Lemma read_chunk_keeps s w :
  wf_stream s -> (source_type s <> BC_IO_STREAM_SOURCE_MEMORY -> enough fuel (buffer_size s) w) ->
  wp (bc_io_stream_read_chunk fuel s) (fun '(_, s') w' => quiet w w' /\ wf_stream s' /\ setup s' = setup s) w.
Proof.
  intros Hs Hfuel. unfold bc_io_stream_read_chunk. destruct (end_of_stream s) eqn:He; [by apply wp_ret|].
  case_decide; [by apply wp_ret|]. case_decide as Hsrc.
  - pose proof (read_chunk_memory_keeps s Hs Hsrc) as Hk. apply wp_ret.
    by destruct (bc_io_stream_read_chunk_memory s).
  - eapply wp_mono; [apply read_chunk_file_spec; auto|]. intros [c s'] w' (data & [[Hq _ _] Hwf Hset _]). done.
Qed.

Lemma write_op_keeps s op w :
  wf_stream s -> is_u64 (zlen (op_data op)) -> (patience (env w) < fuel)%nat ->
  (source_type s <> BC_IO_STREAM_SOURCE_MEMORY -> enough fuel (buffer_size s + zlen (op_data op)) w) ->
  wp (run_write_op fuel s op) (fun '(_, s') w' => quiet w w' /\ wf_stream s' /\ setup s' = setup s) w.
Proof.
  intros Hs Hn Hpat Hfuel. destruct (decide (mode s = BC_IO_STREAM_MODE_WRITE)) as [Hm|Hm].
  { assert (Hsrc : source_type s <> BC_IO_STREAM_SOURCE_MEMORY).
    { intros E. destruct (wf_memory _ Hs E). congruence. }
    eapply wp_mono; [apply run_write_op_spec; auto|]. intros [[n ok] s'] w' [Hwf Hset _ (out & [Hq _ _] & _) _ _]. done. }
  assert (Hused : buffer_used s = 0) by (apply (wf_reader _ Hs); by destruct (mode s)).
  destruct op as [data|]; simpl; apply wp_bind.
  - unfold bc_io_stream_write_chunk. rewrite decide_True by done. by do 2 apply wp_ret.
  - eapply wp_mono; [apply flush_accepts; [done|unfold enough in *; lia]|].
    intros [ok s'] w' [[Hwf Hset _ (out & [Hq _ _] & _) _ _] _]. by apply wp_ret.
Qed.

(** ** Types are kept *)

Lemma on_stream_takes {A} p (f : bc_io_stream_t -> M (A * bc_io_stream_t)) s m rs w0 w :
  took m rs w0 w -> m !! p = Some (OStream s) ->
  wp (f s) (fun '(_, s') w' => quiet w w' /\ wf_stream s' /\ setup s' = setup s) w ->
  wp (on_stream p f) (fun _ w' => exists s', wf_stream s' /\ setup s' = setup s /\
    took (<[p := OStream s']> m) rs w0 w') w.
Proof.
  intros Ht Hp Hf. destruct (took_lookup _ _ _ _ _ _ Ht Hp) as [Hw _].
  apply wp_bind. eapply wp_load_stream; [done|]. apply wp_bind. eapply wp_mono; [exact Hf|].
  intros [a s'] w1 (Hq & Hwf & Hset). pose proof (took_quiet _ _ _ _ _ Ht Hq) as Ht1.
  eapply wp_store; [by rewrite (quiet_heap _ _ Hq)|].
  exists s'. split_and!; [done..|]. by eapply took_assign.
Qed.

(** A use of an object in focus: it stays an object of its type. *)
Definition keeps (k : Z) (h : handle) (c : M unit) (w0 w : world) : Prop :=
  wp c (fun _ w' => owns (typed k) (Some h) w0 w') w.

Lemma keeps_quiet k h m rs w0 w (c : M unit) :
  typed k (Some h) m rs -> took m rs w0 w -> wp c (fun _ w' => quiet w w') w -> keeps k h c w0 w.
Proof.
  intros Hty Ht Hc. eapply wp_mono; [exact Hc|]. intros ? w' Hq. exists m, rs. split; [done|].
  by eapply took_quiet.
Qed.

Lemma stream_use_keeps {A} k p (f : bc_io_stream_t -> M (A * bc_io_stream_t)) m rs w0 w :
  typed_stream p m rs -> took m rs w0 w ->
  (forall s, wf_stream s -> (source_type s <> BC_IO_STREAM_SOURCE_MEMORY -> buffer_size s <= bound) ->
     wp (f s) (fun '(_, s') w' => quiet w w' /\ wf_stream s' /\ setup s' = setup s) w) ->
  keeps k (HStream p) (on_stream p f) w0 w.
Proof.
  intros (s & -> & -> & Hs & Hb) Ht Hf. eapply wp_mono.
  { eapply on_stream_takes; [exact Ht|by simplify_map_eq|by apply Hf]. }
  intros ? w' (s' & Hwf & Hset & Ht'). rewrite insert_singleton_eq in Ht'.
  exists {[p := OStream s']}, (stream_resources p s'). unfold setup in Hset.
  injection Hset as Ea _ Esz Esrc _ Efd Eown _ _ _ _. split.
  - exists s'. by rewrite Esz, Esrc.
  - unfold stream_resources in *. by rewrite Ea, Efd, Eown.
Qed.

(** *** Maps *)

Lemma without_map_union (m h : gmap Z object) p x :
  map_at m p x -> m ##ₘ h -> without_map (m ∪ h) p x = without_map m p x ∪ h.
Proof.
  intros [Hp Hs] Hd. unfold without_map. pose proof (map_disjoint_Some_l _ _ _ _ Hd Hp) as Hp0.
  case_decide as Hq; [destruct (Hs Hq) as (s & Hms & _)|].
  - pose proof (map_disjoint_Some_l _ _ _ _ Hd Hms) as Hq0.
    by rewrite !delete_union, (delete_id h), (delete_id h).
  - by rewrite delete_union, (delete_id h).
Qed.

Lemma took_owns_map p x m rs w0 w : typed_map p x m rs -> took m rs w0 w -> owns_map w0 p x w.
Proof.
  intros (Hat & Hnil & Hsz & ->) [Hd He]. exists (m ∪ heap w0). split_and!; [done| | |done].
  - destruct Hat as [Hp Hs]. split; [by apply lookup_union_Some_l|]. intros Hq. destruct (Hs Hq) as (s & Hms & Hrest).
    exists s. split; [by apply lookup_union_Some_l|done].
  - rewrite without_map_union by done. by rewrite Hnil, (left_id_L ∅ (∪)).
Qed.

Lemma owns_map_took p x w0 w : owns_map w0 p x w -> exists m rs, typed_map p x m rs /\ took m rs w0 w.
Proof.
  intros (h & He & [Hp Hs] & Hh0 & Hsz). unfold without_map in Hh0. unfold typed_map, map_at, without_map.
  case_decide as Hq.
  - destruct (Hs Hq) as (s & Hms & Hrest). assert (Hpq : p <> map_stream x) by congruence.
    exists (<[p := OMap x]> {[map_stream x := OStream s]}), (map_resources p x ++ map_stream_resources x). split.
    + split_and!; [by simplify_map_eq| | |done|done].
      * intros _. exists s. by simplify_map_eq.
      * by rewrite delete_insert_ne, delete_singleton_eq, delete_insert_eq, delete_empty by done.
    + split.
      * rewrite <- Hh0. apply map_disjoint_insert_l. split; [by simplify_map_eq|].
        apply map_disjoint_singleton_l. by rewrite lookup_delete_ne, lookup_delete_eq by done.
      * eapply evolved_ext; [exact He| |done]. rewrite <- Hh0, <- insert_union_l, <- insert_union_singleton_l.
        rewrite <- delete_insert_ne, insert_delete_eq, insert_delete_eq by done.
        by rewrite (insert_id h), (insert_id h).
  - exists {[p := OMap x]}, (map_resources p x ++ map_stream_resources x). split.
    + split_and!; [by simplify_map_eq|done|by rewrite delete_singleton_eq|done|done].
    + apply took_one. rewrite <- Hh0, lookup_delete_eq. split; [done|].
      eapply evolved_ext; [exact He| |done]. by rewrite insert_delete_eq, insert_id.
Qed.

Lemma map_owned_keeps k p x w0 w : owns_map w0 p x w -> owns (typed k) (Some (HMap p)) w0 w.
Proof. intros (m & rs & Hty & Ht)%owns_map_took. exists m, rs. split; [by exists x|done]. Qed.

(** Reading from the stream of a map, wherever its pointer was kept. *)
Lemma map_stream_read p x m rs w0 w :
  typed_map p x m rs -> took m rs w0 w -> map_stream x <> 0 ->
  wp (on_stream (map_stream x) (bc_io_stream_read_chunk fuel)) (fun _ w' => exists m',
    typed_map p x m' rs /\ took m' rs w0 w' /\ dom m' = dom m) w.
Proof.
  intros ([Hp Hs] & Hnil & Hsz & Hrs) Ht Hq. destruct (Hs Hq) as (s & Hms & Hwf & Hsrc & Hused & Harena & Hown).
  eapply wp_mono; [eapply on_stream_takes; [exact Ht|exact Hms|by apply read_chunk_keeps]|].
  intros ? w' (s' & Hwf' & Hset & Ht'). unfold setup in Hset. injection Hset as Ea _ _ Esrc Em _ Eown _ _ _ _.
  exists (<[map_stream x := OStream s']> m). split_and!; [|done|].
  - assert (Hpq : p <> map_stream x) by congruence. split_and!; [split| |done|done].
    + by rewrite lookup_insert_ne.
    + intros _. exists s'. rewrite lookup_insert_eq. split_and!; [done..|congruence| |congruence|congruence].
      apply (wf_reader _ Hwf'). rewrite Em. by apply (wf_memory _ Hwf).
    + unfold without_map in *. rewrite decide_True in * by done. by rewrite delete_insert_eq.
  - rewrite dom_insert_L. apply elem_of_dom_2 in Hms. set_solver.
Qed.

Lemma map_use_keeps k p x u w0 w :
  owns_map w0 p x w -> keeps k (HMap p) (run_use fuel (HMap p) u) w0 w.
Proof.
  intros Hown. unfold keeps. assert (Hsame : owns (typed k) (Some (HMap p)) w0 w) by by eapply map_owned_keeps.
  destruct u; try (by apply wp_ret); simpl.
  - apply wp_bind. eapply wp_mono; [by apply get_stream_owns|].
    intros [q|] w1; [|intros [_ Ho]; apply wp_ret; by eapply map_owned_keeps].
    intros (Hq & _ & Ho). apply owns_map_took in Ho as (m & rs & Hty & Ht).
    eapply wp_mono; [exact (map_stream_read _ _ _ _ _ _ Hty Ht Hq)|].
    intros ? w2 (m' & Hty' & Ht' & _). exists m', rs. split; [by eexists|done].
  - apply wp_bind. pose proof Hown as (m & rs & Hty & Ht)%owns_map_took.
    eapply wp_load_map; [apply (took_lookup _ _ _ _ _ _ Ht (proj1 (proj1 Hty)))|].
    apply (keeps_quiet k (HMap p) m rs w0 w); [by exists x|done|].
    unfold bc_io_mmap_advise. wp_run; split; try done; intros ?; held_lia.
  - apply wp_bind. eapply wp_mono; [by apply unmap_owns|].
    intros r w' (_ & x' & Ho & _). apply wp_ret. by eapply map_owned_keeps.
Qed.

(** *** Read handles *)

(** A handle, and what is behind it. *)
Lemma took_behind p hd m rs w0 w :
  took (m ∪ {[p := OHandle hd]}) (rs ++ [RPool p]) w0 w -> m !! p = None ->
  heap w !! p = Some (OHandle hd) /\ exists w1, took {[p := OHandle hd]} [RPool p] w0 w1 /\ took m rs w1 w.
Proof.
  intros Ht Hp. split.
  - eapply took_lookup; [exact Ht|]. rewrite lookup_union_r by done. by simplify_map_eq.
  - by apply took_split; [|apply map_disjoint_singleton_r].
Qed.

Lemma read_use_keeps k p u m rs w0 w :
  typed_read p m rs -> took m rs w0 w -> enough fuel bound w -> keeps k (HRead p) (run_use fuel (HRead p) u) w0 w.
Proof.
  intros Hty Ht Hfuel. assert (Hsame : owns (typed k) (Some (HRead p)) w0 w) by by exists m, rs.
  destruct u; try (by apply wp_ret); simpl. destruct Hty as (hd & m' & rs' & -> & Hp & -> & Hkind).
  destruct (took_behind _ _ _ _ _ _ Ht Hp) as (Hload & w1 & Hth & Htb). apply wp_bind. eapply wp_load_handle; [done|].
  eapply (wp_mono _ (fun _ w' => exists m'', took m'' rs' w1 w' /\ m'' !! p = None /\
    typed_read p (m'' ∪ {[p := OHandle hd]}) (rs' ++ [RPool p]))).
  2: { intros ? w' (m'' & Htb' & Hp' & Hty). exists (m'' ∪ {[p := OHandle hd]}), (rs' ++ [RPool p]).
       split; [done|by eapply took_trans]. }
  destruct (handle_kind hd) as [[]|] eqn:Ek; [| |done].
  - destruct Hkind as (Hq0 & s & -> & Hs & Hb & Hmode & Hfd & ->).
    eapply wp_mono; [eapply on_stream_takes; [exact Htb|by simplify_map_eq|apply read_chunk_keeps; [done|]]|].
    { intros _. unfold enough in *. lia. }
    intros ? w' (s' & Hwf & Hset & Ht'). rewrite insert_singleton_eq in Ht'. unfold setup in Hset.
    injection Hset as Ea _ Esz _ Em Efd Eown _ _ _ _. eexists. split; [exact Ht'|].
    assert (Hp' : ({[handle_stream hd := OStream s']} : gmap Z object) !! p = None).
    { apply lookup_singleton_None. by apply lookup_singleton_None in Hp. }
    split; [done|]. eexists hd, _, _. split_and!; [done..|]. rewrite Ek. split; [done|]. exists s'.
    split_and!; try done; [lia|congruence|congruence|]. unfold stream_resources. by rewrite Ea, Efd, Eown.
  - destruct Hkind as (Hm0 & Hs0 & x & Hx & Ems). rewrite <- Ems in *.
    eapply wp_mono; [exact (map_stream_read _ _ _ _ _ _ Hx Htb Hs0)|].
    intros ? w' (m'' & Hty' & Ht' & Hdom). exists m''.
    assert (Hp' : m'' !! p = None) by (apply not_elem_of_dom; rewrite Hdom; by apply not_elem_of_dom).
    split_and!; [done..|]. eexists hd, _, _. split_and!; [done..|]. rewrite Ek, <- Ems. split_and!; [done..|]. by exists x.
Qed.

(** *** Sets and readers *)

Lemma took_holds p s w0 w :
  p <> bucket_block s -> took {[p := OSet s; bucket_block s := ORaw]} [RPool p; RPool (bucket_block s)] w0 w ->
  holds w0 p s w.
Proof.
  intros Hne [Hd He]. apply map_disjoint_insert_l in Hd as [Hp Hd]. apply map_disjoint_singleton_l in Hd.
  split_and!; [done..|]. exists s. eapply evolved_ext; [exact He| |done].
  by rewrite <- insert_union_l, <- insert_union_singleton_l.
Qed.

Lemma holds_store p s w0 w :
  holds w0 p s w ->
  wp (store p (OSet s)) (fun _ w' => p <> bucket_block s /\
    took {[p := OSet s; bucket_block s := ORaw]} [RPool p; RPool (bucket_block s)] w0 w') w.
Proof.
  intros (Hp & Hb & Hne & s0 & He). eapply wp_store; [rewrite (evolved_heap _ _ _ _ He); by simplify_map_eq|].
  split; [done|].
  assert (Ht : took {[p := OSet s0; bucket_block s := ORaw]} [RPool p; RPool (bucket_block s)] w0 w).
  { split; [by apply map_disjoint_insert_l; split; [|apply map_disjoint_singleton_l]|].
    eapply evolved_ext; [exact He| |done]. by rewrite <- insert_union_l, <- insert_union_singleton_l. }
  apply (took_assign _ _ _ _ p (OSet s0) (OSet s)) in Ht; [|by simplify_map_eq]. by rewrite insert_insert_eq in Ht.
Qed.

Lemma set_use_keeps k p u m rs w0 w :
  typed_set (k + 1) p m rs -> took m rs w0 w -> 0 <= k -> keeps k (HSet p) (run_use fuel (HSet p) u) w0 w.
Proof.
  intros (s & X & -> & Hne & -> & Hs & Hroom) Ht Hk.
  assert (0 <= set_size s) by (rewrite (rep_size _ _ Hs); lia). unfold roomy in Hroom.
  assert (Hop : (exists op, u = SetOp op) \/ forall op, u <> SetOp op) by (destruct u; naive_solver).
  destruct Hop as [[op ->]|Hno].
  - simpl. apply wp_bind. eapply wp_load_set; [eapply took_lookup; [exact Ht|by simplify_map_eq]|].
    apply took_holds in Ht; [|done]. apply wp_bind.
    eapply wp_mono; [apply (run_set_op_spec _ s X _ w0 p); [done|done|unfold roomy; lia]|].
    intros [a s'] w' (Hh & (X' & _ & Hs') & Hcap & Hsize).
    eapply wp_mono; [by apply holds_store|]. intros ? w'' [Hne' Ht']. eexists _, _. split; [|exact Ht'].
    exists s', X'. split_and!; [done..|]. unfold roomy. lia.
  - destruct u; try (by exfalso; eapply Hno); apply wp_ret; eexists _, _; (split; [|exact Ht]);
      exists s, X; split_and!; try done; unfold roomy; lia.
Qed.

Lemma reader_use_keeps k p u m rs w0 w :
  typed_reader p m rs -> took m rs w0 w -> 8192 + 8193 * Z.of_nat (patience (env w)) < Z.of_nat fuel ->
  keeps k (HReader p) (run_use fuel (HReader p) u) w0 w.
Proof.
  intros Hty Ht Hfuel. assert (Hsame : owns (typed k) (Some (HReader p)) w0 w) by by exists m, rs.
  destruct u; try (by apply wp_ret); simpl; destruct Hty as (r & -> & -> & Hp0 & Hr);
    (apply wp_bind; eapply wp_load_reader; [eapply took_lookup; [exact Ht|by simplify_map_eq]|]).
  - assert (Hturns : (turns r w < fuel)%nat).
    { destruct Hr as (ds & Hds & _). pose proof (holds_bounds _ _ Hds). unfold turns. lia. }
    apply wp_bind. eapply wp_mono; [by apply next_spec|]. intros [answer r'] w' (Hq & _ & Hr' & _).
    pose proof (took_quiet _ _ _ _ _ Ht Hq) as Ht'.
    eapply wp_store; [rewrite (quiet_heap _ _ Hq); eapply took_lookup; [exact Ht|by simplify_map_eq]|].
    apply (took_assign _ _ _ _ p (OReader r) (OReader r')) in Ht'; [|by simplify_map_eq]. rewrite insert_singleton_eq in Ht'.
    eexists _, _. split; [|exact Ht']. by exists r'.
  - eapply wp_store; [eapply took_lookup; [exact Ht|by simplify_map_eq]|].
    apply (took_assign _ _ _ _ p (OReader r) (OReader (bc_io_dirent_reader_reset r fd))) in Ht; [|by simplify_map_eq].
    rewrite insert_singleton_eq in Ht. eexists _, _. split; [|exact Ht]. exists (bc_io_dirent_reader_reset r fd).
    split_and!; [done..|]. apply reset_ok.
    destruct Hr as (ds & (pre & post & _ & _ & _ & Hsize) & _). done.
Qed.

Lemma stream_any_use_keeps k p u m rs w0 w :
  typed_stream p m rs -> took m rs w0 w -> enough fuel (2 * bound) w -> 0 <= bound ->
  match u with Write op => is_u64 (zlen (op_data op)) /\ zlen (op_data op) <= bound | _ => True end ->
  keeps k (HStream p) (run_use fuel (HStream p) u) w0 w.
Proof.
  intros Hty Ht Hfuel Hb Hu. assert (Hsame : owns (typed k) (Some (HStream p)) w0 w) by by exists m, rs.
  destruct u as [|op|hint| | | | |]; try (by apply wp_ret); simpl.
  - eapply stream_use_keeps; [done..|]. intros s Hs Hsz. apply read_chunk_keeps; [done|].
    intros E. specialize (Hsz E). unfold enough in *. lia.
  - eapply stream_use_keeps; [done..|]. intros s Hs Hsz. apply write_op_keeps; [done|apply Hu|unfold enough in *; lia|].
    intros E. specialize (Hsz E). destruct Hu. pose proof (wf_size _ Hs). unfold enough, is_u64 in *. lia.
  - apply (keeps_quiet k (HStream p) m rs); [done..|]. destruct Hty as (s & -> & _).
    apply wp_bind. eapply wp_load_stream; [eapply took_lookup; [exact Ht|by simplify_map_eq]|].
    unfold bc_io_stream_advise. apply wp_bind. case_decide; [by do 2 apply wp_ret|].
    wp_run; split; try done; intros ?; held_lia.
Qed.

(** ** Releasing *)

Definition fds (lost : list Z) : list resource := RFd <$> lost.

(** Only a read handle may leave a descriptor open. *)
Definition leaves (h : handle) : Z := match h with HRead _ => 1 | _ => 0 end.

Lemma release_stream p m rs w0 w :
  typed_stream p m rs -> took m rs w0 w -> enough fuel (2 * bound) w -> 0 <= bound ->
  wp (bc_io_stream_close fuel p) (fun _ w' => evolved (heap w0) nothing w0 w') w.
Proof.
  intros (s & -> & -> & Hs & Hsz) Ht Hfuel Hb. apply took_one in Ht as [Hp He].
  eapply wp_mono; [apply (close_life _ _ s); [apply He| |done|]|].
  - rewrite (evolved_heap _ _ _ _ He). by simplify_map_eq.
  - pose proof (wf_used _ Hs). destruct (decide (source_type s = BC_IO_STREAM_SOURCE_MEMORY)) as [E|E].
    + rewrite (wf_reader _ Hs) by (by apply (wf_memory _ Hs)). unfold enough in *. lia.
    + specialize (Hsz E). unfold enough in *. lia.
  - intros ? w' [He' _]. rewrite (evolved_heap _ _ _ _ He), delete_insert_eq, delete_id in He' by done.
    eapply evolved_ext; [eapply evolved_trans; [exact He|exact He']|done|]. intros r. unfold nothing. lia.
Qed.

Lemma typed_owns_handle p m rs w0 w :
  typed_read p m rs -> took m rs w0 w -> exists hd, owns_handle bound w0 p hd w.
Proof.
  intros (hd & m' & rs' & -> & Hp & -> & Hkind) Ht. exists hd.
  destruct (took_behind _ _ _ _ _ _ Ht Hp) as (Hload & w1 & Hth & Htb). apply took_one in Hth as [Hp0 Heh].
  split_and!; [done..|]. destruct (handle_kind hd) as [[]|]; [| |done].
  - destruct Hkind as (Hq0 & s & -> & Hs & Hb & Hmode & Hfd & ->). split; [done|]. exists s.
    apply took_one in Htb as [Hq He]. rewrite (evolved_heap _ _ _ _ Heh) in Hq, He.
    apply lookup_insert_None in Hq as [Hq Hne]. split_and!; try done.
    eapply evolved_ext; [eapply evolved_trans; [exact Heh|exact He]|by apply insert_insert_ne|].
    intros r. simpl. lia.
  - destruct Hkind as (Hm0 & Hs0 & x & Hx & Ems). split_and!; [done..|]. exists w1, x. split_and!; [done..|].
    by eapply took_owns_map.
Qed.

Lemma release_set k p m rs w0 w :
  typed_set k p m rs -> took m rs w0 w ->
  wp (bc_io_file_inode_set_destroy p) (fun _ w' => evolved (heap w0) nothing w0 w') w.
Proof.
  intros (s & X & -> & Hne & -> & _) Ht. pose proof Ht as [Hd He].
  eapply wp_mono; [apply (destroy_spec _ s); [apply He|eapply took_lookup; [exact Ht|by simplify_map_eq]..]|].
  intros ? w' He'. apply map_disjoint_insert_l in Hd as [Hp Hd]. apply map_disjoint_singleton_l in Hd.
  eapply evolved_ext; [eapply evolved_trans; [exact He|exact He']| |intros r; unfold nothing; lia].
  rewrite (evolved_heap _ _ _ _ He), <- insert_union_l, <- insert_union_singleton_l.
  rewrite delete_insert_ne, delete_insert_eq, delete_insert_eq by done.
  by rewrite !delete_id by (by rewrite ?lookup_delete_ne).
Qed.

(** Releasing an object gives back what it stands for, a descriptor apart. *)
Lemma release_life k h w0 w :
  owns (typed k) (Some h) w0 w -> wf_world w0 -> patience (env w0) = patience (env w) ->
  enough fuel (2 * bound) w -> 0 <= bound ->
  wp (release fuel h) (fun _ w' => exists lost, evolved (heap w0) (tokens (fds lost)) w0 w' /\
    zlen lost <= leaves h) w.
Proof.
  intros (m & rs & Hty & Ht) Hwf0 Hpat Hfuel Hb.
  assert (Hpatience : (patience (env w0) < fuel)%nat) by (unfold enough in *; lia).
  assert (Hnone : forall w', evolved (heap w0) nothing w0 w' ->
    exists lost, evolved (heap w0) (tokens (fds lost)) w0 w' /\ zlen lost <= leaves h).
  { intros w' He. exists []. split; [eapply evolved_ext; [exact He|done|by intros r]|]. by destruct h. }
  destruct h as [p|p|p|p|p]; simpl in Hty; unfold release.
  - eapply wp_mono; [by eapply release_stream|]. intros ? w'. apply Hnone.
  - destruct Hty as (x & Hx). eapply wp_mono; [eapply destroy_owns; [by eapply took_owns_map|done]|].
    intros ? w'. apply Hnone.
  - destruct (typed_owns_handle _ _ _ _ _ Hty Ht) as (hd & Hown).
    eapply wp_mono; [by eapply handle_destroy_owns|]. intros ? w' (left_open & He & Hleft).
    destruct (handle_kind hd) as [[]|].
    + destruct Hleft as (fd & _ & _ & ->). by exists [fd].
    + subst. by exists [].
    + subst. by exists [].
  - eapply wp_mono; [by eapply release_set|]. intros ? w'. apply Hnone.
  - destruct Hty as (r & -> & -> & Hp0 & _). apply took_one in Ht as [Hp He].
    eapply wp_mono; [by eapply reader_destroy_spec|]. intros ? w' He'. apply Hnone.
    eapply evolved_ext; [exact He'|done|]. intros x. unfold nothing. simpl. lia.
Qed.

(** ** Opening *)

(** A call that makes an object of type [h], or nothing. *)
Definition makes (k : Z) (h : Z -> handle) (leak : Z) (c : M (option Z)) (w : world) : Prop :=
  wp c (fun r w' => exists m rs lost, typed k (h <$> r) m rs /\ m ##ₘ heap w /\
    evolved (m ∪ heap w) (tokens (rs ++ fds lost)) w w' /\
    zlen lost + match r with Some p => leaves (h p) | None => 0 end <= leak) w.

Lemma makes_nothing k h w w' leak :
  0 <= leak -> evolved (heap w) nothing w w' ->
  exists m rs lost, typed k (h <$> (None : option Z)) m rs /\ m ##ₘ heap w /\
    evolved (m ∪ heap w) (tokens (rs ++ fds lost)) w w' /\ zlen lost + 0 <= leak.
Proof.
  intros Hleak He. exists ∅, [], []. split_and!; [done|apply map_disjoint_empty_l| |done].
  eapply evolved_ext; [exact He|by rewrite (left_id_L ∅ (∪))|by intros r].
Qed.

Lemma makes_cell k h p o rs lost w w' leak :
  typed k (Some (h p)) {[p := o]} rs -> heap w !! p = None ->
  evolved (<[p := o]> (heap w)) (tokens (rs ++ fds lost)) w w' -> zlen lost + leaves (h p) <= leak ->
  exists m rs lost, typed k (h <$> Some p) m rs /\ m ##ₘ heap w /\
    evolved (m ∪ heap w) (tokens (rs ++ fds lost)) w w' /\ zlen lost + leaves (h p) <= leak.
Proof.
  intros Hty Hp He Hleak. exists {[p := o]}, rs, lost. split_and!; [done|by apply map_disjoint_singleton_l| |done].
  by rewrite <- insert_union_singleton_l.
Qed.

(** What a call needs: sizes that fit, and room in the bounds. *)
Definition call_ok (c : client_call) : Prop :=
  match c with
  | OpenFile _ _ size => alignable size /\ aligned_size size BC_IO_STREAM_SOURCE_FILE <= bound
  | OpenDescriptor _ source _ size =>
      source <> BC_IO_STREAM_SOURCE_MEMORY /\ alignable size /\ aligned_size size source <= bound
  | OpenMemory _ size => is_u64 size
  | OpenRead _ options | OpenAuto _ _ options =>
      alignable (open_buffer_size options) /\ handle_bound options <= bound
  | MapFile _ options => is_u64 (map_length options)
  | CreateSet n => 0 <= n <= 2 ^ 63 /\ 2 * requested n <= Z.of_nat fuel
  | Use _ (Write op) => is_u64 (zlen (op_data op)) /\ zlen (op_data op) <= bound
  | _ => True
  end.

(** The descriptors a call may lose. *)
Definition leaks (c : client_call) : Z := match c with OpenRead _ _ | OpenAuto _ _ _ => 1 | _ => 0 end.

(** Fuel for [k] more calls. *)
Record fuel_ok (k : Z) (w : world) : Prop := {
  fuel_streams : enough fuel (2 * bound) w;
  fuel_readers : 8192 + 8193 * Z.of_nat (patience (env w)) < Z.of_nat fuel;
  fuel_sets : 3 * k <= Z.of_nat fuel;
}.

Lemma open_stream_makes k path m size w :
  wf_world w -> call_ok (OpenFile path m size) -> makes k HStream 0 (bc_io_stream_open_file path m size) w.
Proof.
  intros Hwf [Hsize Hb]. eapply wp_mono; [by apply open_file_life|].
  intros [p|] w'; [|by apply makes_nothing]. intros (s & Hp & _ & Hfresh & _ & _ & _ & _ & Esz & _ & He).
  apply (makes_cell _ HStream _ (OStream s) (stream_resources p s) []); [|done|by rewrite app_nil_r|done].
  exists s. split_and!; [done..|apply Hfresh|lia].
Qed.

Lemma open_descriptor_makes k fd source m size w :
  wf_world w -> call_ok (OpenDescriptor fd source m size) ->
  makes k HStream 0 (bc_io_stream_open_file_descriptor fd source m size) w.
Proof.
  intros Hwf (Hsrc & Hsize & Hb). eapply wp_mono; [by apply open_descriptor_spec|].
  intros [p|] w'; [|by apply makes_nothing]. intros (s & Hp & _ & Hfresh & _ & _ & _ & _ & Esz & _ & He).
  apply (makes_cell _ HStream _ (OStream s) (stream_resources p s) []); [|done|by rewrite app_nil_r|done].
  exists s. split_and!; [done..|apply Hfresh|lia].
Qed.

Lemma open_memory_makes k data size w :
  wf_world w -> is_u64 size -> makes k HStream 0 (bc_io_stream_open_memory data size) w.
Proof.
  intros Hwf Hsize. eapply wp_mono; [by apply open_memory_life|].
  intros [p|] w'; [|by apply makes_nothing].
  intros (s & Hp & _ & Hfresh & _ & Hsrc & _ & _ & _ & _ & _ & Hown & Harena & He).
  apply (makes_cell _ HStream _ (OStream s) [RPool p] []); [|done|done|done].
  exists s. split_and!; [done| |apply Hfresh|done].
  unfold stream_resources. by rewrite Hown, decide_False by tauto.
Qed.

Lemma open_read_makes k path options w :
  wf_world w -> call_ok (OpenRead path options) -> makes k HStream 1 (bc_io_file_open_read path options) w.
Proof.
  intros Hwf [Hsize Hb]. eapply wp_mono; [by apply open_read_life|].
  intros [p|] w'; [|by apply makes_nothing]. intros (s & w1 & He1 & Hp & _ & Hfresh & _ & _ & _ & Esz & He).
  apply (makes_cell _ HStream _ (OStream s) (stream_resources p s) [file_descriptor s]); [|done| |done].
  - exists s. split_and!; [done..|apply Hfresh|]. intros _. unfold handle_bound in Hb. lia.
  - eapply evolved_ext; [eapply evolved_trans; [exact He1|exact He]|done|].
    intros r. rewrite tokens_app. simpl. lia.
Qed.

Lemma map_file_makes k path options w :
  wf_world w -> is_u64 (map_length options) -> makes k HMap 0 (bc_io_mmap_file path options) w.
Proof.
  intros Hwf Hlen. eapply wp_mono; [by apply mmap_file_life|].
  intros [p|] w'; [|by apply makes_nothing]. intros (base & size & Hp & _ & Hsz & _ & He).
  eapply (makes_cell _ HMap _ _ _ []); [|done|by rewrite app_nil_r|done].
  exists (mk_map base size 0 true). split_and!; [split; [by simplify_map_eq|done]| |done|by rewrite app_nil_r].
  unfold without_map. simpl. by rewrite delete_singleton_eq.
Qed.

Lemma reader_makes k fd w : wf_world w -> makes k HReader 0 (bc_io_dirent_reader_create fd) w.
Proof.
  intros Hwf. eapply wp_mono; [by apply reader_create_spec|].
  intros [p|] w'; [|by apply makes_nothing]. intros (r & Hp & Hp0 & Hr & _ & _ & _ & _ & He).
  eapply (makes_cell _ HReader _ (OReader r) [RPool p] []); [|done|done|done]. by exists r.
Qed.

Lemma set_makes k n w :
  wf_world w -> call_ok (CreateSet n) -> fuel_ok k w -> 0 <= k -> makes k HSet 0 (bc_io_file_inode_set_create fuel n) w.
Proof.
  intros Hwf [Hn Hroom] [_ Hf Hk] Hk0. eapply wp_mono; [apply create_spec; [done|done|lia]|].
  intros [p|] w'; [|by apply makes_nothing]. intros (s & Hs & Hcap & Hp & Hb & Hne & He).
  exists {[p := OSet s; bucket_block s := ORaw]}, [RPool p; RPool (bucket_block s)], []. split_and!; [| | |done].
  - exists s, ∅. split_and!; [done..|]. unfold roomy. pose proof (rep_size _ _ Hs) as E.
    rewrite size_empty in E. lia.
  - by apply map_disjoint_insert_l; split; [|apply map_disjoint_singleton_l].
  - rewrite app_nil_r. eapply evolved_ext; [exact He| |done]. by rewrite <- insert_union_l, <- insert_union_singleton_l.
Qed.

Lemma owns_handle_typed b p hd w0 w :
  owns_handle b w0 p hd w -> b <= bound -> exists m rs, typed_read p m rs /\ took m rs w0 w.
Proof.
  intros (_ & Hp & Hkind) Hb. destruct (handle_kind hd) as [[]|] eqn:Ek; [| |done].
  - destruct Hkind as (Hq0 & s & Hq & Hs & Hsz & Hne & Hfd & Hmode & He).
    exists ({[handle_stream hd := OStream s]} ∪ {[p := OHandle hd]}).
    eexists ((RFd (file_descriptor s) :: stream_resources (handle_stream hd) s) ++ [RPool p]). split.
    + exists hd, {[handle_stream hd := OStream s]}. eexists. split_and!; [done|by apply lookup_singleton_ne|done|].
      rewrite Ek. split; [done|]. exists s. split_and!; [done..|lia|done|done|done].
    + split; [by apply map_disjoint_union_l; split; apply map_disjoint_singleton_l|].
      eapply evolved_ext; [exact He| |intros r; rewrite tokens_app; simpl; lia].
      rewrite <- map_union_assoc, <- !insert_union_singleton_l. by apply insert_insert_ne.
  - destruct Hkind as (Hm0 & Hs0 & w1 & x & He & Ems & Hown).
    apply owns_map_took in Hown as (m & rs & Hx & Ht).
    assert (Hth : took {[p := OHandle hd]} [RPool p] w0 w1) by by apply took_one.
    assert (Hmp : m !! p = None).
    { destruct Ht as [Hd _]. eapply map_disjoint_Some_r; [exact Hd|].
      rewrite (evolved_heap _ _ _ _ He). by rewrite lookup_insert_eq. }
    exists (m ∪ {[p := OHandle hd]}), (rs ++ [RPool p]). split; [|by eapply took_trans].
    exists hd, m, rs. split_and!; [done..|]. rewrite Ek. split_and!; [done..|]. by exists x.
Qed.

Lemma open_auto_makes k path threshold options w :
  wf_world w -> call_ok (OpenAuto path threshold options) -> (patience (env w) < fuel)%nat ->
  makes k HRead 1 (bc_io_file_open_auto fuel path threshold options) w.
Proof.
  intros Hwf [Hsize Hb] Hpat. eapply wp_mono; [by apply open_auto_life|].
  intros [p|] w'; [|by apply makes_nothing]. intros (hd & fd & st & Hown & _).
  destruct (owns_handle_typed _ _ _ _ _ Hown Hb) as (m & rs & Hty & Hd & He).
  exists m, rs, []. split_and!; [done|done|by rewrite app_nil_r|done].
Qed.

(** ** The table *)

Definition slot_leaves (h : option handle) : Z := match h with Some h => leaves h | None => 0 end.

(** The table is well typed since [base], with [k] calls to come, and the
    descriptors lost and those still to be lost are at most [budget]. *)
Definition well_typed (k : Z) (base : world) (budget : Z) (table : list (option handle)) (w : world) : Prop :=
  exists lost, table_ok (typed k) base (fds lost) table w /\ zlen lost + total slot_leaves table <= budget.

Lemma typed_mono k k' h m rs : k' <= k -> typed k h m rs -> typed k' h m rs.
Proof.
  intros Hk. destruct h as [[]|]; try done. simpl. intros (s & X & ? & ? & ? & ? & Hroom).
  exists s, X. split_and!; try done. unfold roomy in *. lia.
Qed.

Lemma total_insert (table : list (option handle)) i h h' :
  table !! i = Some h ->
  total slot_leaves (<[i := h']> table) = total slot_leaves table - slot_leaves h + slot_leaves h'.
Proof.
  intros Hi. destruct (others table i h Hi) as (F & Hperm & Hins).
  rewrite (total_perm _ _ _ (Hins h')), (total_perm _ _ _ Hperm). simpl. lia.
Qed.

Lemma fds_app l l' : fds (l ++ l') = fds l ++ fds l'.
Proof. apply fmap_app. Qed.

Lemma made_typed k base budget table w h leak c :
  0 <= k -> well_typed (k + 1) base budget table w -> makes k h leak c w ->
  wp (c ≫= fun r => mret (table ++ [h <$> r])) (fun table' w' => well_typed k base (budget + leak) table' w') w.
Proof.
  intros Hk (lost & Htable & Hlost) Hc. apply wp_bind. eapply wp_mono; [exact Hc|].
  intros r w' (m & rs & more & Hty & Hd & He & Hleak). apply wp_ret.
  exists (more ++ lost). rewrite fds_app, zlen_app, total_app. split.
  - eapply table_ok_new; [|done..]. eapply table_ok_mono; [|exact Htable]. intros. eapply typed_mono; [|done]. lia.
  - simpl. destruct r; simpl in *; lia.
Qed.

Lemma use_keeps k h u w0 w :
  owns (typed (k + 1)) (Some h) w0 w -> fuel_ok (k + 1) w -> 0 <= k -> 0 <= bound -> call_ok (Use 0 u) ->
  keeps k h (run_use fuel h u) w0 w.
Proof.
  intros (m & rs & Hty & Ht) [Hf Hr Hs] Hk Hb Hu. destruct h as [p|p|p|p|p]; simpl in Hty.
  - eapply stream_any_use_keeps; try done.
  - destruct Hty as (x & Hx). eapply map_use_keeps. by eapply took_owns_map.
  - eapply read_use_keeps; [done..|]. unfold enough in *. lia.
  - by eapply set_use_keeps.
  - by eapply reader_use_keeps.
Qed.

Lemma well_typed_mono k k' base budget budget' table w :
  k' <= k -> budget <= budget' -> well_typed k base budget table w -> well_typed k' base budget' table w.
Proof.
  intros Hk Hb (lost & Htable & Hlost). exists lost. split; [|lia].
  eapply table_ok_mono; [|exact Htable]. intros. by eapply typed_mono.
Qed.

Lemma run_call_typed k base budget table c w :
  well_typed (k + 1) base budget table w -> call_ok c -> fuel_ok (k + 1) w -> 0 <= k -> 0 <= bound ->
  wp (run_call fuel table c) (fun table' w' => well_typed k base (budget + leaks c) table' w') w.
Proof.
  intros Hwt Hc Hf Hk Hb. pose proof Hwt as (lost & Htable & Hlost).
  destruct (table_ok_wf _ _ _ _ _ Htable) as [Hwf _].
  assert (Hpat : (patience (env w) < fuel)%nat) by (destruct Hf as [Hf _ _]; unfold enough in *; lia).
  assert (Hf' : fuel_ok k w) by (destruct Hf; split; [done..|lia]).
  assert (Hskip : well_typed k base (budget + 0) table w) by (eapply well_typed_mono; [..|exact Hwt]; lia).
  destruct c as [path m size|fd source m size|data size|path options|path threshold options|path options|n|fd|slot u|slot];
    unfold run_call.
  - apply made_typed; [done..|by apply open_stream_makes].
  - apply made_typed; [done..|by apply open_descriptor_makes].
  - apply made_typed; [done..|by apply open_memory_makes].
  - apply made_typed; [done..|by apply open_read_makes].
  - apply made_typed; [done..|by apply open_auto_makes].
  - apply made_typed; [done..|by apply map_file_makes].
  - apply made_typed; [done..|by apply set_makes].
  - apply made_typed; [done..|by apply reader_makes].
  - destruct (table !! slot) as [[h|]|] eqn:Hslot; [|by apply wp_ret..].
    destruct (table_ok_focus (typed (k + 1)) (typed k) base (fds lost) table w slot (Some h))
      as (w0 & Hown & Hwf0 & Hpat0 & Hback); [intros; eapply typed_mono; [|done]; lia|done..|].
    apply wp_bind. eapply wp_mono; [by apply (use_keeps k h u w0 w)|].
    intros ? w' (m & rs & Hty & Hd & He). apply wp_ret. exists lost. split; [|simpl; lia].
    rewrite <- (list_insert_id table slot (Some h)) by done.
    apply (Hback (Some h) m rs [] w'); [done..|by rewrite app_nil_r].
  - destruct (table !! slot) as [[h|]|] eqn:Hslot; [|by apply wp_ret..].
    destruct (table_ok_focus (typed (k + 1)) (typed k) base (fds lost) table w slot (Some h))
      as (w0 & Hown & Hwf0 & Hpat0 & Hback); [intros; eapply typed_mono; [|done]; lia|done..|].
    apply wp_bind. eapply wp_mono; [eapply release_life; [done..|apply Hf|done]|].
    intros ? w' (more & He & Hmore). apply wp_ret. exists (more ++ lost). rewrite fds_app. split.
    + apply (Hback None ∅ [] (fds more) w'); [done|apply map_disjoint_empty_l|].
      eapply evolved_ext; [exact He|by rewrite (left_id_L ∅ (∪))|done].
    + rewrite zlen_app, (total_insert _ _ _ _ Hslot). simpl. lia.
Qed.

Lemma fuel_ok_later k k' base w :
  fuel_ok k base -> (patience (env w) <= patience (env base))%nat -> k' <= k -> fuel_ok k' w.
Proof. intros [Hf Hr Hs] Hpat Hk. split; [unfold enough in *|..]; lia. Qed.

Lemma well_typed_patience k base budget table w :
  well_typed k base budget table w -> (patience (env w) <= patience (env base))%nat.
Proof. intros (lost & Htable & _). by apply table_ok_wf in Htable as [_ H]. Qed.

Lemma run_calls_typed k base budget table calls w :
  well_typed (k + zlen calls) base budget table w -> Forall call_ok calls -> fuel_ok (k + zlen calls) base ->
  0 <= k -> 0 <= bound ->
  wp (run_calls fuel table calls) (fun table' w' => well_typed k base (budget + total leaks calls) table' w') w.
Proof.
  revert budget table w. induction calls as [|c calls IH]; intros budget table w Hwt Hall Hf Hk Hb; simpl.
  { apply wp_ret. eapply well_typed_mono; [..|exact Hwt]; rewrite ?zlen_nil; lia. }
  apply Forall_cons in Hall as [Hc Hall]. rewrite zlen_cons in *. pose proof (zlen_nonneg calls).
  replace (k + (1 + zlen calls)) with (k + zlen calls + 1) in Hwt, Hf by lia.
  pose proof (well_typed_patience _ _ _ _ _ Hwt) as Hpat.
  apply wp_bind. eapply wp_mono.
  { apply run_call_typed; [exact Hwt|done| |lia|done]. eapply fuel_ok_later; [exact Hf|done|lia]. }
  intros table1 w1 Hwt1. rewrite Z.add_assoc. apply IH; [done|done| |done|done].
  eapply fuel_ok_later; [exact Hf|done|lia].
Qed.

Lemma bind_Done {A B} (m : M A) (k : A -> M B) w b w2 :
  (m ≫= k) w = Done (b, w2) -> exists a w1, m w = Done (a, w1) /\ k a w1 = Done (b, w2).
Proof. unfold mbind, M_bind. destruct (m w) as [[a w1]| |]; [|done..]. intros H. by exists a, w1. Qed.

(** Releasing a slot empties it. *)
Lemma release_empties table i w table' w' :
  run_call fuel table (Release i) w = Done (table', w') -> table' = <[i := None]> table.
Proof.
  unfold run_call. destruct (table !! i) as [[h|]|] eqn:Hi.
  - intros (? & w1 & _ & [= <- <-])%bind_Done. done.
  - intros [= <- <-]. by rewrite list_insert_id.
  - intros [= <- <-]. apply lookup_ge_None in Hi. by rewrite list_insert_ge.
Qed.

Lemma release_seq_empties n i table w table' w' :
  run_calls fuel table (Release <$> seq i n) w = Done (table', w') -> (length table <= i + n)%nat ->
  Forall (eq None) (take i table) -> Forall (eq None) table'.
Proof.
  revert i table w. induction n as [|n IH]; intros i table w; simpl.
  { intros [= <- <-] Hlen Hall. by rewrite take_ge in Hall by lia. }
  intros (table1 & w1 & E & Hrun)%bind_Done Hlen Hall. apply release_empties in E as ->.
  apply (IH _ _ _ Hrun); [rewrite length_insert; lia|].
  destruct (decide (i < length table)%nat) as [Hi|Hi].
  - rewrite (take_S_r _ _ None) by by apply list_lookup_insert_eq.
    apply Forall_app. split; [by rewrite take_insert_ge|by constructor].
  - rewrite list_insert_ge, take_ge by lia. by rewrite take_ge in Hall by lia.
Qed.

Lemma release_all_typed base budget table w :
  well_typed (zlen table) base budget table w -> fuel_ok (zlen table) base -> 0 <= bound ->
  wp (release_all fuel table) (fun _ w' => heap w' = heap base /\
    exists lost, (forall r, held w' r = held base r + tokens (fds lost) r) /\ zlen lost <= budget) w.
Proof.
  intros Hwt Hf Hb. set (calls := Release <$> seq 0 (length table)).
  assert (Hlen : zlen calls = zlen table) by (unfold calls, zlen; by rewrite length_fmap, length_seq).
  assert (Hzero : total leaks calls = 0).
  { unfold calls. generalize 0%nat (length table). intros i n. revert i. induction n as [|n IH]; intros i; [done|].
    simpl. apply IH. }
  assert (Hrun : wp (run_calls fuel table calls) (fun table' w' => well_typed 0 base (budget + total leaks calls) table' w') w).
  { apply run_calls_typed; rewrite ?Hlen; [done| |done|lia|done]. apply Forall_fmap, Forall_true. done. }
  rewrite Hzero in Hrun. apply wp_run in Hrun as (table' & w' & E & lost & Htable & Hlost).
  apply wp_run. exists table', w'. split; [done|].
  apply release_seq_empties in E as Hnone; [|lia|done].
  destruct (table_ok_closed _ _ _ _ _ Htable) as [Hh Hheld].
  { eapply Forall_impl; [exact Hnone|]. intros h <- m rs. simpl. done. }
  split; [done|]. exists lost. split; [done|]. pose proof (total_nonneg slot_leaves table').
  assert (0 <= total slot_leaves table') by (apply total_nonneg; by intros [[]|]). lia.
Qed.

Lemma run_call_length table c w table' w' :
  run_call fuel table c w = Done (table', w') -> (length table' <= S (length table))%nat.
Proof.
  destruct c; unfold run_call;
    try (intros (r & w1 & _ & [= <- _])%bind_Done; rewrite length_app; simpl; lia).
  - destruct (table !! slot) as [[h|]|]; [intros (? & w1 & _ & [= <- _])%bind_Done|intros [= <- _]..]; lia.
  - destruct (table !! slot) as [[h|]|]; [intros (? & w1 & _ & [= <- _])%bind_Done|intros [= <- _]..];
      rewrite ?length_insert; lia.
Qed.

Lemma run_calls_length table calls w table' w' :
  run_calls fuel table calls w = Done (table', w') -> (length table' <= length table + length calls)%nat.
Proof.
  revert table w. induction calls as [|c calls IH]; intros table w; simpl; [intros [= <- _]; lia|].
  intros (table1 & w1 & E & Hrun)%bind_Done. apply run_call_length in E. apply IH in Hrun. lia.
Qed.
End types.

(** ** Properties *)

Section properties.
Context {PL : PlatformLaws PF}.

(** C5. Well-typed clients do not go wrong.  A client makes any sequence of calls:
    it opens streams (files, descriptors, memory), read handles, mapped files,
    inode sets and directory readers, uses them through the type each was opened
    with, and releases them, in any order and however the objects' lives overlap, with
    sizes and capacities that fit the machine words ([call_ok]).
    Whatever the kernel and the allocator answer, no call is undefined and every
    call ends; after it the objects of the table have disjoint cells, each well
    formed for its type, and account for every resource taken.  When the client
    then releases what it holds, the heap is the one before and every resource
    has been given back once, apart from at most one descriptor for each
    [bc_io_file_open_read] and [bc_io_file_open_auto]. *)
Theorem typed_clients_are_safe fuel bound calls w :
  wf_world w -> 0 <= bound -> Forall (call_ok fuel bound) calls -> fuel_ok fuel bound (2 * zlen calls) w ->
  wp (run_calls fuel [] calls) (fun table w1 =>
    well_typed fuel bound (zlen calls) w (total leaks calls) table w1 /\
    wp (release_all fuel table) (fun _ w' => heap w' = heap w /\
      exists lost : list Z, zlen lost <= total leaks calls /\
        forall r, held w' r = held w r + tokens (fds lost) r) w1) w.
Proof.
  intros Hwf Hb Hall Hf. pose proof (zlen_nonneg calls).
  assert (Hempty : well_typed fuel bound (zlen calls + zlen calls) w 0 [] w).
  { exists []. split; [by apply table_ok_nil|done]. }
  assert (Hrun : wp (run_calls fuel [] calls) (fun table w1 =>
    well_typed fuel bound (zlen calls) w (0 + total leaks calls) table w1) w).
  { apply run_calls_typed; [done|done| |lia|done]. by replace (zlen calls + zlen calls) with (2 * zlen calls) by lia. }
  apply wp_run in Hrun as (table & w1 & E & Hwt). apply wp_run. exists table, w1. split_and!; [done..|].
  apply run_calls_length in E. simpl in E. assert (Hlen : zlen table <= zlen calls) by (unfold zlen; lia).
  eapply wp_mono; [apply (release_all_typed fuel bound w); [|eapply fuel_ok_later; [exact Hf|done|lia]|done]|].
  - eapply well_typed_mono; [exact Hlen|reflexivity|exact Hwt].
  - intros ? w' (Hh & lost & Hheld & Hlost). split; [done|]. exists lost. split; [done|]. exact Hheld.
Qed.
End properties.
End client.

(** ** Witnesses *)

(** A client whose objects' lives overlap: a writer, a set and a reader are opened,
    used in turn, a failed open leaves an empty slot, a slot is used after its
    release, and the rest is released at the end. *)
Definition busy_script : script :=
  mk_script [SysOk 3; SysErr ENOENT] [] [SysOk 1] [] [] [] [].

Definition busy_calls : list client_call :=
  [OpenFile [97] BC_IO_STREAM_MODE_WRITE 64; CreateSet 4; OpenRead [98] (mk_open_options false false BC_IO_MADVISE_NORMAL 64);
   Use 0 (Write (WriteChunk [1; 2; 3])); CreateReader 7; Use 1 (SetOp (Insert 1 2)); OpenMemory 4096 10;
   MapFile [99] (mk_mmap_options true false false BC_IO_MADVISE_NORMAL 0 8); Use 5 ReadChunk; Use 3 NextEntry;
   Use 0 (Write Flush); Release 0; Use 0 (Write (WriteChunk [4])); Use 1 (SetOp (Contains 1 2)); Release 5;
   OpenAuto [100] 50 (mk_open_options false false BC_IO_MADVISE_NORMAL 64); Use 6 ReadChunk].

Example busy_run :
  safe ((table ← run_calls 20000 [] busy_calls; release_all 20000 table;; mret table) (scripted_world busy_script))
    (fun '(table, w) => length table = 7%nat /\ table !! 0%nat = Some None /\ table !! 2%nat = Some None /\
       is_Some (table !! 6%nat) /\ bool_decide (heap w = ∅) = true).
Proof. vm_compute. split_and!; try done. by eexists. Qed.

Lemma typed_clients_are_safe_witness :
  wp (run_calls 20000 [] busy_calls) (fun table w1 =>
    well_typed 20000 128 17 (scripted_world busy_script) 2 table w1 /\
    wp (release_all 20000 table) (fun _ w' => heap w' = ∅ /\
      exists lost : list Z, zlen lost <= 2 /\ forall r, held w' r = 0 + tokens (fds lost) r) w1)
    (scripted_world busy_script).
Proof.
  apply (typed_clients_are_safe 20000 128 busy_calls (scripted_world busy_script)).
  - apply scripted_world_wf.
  - done.
  - concrete_Forall.
  - split; [apply Nat.ltb_lt; by vm_compute|by vm_compute|by vm_compute].
Defined.
