(* ===== verification/Fuzz.v ===== *)
(** * The fuzz targets ([fuzzing/])

    Each target is a session of a client that is driven by arbitrary bytes:
    [LLVMFuzzerTestOneInput] of [fuzz_bc_io_stream.c], [fuzz_bc_io_file_inode_set.c] and
    [fuzz_bc_io_file_path_join.c].  What fuzzing looks for cannot happen: on every
    input they end, without undefined behaviour, and hold nothing at their end.  The
    allocator context that a target creates is the one of the model. *)

From S2P Require Import Prelude Platform Objects Machine Scripted StreamIo Stream StreamRead StreamLife.
From S2P Require Import InodeSet FilePath.

Section fuzz_stream.
Context {PF : Platform}.

(** ** A memory stream *)

Fixpoint fuzz_read_loop (turns fuel : nat) (memory_stream : bc_io_stream_t) : M bc_io_stream_t :=
  match turns with
  | O => out_of_fuel
  | S turns =>
      '(chunk, memory_stream) ← bc_io_stream_read_chunk fuel memory_stream;
      match chunk with
      | None => mret memory_stream
      | Some chunk =>
          if decide (chunk_size chunk = 0) then mret memory_stream
          else fuzz_read_loop turns fuel memory_stream
      end
  end.

(** [data] is the address of the input.  The values the target asks for last:
    position, total size and whether the stream is at its end. *)
Definition fuzz_stream_input (turns fuel : nat) (data size : Z) : M (option (Z * option Z * bool)) :=
  if decide (size = 0) then mret None
  else
    opened ← bc_io_stream_open_memory data size;
    match opened with
    | None => mret None
    | Some memory_stream =>
        s ← load_stream memory_stream;
        s ← fuzz_read_loop turns fuel s;
        store memory_stream (OStream s);;
        let pos := bc_io_stream_current_position s in
        let total := bc_io_stream_total_size s in
        let at_eof := bc_io_stream_is_end_of_stream s in
        bc_io_stream_close fuel memory_stream;;
        mret (Some (pos, total, at_eof))
    end.

(** ** An inode set *)

Definition fuzz_set_op (operation device inode : Z) : set_op :=
  if decide (operation = 0) then Insert device inode
  else if decide (operation = 1) then Contains device inode
  else if decide (operation = 2) then GetSize
  else Clear.

Fixpoint fuzz_inode_set_loop (turns fuel : nat) (data : list Z) (size position : Z)
    (inode_set : bc_io_file_inode_set_t) : M bc_io_file_inode_set_t :=
  match turns with
  | O => out_of_fuel
  | S turns =>
      if decide (position +u 17 <= size) then
        first ← lift (peek data position);
        let operation := Z.land first 3 in
        let position := position +u 1 in
        device ← lift (span data position 8);
        let position := position +u 8 in
        inode ← lift (span data position 8);
        let position := position +u 8 in
        '(_, inode_set) ← run_set_op fuel inode_set (fuzz_set_op operation (le_word device) (le_word inode));
        fuzz_inode_set_loop turns fuel data size position inode_set
      else mret inode_set
  end.

Definition fuzz_inode_set_input (turns fuel : nat) (data : list Z) (size : Z) : M unit :=
  inode_set ← bc_io_file_inode_set_create fuel 8;
  match inode_set with
  | None => mret tt
  | Some inode_set =>
      s ← load_set inode_set;
      s ← fuzz_inode_set_loop turns fuel data size 0 s;
      store inode_set (OSet s);;
      bc_io_file_inode_set_destroy inode_set;;
      mret tt
  end.

End fuzz_stream.

(** ** Joining paths *)

Definition FUZZ_PATH_JOIN_BUFFER_CAPACITY : Z := 1024.
Definition capacity_table : list Z := [0; 1; 2; 16; 64; 256; 512; FUZZ_PATH_JOIN_BUFFER_CAPACITY].

(** [base], [name] and [output_buffer] are the arrays as they are before they are
    written. *)
Definition fuzz_path_join_input (base name output_buffer data : list Z) (size : Z)
    : res (option (option Z * list Z)) :=
  if decide (size < 3) then Done None
  else
    base_length ← peek data 0;
    name_length ← peek data 1;
    third ← peek data 2;
    let capacity_nibble := Z.land third 7 in
    let position := 3 in
    if decide (size < position +u base_length +u name_length) then Done None
    else
      let base_actual := if decide (base_length < 255) then base_length else 255 in
      let name_actual := if decide (name_length < 255) then name_length else 255 in
      bytes ← span data position base_actual;
      base ← blit base 0 bytes;
      base ← poke base base_actual 0;
      let position := position +u base_length in
      bytes ← span data position name_actual;
      name ← blit name 0 bytes;
      name ← poke name name_actual 0;
      capacity ← peek capacity_table capacity_nibble;
      r ← bc_io_file_path_join output_buffer capacity base base_actual name name_actual;
      Done (Some r).

(** ** Lemmas *)

Section fuzz.
Context {PF : Platform} {PL : PlatformLaws PF}.

Lemma fuzz_read_loop_spec turns fuel s w :
  wf_stream s -> source_type s = BC_IO_STREAM_SOURCE_MEMORY -> end_of_stream s = false ->
  is_u64 (memory_data s) -> is_u64 (memory_data s + memory_size s) ->
  memory_size s - memory_position s < Z.of_nat turns ->
  wp (fuzz_read_loop turns fuel s)
    (fun s' w' => w' = w /\ end_of_stream s' = true /\ wf_stream s' /\ setup s' = setup s /\
       logical_position s' = memory_size s) w.
Proof.
  revert s. induction turns as [|turns IH]; intros s Hs Hsrc Heos Hdata Hall Hturns.
  { destruct (wf_memory _ Hs Hsrc) as (_ & _ & ? & _). lia. }
  pose proof (wf_memory _ Hs Hsrc) as (Hmode & Hpos & Hrange & Hsize & Hlog).
  simpl. unfold bc_io_stream_read_chunk. rewrite Heos.
  rewrite decide_False by (intros E; by apply E). rewrite decide_True by done. apply wp_bind, wp_ret.
  destruct (decide (memory_size s <= memory_position s)) as [Hend|Hmore].
  - rewrite read_chunk_memory_end by done. apply wp_ret. split_and!; try done; [by apply wf_set_end|].
    simpl. lia.
  - destruct (read_chunk_memory_spec s Hs Hsrc Hdata Hall ltac:(lia)) as (s' & -> & Hs' & Hset & Heos' & Hpos').
    simpl. rewrite decide_False by lia. pose proof Hset as Hset'. unfold setup in Hset'.
    injection Hset' as _ _ _ Esrc _ _ _ Edata Esize _ _.
    eapply wp_mono; [apply IH; [done|congruence|congruence|congruence|congruence|rewrite Esize, Hpos'; lia]|].
    intros s2 w2 (-> & He2 & Hs2 & Hset2 & Hl2). split_and!; try done; congruence.
Qed.

(** The set while the target runs; [left] bounds the operations to come. *)
Lemma fuzz_inode_set_loop_spec turns fuel data position w0 p s X w :
  holds w0 p s w -> represents s X -> 0 <= position <= zlen data -> zlen data + 17 < u64_modulus ->
  roomy fuel s (zlen data - position) -> zlen data - position < Z.of_nat turns ->
  wp (fuzz_inode_set_loop turns fuel data (zlen data) position s) (fun s' w' => holds w0 p s' w') w.
Proof.
  revert position s X w. induction turns as [|turns IH]; intros position s X w Hh Hs Hpos Hmax Hroom Hturns; [lia|].
  simpl. assert (Hw : forall n, 0 <= n <= 17 -> position +u n = position + n).
  { intros n Hn. apply wrap64_small. unfold is_u64. lia. }
  rewrite Hw by lia. case_decide as Hmore; [|by apply wp_ret]. rewrite (Hw 1) by lia.
  rewrite (wrap64_small (position + 1 + 8)) by (unfold is_u64; lia).
  rewrite (wrap64_small (position + 1 + 8 + 8)) by (unfold is_u64; lia).
  assert (Hlt : (Z.to_nat position < length data)%nat) by (unfold zlen in *; lia).
  apply lookup_lt_is_Some in Hlt as [first Hfirst].
  apply wp_bind, wp_lift. unfold peek. rewrite decide_True, Hfirst by lia.
  apply wp_bind, wp_lift. rewrite span_in_range by lia.
  apply wp_bind, wp_lift. rewrite span_in_range by lia.
  assert (0 <= set_size s) by (rewrite (rep_size _ _ Hs); lia).
  apply wp_bind. eapply wp_mono; [apply run_set_op_spec; [done|done|]|].
  { unfold roomy in *. lia. }
  intros [a s1] w1 (Hh1 & (X1 & _ & Hs1) & Hcap & Hsize).
  apply (IH _ s1 X1); try done; unfold roomy in *; lia.
Qed.

Lemma fuzz_stream_spec turns fuel data size w :
  wf_world w -> 0 <= size < Z.of_nat turns -> is_u64 data -> is_u64 (data + size) ->
  enough fuel BC_IO_STREAM_DEFAULT_MEMORY_CHUNK_SIZE w ->
  wp (fuzz_stream_input turns fuel data size)
    (fun r w' => evolved (heap w) nothing w w' /\
       match r with
       | Some (position, total, at_end) => position = size /\ total = Some size /\ at_end = true
       | None => True
       end) w.
Proof.
  intros Hwf Hsize Hdata Hall Hfuel. unfold fuzz_stream_input. case_decide as Hz; [by apply wp_ret; split; [apply evolved_refl|]|].
  assert (Hu : is_u64 size) by (unfold is_u64 in *; lia).
  apply wp_bind. eapply wp_mono; [by apply open_memory_life|]. intros [p|] w1; last first.
  { intros He. by apply wp_ret. }
  intros (s & Hp & _ & [Hs _ Heos _ _] & _ & Hsrc & Edata & Esize & Epos & Ebuf & Etotal & Eowns & Earena & He).
  apply wp_bind. eapply wp_load_stream; [rewrite (evolved_heap _ _ _ _ He); by simplify_map_eq|].
  apply wp_bind. eapply wp_mono; [apply fuzz_read_loop_spec; try done; rewrite ?Edata, ?Esize, ?Epos; done || lia|].
  intros s' w2 (-> & Hend & Hs' & Hset & Hl).
  apply (finish_session fuel p s s' (mret _) _ w w1 w1); try done.
  - unfold stream_resources. rewrite Eowns, Earena. simpl. eapply evolved_ext; [exact He|done|done].
  - by rewrite Ebuf.
  - intros w' He'. apply wp_ret. split_and!; try done; [by rewrite <- Esize|].
    rewrite <- Etotal. unfold bc_io_stream_total_size, setup in *.
    injection Hset as _ _ _ _ _ _ _ _ _ Et Ek. by rewrite Et, Ek.
Qed.

Lemma fuzz_inode_set_spec turns fuel data w :
  wf_world w -> zlen data + 17 < u64_modulus -> zlen data < Z.of_nat turns ->
  (64 + Z.to_nat (3 * zlen data) <= fuel)%nat ->
  wp (fuzz_inode_set_input turns fuel data (zlen data))
    (fun _ w' => evolved (heap w) nothing w w') w.
Proof.
  intros Hwf Hmax Hturns Hfuel. pose proof (zlen_nonneg data). apply wp_bind.
  eapply wp_mono; [apply create_holds; [done|done|lia]|].
  intros [p|] w1; last (intros He; by apply wp_ret).
  intros (s & Hs & Hholds & Hp & Hcap). change (requested 8) with 8 in Hcap.
  apply wp_bind. eapply wp_load_set; [done|]. apply wp_bind. eapply wp_mono.
  { eapply (fuzz_inode_set_loop_spec turns fuel data 0 w p s ∅); try done; try lia.
    unfold roomy. rewrite (rep_size _ _ Hs), size_empty. lia. }
  intros s' w2 Hholds'. eapply finish_set; [done|]. intros w' He. by apply wp_ret.
Qed.

(** ** Properties *)

(** C39. The stream target on every input: the stream is refused or read to its end, its
    position and total size then both are the size of the input, and everything is given back.
    No call of the kernel is needed for it. *)
Theorem fuzz_stream_reads_all turns fuel data size w :
  wf_world w -> 0 <= size < Z.of_nat turns -> is_u64 data -> is_u64 (data + size) ->
  enough fuel BC_IO_STREAM_DEFAULT_MEMORY_CHUNK_SIZE w ->
  wp (fuzz_stream_input turns fuel data size)
    (fun r w' => heap w' = heap w /\ (forall x, held w' x = held w x) /\
       match r with
       | Some (position, total, at_end) => position = size /\ total = Some size /\ at_end = true
       | None => True
       end) w.
Proof.
  intros. eapply wp_mono; [by apply fuzz_stream_spec|].
  intros r w' [[Hh Hd]%evolved_balanced Hr]. by split_and!.
Qed.

(** The inode set target on every input: however many operations the bytes spell, in
    whatever order and with whatever the allocator refuses, no byte outside the input is read,
    every probe ends, and destroying the set gives back every block. *)
Theorem fuzz_inode_set_balanced turns fuel data w :
  wf_world w -> zlen data + 17 < u64_modulus -> zlen data < Z.of_nat turns ->
  (64 + Z.to_nat (3 * zlen data) <= fuel)%nat ->
  wp (fuzz_inode_set_input turns fuel data (zlen data))
    (fun _ w' => heap w' = heap w /\ forall x, held w' x = held w x) w.
Proof.
  intros. eapply wp_mono; [by apply fuzz_inode_set_spec|]. by intros ? w' ?%evolved_balanced.
Qed.
End fuzz.

(** A byte of a block, and one of a table. *)
Lemma peek_Forall (P : Z -> Prop) block i :
  Forall P block -> 0 <= i < zlen block -> exists v, peek block i = Done v /\ P v.
Proof.
  intros HP Hi. destruct (lookup_lt_is_Some_2 block (Z.to_nat i)) as [v Hv]; [unfold zlen in *; lia|].
  exists v. unfold peek. rewrite decide_True, Hv by lia. split; [done|by eapply Forall_lookup_1].
Qed.

(** The path target: no access outside the arrays, on any input and whatever the
    arrays held. *)
Lemma fuzz_path_join_defined base name output_buffer data :
  zlen base = 256 -> zlen name = 256 -> zlen output_buffer = FUZZ_PATH_JOIN_BUFFER_CAPACITY ->
  Forall is_byte data -> zlen data + 3 < u64_modulus ->
  safe (fuzz_path_join_input base name output_buffer data (zlen data)) (fun _ => True).
Proof.
  intros Hb Hn Ho Hdata Hmax. unfold fuzz_path_join_input. case_decide as Hsize; [done|].
  destruct (peek_Forall _ data 0 Hdata ltac:(lia)) as (bl & -> & Hbl).
  destruct (peek_Forall _ data 1 Hdata ltac:(lia)) as (nl & -> & Hnl).
  destruct (peek_Forall _ data 2 Hdata ltac:(lia)) as (third & -> & Hthird). simpl.
  unfold is_byte in Hbl, Hnl. unfold u64_modulus in Hmax.
  rewrite (wrap64_small (3 + bl)) by (unfold is_u64, u64_modulus; lia).
  rewrite (wrap64_small (3 + bl + nl)) by (unfold is_u64, u64_modulus; lia).
  case_decide as Hfit; [done|].
  replace (if decide (bl < 255) then bl else 255) with bl by (case_decide; lia).
  replace (if decide (nl < 255) then nl else 255) with nl by (case_decide; lia).
  rewrite (span_in_range data 3 bl) by lia. simpl. rewrite blit_in_range by block_lia. simpl.
  rewrite poke_in_range by block_lia. simpl. rewrite (span_in_range data (3 + bl) nl) by lia. simpl.
  rewrite blit_in_range by block_lia. simpl. rewrite poke_in_range by block_lia. simpl.
  assert (Hnibble : 0 <= Z.land third 7 < 8).
  { change 7 with (Z.ones 3). rewrite Z.land_ones by lia. apply Z.mod_pos_bound. lia. }
  destruct (peek_Forall (fun c => c <= 1024) capacity_table (Z.land third 7)) as (capacity & -> & Hc).
  { by repeat constructor. }
  { by change (zlen capacity_table) with 8. }
  simpl. rewrite path_join_spec; [done|block_lia|block_lia|unfold u64_modulus; lia|].
  rewrite Ho. exact Hc.
Qed.

(** ** Witnesses *)

Definition fuzz_world : world := scripted_world quiet_script.

Lemma fuzz_stream_reads_all_witness :
  wp (fuzz_stream_input 10 (Z.to_nat 140000) 4096 9)
    (fun r w' => heap w' = ∅ /\ (forall x, held w' x = 0) /\
       match r with
       | Some (position, total, at_end) => position = 9 /\ total = Some 9 /\ at_end = true
       | None => True
       end) fuzz_world.
Proof.
  apply (fuzz_stream_reads_all 10 (Z.to_nat 140000) 4096 9 fuzz_world);
    [apply scripted_world_wf|concrete|concrete|concrete|apply Nat.ltb_lt; by vm_compute].
Defined.

(** Two insertions, a look-up, a size, and three bytes too few for an operation. *)
Definition fuzz_bytes : list Z :=
  0 :: zrepeat 3 16 ++ 4 :: zrepeat 5 16 ++ 1 :: zrepeat 3 16 ++ 254 :: zrepeat 0 16 ++ [0; 1; 2].

Example fuzz_inode_set_run :
  safe (fuzz_inode_set_loop 100 300 fuzz_bytes 71 0
          (mk_set 4096 (repeat (0, 0) 8) (repeat 0 8) 8 0) fuzz_world)
    (fun '(s, _) => bc_io_file_inode_set_get_size s = 2).
Proof. by vm_compute. Qed.

Lemma fuzz_inode_set_balanced_witness :
  wp (fuzz_inode_set_input 100 300 fuzz_bytes 71)
    (fun _ w' => heap w' = ∅ /\ forall x, held w' x = 0) fuzz_world.
Proof.
  apply (fuzz_inode_set_balanced 100 300 fuzz_bytes fuzz_world);
    [apply scripted_world_wf|concrete|concrete|apply Nat.leb_le; by vm_compute].
Defined.
