(* ===== verification/FuzzMmap.v ===== *)
(** * The fuzz target of memory maps, and the drivers of the fuzz targets

    [LLVMFuzzerTestOneInput] of [fuzzing/fuzz_bc_io_mmap.c] maps a file it makes with
    [mkstemp] and removes with [unlink], which are parameters; the loops of the four
    [main] functions feed the targets with bytes from [rand], a parameter too.  All of them
    end, without undefined behaviour, and hold nothing at their end. *)

From S2P Require Import Prelude Platform Objects Machine Scripted StreamIo Stream StreamLife Mmap.
From S2P Require Import InodeSet FilePath Fuzz.

(** ** Temporary files *)

Definition O_RDWR : Z := 2.
Definition O_EXCL : Z := 128.

(** [mkstemp] fills the template in and opens the file it names. *)
Class TempFiles (KN : Kernel) := {
  sys_mkstemp : kstate -> list Z -> sysret (Z * list Z) * kstate;
  sys_unlink : kstate -> list Z -> kstate;
}.

Class TempFilesLaws {KN : Kernel} (TF : TempFiles KN) : Prop := {
  sys_mkstemp_fd k template fd path k' : sys_mkstemp k template = (SysOk (fd, path), k') -> 0 <= fd;
  sys_mkstemp_patience k template r k' : sys_mkstemp k template = (r, k') -> (patience k' <= patience k)%nat;
  sys_unlink_patience k path : (patience (sys_unlink k path) <= patience k)%nat;
}.

Definition hint_of (n : Z) : bc_io_mmap_madvise_hint_t :=
  if decide (n = 0) then BC_IO_MADVISE_NORMAL
  else if decide (n = 1) then BC_IO_MADVISE_SEQUENTIAL
  else if decide (n = 2) then BC_IO_MADVISE_RANDOM
  else if decide (n = 3) then BC_IO_MADVISE_WILLNEED
  else BC_IO_MADVISE_DONTNEED.

Section fuzz_mmap.
Context {PF : Platform} {TF : TempFiles platform_kernel}.

(** The descriptor and the path, which is the template when the call fails. *)
Definition mkstemp (template : list Z) : M (Z * list Z) :=
  r ← syscall (fun k => sys_mkstemp k template)
        (fun r => [EvOpen (default template (snd <$> r)) (Z.lor (Z.lor O_RDWR O_CREAT) O_EXCL) (fst <$> r)]);
  mret (default (-1, template) r).

Definition unlink (path : list Z) : M unit := fun w =>
  Done (tt, after_call w (sys_unlink (env w) path) (errno w) []).

Definition fuzz_mmap_input (fuel : nat) (data : list Z) (size : Z) : M unit :=
  if decide (size < 4) then mret tt
  else
    '(fd, path) ← mkstemp (bytes_of_string "/tmp/bc_io_mmap_fuzz_XXXXXX");
    if decide (fd < 0) then mret tt
    else
      bytes ← lift (span data 0 size);
      write fd bytes;;
      close fd;;
      b0 ← lift (peek data 0);
      b1 ← lift (peek data 1);
      b2 ← lift (peek data 2);
      let options := mk_mmap_options true (bool_decide (Z.land b0 1 <> 0)) (bool_decide (Z.land b1 1 <> 0))
                       (hint_of (b2 mod 5)) 0 0 in
      map ← bc_io_mmap_file path options;
      (match map with
       | None => mret tt
       | Some map =>
           m ← load_map map;
           let '(base, mapped_size) := bc_io_mmap_get_data m in
           b3 ← lift (peek data 3);
           bc_io_mmap_advise m 0 mapped_size (hint_of (b3 mod 5));;
           bc_io_mmap_destroy fuel map
       end);;
      unlink path.

(** ** Drivers *)

Section drivers.
Context {G : Type} (rand : G -> Z * G).

Fixpoint fuzz_fill (turns : nat) (buffer : list Z) (j len : Z) (g : G) : res (list Z * G) :=
  if decide (j < len) then
    match turns with
    | O => OutOfFuel
    | S turns =>
        let '(r, g) := rand g in
        buffer ← poke buffer j (Z.land r 255);
        fuzz_fill turns buffer (j +u 1) len g
    end
  else Done (buffer, g).

(** The target is given the first [len] bytes of the buffer, which has [size]. *)
Fixpoint fuzz_iterate (iterations : nat) (size : Z) (target : list Z -> Z -> M unit) (buffer : list Z) (g : G)
    : M (list Z * G) :=
  match iterations with
  | O => mret (buffer, g)
  | S iterations =>
      let '(r, g) := rand g in
      let len := Z.rem r size in
      '(buffer, g) ← lift (fuzz_fill (Z.to_nat len) buffer 0 len g);
      target (ztake len buffer) len;;
      fuzz_iterate iterations size target buffer g
  end.

(** The drivers after their arguments are read: the number of iterations, the
    buffer as it is found and the generator after [srand]. *)
Definition fuzz_stream_main (turns fuel : nat) (address : Z) (iterations : nat) (buffer : list Z) (g : G) :=
  fuzz_iterate iterations 4096 (fun _ len => fuzz_stream_input turns fuel address len;; mret tt) buffer g.

Definition fuzz_inode_set_main (turns fuel : nat) (iterations : nat) (buffer : list Z) (g : G) :=
  fuzz_iterate iterations 4096 (fun data len => fuzz_inode_set_input turns fuel data len) buffer g.

Definition fuzz_path_join_main (base name output : list Z) (iterations : nat) (buffer : list Z) (g : G) :=
  fuzz_iterate iterations 2048 (fun data len => lift (fuzz_path_join_input base name output data len);; mret tt) buffer g.

Definition fuzz_mmap_main (fuel : nat) (iterations : nat) (buffer : list Z) (g : G) :=
  fuzz_iterate iterations 1024 (fun data len => fuzz_mmap_input fuel data len) buffer g.
End drivers.

(** ** The target *)

Section laws.
Context {PL : PlatformLaws PF} {TL : TempFilesLaws TF}.

Lemma mkstemp_spec template w :
  wf_world w ->
  wp (mkstemp template) (fun '(fd, _) w' =>
    evolved (heap w) (tokens (if decide (fd < 0) then [] else [RFd fd])) w w') w.
Proof.
  intros Hwf. apply wp_bind, wp_syscall.
  - intros [fd path] k Hk. pose proof (sys_mkstemp_fd _ _ _ _ _ Hk). apply sys_mkstemp_patience in Hk.
    apply wp_ret. simpl. rewrite decide_False by lia. solve_evolved.
  - intros e k Hk%sys_mkstemp_patience. apply wp_ret. simpl. solve_evolved.
Qed.

Lemma write_quiet fd bytes w : wp (write fd bytes) (fun _ w' => quiet w w') w.
Proof. apply wp_write; intros; split; try done; intros ?; held_lia. Qed.

Lemma advise_quiet m o n hint w : wp (bc_io_mmap_advise m o n hint) (fun _ w' => quiet w w') w.
Proof. unfold bc_io_mmap_advise. wp_run; split; try done; intros ?; held_lia. Qed.

Lemma unlink_spec path w : wf_world w -> wp (unlink path) (fun _ w' => evolved (heap w) nothing w w') w.
Proof.
  intros Hwf. unfold unlink, wp. simpl. pose proof (sys_unlink_patience (env w) path). solve_evolved.
Qed.

Lemma fuzz_mmap_spec fuel data w :
  wf_world w -> Forall is_byte data -> (patience (env w) < fuel)%nat ->
  wp (fuzz_mmap_input fuel data (zlen data)) (fun _ w' => evolved (heap w) nothing w w') w.
Proof.
  intros Hwf Hdata Hfuel. unfold fuzz_mmap_input. case_decide as Hsize; [by apply wp_ret, evolved_refl|].
  apply wp_bind. eapply wp_mono; [exact (mkstemp_spec _ w Hwf)|]. intros [fd path] w1 He1. simpl.
  case_decide as Hfd; [apply wp_ret; eapply evolved_ext; [exact He1|done|by intros r]|].
  apply wp_bind, wp_lift. rewrite span_in_range by lia.
  apply wp_bind. eapply wp_mono; [apply write_quiet|]. intros ? w2 Hq.
  pose proof (evolved_quiet _ _ Hq (evolved_wf _ _ _ _ He1)) as He2. rewrite (evolved_heap _ _ _ _ He1) in He2.
  apply wp_bind. eapply wp_mono; [eapply evolved_close, (evolved_trans _ _ _ _ _ _ _ He1 He2)|]. intros ? w3 He3.
  destruct (peek_Forall _ data 0 Hdata ltac:(lia)) as (b0 & -> & _).
  destruct (peek_Forall _ data 1 Hdata ltac:(lia)) as (b1 & -> & _).
  destruct (peek_Forall _ data 2 Hdata ltac:(lia)) as (b2 & -> & _).
  destruct (peek_Forall _ data 3 Hdata ltac:(lia)) as (b3 & E3 & _).
  do 3 apply wp_bind, wp_lift; simpl.
  assert (He : evolved (heap w) nothing w w3).
  { eapply evolved_ext; [exact He3|done|]. intros r. unfold nothing. simpl. lia. }
  apply wp_bind. eapply wp_mono; [apply mmap_file_owns; [apply He|done]|].
  rewrite (evolved_heap _ _ _ _ He). intros map w4 Hmap. apply wp_bind.
  eapply (wp_mono _ (fun _ w5 => evolved (heap w) nothing w w5)).
  { destruct map as [p|]; [destruct Hmap as (m & Hown)|].
    - apply wp_bind. eapply wp_load_map; [by eapply owns_map_load|]. unfold bc_io_mmap_get_data.
      apply wp_bind, wp_lift. rewrite E3. simpl. apply wp_bind. eapply wp_mono; [apply advise_quiet|].
      intros ? w5 Hq5. eapply wp_mono; [eapply destroy_owns; [by eapply owns_map_quiet|]|].
      { apply evolved_patience in He. lia. }
      intros ? w6 He6. eapply evolved_ext; [eapply evolved_trans; [exact He|exact He6]| |].
      + by rewrite (evolved_heap _ _ _ _ He).
      + by intros r.
    - apply wp_ret. eapply evolved_ext; [eapply evolved_trans; [exact He|exact Hmap]|done|by intros r]. }
  intros ? w5 He5. eapply wp_mono; [apply unlink_spec, He5|]. intros ? w6 He6.
  rewrite (evolved_heap _ _ _ _ He5) in He6.
  eapply evolved_ext; [eapply evolved_trans; [exact He5|exact He6]|done|by intros r].
Qed.

(** ** The drivers *)

Section drivers.
Context {G : Type} (rand : G -> Z * G).
Hypothesis rand_nonneg : forall g, 0 <= (rand g).1.

Lemma poke_byte (block : list Z) i v :
  0 <= i < zlen block -> Forall is_byte block -> is_byte v ->
  exists block', poke block i v = Done block' /\ zlen block' = zlen block /\ Forall is_byte block'.
Proof.
  intros Hi Hall Hv. rewrite poke_in_range by done. eexists. split; [done|].
  split; [apply zlen_insert|by apply Forall_insert].
Qed.

Lemma fuzz_fill_spec turns buffer j len g :
  0 <= j -> len <= zlen buffer -> zlen buffer < u64_modulus -> Forall is_byte buffer -> len - j <= Z.of_nat turns ->
  safe (fuzz_fill rand turns buffer j len g) (fun '(buffer', _) => zlen buffer' = zlen buffer /\ Forall is_byte buffer').
Proof.
  revert buffer j g. induction turns as [|turns IH]; intros buffer j g Hj Hlen Hmax Hall Hturns; simpl.
  { rewrite decide_False by lia. done. }
  case_decide as Hlt; [|done]. destruct (rand g) as [r g'].
  destruct (poke_byte buffer j (Z.land r 255)) as (buffer' & -> & Hl & Hall'); [lia|done| |].
  { change 255 with (Z.ones 8). rewrite Z.land_ones by lia. apply Z.mod_pos_bound. lia. }
  simpl. rewrite wrap64_small by (unfold is_u64; lia).
  eapply safe_mono; [apply IH; try done; lia|]. intros [b g2] [E H]. split; [lia|done].
Qed.

(** A driver is as good as its target on inputs shorter than the buffer. *)
Lemma fuzz_iterate_spec n size (target : list Z -> Z -> M unit) buffer g w w0 :
  (forall data w, Forall is_byte data -> zlen data < size -> wf_world w ->
     (patience (env w) <= patience (env w0))%nat ->
     wp (target data (zlen data)) (fun _ w' => evolved (heap w) nothing w w') w) ->
  0 < size < u64_modulus -> zlen buffer = size -> Forall is_byte buffer -> wf_world w ->
  (patience (env w) <= patience (env w0))%nat ->
  wp (fuzz_iterate rand n size target buffer g) (fun _ w' => evolved (heap w) nothing w w') w.
Proof.
  intros Htarget Hsize. revert buffer g w.
  induction n as [|n IH]; intros buffer g w Esize Hall Hwf Hpat; simpl; [by apply wp_ret, evolved_refl|].
  pose proof (rand_nonneg g) as Hr. destruct (rand g) as [r g']. simpl in Hr.
  set (len := Z.rem r size). assert (Hlen : 0 <= len < size) by (apply Z.rem_bound_pos; lia).
  apply wp_bind, wp_lift. eapply safe_mono; [apply fuzz_fill_spec; try done; lia|].
  intros [buffer' g2] [El Hall']. apply wp_bind.
  assert (Elen : zlen (ztake len buffer') = len) by (rewrite zlen_ztake; lia).
  eapply wp_mono.
  { rewrite <- Elen at 2. apply Htarget; [by apply Forall_take|lia|done|done]. }
  intros ? w1 He. eapply wp_mono; [apply (IH buffer'); [lia|done|apply He|]|].
  { apply evolved_patience in He. lia. }
  intros ? w2 He2. rewrite (evolved_heap _ _ _ _ He) in He2.
  eapply evolved_ext; [eapply evolved_trans; [exact He|exact He2]|done|by intros x].
Qed.

(** The four drivers, for any number of iterations. *)
Lemma fuzz_mmap_main_spec fuel n buffer g w :
  zlen buffer = 1024 -> Forall is_byte buffer -> wf_world w -> (patience (env w) < fuel)%nat ->
  wp (fuzz_mmap_main rand fuel n buffer g) (fun _ w' => evolved (heap w) nothing w w') w.
Proof.
  intros Hsize Hall Hwf Hfuel. eapply (fuzz_iterate_spec _ _ _ _ _ _ w); try done.
  intros data w1 Hdata _ Hwf1 Hpat. apply fuzz_mmap_spec; [done|done|lia].
Qed.

Lemma fuzz_stream_main_spec turns fuel address n buffer g w :
  zlen buffer = 4096 -> Forall is_byte buffer -> wf_world w -> 4096 <= Z.of_nat turns ->
  0 <= address -> address + 4096 < u64_modulus -> enough fuel BC_IO_STREAM_DEFAULT_MEMORY_CHUNK_SIZE w ->
  wp (fuzz_stream_main rand turns fuel address n buffer g) (fun _ w' => evolved (heap w) nothing w w') w.
Proof.
  intros Hsize Hall Hwf Hturns Ha Hmax Hfuel. eapply (fuzz_iterate_spec _ _ _ _ _ _ w); try done.
  intros data w1 Hdata Hlen Hwf1 Hpat. pose proof (zlen_nonneg data). apply wp_bind.
  eapply wp_mono; [apply fuzz_stream_spec; [done|lia|unfold is_u64; lia|unfold is_u64; lia|]|].
  - unfold enough in *. lia.
  - intros r w2 [He _]. by apply wp_ret.
Qed.

Lemma fuzz_inode_set_main_spec turns fuel n buffer g w :
  zlen buffer = 4096 -> Forall is_byte buffer -> wf_world w ->
  4096 <= Z.of_nat turns -> 64 + 3 * 4096 <= Z.of_nat fuel ->
  wp (fuzz_inode_set_main rand turns fuel n buffer g) (fun _ w' => evolved (heap w) nothing w w') w.
Proof.
  intros Hsize Hall Hwf Hturns Hfuel. eapply (fuzz_iterate_spec _ _ _ _ _ _ w); try done.
  intros data w1 Hdata Hlen Hwf1 Hpat. apply fuzz_inode_set_spec; [done|unfold u64_modulus; lia|lia..].
Qed.

Lemma fuzz_path_join_main_spec base name output n buffer g w :
  zlen base = 256 -> zlen name = 256 -> zlen output = FUZZ_PATH_JOIN_BUFFER_CAPACITY ->
  zlen buffer = 2048 -> Forall is_byte buffer -> wf_world w ->
  wp (fuzz_path_join_main rand base name output n buffer g) (fun _ w' => evolved (heap w) nothing w w') w.
Proof.
  intros Hb Hn Ho Hsize Hall Hwf. eapply (fuzz_iterate_spec _ _ _ _ _ _ w); try done.
  intros data w1 Hdata Hlen Hwf1 Hpat. apply wp_bind, wp_lift.
  eapply safe_mono; [apply fuzz_path_join_defined; try done; unfold u64_modulus; lia|].
  intros r _. by apply wp_ret, evolved_refl.
Qed.

(** ** Properties *)

(** C40. Fuzzing the maps finds nothing.  For every number of iterations, every
    generator of random numbers and whatever the kernel and the allocator answer,
    the driver of [fuzz_bc_io_mmap.c] writes only inside its buffer, every run of
    the target on the bytes drawn is defined and ends, whichever of its files,
    mappings and maps could be made, and at the end every descriptor, mapping and
    block has been given back. *)
Theorem fuzz_mmap_main_balanced fuel n buffer g w :
  zlen buffer = 1024 -> Forall is_byte buffer -> wf_world w -> (patience (env w) < fuel)%nat ->
  wp (fuzz_mmap_main rand fuel n buffer g) (fun _ w' => heap w' = heap w /\ forall x, held w' x = held w x) w.
Proof.
  intros. eapply wp_mono; [by apply fuzz_mmap_main_spec|]. by intros ? w' ?%evolved_balanced.
Qed.
End drivers.
End laws.
End fuzz_mmap.

(** ** Witnesses *)

(** A file system that always finds a name, and a generator that counts. *)
#[local] Instance numbered_files : TempFiles scripted_kernel := {|
  sys_mkstemp k template := (SysOk (9, template ++ [49]), k);
  sys_unlink k path := k;
|}.

#[local] Instance numbered_files_laws : TempFilesLaws numbered_files.
Proof. split; simpl; intros; by simplify_eq. Qed.

Definition counter (g : nat) : Z * nat := (Z.of_nat (7 + g), S g).

Definition fuzz_script : script := mk_script [] [] [SysErr EINTR] [] [SysErr ENOMEM] [] [].

Example fuzz_mmap_run :
  safe (fuzz_mmap_main counter 5 3 (zrepeat 171 1024) 1%nat (scripted_world fuzz_script))
    (fun '((buffer, _), w) => zlen buffer = 1024 /\ bool_decide (heap w = ∅) = true).
Proof. vm_compute. by split. Qed.

Lemma fuzz_mmap_main_balanced_witness :
  wp (fuzz_mmap_main counter 5 3 (zrepeat 171 1024) 1%nat)
    (fun _ w' => heap w' = ∅ /\ forall x, held w' x = 0) (scripted_world fuzz_script).
Proof.
  apply (fuzz_mmap_main_balanced counter ltac:(intros g; unfold counter; simpl; lia)
           5 3 (zrepeat 171 1024) 1%nat (scripted_world fuzz_script)).
  - concrete.
  - apply Forall_replicate. unfold is_byte. lia.
  - apply scripted_world_wf.
  - concrete.
Defined.
