(* ===== verification/DiskSpec.v ===== *)
(** * A file system of regular files

    What the kernel keeps behind the descriptors ([disk]), and what each event of a
    trace does to it.  A kernel with [DiskLaws] does to its files what the trace
    says; [tp] is a logic for what code leaves on the trace and on the disk, to be
    used beside [wp], which says that the code ends. *)

From S2P Require Import Prelude Platform Objects Machine.

(** ** Disks *)

(** The files by name, their contents, and for each open descriptor its file and
    its position in it. *)
Record disk := mk_disk {
  names : gmap (list Z) Z;
  contents_of : gmap Z (list Z);
  cursors : gmap Z (Z * Z);
}.

(** A write at a position, with zeros where it leaves a hole. *)
Definition overwrite (c : list Z) (o : Z) (bytes : list Z) : list Z :=
  ztake o c ++ zrepeat 0 (o - zlen c) ++ bytes ++ zdrop (o + zlen bytes) c.

Definition truncates (flags : Z) : bool := negb (bool_decide (Z.land flags O_TRUNC = 0)).

(** [disk_step d e d']: the event takes the disk from [d] to [d'].  Opening with
    [O_TRUNC] empties a file or makes one; a read that finds nothing is at the
    end; descriptors without a cursor are not files. *)
Definition disk_step (d : disk) (e : event) (d' : disk) : Prop :=
  match e with
  | EvOpen path flags (Some fd) =>
      cursors d !! fd = None /\ exists i,
      if truncates flags then
        (names d !! path = Some i \/ names d !! path = None /\ contents_of d !! i = None) /\
        d' = mk_disk (<[path := i]> (names d)) (<[i := []]> (contents_of d)) (<[fd := (i, 0)]> (cursors d))
      else
        names d !! path = Some i /\ is_Some (contents_of d !! i) /\
        d' = mk_disk (names d) (contents_of d) (<[fd := (i, 0)]> (cursors d))
  | EvClose fd => d' = mk_disk (names d) (contents_of d) (delete fd (cursors d))
  | EvRead fd bytes =>
      match cursors d !! fd with
      | None => d' = d
      | Some (i, o) => exists c, contents_of d !! i = Some c /\
          bytes = ztake (zlen bytes) (zdrop o c) /\ (bytes = [] -> zdrop o c = []) /\
          d' = mk_disk (names d) (contents_of d) (<[fd := (i, o + zlen bytes)]> (cursors d))
      end
  | EvWrite fd bytes =>
      match cursors d !! fd with
      | None => d' = d
      | Some (i, o) => exists c, contents_of d !! i = Some c /\
          d' = mk_disk (names d) (<[i := overwrite c o bytes]> (contents_of d))
                 (<[fd := (i, o + zlen bytes)]> (cursors d))
      end
  | _ => d' = d
  end.

Fixpoint plays (d : disk) (evs : list event) (d' : disk) : Prop :=
  match evs with
  | [] => d' = d
  | e :: evs => exists d1, disk_step d e d1 /\ plays d1 evs d'
  end.

Lemma plays_app d evs evs' d' : plays d (evs ++ evs') d' <-> exists d1, plays d evs d1 /\ plays d1 evs' d'.
Proof.
  revert d. induction evs as [|e evs IH]; intros d; simpl.
  - split; [intros H; by exists d|by intros (? & -> & ?)].
  - setoid_rewrite IH. naive_solver.
Qed.

(** Events that leave files and descriptors alone; reads and writes of a
    descriptor. *)
Definition inert (e : event) : Prop :=
  match e with EvOpen _ _ _ | EvClose _ | EvRead _ _ | EvWrite _ _ => False | _ => True end.
Definition is_read (fd : Z) (e : event) : Prop := exists bytes, e = EvRead fd bytes.
Definition is_write (fd : Z) (e : event) : Prop := exists bytes, e = EvWrite fd bytes.

Lemma plays_inert d evs d' : plays d evs d' -> Forall inert evs -> d' = d.
Proof.
  intros Hp Hall. revert d Hp. induction Hall as [|e evs He _ IH]; simpl; [done|].
  intros d (d1 & Hs & Hp). apply IH in Hp as ->. by destruct e.
Qed.

(** A descriptor that only grows its file. *)
Lemma plays_writes d evs d' fd i c :
  plays d evs d' -> Forall (is_write fd) evs ->
  cursors d !! fd = Some (i, zlen c) -> contents_of d !! i = Some c ->
  names d' = names d /\ contents_of d' !! i = Some (c ++ sent fd evs) /\
  cursors d' !! fd = Some (i, zlen (c ++ sent fd evs)).
Proof.
  intros Hp Hall. revert d c Hp. induction Hall as [|e evs [bytes ->] _ IH]; simpl; intros d c Hp Hfd Hi.
  { subst d'. by rewrite !app_nil_r. }
  destruct Hp as (d1 & Hs & Hp). rewrite Hfd in Hs. destruct Hs as (c' & Hc & ->). rewrite Hi in Hc. injection Hc as <-.
  assert (Ho : overwrite c (zlen c) bytes = c ++ bytes).
  { unfold overwrite. rewrite ztake_all, zdrop_all by (pose proof (zlen_nonneg bytes); lia).
    by rewrite Z.sub_diag, app_nil_r. }
  rewrite decide_True, Ho in * by done. rewrite app_assoc, zlen_app in *. apply (IH _ (c ++ bytes)) in Hp.
  - by rewrite zlen_app in Hp.
  - simpl. by rewrite lookup_insert_eq, zlen_app.
  - simpl. by rewrite lookup_insert_eq.
Qed.

(** A descriptor that only reads its file. *)
Lemma plays_reads d evs d' fd i o c :
  plays d evs d' -> Forall (is_read fd) evs ->
  cursors d !! fd = Some (i, o) -> contents_of d !! i = Some c -> 0 <= o ->
  names d' = names d /\ contents_of d' = contents_of d /\
  (exists rest, zdrop o c = received fd evs ++ rest /\
     (forall evs0, evs = evs0 ++ [EvRead fd []] -> rest = [])).
Proof.
  intros Hp Hall. revert d o Hp. induction Hall as [|e evs [bytes ->] Hall IH]; simpl; intros d o Hp Hfd Hi Ho.
  { subst d'. split_and!; [done..|]. exists (zdrop o c). split; [done|]. by intros [|??]. }
  destruct Hp as (d1 & Hs & Hp). rewrite Hfd in Hs. destruct Hs as (c' & Hc & Hb & Hend & ->).
  rewrite Hi in Hc. injection Hc as <-. rewrite decide_True by done. pose proof (zlen_nonneg bytes).
  destruct (IH _ (o + zlen bytes) Hp) as (Hn & Hcs & rest & Hrest & Hlast); [by simpl; rewrite lookup_insert_eq|done|lia|].
  split_and!; [done..|]. exists rest. split.
  - rewrite <- app_assoc, <- Hrest. rewrite <- (ztake_zdrop (zlen bytes) (zdrop o c)), <- Hb.
    f_equal. by apply zdrop_zdrop.
  - intros [|e0 evs0]; simpl.
    + intros [= -> ->]. specialize (Hend eq_refl). simpl in Hrest. rewrite zlen_nil, Z.add_0_r in Hrest. congruence.
    + intros [= E1 E2]. by apply (Hlast evs0).
Qed.

(** ** Kernels over a disk *)

Class Disk (KN : Kernel) := disk_of : kstate -> disk.

Definition sys_value {A} (r : sysret A) : option A := match r with SysOk a => Some a | SysErr _ => None end.

Class DiskLaws {KN : Kernel} (DK : Disk KN) : Prop := {
  disk_open k path flags file_mode r k' :
    sys_open k path flags file_mode = (r, k') ->
    disk_step (disk_of k) (EvOpen path flags (sys_value r)) (disk_of k');
  disk_close k fd : disk_step (disk_of k) (EvClose fd) (disk_of (sys_close k fd));
  disk_read k fd n r k' :
    sys_read k fd n = (r, k') -> 0 < n ->
    match r with
    | SysOk bytes => disk_step (disk_of k) (EvRead fd bytes) (disk_of k')
    | SysErr _ => disk_of k' = disk_of k
    end;
  disk_write k fd bytes r k' :
    sys_write k fd bytes = (r, k') ->
    match r with
    | SysOk n => disk_step (disk_of k) (EvWrite fd (ztake n bytes)) (disk_of k')
    | SysErr _ => disk_of k' = disk_of k
    end;
  disk_fstat k fd r k' : sys_fstat k fd = (r, k') -> disk_of k' = disk_of k;
  disk_fadvise k fd o n a r k' : sys_posix_fadvise k fd o n a = (r, k') -> disk_of k' = disk_of k;
}.

(** ** What code leaves on the trace and on the disk *)

Section trace_logic.
Context {PF : Platform} {DK : Disk platform_kernel} {DL : DiskLaws DK}.

(** When [m] ends, the events it added took the disk from the old state to the new
    one, and [Q] holds of its result, the world and these events. *)
Definition tp {A} (m : M A) (Q : A -> world -> list event -> Prop) (w : world) : Prop :=
  forall a w', m w = Done (a, w') ->
    exists evs, trace w' = trace w ++ evs /\ plays (disk_of (env w)) evs (disk_of (env w')) /\ Q a w' evs.

(** Every event [m] adds satisfies [P]. *)
Definition does {A} (P : event -> Prop) (m : M A) : Prop :=
  forall w, tp m (fun _ _ evs => Forall P evs) w.

Lemma tp_mono {A} (m : M A) (P Q : A -> world -> list event -> Prop) w :
  tp m P w -> (forall a w' evs, P a w' evs -> Q a w' evs) -> tp m Q w.
Proof. intros H HPQ a w' E. destruct (H a w' E) as (evs & ? & ? & ?). exists evs. auto. Qed.

Lemma tp_ret {A} (a : A) Q w : Q a w [] -> tp (mret a) Q w.
Proof. intros HQ b w' [= -> ->]. exists []. by rewrite app_nil_r. Qed.

Lemma tp_bind {A B} (m : M A) (k : A -> M B) Q w :
  tp m (fun a w1 evs1 => tp (k a) (fun b w2 evs2 => Q b w2 (evs1 ++ evs2)) w1) w -> tp (m ≫= k) Q w.
Proof.
  intros Hm b w2 E. unfold mbind, M_bind in E. destruct (m w) as [[a w1]| |] eqn:Em; try done.
  destruct (Hm a w1 Em) as (evs1 & Ht1 & Hp1 & Hk). destruct (Hk b w2 E) as (evs2 & Ht2 & Hp2 & HQ).
  exists (evs1 ++ evs2). split_and!; [by rewrite Ht2, Ht1, app_assoc| |done].
  rewrite plays_app. by exists (disk_of (env w1)).
Qed.

(** What [wp] and [tp] say of the same run. *)
Lemma wp_tp {A} (m : M A) P Q w :
  wp m P w -> tp m Q w ->
  wp m (fun a w' => P a w' /\ exists evs, trace w' = trace w ++ evs /\
          plays (disk_of (env w)) evs (disk_of (env w')) /\ Q a w' evs) w.
Proof. rewrite !wp_run. intros (a & w' & E & HP) HT. exists a, w'. eauto. Qed.

(** Code that runs on the heap and on [errno] alone. *)
Lemma tp_silent {A} (m : M A) Q w :
  (forall a w', m w = Done (a, w') -> env w' = env w /\ trace w' = trace w /\ Q a w' []) -> tp m Q w.
Proof.
  intros Hm a w' E. destruct (Hm a w' E) as (He & Ht & HQ). exists [].
  rewrite app_nil_r, He. by split_and!.
Qed.

Lemma tp_lift {A} (r : res A) Q w : (forall a, r = Done a -> Q a w []) -> tp (lift r) Q w.
Proof. intros HQ. apply tp_silent. unfold lift. intros a w'. destruct r; naive_solver. Qed.

Lemma tp_undefined {A} Q w : tp (@undefined _ A) Q w.
Proof. by intros ??. Qed.

Lemma tp_get_errno Q w : Q (errno w) w [] -> tp get_errno Q w.
Proof. intros HQ. apply tp_silent. by intros a w' [= <- <-]. Qed.

Lemma tp_load p Q w : (forall o, Q o w []) -> tp (load p) Q w.
Proof. intros HQ. apply tp_silent. unfold load. intros a w'. destruct (heap w !! p); naive_solver. Qed.

Lemma tp_load_stream p Q w : (forall s, heap w !! p = Some (OStream s) -> Q s w []) -> tp (load_stream p) Q w.
Proof.
  intros HQ a w' E. unfold load_stream, load, mbind, M_bind in E.
  destruct (heap w !! p) as [[]|] eqn:Hp; try done. injection E as <- <-.
  exists []. rewrite app_nil_r. split_and!; [done..|]. by apply HQ.
Qed.

Lemma tp_store p o Q w :
  Q tt (mk_world (env w) (mem w) (errno w) (<[p := o]> (heap w)) (trace w)) [] -> tp (store p o) Q w.
Proof. intros HQ. apply tp_silent. unfold store. intros a w'. destruct (heap w !! p); naive_solver. Qed.

(** System calls: what the kernel's law says of one call. *)
Lemma tp_syscall {A} (f : kstate -> sysret A * kstate) log Q w :
  (forall a k, f (env w) = (SysOk a, k) ->
     plays (disk_of (env w)) (log (Some a)) (disk_of k) /\
     Q (Some a) (after_call w k (errno w) (log (Some a))) (log (Some a))) ->
  (forall e k, f (env w) = (SysErr e, k) ->
     plays (disk_of (env w)) (log None) (disk_of k) /\ Q None (after_call w k e (log None)) (log None)) ->
  tp (syscall f log) Q w.
Proof.
  intros Hok Herr a w' E. unfold syscall in E. destruct (f (env w)) as [[x|e] k]; injection E as <- <-.
  - exists (log (Some x)). by destruct (Hok x k eq_refl).
  - exists (log None). by destruct (Herr e k eq_refl).
Qed.

Lemma plays_one d e d' : plays d [e] d' <-> disk_step d e d'.
Proof. simpl. naive_solver. Qed.

Lemma tp_open path flags fm Q w :
  (forall r w', let fd := sys_value r in heap w' = heap w ->
     Q (default (-1) fd) w' [EvOpen path flags fd]) ->
  tp (open_ path flags fm) Q w.
Proof.
  intros HQ. apply tp_bind, tp_syscall; intros x k E; apply disk_open in E;
    (split; [by apply plays_one|apply tp_ret]).
  - by apply (HQ (SysOk x)).
  - by apply (HQ (SysErr x)).
Qed.

Lemma tp_read fd n Q w : 0 < n ->
  (forall bs w', Q (zlen bs, bs) w' [EvRead fd bs]) -> (forall w', Q (-1, []) w' []) -> tp (read fd n) Q w.
Proof.
  intros Hn Hok Herr. apply tp_bind, tp_syscall; intros x k E; apply disk_read in E; try done;
    (split; [|apply tp_ret; by try apply Hok]); [by apply plays_one|done].
Qed.

Lemma tp_write fd bs Q w :
  (forall n w', Q n w' [EvWrite fd (ztake n bs)]) -> (forall w', Q (-1) w' []) -> tp (write fd bs) Q w.
Proof.
  intros Hok Herr. apply tp_bind, tp_syscall; intros x k E; apply disk_write in E;
    (split; [|apply tp_ret; by try apply Hok]); [by apply plays_one|done].
Qed.

Lemma does_fstat fd : does inert (fstat fd).
Proof. intros w. apply tp_syscall; intros x k E; apply disk_fstat in E; by repeat constructor. Qed.

Lemma does_posix_fadvise fd o n a : does inert (posix_fadvise fd o n a).
Proof.
  intros w x w' E. unfold posix_fadvise in E. destruct (sys_posix_fadvise _ _ _ _ _) as [r k] eqn:Ek.
  apply disk_fadvise in Ek. injection E as <- <-. exists [EvAdvise fd o n a].
  split_and!; [done|by apply plays_one|by repeat constructor].
Qed.

Lemma does_close fd : does (fun e => e = EvClose fd) (close fd).
Proof.
  intros w x w' E. injection E as <- <-. exists [EvClose fd]. split_and!; [done| |by constructor].
  apply plays_one, disk_close.
Qed.

(** The allocators do not touch the kernel. *)
Lemma tp_inert {A} (m : M A) :
  (forall w a w', m w = Done (a, w') ->
     env w' = env w /\ exists evs, trace w' = trace w ++ evs /\ Forall inert evs) -> does inert m.
Proof.
  intros Hm w a w' E. destruct (Hm w a w' E) as (He & evs & Ht & Hall). exists evs. split_and!; [done| |done].
  rewrite He. clear -Hall. induction Hall as [|e evs He _ IH]; [done|]. exists (disk_of (env w)).
  split; [by destruct e|done].
Qed.

Lemma does_bind {A B} P (m : M A) (k : A -> M B) : does P m -> (forall a, does P (k a)) -> does P (m ≫= k).
Proof.
  intros Hm Hk w. apply tp_bind. eapply tp_mono; [apply Hm|]. intros a w1 evs1 H1.
  eapply tp_mono; [apply Hk|]. intros. by apply Forall_app.
Qed.

Lemma does_ret {A} P (a : A) : does P (mret a).
Proof. intros w. by apply tp_ret. Qed.

Lemma does_mono {A} (P P' : event -> Prop) (m : M A) : does P m -> (forall e, P e -> P' e) -> does P' m.
Proof. intros Hm HP w. eapply tp_mono; [apply Hm|]. intros a w' evs H. exact (Forall_impl _ _ _ H HP). Qed.
End trace_logic.

Create HintDb trace.
#[export] Hint Resolve does_ret does_bind does_fstat does_posix_fadvise : trace.

(** Steps of [does]: allocations, then the structure of the code. *)
Ltac does_alloc :=
  apply tp_inert; intros ? ? ? E;
  unfold bc_allocators_pool_allocate, bc_allocators_pool_free, bc_allocators_arena_create,
    bc_allocators_arena_allocate, bc_allocators_arena_destroy, after_alloc in E;
  repeat case_match; simplify_eq; simpl; (split; [done|]);
  (eexists; split; [done|]); by repeat constructor.
Ltac does_step :=
  match goal with
  | |- forall _, _ => intros ?
  | |- does _ (mret _) => apply does_ret
  | |- does _ (_ ≫= _) => apply does_bind
  | |- does _ (match ?x with _ => _ end) => destruct x
  | |- does _ (if ?b then _ else _) => destruct b
  | |- does _ _ => by eauto with trace
  | |- does inert _ => does_alloc
  end.
Ltac does_run := repeat does_step.
