(* ===== verification/DiskKernel.v ===== *)
(** * A concrete kernel with a disk

    Regular files in memory: opening makes or finds a file, a transfer moves at
    most a few bytes, and a list of signals says which calls are interrupted.  It
    meets the laws of a kernel and of a [Disk], so writing a file and reading it
    back evaluates, and the theorem about it applies. *)

From S2P Require Import Prelude Platform Objects Machine Scripted.
From S2P Require Import DiskSpec.

Record disk_state := mk_disk_state {
  files : disk;
  signals : list bool;
}.

(** The next transfer, interrupted or not. *)
Definition transferring {A} (k : disk_state) (f : disk_state -> sysret A * disk_state) : sysret A * disk_state :=
  match signals k with
  | true :: rest => (SysErr EINTR, mk_disk_state (files k) rest)
  | _ :: rest => f (mk_disk_state (files k) rest)
  | [] => f k
  end.

Definition disk_sys_open (k : disk_state) (path : list Z) (flags : Z) : sysret Z * disk_state :=
  let d := files k in
  let fd := next_address (dom (cursors d)) in
  if truncates flags then
    let i := default (next_address (dom (contents_of d))) (names d !! path) in
    (SysOk fd, mk_disk_state (mk_disk (<[path := i]> (names d)) (<[i := []]> (contents_of d))
                 (<[fd := (i, 0)]> (cursors d))) (signals k))
  else
    match names d !! path with
    | Some i => match contents_of d !! i with
        | Some _ => (SysOk fd, mk_disk_state (mk_disk (names d) (contents_of d) (<[fd := (i, 0)]> (cursors d))) (signals k))
        | None => (SysErr ENOENT, k)
        end
    | None => (SysErr ENOENT, k)
    end.

(** The file under a descriptor, and the position in it. *)
Definition under (d : disk) (fd : Z) : option (Z * Z * list Z) :=
  match cursors d !! fd with
  | Some (i, o) => c ← contents_of d !! i; Some (i, o, c)
  | None => None
  end.

Definition disk_sys_read (k : disk_state) (fd n : Z) : sysret (list Z) * disk_state :=
  if decide (n < 0) then (SysErr EINVAL, k)
  else transferring k (fun k =>
    match under (files k) fd with
    | None => (SysErr EBADF, k)
    | Some (i, o, c) =>
        let bytes := ztake (Z.min 2 n) (zdrop o c) in
        (SysOk bytes, mk_disk_state (mk_disk (names (files k)) (contents_of (files k))
                        (<[fd := (i, o + zlen bytes)]> (cursors (files k)))) (signals k))
    end).

Definition disk_sys_write (k : disk_state) (fd : Z) (data : list Z) : sysret Z * disk_state :=
  transferring k (fun k =>
    match under (files k) fd with
    | None => (SysErr EBADF, k)
    | Some (i, o, c) =>
        let bytes := ztake 3 data in
        (SysOk (zlen bytes), mk_disk_state (mk_disk (names (files k)) (<[i := overwrite c o bytes]> (contents_of (files k)))
                        (<[fd := (i, o + zlen bytes)]> (cursors (files k)))) (signals k))
    end).

Definition disk_sys_fstat (k : disk_state) (fd : Z) : sysret stat_t :=
  match under (files k) fd with
  | None => SysErr EBADF
  | Some (_, _, c) => sane_stat (SysOk (regular_file (zlen c)))
  end.

#[local] Instance disk_kernel : Kernel := {|
  kstate := disk_state;
  sys_open k path flags _ := disk_sys_open k path flags;
  sys_close k fd := mk_disk_state (mk_disk (names (files k)) (contents_of (files k)) (delete fd (cursors (files k)))) (signals k);
  sys_read := disk_sys_read;
  sys_write := disk_sys_write;
  sys_fstat k fd := (disk_sys_fstat k fd, k);
  sys_stat k _ := (SysErr ENOSYS, k);
  sys_lstat k _ := (SysErr ENOSYS, k);
  sys_fstatat k _ _ _ := (SysErr ENOSYS, k);
  sys_posix_fadvise k _ _ _ _ := (0, k);
  sys_mmap k _ _ _ _ _ := (SysErr ENOSYS, k);
  sys_munmap k _ _ := k;
  sys_madvise k _ _ _ := (SysErr ENOSYS, k);
  sys_getrandom k _ := (SysErr ENOSYS, k);
  sys_getdents64 k _ _ := (SysErr ENOSYS, k);
  sys_getcwd k _ := (SysErr ENOSYS, k);
  patience k := length (signals k);
|}.

#[export] Instance kernel_disk : Disk disk_kernel := files.

Definition disk_platform : Platform := {|
  platform_kernel := disk_kernel;
  platform_allocators := scripted_allocators;
  platform_core := reference_core;
|}.

(** ** Its laws *)

(** A transfer is either interrupted, at the cost of a signal, or made. *)
Lemma transferring_cases {A} k (f : disk_state -> sysret A * disk_state) r k' :
  transferring k f = (r, k') ->
  (r = SysErr EINTR /\ files k' = files k /\ (length (signals k') < length (signals k))%nat) \/
  exists k0, files k0 = files k /\ (length (signals k0) <= length (signals k))%nat /\ f k0 = (r, k').
Proof.
  unfold transferring. destruct (signals k) as [|[] rest] eqn:E; simpl.
  - intros Hf. right. exists k. by rewrite E.
  - intros [= <- <-]. left. simpl. split_and!; [done..|lia].
  - intros Hf. right. eexists. split; [|split; [|exact Hf]]; simpl; [done|lia].
Qed.

Lemma next_address_nonneg X : 0 <= next_address X.
Proof. unfold next_address. pose proof (foldr_max_nonneg (elements X)). lia. Qed.

Lemma disk_sys_read_cases k fd n r k' :
  disk_sys_read k fd n = (r, k') ->
  (length (signals k') <= length (signals k))%nat /\
  ((r = SysErr EINTR /\ files k' = files k /\ (length (signals k') < length (signals k))%nat) \/
   (exists e, r = SysErr e /\ e <> EINTR /\ files k' = files k) \/
   exists i o c, 0 <= n /\ under (files k) fd = Some (i, o, c) /\ r = SysOk (ztake (Z.min 2 n) (zdrop o c)) /\
     files k' = mk_disk (names (files k)) (contents_of (files k))
                  (<[fd := (i, o + zlen (ztake (Z.min 2 n) (zdrop o c)))]> (cursors (files k)))).
Proof.
  unfold disk_sys_read. case_decide; [intros [= <- <-]; split; [done|right; left; by eexists]|].
  intros [(-> & Hf & Hl)|(k0 & Hf & Hl & E)]%transferring_cases; [split; [lia|by left]|].
  destruct (under (files k0) fd) as [[[i o] c]|] eqn:Eu; injection E as <- <-; simpl; (split; [done|right]).
  - right. exists i, o, c. rewrite <- Hf. split_and!; [lia|done..].
  - left. by eexists.
Qed.

Lemma disk_sys_write_cases k fd data r k' :
  disk_sys_write k fd data = (r, k') ->
  (length (signals k') <= length (signals k))%nat /\
  ((r = SysErr EINTR /\ files k' = files k /\ (length (signals k') < length (signals k))%nat) \/
   (exists e, r = SysErr e /\ e <> EINTR /\ files k' = files k) \/
   exists i o c, under (files k) fd = Some (i, o, c) /\ r = SysOk (zlen (ztake 3 data)) /\
     files k' = mk_disk (names (files k)) (<[i := overwrite c o (ztake 3 data)]> (contents_of (files k)))
                  (<[fd := (i, o + zlen (ztake 3 data))]> (cursors (files k)))).
Proof.
  unfold disk_sys_write.
  intros [(-> & Hf & Hl)|(k0 & Hf & Hl & E)]%transferring_cases; [split; [lia|by left]|].
  destruct (under (files k0) fd) as [[[i o] c]|] eqn:Eu; injection E as <- <-; simpl; (split; [done|right]).
  - right. exists i, o, c. by rewrite <- Hf.
  - left. by eexists.
Qed.

Lemma disk_sys_open_spec k path flags r k' :
  disk_sys_open k path flags = (r, k') ->
  signals k' = signals k /\ (forall fd, r = SysOk fd -> 0 <= fd) /\
  disk_step (files k) (EvOpen path flags (sys_value r)) (files k').
Proof.
  destruct (next_address_fresh (dom (cursors (files k)))) as [_ Hfd%not_elem_of_dom].
  destruct (next_address_fresh (dom (contents_of (files k)))) as [_ Hi%not_elem_of_dom].
  pose proof (next_address_nonneg (dom (cursors (files k)))).
  unfold disk_sys_open. set (fd := next_address (dom (cursors _))) in *.
  destruct (truncates flags) eqn:Ht; [|repeat case_match]; intros [= <- <-]; simpl; (split; [done|split; [by intros ? [= <-]|]]);
    try done; (split; [done|]); rewrite Ht; eexists; split_and!; try done.
  destruct (names (files k) !! path) eqn:En; simpl; [by left|by right].
Qed.

Lemma disk_sys_fstat_size k fd s : disk_sys_fstat k fd = SysOk s -> 0 <= st_size s < 9223372036854775808.
Proof. unfold disk_sys_fstat, sane_stat. intros H. repeat case_match; simplify_eq; done. Qed.

#[local] Instance disk_kernel_laws : KernelLaws disk_kernel.
Proof.
  split; simpl; intros; simplify_eq; simpl; try lia; try done;
    repeat match goal with
    | H : disk_sys_read _ _ _ = _ |- _ =>
        apply disk_sys_read_cases in H as [? [(? & ? & ?)|[(? & ? & ? & ?)|(? & ? & ? & ? & ? & ? & ?)]]]
    | H : disk_sys_write _ _ _ = _ |- _ =>
        apply disk_sys_write_cases in H as [? [(? & ? & ?)|[(? & ? & ? & ?)|(? & ? & ? & ? & ? & ?)]]]
    | H : disk_sys_open _ _ _ = _ |- _ => apply disk_sys_open_spec in H as (? & ? & ?)
    end; simplify_eq; try done; try lia; eauto.
  - apply Nat.eq_le_incl. by f_equal.
  - rewrite zlen_ztake. lia.
  - rewrite zlen_ztake. pose proof (zlen_nonneg bs). lia.
  - destruct bs; [done|]. rewrite zlen_ztake, zlen_cons in *. pose proof (zlen_nonneg bs). lia.
  - by eapply disk_sys_fstat_size.
Qed.

#[export] Instance kernel_disk_laws : DiskLaws kernel_disk.
Proof.
  split; simpl; unfold disk_of, kernel_disk.
  - intros k path flags fm r k' H. by apply disk_sys_open_spec in H as (_ & _ & H).
  - done.
  - intros k fd n r k' H Hn.
    apply disk_sys_read_cases in H as [_ [(-> & -> & _)|[(e & -> & _ & ->)|(i & o & c & _ & Hu & -> & ->)]]]; [done..|].
    unfold under in Hu. destruct (cursors (files k) !! fd) as [[i' o']|]; [|done]. simpl in Hu.
    destruct (contents_of (files k) !! i') as [c'|] eqn:Hc; [|done]. simpl in Hu. simplify_eq.
    exists c. split_and!; [done| | |done].
    + by rewrite ztake_zlen_ztake.
    + intros E%(f_equal zlen). apply zlen_nil_inv. change (zlen (@nil Z)) with 0 in E.
      pose proof (zlen_nonneg (zdrop o c)). pose proof (zlen_ztake (Z.min 2 n) (zdrop o c)). lia.
  - intros k fd bs r k' H.
    apply disk_sys_write_cases in H as [_ [(-> & -> & _)|[(e & -> & _ & ->)|(i & o & c & Hu & -> & ->)]]]; [done..|].
    unfold under in Hu. destruct (cursors (files k) !! fd) as [[i' o']|]; [|done]. simpl in Hu.
    destruct (contents_of (files k) !! i') as [c'|] eqn:Hc; [|done]. simpl in Hu. simplify_eq.
    exists c. split; [done|]. by rewrite ztake_zlen_ztake.
  - intros k fd r k'. by intros [= _ <-].
  - by intros k fd o n a r k' [= _ <-].
Qed.

#[export] Instance disk_platform_laws : PlatformLaws disk_platform.
Proof. split; apply _. Qed.

(** ** Worlds *)

(** A disk with one file, and signals that interrupt some of the calls. *)
Definition small_disk : disk := mk_disk {[ [47; 97] := 1 ]} {[ 1 := [9; 9; 9] ]} ∅.

Definition disk_world (l : list bool) : @world disk_platform :=
  @mk_world disk_platform (mk_disk_state small_disk l) quiet_pool 0 ∅ [].
