(* ===== verification/StreamTrace.v ===== *)
(** * What streams do to files

    The events of each stream operation: a read stream only reads its descriptor
    and, once it is at its end, has seen the end of the file; a write stream only
    writes its descriptor; opening a stream opens the path once; closing writes
    what is pending and closes the descriptor at most. *)

From S2P Require Import Prelude Platform Objects Machine StreamIo Stream StreamWrite StreamRead DiskSpec.

Section stream_trace.
Context {PF : Platform} {DK : Disk platform_kernel} {DL : DiskLaws DK}.

(** The events of a reader; the last one found nothing when the reader says that
    it met the end. *)
Definition reads (fd : Z) (met_end : bool) (evs : list event) : Prop :=
  Forall (is_read fd) evs /\ (met_end = true -> exists evs0, evs = evs0 ++ [EvRead fd []]).

Lemma reads_app fd evs b evs' : Forall (is_read fd) evs -> reads fd b evs' -> reads fd b (evs ++ evs').
Proof.
  intros Hall [Hall' Hend]. split; [by apply Forall_app|].
  intros E. destruct (Hend E) as [evs0 ->]. exists (evs ++ evs0). by rewrite app_assoc.
Qed.

(** ** Reading *)

Lemma read_full_loop_reads fuel fd block n total w :
  is_u64 n -> 0 <= total ->
  tp (read_full_loop fuel fd block n total) (fun r _ evs => reads fd (rr_eof r) evs) w.
Proof.
  intros Hn. revert block total w. induction fuel as [|fuel IH]; intros block total w Ht; simpl.
  { case_decide; [by intros ??|]. by apply tp_ret. }
  case_decide as Hlt; [|by apply tp_ret].
  apply tp_bind, tp_read.
  { rewrite wrap64_small; unfold is_u64 in *; lia. }
  - intros bs w1. repeat case_decide.
    + apply tp_bind, tp_lift. intros block' _. eapply tp_mono; [apply IH; apply wrap64_range|].
      intros r w' evs Hr. simpl. apply (reads_app _ [_]); [|done]. constructor; [by eexists|done].
    + apply tp_ret. rewrite (zlen_nil_inv bs) by done. split; [|by exists []].
      constructor; [by eexists|done].
    + by pose proof (zlen_nonneg bs); lia.
  - intros w1. repeat case_decide; try done. apply tp_bind, tp_get_errno.
    repeat case_decide; [|by apply tp_ret..]. by apply IH.
Qed.

(** One chunk: the stream's set-up is kept, and a stream that was not at its end
    is at its end only when the file was. *)
Definition reads_on (s s' : bc_io_stream_t) (evs : list event) : Prop :=
  reads (file_descriptor s) (negb (end_of_stream s) && end_of_stream s') evs /\ setup s' = setup s /\
  (end_of_stream s = true -> evs = [] /\ end_of_stream s' = true).

Lemma reads_on_refl s : reads_on s s [].
Proof. split_and!; [split; [done|]|done|done]. by destruct (end_of_stream s). Qed.

Lemma reads_on_trans s1 s2 s3 evs evs' : reads_on s1 s2 evs -> reads_on s2 s3 evs' -> reads_on s1 s3 (evs ++ evs').
Proof.
  intros ([Ha1 Hl1] & Hs1 & He1) ([Ha2 Hl2] & Hs2 & He2). unfold setup in Hs1. injection Hs1 as ? ? ? ? ? Efd ? ? ? ? ?.
  rewrite Efd in *. split_and!; [split; [by apply Forall_app|]| |].
  - destruct (end_of_stream s1); [done|]. destruct (end_of_stream s2) eqn:E2; simpl in *.
    + destruct He2 as [-> ->]; [done|]. by rewrite app_nil_r.
    + intros [evs0 ->]%Hl2. exists (evs ++ evs0). by rewrite app_assoc.
  - unfold setup in *. congruence.
  - intros E. destruct (He1 E) as [-> E2]. destruct (He2 E2) as [-> ->]. done.
Qed.

Lemma read_chunk_reads fuel s w :
  is_u64 (buffer_size s) -> source_type s <> BC_IO_STREAM_SOURCE_MEMORY ->
  tp (bc_io_stream_read_chunk fuel s) (fun '(_, s') _ evs => reads_on s s' evs) w.
Proof.
  intros Hsz Hsrc. unfold bc_io_stream_read_chunk.
  destruct (end_of_stream s) eqn:He; [apply tp_ret, reads_on_refl|].
  case_decide; [apply tp_ret, reads_on_refl|]. rewrite decide_False by done.
  unfold bc_io_stream_read_chunk_file. apply tp_bind.
  eapply tp_mono; [by apply read_full_loop_reads|]. intros r w1 evs Hr. simpl.
  assert (Hr0 : reads (file_descriptor s) false evs) by (split; [apply Hr|done]).
  destruct (rr_ok r); simpl; [case_decide as H0|]; [|destruct (rr_eof r) eqn:Hf|]; apply tp_ret;
    unfold reads_on; rewrite app_nil_r; simpl; rewrite ?He; split_and!; try done.
  - by destruct H0 as [_ <-].
  - simpl in Hr. by rewrite Hf in Hr.
Qed.

Lemma drain_reads calls fuel s w :
  is_u64 (buffer_size s) -> source_type s <> BC_IO_STREAM_SOURCE_MEMORY ->
  tp (drain calls fuel s) (fun '(_, s', _) _ evs => reads_on s s' evs) w.
Proof.
  revert s w. induction calls as [|calls IH]; intros s w Hsz Hsrc; simpl.
  { apply tp_ret, reads_on_refl. }
  apply tp_bind. eapply tp_mono; [by apply read_chunk_reads|]. intros [c s1] w1 evs1 Hr1.
  destruct c as [c|]; [|apply tp_ret; by rewrite app_nil_r].
  apply tp_bind. pose proof Hr1 as (_ & Hset & _). unfold setup in Hset. injection Hset as _ _ Esz Esrc _ _ _ _ _ _ _.
  eapply tp_mono; [apply IH; congruence|]. intros [[chunks s'] stopped] w' evs' Hr.
  apply tp_ret. rewrite app_nil_r. by eapply reads_on_trans.
Qed.

(** ** Writing *)

Lemma does_write fd data : does (is_write fd) (write fd data).
Proof. intros w. apply tp_write; [|done]. intros n w'. constructor; [by eexists|done]. Qed.

Lemma does_write_full fuel fd source n total : does (is_write fd) (write_full_loop fuel fd source n total).
Proof.
  revert total. induction fuel as [|fuel IH]; intros total; simpl; (case_decide; [|apply does_ret]).
  { by intros ???. }
  apply does_bind; [intros w; by apply tp_lift|intros data]. apply does_bind; [apply does_write|intros r].
  case_decide; [apply IH|]. apply does_bind; [intros w; by apply tp_get_errno|intros e].
  repeat case_decide; [apply IH|apply does_ret..].
Qed.

(** A write operation writes the descriptor of its stream, and keeps it. *)
Definition writes_on (s s' : bc_io_stream_t) (evs : list event) : Prop :=
  Forall (is_write (file_descriptor s)) evs /\ file_descriptor s' = file_descriptor s.

Lemma writes_on_refl s : writes_on s s [].
Proof. done. Qed.

Lemma writes_on_trans s1 s2 s3 evs evs' : writes_on s1 s2 evs -> writes_on s2 s3 evs' -> writes_on s1 s3 (evs ++ evs').
Proof. intros [H1 E1] [H2 E2]. rewrite E1 in *. split; [by apply Forall_app|done]. Qed.

Lemma flush_events fuel s w :
  tp (bc_io_stream_flush fuel s)
    (fun '(_, s') _ evs => writes_on s s' evs /\ (buffer_used s = 0 -> evs = [])) w.
Proof.
  unfold bc_io_stream_flush. case_decide as H0; [apply tp_ret; split; [apply writes_on_refl|done]|].
  apply tp_bind. eapply tp_mono; [apply does_write_full|]. intros [ok n] w1 evs Hevs.
  case_decide; apply tp_ret; by rewrite app_nil_r.
Qed.

Lemma flush_writes fuel s w : tp (bc_io_stream_flush fuel s) (fun '(_, s') _ evs => writes_on s s' evs) w.
Proof. eapply tp_mono; [apply flush_events|]. intros [ok s'] w' evs Hw. apply Hw. Qed.

Lemma does_copy P s o data : does P (copy_to_buffer s o data).
Proof. apply does_bind; intros; intros w; by apply tp_lift. Qed.

Lemma write_chunk_writes fuel s data w :
  tp (bc_io_stream_write_chunk fuel s data) (fun '(_, _, s') _ evs => writes_on s s' evs) w.
Proof.
  unfold bc_io_stream_write_chunk. do 3 (case_decide; [apply tp_ret, writes_on_refl|]). case_decide.
  { apply tp_bind. eapply tp_mono; [apply (does_copy (is_write (file_descriptor s)))|]. intros bytes w1 evs Hevs.
    apply tp_ret. rewrite app_nil_r. by split. }
  apply tp_bind. eapply (tp_mono _ (fun '(_, s1) _ evs => writes_on s s1 evs)).
  { case_decide; [apply flush_writes|apply tp_ret, writes_on_refl]. }
  intros [flushed s1] w1 evs1 Hev1. destruct flushed; simpl; [|apply tp_ret; by rewrite app_nil_r].
  case_decide; apply tp_bind.
  - eapply tp_mono; [apply does_write_full|]. intros [ok n] w2 evs2 Hev2. apply tp_ret. rewrite app_nil_r.
    eapply writes_on_trans; [done|]. split; [done|]. by case_decide.
  - eapply tp_mono; [apply (does_copy (is_write (file_descriptor s1)))|]. intros bytes w2 evs2 Hev2. apply tp_ret. rewrite app_nil_r.
    by eapply writes_on_trans.
Qed.

Lemma run_write_op_writes fuel s op w : tp (run_write_op fuel s op) (fun '(_, _, s') _ evs => writes_on s s' evs) w.
Proof.
  destruct op; apply tp_bind.
  - eapply tp_mono; [apply write_chunk_writes|]. intros [[ok n] s1] w1 evs Hev1. apply tp_ret. by rewrite app_nil_r.
  - eapply tp_mono; [apply flush_writes|]. intros [ok s1] w1 evs Hev1. apply tp_ret. by rewrite app_nil_r.
Qed.

Lemma run_write_ops_writes fuel s ops w : tp (run_write_ops fuel s ops) (fun '(_, s') _ evs => writes_on s s' evs) w.
Proof.
  revert s w. induction ops as [|op ops IH]; intros s w; simpl; [apply tp_ret, writes_on_refl|].
  apply tp_bind. eapply tp_mono; [apply run_write_op_writes|]. intros [[n ok] s1] w1 evs1 Hev1.
  apply tp_bind. eapply tp_mono; [apply IH|]. intros [rs s'] w2 evs2 Hev2.
  apply tp_ret. rewrite app_nil_r. by eapply writes_on_trans.
Qed.

(** ** Opening and closing *)

Lemma does_allocate_with_buffer size source : does inert (bc_io_stream_allocate_with_buffer size source).
Proof.
  unfold bc_io_stream_allocate_with_buffer. apply does_bind; [destruct (bc_io_stream_io_align_buffer_size _).2|].
  { apply does_ret. }
  { by intros ???. }
  does_run.
Qed.

Lemma does_get_file_size fd : does inert (bc_io_stream_io_get_file_size fd).
Proof. unfold bc_io_stream_io_get_file_size. does_run. Qed.

Lemma does_query_total (b : bool) fd :
  does inert (if b then
      total ← bc_io_stream_io_get_file_size fd; bc_io_stream_io_advise_sequential fd;; mret total
    else mret None).
Proof.
  destruct b; [|apply does_ret]. apply does_bind; [apply does_get_file_size|intros total].
  unfold bc_io_stream_io_advise_sequential. does_run.
Qed.

(** The flags a stream opens its path with. *)
Definition stream_flags (m : bc_io_stream_mode_t) : Z :=
  match m with
  | BC_IO_STREAM_MODE_READ => O_RDONLY + O_CLOEXEC + O_NOFOLLOW
  | BC_IO_STREAM_MODE_WRITE => O_WRONLY + O_CREAT + O_TRUNC + O_CLOEXEC + O_NOFOLLOW
  end.

Lemma open_file_opens path m size w :
  tp (bc_io_stream_open_file path m size)
    (fun r w' evs =>
       match r with
       | None => True
       | Some p => exists s rest, heap w' !! p = Some (OStream s) /\
           evs = EvOpen path (stream_flags m) (Some (file_descriptor s)) :: rest /\ Forall inert rest
       end) w.
Proof.
  unfold bc_io_stream_open_file. apply tp_bind.
  eapply (tp_mono _ (fun r _ evs => match r with
    | Some fd => evs = [EvOpen path (stream_flags m) (Some fd)] | None => True end)).
  { unfold bc_io_stream_io_open_file. apply tp_bind, tp_open. intros r w1 fd _.
    case_decide as Hlt; apply tp_ret; [done|]. destruct r as [x|e]; [|by simpl in Hlt]. by destruct m. }
  intros [fd|] w1 evs1 Hev1; [|by apply tp_ret]. subst evs1. apply tp_bind.
  eapply (tp_mono _ (fun _ _ evs => Forall inert evs)).
  { case_decide; [exact (does_query_total true fd w1)|exact (does_query_total false fd w1)]. }
  intros total w2 evs2 Hev2. apply tp_bind. eapply tp_mono; [apply does_allocate_with_buffer|].
  intros [[[[p a] b] n]|] w3 evs3 Hev3.
  - apply tp_bind, tp_store, tp_ret. eexists _, _. simpl. split_and!; [by rewrite lookup_insert_eq|done|].
    rewrite app_nil_r. by apply Forall_app.
  - apply tp_bind. eapply tp_mono; [apply does_close|]. intros ? w4 evs4 Hev4. by apply tp_ret.
Qed.

(** Closing: what is pending, then the descriptor if the stream owns it. *)
Lemma close_closes fuel p w s :
  heap w !! p = Some (OStream s) ->
  tp (bc_io_stream_close fuel p)
    (fun _ _ evs => exists evs1 evs2, evs = evs1 ++ evs2 /\ Forall (is_write (file_descriptor s)) evs1 /\
       (buffer_used s = 0 -> evs1 = []) /\
       Forall (fun e => inert e \/ e = EvClose (file_descriptor s)) evs2) w.
Proof.
  intros Hp. apply tp_bind, tp_load_stream. intros s0 Hp0. simplify_eq.
  apply tp_bind. eapply tp_mono; [apply flush_events|]. intros [ok s1] w1 evs1 Hw. destruct Hw as [[Hev1 Efd] Hidle].
  apply tp_bind, tp_store. set (P := fun e => inert e \/ e = EvClose (file_descriptor s)).
  assert (Hin : forall e, inert e -> P e) by by left.
  eapply tp_mono; [apply (does_bind P)|].
  - case_decide; [apply (does_mono inert); [does_alloc|done]|apply does_ret].
  - intros _. apply does_bind.
    + destruct (owns_file_descriptor s1); [|apply does_ret]. rewrite Efd.
      apply (does_mono _ _ _ (does_close _)). by right.
    + intros _. apply (does_mono inert); [does_alloc|done].
  - intros ? w2 evs2 Hev2. by exists evs1, evs2.
Qed.
End stream_trace.
