(* ===== verification/RoundTrip.v ===== *)
(** * Writing a file and reading it back

    Two clients of the stream interface, one that writes a file and one that reads
    it, on a kernel that keeps its files ([DiskLaws]).  What the second is given is
    what the first had accepted, whatever the kernel makes of the transfers. *)

From S2P Require Import Prelude Platform Objects Machine.
From S2P Require Import StreamIo Stream StreamWrite StreamRead StreamLife DiskSpec DiskKernel StreamTrace.

(** ** Files on a disk *)

Lemma plays_shut d evs d' fd :
  plays d evs d' -> Forall (fun e => inert e \/ e = EvClose fd) evs ->
  names d' = names d /\ contents_of d' = contents_of d /\ sent fd evs = [].
Proof.
  intros Hp Hall. revert d Hp. induction Hall as [|e evs He _ IH]; simpl; intros d Hp; [by subst|].
  destruct Hp as (d1 & Hs & Hp). destruct (IH _ Hp) as (Hn & Hc & Hsent). rewrite Hn, Hc.
  destruct He as [He| ->]; [destruct e; try done; simpl in Hs; by subst d1|]. simpl in Hs. by subst d1.
Qed.

Definition holds (d : disk) (path c : list Z) : Prop :=
  exists i, names d !! path = Some i /\ contents_of d !! i = Some c.

Section round_trip.
Context {PF : Platform}.

(** ** The two clients *)

Definition write_all (fuel : nat) (s : bc_io_stream_t) (ops : list write_op)
    : M (list (Z * bool) * bool * bc_io_stream_t) :=
  '(rs, s) ← run_write_ops fuel s ops;
  '(flushed, s) ← bc_io_stream_flush fuel s;
  mret (rs, flushed, s).

Definition write_file (fuel : nat) (path : list Z) (size : Z) (ops : list write_op)
    : M (option (list (Z * bool) * bool)) :=
  stream ← bc_io_stream_open_file path BC_IO_STREAM_MODE_WRITE size;
  match stream with
  | None => mret None
  | Some p =>
      s ← load_stream p;
      '(rs, flushed, s) ← write_all fuel s ops;
      store p (OStream s);;
      bc_io_stream_close fuel p;;
      mret (Some (rs, flushed))
  end.

Definition read_file (calls fuel : nat) (path : list Z) (size : Z) : M (option (list Z * bool)) :=
  stream ← bc_io_stream_open_file path BC_IO_STREAM_MODE_READ size;
  match stream with
  | None => mret None
  | Some p =>
      s ← load_stream p;
      '(chunks, s, _) ← drain calls fuel s;
      store p (OStream s);;
      bc_io_stream_close fuel p;;
      mret (Some (delivered chunks, bc_io_stream_is_end_of_stream s))
  end.

Context {PL : PlatformLaws PF} {DK : Disk platform_kernel} {DL : DiskLaws DK}.

(** Putting the stream back and closing it. *)
Lemma shut_tp {A} fuel p s (a : A) w :
  tp (store p (OStream s);; bc_io_stream_close fuel p;; mret a)
    (fun r _ evs => r = a /\ exists evs1 evs2, evs = evs1 ++ evs2 /\ Forall (is_write (file_descriptor s)) evs1 /\
       (buffer_used s = 0 -> evs1 = []) /\
       Forall (fun e => inert e \/ e = EvClose (file_descriptor s)) evs2) w.
Proof.
  apply tp_bind, tp_store. apply tp_bind. eapply tp_mono; [apply (close_closes _ _ _ s)|].
  - simpl. by rewrite lookup_insert_eq.
  - intros ? w1 evs Hevs. apply tp_ret. simpl. by rewrite app_nil_r.
Qed.

(** Opening: the path's file, empty for a writer, and a descriptor at its start. *)
Definition at_start (d : disk) (path : list Z) (fd : Z) (c : list Z) : Prop :=
  exists i, names d !! path = Some i /\ contents_of d !! i = Some c /\ cursors d !! fd = Some (i, 0).

Lemma plays_open d path m fd rest d' :
  plays d (EvOpen path (stream_flags m) (Some fd) :: rest) d' -> Forall inert rest ->
  match m with
  | BC_IO_STREAM_MODE_WRITE => at_start d' path fd []
  | BC_IO_STREAM_MODE_READ => forall c, holds d path c -> at_start d' path fd c
  end.
Proof.
  intros (d1 & Hs & Hp) Hin. apply plays_inert in Hp as ->; [|done]. simpl in Hs.
  destruct Hs as (Hfd & i & Hs). destruct m; simpl in Hs; [destruct Hs as (Hn & [c Hc] & ->)|destruct Hs as [_ ->]].
  - intros c' (i' & Hn' & Hc'). exists i. simpl. rewrite lookup_insert_eq. by simplify_eq.
  - exists i. simpl. by rewrite !lookup_insert_eq.
Qed.

Lemma plays_written d path fd evs evs' d' :
  at_start d path fd [] -> plays d (evs ++ evs') d' -> Forall (is_write fd) evs ->
  Forall (fun e => inert e \/ e = EvClose fd) evs' -> holds d' path (sent fd (evs ++ evs')).
Proof.
  intros (i & Hn & Hc & Hfd) (d1 & Hw & Hs)%plays_app Hall Hall'.
  apply (plays_writes _ _ _ fd i []) in Hw as (Hn1 & Hc1 & _); [|done..].
  apply (plays_shut _ _ _ fd) in Hs as (Hn2 & Hc2 & Hsent); [|done].
  exists i. by rewrite sent_app, Hsent, app_nil_r, Hn2, Hc2, Hn1.
Qed.

Lemma sent_since fd w w' evs out :
  trace w' = trace w ++ evs -> sent fd (trace w') = sent fd (trace w) ++ out -> sent fd evs = out.
Proof. intros ->. rewrite sent_app. apply app_inv_head. Qed.

Lemma received_since fd w w' evs out :
  trace w' = trace w ++ evs -> received fd (trace w') = received fd (trace w) ++ out -> received fd evs = out.
Proof. intros ->. rewrite received_app. apply app_inv_head. Qed.

(** Opening a file as a stream, with what its life needs and where it stands. *)
Lemma open_file_at_start path m size w :
  wf_world w -> alignable size ->
  wp (bc_io_stream_open_file path m size)
    (fun r w' =>
       match r with
       | None => evolved (heap w) nothing w w'
       | Some p => exists s,
           heap w !! p = None /\ fresh_stream s /\ mode s = m /\ source_type s = BC_IO_STREAM_SOURCE_FILE /\
           buffer_size s = aligned_size size BC_IO_STREAM_SOURCE_FILE /\
           evolved (<[p := OStream s]> (heap w)) (tokens (stream_resources p s)) w w' /\
           match m with
           | BC_IO_STREAM_MODE_WRITE => at_start (disk_of (env w')) path (file_descriptor s) []
           | BC_IO_STREAM_MODE_READ => forall c, holds (disk_of (env w)) path c ->
               at_start (disk_of (env w')) path (file_descriptor s) c
           end
       end) w.
Proof.
  intros Hwf Hsize. eapply wp_mono; [apply wp_tp; [by apply open_file_life|apply open_file_opens]|].
  intros [p|] w1 [Hlife (evs & Ht & Hplays & Hopen)]; [|done].
  destruct Hlife as (s & Hp & _ & Hfresh & Hmode & Hsrc & _ & _ & Esz & _ & He).
  destruct Hopen as (s0 & rest & Hs0 & -> & Hin). rewrite (evolved_heap _ _ _ _ He) in Hs0. simplify_map_eq.
  exists s0. split_and!; try done. exact (plays_open _ _ _ _ _ _ Hplays Hin).
Qed.

(** What the calls of the writer do between opening and closing. *)
Lemma write_all_disk fuel s ops w :
  fresh_stream s -> mode s = BC_IO_STREAM_MODE_WRITE ->
  Forall (fun op => is_u64 (zlen (op_data op)) /\
            enough fuel (buffer_size s + zlen (op_data op)) w) (Flush :: ops) ->
  wp (write_all fuel s ops)
    (fun '(rs, flushed, s') w' => wf_stream s' /\ setup s' = setup s /\ length rs = length ops /\ quiet w w' /\
       (flushed = true -> pending s' = []) /\
       exists evs, plays (disk_of (env w)) evs (disk_of (env w')) /\ Forall (is_write (file_descriptor s)) evs /\
         trace w' = trace w ++ evs /\ accepted ops rs = sent (file_descriptor s) evs ++ pending s') w.
Proof.
  intros Hs Hmode Hall. inversion Hall as [|? ? [_ Hfuel] Hops]; subst.
  pose proof Hs as [Hwf0 Hempty _ _ _]. apply pending_nil in Hempty; [|done].
  apply wp_bind. eapply wp_mono; [apply wp_tp; [by apply run_write_ops_spec|apply run_write_ops_writes]|].
  intros [rs s1] w1 [(Hwf1 & Hset1 & Hlen & (out1 & Htr1 & Hpend1) & _) (evs1 & Ht1 & Hp1 & Hev1 & Efd)].
  assert (Esz : buffer_size s1 = buffer_size s) by (unfold setup in Hset1; congruence).
  apply wp_bind. eapply wp_mono; [apply wp_tp; [apply flush_accepts; [done|]|apply flush_writes]|].
  { pose proof (wf_used _ Hwf1). pose proof (transfer_patience _ _ _ _ _ Htr1).
    unfold enough in *. simpl in Hfuel. rewrite zlen_nil in Hfuel. lia. }
  intros [flushed s2] w2 [[[Hwf2 Hset2 _ (out2 & Htr2 & Hpend2) _ _] Hfl] (evs2 & Ht2 & Hp2 & Hev2 & _)].
  apply wp_ret. rewrite Efd in *. pose proof (sent_since _ _ _ _ _ Ht1 (transfer_out _ _ _ _ _ Htr1)) as E1.
  pose proof (sent_since _ _ _ _ _ Ht2 (transfer_out _ _ _ _ _ Htr2)) as E2.
  split_and!; [done|congruence|done|etrans; [apply Htr1|apply Htr2]|apply Hfl|].
  exists (evs1 ++ evs2). split_and!; [apply plays_app; by exists (disk_of (env w1))|by apply Forall_app|
    by rewrite Ht2, Ht1, app_assoc|].
  rewrite sent_app, E1, E2. rewrite Hempty in Hpend1. simpl in Hpend1.
  rewrite ztake_0, app_nil_r in Hpend2 by done. by rewrite Hpend1, Hpend2, app_assoc.
Qed.

Lemma write_file_spec fuel path size ops w :
  wf_world w -> alignable size ->
  Forall (fun op => is_u64 (zlen (op_data op)) /\
            enough fuel (aligned_size size BC_IO_STREAM_SOURCE_FILE + zlen (op_data op)) w)
    (Flush :: ops) ->
  wp (write_file fuel path size ops)
    (fun r w' => evolved (heap w) nothing w w' /\
       match r with
       | None => True
       | Some (rs, flushed) => length rs = length ops /\ exists c rest,
           holds (disk_of (env w')) path c /\ accepted ops rs = c ++ rest /\ (flushed = true -> rest = [])
       end) w.
Proof.
  intros Hwf Hsize Hall. apply wp_bind. eapply wp_mono; [by apply open_file_at_start|].
  intros [p|] w1; [|intros; by apply wp_ret].
  intros (s & Hp & Hfresh & Hmode & _ & Esz & He & Hstart).
  apply wp_bind. eapply wp_load_stream; [rewrite (evolved_heap _ _ _ _ He); by simplify_map_eq|].
  assert (Hfuel : enough fuel (buffer_size s) w).
  { inversion Hall as [|? ? [_ H] _]; subst. simpl in H. by rewrite zlen_nil, Z.add_0_r, <- Esz in H. }
  assert (Hall1 : Forall (fun op => is_u64 (zlen (op_data op)) /\
            enough fuel (buffer_size s + zlen (op_data op)) w1) (Flush :: ops)).
  { eapply Forall_impl; [exact Hall|]. intros op [? Hf]. split; [done|].
    rewrite Esz. apply evolved_patience in He. unfold enough in *. lia. }
  apply wp_bind. eapply wp_mono; [by apply write_all_disk|].
  intros [[rs flushed] s2] w2 (Hwf2 & Hset & Hlen & Hq & Hfl & evs & Hplays & Hev & Ht & Hacc).
  assert (Efd : file_descriptor s2 = file_descriptor s) by (unfold setup in Hset; congruence).
  eapply wp_mono; [apply wp_tp; [|apply shut_tp]|].
  { apply (end_session fuel p s s2 _ (fun r w' => evolved (heap w) nothing w w' /\ exists out rest,
      pending s2 = out ++ rest /\
      sent (file_descriptor s) (trace w') = sent (file_descriptor s) (trace w2) ++ out) w w1 w2); try done.
    intros w' out rest He' Hpend Hsent. apply wp_ret. split; [done|by exists out, rest]. }
  intros r w3 [(He' & out & rest & Hpend & Hsent) (evs' & Ht' & Hplays' & -> & evs1 & evs2 & -> & Hev1 & Hidle & Hev2)].
  split; [done|]. split; [done|]. rewrite Efd in *.
  exists (sent (file_descriptor s) (evs ++ evs1 ++ evs2)), rest. split_and!.
  - rewrite app_assoc. apply (plays_written (disk_of (env w1))); [done| |by apply Forall_app|done].
    rewrite <- app_assoc. apply plays_app. by exists (disk_of (env w2)).
  - rewrite sent_app, (sent_since _ _ _ _ _ Ht' Hsent), Hacc, Hpend. by rewrite app_assoc.
  - intros E. rewrite (Hfl E) in Hpend. by destruct out.
Qed.

(** ** Reading *)

Lemma plays_read_back d path fd c evs evs' d' (b : bool) :
  at_start d path fd c -> plays d (evs ++ evs') d' -> reads fd b evs ->
  Forall (fun e => inert e \/ e = EvClose fd) evs' ->
  holds d' path c /\ exists rest, c = received fd evs ++ rest /\ (b = true -> rest = []).
Proof.
  intros (i & Hn & Hc & Hfd) (d1 & Hr & Hs)%plays_app [Hall Hend] Hall'.
  apply (plays_reads _ _ _ fd i 0 c) in Hr as (Hn1 & Hc1 & rest & Hrest & Hlast); [|done..].
  apply (plays_shut _ _ _ fd) in Hs as (Hn2 & Hc2 & _); [|done].
  split; [exists i; by rewrite Hn2, Hc2, Hn1, Hc1|]. exists rest.
  rewrite zdrop_0 in Hrest by done. split; [done|]. intros E. destruct (Hend E) as [evs0 ->]. by eapply Hlast.
Qed.

Lemma read_file_spec calls fuel path size w :
  wf_world w -> alignable size -> enough fuel (aligned_size size BC_IO_STREAM_SOURCE_FILE) w ->
  wp (read_file calls fuel path size)
    (fun r w' => evolved (heap w) nothing w w' /\
       match r with
       | None => True
       | Some (bytes, end_met) => forall c, holds (disk_of (env w)) path c ->
           holds (disk_of (env w')) path c /\ exists rest, c = bytes ++ rest /\ (end_met = true -> rest = [])
       end) w.
Proof.
  intros Hwf Hsize Hfuel. apply wp_bind. eapply wp_mono; [by apply open_file_at_start|].
  intros [p|] w1; [|intros; by apply wp_ret].
  intros (s & Hp & Hfresh & Hmode & Hsrc & Esz & He & Hstart). rewrite <- Esz in Hfuel.
  apply wp_bind. eapply wp_load_stream; [rewrite (evolved_heap _ _ _ _ He); by simplify_map_eq|].
  pose proof (fresh_wf _ Hfresh) as Hwfs. assert (Hsrc' : source_type s <> BC_IO_STREAM_SOURCE_MEMORY) by congruence.
  apply wp_bind. eapply wp_mono; [apply wp_tp; [apply drain_file_spec|apply drain_reads]; try done|].
  { apply evolved_patience in He. unfold enough in *. lia. }
  { apply Hwfs. }
  intros [[chunks s2] stopped] w2 [(lost & Htr & Hwf2 & Hset & _ & _ & _ & Hlost & _) (evs & Ht & Hplays & Hr & _)].
  assert (Efd : file_descriptor s2 = file_descriptor s) by (unfold setup in Hset; congruence).
  eapply wp_mono; [apply wp_tp; [|apply shut_tp]|].
  { apply (finish_session fuel p s s2 _ (fun _ w' => evolved (heap w) nothing w w') w w1 w2); try done. apply Htr. }
  intros r w3 [He' (evs' & Ht' & Hplays' & -> & evs1 & evs2 & -> & _ & Hidle & Hev2)].
  rewrite Hidle, Efd in * by (apply Hwf2; unfold setup in Hset; congruence).
  split; [done|]. intros c Hc. specialize (Hstart _ Hc).
  destruct (plays_read_back (disk_of (env w1)) path (file_descriptor s) c evs evs2 (disk_of (env w3))
    (end_of_stream s2)) as (Hheld & rest & Hrest & Hend); [done| | |done|].
  { apply plays_app. by exists (disk_of (env w2)). }
  { destruct Hfresh as [_ _ Hopen _ _]. by rewrite Hopen in Hr. }
  rewrite (received_since _ _ _ _ _ Ht (transfer_in _ _ _ _ _ Htr)), <- app_assoc in Hrest.
  split; [done|]. exists (lost ++ rest). split; [done|]. intros E. by rewrite (Hlost E), (Hend E).
Qed.

(** ** The round trip *)

(** C4. What is written through a stream is what is read back through another.
    One client opens a path for writing, makes any sequence of
    [bc_io_stream_write_chunk] and [bc_io_stream_flush] calls, flushes and closes;
    another then opens the path for reading and drains it.  On any kernel that
    keeps its files, and whatever it makes of the transfers (short, interrupted,
    refused), the second client is given a prefix of the bytes the first one's
    calls accepted, in order; all of them when the last flush succeeded and the
    reader met the end of the stream.  Heap and ledger end as they were. *)
Theorem written_is_read_back fuel calls path size size' ops w :
  wf_world w -> alignable size -> alignable size' ->
  enough fuel (aligned_size size' BC_IO_STREAM_SOURCE_FILE) w ->
  Forall (fun op => is_u64 (zlen (op_data op)) /\
            enough fuel (aligned_size size BC_IO_STREAM_SOURCE_FILE + zlen (op_data op)) w)
    (Flush :: ops) ->
  wp (wrote ← write_file fuel path size ops; got ← read_file calls fuel path size'; mret (wrote, got))
    (fun '(wrote, got) w' => heap w' = heap w /\ (forall x, held w' x = held w x) /\
       match wrote, got with
       | Some (rs, flushed), Some (bytes, end_met) => length rs = length ops /\
           exists rest, accepted ops rs = bytes ++ rest /\ (flushed = true -> end_met = true -> rest = [])
       | _, _ => True
       end) w.
Proof.
  intros Hwf Hsize Hsize' Hfuel Hall. apply wp_bind. eapply wp_mono; [by apply write_file_spec|].
  intros wrote w1 [He Hwrote].
  apply wp_bind. apply (wp_mono _ (fun got w' => evolved (heap w1) nothing w1 w' /\
    match wrote, got with
    | Some (rs, flushed), Some (bytes, end_met) => length rs = length ops /\
        exists rest, accepted ops rs = bytes ++ rest /\ (flushed = true -> end_met = true -> rest = [])
    | _, _ => True
    end)).
  { assert (Hf : enough fuel (aligned_size size' BC_IO_STREAM_SOURCE_FILE) w1).
    { apply evolved_patience in He. unfold enough in *. lia. }
    destruct wrote as [[rs flushed]|]; [destruct Hwrote as (Hlen & c & rest & Hc & Hacc & Hfl)|].
    - eapply wp_mono; [apply read_file_spec; [apply He|done..]|].
      intros [[bytes end_met]|] w2 [He2 Hgot]; [|done]. split; [done|]. split; [done|].
      destruct (Hgot c Hc) as (_ & rest' & -> & Hend). exists (rest' ++ rest). rewrite Hacc, <- app_assoc. split; [done|].
      intros E E'. by rewrite (Hfl E), (Hend E').
    - eapply wp_mono; [apply read_file_spec; [apply He|done..]|]. by intros got w2 [He2 _]. }
  intros got w2 [He2 Hgot]. apply wp_ret. rewrite (evolved_heap _ _ _ _ He) in He2.
  pose proof (evolved_trans _ _ _ _ _ _ _ He He2) as He'.
  destruct (evolved_balanced w w2) as [Hh Hheld]; [|by split_and!].
  eapply evolved_ext; [exact He'|done|]. by intros r.
Qed.
End round_trip.

(** ** Witnesses *)

Definition message : list write_op :=
  [WriteChunk [1; 2; 3; 4]; Flush; WriteChunk []; WriteChunk (zrepeat 5 70); WriteChunk [6; 7]].

Definition busy : list bool := [true; false; true; false; false; true; true].

Example disk_run :
  safe ((wrote ← @write_file disk_platform 300 [47; 97] 64 message;
         got ← @read_file disk_platform 20 300 [47; 97] 64;
         mret (wrote, got)) (disk_world busy))
    (fun '(r, w) => r = (Some ([(4, true); (0, true); (0, true); (70, true); (2, true)], true),
                         Some ([1; 2; 3; 4] ++ zrepeat 5 70 ++ [6; 7], true)) /\
       bool_decide (heap w = ∅) = true).
Proof. vm_compute. by split_and!. Qed.

Lemma written_is_read_back_witness :
  wp (wrote ← @write_file disk_platform 300 [47; 97] 64 message;
      got ← @read_file disk_platform 20 300 [47; 97] 64;
      mret (wrote, got))
    (fun '(wrote, got) w' => heap w' = ∅ /\ (forall x, held w' x = 0) /\
       match wrote, got with
       | Some (rs, flushed), Some (bytes, end_met) => length rs = 5%nat /\
           exists rest, accepted message rs = bytes ++ rest /\ (flushed = true -> end_met = true -> rest = [])
       | _, _ => True
       end)
    (disk_world busy).
Proof.
  apply (@written_is_read_back disk_platform disk_platform_laws kernel_disk kernel_disk_laws
           300 20 [47; 97] 64 64 message (disk_world busy));
    [unfold wf_world; simpl; set_solver|concrete..|].
  concrete_Forall.
Defined.
