(* ===== verification/WalkEntry.v ===== *)
(** * Entries of a directory walk (the part the two walkers share)

    [bc_io_walk_sequential.c] and [bc_io_walk_parallel.c] repeat the same code
    for the kind of an entry and its metadata; it is modelled once.  The callbacks
    of the client are arguments: each runs on the client's state [U] (what its
    [user_data] pointers reach) and returns what the callback returns. *)

From S2P Require Import Prelude Platform Objects Machine FilePath DirentReader.

Inductive bc_io_walk_entry_kind_t :=
| BC_IO_WALK_ENTRY_FILE
| BC_IO_WALK_ENTRY_DIRECTORY
| BC_IO_WALK_ENTRY_SYMLINK
| BC_IO_WALK_ENTRY_OTHER.
#[export] Instance walk_entry_kind_eq_dec : EqDecision bc_io_walk_entry_kind_t.
Proof. solve_decision. Defined.

(** [absolute_path] is the memory from the pointer on. *)
Record bc_io_walk_entry_t := mk_walk_entry {
  absolute_path : list Z;
  absolute_path_length : Z;
  kind : bc_io_walk_entry_kind_t;
  file_size : Z;
  depth : Z;
  device_id : Z;
  walk_inode_number : Z;
  walk_modification_time_seconds : Z;
  permission_mask : Z;
  stat_populated : bool;
}.
#[export] Instance walk_entry_eq_dec : EqDecision bc_io_walk_entry_t.
Proof. solve_decision. Defined.

Record bc_io_walk_stats_t := mk_walk_stats {
  files_visited : Z;
  directories_visited : Z;
  files_skipped : Z;
  errors_encountered : Z;
}.

(** Null pointers are [None]; the two contexts only matter as null or not. *)
Record bc_io_walk_config_t (U : Type) := mk_walk_config {
  root : option (list Z);
  root_length : Z;
  main_memory_context : option unit;
  concurrency_context : option unit;
  should_stop_check : option (U -> bool * U);
  queue_capacity : Z;
  follow_symlinks : bool;
  include_hidden : bool;
  filter_fn : option (bc_io_walk_entry_t -> U -> bool * U);
  should_descend : option (bc_io_walk_entry_t -> U -> bool * U);
  visit : option (bc_io_walk_entry_t -> U -> bool * U);
  on_error : option (list Z -> string -> Z -> U -> U);
}.
Arguments root {U}. Arguments root_length {U}. Arguments main_memory_context {U}.
Arguments concurrency_context {U}. Arguments should_stop_check {U}.
Arguments queue_capacity {U}. Arguments follow_symlinks {U}. Arguments include_hidden {U}.
Arguments filter_fn {U}. Arguments should_descend {U}. Arguments visit {U}.
Arguments on_error {U}. Arguments mk_walk_config {U}.

(** Calling a callback; [dflt] is the result when it is null. *)
Definition call {U} (f : option (bc_io_walk_entry_t -> U -> bool * U)) (dflt : bool)
    (e : bc_io_walk_entry_t) (u : U) : bool * U :=
  match f with Some f => f e u | None => (dflt, u) end.

Definition bc_io_walk_sequential_entry_kind_from_type (type : bc_io_file_entry_type_t)
    : bc_io_walk_entry_kind_t :=
  match type with
  | BC_IO_ENTRY_TYPE_FILE => BC_IO_WALK_ENTRY_FILE
  | BC_IO_ENTRY_TYPE_DIRECTORY => BC_IO_WALK_ENTRY_DIRECTORY
  | BC_IO_ENTRY_TYPE_SYMLINK => BC_IO_WALK_ENTRY_SYMLINK
  | BC_IO_ENTRY_TYPE_OTHER => BC_IO_WALK_ENTRY_OTHER
  end.

(** The parallel walk's copy, with what the C function returns and stores. *)
Definition bc_io_walk_entry_kind_from_type (type : bc_io_file_entry_type_t)
    : bool * bc_io_walk_entry_kind_t :=
  match type with
  | BC_IO_ENTRY_TYPE_FILE => (true, BC_IO_WALK_ENTRY_FILE)
  | BC_IO_ENTRY_TYPE_DIRECTORY => (true, BC_IO_WALK_ENTRY_DIRECTORY)
  | BC_IO_ENTRY_TYPE_SYMLINK => (true, BC_IO_WALK_ENTRY_SYMLINK)
  | BC_IO_ENTRY_TYPE_OTHER => (true, BC_IO_WALK_ENTRY_OTHER)
  end.

(** The C string a pointer leads to; undefined without a terminator. *)
Definition terminated (block : list Z) : res (list Z) :=
  if decide (0 ∈ block) then Done (c_string block) else Undefined.

(** The flags a directory is opened with. *)
Definition walk_open_flags (follow : bool) : Z :=
  let open_flags := Z.lor (Z.lor O_RDONLY O_DIRECTORY) O_CLOEXEC in
  if follow then open_flags else Z.lor open_flags O_NOFOLLOW.

(** What the walkers find out about an entry: [entry_kind] and the [resolved_]
    variables. *)
Record walk_resolved := mk_walk_resolved {
  resolved_kind : bc_io_walk_entry_kind_t;
  resolved_file_size : Z;
  resolved_device_id : Z;
  resolved_inode_number : Z;
  resolved_modification_time : Z;
  resolved_permission_mask : Z;
  resolved_populated : bool;
}.

(** Does an entry need its own [fstatat]? *)
Definition needs_stat (follow populated : bool) (k : bc_io_walk_entry_kind_t) : bool :=
  negb populated &&
  (bool_decide (k = BC_IO_WALK_ENTRY_FILE) || bool_decide (k = BC_IO_WALK_ENTRY_DIRECTORY) ||
   (bool_decide (k = BC_IO_WALK_ENTRY_SYMLINK) && follow)).

(** After the [fstatat]: a followed link takes the kind of its target. *)
Definition resolved_by_stat (follow : bool) (k : bc_io_walk_entry_kind_t) (st : stat_t)
    : walk_resolved :=
  let k :=
    if bool_decide (k = BC_IO_WALK_ENTRY_SYMLINK) && follow then
      if S_ISREG (st_mode st) then BC_IO_WALK_ENTRY_FILE
      else if S_ISDIR (st_mode st) then BC_IO_WALK_ENTRY_DIRECTORY else k
    else k in
  mk_walk_resolved k (wrap64 (st_size st)) (st_dev st) (st_ino st) (st_mtime st)
    (Z.land (st_mode st) 4095) true.

Definition make_walk_entry (path : list Z) (length directory_depth : Z) (r : walk_resolved)
    : bc_io_walk_entry_t :=
  mk_walk_entry path length (resolved_kind r) (resolved_file_size r) (directory_depth +u 1)
    (wrap64 (resolved_device_id r)) (wrap64 (resolved_inode_number r))
    (resolved_modification_time r) (resolved_permission_mask r) (resolved_populated r).

Section walk_entry.
Context {PF : Platform}.

(** From the record's type byte, or [fstatat] when it does not tell; [None] when
    a [stat] call failed. *)
Definition walk_resolve (follow : bool) (directory_file_descriptor : Z)
    (current_entry : bc_io_dirent_entry_t) : M (option walk_resolved) :=
  name ← lift (terminated (entry_name current_entry));
  by_type ← (if decide (entry_d_type current_entry <> DT_UNKNOWN) then
               mret (Some (mk_resolved (bc_io_file_dtype_to_entry_type (entry_d_type current_entry))
                             0 0 0 0, false))
             else
               r ← bc_io_file_stat_if_unknown directory_file_descriptor name;
               mret ((fun r => (r, true)) <$> r));
  match by_type with
  | None => mret None
  | Some (r, populated) =>
      let entry_kind := bc_io_walk_sequential_entry_kind_from_type (r_type r) in
      if needs_stat follow populated entry_kind then
        let stat_flags := if follow then 0 else AT_SYMLINK_NOFOLLOW in
        stat_buffer ← fstatat directory_file_descriptor name stat_flags;
        match stat_buffer with
        | None => mret None
        | Some st => mret (Some (resolved_by_stat follow entry_kind st))
        end
      else
        mret (Some (mk_walk_resolved entry_kind (r_size r) (r_device r) (r_inode r)
                      (r_modification_time r) 0 populated))
  end.

(** ** Lemmas *)

(** The two copies agree, so [walk_resolve] stands for the resolving part of both
    walks. *)
Lemma entry_kind_from_type_agree type :
  bc_io_walk_entry_kind_from_type type = (true, bc_io_walk_sequential_entry_kind_from_type type).
Proof. by destruct type. Qed.

Section laws.
Context {PL : PlatformLaws PF}.

Lemma tells_terminated e d : tells e d -> terminated (entry_name e) = Done (d_name d).
Proof.
  intros (Hs & _ & _ & Hlen). unfold terminated. rewrite Hs. rewrite decide_True; [done|].
  destruct (decide (0 ∈ entry_name e)) as [H|H]; [done|]. rewrite <- Hs in Hlen.
  replace (c_string (entry_name e)) with (entry_name e) in Hlen; [lia|].
  symmetry. by apply c_string_all.
Qed.

(** Resolving an entry makes system calls that allocate nothing. *)
Lemma walk_resolve_quiet follow dfd e w :
  0 ∈ entry_name e ->
  wp (walk_resolve follow dfd e) (fun _ w' => quiet w w' /\ trace w' = trace w) w.
Proof.
  intros H0. unfold walk_resolve, terminated, bc_io_file_stat_if_unknown. rewrite decide_True by done.
  apply wp_bind, wp_lift. simpl. wp_run.
  all: split; [|simpl; by rewrite ?app_nil_r].
  all: split; simpl; try done; try lia; intros r; held_lia.
Qed.
End laws.
End walk_entry.
