(* ===== verification/WalkSpec.v ===== *)
(** * What a walk of a directory tree should see

    A file system that does not change while it is walked ([Snapshot]), and the
    reference traversal [tour]: a function on the tree, without descriptors,
    buffers, readers or limits of the kernel.  [WalkPreorder] shows that the
    sequential walk makes this tour, [ParallelTour] that the parallel one visits the
    same entries. *)

From S2P Require Import Prelude Platform Objects Machine FilePath DirentReader WalkEntry.

(** ** A file system that stays as it is *)

(** Opening a path with some flags gives the batches of records of the directory,
    or an error; [tree_stat] is the answer to [fstatat]; [opened], a view of the
    kernel's state, tells for each open directory its path and the batches still
    to come. *)
Class Snapshot (KN : Kernel) := {
  tree_open : list Z -> Z -> sysret (list (list dirent));
  tree_stat : list Z -> list Z -> Z -> sysret stat_t;
  opened : kstate -> gmap Z (list Z * list (list dirent));
}.

(** The kernel answers from the tree; each batch takes one unit of its patience,
    and as long as it has some it serves the next batch. *)
Class SnapshotLaws {KN : Kernel} (SN : Snapshot KN) : Prop := {
  tree_records path flags bs :
    tree_open path flags = SysOk bs -> Forall (fun b => b <> [] /\ Forall dirent_ok b) bs;
  snap_open k path follow :
    exists r k', sys_open k path (walk_open_flags follow) 0 = (r, k') /\ patience k' = patience k /\
      match tree_open path (walk_open_flags follow) with
      | SysOk bs => exists fd, r = SysOk fd /\ 0 <= fd /\ opened k !! fd = None /\
          opened k' = <[fd := (path, bs)]> (opened k)
      | SysErr e => r = SysErr e /\ opened k' = opened k
      end;
  snap_end k fd path :
    opened k !! fd = Some (path, []) ->
    exists k', sys_getdents64 k fd BC_IO_DIRENT_READER_BUFFER_SIZE = (SysOk [], k') /\
      opened k' = opened k /\ patience k' = patience k;
  snap_batch k fd path b bs :
    opened k !! fd = Some (path, b :: bs) -> (0 < patience k)%nat ->
    exists k', sys_getdents64 k fd BC_IO_DIRENT_READER_BUFFER_SIZE = (SysOk (encode_batch b), k') /\
      opened k' = <[fd := (path, bs)]> (opened k) /\ S (patience k') = patience k;
  snap_fstatat k fd path bs name flags :
    opened k !! fd = Some (path, bs) ->
    exists k', sys_fstatat k fd name flags = (tree_stat path name flags, k') /\
      opened k' = opened k /\ patience k' = patience k;
  snap_close k fd :
    opened (sys_close k fd) = delete fd (opened k) /\ patience (sys_close k fd) = patience k;
}.

(** ** The tour *)

Inductive tour_event :=
| TDirectory (path : list Z) (batches : nat)
| TVisit (e : bc_io_walk_entry_t)
| TSkip (e : bc_io_walk_entry_t)
| TError (path : list Z) (stage : string) (errno_value : Z).

Definition child_of (dir name : list Z) : list Z := dir ++ ch "/" :: name.

(** The hidden entries of a directory. *)
Definition is_hidden (d : dirent) : bool := bool_decide (hd 0 (d_name d) = ch ".").

Section tour.
Context {KN : Kernel} {SN : Snapshot KN}.
Variable follow : bool.
Variable hidden : bool.
Variable accept : bc_io_walk_entry_t -> bool.
Variable descend : bc_io_walk_entry_t -> bool.

(** What the tree tells about an entry. *)
Definition tour_resolve (dir : list Z) (d : dirent) : sysret walk_resolved :=
  let refine r populated :=
    let k := bc_io_walk_sequential_entry_kind_from_type (r_type r) in
    if needs_stat follow populated k then
      match tree_stat dir (d_name d) (if follow then 0 else AT_SYMLINK_NOFOLLOW) with
      | SysOk st => SysOk (resolved_by_stat follow k st)
      | SysErr e => SysErr e
      end
    else SysOk (mk_walk_resolved k (r_size r) (r_device r) (r_inode r) (r_modification_time r) 0 populated) in
  if decide (d_type d = DT_UNKNOWN) then
    match tree_stat dir (d_name d) AT_SYMLINK_NOFOLLOW with
    | SysOk st => refine (mk_resolved (entry_type_of_mode (st_mode st)) (st_dev st) (st_ino st)
                            (wrap64 (st_size st)) (st_mtime st)) true
    | SysErr e => SysErr e
    end
  else refine (mk_resolved (bc_io_file_dtype_to_entry_type (d_type d)) 0 0 0 0) false.

Definition tour_entry (tour : list Z -> Z -> list tour_event) (dir : list Z) (dep : Z) (d : dirent)
    : list tour_event :=
  let path := child_of dir (d_name d) in
  if negb hidden && is_hidden d then []
  else if decide (BC_IO_MAX_PATH_LENGTH <= zlen path) then [TError dir "path-too-long" ENAMETOOLONG]
  else
    match tour_resolve dir d with
    | SysErr e => [TError path "stat" e]
    | SysOk r =>
        let e := make_walk_entry path (zlen path) dep r in
        if negb (accept e) then [TSkip e]
        else
          match kind e with
          | BC_IO_WALK_ENTRY_FILE => [TVisit e]
          | BC_IO_WALK_ENTRY_DIRECTORY =>
              TVisit e :: (if descend e then tour path (depth e) else [])
          | _ => []
          end
    end.

Definition tour_entries (tour : list Z -> Z -> list tour_event) (dir : list Z) (dep : Z)
    (ds : list dirent) : list tour_event :=
  concat (tour_entry tour dir dep <$> ds).

(** Each directory before its entries, each subdirectory where its entry is: the
    recursion ends because paths grow and are bounded. *)
Fixpoint tour (deep : nat) (dir : list Z) (dep : Z) : list tour_event :=
  match deep with
  | O => []
  | S deep =>
      match tree_open dir (walk_open_flags follow) with
      | SysErr e => [TError dir "open" e]
      | SysOk bs => TDirectory dir (length bs) :: tour_entries (tour deep) dir dep (listed (concat bs))
      end
  end.
End tour.

(** What the client is told of, and what the walk counts. *)
Definition is_told (ev : tour_event) : bool :=
  match ev with TVisit _ | TError _ _ _ => true | _ => false end.
Definition told (evs : list tour_event) : list tour_event := List.filter is_told evs.

Definition is_file (ev : tour_event) : bool :=
  match ev with TVisit e => bool_decide (kind e = BC_IO_WALK_ENTRY_FILE) | _ => false end.
Definition is_directory_event (ev : tour_event) : bool :=
  match ev with TDirectory _ _ => true | _ => false end.
Definition is_skip (ev : tour_event) : bool := match ev with TSkip _ => true | _ => false end.
Definition is_error (ev : tour_event) : bool := match ev with TError _ _ _ => true | _ => false end.

Definition tally (p : tour_event -> bool) (evs : list tour_event) : Z := zlen (List.filter p evs).

(** The stats a tour should end with. *)
Definition stats_of (evs : list tour_event) : bc_io_walk_stats_t :=
  mk_walk_stats (wrap64 (tally is_file evs)) (wrap64 (tally is_directory_event evs))
    (wrap64 (tally is_skip evs)) (wrap64 (tally is_error evs)).

(** The batches of records a tour reads. *)
Fixpoint cost (evs : list tour_event) : nat :=
  match evs with
  | [] => 0
  | TDirectory _ n :: evs => n + cost evs
  | _ :: evs => cost evs
  end.

(** The client that takes part without interfering: it writes down what it is
    told, and decides by looking at the entry. *)
Definition entry_view (e : bc_io_walk_entry_t) : bc_io_walk_entry_t :=
  mk_walk_entry (ztake (absolute_path_length e) (absolute_path e)) (absolute_path_length e) (kind e)
    (file_size e) (depth e) (device_id e) (walk_inode_number e) (walk_modification_time_seconds e)
    (permission_mask e) (stat_populated e).

Definition observer (root : list Z) (root_length : Z) (follow hidden : bool)
    (accept descend : bc_io_walk_entry_t -> bool) : bc_io_walk_config_t (list tour_event) :=
  mk_walk_config (Some root) root_length (Some ()) (Some ()) None 0 follow hidden
    (Some (fun e log => (accept (entry_view e), log)))
    (Some (fun e log => (descend (entry_view e), log)))
    (Some (fun e log => (true, log ++ [TVisit (entry_view e)])))
    (Some (fun path stage e log => log ++ [TError (c_string path) stage e])).

(** ** Lemmas *)

Lemma told_app evs evs' : told (evs ++ evs') = told evs ++ told evs'.
Proof. apply List.filter_app. Qed.

Lemma tally_app p evs evs' : tally p (evs ++ evs') = tally p evs + tally p evs'.
Proof. unfold tally. by rewrite List.filter_app, zlen_app. Qed.

Lemma tally_nonneg p evs : 0 <= tally p evs.
Proof. apply zlen_nonneg. Qed.

Lemma cost_app evs evs' : cost (evs ++ evs') = (cost evs + cost evs')%nat.
Proof. induction evs as [|[] evs IH]; simpl; lia. Qed.

(** Counting is additive up to the width of the counters. *)
Definition add_stats (t : bc_io_walk_stats_t) (evs : list tour_event) : bc_io_walk_stats_t :=
  mk_walk_stats (files_visited t +u tally is_file evs)
    (directories_visited t +u tally is_directory_event evs)
    (files_skipped t +u tally is_skip evs) (errors_encountered t +u tally is_error evs).

Lemma add_stats_app t evs evs' : add_stats (add_stats t evs) evs' = add_stats t (evs ++ evs').
Proof.
  unfold add_stats. simpl. rewrite !tally_app, !wrap64_add_l. by rewrite !Z.add_assoc.
Qed.

(** A path in memory. *)
Definition holds_path (block : list Z) (len : Z) (path : list Z) : Prop :=
  (exists rest, block = path ++ 0 :: rest) /\ 0 ∉ path /\ len = zlen path.

Lemma holds_path_view block len path : holds_path block len path -> ztake len block = path.
Proof. intros ((rest & ->) & _ & ->). by apply ztake_app. Qed.

Lemma holds_path_string block len path :
  holds_path block len path -> c_string block = path /\ terminated block = Done path.
Proof.
  intros ((rest & ->) & H0 & _). rewrite c_string_app by done. split; [done|].
  unfold terminated. rewrite decide_True by set_solver. by rewrite c_string_app.
Qed.

Lemma entry_view_make block len path dep r :
  holds_path block len path ->
  entry_view (make_walk_entry block len dep r) = make_walk_entry path (zlen path) dep r.
Proof.
  intros H. unfold entry_view, make_walk_entry. simpl. rewrite (holds_path_view _ _ _ H).
  by destruct H as (_ & _ & ->).
Qed.
