(* ===== verification/SnapshotKernel.v ===== *)
(** * A concrete file system

    A kernel that serves a fixed directory tree, given as a table of directories
    (the batches of records of each) and a table of file attributes.  Its state
    is what is open and where each open directory stands.  Everything else a
    kernel does fails here.  It meets the laws of a kernel and of a [Snapshot], so
    the theorems about walks can be applied to it, and walks of it evaluate; the
    allocator beside it never refuses. *)

From S2P Require Import Prelude Platform Objects Machine Scripted FilePath DirentReader.
From S2P Require Import WalkEntry WalkSpec.

Definition batch_ok (b : list dirent) : Prop :=
  b <> [] /\ Forall dirent_ok b /\ zlen (encode_batch b) <= BC_IO_DIRENT_READER_BUFFER_SIZE.

Record file_tree := mk_tree {
  directories : list (list Z * list (list dirent));
  attributes : list ((list Z * list Z) * stat_t);
}.

Fixpoint find_in {A} (key : list Z) (l : list (list Z * A)) : option A :=
  match l with
  | [] => None
  | (k, a) :: l => if decide (k = key) then Some a else find_in key l
  end.

Fixpoint find_attributes (dir name : list Z) (l : list ((list Z * list Z) * stat_t)) : option stat_t :=
  match l with
  | [] => None
  | ((d, n), a) :: l => if decide (d = dir /\ n = name) then Some a else find_attributes dir name l
  end.

Definition batches_of (t : file_tree) (path : list Z) : option (list (list dirent)) :=
  match find_in path (directories t) with
  | Some bs => if decide (Forall batch_ok bs) then Some bs else None
  | None => None
  end.

Definition attributes_of (t : file_tree) (dir name : list Z) : sysret stat_t :=
  match find_attributes dir name (attributes t) with
  | Some st => sane_stat (SysOk st)
  | None => SysErr ENOENT
  end.

Definition listing_of (t : file_tree) (path : list Z) : list (list dirent) :=
  match batches_of t path with Some bs => bs | None => [] end.

(** Each open directory with the number of batches already served. *)
Record snapshot_state := mk_snapshot {
  positions : gmap Z (list Z * nat);
  budget : nat;
}.

Definition rest_of (t : file_tree) (pos : list Z * nat) : list Z * list (list dirent) :=
  (pos.1, drop pos.2 (listing_of t pos.1)).

Section snapshot_kernel.
Variable t : file_tree.

Definition snapshot_open (k : snapshot_state) (path : list Z) : sysret Z * snapshot_state :=
  match batches_of t path with
  | Some _ =>
      let fd := next_address (dom (positions k)) in
      (SysOk fd, mk_snapshot (<[fd := (path, 0%nat)]> (positions k)) (budget k))
  | None => (SysErr ENOENT, k)
  end.

Definition snapshot_getdents64 (k : snapshot_state) (fd n : Z) : sysret (list Z) * snapshot_state :=
  match positions k !! fd with
  | None => (SysErr EBADF, k)
  | Some (path, i) =>
      match drop i (listing_of t path) with
      | [] => (if decide (0 <= n) then SysOk [] else SysErr EINVAL, k)
      | b :: _ =>
          match budget k with
          | O => (SysErr EINVAL, k)
          | S budget =>
              if decide (zlen (encode_batch b) <= n)
              then (SysOk (encode_batch b), mk_snapshot (<[fd := (path, S i)]> (positions k)) budget)
              else (SysErr EINVAL, k)
          end
      end
  end.

Definition snapshot_fstatat (k : snapshot_state) (fd : Z) (name : list Z) : sysret stat_t * snapshot_state :=
  match positions k !! fd with
  | None => (SysErr EBADF, k)
  | Some (path, _) => (attributes_of t path name, k)
  end.

#[local] Instance snapshot_kernel : Kernel := {|
  kstate := snapshot_state;
  sys_open k path _ _ := snapshot_open k path;
  sys_close k fd := mk_snapshot (delete fd (positions k)) (budget k);
  sys_read k _ _ := (SysErr ENOSYS, k);
  sys_write k _ _ := (SysErr ENOSYS, k);
  sys_fstat k _ := (SysErr ENOSYS, k);
  sys_stat k _ := (SysErr ENOSYS, k);
  sys_lstat k _ := (SysErr ENOSYS, k);
  sys_fstatat k fd name _ := snapshot_fstatat k fd name;
  sys_posix_fadvise k _ _ _ _ := (0, k);
  sys_mmap k _ _ _ _ _ := (SysErr ENOSYS, k);
  sys_munmap k _ _ := k;
  sys_madvise k _ _ _ := (SysErr ENOSYS, k);
  sys_getrandom k _ := (SysErr ENOSYS, k);
  sys_getdents64 k fd n := snapshot_getdents64 k fd n;
  sys_getcwd k _ := (SysErr ENOSYS, k);
  patience := budget;
|}.

Definition snapshot_opened (k : snapshot_state) : gmap Z (list Z * list (list dirent)) :=
  rest_of t <$> positions k.

#[local] Instance snapshot_tree : Snapshot snapshot_kernel := Build_Snapshot snapshot_kernel
  (fun path _ => match batches_of t path with Some bs => SysOk bs | None => SysErr ENOENT end)
  (fun dir name _ => attributes_of t dir name)
  snapshot_opened.

(** ** It meets the laws *)

Lemma batches_of_ok path bs : batches_of t path = Some bs -> Forall batch_ok bs.
Proof. unfold batches_of. intros H. by repeat case_match; simplify_eq. Qed.

Lemma rest_ok path i b bs : drop i (listing_of t path) = b :: bs -> batch_ok b.
Proof.
  unfold listing_of.
  destruct (batches_of t path) as [bs'|] eqn:E; simpl; [|by rewrite drop_nil].
  intros H. apply batches_of_ok, (Forall_drop _ i) in E. rewrite H in E. by inversion E.
Qed.

#[local] Instance snapshot_kernel_laws : KernelLaws snapshot_kernel.
Proof.
  split; simpl; intros; simplify_eq; simpl; try lia; try done.
  - unfold snapshot_open in *. case_match; simplify_eq. unfold next_address.
    pose proof (foldr_max_nonneg (elements (dom (positions k)))). lia.
  - unfold snapshot_open in *. by case_match; simplify_eq.
  - unfold snapshot_fstatat, attributes_of in *. repeat case_match; simplify_eq. simpl in *. by case_decide; simplify_eq.
  - unfold snapshot_fstatat in *. by repeat case_match; simplify_eq.
  - unfold snapshot_getdents64 in *. destruct (positions k !! fd) as [[path i]|]; [|done].
    destruct (drop i _) as [|b bs'] eqn:E; [case_decide; simplify_eq; by exists []|].
    destruct (budget k); [done|]. case_decide; simplify_eq. exists b. split; [done|].
    apply rest_ok in E. apply E.
  - unfold snapshot_getdents64 in *. repeat case_match; simplify_eq; simpl; lia || done.
  - unfold snapshot_getdents64 in *. by repeat case_match; simplify_eq.
  - unfold snapshot_getdents64 in *. repeat case_match; simplify_eq; simpl; lia.
Qed.

#[local] Instance snapshot_tree_laws : SnapshotLaws snapshot_tree.
Proof.
  split; simpl; unfold snapshot_opened.
  - intros path _ bs. destruct (batches_of t path) as [bs'|] eqn:E; [|done]. intros [= <-].
    apply batches_of_ok in E. eapply Forall_impl; [exact E|]. intros b (? & ? & _). done.
  - intros k path follow. unfold snapshot_open. destruct (batches_of t path) as [bs|] eqn:E; [|by do 2 eexists].
    do 2 eexists. split; [done|]. split; [done|]. eexists. split; [done|].
    destruct (next_address_fresh (dom (positions k))) as [_ Hfresh]. split_and!.
    + unfold next_address. pose proof (foldr_max_nonneg (elements (dom (positions k)))). lia.
    + rewrite lookup_fmap. apply not_elem_of_dom in Hfresh. by rewrite Hfresh.
    + simpl. rewrite fmap_insert. unfold rest_of at 1, listing_of. simpl. by rewrite E.
  - intros k fd path. rewrite lookup_fmap. unfold snapshot_getdents64.
    destruct (positions k !! fd) as [[path' i]|]; [|done]. simpl. unfold rest_of. simpl.
    intros [= -> ->]. by eexists.
  - intros k fd path b bs. rewrite lookup_fmap. unfold snapshot_getdents64.
    destruct (positions k !! fd) as [[path' i]|]; [|done]. simpl. unfold rest_of at 1. simpl.
    intros [= -> Hd] Hpos. rewrite Hd. destruct (budget k) as [|n]; [lia|].
    destruct (rest_ok _ _ _ _ Hd) as (_ & _ & Hfit). rewrite decide_True by done.
    eexists. split; [done|]. split; [|done]. simpl. rewrite fmap_insert. unfold rest_of at 1. simpl.
    do 2 f_equal.
    by rewrite <- Nat.add_1_r, <- drop_drop, Hd.
  - intros k fd path bs name flags. rewrite lookup_fmap. unfold snapshot_fstatat.
    destruct (positions k !! fd) as [[path' i]|]; [|done]. simpl. unfold rest_of. simpl.
    intros [= -> _]. by eexists.
  - intros k fd. split; [|done]. apply fmap_delete.
Qed.

(** ** An allocator that never refuses *)

#[local] Instance generous_allocators : Allocators := {|
  pstate := gset Z;
  pool_alloc m _ := (Some (next_address m), {[next_address m]} ∪ m);
  pool_bytes _ _ n := zrepeat 165 n;
  pool_release m p := m ∖ {[p]};
  arena_new m _ := (None, m);
  arena_alloc m _ _ _ := (None, m);
  arena_release m _ := m;
  context_page_size _ := Some 4096;
  live m := m;
|}.

#[local] Instance generous_allocators_laws : AllocatorsLaws generous_allocators.
Proof.
  split; simpl; intros; simplify_eq; try done.
  - apply next_address_fresh.
  - rewrite zlen_zrepeat. lia.
Qed.

Definition snapshot_platform : Platform := {|
  platform_kernel := snapshot_kernel;
  platform_allocators := generous_allocators;
  platform_core := reference_core;
|}.

Lemma snapshot_platform_laws : PlatformLaws snapshot_platform.
Proof. split; apply _. Qed.

Definition snapshot_world (patience : nat) : @world snapshot_platform :=
  @mk_world snapshot_platform (mk_snapshot ∅ patience) (∅ : gset Z) 0 ∅ [].

Lemma snapshot_world_wf patience : wf_world (snapshot_world patience).
Proof. done. Qed.
End snapshot_kernel.

(** ** A small tree *)

(** The root holds a file, a hidden file and a directory; the directory holds a
    file of unknown type and a link. *)
Definition tour_record (s : string) (type : Z) : dirent := mk_dirent 7 1 type (bytes_of_string s) [0; 0].
Definition small_tree : file_tree :=
  mk_tree
    [(bytes_of_string "/r", [[tour_record "." 4; tour_record "a" 8]; [tour_record ".b" 8; tour_record "d" 4]]);
     (bytes_of_string "/r/d", [[tour_record "e" 0; tour_record "l" 10; tour_record "f" 8]])]
    [((bytes_of_string "/r", bytes_of_string "a"), regular_file 5);
     ((bytes_of_string "/r", bytes_of_string "d"), mk_stat 1 3 16877 1 0 0 0 0 0);
     ((bytes_of_string "/r/d", bytes_of_string "e"), regular_file 6)].

Definition everything : bc_io_walk_entry_t -> bool := fun _ => true.

Definition small_tour : list tour_event :=
  @tour _ (snapshot_tree small_tree) false false everything everything 4096 (bytes_of_string "/r") 0.

Example small_tour_stats : stats_of small_tour = mk_walk_stats 2 2 0 1.
Proof. vm_compute. reflexivity. Qed.
