(* ===== verification/WalkSequential.v ===== *)
(** * The sequential walk ([src/walk/bc_io_walk_sequential.c])

    A directory is opened, read entry by entry, and its subdirectories are walked
    in the middle of the loop.  The loop takes [laps] fuel, the recursion [deep]
    fuel; since every level makes the path at least two bytes longer and paths
    are shorter than 4096 bytes, [deep = 4096] is always enough, and since every
    batch of records uses up some of the kernel's patience, so is [laps] above
    8193 times the patience. *)

From S2P Require Import Prelude Platform Objects Machine Scripted FilePath DirentReader WalkEntry.

(** [bc_io_walk_sequential_state_t], its [config] being constant, with the
    client's state. *)
Record bc_io_walk_sequential_state_t (U : Type) := mk_walk_state {
  walk_stats : bc_io_walk_stats_t;
  visit_failed : bool;
  client : U;
}.
Arguments walk_stats {U}. Arguments visit_failed {U}. Arguments client {U}.
Arguments mk_walk_state {U}.

Definition set_client {U} (u : U) (s : bc_io_walk_sequential_state_t U) :=
  mk_walk_state (walk_stats s) (visit_failed s) u.
Definition set_visit_failed {U} (s : bc_io_walk_sequential_state_t U) :=
  mk_walk_state (walk_stats s) true (client s).
Definition count_stats {U} (f : bc_io_walk_stats_t -> bc_io_walk_stats_t)
    (s : bc_io_walk_sequential_state_t U) :=
  mk_walk_state (f (walk_stats s)) (visit_failed s) (client s).

Definition count_file (t : bc_io_walk_stats_t) : bc_io_walk_stats_t :=
  mk_walk_stats (files_visited t +u 1) (directories_visited t) (files_skipped t) (errors_encountered t).
Definition count_directory (t : bc_io_walk_stats_t) : bc_io_walk_stats_t :=
  mk_walk_stats (files_visited t) (directories_visited t +u 1) (files_skipped t) (errors_encountered t).
Definition count_skipped (t : bc_io_walk_stats_t) : bc_io_walk_stats_t :=
  mk_walk_stats (files_visited t) (directories_visited t) (files_skipped t +u 1) (errors_encountered t).
Definition count_error (t : bc_io_walk_stats_t) : bc_io_walk_stats_t :=
  mk_walk_stats (files_visited t) (directories_visited t) (files_skipped t) (errors_encountered t +u 1).
Definition zero_walk_stats : bc_io_walk_stats_t := mk_walk_stats 0 0 0 0.

Section walk_sequential.
Context {PF : Platform} {U : Type}.
Variable config : bc_io_walk_config_t U.
(** What the array [child_path_buffer] holds before it is written. *)
Variable stack : list Z.

Notation state := (bc_io_walk_sequential_state_t U).

Definition bc_io_walk_sequential_should_stop (s : state) : bool * state :=
  match should_stop_check config with
  | None => (false, s)
  | Some f => let '(stop, u) := f (client s) in (stop, set_client u s)
  end.

Definition bc_io_walk_sequential_report_error (s : state) (path : list Z) (stage : string)
    (errno_value : Z) : state :=
  let s := count_stats count_error s in
  match on_error config with
  | None => s
  | Some f => set_client (f path stage errno_value (client s)) s
  end.

(** A callback on an entry; true when it is null. *)
Definition ask (f : option (bc_io_walk_entry_t -> U -> bool * U)) (e : bc_io_walk_entry_t)
    (s : state) : bool * state :=
  let '(answer, u) := call f true e (client s) in (answer, set_client u s).

(** What the loop does with one entry: go on, stop, or walk a subdirectory and
    go on. *)
Inductive verdict :=
| Continue (s : state)
| Break (s : state)
| Descend (s : state) (child_path : list Z) (child_path_length child_depth : Z).

(** The part of the loop from the filter on.  A file is shown to [visit] without
    a test for null. *)
Definition sequential_dispatch (s : state) (walk_entry : bc_io_walk_entry_t) : res verdict :=
  let '(accepted, s) := ask (filter_fn config) walk_entry s in
  if negb accepted then Done (Continue (count_stats count_skipped s))
  else if decide (kind walk_entry = BC_IO_WALK_ENTRY_FILE) then
    let s := count_stats count_file s in
    if bool_decide (visit config = None) then Undefined
    else
      let '(ok, s) := ask (visit config) walk_entry s in
      if negb ok then Done (Break (set_visit_failed s)) else Done (Continue s)
  else if decide (kind walk_entry = BC_IO_WALK_ENTRY_DIRECTORY) then
    let '(ok, s) := ask (visit config) walk_entry s in
    if negb ok then Done (Break (set_visit_failed s))
    else
      let '(descend, s) := ask (should_descend config) walk_entry s in
      if negb descend then Done (Continue s)
      else Done (Descend s (absolute_path walk_entry) (absolute_path_length walk_entry)
                   (depth walk_entry))
  else Done (Continue s).

(** One entry of the directory. *)
Definition sequential_entry (s : state) (directory_file_descriptor : Z) (directory_path : list Z)
    (directory_path_length directory_depth : Z) (current_entry : bc_io_dirent_entry_t)
    : M verdict :=
  c ← lift (peek (entry_name current_entry) 0);
  if decide (c = ch "." /\ include_hidden config = false) then mret (Continue s)
  else
    '(joined, child_path_buffer) ←
      lift (bc_io_file_path_join stack BC_IO_MAX_PATH_LENGTH directory_path directory_path_length
              (entry_name current_entry) (entry_name_length current_entry));
    match joined with
    | None =>
        mret (Continue (bc_io_walk_sequential_report_error s directory_path "path-too-long" ENAMETOOLONG))
    | Some child_path_length =>
        resolved ← walk_resolve (follow_symlinks config) directory_file_descriptor current_entry;
        match resolved with
        | None =>
            e ← get_errno;
            mret (Continue (bc_io_walk_sequential_report_error s child_path_buffer "stat" e))
        | Some r =>
            lift (sequential_dispatch s
                    (make_walk_entry child_path_buffer child_path_length directory_depth r))
        end
    end.

(** The loop over the entries of an open directory; [recurse] walks a
    subdirectory. *)
Fixpoint sequential_loop (recurse : state -> list Z -> Z -> Z -> M state) (fuel laps : nat)
    (s : state) (dirent_reader directory_file_descriptor : Z) (directory_path : list Z)
    (directory_path_length directory_depth : Z) : M state :=
  match fuel with
  | O => out_of_fuel
  | S fuel =>
      let again s := sequential_loop recurse fuel laps s dirent_reader directory_file_descriptor
                       directory_path directory_path_length directory_depth in
      if visit_failed s then mret s
      else
        let '(stop, s) := bc_io_walk_sequential_should_stop s in
        if stop : bool then mret s
        else
          r ← load_reader dirent_reader;
          '(answer, r) ← bc_io_dirent_reader_next laps r;
          store dirent_reader (OReader r);;
          match answer with
          | None =>
              mret (bc_io_walk_sequential_report_error s directory_path "getdents64"
                      (bc_io_dirent_reader_last_errno r))
          | Some None => mret s
          | Some (Some current_entry) =>
              v ← sequential_entry s directory_file_descriptor directory_path
                    directory_path_length directory_depth current_entry;
              match v with
              | Continue s => again s
              | Break s => mret s
              | Descend s path length child_depth =>
                  s ← recurse s path length child_depth;
                  again s
              end
          end
  end.

Fixpoint bc_io_walk_sequential_recurse (deep laps : nat) (s : state) (directory_path : list Z)
    (directory_path_length directory_depth : Z) : M state :=
  match deep with
  | O => out_of_fuel
  | S deep =>
      if visit_failed s then mret s
      else
        let '(stop, s) := bc_io_walk_sequential_should_stop s in
        if stop : bool then mret s
        else
          path ← lift (terminated directory_path);
          directory_file_descriptor ← open_ path (walk_open_flags (follow_symlinks config)) 0;
          if decide (directory_file_descriptor < 0) then
            e ← get_errno;
            mret (bc_io_walk_sequential_report_error s directory_path "open" e)
          else
            let s := count_stats count_directory s in
            dirent_reader ← bc_io_dirent_reader_create directory_file_descriptor;
            match dirent_reader with
            | None =>
                let s := bc_io_walk_sequential_report_error s directory_path
                           "dirent-reader-alloc" ENOMEM in
                close directory_file_descriptor;;
                mret s
            | Some dirent_reader =>
                s ← sequential_loop (bc_io_walk_sequential_recurse deep laps) laps laps s
                      dirent_reader directory_file_descriptor directory_path
                      directory_path_length directory_depth;
                bc_io_dirent_reader_destroy dirent_reader;;
                close directory_file_descriptor;;
                mret s
            end
  end.
End walk_sequential.
Arguments Continue {U}. Arguments Break {U}. Arguments Descend {U}.

(** The result, [*out_stats] and the client's state; [out_stats] may be null. *)
Definition bc_io_walk_sequential `{PF : Platform} {U} (stack : list Z) (deep laps : nat)
    (config : option (bc_io_walk_config_t U)) (out_stats : option bc_io_walk_stats_t) (u : U)
    : M (bool * option bc_io_walk_stats_t * U) :=
  match config with
  | None => mret (false, out_stats, u)
  | Some config =>
      match root config with
      | None => mret (false, out_stats, u)
      | Some root =>
          if decide (root_length config = 0 \/ BC_IO_MAX_PATH_LENGTH <= root_length config) then
            mret (false, out_stats, u)
          else if bool_decide (visit config = None) then mret (false, out_stats, u)
          else if bool_decide (main_memory_context config = None) then mret (false, out_stats, u)
          else
            s ← bc_io_walk_sequential_recurse config stack deep laps
                  (mk_walk_state zero_walk_stats false u) root (root_length config) 0;
            mret (negb (visit_failed s),
                  match out_stats with Some _ => Some (walk_stats s) | None => None end,
                  client s)
      end
  end.

(** ** Lemmas *)

Section laws.
Context {PF : Platform} {PL : PlatformLaws PF} {U : Type}.
Variable config : bc_io_walk_config_t U.
Variable stack : list Z.
Hypothesis stack_size : zlen stack = BC_IO_MAX_PATH_LENGTH.
Hypothesis visits : visit config <> None.

(** What the callbacks keep true of the client's state: [I] as long as no visit
    was refused, [J] from then on. *)
Variable I J : U -> Prop.
Record client_ok : Prop := {
  stop_ok f u : should_stop_check config = Some f -> I u -> I (f u).2;
  filter_ok f e u : filter_fn config = Some f -> I u -> I (f e u).2;
  descend_ok f e u : should_descend config = Some f -> I u -> I (f e u).2;
  error_ok f p g e u : on_error config = Some f -> I u -> I (f p g e u);
  visit_ok f e u : visit config = Some f -> I u -> if (f e u).1 then I (f e u).2 else J (f e u).2;
}.
Hypothesis ok : client_ok.

Definition state_ok (s : bc_io_walk_sequential_state_t U) : Prop :=
  if visit_failed s then J (client s) else I (client s).

Definition running (s : bc_io_walk_sequential_state_t U) : Prop := visit_failed s = false /\ I (client s).

Lemma running_ok s : running s -> state_ok s.
Proof. unfold state_ok. by intros [-> ?]. Qed.

Lemma should_stop_running s : running s -> running (bc_io_walk_sequential_should_stop config s).2.
Proof.
  intros [Hf HI]. unfold bc_io_walk_sequential_should_stop.
  destruct (should_stop_check config) as [f|] eqn:E; [|done].
  pose proof (stop_ok ok f (client s) E HI). destruct (f (client s)) as [b u]. done.
Qed.

Lemma report_error_running s path stage e :
  running s -> running (bc_io_walk_sequential_report_error config s path stage e).
Proof.
  intros [Hf HI]. unfold bc_io_walk_sequential_report_error.
  destruct (on_error config) as [f|] eqn:E; [|done]. split; [done|]. by eapply error_ok.
Qed.

Lemma count_running f s : running s -> running (count_stats f s).
Proof. done. Qed.

(** The verdict on an entry. *)
Definition verdict_ok (len : Z) (v : verdict) : Prop :=
  match v with
  | Continue s => running s
  | Break s => state_ok s /\ visit_failed s = true
  | Descend s path len' _ => running s /\ len < len' < BC_IO_MAX_PATH_LENGTH /\
      len' <= zlen path /\ 0 ∈ path
  end.

Lemma dispatch_ok len s e :
  running s -> len < absolute_path_length e < BC_IO_MAX_PATH_LENGTH ->
  absolute_path_length e <= zlen (absolute_path e) -> 0 ∈ absolute_path e ->
  safe (sequential_dispatch config s e) (verdict_ok len).
Proof.
  intros Hs Hlen Hz H0. unfold sequential_dispatch, ask, call.
  assert (Hfil : running (let '(b, u) := match filter_fn config with Some f => f e (client s)
    | None => (true, client s) end in set_client u s)).
  { destruct (filter_fn config) as [f|] eqn:E; [|done].
    pose proof (filter_ok ok f e (client s) E (proj2 Hs)). destruct (f e (client s)). by split; [apply Hs|]. }
  destruct (match filter_fn config with Some f => f e (client s) | None => (true, client s) end) as [b u].
  destruct b; simpl; [|done].
  destruct (visit config) as [v|] eqn:Ev; [|done].
  assert (Hvis : forall s, running s -> let '(b, u) := v e (client s) in
    if b : bool then running (set_client u s) else state_ok (set_visit_failed (set_client u s))).
  { intros s' [Hf HI]. pose proof (visit_ok ok v e (client s') Ev HI). destruct (v e (client s')) as [[] u']; done. }
  destruct (decide (kind e = BC_IO_WALK_ENTRY_FILE)).
  { rewrite bool_decide_false by done.
    specialize (Hvis (count_stats count_file (set_client u s)) Hfil). simpl in Hvis.
    destruct (v e u) as [[] u']; simpl; [done|by split]. }
  destruct (decide (kind e = BC_IO_WALK_ENTRY_DIRECTORY)); [|done].
  specialize (Hvis _ Hfil). simpl in Hvis. destruct (v e u) as [[] u']; simpl; [|by split].
  destruct (should_descend config) as [f|] eqn:E; simpl; [|split_and!; done || lia].
  pose proof (descend_ok ok f e u' E (proj2 Hvis)). destruct (f e u') as [[] u2]; simpl.
  - split; [split; [apply Hs|done]|]. split_and!; done || lia.
  - split; [apply Hs|done].
Qed.

(** A path the walkers may hand on: its length is that of a path that fits, and
    the memory behind it ends in a terminator. *)
Definition path_ok (path : list Z) (len : Z) : Prop :=
  0 < len < BC_IO_MAX_PATH_LENGTH /\ len <= zlen path /\ 0 ∈ path.

Lemma entry_spec s dfd path len dep e d w :
  running s -> path_ok path len -> tells e d -> dirent_ok d ->
  wp (sequential_entry config stack s dfd path len dep e)
    (fun v w' => quiet w w' /\ verdict_ok len v) w.
Proof.
  intros Hs (Hlen & Hz & H0) He (Hd0 & Hne & Hrec). pose proof He as (Hname & Hnl & _ & Hbig).
  assert (Hnpos : 0 < zlen (d_name d)).
  { destruct (d_name d); [done|]. rewrite zlen_cons. pose proof (zlen_nonneg l). lia. }
  assert (zlen (d_name d) < 65536).
  { unfold d_reclen in Hrec. pose proof (zlen_nonneg (d_pad d)). lia. }
  unfold sequential_entry. destruct (peek_in_range (entry_name e) 0) as [c Hc]; [lia|].
  apply wp_bind, wp_lift. rewrite Hc. simpl.
  destruct (decide (c = ch "." /\ include_hidden config = false)); [by apply wp_ret|].
  unfold BC_IO_MAX_PATH_LENGTH in *.
  apply wp_bind, wp_lift. rewrite path_join_spec by (unfold u64_modulus; lia). simpl.
  set (j := joined _ _). destruct (decide (zlen j + 1 <= 4096)) as [Hfit|Hfit].
  2: { apply wp_ret. split; [done|]. by apply report_error_running. }
  assert (Hj : len < zlen j).
  { subst j. unfold joined. rewrite decide_False.
    - rewrite zlen_app, zlen_cons, !zlen_ztake. lia.
    - intros E. apply (f_equal zlen) in E. change (zlen []) with 0 in E. rewrite zlen_ztake in E. lia. }
  apply wp_bind. eapply wp_mono.
  { apply walk_resolve_quiet. apply tells_terminated in He. unfold terminated in He.
    by destruct (decide (0 ∈ entry_name e)). }
  intros [r|] w' [Hq _].
  - apply wp_lift. eapply safe_mono; [apply (dispatch_ok len)|]; simpl.
    + done.
    + unfold BC_IO_MAX_PATH_LENGTH. lia.
    + rewrite zlen_app, zlen_cons. pose proof (zlen_nonneg (zdrop (zlen j + 1) stack)). lia.
    + set_solver.
    + by intros v Hv.
  - apply wp_bind, wp_get_errno, wp_ret. split; [done|]. by apply report_error_running.
Qed.

Notation state := (bc_io_walk_sequential_state_t U).

(** Enough laps for the loops from [w] on. *)
Definition laps_enough (laps : nat) (w : world) : Prop :=
  Z.of_nat (patience (env w)) * 8193 < Z.of_nat laps.

Lemma laps_enough_later laps w w' :
  (patience (env w') <= patience (env w))%nat -> laps_enough laps w -> laps_enough laps w'.
Proof. unfold laps_enough. lia. Qed.

(** What a call that walks a directory promises. *)
Definition walks (deep : Z) (laps : nat) (walk : state -> list Z -> Z -> Z -> M state) : Prop :=
  forall s path len dep w,
    wf_world w -> state_ok s -> path_ok path len -> BC_IO_MAX_PATH_LENGTH - len <= deep ->
    laps_enough laps w ->
    wp (walk s path len dep) (fun s' w' => evolved (heap w) nothing w w' /\ state_ok s') w.

(** An entry, and the walk below it when it is a directory to descend into. *)
Lemma entry_then deep laps recurse s dfd path len dep e d w again (Q : state -> world -> Prop) :
  walks deep laps recurse -> BC_IO_MAX_PATH_LENGTH - len <= deep + 1 ->
  wf_world w -> running s -> path_ok path len -> laps_enough laps w -> tells e d -> dirent_ok d ->
  (forall s' w', evolved (heap w) nothing w w' -> state_ok s' -> wp (again s') Q w') ->
  (forall s' w', evolved (heap w) nothing w w' -> state_ok s' -> Q s' w') ->
  wp (v ← sequential_entry config stack s dfd path len dep e;
      match v with
      | Continue s => again s
      | Break s => mret s
      | Descend s path length child_depth => s ← recurse s path length child_depth; again s
      end) Q w.
Proof.
  intros Hrec Hdeep Hwf Hs Hpath Hlaps He Hd Hagain Hbreak. apply wp_bind.
  eapply wp_mono; [by apply (entry_spec s dfd path len dep e d w)|].
  intros v w3 [Hq3 Hv]. pose proof (evolved_quiet _ _ Hq3 Hwf) as He3.
  destruct v as [s2|s2|s2 path' len' dep'].
  - by apply Hagain, running_ok.
  - apply wp_ret. apply Hbreak; [done|apply Hv].
  - destruct Hv as (Hrun2 & Hlen' & Hz' & H0'). pose proof Hpath as [Hlen _]. apply wp_bind. eapply wp_mono.
    { apply (Hrec s2 path' len' dep' w3); [apply He3|by apply running_ok|split_and!; try done; lia|lia|].
      eapply laps_enough_later; [apply He3|done]. }
    intros s3 w4 [He4 Hs3]. rewrite (evolved_heap _ _ _ _ He3) in He4. apply Hagain; [|done].
    eapply evolved_ext; [eapply evolved_trans; [exact He3|exact He4]|done|intros x; unfold nothing; lia].
Qed.

Lemma loop_spec deep laps recurse fuel s p dfd path len dep r w :
  walks deep laps recurse -> BC_IO_MAX_PATH_LENGTH - len <= deep + 1 ->
  wf_world w -> heap w !! p = Some (OReader r) -> reader_ok r -> state_ok s -> path_ok path len ->
  laps_enough laps w -> (turns r w < laps)%nat -> (turns r w < fuel)%nat ->
  wp (sequential_loop config stack recurse fuel laps s p dfd path len dep)
    (fun s' w' => exists r', evolved (<[p := OReader r']> (heap w)) nothing w w' /\ state_ok s') w.
Proof.
  intros Hrec Hdeep. revert s r w. induction fuel as [|fuel IH];
    intros s r w Hwf Hp Hr Hs Hpath Hlaps Hturns Hfuel; [lia|]. cbn [sequential_loop].
  assert (Hstay : forall s', state_ok s' -> exists r', evolved (<[p := OReader r']> (heap w)) nothing w w /\ state_ok s').
  { intros s' Hs'. exists r. split; [|done]. rewrite insert_id by done. by apply evolved_refl. }
  destruct (visit_failed s) eqn:Ef; [apply wp_ret; by apply Hstay|].
  assert (Hrun : running s) by (unfold state_ok in Hs; by rewrite Ef in Hs).
  pose proof (should_stop_running s Hrun) as Hrun'.
  destruct (bc_io_walk_sequential_should_stop config s) as [stop s1]. simpl in Hrun'.
  destruct stop; [apply wp_ret; by apply Hstay, running_ok|]. clear Hrun Hs Ef.
  apply wp_bind. eapply wp_load_reader; [done|].
  apply wp_bind. eapply wp_mono; [by apply next_spec|]. intros [answer r1] w1.
  intros (Hq & Htr & Hr1 & _ & Hle & Hans). apply wp_bind.
  pose proof (evolved_quiet _ _ Hq Hwf) as [Hh1 Hd1 Hwf1 Hp1].
  eapply wp_store; [by rewrite Hh1|]. rewrite Hh1.
  set (w2 := mk_world _ _ _ _ _).
  assert (He2 : evolved (<[p := OReader r1]> (heap w)) nothing w w2).
  { split; [done|exact Hd1| |done]. unfold wf_world in *. simpl. rewrite Hh1 in Hwf1.
    rewrite dom_insert_L. apply elem_of_dom_2 in Hp. set_solver. }
  assert (Hdone : forall s', state_ok s' ->
    exists r', evolved (<[p := OReader r']> (heap w)) nothing w w2 /\ state_ok s') by (by exists r1).
  destruct answer as [[e|]|].
  - destruct Hans as [Hlt (d & Htells & Hd & _)].
    assert (Hreach : forall s' w', evolved (heap w2) nothing w2 w' -> state_ok s' ->
      evolved (<[p := OReader r1]> (heap w)) nothing w w').
    { intros s' w' He' _. rewrite (evolved_heap _ _ _ _ He2) in He'.
      eapply evolved_ext; [eapply evolved_trans; [exact He2|exact He']|done|intros x; unfold nothing; lia]. }
    apply (entry_then deep laps recurse s1 dfd path len dep e d w2); try done.
    + apply He2.
    + eapply laps_enough_later; [apply He2|done].
    + intros s' w4 He4 Hs'. pose proof (Hreach s' w4 He4 Hs') as He. pose proof (evolved_heap _ _ _ _ He) as Hh4.
      assert (Hturns4 : (turns r1 w4 <= turns r1 w1)%nat).
      { unfold turns. pose proof (evolved_patience _ _ _ _ He4) as Hpat4. simpl in Hpat4. lia. }
      eapply wp_mono; [apply (IH s' r1 w4)|]; try done; try lia.
      * apply He.
      * rewrite Hh4. by simplify_map_eq.
      * eapply laps_enough_later; [|done]. apply He.
      * intros s2 w5 (r2 & He5 & Hs2). exists r2. split; [|done].
        eapply evolved_ext; [eapply evolved_trans; [exact He|exact He5]| |intros x; unfold nothing; lia].
        by rewrite Hh4, insert_insert_eq.
    + intros s' w4 He4 Hs'. exists r1. split; [by eapply Hreach|done].
  - apply wp_ret. by apply Hdone, running_ok.
  - apply wp_ret. by apply Hdone, running_ok, report_error_running.
Qed.

Lemma new_reader_turns r w : reader_used r = 0 -> cursor r = 0 -> turns r w = Z.to_nat (Z.of_nat (patience (env w)) * 8193).
Proof. intros Hu Hc. unfold turns. rewrite Hu, Hc. f_equal. Qed.

(** Walking a directory: nothing is held or left at the end. *)
Lemma recurse_spec deep laps : walks (Z.of_nat deep - 1) laps (bc_io_walk_sequential_recurse config stack deep laps).
Proof.
  induction deep as [|deep IH]; intros s path len dep w Hwf Hs Hpath Hdeep Hlaps.
  { destruct Hpath as [? _]. lia. }
  cbn [bc_io_walk_sequential_recurse].
  assert (Hstay : forall s', state_ok s' -> evolved (heap w) nothing w w /\ state_ok s').
  { intros s' Hs'. split; [by apply evolved_refl|done]. }
  destruct (visit_failed s) eqn:Ef; [apply wp_ret; by apply Hstay|].
  assert (Hrun : running s) by (unfold state_ok in Hs; by rewrite Ef in Hs).
  pose proof (should_stop_running s Hrun) as Hrun'.
  destruct (bc_io_walk_sequential_should_stop config s) as [stop s1]. simpl in Hrun'.
  destruct stop; [apply wp_ret; by apply Hstay, running_ok|]. clear Hrun Hs Ef Hstay.
  apply wp_bind, wp_lift. pose proof Hpath as (Hlen & _ & H0). unfold terminated. rewrite decide_True by done. simpl.
  set (flags := walk_open_flags _). clearbody flags.
  apply wp_bind. eapply (wp_mono _ (fun fd w1 =>
    evolved (heap w) (tokens (if decide (fd < 0) then [] else [RFd fd])) w w1)).
  { apply wp_open; intros.
    - rewrite decide_False by lia. solve_evolved.
    - rewrite decide_True by lia. solve_evolved. }
  intros fd w1 He1. destruct (decide (fd < 0)).
  { apply wp_bind, wp_get_errno, wp_ret. split; [exact He1|]. by apply running_ok, report_error_running. }
  apply wp_bind. eapply wp_mono; [apply reader_create_spec, He1|].
  rewrite (evolved_heap _ _ _ _ He1). intros [p|] w2.
  - intros (r & Hp & Hp0 & Hr & _ & Hu & Hc & _ & He2).
    pose proof (evolved_trans _ _ _ _ _ _ _ He1 He2) as He. clear He1 He2.
    pose proof (evolved_patience _ _ _ _ He) as Hpat. pose proof (evolved_heap _ _ _ _ He) as Hh.
    assert (Ht : (turns r w2 < laps)%nat).
    { rewrite new_reader_turns by done. unfold laps_enough in Hlaps. lia. }
    apply wp_bind. eapply wp_mono.
    { eapply (loop_spec (Z.of_nat deep - 1) laps _ laps (count_stats count_directory s1) p fd path len dep r w2);
        [done|lia|apply He|by rewrite Hh; simplify_map_eq|done|by apply running_ok|done| |done|done].
      by eapply laps_enough_later. }
    intros s2 w3 (r2 & He3 & Hs2). pose proof (evolved_trans _ _ _ _ _ _ _ He He3) as He4.
    rewrite Hh, insert_insert_eq in He4.
    apply wp_bind. eapply wp_mono; [by eapply reader_destroy_spec|]. intros ? w4 He5.
    apply wp_bind. eapply wp_mono; [exact (evolved_close _ _ _ _ _ He5)|]. intros ? w5 He6. apply wp_ret.
    split; [|done]. eapply evolved_ext; [exact He6|done|]. intros x. unfold nothing. simpl. lia.
  - intros He2. pose proof (evolved_trans _ _ _ _ _ _ _ He1 He2) as He.
    apply wp_bind. eapply wp_mono; [exact (evolved_close _ _ _ _ _ He)|]. intros ? w3 He3. apply wp_ret.
    split; [|by apply running_ok, report_error_running].
    eapply evolved_ext; [exact He3|done|]. intros x. unfold nothing. simpl. lia.
Qed.
End laws.

(** A configuration that [bc_io_walk_sequential] accepts. *)
Definition usable {U} (config : bc_io_walk_config_t U) : bool :=
  bool_decide (is_Some (root config)) &&
  bool_decide (0 < root_length config < BC_IO_MAX_PATH_LENGTH) &&
  bool_decide (is_Some (visit config)) && bool_decide (is_Some (main_memory_context config)).

(** The root is a string of at least the length given. *)
Definition root_ok {U} (config : bc_io_walk_config_t U) : Prop :=
  0 <= root_length config /\
  forall r, root config = Some r -> root_length config <= zlen r /\ 0 ∈ r.

Section properties.
Context {PF : Platform} {PL : PlatformLaws PF} {U : Type}.

Lemma sequential_walk_spec stack deep laps (config : bc_io_walk_config_t U) I J out_stats u w :
  zlen stack = BC_IO_MAX_PATH_LENGTH -> root_ok config -> wf_world w ->
  BC_IO_MAX_PATH_LENGTH <= Z.of_nat deep -> laps_enough laps w ->
  client_ok config I J -> I u ->
  wp (bc_io_walk_sequential stack deep laps (Some config) out_stats u)
    (fun '(ok, out, u') w' => evolved (heap w) nothing w w' /\
       (is_Some out <-> is_Some out_stats) /\
       if usable config then (if ok : bool then I u' else J u')
       else ok = false /\ out = out_stats /\ u' = u /\ w' = w) w.
Proof.
  intros Hstack [Hlen0 Hroot] Hwf Hdeep Hlaps Hok HI. unfold bc_io_walk_sequential.
  assert (Hno : usable config = false -> wp (mret (false, out_stats, u))
    (fun '(ok, out, u') w' => evolved (heap w) nothing w w' /\
       (is_Some out <-> is_Some out_stats) /\
       if usable config then (if ok : bool then I u' else J u')
       else ok = false /\ out = out_stats /\ u' = u /\ w' = w) w).
  { intros ->. apply wp_ret. split_and!; try done. by apply evolved_refl. }
  unfold usable in *. destruct (root config) as [r|] eqn:Er; [|by apply Hno].
  destruct (decide (root_length config = 0 \/ BC_IO_MAX_PATH_LENGTH <= root_length config)).
  { apply Hno. rewrite (bool_decide_false (0 < _ < _)) by lia. by rewrite andb_false_r. }
  destruct (visit config) as [v|] eqn:Ev; [|apply Hno; simpl; by rewrite andb_false_r].
  rewrite (bool_decide_false (Some v = None)) by done.
  destruct (main_memory_context config) as [[]|]; [|apply Hno; simpl; by rewrite andb_false_r].
  rewrite (bool_decide_true (0 < _ < _)) by lia. simpl.
  apply wp_bind. eapply wp_mono.
  { apply (recurse_spec config stack Hstack ltac:(by rewrite Ev) I J Hok deep laps); try done.
    - split; [lia|]. by apply Hroot.
    - lia. }
  intros s' w' [He Hs']. apply wp_ret. split_and!; [done|by destruct out_stats|..].
  unfold state_ok in Hs'. by destruct (visit_failed s').
Qed.

(** ** Properties *)

(** C11. On any kernel, with any callbacks, [bc_io_walk_sequential] ends within the
    fuel, without undefined behaviour, and gives everything back: every directory
    it opened is closed and every reader freed exactly once, on every path (open
    or allocation or [getdents64] or [stat] fails, a path is too long, the client
    stops or refuses, directories nested however deep).  Unusable configurations
    are refused before anything happens. *)
Theorem sequential_walk_balanced stack deep laps (config : bc_io_walk_config_t U) out_stats u w :
  zlen stack = BC_IO_MAX_PATH_LENGTH -> root_ok config -> wf_world w ->
  BC_IO_MAX_PATH_LENGTH <= Z.of_nat deep -> laps_enough laps w ->
  wp (bc_io_walk_sequential stack deep laps (Some config) out_stats u)
    (fun '(ok, out, u') w' => heap w' = heap w /\ (forall x, held w' x = held w x) /\
       (is_Some out <-> is_Some out_stats) /\
       (usable config = false -> ok = false /\ out = out_stats /\ u' = u /\ w' = w)) w.
Proof.
  intros Hstack Hroot Hwf Hdeep Hlaps. eapply wp_mono.
  { apply (sequential_walk_spec stack deep laps config (fun _ => True) (fun _ => True)); try done.
    split; try done. intros f e u0 _ _. by destruct (f e u0) as [[] ?]. }
  intros [[ok out] u'] w' (He & Hout & Hu). apply evolved_balanced in He as [Hh Hd].
  split_and!; try done; [apply Hout..|]. intros E. by rewrite E in Hu.
Qed.

(** C19. The walk keeps the client's protocol: once [visit] has refused an entry no
    callback is called again.  Whatever the callbacks keep true of the client's
    state while no visit was refused ([I]), and whatever a refusal leaves ([J]),
    holds at the end, and the result tells which: true exactly when no visit was
    refused. *)
Theorem sequential_walk_stops_on_refusal stack deep laps (config : bc_io_walk_config_t U)
    (I J : U -> Prop) u w :
  zlen stack = BC_IO_MAX_PATH_LENGTH -> root_ok config -> wf_world w ->
  BC_IO_MAX_PATH_LENGTH <= Z.of_nat deep -> laps_enough laps w ->
  usable config = true -> client_ok config I J -> I u ->
  wp (bc_io_walk_sequential stack deep laps (Some config) None u)
    (fun '(ok, _, u') _ => if ok then I u' else J u') w.
Proof.
  intros Hstack Hroot Hwf Hdeep Hlaps Husable Hok HI.
  eapply wp_mono; [by apply sequential_walk_spec|].
  intros [[ok out] u'] w' (_ & _ & Hu). by rewrite Husable in Hu.
Qed.
End properties.

(** ** Witnesses *)

(** The root holds a file, a hidden file and a directory with a file and an entry
    of unknown type; the client counts its visits and refuses the [n]th. *)
Definition walk_record (s : string) (type : Z) : dirent := mk_dirent 7 1 type (bytes_of_string s) [0; 0].
Definition walk_script : script :=
  mk_script [] [] [] [SysOk (regular_file 5); SysOk (mk_stat 1 3 16877 1 0 0 0 0 0); SysErr 13;
                      SysOk (regular_file 6)] [] []
    [SysOk [walk_record "." 4; walk_record "a" 8; walk_record ".b" 8; walk_record "d" 4];
     SysOk [walk_record "e" 0; walk_record "f" 8]; SysOk []; SysOk []].

Definition counting_config (n : nat) : bc_io_walk_config_t nat :=
  mk_walk_config (Some (bytes_of_string "/r" ++ [0])) 2 (Some ()) None None 0 false false None None
    (Some (fun _ u => (bool_decide (S u < n)%nat, S u))) None.

Definition fresh_stack : list Z := zrepeat 90 4096.

Example counting_walk_run :
  safe (bc_io_walk_sequential fresh_stack 4096 100 (Some (counting_config 9)) (Some zero_walk_stats) 0%nat
          (scripted_world walk_script))
    (fun '(r, w) => r = (true, Some (mk_walk_stats 2 2 0 1), 3%nat)).
Proof. vm_compute. reflexivity. Qed.

Lemma counting_ok n : client_ok (counting_config n) (fun u => u < n)%nat (fun u => u = n).
Proof.
  split; simpl; intros; simplify_eq. simpl. case_bool_decide; lia.
Qed.

Lemma sequential_walk_balanced_witness :
  wp (bc_io_walk_sequential fresh_stack 4096 (Z.to_nat 40000) (Some (counting_config 9)) None 0%nat)
    (fun '(ok, out, u') w' => heap w' = ∅ /\ (forall x, held w' x = 0) /\
       (is_Some out <-> is_Some (@None bc_io_walk_stats_t)) /\
       (usable (counting_config 9) = false ->
        ok = false /\ out = None /\ u' = 0%nat /\ w' = scripted_world walk_script))
    (scripted_world walk_script).
Proof.
  apply (sequential_walk_balanced fresh_stack 4096 (Z.to_nat 40000) (counting_config 9) None 0%nat
           (scripted_world walk_script));
    [by vm_compute| |apply scripted_world_wf|by vm_compute|by vm_compute].
  split; [done|]. intros r [= <-]. split; [by vm_compute|]. refine (bool_decide_unpack _ _). by vm_compute.
Defined.

(** The client refuses its second visit, and is not called again. *)
Lemma sequential_walk_stops_on_refusal_witness :
  wp (bc_io_walk_sequential fresh_stack 4096 (Z.to_nat 40000) (Some (counting_config 2)) None 0%nat)
    (fun '(ok, _, u') _ => if ok : bool then (u' < 2)%nat else u' = 2%nat)
    (scripted_world walk_script).
Proof.
  apply (sequential_walk_stops_on_refusal fresh_stack 4096 (Z.to_nat 40000) (counting_config 2)
           (fun u => u < 2)%nat (fun u => u = 2%nat) 0%nat (scripted_world walk_script));
    [by vm_compute| |apply scripted_world_wf|by vm_compute|by vm_compute|by vm_compute|apply counting_ok|lia].
  split; [done|]. intros r [= <-]. split; [by vm_compute|]. refine (bool_decide_unpack _ _). by vm_compute.
Defined.
