(* ===== verification/WalkPreorder.v ===== *)
(** * The sequential walk makes the tour

    On a file system that does not change, and with an allocator that does not
    refuse, the client of [bc_io_walk_sequential] is told exactly the events of
    [tour], in its order, and the statistics count them. *)

From S2P Require Import Prelude Platform Objects Machine FilePath DirentReader.
From S2P Require Import Scripted WalkEntry WalkSpec SnapshotKernel WalkSequential.

Section preorder.
Context {PF : Platform} {PL : PlatformLaws PF}.
Context {SN : Snapshot platform_kernel} {SL : SnapshotLaws SN}.

(** ** System calls on the snapshot *)

Definition undisturbed (w w' : world) : Prop :=
  mem w' = mem w /\ heap w' = heap w /\ opened (env w') = opened (env w) /\
  patience (env w') = patience (env w).

Lemma undisturbed_refl w : undisturbed w w.
Proof. done. Qed.

Lemma undisturbed_trans w1 w2 w3 : undisturbed w1 w2 -> undisturbed w2 w3 -> undisturbed w1 w3.
Proof. intros (? & ? & ? & ?) (? & ? & ? & ?). split_and!; congruence. Qed.

Lemma wp_snap_fstatat dfd dir bs name flags Q w :
  opened (env w) !! dfd = Some (dir, bs) ->
  (forall st w', tree_stat dir name flags = SysOk st -> undisturbed w w' -> Q (Some st) w') ->
  (forall e w', tree_stat dir name flags = SysErr e -> undisturbed w w' -> errno w' = e -> Q None w') ->
  wp (fstatat dfd name flags) Q w.
Proof.
  intros Ho Hok Herr. destruct (snap_fstatat (env w) dfd dir bs name flags Ho) as (k & E & Hk & Hp).
  apply wp_syscall; intros x k' E'; rewrite E in E'; injection E' as Hx <-.
  - by eapply Hok.
  - by eapply Herr.
Qed.

(** ** One call of the reader *)

Definition batches_ok (bs : list (list dirent)) : Prop := Forall (fun b => b <> [] /\ Forall dirent_ok b) bs.

(** What a call of the reader on [fd] leaves when [all] records are to come, [n]
    batches of them still with the kernel. *)
Definition answered (fd : Z) (w : world) (dir : list Z) (all : list dirent) (n : nat)
    (answer : option bc_io_dirent_entry_t) (r' : bc_io_dirent_reader_t) (w' : world) : Prop :=
  mem w' = mem w /\ heap w' = heap w /\ dir_fd r' = fd /\
  match answer with
  | None => listed all = [] /\ reader_holds r' [] /\
      opened (env w') = <[fd := (dir, [])]> (opened (env w)) /\
      patience (env w) = (patience (env w') + n)%nat
  | Some e => exists d ds' bs',
      listed all = d :: listed (ds' ++ concat bs') /\ tells e d /\ dirent_ok d /\
      reader_holds r' ds' /\ Forall dirent_ok ds' /\ batches_ok bs' /\
      opened (env w') = <[fd := (dir, bs')]> (opened (env w)) /\
      (patience (env w) + length bs' = patience (env w') + n)%nat /\
      (length (ds' ++ concat bs') < length all)%nat
  end.

Lemma answered_skip fd w dir d all n answer r' w' :
  is_dot d = true -> answered fd w dir all n answer r' w' -> answered fd w dir (d :: all) n answer r' w'.
Proof.
  intros Hd (Hm & Hh & Hfd & Hans). unfold answered, listed in *. rewrite filter_cons.
  rewrite decide_False by (rewrite Hd; done). split_and!; [done..|].
  destruct answer as [e|]; [|done]. destruct Hans as (d' & ds' & bs' & ? & ? & ? & ? & ? & ? & ? & ? & ?).
  exists d', ds', bs'. split_and!; try done. simpl. lia.
Qed.

Lemma answered_refill fd w k e dir all bs n answer r' w' :
  opened k = <[fd := (dir, bs)]> (opened (env w)) -> patience (env w) = (patience k + 1)%nat ->
  answered fd (after_call w k e []) dir all n answer r' w' -> answered fd w dir all (S n) answer r' w'.
Proof.
  intros Hk Hp (Hm & Hh & Hfd & Hans). simpl in Hans. rewrite Hk in Hans. split_and!; [done..|].
  destruct answer as [e'|].
  - destruct Hans as (d' & ds' & bs' & ? & ? & ? & ? & ? & ? & Ho' & ? & ?).
    exists d', ds', bs'. split_and!; try done; [by rewrite Ho', insert_insert_eq|lia].
  - destruct Hans as (? & ? & Ho' & ?). split_and!; [done|done|by rewrite Ho', insert_insert_eq|lia].
Qed.

Lemma next_snapshot fuel r w dir ds bs :
  reader_holds r ds -> Forall dirent_ok ds -> opened (env w) !! dir_fd r = Some (dir, bs) ->
  batches_ok bs -> (length bs <= patience (env w))%nat -> (length (ds ++ concat bs) < fuel)%nat ->
  exists answer r' w', bc_io_dirent_reader_next fuel r w = Done (Some answer, r', w') /\
    answered (dir_fd r) w dir (ds ++ concat bs) (length bs) answer r' w'.
Proof.
  revert r w ds bs. induction fuel as [|fuel IH]; intros r w ds bs Hr Hds Ho Hbs Hpat Hfuel; [lia|].
  assert (Hrecord : forall r w d ds bs, reader_holds r (d :: ds) -> Forall dirent_ok (d :: ds) ->
    opened (env w) !! dir_fd r = Some (dir, bs) -> batches_ok bs -> (length bs <= patience (env w))%nat ->
    (length ((d :: ds) ++ concat bs) < S fuel)%nat ->
    exists answer r' w', bc_io_dirent_reader_next (S fuel) r w = Done (Some answer, r', w') /\
      answered (dir_fd r) w dir ((d :: ds) ++ concat bs) (length bs) answer r' w').
  { clear r w ds bs Hr Hds Ho Hbs Hpat Hfuel.
    intros r w d ds bs Hr [Hd Hds]%Forall_cons Ho Hbs Hpat Hfuel. simpl in Hfuel.
    destruct (next_record fuel r d ds w Hr Hd) as (r' & Hr' & Efd & _ & _ & _ & H).
    destruct (is_dot d) eqn:Edot.
    - rewrite H. destruct (IH r' w ds bs) as (answer & r2 & w2 & E & Htold);
        [done|done|by rewrite Efd|done|done|lia|]. rewrite Efd in *.
      exists answer, r2, w2. split; [done|by apply answered_skip].
    - destruct H as (e & He & E). exists (Some e), r', w. split; [done|]. split_and!; try done.
      exists d, ds, bs. unfold listed. rewrite <- app_comm_cons, filter_cons, (decide_True (P := is_dot d = false)) by done.
      split_and!; try done; [by rewrite insert_id|simpl; lia]. }
  destruct ds as [|d ds]; [|by apply Hrecord].
  destruct bs as [|b bs].
  - destruct (snap_end (env w) (dir_fd r) dir Ho) as (k & Hsys & Hk & Hp).
    exists None, r, (after_call w k (errno w) []). rewrite (next_end fuel r w k Hr Hsys).
    split; [done|]. repeat split; [done| |simpl; lia]. simpl. by rewrite Hk, insert_id.
  - apply Forall_cons in Hbs as [[Hb Hok] Hbs]. simpl in Hpat.
    destruct (snap_batch (env w) (dir_fd r) dir b bs Ho) as (k1 & Hsys & Hk & Hp); [lia|].
    destruct b as [|d b]; [done|].
    destruct (next_refill fuel r (d :: b) w k1 Hr Hb Hsys) as (r1 & Hr1 & Efd & E). rewrite E.
    destruct (Hrecord r1 (after_call w k1 (errno w) []) d b bs Hr1 Hok) as (answer & r2 & w2 & E2 & Htold);
      [|done|simpl; lia|done|].
    { simpl. rewrite Efd, Hk. by simplify_map_eq. }
    rewrite Efd in Htold. exists answer, r2, w2. split; [done|]. eapply answered_refill; [exact Hk|lia|exact Htold].
Qed.

(** ** Entries *)

Section observed.
Variable stack : list Z.
Hypothesis stack_size : zlen stack = BC_IO_MAX_PATH_LENGTH.
Variable follow hidden : bool.
Variable accept descend : bc_io_walk_entry_t -> bool.
Variable root_block : list Z.
Variable root_len : Z.
Notation config := (observer root_block root_len follow hidden accept descend).
Notation state := (bc_io_walk_sequential_state_t (list tour_event)).

Lemma walk_resolve_tour dfd dir bs e d w :
  opened (env w) !! dfd = Some (dir, bs) -> tells e d ->
  wp (walk_resolve follow dfd e)
    (fun r w' => undisturbed w w' /\
       match tour_resolve follow dir d with
       | SysOk x => r = Some x
       | SysErr er => r = None /\ errno w' = er
       end) w.
Proof.
  intros Ho He. pose proof He as (_ & _ & Htype & _).
  unfold walk_resolve, tour_resolve. apply wp_bind, wp_lift. rewrite (tells_terminated _ _ He). simpl.
  rewrite Htype.
  assert (Hrefine : forall r populated w1, undisturbed w w1 ->
    wp (let entry_kind := bc_io_walk_sequential_entry_kind_from_type (r_type r) in
        if needs_stat follow populated entry_kind then
          let stat_flags := if follow then 0 else AT_SYMLINK_NOFOLLOW in
          stat_buffer ← fstatat dfd (d_name d) stat_flags;
          match stat_buffer with
          | None => mret None
          | Some st => mret (Some (resolved_by_stat follow entry_kind st))
          end
        else
          mret (Some (mk_walk_resolved entry_kind (r_size r) (r_device r) (r_inode r)
                        (r_modification_time r) 0 populated)))
      (fun r' w' => undisturbed w w' /\
         match (let k := bc_io_walk_sequential_entry_kind_from_type (r_type r) in
                if needs_stat follow populated k then
                  match tree_stat dir (d_name d) (if follow then 0 else AT_SYMLINK_NOFOLLOW) with
                  | SysOk st => SysOk (resolved_by_stat follow k st)
                  | SysErr e => SysErr e
                  end
                else SysOk (mk_walk_resolved k (r_size r) (r_device r) (r_inode r) (r_modification_time r) 0 populated))
         with
         | SysOk x => r' = Some x
         | SysErr er => r' = None /\ errno w' = er
         end) w1).
  { intros r populated w1 H1. simpl. destruct (needs_stat _ _ _); [|by apply wp_ret].
    apply wp_bind. apply (wp_snap_fstatat dfd dir bs).
    - destruct H1 as (_ & _ & -> & _). exact Ho.
    - intros st w2 -> H2. apply wp_ret. split; [by eapply undisturbed_trans|done].
    - intros er w2 -> H2 Her. apply wp_ret. split; [by eapply undisturbed_trans|done]. }
  destruct (decide (d_type d = DT_UNKNOWN)) as [E|E].
  - rewrite decide_False by tauto. apply wp_bind, wp_bind, wp_bind.
    eapply (wp_snap_fstatat dfd dir bs); [done|..].
    + intros st w1 -> H1. do 2 apply wp_ret. simpl. exact (Hrefine (mk_resolved _ _ _ _ _) true w1 H1).
    + intros er w1 -> H1 Her. by do 3 apply wp_ret.
  - rewrite decide_True by done. apply wp_bind, wp_ret.
    exact (Hrefine (mk_resolved _ 0 0 0 0) false w (undisturbed_refl w)).
Qed.

(** The client was told these events and the counters count them. *)
Definition noted (evs : list tour_event) (s s' : state) : Prop :=
  client s' = client s ++ told evs /\ walk_stats s' = add_stats (walk_stats s) evs /\
  visit_failed s' = visit_failed s.

Lemma noted_trans evs evs' s1 s2 s3 :
  noted evs s1 s2 -> noted evs' s2 s3 -> noted (evs ++ evs') s1 s3.
Proof.
  intros (Hc & Hst & Hf) (Hc' & Hst' & Hf'). split_and!; [|by rewrite Hst', Hst, add_stats_app|congruence].
  by rewrite Hc', Hc, told_app, app_assoc.
Qed.

Definition small_stats (t : bc_io_walk_stats_t) : Prop :=
  is_u64 (files_visited t) /\ is_u64 (directories_visited t) /\ is_u64 (files_skipped t) /\
  is_u64 (errors_encountered t).

Lemma add_stats_nil t : small_stats t -> add_stats t [] = t.
Proof.
  intros (? & ? & ? & ?). unfold add_stats, tally. simpl. change (zlen []) with 0. rewrite !Z.add_0_r.
  rewrite !wrap64_small by done. by destruct t.
Qed.

Lemma noted_nothing s : small_stats (walk_stats s) -> noted [] s s.
Proof. intros Hs. split_and!; [by rewrite app_nil_r|by rewrite add_stats_nil|done]. Qed.

Lemma add_stats_small t evs : small_stats (add_stats t evs).
Proof. split_and!; apply wrap64_range. Qed.

Lemma noted_small evs s s' : noted evs s s' -> small_stats (walk_stats s').
Proof. intros (_ & -> & _). apply add_stats_small. Qed.

(** One event. *)
Lemma noted_one ev s s' :
  small_stats (walk_stats s) -> client s' = client s ++ told [ev] ->
  walk_stats s' =
    (match ev with
     | TDirectory _ _ => count_directory
     | TVisit e => if decide (kind e = BC_IO_WALK_ENTRY_FILE) then count_file else id
     | TSkip _ => count_skipped
     | TError _ _ _ => count_error
     end) (walk_stats s) -> visit_failed s' = visit_failed s -> noted [ev] s s'.
Proof.
  intros (Hf & Hd & Hk & He) Hc Hst Hfail. split_and!; [done| |done]. rewrite Hst. clear Hst Hc.
  unfold add_stats, tally. destruct (walk_stats s) as [f d k e], ev as [p n|x|x|p st er]; simpl in *.
  all: change (zlen [_]) with 1; change (zlen []) with 0; rewrite ?Z.add_0_r.
  all: try by rewrite !(wrap64_small _) by done.
  all: unfold count_directory, count_skipped, count_error, count_file; simpl.
  2: { rewrite <- decide_bool_decide. case_decide; simpl; change (zlen [_]) with 1;
         change (zlen []) with 0; rewrite ?Z.add_0_r;
         by rewrite ?(wrap64_small d), ?(wrap64_small k), ?(wrap64_small e), ?(wrap64_small f). }
  all: by rewrite ?(wrap64_small d), ?(wrap64_small k), ?(wrap64_small e), ?(wrap64_small f).
Qed.

Lemma noted_refl_client (s : state) : set_client (client s) s = s.
Proof. by destruct s. Qed.

(** What the verdict on an entry is, against the tour of the entry. *)
Definition verdict_tours (T : list Z -> Z -> list tour_event) (path : list Z)
    (evs : list tour_event) (s : state) (v : verdict) : Prop :=
  match v with
  | Continue s' => noted evs s s' /\ cost evs = 0%nat
  | Break _ => False
  | Descend s' block len' dep' => exists e, noted [TVisit e] s s' /\
      evs = TVisit e :: T path dep' /\ holds_path block len' path /\
      zlen path < BC_IO_MAX_PATH_LENGTH
  end.

Lemma dispatch_tours T s block len path dep r :
  small_stats (walk_stats s) -> holds_path block len path -> zlen path < BC_IO_MAX_PATH_LENGTH ->
  let e := make_walk_entry path (zlen path) dep r in
  let evs :=
    if negb (accept e) then [TSkip e]
    else match kind e with
         | BC_IO_WALK_ENTRY_FILE => [TVisit e]
         | BC_IO_WALK_ENTRY_DIRECTORY => TVisit e :: (if descend e then T path (WalkEntry.depth e) else [])
         | _ => []
         end in
  safe (sequential_dispatch config s (make_walk_entry block len dep r)) (verdict_tours T path evs s).
Proof.
  intros Hsmall Hpath Hlen e evs. unfold sequential_dispatch, ask, call. simpl.
  rewrite (entry_view_make block len path dep r Hpath). fold e. subst evs.
  destruct (accept e); simpl; [|split; [apply noted_one; try done; simpl; by rewrite app_nil_r|done]].
  assert (Hkind : resolved_kind r = kind e) by done.
  destruct (decide (resolved_kind r = BC_IO_WALK_ENTRY_FILE)) as [Ef|Ef].
  { simpl. change (resolved_kind r) with (kind e) in *. rewrite Ef. split; [|done].
    apply noted_one; try done. simpl. by rewrite decide_True by done. }
  destruct (decide (resolved_kind r = BC_IO_WALK_ENTRY_DIRECTORY)) as [Ed|Ed].
  - simpl. rewrite Ed.
    assert (Hnoted : forall s', client s' = client s ++ [TVisit e] -> walk_stats s' = walk_stats s ->
      visit_failed s' = visit_failed s -> noted [TVisit e] s s').
    { intros s' Hc Hst Hf. apply noted_one; try done. rewrite decide_False by done. done. }
    destruct (descend e); simpl.
    + exists e. split_and!; try done. by apply Hnoted.
    + split; [by apply Hnoted|done].
  - rewrite noted_refl_client. destruct (resolved_kind r); try done; split; try done; by apply noted_nothing.
Qed.

Lemma report_error_noted s path block stage e :
  small_stats (walk_stats s) -> c_string block = path ->
  noted [TError path stage e] s (bc_io_walk_sequential_report_error config s block stage e).
Proof. intros Hs <-. by apply noted_one. Qed.

(** Joining the name of an entry to the path of its directory. *)
Lemma join_child block dlen dir e d :
  holds_path block dlen dir -> 0 < dlen < BC_IO_MAX_PATH_LENGTH -> tells e d -> dirent_ok d ->
  let path := child_of dir (d_name d) in
  peek (entry_name e) 0 = Done (hd 0 (d_name d)) /\ 0 ∉ path /\
  bc_io_file_path_join stack BC_IO_MAX_PATH_LENGTH block dlen (entry_name e) (entry_name_length e) =
    Done (if decide (zlen path + 1 <= BC_IO_MAX_PATH_LENGTH)
          then (Some (zlen path), path ++ 0 :: zdrop (zlen path + 1) stack) else (None, stack)).
Proof.
  intros Hblock Hlen (Hname & Hnl & _ & Hbig) (Hd0 & Hne & Hrec) path.
  pose proof Hblock as ((rest & Eb) & Hb0 & Edl).
  assert (Hrest : exists more, entry_name e = d_name d ++ 0 :: more).
  { destruct (c_string_split (entry_name e)) as [E|[more E]]; [rewrite Hname in E; rewrite E in Hbig; lia|].
    exists more. by rewrite <- Hname, <- E. }
  destruct Hrest as [more Hmore]. split_and!.
  { rewrite Hmore. apply peek_Done. split; [lia|]. by destruct (d_name d). }
  { subst path. unfold child_of. rewrite elem_of_app, elem_of_cons. intros [?|[?|?]]; [tauto|done|tauto]. }
  assert (Hn : zlen (d_name d) < 65536).
  { unfold d_reclen in Hrec. pose proof (zlen_nonneg (d_pad d)). lia. }
  unfold BC_IO_MAX_PATH_LENGTH in *. pose proof (zlen_nonneg (d_name d)).
  rewrite path_join_spec.
  2: { rewrite Eb, zlen_app, zlen_cons. pose proof (zlen_nonneg rest). lia. }
  2: { lia. }
  2: { unfold u64_modulus. lia. }
  2: { lia. }
  rewrite (holds_path_view _ _ _ Hblock).
  assert (Ename : ztake (entry_name_length e) (entry_name e) = d_name d).
  { rewrite Hmore, Hnl. by apply ztake_app. }
  rewrite Ename. unfold joined. rewrite (decide_False (P := dir = [])); [done|].
  intros ->. rewrite zlen_nil in Edl. lia.
Qed.

Lemma hidden_spec d :
  negb hidden && is_hidden d = bool_decide (hd 0 (d_name d) = ch "." /\ hidden = false).
Proof.
  unfold is_hidden. rewrite bool_decide_and. by destruct hidden; simpl; rewrite ?andb_false_r, ?andb_true_r.
Qed.

Lemma entry_tours T s dfd dir dlen block bs dep e d w :
  small_stats (walk_stats s) -> holds_path block dlen dir -> 0 < dlen < BC_IO_MAX_PATH_LENGTH ->
  opened (env w) !! dfd = Some (dir, bs) -> tells e d -> dirent_ok d ->
  wp (sequential_entry config stack s dfd block dlen dep e)
    (fun v w' => undisturbed w w' /\
       exists path, path = child_of dir (d_name d) /\
         verdict_tours T path (tour_entry follow hidden accept descend T dir dep d) s v) w.
Proof.
  intros Hsmall Hblock Hlen Ho He Hd. destruct (join_child _ _ _ _ _ Hblock Hlen He Hd) as (Hpeek & Hp0 & Hjoin).
  unfold sequential_entry, tour_entry. rewrite hidden_spec. set (path := child_of dir (d_name d)) in *.
  apply wp_bind, wp_lift. rewrite Hpeek. simpl.
  destruct (decide (hd 0 (d_name d) = ch "." /\ hidden = false)) as [Eh|Eh].
  { apply wp_ret. split; [apply undisturbed_refl|]. exists path. split; [done|].
    rewrite bool_decide_true by done. split; [by apply noted_nothing|done]. }
  rewrite bool_decide_false by done. apply wp_bind, wp_lift. rewrite Hjoin. simpl.
  destruct (decide (zlen path + 1 <= BC_IO_MAX_PATH_LENGTH)) as [Hfit|Hfit].
  - rewrite (decide_False (P := BC_IO_MAX_PATH_LENGTH <= zlen path)) by lia.
    set (child := path ++ 0 :: zdrop (zlen path + 1) stack).
    assert (Hchild : holds_path child (zlen path) path) by (split_and!; [by eexists|done|done]).
    apply wp_bind. eapply wp_mono; [by eapply walk_resolve_tour|]. intros r w' [Hu Hr].
    destruct (tour_resolve follow dir d) as [x|er].
    + subst r. apply wp_lift. eapply safe_mono.
      { apply (dispatch_tours T s child (zlen path) path dep x); try done. lia. }
      intros v Hv. split; [done|]. exists path. split; [done|exact Hv].
    + destruct Hr as [-> <-]. apply wp_bind, wp_get_errno, wp_ret. split; [done|].
      exists path. split; [done|]. split; [|done]. apply report_error_noted; [done|].
      by apply (holds_path_string _ _ _ Hchild).
  - rewrite (decide_True (P := BC_IO_MAX_PATH_LENGTH <= zlen path)) by lia. apply wp_ret.
    split; [apply undisturbed_refl|]. exists path. split; [done|]. split; [|done].
    apply report_error_noted; [done|]. by apply (holds_path_string _ _ _ Hblock).
Qed.

(** A call that walks [path] makes its part [evs] of the tour, and leaves heap and
    open directories as they were. *)
Definition toured (evs : list tour_event) (s s' : state) (w w' : world) : Prop :=
  noted evs s s' /\ heap w' = heap w /\ wf_world w' /\ opened (env w') = opened (env w) /\
  patience (env w) = (patience (env w') + cost evs)%nat.

Definition walks_tour (deep : Z) (walk : state -> list Z -> Z -> Z -> M state)
    (T : list Z -> Z -> list tour_event) : Prop :=
  forall s block len path dep w,
    wf_world w -> visit_failed s = false -> small_stats (walk_stats s) -> holds_path block len path ->
    0 < len < BC_IO_MAX_PATH_LENGTH -> BC_IO_MAX_PATH_LENGTH - len <= deep ->
    (cost (T path dep) <= patience (env w))%nat ->
    wp (walk s block len dep) (fun s' w' => toured (T path dep) s s' w w') w.

Notation tour_of T := (tour_entries follow hidden accept descend T).

(** What a loop over the rest of a directory does: its part of the tour, reading
    the remaining [n] batches. *)
Definition read_on (p dfd : Z) (dir : list Z) (n : nat) (evs : list tour_event)
    (s : state) (w : world) (s' : state) (w' : world) : Prop :=
  noted evs s s' /\ (exists r, heap w' = <[p := OReader r]> (heap w)) /\ wf_world w' /\
  opened (env w') = <[dfd := (dir, [])]> (opened (env w)) /\
  patience (env w) = (patience (env w') + n + cost evs)%nat.

Lemma read_on_after p dfd dir n n' evs evs' r bs s w s1 w1 s2 w2 :
  noted evs s s1 -> heap w1 = <[p := OReader r]> (heap w) ->
  opened (env w1) = <[dfd := (dir, bs)]> (opened (env w)) ->
  (patience (env w) + n' = patience (env w1) + n + cost evs)%nat ->
  read_on p dfd dir n' evs' s1 w1 s2 w2 -> read_on p dfd dir n (evs ++ evs') s w s2 w2.
Proof.
  intros Hn Hh Ho Hpat (Hn2 & (r2 & Hh2) & Hwf2 & Ho2 & Hpat2). split_and!.
  - by eapply noted_trans.
  - exists r2. by rewrite Hh2, Hh, insert_insert_eq.
  - done.
  - by rewrite Ho2, Ho, insert_insert_eq.
  - rewrite cost_app. lia.
Qed.

Lemma child_longer dir name : zlen dir < zlen (child_of dir name).
Proof. unfold child_of. rewrite zlen_app, zlen_cons. pose proof (zlen_nonneg name). lia. Qed.

(** An entry, and the walk below it when it is a directory to descend into: the
    rest of the loop starts after the entry's part of the tour. *)
Lemma entry_then_tours deep recurse T s dfd dir dlen block bs dep e d w again (Q : state -> world -> Prop) :
  let evs := tour_entry follow hidden accept descend T dir dep d in
  walks_tour deep recurse T -> BC_IO_MAX_PATH_LENGTH - dlen <= deep + 1 ->
  wf_world w -> visit_failed s = false -> small_stats (walk_stats s) ->
  holds_path block dlen dir -> 0 < dlen < BC_IO_MAX_PATH_LENGTH ->
  opened (env w) !! dfd = Some (dir, bs) -> tells e d -> dirent_ok d ->
  (cost evs <= patience (env w))%nat ->
  (forall s' w', toured evs s s' w w' -> wp (again s') Q w') ->
  wp (v ← sequential_entry config stack s dfd block dlen dep e;
      match v with
      | Continue s => again s
      | Break s => mret s
      | Descend s path length child_depth => s ← recurse s path length child_depth; again s
      end) Q w.
Proof.
  intros evs Hrec Hdeep Hwf Hf Hsmall Hblock Hlen Ho He Hd Hpat Hcont. apply wp_bind. eapply wp_mono.
  { by apply (entry_tours T s dfd dir dlen block bs dep e d w). }
  intros v w3 [(Hm3 & Hh3 & Ho3 & Hpat3) (path & Epath & Hv)]. fold evs in Hv.
  assert (Hwf3 : wf_world w3) by (unfold wf_world in *; by rewrite Hm3, Hh3).
  destruct v as [s'|s'|s' block' len' dep']; [|done|].
  - destruct Hv as [Hn Hcost]. apply Hcont. split_and!; try done. lia.
  - destruct Hv as (ev & Hn & Hevs & Hblock' & Hshort'). rewrite Hevs in *. simpl in Hpat.
    pose proof Hblock' as (_ & _ & Elen').
    assert (Hlonger : dlen < len').
    { destruct Hblock as (_ & _ & ->). rewrite Elen', Epath. apply child_longer. }
    apply wp_bind. eapply wp_mono.
    { apply (Hrec s' block' len' path dep' w3); try done; [|by eapply noted_small|lia..].
      destruct Hn as (_ & _ & ->). done. }
    intros s2 w4 (Hn2 & Hh4 & Hwf4 & Ho4 & Hpat4). apply Hcont. split_and!; [|congruence|done|congruence|].
    + exact (noted_trans [TVisit ev] (T path dep') s s' s2 Hn Hn2).
    + rewrite <- Hpat3. exact Hpat4.
Qed.

Lemma loop_tours deep laps recurse T fuel s p dfd block dlen dir dep r ds bs w :
  walks_tour deep recurse T -> BC_IO_MAX_PATH_LENGTH - dlen <= deep + 1 ->
  wf_world w -> heap w !! p = Some (OReader r) -> reader_holds r ds -> Forall dirent_ok ds ->
  dir_fd r = dfd -> opened (env w) !! dfd = Some (dir, bs) ->
  Forall (fun b => b <> [] /\ Forall dirent_ok b) bs ->
  visit_failed s = false -> small_stats (walk_stats s) ->
  holds_path block dlen dir -> 0 < dlen < BC_IO_MAX_PATH_LENGTH ->
  (length bs + cost (tour_of T dir dep (listed (ds ++ concat bs))) <= patience (env w))%nat ->
  (length (ds ++ concat bs) < laps)%nat -> (length (ds ++ concat bs) < fuel)%nat ->
  wp (sequential_loop config stack recurse fuel laps s p dfd block dlen dep)
    (read_on p dfd dir (length bs) (tour_of T dir dep (listed (ds ++ concat bs))) s w) w.
Proof.
  intros Hrec Hdeep. revert s r ds bs w. induction fuel as [|fuel IH];
    intros s r ds bs w Hwf Hp Hr Hds Hfd Ho Hbs Hf Hsmall Hblock Hlen Hpat Hlaps Hfuel; [lia|].
  cbn [sequential_loop]. rewrite Hf. unfold bc_io_walk_sequential_should_stop. simpl should_stop_check.
  cbv iota. apply wp_bind. eapply wp_load_reader; [done|].
  destruct (next_snapshot laps r w dir ds bs Hr Hds) as (answer & r1 & w1 & E & Hm1 & Hh1 & Hfd1 & Hans);
    [by rewrite Hfd|done|lia|done|]. rewrite Hfd in *.
  apply wp_bind. unfold wp at 1. rewrite E. cbn [safe].
  apply wp_bind. eapply wp_store; [by rewrite Hh1|]. rewrite Hh1. set (w2 := mk_world _ _ _ _ _).
  assert (Hwf2 : wf_world w2).
  { unfold wf_world in *. simpl. rewrite Hm1, dom_insert_L. apply elem_of_dom_2 in Hp. set_solver. }
  destruct answer as [e|]; last first.
  { destruct Hans as (Hnone & _ & Ho1 & Hpat1). apply wp_ret. rewrite Hnone. split_and!.
    - by apply noted_nothing.
    - by exists r1.
    - done.
    - done.
    - simpl. unfold tour_entries. simpl. lia. }
  destruct Hans as (d & ds' & bs' & Hl & He & Hd & Hr1 & Hds' & Hbs' & Ho1 & Hpat1 & Hshort).
  rewrite Hl in *. set (evs1 := tour_entry follow hidden accept descend T dir dep d).
  assert (Hevs : tour_of T dir dep (d :: listed (ds' ++ concat bs')) =
    evs1 ++ tour_of T dir dep (listed (ds' ++ concat bs'))) by done.
  rewrite Hevs in *. rewrite cost_app in Hpat.
  set (evs2 := tour_of T dir dep (listed (ds' ++ concat bs'))) in *.
  apply (entry_then_tours deep recurse T s dfd dir dlen block bs' dep e d w2); try done.
  { simpl. rewrite Ho1. by simplify_map_eq. }
  { simpl. fold evs1. lia. }
  fold evs1. intros s' w3 (Hn & Hh3 & Hwf3 & Ho3 & Hpat3). simpl in Hh3, Ho3, Hpat3.
  eapply wp_mono; [apply (IH s' r1 ds' bs' w3)|]; try done; fold evs2; try lia.
  - rewrite Hh3. by simplify_map_eq.
  - rewrite Ho3, Ho1. by simplify_map_eq.
  - destruct Hn as (_ & _ & ->). done.
  - by eapply noted_small.
  - intros s2 w4 Hon. eapply read_on_after; [exact Hn|exact Hh3|by rewrite Ho3, Ho1|rewrite Hpat1, Hpat3; lia|exact Hon].
Qed.

(** The allocator does not refuse, and no directory has more records than there
    are laps. *)
Hypothesis generous : forall m n, exists p m', pool_alloc m n = (Some p, m').
Definition roomy_tree (laps : nat) : Prop :=
  forall path bs, tree_open path (walk_open_flags follow) = SysOk bs -> (length (concat bs) < laps)%nat.

Lemma wp_snap_open path Q w :
  (forall bs fd k, tree_open path (walk_open_flags follow) = SysOk bs -> 0 <= fd ->
     opened (env w) !! fd = None -> opened k = <[fd := (path, bs)]> (opened (env w)) ->
     patience k = patience (env w) ->
     Q fd (after_call w k (errno w) [EvOpen path (walk_open_flags follow) (Some fd)])) ->
  (forall e k, tree_open path (walk_open_flags follow) = SysErr e -> opened k = opened (env w) ->
     patience k = patience (env w) -> Q (-1) (after_call w k e [EvOpen path (walk_open_flags follow) None])) ->
  wp (open_ path (walk_open_flags follow) 0) Q w.
Proof.
  intros Hok Herr. destruct (snap_open (env w) path follow) as (r & k & E & Hpat & Hr).
  unfold wp, open_, syscall, mbind, M_bind. rewrite E. simpl.
  destruct (tree_open path (walk_open_flags follow)) as [bs|e] eqn:Et.
  - destruct Hr as (fd & -> & Hfd & Hnew & Ho). by apply Hok with bs.
  - destruct Hr as [-> Ho]. by apply Herr.
Qed.

Lemma wp_generous_allocate n Q w :
  (forall p m, p <> 0 -> p ∉ live (mem w) -> live m = {[p]} ∪ live (mem w) ->
     Q (Some p) (after_alloc w m (<[p := ORaw]> (heap w)) [EvPoolAlloc p n])) ->
  wp (bc_allocators_pool_allocate n) Q w.
Proof.
  intros H. destruct (generous (mem w) n) as (p & m & E). unfold wp, bc_allocators_pool_allocate.
  rewrite E. destruct (pool_alloc_fresh _ _ _ _ E). apply H; [done..|by eapply pool_alloc_live].
Qed.

Lemma wp_store_reader p fd buf Q w :
  heap w !! p = Some ORaw -> zlen buf = BC_IO_DIRENT_READER_BUFFER_SIZE ->
  (forall r, reader_holds r [] -> dir_fd r = fd ->
     Q (Some p) (mk_world (env w) (mem w) (errno w) (<[p := OReader r]> (heap w)) (trace w))) ->
  wp (store p (OReader (mk_reader fd 0 0 0 buf));; mret (Some p)) Q w.
Proof.
  intros Hp Hbuf H. apply wp_bind. eapply wp_store; [done|]. apply wp_ret. apply H; [|done].
  exists [], buf. by split_and!.
Qed.

Lemma wp_generous_reader fd Q w :
  wf_world w ->
  (forall p r m, heap w !! p = None -> p <> 0 -> reader_holds r [] -> dir_fd r = fd ->
     live m = {[p]} ∪ live (mem w) ->
     Q (Some p) (mk_world (env w) m (errno w) (<[p := OReader r]> (heap w))
                  (trace w ++ [EvPoolAlloc p sizeof_bc_io_dirent_reader_t]))) ->
  wp (bc_io_dirent_reader_create fd) Q w.
Proof.
  intros Hwf H. apply wp_bind, wp_generous_allocate. intros p m Hp0 Hp Hm.
  apply wp_bind, wp_fresh_bytes. intros bytes Hsize.
  apply wp_store_reader; simpl heap.
  - by simplify_map_eq.
  - unfold sizeof_bc_io_dirent_reader_t, BC_IO_DIRENT_READER_BUFFER_SIZE in *. rewrite zlen_ztake. lia.
  - intros r Hr Hfd. rewrite insert_insert_eq. apply H; try done. by apply wf_world_dom.
Qed.

Lemma recurse_tours deep laps :
  roomy_tree laps ->
  walks_tour (Z.of_nat deep - 1) (bc_io_walk_sequential_recurse config stack deep laps)
    (tour follow hidden accept descend deep).
Proof.
  intros Hroomy. induction deep as [|deep IH];
    intros s block len path dep w Hwf Hf Hsmall Hblock Hlen Hdeep Hpat; [lia|].
  cbn [bc_io_walk_sequential_recurse tour] in *. rewrite Hf.
  unfold bc_io_walk_sequential_should_stop. simpl should_stop_check. cbv iota.
  apply wp_bind, wp_lift. pose proof (holds_path_string _ _ _ Hblock) as [Hstr ->]. simpl.
  apply wp_bind, wp_snap_open.
  - intros bs fd k Et Hfd Hnew Ho Hpk. rewrite Et in *. rewrite decide_False by lia.
    apply wp_bind. set (w1 := after_call _ _ _ _).
    apply wp_generous_reader; [done|]. intros p r m Hp Hp0 Hr Hrfd Hm. simpl in Hp.
    set (w2 := mk_world _ _ _ _ _). simpl in Hpat.
    assert (Hwf2 : wf_world w2).
    { unfold wf_world in *. simpl in *. rewrite Hm, dom_insert_L. set_solver. }
    apply wp_bind. eapply wp_mono.
    { apply (loop_tours (Z.of_nat deep - 1) laps _ _ laps (count_stats count_directory s) p fd block len path
               dep r [] bs w2 IH); try done.
      - lia.
      - simpl. by simplify_map_eq.
      - simpl. rewrite Ho. by simplify_map_eq.
      - by eapply tree_records.
      - split_and!; try apply Hsmall. apply wrap64_range.
      - simpl. rewrite Hpk. lia.
      - by eapply Hroomy.
      - by eapply Hroomy. }
    simpl app. intros s' w3 (Hn & (r' & Hh3) & Hwf3 & Ho3 & Hpat3). simpl in Hh3. rewrite insert_insert_eq in Hh3.
    apply wp_bind. unfold bc_io_dirent_reader_destroy. rewrite decide_False by done.
    eapply wp_pool_free; [rewrite Hh3; by simplify_map_eq|]. intros m4 Hm4.
    apply wp_bind. unfold wp at 1, close. cbn [safe]. apply wp_ret.
    destruct (snap_close (env w3) fd) as [Ho4 Hp4]. split_and!.
    + apply (noted_trans [_] _ s (count_stats count_directory s) s'); [by apply noted_one; simpl; rewrite ?app_nil_r|done].
    + simpl. by rewrite Hh3, delete_insert_eq, delete_id.
    + unfold wf_world in *. simpl. rewrite Hm4, Hh3, dom_delete_L, dom_insert_L in *. set_solver.
    + simpl in *. by rewrite Ho4, Ho3, Ho, insert_insert_eq, delete_insert_eq, delete_id.
    + simpl in *. rewrite Hp4. lia.
  - intros e k Et Ho Hpk. rewrite Et in *. rewrite decide_True by lia.
    apply wp_bind, wp_get_errno, wp_ret. split_and!; try done; [by apply report_error_noted|simpl; lia].
Qed.
End observed.
End preorder.

Lemma add_stats_zero evs : add_stats zero_walk_stats evs = stats_of evs.
Proof. done. Qed.

Section properties.
Context {PF : Platform} {PL : PlatformLaws PF}.
Context {SN : Snapshot platform_kernel} {SL : SnapshotLaws SN}.

Lemma sequential_tour_spec stack deep laps root rest follow hidden accept descend w :
  let evs := tour follow hidden accept descend deep root 0 in
  zlen stack = BC_IO_MAX_PATH_LENGTH -> 0 ∉ root -> 0 < zlen root < BC_IO_MAX_PATH_LENGTH ->
  BC_IO_MAX_PATH_LENGTH <= Z.of_nat deep -> roomy_tree follow laps ->
  (forall m n, exists p m', pool_alloc m n = (Some p, m')) ->
  wf_world w -> (cost evs <= patience (env w))%nat ->
  wp (bc_io_walk_sequential stack deep laps
        (Some (observer (root ++ 0 :: rest) (zlen root) follow hidden accept descend))
        (Some zero_walk_stats) [])
    (fun '(ok, out, log) w' => ok = true /\ log = told evs /\ out = Some (stats_of evs) /\
       heap w' = heap w /\ opened (env w') = opened (env w)) w.
Proof.
  intros evs Hstack Hroot Hlen Hdeep Hroomy Hgen Hwf Hcost. unfold bc_io_walk_sequential. simpl.
  rewrite decide_False by lia.
  apply wp_bind. eapply wp_mono.
  { apply (recurse_tours stack Hstack follow hidden accept descend _ (zlen root) Hgen deep laps Hroomy
             (mk_walk_state zero_walk_stats false []) (root ++ 0 :: rest) (zlen root) root 0 w); try done.
    - split_and!; [by eexists|done|done].
    - lia. }
  intros s w' ((Hc & Hst & Hf) & Hh & _ & Ho & _). apply wp_ret. rewrite Hf, Hc, Hst. by split_and!.
Qed.

(** ** Properties *)

(** C6. On a file system that does not change, with an allocator that does not
    refuse and a client that observes and refuses no visit, [bc_io_walk_sequential] makes the tour of the tree: the client is told
    of exactly the entries and errors of [tour], in its order (a directory
    before its entries, each subtree where its directory is listed), the hidden,
    filtered and not-descended parts being left out; the statistics count
    them (modulo 2^64), the result is true, and no directory stays open. *)
Theorem sequential_walk_makes_tour stack deep laps root rest follow hidden accept descend w :
  let evs := tour follow hidden accept descend deep root 0 in
  zlen stack = BC_IO_MAX_PATH_LENGTH -> 0 ∉ root -> 0 < zlen root < BC_IO_MAX_PATH_LENGTH ->
  BC_IO_MAX_PATH_LENGTH <= Z.of_nat deep -> roomy_tree follow laps ->
  (forall m n, exists p m', pool_alloc m n = (Some p, m')) ->
  wf_world w -> (cost evs <= patience (env w))%nat ->
  wp (bc_io_walk_sequential stack deep laps
        (Some (observer (root ++ 0 :: rest) (zlen root) follow hidden accept descend))
        (Some zero_walk_stats) [])
    (fun '(ok, out, log) w' => ok = true /\ log = told evs /\ out = Some (stats_of evs) /\
       heap w' = heap w /\ opened (env w') = opened (env w)) w.
Proof. apply sequential_tour_spec. Qed.
End properties.

(** ** Witnesses *)

Lemma small_tree_roomy laps :
  (10 <= laps)%nat -> @roomy_tree (snapshot_platform small_tree) (snapshot_tree small_tree) false laps.
Proof.
  intros Hlaps path bs. simpl. unfold batches_of. simpl.
  repeat case_decide; intros; simplify_eq; (eapply Nat.lt_le_trans; [|exact Hlaps]); vm_compute; lia.
Qed.

Lemma sequential_walk_makes_tour_witness :
  wp (bc_io_walk_sequential (PF := snapshot_platform small_tree) (zrepeat 90 4096) 4096 10
        (Some (observer (bytes_of_string "/r" ++ [0]) 2 false false everything everything))
        (Some zero_walk_stats) [])
    (fun '(ok, out, log) w' => ok = true /\ log = told small_tour /\ out = Some (stats_of small_tour) /\
       heap w' = ∅ /\ snapshot_opened small_tree (env w') = ∅) (snapshot_world small_tree 9).
Proof.
  apply (sequential_walk_makes_tour (PL := snapshot_platform_laws small_tree)
           (SL := snapshot_tree_laws small_tree) (zrepeat 90 4096) 4096 10
           (bytes_of_string "/r") [] false false everything everything (snapshot_world small_tree 9)).
  - by vm_compute.
  - refine (bool_decide_unpack _ _). by vm_compute.
  - by vm_compute.
  - by vm_compute.
  - by apply small_tree_roomy.
  - intros m n. by do 2 eexists.
  - apply snapshot_world_wf.
  - apply Nat.leb_le. by vm_compute.
Defined.
