(* ===== verification/Concurrency.v ===== *)
(** * What the parallel walk uses of bc-concurrency

    A bounded queue of entries (of a type [E]) and the number of workers of a
    concurrency context.  A queue has an address, which is created and destroyed,
    and a state; pushing and popping are atomic. *)

From S2P Require Import Prelude Platform Objects Machine.

Class Concurrency (PF : Platform) (E : Type) := {
  qstate : Type;
  queue_create : pstate -> Z -> Z -> option (Z * qstate) * pstate;
  queue_destroy : pstate -> Z -> pstate;
  queue_push : qstate -> E -> bool * qstate;
  queue_pop : qstate -> option E * qstate;
  effective_worker_count : Z;
  contents : qstate -> list E;
  slots : qstate -> Z;
}.

(** A new queue is empty; a push adds its entry or changes nothing, and a queue
    never holds more entries than it has slots; a pop takes out some entry or
    changes nothing.  Whether a push or pop succeeds is left open. *)
Class ConcurrencyLaws {PF : Platform} {E} (CC : Concurrency PF E) : Prop := {
  queue_create_empty m size n a q m' :
    queue_create m size n = (Some (a, q), m') -> contents q = [] /\ 0 <= slots q;
  queue_create_live m size n r m' : queue_create m size n = (r, m') -> live m' = live m;
  queue_destroy_live m a : live (queue_destroy m a) = live m;
  queue_push_true q e q' :
    queue_push q e = (true, q') ->
    contents q' ≡ₚ e :: contents q /\ zlen (contents q') <= slots q /\ slots q' = slots q;
  queue_push_false q e q' :
    queue_push q e = (false, q') -> contents q' = contents q /\ slots q' = slots q;
  queue_pop_some q e q' :
    queue_pop q = (Some e, q') -> contents q ≡ₚ e :: contents q' /\ slots q' = slots q;
  queue_pop_none q q' :
    queue_pop q = (None, q') -> contents q' = contents q /\ slots q' = slots q;
}.

(** Needed for progress only: a pop does not fail on a queue with entries. *)
Class PopsWhenFilled {PF : Platform} {E} (CC : Concurrency PF E) : Prop :=
  pop_filled q q' : queue_pop q = (None, q') -> contents q = [].

Section queue_calls.
Context {PF : Platform} {E : Type} {CC : Concurrency PF E}.

Definition bc_concurrency_queue_create (size n : Z) : M (option (Z * qstate)) := fun w =>
  match queue_create (mem w) size n with
  | (Some (a, q), m) => Done (Some (a, q), after_alloc w m (heap w) [EvQueueNew a])
  | (None, m) => Done (None, after_alloc w m (heap w) [])
  end.

Definition bc_concurrency_queue_destroy (a : Z) : M unit := fun w =>
  Done (tt, after_alloc w (queue_destroy (mem w) a) (heap w) [EvQueueFree a]).
End queue_calls.

(** ** A concrete queue: first in, first out, with as many slots as asked for *)

Definition fifo_push {E} (q : list E * Z) (e : E) : bool * (list E * Z) :=
  if decide (zlen q.1 < q.2) then (true, (q.1 ++ [e], q.2)) else (false, q).
Definition fifo_pop {E} (q : list E * Z) : option E * (list E * Z) :=
  match q.1 with
  | [] => (None, q)
  | e :: es => (Some e, (es, q.2))
  end.

Definition fifo (PF : Platform) (E : Type) (workers : Z) : Concurrency PF E := {|
  qstate := list E * Z;
  queue_create m _ n := (Some (8192, ([], Z.max 0 n)), m);
  queue_destroy m _ := m;
  queue_push := fifo_push;
  queue_pop := fifo_pop;
  effective_worker_count := workers;
  contents q := q.1;
  slots q := q.2;
|}.

Lemma fifo_laws PF E workers : ConcurrencyLaws (fifo PF E workers).
Proof.
  split; simpl.
  - intros ? ? n a q m' [= <- <- <-]. simpl. split; [done|lia].
  - by intros ? ? ? r m' [= <- <-].
  - done.
  - unfold fifo_push. intros q e q'. case_decide; [|done]. intros [= <-]. simpl. rewrite zlen_app.
    change (zlen [e]) with 1. split_and!; [by rewrite Permutation_app_comm|lia|done].
  - unfold fifo_push. intros q e q'. case_decide; [done|]. by intros [= <-].
  - unfold fifo_pop. intros [[|e' es] n] e q'; simpl; [done|]. intros [= <- <-]. done.
  - unfold fifo_pop. intros [[|e' es] n] q'; simpl; [|done]. by intros [= <-].
Qed.

Lemma fifo_pops PF E workers : PopsWhenFilled (fifo PF E workers).
Proof. intros [[|e es] n] q'; simpl; done. Qed.
