(* ===== verification/WalkParallel.v ===== *)
(** * The parallel walk ([src/walk/bc_io_walk_parallel.c])

    Workers take directories from a queue and put the subdirectories they find
    back.  A worker's code is a sequence of atomic actions ([proc]) on what the
    workers share: the world and [bc_io_walk_shared_t].  An action is a system
    call together with the reading of its [errno] (a thread's own), a call of the
    reader (whose object and descriptor are the thread's own), an atomic operation,
    a call of the queue, or a callback.  The control of [bc_io_walk_worker_task] is
    the type [worker]; [pool_run] runs the workers in the order a schedule picks them.

    Relaxed atomics are modelled as interleaved; an [_Atomic int] is its 32 bits.
    [bc_concurrency_worker_memory] and the configuration's context are one
    allocator.  As in the sequential walk [deep] is the fuel of the recursion and
    [laps] that of the loop over a directory. *)

From S2P Require Import Prelude Platform Objects Machine FilePath DirentReader.
From S2P Require Import WalkEntry WalkSequential Interleave Concurrency.

Definition BC_IO_WALK_DEFAULT_QUEUE_CAPACITY : Z := 16384.

(** [absolute_path] is the whole array. *)
Record bc_io_walk_queue_entry_t := mk_queue_entry {
  queue_path : list Z;
  queue_path_length : Z;
  queue_depth : Z;
}.
Definition sizeof_bc_io_walk_queue_entry_t : Z := 4112.

(** [bc_io_walk_shared_t] with the state of the queue in place of its address, and
    the client's state. *)
Record bc_io_walk_shared_t (Q U : Type) := mk_shared {
  directory_queue : Q;
  outstanding_directory_count : Z;
  shared_stats : bc_io_walk_stats_t;
  shared_visit_failed : bool;
  shared_client : U;
}.
Arguments mk_shared {Q U}. Arguments directory_queue {Q U}.
Arguments outstanding_directory_count {Q U}. Arguments shared_stats {Q U}.
Arguments shared_visit_failed {Q U}. Arguments shared_client {Q U}.

Section walk_parallel.
Context {PF : Platform} {CC : Concurrency PF bc_io_walk_queue_entry_t} {U : Type}.
Variable config : bc_io_walk_config_t U.
(** What arrays on the stack hold before they are written. *)
Variable stack : list Z.

Notation shared := (bc_io_walk_shared_t qstate U).
Notation state := (world * shared)%type.
Notation code := (proc state).

Definition with_queue (q : qstate) (s : shared) : shared :=
  mk_shared q (outstanding_directory_count s) (shared_stats s) (shared_visit_failed s) (shared_client s).
Definition with_outstanding (n : Z) (s : shared) : shared :=
  mk_shared (directory_queue s) n (shared_stats s) (shared_visit_failed s) (shared_client s).
Definition with_stats (t : bc_io_walk_stats_t) (s : shared) : shared :=
  mk_shared (directory_queue s) (outstanding_directory_count s) t (shared_visit_failed s) (shared_client s).
Definition with_visit_failed (b : bool) (s : shared) : shared :=
  mk_shared (directory_queue s) (outstanding_directory_count s) (shared_stats s) b (shared_client s).
Definition with_client (u : U) (s : shared) : shared :=
  mk_shared (directory_queue s) (outstanding_directory_count s) (shared_stats s) (shared_visit_failed s) u.

(** ** Actions *)

(** An action on the world; on the shared variables; a callback. *)
Definition on_world {B} (m : M B) : code B :=
  atomic (fun '(w, s) =>
    match m w with
    | Done (b, w') => Done (b, (w', s))
    | Undefined => Undefined
    | OutOfFuel => OutOfFuel
    end).
Definition on_shared {B} (f : shared -> B * shared) : code B :=
  atomic (fun '(w, s) => let '(b, s') := f s in Done (b, (w, s'))).
Definition on_client {B} (f : U -> B * U) : code B :=
  on_shared (fun s => let '(b, u) := f (shared_client s) in (b, with_client u s)).

Definition load_visit_failed : code bool := on_shared (fun s => (shared_visit_failed s, s)).
Definition store_visit_failed : code unit := on_shared (fun s => (tt, with_visit_failed true s)).
Definition fetch_add_outstanding (n : Z) : code unit :=
  on_shared (fun s => (tt, with_outstanding (wrap32 (outstanding_directory_count s + n)) s)).
Definition fetch_add_stat (f : bc_io_walk_stats_t -> bc_io_walk_stats_t) : code unit :=
  on_shared (fun s => (tt, with_stats (f (shared_stats s)) s)).
Definition push (e : bc_io_walk_queue_entry_t) : code bool :=
  on_shared (fun s => let '(pushed, q) := queue_push (directory_queue s) e in (pushed, with_queue q s)).

(** A system call, with the [errno] it leaves. *)
Definition with_errno {B} (m : M B) : M (B * Z) :=
  b ← m; e ← get_errno; mret (b, e).

Definition bc_io_walk_should_stop (s : shared) : bool * shared :=
  match should_stop_check config with
  | None => (false, s)
  | Some f => let '(stop, u) := f (shared_client s) in (stop, with_client u s)
  end.

Definition bc_io_walk_report_error (path : list Z) (stage : string) (errno_value : Z) : code unit :=
  fetch_add_stat count_error;;
  match on_error config with
  | None => mret tt
  | Some f => on_client (fun u => (tt, f path stage errno_value u))
  end.

(** A callback on an entry; true when it is null. *)
Definition ask_shared (f : option (bc_io_walk_entry_t -> U -> bool * U)) (e : bc_io_walk_entry_t) : code bool :=
  match f with
  | None => mret true
  | Some f => on_client (f e)
  end.

Definition bc_io_walk_entry_passes_filter (entry : bc_io_walk_entry_t) : code bool :=
  ask_shared (filter_fn config) entry.

(** ** One directory *)

(** A zeroed queue entry filled with the first [length] bytes of a path. *)
Definition make_queue_entry (path : list Z) (length depth : Z) : res bc_io_walk_queue_entry_t :=
  let '(_, zeroed) := core_zero stack in
  src ← span path 0 length;
  dst ← span zeroed 0 length;
  copied ← blit zeroed 0 (core_copy dst src);
  terminated ← poke copied length 0;
  Done (mk_queue_entry terminated length depth).

(** A subdirectory: into the queue, or walked here when the queue is full.
    [recurse reader path length depth] is [bc_io_walk_process_directory]. *)
Definition parallel_descend (recurse : Z -> list Z -> Z -> Z -> code unit)
    (walk_entry : bc_io_walk_entry_t) : code unit :=
  sub_entry ← local (make_queue_entry (absolute_path walk_entry) (absolute_path_length walk_entry)
                       (depth walk_entry));
  fetch_add_outstanding 1;;
  pushed ← push sub_entry;
  if pushed : bool then mret tt
  else
    fetch_add_outstanding (-1);;
    fallback_reader ← on_world (bc_io_dirent_reader_create (-1));
    match fallback_reader with
    | Some fallback_reader =>
        recurse fallback_reader (queue_path sub_entry) (queue_path_length sub_entry) (queue_depth sub_entry);;
        on_world (bc_io_dirent_reader_destroy fallback_reader)
    | None => bc_io_walk_report_error (queue_path sub_entry) "dirent-reader-alloc" ENOMEM
    end.

(** From the filter on; false to leave the loop. *)
Definition parallel_dispatch (recurse : Z -> list Z -> Z -> Z -> code unit)
    (walk_entry : bc_io_walk_entry_t) : code bool :=
  accepted ← bc_io_walk_entry_passes_filter walk_entry;
  if negb accepted then fetch_add_stat count_skipped;; mret true
  else if decide (kind walk_entry = BC_IO_WALK_ENTRY_FILE) then
    fetch_add_stat count_file;;
    ok ← (if bool_decide (visit config = None) then local Undefined else ask_shared (visit config) walk_entry);
    if negb ok then store_visit_failed;; mret false else mret true
  else if decide (kind walk_entry = BC_IO_WALK_ENTRY_DIRECTORY) then
    ok ← ask_shared (visit config) walk_entry;
    if negb ok then store_visit_failed;; mret false
    else
      descend ← ask_shared (should_descend config) walk_entry;
      if negb descend then mret true
      else parallel_descend recurse walk_entry;; mret true
  else mret true.

(** One entry; false to leave the loop. *)
Definition parallel_entry (recurse : Z -> list Z -> Z -> Z -> code unit) (directory_file_descriptor : Z)
    (directory_path : list Z) (directory_path_length directory_depth : Z)
    (current_entry : bc_io_dirent_entry_t) : code bool :=
  c ← local (peek (entry_name current_entry) 0);
  if decide (c = ch "." /\ include_hidden config = false) then mret true
  else
    '(joined, child_path_buffer) ←
      local (bc_io_file_path_join stack BC_IO_MAX_PATH_LENGTH directory_path directory_path_length
               (entry_name current_entry) (entry_name_length current_entry));
    match joined with
    | None => bc_io_walk_report_error directory_path "path-too-long" ENAMETOOLONG;; mret true
    | Some child_path_length =>
        '(resolved, e) ← on_world (with_errno (walk_resolve (follow_symlinks config)
                                                 directory_file_descriptor current_entry));
        match resolved with
        | None => bc_io_walk_report_error child_path_buffer "stat" e;; mret true
        | Some r => parallel_dispatch recurse
                      (make_walk_entry child_path_buffer child_path_length directory_depth r)
        end
    end.

(** A call of the reader: what it answers, and the reader's error. *)
Definition reader_next (laps : nat) (dirent_reader : Z) : M (option (option bc_io_dirent_entry_t) * Z) :=
  r ← load_reader dirent_reader;
  '(answer, r) ← bc_io_dirent_reader_next laps r;
  store dirent_reader (OReader r);;
  mret (answer, bc_io_dirent_reader_last_errno r).

Definition reader_reset (dirent_reader fd : Z) : M unit :=
  r ← load_reader dirent_reader;
  store dirent_reader (OReader (bc_io_dirent_reader_reset r fd)).

Fixpoint parallel_loop (recurse : Z -> list Z -> Z -> Z -> code unit) (fuel laps : nat)
    (dirent_reader directory_file_descriptor : Z) (directory_path : list Z)
    (directory_path_length directory_depth : Z) : code unit :=
  match fuel with
  | O => exhausted
  | S fuel =>
      failed ← load_visit_failed;
      if failed : bool then mret tt
      else
        '(answer, reader_errno) ← on_world (reader_next laps dirent_reader);
        match answer with
        | None => bc_io_walk_report_error directory_path "getdents64" reader_errno
        | Some None => mret tt
        | Some (Some current_entry) =>
            go_on ← parallel_entry recurse directory_file_descriptor directory_path
                      directory_path_length directory_depth current_entry;
            if go_on : bool then
              parallel_loop recurse fuel laps dirent_reader directory_file_descriptor
                directory_path directory_path_length directory_depth
            else mret tt
        end
  end.

Fixpoint bc_io_walk_process_directory (deep laps : nat) (dirent_reader : Z) (directory_path : list Z)
    (directory_path_length directory_depth : Z) : code unit :=
  match deep with
  | O => exhausted
  | S deep =>
      failed ← load_visit_failed;
      if failed : bool then mret tt
      else
        path ← local (terminated directory_path);
        '(directory_file_descriptor, e) ←
          on_world (with_errno (open_ path (walk_open_flags (follow_symlinks config)) 0));
        if decide (directory_file_descriptor < 0) then bc_io_walk_report_error directory_path "open" e
        else
          fetch_add_stat count_directory;;
          on_world (reader_reset dirent_reader directory_file_descriptor);;
          parallel_loop (bc_io_walk_process_directory deep laps) laps laps dirent_reader
            directory_file_descriptor directory_path directory_path_length directory_depth;;
          on_world (close directory_file_descriptor)
  end.

(** ** Workers *)

(** Where a worker is in [bc_io_walk_worker_task]: before its reader is created,
    in the three actions after that failed, at the head of the loop, before the
    test of [visit_failed], before the pop, in a directory (at its end, before the
    count goes down), before [outstanding] is read, before its reader is
    destroyed, gone.  The pauses of an idle worker have no effect. *)
Inductive worker :=
| Starting
| Giving_up (p : code unit)
| At_head (dirent_reader : Z)
| At_flag (dirent_reader : Z)
| At_pop (dirent_reader : Z)
| Processing (dirent_reader : Z) (p : code unit)
| At_outstanding (dirent_reader : Z)
| Leaving (dirent_reader : Z)
| Gone.

(** After a failed allocation of its reader. *)
Definition abandon : code unit :=
  fetch_add_stat count_error;;
  store_visit_failed;;
  match on_error config with
  | None => mret tt
  | Some f => on_client (fun u => (tt, f (default [] (root config)) "dirent-reader-alloc" ENOMEM u))
  end.

(** The next action of a worker. *)
Definition worker_step (deep laps : nat) (k : worker) (w : world) (s : shared)
    : res (worker * (world * shared)) :=
  match k with
  | Starting =>
      '(dirent_reader, w) ← bc_io_dirent_reader_create (-1) w;
      match dirent_reader with
      | Some dirent_reader => Done (At_head dirent_reader, (w, s))
      | None => Done (Giving_up abandon, (w, s))
      end
  | Giving_up (Return _) => Done (Gone, (w, s))
  | Giving_up (Act f k) => '(b, ws) ← f (w, s); Done (Giving_up (k b), ws)
  | At_head dirent_reader =>
      let '(stop, s) := bc_io_walk_should_stop s in
      Done (if stop then Leaving dirent_reader else At_flag dirent_reader, (w, s))
  | At_flag dirent_reader =>
      Done (if shared_visit_failed s then Leaving dirent_reader else At_pop dirent_reader, (w, s))
  | At_pop dirent_reader =>
      match queue_pop (directory_queue s) with
      | (Some e, q) =>
          Done (Processing dirent_reader
                  (bc_io_walk_process_directory deep laps dirent_reader (queue_path e)
                     (queue_path_length e) (queue_depth e)), (w, with_queue q s))
      | (None, q) => Done (At_outstanding dirent_reader, (w, with_queue q s))
      end
  | Processing dirent_reader (Act f k) => '(b, ws) ← f (w, s); Done (Processing dirent_reader (k b), ws)
  | Processing dirent_reader (Return _) =>
      Done (At_head dirent_reader, (w, with_outstanding (wrap32 (outstanding_directory_count s - 1)) s))
  | At_outstanding dirent_reader =>
      Done (if decide (outstanding_directory_count s = 0) then Leaving dirent_reader
            else At_head dirent_reader, (w, s))
  | Leaving dirent_reader =>
      '(_, w) ← bc_io_dirent_reader_destroy dirent_reader w;
      Done (Gone, (w, s))
  | Gone => Done (Gone, (w, s))
  end.

(** The pool: the workers and what they share.  A step runs the next action of one
    of them. *)
Record pool := mk_pool { members : list worker; common : state }.

Definition pool_step (deep laps : nat) (i : nat) (p : pool) : res pool :=
  match members p !! i with
  | None => Done p
  | Some k =>
      '(k', c) ← worker_step deep laps k (common p).1 (common p).2;
      Done (mk_pool (<[i := k']> (members p)) c)
  end.

Fixpoint pool_run (deep laps : nat) (schedule : list nat) (p : pool) : res pool :=
  match schedule with
  | [] => Done p
  | i :: schedule => p ← pool_step deep laps i p; pool_run deep laps schedule p
  end.

Definition is_gone (k : worker) : bool := match k with Gone => true | _ => false end.
Definition all_gone (p : pool) : bool := forallb is_gone (members p).
End walk_parallel.
Arguments worker {PF CC} U. Arguments pool {PF CC} U.
Arguments Starting {PF CC U}. Arguments Giving_up {PF CC U}. Arguments At_head {PF CC U}.
Arguments At_flag {PF CC U}. Arguments At_pop {PF CC U}. Arguments Processing {PF CC U}.
Arguments At_outstanding {PF CC U}. Arguments Leaving {PF CC U}. Arguments Gone {PF CC U}.
Arguments mk_pool {PF CC U}. Arguments members {PF CC U}. Arguments common {PF CC U}.

(** What [bc_concurrency_dispatch_and_wait] does with the submitted tasks: how many
    it runs, in which order they take turns, and what it returns. *)
Record dispatch := mk_dispatch {
  started : nat;
  schedule : list nat;
  dispatch_ok : bool;
}.

Section parallel_call.
Context {PF : Platform} {CC : Concurrency PF bc_io_walk_queue_entry_t} {U : Type}.

(** Everything up to the dispatch: [None] when it returns false. *)
Definition parallel_setup (stack : list Z) (config : bc_io_walk_config_t U) (u : U)
    : M (option (Z * bc_io_walk_shared_t qstate U)) :=
  match root config with
  | None => mret None
  | Some root =>
      if decide (root_length config = 0 \/ BC_IO_MAX_PATH_LENGTH <= root_length config) then mret None
      else if bool_decide (visit config = None) then mret None
      else if bool_decide (main_memory_context config = None \/ concurrency_context config = None) then
        mret None
      else
        let n := if decide (0 < queue_capacity config) then queue_capacity config
                 else BC_IO_WALK_DEFAULT_QUEUE_CAPACITY in
        created ← bc_concurrency_queue_create sizeof_bc_io_walk_queue_entry_t n;
        match created with
        | None => mret None
        | Some (a, q) =>
            root_entry ← lift (make_queue_entry stack root (root_length config) 0);
            let '(pushed, q) := queue_push q root_entry in
            if negb pushed then bc_concurrency_queue_destroy a;; mret None
            else mret (Some (a, mk_shared q 1 zero_walk_stats false u))
        end
  end.

(** After the dispatch. *)
Definition parallel_finish (a : Z) (ok : bool) (out_stats : option bc_io_walk_stats_t)
    (s : bc_io_walk_shared_t qstate U) : M (bool * option bc_io_walk_stats_t * U) :=
  bc_concurrency_queue_destroy a;;
  mret (ok && negb (shared_visit_failed s),
        match out_stats with Some _ => Some (shared_stats s) | None => None end,
        shared_client s).

(** The result, [*out_stats] and the client's state; [None] while workers are
    running at the end of the schedule. *)
Definition bc_io_walk_parallel (stack : list Z) (deep laps : nat) (d : dispatch)
    (config : bc_io_walk_config_t U) (out_stats : option bc_io_walk_stats_t) (u : U)
    : M (option (bool * option bc_io_walk_stats_t * U)) :=
  setup ← parallel_setup stack config u;
  match setup with
  | None => mret (Some (false, out_stats, u))
  | Some (a, s) =>
      let workers := replicate (Nat.min (started d) (Z.to_nat effective_worker_count)) Starting in
      p ← (fun w => match pool_run config stack deep laps (schedule d) (mk_pool workers (w, s)) with
                    | Done p => Done (p, (common p).1)
                    | Undefined => Undefined
                    | OutOfFuel => OutOfFuel
                    end) : M (pool U);
      if all_gone p then
        r ← parallel_finish a (dispatch_ok d) out_stats (common p).2;
        mret (Some r)
      else mret None
  end.
End parallel_call.

(** ** Queue entries *)

(** The path of a queue entry: a string shorter than the array, at least as long as
    its length says. *)
Definition queued_ok (e : bc_io_walk_queue_entry_t) : Prop :=
  path_ok (queue_path e) (queue_path_length e).

Lemma make_queue_entry_spec `{PF : Platform} {PL : PlatformLaws PF} stack path len dep :
  zlen stack = BC_IO_MAX_PATH_LENGTH ->
  0 <= len < BC_IO_MAX_PATH_LENGTH -> len <= zlen path ->
  make_queue_entry stack path len dep =
    Done (mk_queue_entry (ztake len path ++ zrepeat 0 (BC_IO_MAX_PATH_LENGTH - len)) len dep).
Proof.
  intros stack_size Hlen Hz. unfold make_queue_entry. rewrite core_zero_spec, stack_size. unfold BC_IO_MAX_PATH_LENGTH in *.
  rewrite (span_in_range path) by lia. rewrite (zdrop_0 0 path) by lia. unfold mbind, res_bind.
  rewrite span_in_range by block_lia. rewrite zdrop_0 by lia. rewrite core_copy_spec by block_lia.
  rewrite blit_in_range by block_lia. rewrite ztake_0 by lia. simpl app.
  rewrite zlen_ztake, zdrop_zrepeat by lia. replace (0 + Z.min (Z.max 0 len) (zlen path)) with len by lia.
  rewrite poke_in_range by block_lia. do 2 f_equal.
  replace (Z.to_nat len) with (length (ztake len path) + 0)%nat.
  2: { unfold ztake. rewrite length_take. unfold zlen in Hz. lia. }
  rewrite insert_app_r. f_equal. unfold zrepeat.
  replace (Z.to_nat (4096 - len)) with (S (Z.to_nat (4095 - len))) by lia. done.
Qed.

Lemma made_entry_ok path len dep :
  0 < len < BC_IO_MAX_PATH_LENGTH -> len <= zlen path ->
  queued_ok (mk_queue_entry (ztake len path ++ zrepeat 0 (BC_IO_MAX_PATH_LENGTH - len)) len dep).
Proof.
  intros Hlen Hz. unfold queued_ok, path_ok, BC_IO_MAX_PATH_LENGTH in *. simpl. split_and!; [lia..|block_lia|].
  unfold zrepeat. replace (Z.to_nat (4096 - len)) with (S (Z.to_nat (4095 - len))) by lia. simpl. set_solver.
Qed.
