(* ===== verification/ParallelSafe.v ===== *)
(** * The parallel walk under every interleaving

    The invariant of the pool and the rules of the actions, on any kernel, with any
    callbacks.  Each worker's [share] has its heap cells, what it took from the
    ledger, the directories it answers for in [outstanding_directory_count], the
    directories it took from the queue so far and those it may still put there
    without a further batch of records ([spare]), a bound on the kernel's patience,
    and whether a visit was refused that [visit_failed] does not show yet. *)

From S2P Require Import Prelude Platform Objects Machine Scripted FilePath DirentReader.
From S2P Require Import WalkEntry WalkSequential Interleave Concurrency WalkParallel.

Record share := mk_share {
  cells : gmap Z object;
  takes : resource -> Z;
  owed : Z;
  pops : Z;
  spare : Z;
  sees : nat;
  refusing : bool;
}.

Definition with_cells (c : gmap Z object) (d : resource -> Z) (n : nat) (g : share) : share :=
  mk_share c (fun r => takes g r + d r) (owed g) (pops g) (spare g) n (refusing g).
Definition with_owed (n : Z) (g : share) : share :=
  mk_share (cells g) (takes g) n (pops g) (spare g) (sees g) (refusing g).
Definition with_pops (n : Z) (g : share) : share :=
  mk_share (cells g) (takes g) (owed g) n (spare g) (sees g) (refusing g).
Definition with_spare (n : Z) (g : share) : share :=
  mk_share (cells g) (takes g) (owed g) (pops g) n (sees g) (refusing g).
Definition with_refusing (b : bool) (g : share) : share :=
  mk_share (cells g) (takes g) (owed g) (pops g) (spare g) (sees g) b.

Section safe.
Context {PF : Platform} {PL : PlatformLaws PF}.
Context {CC : Concurrency PF bc_io_walk_queue_entry_t} {CL : ConcurrencyLaws CC} {U : Type}.
Variable config : bc_io_walk_config_t U.
Variable stack : list Z.
Hypothesis stack_size : zlen stack = BC_IO_MAX_PATH_LENGTH.
Hypothesis visits : visit config <> None.

Notation shared := (bc_io_walk_shared_t qstate U).
Notation state := (world * shared)%type.

(** What the callbacks keep true of the client's state, whoever calls them: [I] as
    long as no visit was refused, [J] once one was. *)
Variable I J : U -> Prop.

Definition callback_ok {B} (f : U -> B * U) : Prop :=
  forall u, (I u -> I (f u).2) /\ (J u -> J (f u).2).
Definition visit_kept (f : U -> bool * U) : Prop :=
  forall u, (I u -> if (f u).1 then I (f u).2 else J (f u).2) /\ (J u -> J (f u).2).

Record shared_client_ok : Prop := {
  shared_stop_ok f : should_stop_check config = Some f -> callback_ok f;
  shared_filter_ok f e : filter_fn config = Some f -> callback_ok (f e);
  shared_descend_ok f e : should_descend config = Some f -> callback_ok (f e);
  shared_error_ok f p st e : on_error config = Some f -> callback_ok (fun u => (tt, f p st e u));
  shared_visit_ok f e : visit config = Some f -> visit_kept (f e);
}.
Hypothesis ok : shared_client_ok.

(** ** The invariant *)

Record world_inv (w : world) (gs : list share) : Prop := {
  inv_heap : splits (heap w) (cells <$> gs);
  inv_held r : held w r = total (fun g => takes g r) gs;
  inv_wf : wf_world w;
  inv_sees : Forall (fun g => patience (env w) <= sees g)%nat gs;
}.

(** [room]: the slots of the queue.  [limit]: a bound on the directories taken from
    the queue, now and later. *)
Variable room limit : Z.

Definition potential (w : world) (s : shared) (gs : list share) : Z :=
  zlen (contents (directory_queue s)) + total (fun g => pops g + spare g) gs +
  8193 * Z.of_nat (patience (env w)).

Record shared_inv (s : shared) (gs : list share) : Prop := {
  inv_queue : Forall queued_ok (contents (directory_queue s));
  inv_slots : slots (directory_queue s) = room /\ zlen (contents (directory_queue s)) <= room;
  inv_outstanding :
    outstanding_directory_count s = wrap32 (zlen (contents (directory_queue s)) + total owed gs);
  inv_client : (I (shared_client s) \/ J (shared_client s)) /\
    (shared_visit_failed s = false -> Forall (fun g => refusing g = false) gs -> I (shared_client s));
}.

Record Inv (ws : state) (gs : list share) : Prop := {
  inv_world : world_inv ws.1 gs;
  inv_shared : shared_inv ws.2 gs;
  inv_limit : potential ws.1 ws.2 gs <= limit;
  inv_spare : Forall (fun g => 0 <= spare g /\ 0 <= owed g <= 1 /\ 0 <= pops g) gs;
}.

Lemma Inv_perm ws gs gs' : gs ≡ₚ gs' -> Inv ws gs -> Inv ws gs'.
Proof.
  intros Hp [[Hh Hd Hwf Hs] [Hq Hsl Ho [Hc1 Hc2]] Hl Hsp]. split.
  - split; [|intros r; rewrite Hd; by apply total_perm|done|by rewrite <- Hp].
    eapply splits_perm; [|done]. by rewrite Hp.
  - split; [done|done|by rewrite Ho, (total_perm owed _ _ Hp)|].
    split; [done|]. rewrite <- Hp. exact Hc2.
  - unfold potential in *. by rewrite <- (total_perm _ _ _ Hp).
  - by rewrite <- Hp.
Qed.

(** ** Actions on the world *)

(** How a share may change where its owner only acts on the world. *)
Record moves (c : gmap Z object) (d : resource -> Z) (g g' : share) : Prop := {
  moves_cells : cells g' = c;
  moves_takes r : takes g' r = takes g r + d r;
  moves_owed : owed g' = owed g;
  moves_pops : pops g' = pops g;
  moves_sees : (sees g' <= sees g)%nat;
  moves_refusing : refusing g' = refusing g;
}.

Lemma moves_refl g : moves (cells g) nothing g g.
Proof. split; try done. intros r. unfold nothing. lia. Qed.

Lemma moves_trans c1 c2 d1 d2 g1 g2 g3 :
  moves c1 d1 g1 g2 -> moves c2 d2 g2 g3 -> moves c2 (fun r => d1 r + d2 r) g1 g3.
Proof.
  intros [? Ht1 ? ? ? ?] [? Ht2 ? ? ? ?]. split; try congruence; [|lia].
  intros r. rewrite Ht2, Ht1. lia.
Qed.

Lemma moves_ext c c' d d' g g' :
  moves c d g g' -> c = c' -> (forall r, d r = d' r) -> moves c' d' g g'.
Proof. intros [] <- E. split; try done. intros r. by rewrite <- E. Qed.

Lemma moves_spare c d n g g' : moves c d g g' -> moves c d g (with_spare n g').
Proof. by intros []. Qed.

Lemma world_inv_evolved w w' g g' F c d h :
  world_inv w (g :: F) -> evolved h d w w' -> splits h (c :: (cells <$> F)) ->
  moves c d g g' -> sees g' = patience (env w') -> world_inv w' (g' :: F).
Proof.
  intros [Hh Hd Hwf Hs] [Hh' Hd' Hwf' Hp] Hsp [Hc Ht _ _ _ _] Hg'.
  split; [by rewrite Hh'; simpl; rewrite Hc| |done|].
  - intros r. rewrite Hd', Hd. simpl. rewrite Ht. lia.
  - apply Forall_cons in Hs as [_ Hs]. apply Forall_cons. split; [lia|].
    eapply Forall_impl; [exact Hs|]. intros x Hx. simpl in *. lia.
Qed.

(** The rule: the action's effect on its owner's cells and on the ledger, and the
    account of the directories it makes possible. *)
Lemma pwp_on_world {B} (m : M B) (Q : B -> share -> Prop) g :
  (forall w F, world_inv w (g :: F) ->
     wp m (fun b w' => exists h c d n, evolved h d w w' /\ splits h (c :: (cells <$> F)) /\
       0 <= n /\ n + 8193 * Z.of_nat (patience (env w')) <=
         spare g + 8193 * Z.of_nat (patience (env w)) /\
       forall g', moves c d g g' -> sees g' = patience (env w') -> spare g' = n -> Q b g') w) ->
  pwp Inv (on_world m) Q g.
Proof.
  intros H. apply pwp_atomic. intros [w s] F [Hw Hs Hl Hsp]. simpl in *.
  specialize (H w F Hw). apply wp_run in H as (b & w' & E & h & c & d & n & He & Hc & Hn & Hpot & HQ).
  rewrite E. eexists b, _, (with_spare n (with_cells c d (patience (env w')) g)). split; [done|].
  assert (Hsees : (patience (env w') <= sees g)%nat).
  { pose proof (inv_sees _ _ Hw) as Hsees. apply Forall_cons in Hsees as [Hsees _].
    pose proof (evolved_patience _ _ _ _ He). lia. }
  set (g' := with_spare _ _). assert (Hm : moves c d g g') by by split.
  split; [|by apply HQ]. split.
  - by eapply world_inv_evolved.
  - destruct Hs as [? ? Ho [? Hc2]]. split; try done. split; [done|].
    intros Hf Hall. apply Hc2; [done|]. by apply Forall_cons in Hall as [? ?]; constructor.
  - unfold potential in *. simpl in *. lia.
  - apply Forall_cons in Hsp as [[_ ?] Hsp]. by constructor.
Qed.

(** The same for actions that neither allocate nor release. *)
Lemma pwp_quiet {B} (m : M B) (Q : B -> share -> Prop) g :
  0 <= spare g ->
  (forall w F, world_inv w (g :: F) ->
     wp m (fun b w' => quiet w w' /\
       forall g', moves (cells g) nothing g g' -> spare g' = spare g -> Q b g') w) ->
  pwp Inv (on_world m) Q g.
Proof.
  intros Hsp H. apply pwp_on_world. intros w F Hw. eapply wp_mono; [by apply (H w F)|].
  intros b w' [Hq HQ]. pose proof (quiet_patience _ _ Hq).
  exists (heap w), (cells g), nothing, (spare g). split_and!; [by eapply evolved_quiet, inv_wf|exact (inv_heap _ _ Hw)|done|lia|].
  intros g' Hm _ Hg'. by apply HQ.
Qed.

(** ** Actions on the shared variables *)

Lemma pwp_on_shared {B} (f : shared -> B * shared) (Q : B -> share -> Prop) g :
  (forall w s F, Inv (w, s) (g :: F) ->
     exists g', Inv (w, (f s).2) (g' :: F) /\ Q (f s).1 g') ->
  pwp Inv (on_shared f) Q g.
Proof.
  intros H. apply pwp_atomic. intros [w s] F Hinv. destruct (H w s F Hinv) as (g' & Hinv' & HQ).
  destruct (f s) as [b s']. by exists b, (w, s'), g'.
Qed.

(** Replacing the share of the acting thread: the world does not change. *)
Lemma world_inv_share w g g' F :
  world_inv w (g :: F) -> cells g' = cells g -> (forall r, takes g' r = takes g r) ->
  sees g' = sees g -> world_inv w (g' :: F).
Proof.
  intros [Hh Hd Hwf Hs] Hc Ht Hs'. split; [by simpl; rewrite Hc| |done|].
  - intros r. rewrite Hd. simpl. by rewrite Ht.
  - apply Forall_cons in Hs as [Hs1 Hs]. apply Forall_cons. by rewrite Hs'.
Qed.

Lemma Inv_owner ws g F : Inv ws (g :: F) -> 0 <= spare g /\ 0 <= owed g <= 1 /\ 0 <= pops g.
Proof. intros Hinv. by pose proof (inv_spare _ _ Hinv) as [? _]%Forall_cons. Qed.

Lemma Inv_share w s s' g g' F :
  Inv (w, s) (g :: F) -> cells g' = cells g -> (forall r, takes g' r = takes g r) -> sees g' = sees g ->
  shared_inv s' (g' :: F) ->
  zlen (contents (directory_queue s')) + (pops g' + spare g') <=
    zlen (contents (directory_queue s)) + (pops g + spare g) ->
  0 <= spare g' -> 0 <= owed g' <= 1 -> 0 <= pops g' -> Inv (w, s') (g' :: F).
Proof.
  intros [Hw Hs Hl Hsp] Hc Ht Hs' Hshared Hpot Hsp' Ho' Hpops'. split; [by eapply world_inv_share|done| |].
  - unfold potential in *. simpl in *. lia.
  - apply Forall_cons in Hsp as [_ Hsp]. by constructor.
Qed.

Lemma pwp_load_visit_failed n (Q : bool -> share -> Prop) g :
  0 <= n <= spare g -> (forall b, Q b (with_spare n g)) -> pwp Inv load_visit_failed Q g.
Proof.
  intros Hn HQ. apply pwp_on_shared. intros w s F Hinv. exists (with_spare n g). split; [|apply HQ].
  pose proof (Inv_owner _ _ _ Hinv).
  eapply Inv_share; try done; simpl; try lia. pose proof (inv_shared _ _ Hinv) as [? ? Ho [? Hc2]].
  split; try done. split; [done|]. intros Hf Hall. apply Hc2; [done|].
  by apply Forall_cons in Hall as [? ?]; constructor.
Qed.

Lemma pwp_count f (Q : unit -> share -> Prop) g : Q tt g -> pwp Inv (fetch_add_stat f) Q g.
Proof.
  intros HQ. apply pwp_on_shared. intros w s F Hinv. exists g. split; [|done].
  destruct Hinv as [? [? ? ? ?] ? ?]. by split.
Qed.

Lemma Inv_client w s gs u :
  Inv (w, s) gs -> (I (shared_client s) -> I u) -> (J (shared_client s) -> J u) ->
  Inv (w, with_client u s) gs.
Proof.
  intros [? [? ? ? [Hc1 Hc2]] ? ?] HI HJ. split; [done| |done|done]. split; [done..|]. simpl in *.
  split; [tauto|auto].
Qed.

Lemma pwp_on_client {B} (f : U -> B * U) (Q : B -> share -> Prop) g :
  callback_ok f -> (forall b, Q b g) -> pwp Inv (on_client f) Q g.
Proof.
  intros Hf HQ. apply pwp_on_shared. intros w s F Hinv. exists g.
  destruct (Hf (shared_client s)) as [HI HJ]. destruct (f (shared_client s)) as [b u]. split; [|done].
  by apply Inv_client.
Qed.

Lemma pwp_ask (f : option (bc_io_walk_entry_t -> U -> bool * U)) e (Q : bool -> share -> Prop) g :
  (forall f', f = Some f' -> callback_ok (f' e)) -> (forall b, Q b g) -> pwp Inv (ask_shared f e) Q g.
Proof.
  intros Hf HQ. unfold ask_shared. destruct f as [f|]; [|by apply pwp_ret].
  apply pwp_on_client; [by apply Hf|done].
Qed.

Lemma pwp_visit e (Q : bool -> share -> Prop) g :
  refusing g = false -> Q true g -> Q false (with_refusing true g) ->
  pwp Inv (ask_shared (visit config) e) Q g.
Proof.
  intros Hg HQt HQf. destruct (visit config) as [f|] eqn:Ev; [|done]. apply pwp_on_shared.
  intros w s F Hinv. destruct (shared_visit_ok ok f e Ev (shared_client s)) as [HI HJ].
  destruct (f e (shared_client s)) as [b u]. simpl in *. exists (if b then g else with_refusing true g).
  split; [|by destruct b]. pose proof (Inv_owner _ _ _ Hinv). destruct Hinv as [Hw [Hq Hsl Ho [Hc1 Hc2]] Hl Hsp]. destruct b.
  - split; [done| |done|done]. split; [done..|]. simpl in *. split; [tauto|auto].
  - eapply Inv_share; try done; simpl; try lia.
    + split; [done..|]. simpl. split; [tauto|]. intros _ Hall. by apply Forall_cons in Hall as [? _].
Qed.

Lemma pwp_store_visit_failed (Q : unit -> share -> Prop) g :
  Q tt (with_refusing false g) -> pwp Inv store_visit_failed Q g.
Proof.
  intros HQ. apply pwp_on_shared. intros w s F Hinv. exists (with_refusing false g). split; [|done].
  pose proof (Inv_owner _ _ _ Hinv).
  destruct Hinv as [Hw [Hq Hsl Ho [Hc1 Hc2]] Hl Hsp].
  eapply Inv_share; [by split|..]; simpl; try done; lia.
Qed.

Lemma wrap32_add_l a b : wrap32 (wrap32 a + b) = wrap32 (a + b).
Proof. apply Zplus_mod_idemp_l. Qed.

Lemma pwp_outstanding n (Q : unit -> share -> Prop) g :
  0 <= owed g + n <= 1 -> Q tt (with_owed (owed g + n) g) -> pwp Inv (fetch_add_outstanding n) Q g.
Proof.
  intros Hn HQ. apply pwp_on_shared. intros w s F Hinv. exists (with_owed (owed g + n) g). split; [|done].
  pose proof (Inv_owner _ _ _ Hinv).
  pose proof Hinv as [Hw [Hq Hsl Ho [Hc1 Hc2]] Hl Hsp]. simpl in *.
  eapply Inv_share; [exact Hinv|..]; simpl; try done; try lia.
  split; simpl; [done..| |].
  - rewrite Ho, wrap32_add_l. f_equal. lia.
  - split; [done|]. intros Hf Hall. apply Hc2; [done|]. by apply Forall_cons in Hall as [? ?]; constructor.
Qed.

Lemma pwp_push e (Q : bool -> share -> Prop) g :
  queued_ok e -> 1 <= spare g -> owed g = 1 ->
  Q true (with_owed (owed g - 1) (with_spare (spare g - 1) g)) -> Q false g ->
  pwp Inv (push e) Q g.
Proof.
  intros He Hsp1 Ho1 HQt HQf. apply pwp_on_shared. intros w s F Hinv. simpl.
  pose proof (Inv_owner _ _ _ Hinv).
  pose proof Hinv as [Hw [Hq [Hsl Hlen] Ho [Hc1 Hc2]] Hl Hsp]. simpl in *.
  destruct (queue_push (directory_queue s) e) as [[] q] eqn:Ep.
  - apply queue_push_true in Ep as (Hperm & Hlen' & Hsl').
    assert (Hz : zlen (contents q) = 1 + zlen (contents (directory_queue s))).
    { unfold zlen. rewrite Hperm. simpl. lia. }
    eexists. split; [|exact HQt]. eapply Inv_share; [exact Hinv|..]; simpl; try done; try lia.
    split; simpl.
    + rewrite Hperm. by constructor.
    + lia.
    + rewrite Ho. f_equal. lia.
    + split; [done|]. intros Hf Hall. apply Hc2; [done|]. by apply Forall_cons in Hall as [? ?]; constructor.
  - apply queue_push_false in Ep as [Hc' Hsl']. exists g. split; [|done]. split; simpl; try done.
    + split; simpl; by rewrite ?Hc', ?Hsl'.
    + unfold potential in *. simpl in *. by rewrite Hc'.
Qed.

(** A callback cannot do harm where an error is reported. *)
Lemma pwp_report_error path stage e (Q : unit -> share -> Prop) g :
  Q tt g -> pwp Inv (bc_io_walk_report_error config path stage e) Q g.
Proof.
  intros HQ. apply pwp_bind, pwp_count. destruct (on_error config) as [f|] eqn:Ee; [|by apply pwp_ret].
  apply pwp_on_client; [by eapply shared_error_ok|]. by intros [].
Qed.

(** ** Readers *)

Definition reader_sized (r : bc_io_dirent_reader_t) : Prop :=
  zlen (reader_buffer r) = BC_IO_DIRENT_READER_BUFFER_SIZE.

Lemma reader_ok_sized r : reader_ok r -> reader_sized r.
Proof. intros (ds & (? & ? & _ & _ & _ & ?) & _). done. Qed.

Definition left_in (r : bc_io_dirent_reader_t) : Z := reader_used r - cursor r.

Lemma left_in_nonneg r : reader_ok r -> 0 <= left_in r.
Proof.
  intros (ds & (pre & post & _ & Hc & Hu & _) & _). unfold left_in. rewrite Hc, Hu.
  pose proof (zlen_nonneg (encode_batch ds)). lia.
Qed.

Lemma turns_left_in r w :
  reader_ok r -> Z.of_nat (turns r w) = left_in r + 8193 * Z.of_nat (patience (env w)).
Proof. intros Hr. pose proof (left_in_nonneg r Hr). unfold turns, left_in in *. lia. Qed.

Lemma pwp_reader_create (Q : option Z -> share -> Prop) g :
  0 <= spare g ->
  (forall p r g', p <> 0 -> cells g !! p = None -> reader_sized r ->
     moves (<[p := OReader r]> (cells g)) (tokens [RPool p]) g g' -> spare g' = spare g -> Q (Some p) g') ->
  (forall g', moves (cells g) nothing g g' -> spare g' = spare g -> Q None g') ->
  pwp Inv (on_world (bc_io_dirent_reader_create (-1))) Q g.
Proof.
  intros Hsp Hok Hno. apply pwp_on_world. intros w F Hw.
  eapply wp_mono; [by eapply reader_create_spec, inv_wf|]. intros [p|] w'.
  - intros (r & Hp & Hp0 & Hr & _ & _ & _ & _ & He). pose proof (evolved_patience _ _ _ _ He).
    pose proof (inv_heap _ _ Hw) as Hs.
    exists (<[p := OReader r]> (heap w)), (<[p := OReader r]> (cells g)), (tokens [RPool p]), (spare g).
    split_and!; [done|by apply splits_insert|done|lia|]. intros g' Hm _ Hg'.
    apply (Hok p r); try done; [|by apply reader_ok_sized].
    destruct (cells g !! p) eqn:E; [|done]. by rewrite (splits_lookup _ _ _ _ _ Hs E) in Hp.
  - intros He. pose proof (evolved_patience _ _ _ _ He).
    exists (heap w), (cells g), nothing, (spare g). split_and!; [done|exact (inv_heap _ _ Hw)|done|lia|].
    intros g' Hm _ Hg'. by apply Hno.
Qed.

Lemma pwp_reader_destroy p r (Q : unit -> share -> Prop) g :
  0 <= spare g -> p <> 0 -> cells g !! p = Some (OReader r) ->
  (forall g', moves (delete p (cells g)) (fun x => - one x (RPool p)) g g' -> spare g' = spare g -> Q tt g') ->
  pwp Inv (on_world (bc_io_dirent_reader_destroy p)) Q g.
Proof.
  intros Hsp Hp0 Hp HQ. apply pwp_on_world. intros w F Hw. pose proof (inv_heap _ _ Hw) as Hs.
  pose proof (splits_lookup _ _ _ _ _ Hs Hp) as Hpw.
  eapply wp_mono.
  { eapply (reader_destroy_spec (delete p (heap w)) nothing w p r w); [done| |by simplify_map_eq].
    rewrite insert_delete_eq, insert_id by done. by eapply evolved_refl, inv_wf. }
  intros [] w' He. pose proof (evolved_patience _ _ _ _ He).
  eexists _, (delete p (cells g)), _, (spare g). split_and!; [exact He|by eapply splits_delete|done|lia|].
  intros g' Hm _ Hg'. apply HQ; [|done]. eapply moves_ext; [exact Hm|done|]. intros x. unfold nothing. lia.
Qed.

(** Storing another state of a reader in its cell. *)
Lemma evolved_stored p o o' w :
  wf_world w -> heap w !! p = Some o ->
  evolved (<[p := o']> (heap w)) nothing w (mk_world (env w) (mem w) (errno w) (<[p := o']> (heap w)) (trace w)).
Proof.
  intros Hwf Hp. split; [done| | |done].
  - intros x. unfold nothing. held_lia.
  - unfold wf_world in *. simpl. rewrite dom_insert_L. apply elem_of_dom_2 in Hp. set_solver.
Qed.

Lemma pwp_reader_reset p r fd (Q : unit -> share -> Prop) g :
  0 <= spare g -> cells g !! p = Some (OReader r) ->
  (forall g', moves (<[p := OReader (bc_io_dirent_reader_reset r fd)]> (cells g)) nothing g g' ->
     spare g' = spare g -> Q tt g') ->
  pwp Inv (on_world (reader_reset p fd)) Q g.
Proof.
  intros Hsp Hp HQ. apply pwp_on_world. intros w F Hw. pose proof (inv_heap _ _ Hw) as Hs.
  pose proof (splits_lookup _ _ _ _ _ Hs Hp) as Hpw.
  apply wp_bind. eapply wp_load_reader; [done|]. eapply wp_store; [done|].
  eexists _, _, nothing, (spare g). split_and!; [by eapply evolved_stored; [eapply inv_wf|]|by eapply splits_update|done|simpl; lia|].
  intros g' Hm _ Hg'. by apply HQ.
Qed.

Lemma pwp_reader_next laps p r n (Q : option (option bc_io_dirent_entry_t) * Z -> share -> Prop) g :
  cells g !! p = Some (OReader r) -> reader_ok r -> 0 <= n -> spare g = n + left_in r ->
  8193 * Z.of_nat (sees g) + left_in r < Z.of_nat laps ->
  (forall answer e r' g', reader_ok r' -> moves (<[p := OReader r']> (cells g)) nothing g g' ->
     match answer with
     | Some (Some x) => (exists d, tells x d /\ dirent_ok d) /\ spare g' = n + left_in r' + 1 /\
         8193 * Z.of_nat (sees g') + left_in r' < 8193 * Z.of_nat (sees g) + left_in r
     | _ => spare g' = n
     end -> Q (answer, e) g') ->
  pwp Inv (on_world (reader_next laps p)) Q g.
Proof.
  intros Hp Hr Hn Hsp Hlaps HQ. apply pwp_on_world. intros w F Hw. pose proof (inv_heap _ _ Hw) as Hs.
  pose proof (splits_lookup _ _ _ _ _ Hs Hp) as Hpw.
  pose proof (inv_sees _ _ Hw) as [Hsees _]%Forall_cons. pose proof (turns_left_in r w Hr) as Ht.
  pose proof (left_in_nonneg r Hr). apply wp_bind. eapply wp_load_reader; [done|].
  apply wp_bind. eapply wp_mono; [apply next_spec; [done|lia]|].
  intros [answer r'] w1 (Hq & _ & Hr' & _ & Hle & Hans).
  pose proof (evolved_quiet _ _ Hq (inv_wf _ _ Hw)) as [Hh1 Hd1 Hwf1 Hp1].
  pose proof (turns_left_in r' w1 Hr') as Ht'. pose proof (left_in_nonneg r' Hr').
  apply wp_bind. eapply wp_store; [by rewrite Hh1|]. apply wp_ret. rewrite Hh1.
  exists (<[p := OReader r']> (heap w)), (<[p := OReader r']> (cells g)), nothing,
    (match answer with Some (Some _) => n + left_in r' + 1 | _ => n end).
  split_and!; simpl.
  - split; [done|exact Hd1| |done]. unfold wf_world in *. simpl. rewrite Hh1 in Hwf1.
    rewrite dom_insert_L. apply elem_of_dom_2 in Hpw. set_solver.
  - by eapply splits_update.
  - destruct answer as [[]|]; lia.
  - destruct answer as [[x|]|]; [|lia|lia]. destruct Hans as [Hlt _]. lia.
  - intros g' Hm Hs' Hg'. apply (HQ answer _ r'); [done|done|].
    destruct answer as [[x|]|]; [|done|done]. destruct Hans as [Hlt (d & Hx & Hd & _)].
    split; [by exists d|]. split; [done|]. lia.
Qed.

(** ** A directory *)

(** At rest: nothing refused, nothing owed. *)
Definition calm (g : share) : Prop := refusing g = false /\ owed g = 0.

Lemma moves_calm c d g g' : moves c d g g' -> calm g -> calm g'.
Proof. intros [] [? ?]. split; congruence. Qed.

(** What the code that walks a directory with a given reader promises. *)
Definition processes (deep laps : Z) (walk : Z -> list Z -> Z -> Z -> proc state unit) : Prop :=
  forall p r path len dep g,
    cells g !! p = Some (OReader r) -> reader_sized r -> path_ok path len ->
    BC_IO_MAX_PATH_LENGTH - len <= deep -> calm g -> 0 <= spare g ->
    8193 * Z.of_nat (sees g) < laps ->
    pwp Inv (walk p path len dep)
      (fun _ g' => exists r', reader_sized r' /\ moves (<[p := OReader r']> (cells g)) nothing g g' /\
         spare g' = spare g) g.

Section directory.
Variable deep : Z.
Variable laps : nat.
Variable recurse : Z -> list Z -> Z -> Z -> proc state unit.
Hypothesis walk : processes deep (Z.of_nat laps) recurse.

(** What is left when an entry has been dealt with, [n] being for the others. *)
Definition settled (n : Z) (g g' : share) : Prop := moves (cells g) nothing g g' /\ n <= spare g'.

Lemma settled_moves n g g1 g2 :
  moves (cells g) nothing g g1 -> settled n g1 g2 -> settled n g g2.
Proof.
  intros Hm [Hm' Hn]. split; [|done]. eapply moves_ext; [eapply moves_trans; [exact Hm|exact Hm']| |].
  - apply Hm.
  - intros r. unfold nothing. lia.
Qed.

Lemma pwp_descend n e g :
  path_ok (absolute_path e) (absolute_path_length e) ->
  BC_IO_MAX_PATH_LENGTH - absolute_path_length e <= deep -> calm g ->
  0 <= n -> spare g = n + 1 -> 8193 * Z.of_nat (sees g) < Z.of_nat laps ->
  pwp Inv (parallel_descend config stack recurse e) (fun _ g' => settled n g g') g.
Proof.
  intros (Hlen & Hz & H0) Hdeep Hg Hn Hsp Hlaps.
  apply pwp_bind, pwp_local. rewrite make_queue_entry_spec by (done || lia). simpl.
  pose proof (made_entry_ok (absolute_path e) (absolute_path_length e) (depth e) Hlen Hz) as Hq.
  set (sub := mk_queue_entry _ _ _) in *. pose proof Hg as [_ Ho].
  apply pwp_bind, pwp_outstanding; [lia|]. apply pwp_bind, pwp_push; simpl; [done|lia|lia|..].
  - apply pwp_ret. split; [|simpl; lia]. split; simpl; try done; try lia. intros r. unfold nothing. lia.
  - apply pwp_bind, pwp_outstanding; [simpl; lia|]. simpl. set (g1 := with_owed _ _).
    assert (Hm1 : moves (cells g) nothing g g1).
    { split; simpl; try done; try lia. intros r. unfold nothing. lia. }
    assert (Hsp1 : spare g1 = n + 1) by done. assert (Hsees1 : sees g1 = sees g) by done.
    assert (Hg1 : calm g1) by by eapply moves_calm. clearbody g1. pose proof (moves_cells _ _ _ _ Hm1) as Hc1.
    apply pwp_bind, pwp_reader_create; [lia|..].
    + intros p r g2 Hp0 Hp Hr Hm2 Hsp2. pose proof (moves_cells _ _ _ _ Hm2) as Hc2.
      apply pwp_bind. eapply pwp_mono.
      { apply (walk p r); try done.
        - rewrite Hc2. by simplify_map_eq.
        - by eapply moves_calm.
        - lia.
        - destruct Hm2. lia. }
      intros _ g3 (r3 & Hr3 & Hm3 & Hsp3). rewrite Hc2, insert_insert_eq in Hm3.
      pose proof (moves_cells _ _ _ _ Hm3) as Hc3.
      eapply (pwp_reader_destroy p r3); [lia|done|rewrite Hc3; by simplify_map_eq|].
      intros g4 Hm4 Hsp4. rewrite Hc3 in Hm4. split; [|lia].
      eapply moves_ext; [eapply moves_trans; [eapply moves_trans; [eapply moves_trans; [exact Hm1|exact Hm2]|exact Hm3]|exact Hm4]| |].
      * by rewrite Hc1, delete_insert_eq, delete_id by congruence.
      * intros x. unfold nothing. simpl. lia.
    + intros g2 Hm2 Hsp2. apply pwp_report_error. apply (settled_moves n g g1 g2); [done|].
      split; [done|lia].
Qed.

Lemma pwp_dispatch n e g :
  path_ok (absolute_path e) (absolute_path_length e) ->
  BC_IO_MAX_PATH_LENGTH - absolute_path_length e <= deep -> calm g ->
  0 <= n -> spare g = n + 1 -> 8193 * Z.of_nat (sees g) < Z.of_nat laps ->
  pwp Inv (parallel_dispatch config stack recurse e) (fun _ g' => settled n g g') g.
Proof.
  intros Hpath Hdeep Hg Hn Hsp Hlaps.
  assert (Hstay : settled n g g) by (split; [apply moves_refl|lia]).
  assert (Hrefused : forall g', g' = with_refusing true g ->
    pwp Inv (store_visit_failed;; mret false) (fun _ g' => settled n g g') g').
  { intros g' ->. apply pwp_bind, pwp_store_visit_failed, pwp_ret. split; [|simpl; lia].
    split; simpl; try done; try lia; [|symmetry; apply Hg]. intros r. unfold nothing. lia. }
  apply pwp_bind, pwp_ask; [by intros; eapply shared_filter_ok|]. intros [].
  2: { by apply pwp_bind, pwp_count, pwp_ret. }
  simpl. destruct (decide (kind e = BC_IO_WALK_ENTRY_FILE)).
  { rewrite bool_decide_false by done.
    apply pwp_bind, pwp_count, pwp_bind, pwp_visit; [apply Hg|by apply pwp_ret|by apply Hrefused]. }
  destruct (decide (kind e = BC_IO_WALK_ENTRY_DIRECTORY)); [|by apply pwp_ret].
  apply pwp_bind, pwp_visit; [apply Hg| |by apply Hrefused].
  apply pwp_bind, pwp_ask; [by intros; eapply shared_descend_ok|]. intros []; [|by apply pwp_ret].
  apply pwp_bind. eapply pwp_mono; [by apply (pwp_descend n)|]. intros [] g1 Hs. by apply pwp_ret.
Qed.

Lemma pwp_entry n dfd path len dep x d g :
  path_ok path len -> tells x d -> dirent_ok d ->
  BC_IO_MAX_PATH_LENGTH - len <= deep + 1 -> calm g ->
  0 <= n -> spare g = n + 1 -> 8193 * Z.of_nat (sees g) < Z.of_nat laps ->
  pwp Inv (parallel_entry config stack recurse dfd path len dep x) (fun _ g' => settled n g g') g.
Proof.
  intros (Hlen & Hz & H0) Hx (Hd0 & Hne & Hrec) Hdeep Hg Hn Hsp Hlaps.
  pose proof Hx as (Hname & Hnl & _ & Hbig).
  assert (Hstay : settled n g g) by (split; [apply moves_refl|lia]).
  assert (Hnpos : 0 < zlen (d_name d)).
  { destruct (d_name d); [done|]. rewrite zlen_cons. pose proof (zlen_nonneg l). lia. }
  assert (zlen (d_name d) < 65536).
  { unfold d_reclen in Hrec. pose proof (zlen_nonneg (d_pad d)). lia. }
  unfold parallel_entry. destruct (peek_in_range (entry_name x) 0) as [c Hc]; [lia|].
  apply pwp_bind, pwp_local. rewrite Hc. simpl.
  destruct (decide (c = ch "." /\ include_hidden config = false)); [by apply pwp_ret|].
  unfold BC_IO_MAX_PATH_LENGTH in *.
  apply pwp_bind, pwp_local. rewrite path_join_spec by (unfold u64_modulus; lia). simpl.
  set (j := joined _ _). destruct (decide (zlen j + 1 <= 4096)) as [Hfit|Hfit].
  2: { by apply pwp_bind, pwp_report_error, pwp_ret. }
  assert (Hj : len < zlen j).
  { subst j. unfold joined. rewrite decide_False.
    - rewrite zlen_app, zlen_cons, !zlen_ztake. lia.
    - intros E. apply (f_equal zlen) in E. change (zlen []) with 0 in E. rewrite zlen_ztake in E. lia. }
  apply pwp_bind, pwp_quiet; [lia|]. intros w F Hw. apply wp_bind. eapply wp_mono.
  { apply walk_resolve_quiet. apply tells_terminated in Hx. unfold terminated in Hx.
    by destruct (decide (0 ∈ entry_name x)). }
  intros r w' [Hq _]. apply wp_bind, wp_get_errno, wp_ret. split; [done|]. intros g1 Hm1 Hsp1.
  destruct r as [r|].
  - eapply pwp_mono; [apply (pwp_dispatch n)|]; simpl.
    + unfold path_ok, BC_IO_MAX_PATH_LENGTH. split_and!; [lia..| |set_solver].
      rewrite zlen_app, zlen_cons. pose proof (zlen_nonneg (zdrop (zlen j + 1) stack)). lia.
    + unfold BC_IO_MAX_PATH_LENGTH. lia.
    + by eapply moves_calm.
    + done.
    + lia.
    + destruct Hm1. lia.
    + intros _ g2 Hs. by eapply settled_moves.
  - apply pwp_bind, pwp_report_error, pwp_ret. by split; [|lia].
Qed.

Lemma pwp_loop fuel n p r dfd path len dep g :
  path_ok path len -> BC_IO_MAX_PATH_LENGTH - len <= deep + 1 ->
  cells g !! p = Some (OReader r) -> reader_ok r -> calm g ->
  0 <= n -> n + left_in r <= spare g ->
  8193 * Z.of_nat (sees g) + left_in r < Z.of_nat laps ->
  8193 * Z.of_nat (sees g) + left_in r < Z.of_nat fuel ->
  pwp Inv (parallel_loop config stack recurse fuel laps p dfd path len dep)
    (fun _ g' => exists r', reader_sized r' /\ moves (<[p := OReader r']> (cells g)) nothing g g' /\
       n <= spare g') g.
Proof.
  intros Hpath Hdeep. revert r g.
  induction fuel as [|fuel IH]; intros r g Hp Hr Hg Hn Hsp Hlaps Hfuel; pose proof (left_in_nonneg r Hr); [lia|].
  cbn [parallel_loop]. apply pwp_bind. apply (pwp_load_visit_failed (n + left_in r)); [lia|].
  set (g1 := with_spare _ g). assert (Hm1 : moves (cells g) nothing g g1) by apply moves_spare, moves_refl.
  intros [].
  { apply pwp_ret. exists r. split; [by apply reader_ok_sized|]. rewrite insert_id by done. split; [done|simpl; lia]. }
  apply pwp_bind. apply (pwp_reader_next laps p r n); [done|done|done|done|done|].
  intros answer e r2 g2 Hr2 Hm2 Hans.
  assert (Hm : moves (<[p := OReader r2]> (cells g)) nothing g g2).
  { eapply moves_ext; [eapply moves_trans; [exact Hm1|exact Hm2]|done|]. intros x. unfold nothing. lia. }
  assert (Hend : n <= spare g2 -> exists r', reader_sized r' /\
    moves (<[p := OReader r']> (cells g)) nothing g g2 /\ n <= spare g2).
  { exists r2. split; [by apply reader_ok_sized|done]. }
  destruct answer as [[x|]|].
  2: { apply pwp_ret, Hend. lia. }
  2: { apply pwp_report_error, Hend. lia. }
  destruct Hans as ((d & Hx & Hd) & Hsp2 & Hlt). pose proof (left_in_nonneg r2 Hr2).
  change (sees g1) with (sees g) in Hlt.
  apply pwp_bind. eapply pwp_mono.
  { apply (pwp_entry (n + left_in r2) dfd path len dep x d g2); try done; try lia. by eapply moves_calm. }
  intros go_on g3 [Hm3 Hsp3].
  pose proof (moves_cells _ _ _ _ Hm2) as Hc2. rewrite Hc2 in Hm3. simpl cells in Hm3.
  assert (Hm' : moves (<[p := OReader r2]> (cells g)) nothing g g3).
  { eapply moves_ext; [eapply moves_trans; [exact Hm|exact Hm3]|done|]. intros y. unfold nothing. lia. }
  pose proof (moves_cells _ _ _ _ Hm') as Hc3. destruct go_on.
  - eapply pwp_mono; [apply (IH r2 g3)|]; try done; try lia.
    + rewrite Hc3. by simplify_map_eq.
    + by eapply moves_calm.
    + destruct Hm3. lia.
    + destruct Hm3. lia.
    + intros _ g4 (r4 & Hr4 & Hm4 & Hsp4). exists r4. split; [done|]. split; [|done].
      rewrite Hc3, insert_insert_eq in Hm4.
      eapply moves_ext; [eapply moves_trans; [exact Hm'|exact Hm4]|done|]. intros y. unfold nothing. lia.
  - apply pwp_ret. exists r2. split; [by apply reader_ok_sized|]. split; [done|lia].
Qed.
End directory.

Lemma process_directory_spec deep laps :
  processes (Z.of_nat deep - 1) (Z.of_nat laps) (bc_io_walk_process_directory config stack deep laps).
Proof.
  induction deep as [|deep IH]; intros p r path len dep g Hp Hr Hpath Hdeep Hg Hsp Hlaps.
  { destruct Hpath as [? _]. lia. }
  cbn [bc_io_walk_process_directory].
  apply pwp_bind, (pwp_load_visit_failed (spare g)); [lia|]. set (g1 := with_spare _ g).
  assert (Hm1 : moves (cells g) nothing g g1) by apply moves_spare, moves_refl.
  assert (Hsp1 : spare g1 = spare g) by done. assert (Hc1 : cells g1 = cells g) by done. clearbody g1.
  assert (Hstay : forall g', moves (cells g) nothing g1 g' -> spare g' = spare g ->
    exists r', reader_sized r' /\ moves (<[p := OReader r']> (cells g)) nothing g g' /\ spare g' = spare g).
  { intros g' Hm' Hsp'. exists r. split; [done|]. split; [|done]. rewrite insert_id by done.
    eapply moves_ext; [eapply moves_trans; [exact Hm1|exact Hm']|done|]. intros x. unfold nothing. lia. }
  intros []; [apply pwp_ret, Hstay; [rewrite <- Hc1; apply moves_refl|done]|].
  pose proof Hpath as (Hlen & _ & H0). apply pwp_bind, pwp_local. unfold terminated.
  rewrite decide_True by done. simpl. set (flags := walk_open_flags _). clearbody flags.
  apply pwp_bind, pwp_on_world. intros w F Hw. apply wp_bind.
  eapply (wp_mono _ (fun fd w1 =>
    evolved (heap w) (tokens (if decide (fd < 0) then [] else [RFd fd])) w w1)).
  { pose proof (inv_wf _ _ Hw). apply wp_open; intros.
    - rewrite decide_False by lia. solve_evolved.
    - rewrite decide_True by lia. solve_evolved. }
  intros fd w1 He. pose proof (evolved_patience _ _ _ _ He). apply wp_bind, wp_get_errno, wp_ret.
  eexists _, (cells g1), _, (spare g). split_and!; [exact He|exact (inv_heap _ _ Hw)|done|lia|].
  intros g2 Hm2 _ Hsp2. destruct (decide (fd < 0)).
  { apply pwp_report_error. rewrite Hc1 in Hm2. by apply Hstay. }
  apply pwp_bind, pwp_count. apply pwp_bind.
  pose proof (moves_cells _ _ _ _ Hm2) as Hc2. pose proof (moves_sees _ _ _ _ Hm2).
  pose proof (moves_sees _ _ _ _ Hm1).
  eapply (pwp_reader_reset p r); [lia|by rewrite Hc2, Hc1|]. rewrite Hc2, Hc1. intros g3 Hm3 Hsp3.
  pose proof (moves_cells _ _ _ _ Hm3) as Hc3. pose proof (moves_sees _ _ _ _ Hm3).
  apply pwp_bind. eapply pwp_mono.
  { apply (pwp_loop (Z.of_nat deep - 1) laps _ IH laps (spare g) p (bc_io_dirent_reader_reset r fd)); simpl in *.
    - done.
    - lia.
    - rewrite Hc3. by simplify_map_eq.
    - by apply reset_ok.
    - eapply moves_calm; [exact Hm3|]. eapply moves_calm; [exact Hm2|]. by eapply moves_calm.
    - done.
    - unfold left_in. simpl. lia.
    - unfold left_in. simpl. lia.
    - unfold left_in. simpl. lia. }
  intros _ g4 (r4 & Hr4 & Hm4 & Hsp4). rewrite Hc3, insert_insert_eq in Hm4.
  pose proof (moves_cells _ _ _ _ Hm4) as Hc4.
  apply pwp_on_world. intros w2 F2 Hw2. eapply wp_mono; [eapply close_evolved, inv_wf, Hw2|].
  intros [] w' He2. pose proof (evolved_patience _ _ _ _ He2).
  eexists _, (cells g4), _, (spare g). split_and!; [exact He2|exact (inv_heap _ _ Hw2)|done|lia|].
  intros g5 Hm5 _ Hsp5. exists r4. split; [done|]. split; [|done]. rewrite Hc4 in Hm5.
  eapply moves_ext; [eapply moves_trans; [eapply moves_trans; [eapply moves_trans; [eapply moves_trans; [exact Hm1|exact Hm2]|exact Hm3]|exact Hm4]|exact Hm5]|done|].
  intros x. unfold nothing. simpl. lia.
Qed.

(** ** Workers *)

(** A worker has two shares: in one it keeps the directory it answers for and the
    account of those it took, the other is for the code it runs. *)
Definition keeping (n : Z) (a : share) : Prop :=
  cells a = ∅ /\ (forall r, takes a r = 0) /\ owed a = n /\ spare a = 0 /\ refusing a = false.

Definition uses (laps : nat) (c : gmap Z object) (d : resource -> Z) (b : share) : Prop :=
  cells b = c /\ (forall r, takes b r = d r) /\ calm b /\ spare b = 0 /\ pops b = 0 /\
  8193 * Z.of_nat (sees b) < Z.of_nat laps.

Definition equipped (laps : nat) (dirent_reader : Z) (b : share) : Prop :=
  dirent_reader <> 0 /\ exists r, reader_sized r /\
    uses laps {[dirent_reader := OReader r]} (tokens [RPool dirent_reader]) b.

Definition worker_ok (laps : nat) (k : worker U) (a b : share) : Prop :=
  match k with
  | Starting | Gone => keeping 0 a /\ uses laps ∅ nothing b
  | Giving_up p => keeping 0 a /\ pwp Inv p (fun _ => uses laps ∅ nothing) b
  | Processing rd p => keeping 1 a /\ pwp Inv p (fun _ => equipped laps rd) b
  | At_head rd | At_flag rd | At_pop rd | At_outstanding rd | Leaving rd =>
      keeping 0 a /\ equipped laps rd b
  end.

(** Does the step from [k] to [k'] take a directory from the queue? *)
Definition takes_directory (k k' : worker U) : bool :=
  match k, k' with At_pop _, Processing _ _ => true | _, _ => false end.

Lemma on_world_run {B} (m : M B) (Q : B -> share -> Prop) g w s F :
  pwp Inv (on_world m) Q g -> Inv (w, s) (g :: F) ->
  exists b w' g', m w = Done (b, w') /\ Inv (w', s) (g' :: F) /\ Q b g'.
Proof.
  intros H Hinv. destruct (pwp_act _ _ _ _ _ _ _ H Hinv) as (b & [w' s'] & g' & E & Hinv' & HQ).
  destruct (m w) as [[b' w2]| |]; simplify_eq. by exists b, w', g'.
Qed.

Lemma uses_moves laps c c' d d' b b' :
  uses laps c d b -> moves c' d' b b' -> spare b' = spare b -> uses laps c' (fun r => d r + d' r) b'.
Proof.
  intros (Hc & Ht & Hcalm & Hsp & Hpops & Hsees) Hm Hsp'. pose proof (moves_calm _ _ _ _ Hm Hcalm).
  destruct Hm as [? Ht' ? ? ? ?]. split_and!; try done; try lia. intros r. by rewrite Ht', Ht.
Qed.

Lemma uses_ext laps c c' d d' b :
  uses laps c d b -> c = c' -> (forall r, d r = d' r) -> uses laps c' d' b.
Proof. intros (Hc & Ht & Hrest) <- E. split_and!; try apply Hrest; [done|]. intros r. by rewrite Ht. Qed.

Lemma abandon_ok laps b :
  uses laps ∅ nothing b -> pwp Inv (abandon config) (fun _ => uses laps ∅ nothing) b.
Proof.
  intros Hb. apply pwp_bind, pwp_count, pwp_bind, pwp_store_visit_failed.
  assert (Hb' : uses laps ∅ nothing (with_refusing false b)) by
    (destruct Hb as (? & ? & [? ?] & ? & ? & ?); split_and!; try done; by split).
  destruct (on_error config) as [f|] eqn:Ee; [|by apply pwp_ret].
  apply pwp_on_client; [by eapply shared_error_ok|]. by intros [].
Qed.

Lemma process_ok deep laps rd e b :
  BC_IO_MAX_PATH_LENGTH <= Z.of_nat deep -> queued_ok e -> equipped laps rd b ->
  pwp Inv (bc_io_walk_process_directory config stack deep laps rd (queue_path e) (queue_path_length e)
             (queue_depth e)) (fun _ => equipped laps rd) b.
Proof.
  intros Hdeep He (Hrd & r & Hr & Hb). pose proof Hb as (Hc & _ & Hcalm & Hsp & _ & Hsees).
  destruct He as [Hlen He]. eapply pwp_mono.
  { apply (process_directory_spec deep laps rd r); try done; try lia.
    rewrite Hc. by simplify_map_eq. }
  intros [] b' (r' & Hr' & Hm & Hsp'). split; [done|]. exists r'. split; [done|].
  eapply uses_ext; [by eapply uses_moves| |].
  - by rewrite Hc, insert_singleton_eq.
  - intros x. unfold nothing. lia.
Qed.

(** Taking a directory from the queue. *)
Lemma Inv_pop w s a F e q :
  Inv (w, s) (a :: F) -> keeping 0 a -> queue_pop (directory_queue s) = (Some e, q) ->
  queued_ok e /\ Inv (w, with_queue q s) (with_owed 1 (with_pops (pops a + 1) a) :: F).
Proof.
  intros Hinv (Hc & Ht & Ho & Hsp & Hr) [Hperm Hsl]%queue_pop_some. pose proof (Inv_owner _ _ _ Hinv).
  pose proof Hinv as [Hw [Hq [Hslots Hlen] Hout [Hc1 Hc2]] Hl _]. simpl in *.
  assert (Hz : zlen (contents (directory_queue s)) = 1 + zlen (contents q)).
  { unfold zlen. rewrite Hperm. simpl. lia. }
  rewrite Hperm in Hq. apply Forall_cons in Hq as [He Hq]. split; [done|].
  eapply Inv_share; [exact Hinv|..]; simpl; try done; try lia.
  split; simpl; [done|lia| |].
  - rewrite Hout, Hz. f_equal. lia.
  - split; [done|]. intros Hf Hall. apply Hc2; [done|]. by apply Forall_cons in Hall as [? ?]; constructor.
Qed.

Lemma Inv_pop_none w s gs q :
  Inv (w, s) gs -> queue_pop (directory_queue s) = (None, q) -> Inv (w, with_queue q s) gs.
Proof.
  intros [Hw [Hq Hsl Ho Hc] Hl Hsp] [Hc' Hsl']%queue_pop_none. split; [done| | |done].
  - split; simpl; by rewrite ?Hc', ?Hsl'.
  - unfold potential in *. simpl in *. by rewrite Hc'.
Qed.

Lemma Inv_stop w s gs : Inv (w, s) gs -> Inv (w, (bc_io_walk_should_stop config s).2) gs.
Proof.
  intros Hinv. unfold bc_io_walk_should_stop. destruct (should_stop_check config) as [f|] eqn:E; [|done].
  destruct (shared_stop_ok ok f E (shared_client s)) as [HI HJ]. destruct (f (shared_client s)) as [b u].
  by apply Inv_client.
Qed.

(** A worker whose next action keeps the invariant and its own shares. *)
Definition steps_on (deep laps : nat) (k : worker U) (w : world) (s : shared) (a b : share)
    (F : list share) : Prop :=
  exists k' c a' b', worker_step config stack deep laps k w s = Done (k', c) /\ Inv c (a' :: b' :: F) /\
    worker_ok laps k' a' b' /\ pops a' = pops a + (if takes_directory k k' then 1 else 0).

Lemma Inv_swap c x y F : Inv c (x :: y :: F) -> Inv c (y :: x :: F).
Proof. apply Inv_perm, perm_swap. Qed.

Lemma starting_ok deep laps w s a b F :
  worker_ok laps Starting a b -> Inv (w, s) (a :: b :: F) -> steps_on deep laps Starting w s a b F.
Proof.
  intros [Ha Hb] Hinv%Inv_swap.
  destruct (on_world_run (bc_io_dirent_reader_create (-1)) (fun o b' => match o with
      | Some rd => equipped laps rd b' | None => uses laps ∅ nothing b' end) b w s (a :: F))
    as (o & w' & b' & E & Hinv2%Inv_swap & Hb'); [|exact Hinv|].
  { pose proof Hb as (Hc & _ & _ & Hsp & _). apply pwp_reader_create; [lia|..].
    - intros p r g' Hp0 Hp Hr Hm Hsp'. split; [done|]. exists r. split; [done|].
      eapply uses_ext; [by eapply uses_moves|by rewrite Hc|]. intros x. unfold nothing. lia.
    - intros g' Hm Hsp'. eapply uses_ext; [by eapply uses_moves|done|]. intros x. unfold nothing. lia. }
  unfold steps_on. cbn [worker_step]. rewrite E. destruct o as [rd|].
  - exists (At_head rd), (w', s), a, b'. split_and!; try done. simpl. lia.
  - exists (Giving_up (abandon config)), (w', s), a, b'.
    split_and!; try done; [split; [done|by apply abandon_ok]|simpl; lia].
Qed.

Lemma leaving_ok deep laps rd w s a b F :
  worker_ok laps (Leaving rd) a b -> Inv (w, s) (a :: b :: F) -> steps_on deep laps (Leaving rd) w s a b F.
Proof.
  intros [Ha (Hrd & r & Hr & Hb)] Hinv%Inv_swap. pose proof Hb as (Hc & _ & _ & Hsp & _).
  destruct (on_world_run (bc_io_dirent_reader_destroy rd) (fun _ b' => uses laps ∅ nothing b') b w s (a :: F))
    as (o & w' & b' & E & Hinv2%Inv_swap & Hb'); [|exact Hinv|].
  { eapply (pwp_reader_destroy rd r); [lia|done|rewrite Hc; by simplify_map_eq|].
    intros g' Hm Hsp'. eapply uses_ext; [by eapply uses_moves| |].
    - by rewrite Hc, delete_singleton_eq.
    - intros x. unfold nothing. simpl. lia. }
  unfold steps_on. cbn [worker_step]. rewrite E. exists Gone, (w', s), a, b'.
  split_and!; try done. simpl. lia.
Qed.

(** A worker at the end of a directory answers for one directory less. *)
Lemma processed_ok deep laps rd u w s a b F :
  worker_ok laps (Processing rd (Return u)) a b -> Inv (w, s) (a :: b :: F) ->
  steps_on deep laps (Processing rd (Return u)) w s a b F.
Proof.
  intros [Ha Hb] Hinv. pose proof Ha as (? & ? & Ho & ? & ?).
  assert (Hadd : pwp Inv (fetch_add_outstanding (-1)) (fun _ a' => a' = with_owed (owed a + (-1)) a) a).
  { apply pwp_outstanding; [lia|done]. }
  destruct (Hadd (w, s) (b :: F) Hinv) as (x & c & a' & E & Hinv2 & Ha').
  injection E as <- <-. unfold pwp in Ha'. subst a'.
  exists (At_head rd), (w, with_outstanding (wrap32 (outstanding_directory_count s - 1)) s), (with_owed (owed a + (-1)) a), b.
  split_and!; [done|exact Hinv2|split; [split_and!; simpl; done || lia|exact Hb]|simpl; lia].
Qed.

Lemma worker_step_ok deep laps k w s a b F :
  BC_IO_MAX_PATH_LENGTH <= Z.of_nat deep -> worker_ok laps k a b -> Inv (w, s) (a :: b :: F) ->
  steps_on deep laps k w s a b F.
Proof.
  intros Hdeep Hk Hinv. pose proof (Inv_swap _ _ _ _ Hinv) as Hinv'.
  destruct k as [|p|rd|rd|rd|rd p|rd|rd|];
    [by apply starting_ok| | | | |destruct p as [u|B f k]; [by apply processed_ok|]| |by apply leaving_ok|];
    simpl in Hk; destruct Hk as [Ha Hb]; unfold steps_on; cbn [worker_step].
  - destruct p as [u|B f k].
    + exists Gone, (w, s), a, b. split_and!; try done. simpl. lia.
    + destruct (pwp_act _ _ _ _ _ _ _ Hb Hinv') as (x & c & b' & E & Hinv2%Inv_swap & Hb').
      simpl. rewrite E. exists (Giving_up (k x)), c, a, b'. split_and!; try done. simpl. lia.
  - pose proof (Inv_stop _ _ _ Hinv) as Hinv2. destruct (bc_io_walk_should_stop config s) as [[] s'].
    + exists (Leaving rd), (w, s'), a, b. split_and!; try done. simpl. lia.
    + exists (At_flag rd), (w, s'), a, b. split_and!; try done. simpl. lia.
  - exists (if shared_visit_failed s then Leaving rd else At_pop rd), (w, s), a, b.
    destruct (shared_visit_failed s); split_and!; try done; simpl; lia.
  - destruct (queue_pop (directory_queue s)) as [[e|] q] eqn:E.
    + destruct (Inv_pop _ _ _ _ _ _ Hinv Ha E) as [He Hinv2].
      eexists _, _, _, b. split_and!; [done|exact Hinv2|split; [|by apply process_ok]|done].
      destruct Ha as (? & ? & ? & ? & ?). by split_and!.
    + exists (At_outstanding rd), (w, with_queue q s), a, b. split_and!; try done; [by eapply Inv_pop_none|simpl; lia].
  - destruct (pwp_act _ _ _ _ _ _ _ Hb Hinv') as (x & c & b' & E & Hinv2%Inv_swap & Hb').
    simpl. rewrite E. exists (Processing rd (k x)), c, a, b'. split_and!; try done. simpl. lia.
  - exists (if decide (outstanding_directory_count s = 0) then Leaving rd else At_head rd), (w, s), a, b.
    destruct (decide _); split_and!; try done; simpl; lia.
  - exists Gone, (w, s), a, b. split_and!; try done. simpl. lia.
Qed.
End safe.
