(* ===== verification/ParallelPool.v ===== *)
(** * The pool of workers

    What the invariant of [ParallelSafe] gives for whole runs of the parallel walk:
    no interleaving of the workers goes wrong, everything is given back, a zero count of
    outstanding directories means that the work is done, and the number of
    directories taken from the queue is bounded. *)

From S2P Require Import Prelude Platform Objects Machine Scripted FilePath DirentReader.
From S2P Require Import WalkEntry WalkSpec SnapshotKernel WalkSequential Interleave Concurrency WalkParallel ParallelSafe.

Section shares.
Context {PF : Platform} {PL : PlatformLaws PF}.
Context {CC : Concurrency PF bc_io_walk_queue_entry_t} {CL : ConcurrencyLaws CC} {U : Type}.
Variable I J : U -> Prop.
Variable room limit : Z.
Variable laps : nat.

Notation Inv := (Inv I J room limit).
Notation worker_ok := (worker_ok I J room limit).

(** ** The invariant of the pool *)

(** The shares of all workers; [base] holds what was there before the walk. *)
Definition flat (gs : list (share * share)) : list share := concat ((fun ab => [ab.1; ab.2]) <$> gs).

Definition pool_inv (base : share) (gs : list (share * share)) (p : pool U) : Prop :=
  Forall2 (fun k ab => worker_ok laps k ab.1 ab.2) (members p) gs /\ Inv (common p) (base :: flat gs).

Definition taken (gs : list (share * share)) : Z := total (fun ab => pops ab.1) gs.

Lemma flat_others (gs : list (share * share)) i ab :
  gs !! i = Some ab ->
  exists F, flat gs ≡ₚ ab.1 :: ab.2 :: F /\
    forall a' b', flat (<[i := (a', b')]> gs) ≡ₚ a' :: b' :: F.
Proof.
  intros Hi. destruct (others gs i ab Hi) as (G & Hgs & Hins). exists (flat G).
  assert (Hflat : forall l l' : list (share * share), l ≡ₚ l' -> flat l ≡ₚ flat l').
  { intros l l' Hl. unfold flat. by rewrite Hl. }
  split; [by rewrite (Hflat _ _ Hgs)|]. intros a' b'. by rewrite (Hflat _ _ (Hins (a', b'))).
Qed.

Lemma taken_bounded base gs p : pool_inv base gs p -> taken gs <= limit.
Proof.
  intros [_ [_ _ Hl Hsp]]. apply Forall_cons in Hsp as [Hbase Hsp]. unfold potential in Hl. simpl in Hl.
  pose proof (zlen_nonneg (contents (directory_queue (common p).2))).
  assert (taken gs <= total (fun g => pops g + spare g) (flat gs)); [|lia].
  clear Hl Hbase. induction gs as [|[a b] gs IH]; [done|].
  change (flat ((a, b) :: gs)) with (a :: b :: flat gs) in *.
  apply Forall_cons in Hsp as [Ha Hsp]. apply Forall_cons in Hsp as [Hb Hsp]. specialize (IH Hsp).
  unfold taken in *. simpl. lia.
Qed.

(** ** A zero count means that the work is done *)

Definition is_processing (k : worker U) : bool := match k with Processing _ _ => true | _ => false end.

Lemma elem_of_flat (gs : list (share * share)) a b : (a, b) ∈ gs -> a ∈ flat gs /\ b ∈ flat gs.
Proof.
  intros Hab. unfold flat. split; apply list_elem_of_In, in_concat; exists [a; b]; rewrite <- !list_elem_of_In;
    (split; [apply list_elem_of_fmap; by exists (a, b)|set_solver]).
Qed.

Lemma length_flat (gs : list (share * share)) : zlen (flat gs) = 2 * zlen gs.
Proof.
  induction gs as [|[a b] gs IH]; [done|].
  change (flat ((a, b) :: gs)) with (a :: b :: flat gs). rewrite !zlen_cons, IH. lia.
Qed.

Lemma owed_nonneg base gs p :
  pool_inv base gs p ->
  Forall (fun g => 0 <= owed g <= 1) (base :: flat gs).
Proof. intros [_ Hinv]. eapply Forall_impl; [apply (inv_spare _ _ _ _ _ _ Hinv)|]. by intros g (_ & ? & _). Qed.

Lemma idle_when_zero base gs p :
  pool_inv base gs p -> room + 2 * zlen (members p) + 1 < u32_modulus ->
  outstanding_directory_count (common p).2 = 0 ->
  contents (directory_queue (common p).2) = [] /\ Forall (fun k => is_processing k = false) (members p).
Proof.
  intros Hp Hroom Hzero. pose proof (owed_nonneg _ _ _ Hp) as Howed. destruct Hp as [Hall Hinv].
  pose proof (inv_shared _ _ _ _ _ _ Hinv) as [_ [_ Hlen] Hout _]. rewrite Hzero in Hout.
  set (n := total owed (base :: flat gs)) in *.
  assert (Hn : 0 <= n).
  { unfold n. clear -Howed. induction Howed; simpl; lia. }
  assert (Hn' : n <= 1 * zlen (base :: flat gs)).
  { apply total_bound. intros g Hg. rewrite Forall_forall in Howed. by apply Howed. }
  rewrite zlen_cons, length_flat in Hn'. pose proof (Forall2_length _ _ _ Hall) as Hlengths.
  unfold zlen in Hroom. rewrite Hlengths in Hroom. fold (zlen gs) in Hroom.
  pose proof (zlen_nonneg (contents (directory_queue (common p).2))) as Hc.
  assert (Hsum : zlen (contents (directory_queue (common p).2)) + n = 0).
  { unfold wrap32 in Hout. rewrite Z.mod_small in Hout; lia. }
  split; [apply zlen_nil_inv; lia|]. apply Forall_forall. intros k Hk.
  apply list_elem_of_lookup in Hk as [i Hi]. destruct (Forall2_lookup_l _ _ _ _ _ Hall Hi) as ([a b] & Hab & Hok).
  destruct k; try done. exfalso. destruct Hok as [(_ & _ & Ho & _) _]. simpl in Ho.
  apply list_elem_of_lookup_2, elem_of_flat in Hab as [Ha _].
  assert (Hpos : forall l, Forall (fun g => 0 <= owed g <= 1) l -> a ∈ l -> 1 <= total owed l).
  { clear -Ho. intros l. induction 1 as [|g l Hg Hl IH]; intros Ha; [set_solver|]. simpl.
    assert (0 <= total owed l) by (clear -Hl; induction Hl; simpl; lia).
    apply elem_of_cons in Ha as [->|Ha]; [lia|]. specialize (IH Ha). lia. }
  specialize (Hpos _ Howed ltac:(set_solver)). unfold n in Hsum. lia.
Qed.

(** ** When every worker is gone *)

Lemma splits_empties {X} (h : gmap Z X) ms : Forall (fun m => m = ∅) ms -> splits h ms -> h = ∅.
Proof.
  revert h. induction ms as [|m ms IH]; simpl; intros h Hall Hs; [done|].
  apply Forall_cons in Hall as [-> Hall]. destruct Hs as (h' & -> & _ & Hs).
  by rewrite (IH h' Hall Hs), (left_id_L ∅ (∪)).
Qed.

Lemma gone_shares base gs p :
  pool_inv base gs p -> all_gone p = true ->
  Forall (fun g => cells g = ∅ /\ (forall r, takes g r = 0) /\ refusing g = false) (flat gs).
Proof.
  intros [Hall _] Hgone. unfold all_gone in Hgone. rewrite forallb_forall in Hgone. revert Hgone.
  induction Hall as [|k [a b] ks gs Hk _ IH]; intros Hgone; unfold flat; simpl; [done|].
  assert (Ek : is_gone k = true) by (apply Hgone; by left). destruct k; try done.
  destruct Hk as [(Hc & Ht & _ & _ & Hr) (Hc' & Ht' & [Hr' _] & _)]. simpl in *.
  repeat constructor; try done. apply IH. intros x Hx. apply Hgone. by right.
Qed.

Lemma gone_pool base gs p :
  pool_inv base gs p -> refusing base = false -> all_gone p = true ->
  heap (common p).1 = cells base /\ (forall r, held (common p).1 r = takes base r) /\
  (shared_visit_failed (common p).2 = false -> I (shared_client (common p).2)) /\
  (I (shared_client (common p).2) \/ J (shared_client (common p).2)).
Proof.
  intros Hp Hbase Hgone. pose proof (gone_shares _ _ _ Hp Hgone) as Hg. destruct Hp as [_ Hinv].
  destruct Hinv as [[Hh Hd _ _] [_ _ _ [Hc1 Hc2]] _ _]. split_and!; [| |intros Hf; apply Hc2; [done|]|done].
  - simpl in Hh. destruct Hh as (h & -> & _ & Hs).
    rewrite (splits_empties h (cells <$> flat gs)); [apply (right_id_L ∅ (∪))| |done].
    apply Forall_fmap. eapply Forall_impl; [exact Hg|]. by intros g (? & _).
  - intros r. rewrite Hd. simpl.
    assert (Hz : total (fun g => takes g r) (flat gs) = 0); [|lia].
    clear -Hg. induction Hg as [|g l (_ & Ht & _) _ IH]; simpl; [done|]. rewrite Ht. lia.
  - constructor; [done|]. eapply Forall_impl; [exact Hg|]. by intros g (_ & _ & ?).
Qed.

(** ** The pool as it starts *)

Definition pool_start (n : nat) (w : world) (s : bc_io_walk_shared_t qstate U) : pool U :=
  mk_pool (replicate n Starting) (w, s).

Definition base_share (w : world) : share := mk_share (heap w) (held w) 0 0 0 (patience (env w)) false.
Definition fresh_share (w : world) : share :=
  mk_share ∅ (fun _ => 0) 0 0 0 (patience (env w)) false.

(** What the setup leaves: the root in the queue. *)
Record launched (u : U) (e : bc_io_walk_queue_entry_t) (s : bc_io_walk_shared_t qstate U) : Prop := {
  launched_contents : contents (directory_queue s) = [e];
  launched_room : 1 <= slots (directory_queue s);
  launched_outstanding : outstanding_directory_count s = 1;
  launched_stats : shared_stats s = zero_walk_stats;
  launched_visit_failed : shared_visit_failed s = false;
  launched_client : shared_client s = u;
}.

Lemma flat_replicate n g : flat (replicate n (g, g)) = replicate (2 * n) g.
Proof.
  induction n as [|n IH]; [done|].
  change (flat (replicate (S n) (g, g))) with (g :: g :: flat (replicate n (g, g))).
  rewrite IH. by replace (2 * S n)%nat with (S (S (2 * n))) by lia.
Qed.

Lemma splits_replicate {X} (h : gmap Z X) ms n : splits h ms -> splits h (replicate n ∅ ++ ms).
Proof. intros Hs. induction n as [|n IH]; [done|]. simpl. by apply splits_empty. Qed.

Lemma start_inv n u e w s :
  wf_world w -> launched u e s -> queued_ok e -> I u ->
  room = slots (directory_queue s) -> limit = 1 + 8193 * Z.of_nat (patience (env w)) ->
  laps_enough laps w ->
  pool_inv (base_share w) (replicate n (fresh_share w, fresh_share w)) (pool_start n w s).
Proof.
  intros Hwf [Hc Hr Ho Hst Hf Hu] He HI Hroom Hlimit Hlaps. unfold laps_enough in Hlaps. split.
  { apply Forall2_same_length_lookup_2; [by simpl; rewrite !length_replicate|]. intros i k ab Hk Hab.
    apply lookup_replicate in Hk as [-> _]. apply lookup_replicate in Hab as [-> _]. simpl.
    split; split_and!; simpl; try done; lia. }
  rewrite flat_replicate. generalize (2 * n)%nat as m. intros m.
  assert (Hzero : forall f, f (fresh_share w) = 0 -> total f (replicate m (fresh_share w)) = 0).
  { intros f Hf0. induction m as [|m IH]; simpl; lia. }
  split.
  - split.
    + change (splits (heap w) (heap w :: (cells <$> replicate m (fresh_share w)))).
      assert (Hs : splits (heap w) ((cells <$> replicate m (fresh_share w)) ++ [heap w])).
      { rewrite fmap_replicate. apply splits_replicate. exists ∅. split_and!; [|apply map_disjoint_empty_r|done].
        symmetry. apply (right_id_L ∅ (∪)). }
      eapply splits_perm; [|exact Hs]. by rewrite Permutation_app_comm.
    + intros r. simpl. rewrite Hzero by done. lia.
    + done.
    + constructor; [done|]. by apply Forall_replicate.
  - split; simpl.
    + rewrite Hc. by apply Forall_singleton.
    + rewrite Hc. change (zlen [e]) with 1. by rewrite Hroom.
    + rewrite Ho, Hc, Hzero by done. done.
    + rewrite Hu. split; [by left|done].
  - unfold potential. simpl. rewrite Hc, Hzero by done. change (zlen [e]) with 1. lia.
  - constructor; [simpl; lia|]. apply Forall_replicate. simpl. lia.
Qed.
End shares.

(** ** Steps and runs *)

Section runs.
Context {PF : Platform} {PL : PlatformLaws PF}.
Context {CC : Concurrency PF bc_io_walk_queue_entry_t} {CL : ConcurrencyLaws CC} {U : Type}.
Variable config : bc_io_walk_config_t U.
Variable stack : list Z.
Variable deep laps : nat.
Notation pool_step := (pool_step config stack deep laps).
Notation pool_run := (pool_run config stack deep laps).

(** The directories taken from the queue during a run. *)
Definition step_takes (i : nat) (p p' : pool U) : Z :=
  match members p !! i, members p' !! i with
  | Some k, Some k' => if takes_directory k k' then 1 else 0
  | _, _ => 0
  end.
Fixpoint run_takes (schedule : list nat) (p : pool U) : Z :=
  match schedule with
  | [] => 0
  | i :: schedule =>
      match pool_step i p with
      | Done p' => step_takes i p p' + run_takes schedule p'
      | _ => 0
      end
  end.

Section invariant.
Hypothesis stack_size : zlen stack = BC_IO_MAX_PATH_LENGTH.
Hypothesis visits : visit config <> None.
Variable I J : U -> Prop.
Hypothesis ok : shared_client_ok config I J.
Variable room limit : Z.
Hypothesis deep_enough : BC_IO_MAX_PATH_LENGTH <= Z.of_nat deep.
Notation Inv := (Inv I J room limit).
Notation pool_inv := (pool_inv I J room limit laps).

Lemma pool_step_ok base gs p i :
  pool_inv base gs p ->
  exists p' gs', pool_step i p = Done p' /\ pool_inv base gs' p' /\
    length (members p') = length (members p) /\ taken gs' = taken gs + step_takes i p p'.
Proof.
  intros [Hall Hinv]. unfold pool_step, step_takes. destruct (members p !! i) as [k|] eqn:Hk.
  2: { exists p, gs. split_and!; [done..|lia]. }
  destruct (Forall2_lookup_l _ _ _ _ _ Hall Hk) as ([a b] & Hi & Hok). simpl in Hok.
  destruct (flat_others gs i (a, b) Hi) as (F & HF & Hins).
  assert (Hinv' : Inv (common p) (a :: b :: base :: F)).
  { eapply Inv_perm; [|exact Hinv]. rewrite HF. simpl. solve_Permutation. }
  destruct (common p) as [w s]. simpl.
  destruct (worker_step_ok config stack stack_size visits I J ok room limit deep laps k w s a b (base :: F))
    as (k' & c & a' & b' & E & Hinv2 & Hok' & Hpops); [done..|]. rewrite E.
  exists (mk_pool (<[i := k']> (members p)) c), (<[i := (a', b')]> gs). split; [done|]. split_and!.
  - split; simpl.
    + by apply Forall2_insert.
    + eapply Inv_perm; [|exact Hinv2]. rewrite Hins. solve_Permutation.
  - simpl. apply length_insert.
  - simpl. rewrite list_lookup_insert_eq by by eapply lookup_lt_Some.
    unfold taken. destruct (others gs i (a, b) Hi) as (G & Hgs & Hg).
    rewrite (total_perm _ _ _ (Hg (a', b'))), (total_perm _ gs _ Hgs). simpl. lia.
Qed.

Lemma pool_run_ok base schedule gs p :
  pool_inv base gs p ->
  exists p' gs', pool_run schedule p = Done p' /\ pool_inv base gs' p' /\
    length (members p') = length (members p) /\ taken gs' = taken gs + run_takes schedule p.
Proof.
  revert gs p. induction schedule as [|i schedule IH]; intros gs p Hinv; simpl.
  { exists p, gs. split_and!; [done..|lia]. }
  destruct (pool_step_ok base gs p i Hinv) as (p1 & gs1 & E & Hinv1 & Hlen & Htaken). rewrite E.
  destruct (IH gs1 p1 Hinv1) as (p2 & gs2 & E2 & Hinv2 & Hlen2 & Htaken2).
  exists p2, gs2. split_and!; [done|done|congruence|lia].
Qed.

End invariant.

(** The code a worker runs when it has no reader leaves queue and count alone. *)
Fixpoint harmless (p : proc (world * bc_io_walk_shared_t qstate U) unit) : Prop :=
  match p with
  | Return _ => True
  | Act f k => forall w s, match f (w, s) with
      | Done (b, (_, s')) => directory_queue s' = directory_queue s /\
          outstanding_directory_count s' = outstanding_directory_count s /\ harmless (k b)
      | _ => True
      end
  end.
Definition harmless_member (k : worker U) : Prop :=
  match k with Giving_up p => harmless p | _ => True end.

Lemma abandon_harmless : harmless (abandon config).
Proof.
  unfold abandon. destruct (on_error config) as [f|]; by repeat (simpl; intros; split_and!).
Qed.

Definition idle (p : pool U) : Prop :=
  contents (directory_queue (common p).2) = [] /\ outstanding_directory_count (common p).2 = 0 /\
  Forall (fun k => is_processing k = false) (members p).

Lemma step_harmless k w s k' c :
  harmless_member k -> worker_step config stack deep laps k w s = Done (k', c) -> harmless_member k'.
Proof.
  destruct k as [|p|rd|rd|rd|rd p|rd|rd|]; simpl; intros Hk E.
  - destruct (bc_io_dirent_reader_create (-1) w) as [[[rd|] w']| |]; simpl in E; simplify_eq; [done|]. apply abandon_harmless.
  - destruct p as [u|B f q]; [by simplify_eq|]. specialize (Hk w s). simpl in E.
    destruct (f (w, s)) as [[b [w' s']]| |]; simpl in E; simplify_eq. apply Hk.
  - destruct (bc_io_walk_should_stop config s) as [[] s']; by simplify_eq.
  - destruct (shared_visit_failed s); by simplify_eq.
  - destruct (queue_pop (directory_queue s)) as [[e|] q]; by simplify_eq.
  - destruct p as [u|B f q]; [by simplify_eq|]. simpl in E. destruct (f (w, s)) as [[b c']| |]; simpl in E; by simplify_eq.
  - by case_decide; simplify_eq.
  - destruct (bc_io_dirent_reader_destroy rd w) as [[u w']| |]; simpl in E; by simplify_eq.
  - by simplify_eq.
Qed.

Lemma step_idle k w s k' w' s' :
  harmless_member k -> is_processing k = false ->
  contents (directory_queue s) = [] -> outstanding_directory_count s = 0 ->
  worker_step config stack deep laps k w s = Done (k', (w', s')) ->
  contents (directory_queue s') = [] /\ outstanding_directory_count s' = 0 /\ is_processing k' = false.
Proof.
  destruct k as [|p|rd|rd|rd|rd p|rd|rd|]; simpl; intros Hk Hpr Hc Ho E; try discriminate Hpr.
  - destruct (bc_io_dirent_reader_create (-1) w) as [[[rd|] w1]| |]; simpl in E; by simplify_eq.
  - destruct p as [u|B f q]; [by simplify_eq|]. specialize (Hk w s). simpl in E.
    destruct (f (w, s)) as [[b [w1 s1]]| |]; simpl in E; simplify_eq. destruct Hk as (-> & -> & _). done.
  - unfold bc_io_walk_should_stop in E. destruct (should_stop_check config) as [f|]; [|by simplify_eq].
    destruct (f (shared_client s)) as [[] u]; by simplify_eq.
  - simplify_eq. by destruct (shared_visit_failed s').
  - destruct (queue_pop (directory_queue s)) as [[e|] q] eqn:Ep; simplify_eq; simpl.
    + apply queue_pop_some in Ep as [Hp _]. rewrite Hc in Hp. by apply Permutation_nil_cons in Hp.
    + apply queue_pop_none in Ep as [-> _]. done.
  - simplify_eq. by rewrite decide_True.
  - destruct (bc_io_dirent_reader_destroy rd w) as [[u w1]| |]; simpl in E; by simplify_eq.
  - by simplify_eq.
Qed.

Lemma pool_step_idle i p p' :
  Forall harmless_member (members p) -> pool_step i p = Done p' ->
  Forall harmless_member (members p') /\ (idle p -> idle p').
Proof.
  unfold WalkParallel.pool_step. intros Hh E. destruct (members p !! i) as [k|] eqn:Hk; [|by simplify_eq].
  pose proof (Forall_lookup_1 _ _ _ _ Hh Hk) as Hhk. destruct (common p) as [w s] eqn:Ec. simpl in E.
  destruct (worker_step config stack deep laps k w s) as [[k' [w' s']]| |] eqn:Es; simpl in E; simplify_eq. simpl. split.
  - apply Forall_insert; [done|]. by eapply step_harmless.
  - intros (Hc & Ho & Hpr). rewrite Ec in *. simpl in *.
    destruct (step_idle k w s k' w' s' Hhk (Forall_lookup_1 _ _ _ _ Hpr Hk) Hc Ho Es) as (? & ? & ?).
    split_and!; [done|done|by apply Forall_insert].
Qed.

Lemma pool_run_idle schedule p p' :
  Forall harmless_member (members p) -> pool_run schedule p = Done p' ->
  Forall harmless_member (members p') /\ (idle p -> idle p').
Proof.
  revert p. induction schedule as [|i schedule IH]; intros p Hh E; simpl in E; [by simplify_eq|].
  destruct (pool_step i p) as [p1| |] eqn:E1; simplify_eq.
  destruct (pool_step_idle i p p1 Hh E1) as [Hh1 H1]. destruct (IH p1 Hh1 E) as [Hh2 H2]. auto.
Qed.

End runs.

(** ** Setup and end *)

Definition parallel_usable {U} (config : bc_io_walk_config_t U) : bool :=
  usable config && bool_decide (is_Some (concurrency_context config)).

(** The root is at least as long as its length says; it needs no terminator. *)
Definition root_long_enough {U} (config : bc_io_walk_config_t U) : Prop :=
  0 <= root_length config /\ forall r, root config = Some r -> root_length config <= zlen r.

Section call.
Context {PF : Platform} {PL : PlatformLaws PF}.
Context {CC : Concurrency PF bc_io_walk_queue_entry_t} {CL : ConcurrencyLaws CC} {U : Type}.
Variable config : bc_io_walk_config_t U.
Variable stack : list Z.
Hypothesis stack_size : zlen stack = BC_IO_MAX_PATH_LENGTH.
Hypothesis root_long : root_long_enough config.

Lemma queue_create_spec size n w :
  wf_world w ->
  wp (bc_concurrency_queue_create size n)
    (fun r w' => match r with
       | None => evolved (heap w) nothing w w'
       | Some (a, q) => contents q = [] /\ 0 <= slots q /\ evolved (heap w) (tokens [RQueue a]) w w'
       end) w.
Proof.
  intros Hwf. unfold wp, bc_concurrency_queue_create.
  destruct (queue_create (mem w) size n) as [[[a q]|] m] eqn:E; simpl; pose proof (queue_create_live _ _ _ _ _ E).
  - destruct (queue_create_empty _ _ _ _ _ _ E). split_and!; [done|done|]. solve_evolved.
  - solve_evolved.
Qed.

Lemma queue_destroy_spec h d w0 w a :
  evolved h d w0 w ->
  wp (bc_concurrency_queue_destroy a)
    (fun _ w' => evolved h (fun r => d r - one r (RQueue a)) w0 w') w.
Proof.
  intros [Hh Hd Hw Hpat]. unfold wp, bc_concurrency_queue_destroy. simpl.
  split; simpl; [done| |by unfold wf_world; simpl; rewrite queue_destroy_live|done].
  intros r. specialize (Hd r). unfold held in *. held_lia.
Qed.

(** The entry the walk starts with. *)
Definition root_entry (r : list Z) : bc_io_walk_queue_entry_t :=
  mk_queue_entry (ztake (root_length config) r ++ zrepeat 0 (BC_IO_MAX_PATH_LENGTH - root_length config))
    (root_length config) 0.

Lemma setup_spec u w :
  wf_world w ->
  wp (parallel_setup stack config u)
    (fun r w' => match r with
       | None => evolved (heap w) nothing w w' /\ (parallel_usable config = false -> w' = w)
       | Some (a, s) => parallel_usable config = true /\ evolved (heap w) (tokens [RQueue a]) w w' /\
           exists r, root config = Some r /\ queued_ok (root_entry r) /\ launched u (root_entry r) s
       end) w.
Proof.
  intros Hwf. destruct root_long as [Hlen0 Hroot]. unfold parallel_setup, parallel_usable, usable.
  assert (Hno : forall b : bool, wp (mret None : M (option (Z * bc_io_walk_shared_t qstate U)))
    (fun r w' => match r with
       | None => evolved (heap w) nothing w w' /\ (b = false -> w' = w)
       | Some (a, s) => b = true /\ evolved (heap w) (tokens [RQueue a]) w w' /\
           exists r, root config = Some r /\ queued_ok (root_entry r) /\ launched u (root_entry r) s
       end) w).
  { intros b. apply wp_ret. split; [by apply evolved_refl|done]. }
  destruct (root config) as [r|] eqn:Er; [|apply Hno]. specialize (Hroot r eq_refl).
  destruct (decide (root_length config = 0 \/ BC_IO_MAX_PATH_LENGTH <= root_length config)); [apply Hno|].
  destruct (visit config) as [v|] eqn:Ev; [|apply Hno]. rewrite (bool_decide_false (Some v = None)) by done.
  case_bool_decide as Hctx; [apply Hno|].
  destruct (main_memory_context config); [|tauto]. destruct (concurrency_context config); [|tauto].
  rewrite (bool_decide_true (0 < _ < _)) by lia. simpl.
  apply wp_bind. eapply wp_mono; [by apply queue_create_spec|]. intros [[a q]|] w1.
  2: { intros He. apply wp_ret. by split. }
  intros (Hq & Hsl & He). apply wp_bind, wp_lift. rewrite make_queue_entry_spec by (done || lia). simpl.
  fold (root_entry r). destruct (queue_push q (root_entry r)) as [[] q'] eqn:Ep; simpl.
  - apply queue_push_true in Ep as (Hp & Hl & Hs). apply wp_ret. split_and!; [done|done|].
    exists r. split; [done|]. split; [apply made_entry_ok; lia|].
    rewrite Hq in Hp. apply Permutation_singleton_r in Hp. rewrite Hp in Hl. split; simpl; try done.
    change (zlen [root_entry r]) with 1 in Hl. lia.
  - apply wp_bind. eapply wp_mono; [eapply queue_destroy_spec, He|]. intros [] w2 He2. apply wp_ret.
    split; [|done]. eapply evolved_ext; [exact He2|done|]. intros x. unfold nothing. simpl. lia.
Qed.

Lemma finish_spec a dispatched out_stats (s : bc_io_walk_shared_t qstate U) h w0 w :
  evolved h (tokens [RQueue a]) w0 w ->
  wp (parallel_finish a dispatched out_stats s)
    (fun r w' => r = (dispatched && negb (shared_visit_failed s),
                      match out_stats with Some _ => Some (shared_stats s) | None => None end,
                      shared_client s) /\ evolved h nothing w0 w') w.
Proof.
  intros He. apply wp_bind. eapply wp_mono; [eapply queue_destroy_spec, He|]. intros [] w' He'.
  apply wp_ret. split; [done|]. eapply evolved_ext; [exact He'|done|]. intros x. unfold nothing. simpl. lia.
Qed.

Lemma usable_visits : parallel_usable config = true -> visit config <> None.
Proof.
  intros Husable E. unfold parallel_usable, usable in Husable. rewrite E in Husable. simpl in Husable.
  by rewrite andb_false_r in Husable.
Qed.

(** A run from setup to end, as far as the schedule goes. *)
Lemma parallel_spec I J deep laps d out_stats u w :
  wf_world w -> BC_IO_MAX_PATH_LENGTH <= Z.of_nat deep -> laps_enough laps w ->
  shared_client_ok config I J -> I u ->
  wp (bc_io_walk_parallel stack deep laps d config out_stats u)
    (fun r w' => match r with
       | None => True
       | Some (ok, out, u') =>
           evolved (heap w) nothing w w' /\ (is_Some out <-> is_Some out_stats) /\
           (I u' \/ J u') /\ (ok = true -> I u') /\
           (parallel_usable config = false -> ok = false /\ out = out_stats /\ u' = u /\ w' = w)
       end) w.
Proof.
  intros Hwf Hdeep Hlaps Hok HI. unfold bc_io_walk_parallel. apply wp_bind.
  eapply wp_mono; [by apply setup_spec|]. intros [[a s]|] w1; last first.
  { intros [He Hw]. apply wp_ret. split_and!; try done; [by left|]. intros Hu. by rewrite Hw. }
  intros (Husable & He & r & Er & Hq & Hl).
  pose proof (usable_visits Husable) as Hv.
  pose proof (evolved_wf _ _ _ _ He) as Hwf1.
  assert (Hlaps1 : laps_enough laps w1).
  { eapply laps_enough_later; [apply He|done]. }
  destruct (pool_run_ok config stack deep laps stack_size Hv I J Hok (slots (directory_queue s))
    (1 + 8193 * Z.of_nat (patience (env w1))) Hdeep (base_share w1) (schedule d) _ _
    (start_inv I J _ _ laps (Nat.min (started d) (Z.to_nat effective_worker_count)) u _ w1 s
       Hwf1 Hl Hq HI eq_refl eq_refl Hlaps1)) as (p & gs & Erun & Hp & _ & _).
  apply wp_bind. unfold wp at 1. unfold pool_start in Erun. rewrite Erun. simpl.
  destruct (all_gone p) eqn:Hgone; [|by apply wp_ret].
  destruct (gone_pool I J _ _ laps _ gs p Hp eq_refl Hgone) as (Hh & Hd & Hc1 & Hc2).
  assert (He2 : evolved (heap w) (tokens [RQueue a]) w (common p).1).
  { destruct He as [Hh1 Hd1 _ Hpat1]. destruct Hp as [_ [[_ _ Hwf2 Hsees] _ _ _]]. split.
    - rewrite Hh. simpl. done.
    - intros x. rewrite Hd. simpl. apply Hd1.
    - done.
    - apply Forall_cons in Hsees as [Hsees _]. simpl in Hsees. lia. }
  apply wp_bind. eapply wp_mono; [eapply finish_spec, He2|].
  intros [[ok out] u'] w2 [[= -> -> ->] He3]. apply wp_ret. split_and!; try done.
  - destruct out_stats; [|done]. split; intros _; by eexists.
  - intros [_ Hf]%andb_prop. apply Hc1. by destruct (shared_visit_failed _).
  - congruence.
Qed.

(** Nothing need be known of the callbacks for the rest of the invariant. *)
Lemma any_client_ok : shared_client_ok config (fun _ => True) (fun _ => True).
Proof. split; try done. intros f e _ u. by destruct (f e u) as [[] ?]. Qed.

(** The invariant along a run that starts after the setup, with callbacks of which
    nothing is known. *)
Lemma launched_pool_inv deep laps :
  BC_IO_MAX_PATH_LENGTH <= Z.of_nat deep ->
  forall u w a s w1 n schedule,
  wf_world w -> laps_enough laps w ->
  parallel_setup stack config u w = Done (Some (a, s), w1) ->
  exists gs p, pool_run config stack deep laps schedule (pool_start n w1 s) = Done p /\
    pool_inv (fun _ => True) (fun _ => True) (slots (directory_queue s))
      (1 + 8193 * Z.of_nat (patience (env w1))) laps (base_share w1) gs p /\
    length (members p) = length (members (pool_start n w1 s)) /\
    taken gs = run_takes config stack deep laps schedule (pool_start n w1 s) /\
    (patience (env w1) <= patience (env w))%nat.
Proof.
  intros Hdeep u w a s w1 n schedule Hwf Hlaps Hsetup. pose proof (setup_spec u w Hwf) as H.
  unfold wp in H. rewrite Hsetup in H. simpl in H. destruct H as (Husable & He & r & Er & Hq & Hl).
  assert (Hlaps1 : laps_enough laps w1) by (eapply laps_enough_later; [apply He|done]).
  destruct (pool_run_ok config stack deep laps stack_size (usable_visits Husable) _ _ any_client_ok (slots (directory_queue s))
    (1 + 8193 * Z.of_nat (patience (env w1))) Hdeep (base_share w1) schedule _ _
    (start_inv _ _ _ _ laps n u _ w1 s (evolved_wf _ _ _ _ He) Hl Hq Logic.I eq_refl eq_refl Hlaps1))
    as (p & gs & Erun & Hp & Hlen & Htaken).
  exists gs, p. split_and!; try done; [|apply He]. rewrite Htaken.
  assert (Hz : taken (replicate n (fresh_share w1, fresh_share w1)) = 0); [|lia].
  unfold taken. clear. induction n as [|n IH]; simpl; lia.
Qed.
End call.

Section properties.
Context {PF : Platform} {PL : PlatformLaws PF}.
Context {CC : Concurrency PF bc_io_walk_queue_entry_t} {CL : ConcurrencyLaws CC} {U : Type}.

(** ** Properties *)

(** C10. However the workers of [bc_io_walk_parallel] are interleaved, on any kernel and
    with any callbacks, no step is undefined and no fuel runs out; and when they
    have all finished everything is given back: each directory they opened is
    closed, each reader freed and the queue destroyed exactly once, on every path
    (the queue is full and a directory is walked in place, an allocation,
    [open], [getdents64] or [stat] fails, a visit is refused, the client stops).
    Unusable configurations are refused before anything happens. *)
Theorem parallel_walk_balanced stack deep laps d (config : bc_io_walk_config_t U) out_stats u w :
  zlen stack = BC_IO_MAX_PATH_LENGTH -> root_long_enough config -> wf_world w ->
  BC_IO_MAX_PATH_LENGTH <= Z.of_nat deep -> laps_enough laps w ->
  wp (bc_io_walk_parallel stack deep laps d config out_stats u)
    (fun r w' => match r with
       | None => True
       | Some (ok, out, u') => heap w' = heap w /\ (forall x, held w' x = held w x) /\
           (is_Some out <-> is_Some out_stats) /\
           (parallel_usable config = false -> ok = false /\ out = out_stats /\ u' = u /\ w' = w)
       end) w.
Proof.
  intros Hstack Hroot Hwf Hdeep Hlaps. eapply wp_mono.
  { apply (parallel_spec config stack Hstack Hroot (fun _ => True) (fun _ => True)); try done.
    apply any_client_ok. }
  intros [[[ok out] u']|] w'; [|done]. intros (He & Hout & _ & _ & Hu).
  by apply evolved_balanced in He as [Hh Hd].
Qed.

(** C18. A refused visit is never lost, whichever worker saw it: if the callbacks keep
    [I] true of the client's state until a visit is refused and [J] from then on,
    then at the end one of them holds, and the result is true only if [I] does. *)
Theorem parallel_walk_reports_refusal stack deep laps d (config : bc_io_walk_config_t U)
    (I J : U -> Prop) u w :
  zlen stack = BC_IO_MAX_PATH_LENGTH -> root_long_enough config -> wf_world w ->
  BC_IO_MAX_PATH_LENGTH <= Z.of_nat deep -> laps_enough laps w ->
  shared_client_ok config I J -> I u ->
  wp (bc_io_walk_parallel stack deep laps d config None u)
    (fun r _ => match r with
       | None => True
       | Some (ok, _, u') => (I u' \/ J u') /\ (ok = true -> I u')
       end) w.
Proof.
  intros Hstack Hroot Hwf Hdeep Hlaps Hok HI. eapply wp_mono; [by apply parallel_spec|].
  by intros [[[ok out] u']|] w' H; [split; apply H|].
Qed.

(** C9. The count of outstanding directories detects termination, in every
    interleaving: when it is zero the queue is empty and no worker is in the
    middle of a directory, and it stays so whatever the workers do next.  (The
    count has 32 bits: the queue must have fewer slots than that, less two for
    each worker.) *)
Theorem parallel_count_detects_end stack deep laps (config : bc_io_walk_config_t U) u w a s w1
    n schedule schedule' p p' :
  zlen stack = BC_IO_MAX_PATH_LENGTH -> root_long_enough config -> wf_world w ->
  BC_IO_MAX_PATH_LENGTH <= Z.of_nat deep -> laps_enough laps w ->
  parallel_setup stack config u w = Done (Some (a, s), w1) ->
  slots (directory_queue s) + 2 * Z.of_nat n + 1 < u32_modulus ->
  pool_run config stack deep laps schedule (pool_start n w1 s) = Done p ->
  outstanding_directory_count (common p).2 = 0 ->
  pool_run config stack deep laps schedule' p = Done p' -> idle p /\ idle p'.
Proof.
  intros Hstack Hroot Hwf Hdeep Hlaps Hsetup Hslots Hrun Hzero Hrun'.
  destruct (launched_pool_inv config stack Hstack Hroot deep laps Hdeep u w a s w1 n schedule Hwf Hlaps Hsetup)
    as (gs & p1 & E & Hp & Hlen & _). rewrite Hrun in E. injection E as <-.
  assert (Hidle : idle p).
  { destruct (idle_when_zero _ _ _ _ _ _ _ _ Hp) as [Hc Hproc]; [|done|by split_and!].
    unfold zlen. rewrite Hlen. unfold pool_start. simpl. rewrite length_replicate. lia. }
  split; [done|]. destruct (pool_run_idle config stack deep laps schedule' p p') as [_ H]; [|done|by apply H].
  eapply pool_run_idle; [|exact Hrun]. by apply Forall_replicate.
Qed.

(** C12. The work is bounded: in every interleaving the workers take at most [1 + 8193
    n] directories from the queue, where [n] is the number of batches of records the
    kernel is willing to serve.  So only idle polling can go on without end. *)
Theorem parallel_directories_bounded stack deep laps (config : bc_io_walk_config_t U) u w a s w1 n schedule :
  zlen stack = BC_IO_MAX_PATH_LENGTH -> root_long_enough config -> wf_world w ->
  BC_IO_MAX_PATH_LENGTH <= Z.of_nat deep -> laps_enough laps w ->
  parallel_setup stack config u w = Done (Some (a, s), w1) ->
  run_takes config stack deep laps schedule (pool_start n w1 s) <= 1 + 8193 * Z.of_nat (patience (env w)).
Proof.
  intros Hstack Hroot Hwf Hdeep Hlaps Hsetup.
  destruct (launched_pool_inv config stack Hstack Hroot deep laps Hdeep u w a s w1 n schedule Hwf Hlaps Hsetup)
    as (gs & p1 & _ & Hp & _ & Htakes & Hpat). rewrite <- Htakes. apply taken_bounded in Hp. lia.
Qed.
End properties.

(** ** Witnesses *)

(** Two workers on the small tree, with a queue of one slot. *)
Definition small_platform : Platform := snapshot_platform small_tree.
Definition small_queue : Concurrency small_platform bc_io_walk_queue_entry_t := fifo _ _ 4.
Definition small_config : bc_io_walk_config_t (list tour_event) :=
  observer (bytes_of_string "/r" ++ [0]) 2 false false everything everything.

Definition turns_of_two (n : nat) : list nat := concat (replicate n [0; 1])%nat.

Example small_parallel_run :
  safe (bc_io_walk_parallel (CC := small_queue) fresh_stack 4096 (Z.to_nat 80000)
          (mk_dispatch 2 (turns_of_two 100) true) small_config (Some zero_walk_stats) []
          (snapshot_world small_tree 9))
    (fun '(r, w) => option_map fst r = Some (true, Some (mk_walk_stats 2 2 0 1)) /\ heap w = ∅).
Proof. vm_compute. by split. Qed.

Lemma small_root_long : root_long_enough small_config.
Proof. split; [by vm_compute|]. intros r [= <-]. by vm_compute. Qed.

Lemma small_laps_enough : laps_enough (Z.to_nat 80000) (snapshot_world small_tree 9).
Proof. by vm_compute. Qed.

Lemma parallel_walk_balanced_witness :
  wp (bc_io_walk_parallel (CC := small_queue) fresh_stack 4096 (Z.to_nat 80000)
        (mk_dispatch 2 (turns_of_two 100) true) small_config None [])
    (fun r w' => match r with
       | None => True
       | Some (ok, out, u') => heap w' = ∅ /\ (forall x, held w' x = 0) /\
           (is_Some out <-> is_Some (@None bc_io_walk_stats_t)) /\
           (parallel_usable small_config = false ->
            ok = false /\ out = None /\ u' = [] /\ w' = snapshot_world small_tree 9)
       end) (snapshot_world small_tree 9).
Proof.
  apply (parallel_walk_balanced (PL := snapshot_platform_laws small_tree) (CL := fifo_laws _ _ _)
           fresh_stack 4096 (Z.to_nat 80000) (mk_dispatch 2 (turns_of_two 100) true) small_config None []
           (snapshot_world small_tree 9));
    [by vm_compute|apply small_root_long|apply snapshot_world_wf|by vm_compute|apply small_laps_enough].
Defined.

(** The client counts its visits and refuses the second. *)
Definition wary_config : bc_io_walk_config_t nat :=
  mk_walk_config (Some (bytes_of_string "/r" ++ [0])) 2 (Some ()) (Some ()) None 1 false false None None
    (Some (fun _ u => (bool_decide (S u < 2)%nat, S u))) None.

Lemma wary_ok : shared_client_ok wary_config (fun u => u < 2)%nat (fun u => 2 <= u)%nat.
Proof.
  split; simpl; intros; simplify_eq. intros u. simpl. case_bool_decide; lia.
Qed.

Lemma parallel_walk_reports_refusal_witness :
  wp (bc_io_walk_parallel (CC := small_queue) fresh_stack 4096 (Z.to_nat 80000)
        (mk_dispatch 2 (turns_of_two 100) true) wary_config None 0%nat)
    (fun r _ => match r with
       | None => True
       | Some (ok, _, u') => (u' < 2 \/ 2 <= u')%nat /\ (ok = true -> (u' < 2)%nat)
       end) (snapshot_world small_tree 9).
Proof.
  apply (parallel_walk_reports_refusal (PL := snapshot_platform_laws small_tree) (CL := fifo_laws _ _ _)
           fresh_stack 4096 (Z.to_nat 80000) (mk_dispatch 2 (turns_of_two 100) true) wary_config
           (fun u => u < 2)%nat (fun u => 2 <= u)%nat 0%nat (snapshot_world small_tree 9));
    [by vm_compute| |apply snapshot_world_wf|by vm_compute|apply small_laps_enough|apply wary_ok|lia].
  split; [by vm_compute|]. intros r [= <-]. by vm_compute.
Defined.

Definition end_of {A} (r : res A) (dflt : A) : A := match r with Done a => a | _ => dflt end.
Lemma run_end {A} (r : res A) dflt :
  match r with Done _ => true | _ => false end = true -> r = Done (end_of r dflt).
Proof. by destruct r. Qed.

Definition launch {A W} (r : res (option (Z * A) * W)) (dflt : Z * A * W) : Z * A * W :=
  match r with Done (Some (a, s), w) => (a, s, w) | _ => dflt end.
Lemma launch_end {A W} (r : res (option (Z * A) * W)) dflt :
  match r with Done (Some _, _) => true | _ => false end = true ->
  r = Done (Some ((launch r dflt).1.1, (launch r dflt).1.2), (launch r dflt).2).
Proof. by destruct r as [[[[a s]|] w]| |]. Qed.

(** The pool after the setup, and after the workers had a hundred turns each. *)
Definition small_launch :=
  launch (parallel_setup (CC := small_queue) fresh_stack small_config [] (snapshot_world small_tree 9))
    (0, mk_shared (([], 0) : qstate (Concurrency := small_queue)) 0 zero_walk_stats true [],
     snapshot_world small_tree 9).
Definition small_start : pool (CC := small_queue) (list tour_event) :=
  pool_start 2 small_launch.2 small_launch.1.2.
Definition small_end : pool (CC := small_queue) (list tour_event) :=
  end_of (pool_run small_config fresh_stack 4096 (Z.to_nat 80000) (turns_of_two 100) small_start) small_start.

Lemma small_setup :
  parallel_setup (CC := small_queue) fresh_stack small_config [] (snapshot_world small_tree 9) =
    Done (Some (small_launch.1.1, small_launch.1.2), small_launch.2).
Proof. apply launch_end. by vm_compute. Qed.

Lemma small_end_run :
  pool_run (CC := small_queue) small_config fresh_stack 4096 (Z.to_nat 80000) (turns_of_two 100) small_start =
    Done small_end.
Proof. apply run_end. by vm_compute. Qed.

Lemma parallel_count_detects_end_witness : idle small_end /\ idle small_end.
Proof.
  apply (parallel_count_detects_end (PL := snapshot_platform_laws small_tree) (CL := fifo_laws _ _ _)
           fresh_stack 4096 (Z.to_nat 80000) small_config [] (snapshot_world small_tree 9) small_launch.1.1
           small_launch.1.2 small_launch.2 2 (turns_of_two 100) [] small_end small_end);
    [by vm_compute|apply small_root_long|apply snapshot_world_wf|by vm_compute|apply small_laps_enough
    |apply small_setup|by vm_compute|apply small_end_run|by vm_compute|done].
Defined.

Lemma parallel_directories_bounded_witness :
  run_takes (CC := small_queue) small_config fresh_stack 4096 (Z.to_nat 80000) (turns_of_two 100) small_start <=
    1 + 8193 * 9.
Proof.
  apply (parallel_directories_bounded (PL := snapshot_platform_laws small_tree) (CL := fifo_laws _ _ _)
           fresh_stack 4096 (Z.to_nat 80000) small_config [] (snapshot_world small_tree 9) small_launch.1.1
           small_launch.1.2 small_launch.2 2 (turns_of_two 100));
    [by vm_compute|apply small_root_long|apply snapshot_world_wf|by vm_compute|apply small_laps_enough|apply small_setup].
Defined.
