(* ===== verification/ParallelTour.v ===== *)
(** * The parallel walk makes the tour

    On a file system that does not change, with an allocator that does not refuse,
    the workers of [bc_io_walk_parallel] together do what the sequential walk does
    alone: the events of [tour], in some order.  Each worker's share ([guide]) has its
    cells and open directories, the batches it has still to read, and the events
    it has still to tell the client and to count. *)

From S2P Require Import Prelude Platform Objects Machine Scripted FilePath DirentReader.
From S2P Require Import WalkEntry WalkSpec SnapshotKernel WalkSequential WalkPreorder.
From S2P Require Import Interleave Concurrency WalkParallel ParallelSafe ParallelPool.

Record guide := mk_guide {
  own : gmap Z object;
  fds : gmap Z (list Z * list (list dirent));
  need : nat;
  to_tell : list tour_event;
  to_count : list tour_event;
}.

(** The events that move a counter. *)
Definition is_counted (ev : tour_event) : bool :=
  is_file ev || is_directory_event ev || is_skip ev || is_error ev.
Definition counted (evs : list tour_event) : list tour_event := List.filter is_counted evs.

Lemma counted_app evs evs' : counted (evs ++ evs') = counted evs ++ counted evs'.
Proof. apply List.filter_app. Qed.

Lemma counted_file e evs :
  kind e = BC_IO_WALK_ENTRY_FILE -> counted (TVisit e :: evs) = TVisit e :: counted evs.
Proof. intros He. unfold counted, is_counted. simpl. by rewrite bool_decide_true. Qed.

Lemma counted_not_file e evs :
  kind e <> BC_IO_WALK_ENTRY_FILE -> counted (TVisit e :: evs) = counted evs.
Proof. intros He. unfold counted, is_counted. simpl. by rewrite bool_decide_false. Qed.

Lemma tally_counted p evs : (forall ev, p ev = true -> is_counted ev = true) -> tally p (counted evs) = tally p evs.
Proof.
  intros Hp. unfold tally, counted. f_equal. induction evs as [|ev evs IH]; simpl; [done|].
  destruct (is_counted ev) eqn:E; simpl; rewrite IH; [done|].
  destruct (p ev) eqn:Ep; [|done]. rewrite (Hp ev Ep) in E. done.
Qed.

Lemma add_stats_counted t evs : add_stats t (counted evs) = add_stats t evs.
Proof.
  unfold add_stats. rewrite !tally_counted; [done|..]; unfold is_counted; intros ev ->; by rewrite ?orb_true_r.
Qed.

#[local] Instance filter_perm (p : tour_event -> bool) : Proper ((≡ₚ) ==> (≡ₚ)) (List.filter p).
Proof.
  intros evs evs' Hp. induction Hp as [|ev evs evs' _ IH|ev ev' evs|evs1 evs2 evs3 _ IH1 _ IH2]; simpl.
  - done.
  - destruct (p ev); by rewrite IH.
  - destruct (p ev), (p ev'); try done. apply perm_swap.
  - by rewrite IH1.
Qed.
#[local] Instance told_perm : Proper ((≡ₚ) ==> (≡ₚ)) told := filter_perm is_told.
#[local] Instance counted_perm : Proper ((≡ₚ) ==> (≡ₚ)) counted := filter_perm is_counted.

Lemma tally_perm p evs evs' : evs ≡ₚ evs' -> tally p evs = tally p evs'.
Proof. intros Hp. unfold tally, zlen. by rewrite Hp. Qed.

Lemma add_stats_perm t evs evs' : evs ≡ₚ evs' -> add_stats t evs = add_stats t evs'.
Proof. intros Hp. unfold add_stats. by rewrite !(tally_perm _ _ _ Hp). Qed.

Lemma cost_perm evs evs' : evs ≡ₚ evs' -> cost evs = cost evs'.
Proof.
  induction 1 as [|ev evs evs' _ IH|ev ev' evs|evs1 evs2 evs3 _ IH1 _ IH2]; simpl; try done.
  - destruct ev; lia.
  - destruct ev, ev'; lia.
  - lia.
Qed.

Section tour_of_queue.
Context {KN : Kernel} {SN : Snapshot KN}.
Variable follow hidden : bool.
Variable accept descend : bc_io_walk_entry_t -> bool.

(** Paths grow, so the fuel of the tour does not matter. *)
Lemma tour_stable d1 d2 path dep :
  zlen path < BC_IO_MAX_PATH_LENGTH -> BC_IO_MAX_PATH_LENGTH - zlen path <= Z.of_nat d1 ->
  BC_IO_MAX_PATH_LENGTH - zlen path <= Z.of_nat d2 ->
  tour follow hidden accept descend d1 path dep = tour follow hidden accept descend d2 path dep.
Proof.
  revert d2 path dep. induction d1 as [|d1 IH]; intros d2 path dep Hlen H1 H2; [lia|].
  destruct d2 as [|d2]; [lia|]. simpl. destruct (tree_open path (walk_open_flags follow)) as [bs|e]; [|done].
  f_equal. unfold tour_entries. f_equal. apply list_fmap_ext. intros i d _. unfold tour_entry.
  destruct (_ && _); [done|]. case_decide as Hfit; [done|].
  assert (Hgrow : zlen path < zlen (child_of path (d_name d))).
  { apply child_longer. }
  destruct (tour_resolve follow path d) as [r|e]; [|done]. set (e := make_walk_entry _ _ _ _).
  destruct (accept e), (kind e), (descend e); try done. simpl. f_equal. apply IH; lia.
Qed.

Variable full : nat.
Hypothesis full_enough : BC_IO_MAX_PATH_LENGTH <= Z.of_nat full.
Notation T := (tour follow hidden accept descend full).
Notation tour_of := (tour_entries follow hidden accept descend T).

Lemma tour_unfold path dep :
  zlen path < BC_IO_MAX_PATH_LENGTH ->
  T path dep =
    match tree_open path (walk_open_flags follow) with
    | SysErr e => [TError path "open" e]
    | SysOk bs => TDirectory path (length bs) :: tour_of path dep (listed (concat bs))
    end.
Proof.
  intros Hlen. rewrite (tour_stable full (S full)) by (pose proof (zlen_nonneg path); lia). done.
Qed.

(** The tour from a queue entry. *)
Definition entry_tour (e : bc_io_walk_queue_entry_t) : list tour_event :=
  T (c_string (queue_path e)) (queue_depth e).
Definition queue_tour (es : list bc_io_walk_queue_entry_t) : list tour_event := concat (entry_tour <$> es).

Lemma queue_tour_perm es es' : es ≡ₚ es' -> queue_tour es ≡ₚ queue_tour es'.
Proof. intros Hp. unfold queue_tour. by rewrite Hp. Qed.

End tour_of_queue.

Section pool_tour.
Context {PF : Platform} {PL : PlatformLaws PF}.
Context {SN : Snapshot platform_kernel} {SL : SnapshotLaws SN}.
Context {CC : Concurrency PF bc_io_walk_queue_entry_t} {CL : ConcurrencyLaws CC}.
Variable stack : list Z.
Hypothesis stack_size : zlen stack = BC_IO_MAX_PATH_LENGTH.
Variable follow hidden : bool.
Variable accept descend : bc_io_walk_entry_t -> bool.
Variable root_block : list Z.
Variable root_len : Z.
Variable full : nat.
Hypothesis full_enough : BC_IO_MAX_PATH_LENGTH <= Z.of_nat full.
Hypothesis generous : forall m n, exists p m', pool_alloc m n = (Some p, m').
Variable laps : nat.
Hypothesis roomy : roomy_tree follow laps.

Notation config := (observer root_block root_len follow hidden accept descend).
Notation shared := (bc_io_walk_shared_t qstate (list tour_event)).
Notation state := (world * shared)%type.
Notation T := (tour follow hidden accept descend full).
Notation tour_of := (tour_entries follow hidden accept descend T).
Notation tour_from := (entry_tour follow hidden accept descend full).
Notation tours_from := (queue_tour follow hidden accept descend full).

(** ** The invariant: what was told and counted, and what is still to come, is [evs] *)

Variable evs : list tour_event.

Definition queued_path (e : bc_io_walk_queue_entry_t) : Prop :=
  0 < queue_path_length e < BC_IO_MAX_PATH_LENGTH /\
  exists path, holds_path (queue_path e) (queue_path_length e) path.

Record tour_world (w : world) (gs : list guide) : Prop := {
  t_heap : splits (heap w) (own <$> gs);
  t_opened : splits (opened (env w)) (fds <$> gs);
  t_wf : wf_world w;
}.

Record tour_shared (s : shared) (gs : list guide) : Prop := {
  t_queue : Forall queued_path (contents (directory_queue s));
  t_tell : shared_client s ++ concat (to_tell <$> gs) ++ told (tours_from (contents (directory_queue s)))
    ≡ₚ told evs;
  t_count : add_stats (shared_stats s) (concat (to_count <$> gs) ++ counted (tours_from (contents (directory_queue s)))) = stats_of evs;
  t_small : small_stats (shared_stats s);
  t_flag : shared_visit_failed s = false;
}.

Record tour_inv (ws : state) (gs : list guide) : Prop := {
  t_world : tour_world ws.1 gs;
  t_shared : tour_shared ws.2 gs;
  t_need : total (fun g => Z.of_nat (need g)) gs +
    Z.of_nat (cost (tours_from (contents (directory_queue ws.2)))) <= Z.of_nat (patience (env ws.1));
}.

Lemma tour_inv_perm ws gs gs' : gs ≡ₚ gs' -> tour_inv ws gs -> tour_inv ws gs'.
Proof.
  intros Hp [[Hh Ho Hwf] [Hq Ht Hc Hs Hf] Hn]. split.
  - split; [eapply splits_perm; [|exact Hh]; by rewrite Hp|eapply splits_perm; [|exact Ho]; by rewrite Hp|done].
  - split; [done|by rewrite <- Hp| |done|done]. rewrite <- Hc. apply add_stats_perm. by rewrite Hp.
  - by rewrite <- (total_perm _ _ _ Hp).
Qed.

(** ** Actions *)

Lemma tour_on_world {B} (m : M B) (Q : B -> guide -> Prop) g :
  (forall w F, tour_world w (g :: F) -> (need g <= patience (env w))%nat ->
     wp m (fun b w' => exists g', tour_world w' (g' :: F) /\
       (patience (env w) + need g' <= patience (env w') + need g)%nat /\
       to_tell g' = to_tell g /\ to_count g' = to_count g /\ Q b g') w) ->
  pwp tour_inv (on_world m) Q g.
Proof.
  intros H. apply pwp_atomic. intros [w s] F [Hw [Hq Ht Hc Hs Hf] Hn]. simpl in *.
  pose proof (total_nonneg (fun g => Z.of_nat (need g)) F (fun _ => Nat2Z.is_nonneg _)).
  specialize (H w F Hw ltac:(lia)). apply wp_run in H as (b & w' & E & g' & Hw' & Hn' & Et & Ec & HQ).
  rewrite E. exists b, (w', s), g'. split; [done|]. split; [|done]. split; simpl; [done| |lia].
  split; simpl; try done; by rewrite ?Et, ?Ec.
Qed.

Lemma tour_on_shared {B} (f : shared -> B * shared) (Q : B -> guide -> Prop) g :
  (forall s F, tour_shared s (g :: F) ->
     exists g', tour_shared (f s).2 (g' :: F) /\ own g' = own g /\ fds g' = fds g /\
       (need g' + cost (tours_from (contents (directory_queue (f s).2))) <=
        need g + cost (tours_from (contents (directory_queue s))))%nat /\ Q (f s).1 g') ->
  pwp tour_inv (on_shared f) Q g.
Proof.
  intros H. apply pwp_atomic. intros [w s] F [[Hh Ho Hwf] Hs Hn].
  destruct (H s F Hs) as (g' & Hs' & Eo & Ef & Hn' & HQ). destruct (f s) as [b s'] eqn:E.
  exists b, (w, s'), g'. split; [done|]. split; [|done]. simpl in *. split; simpl; [|done|lia].
  split; simpl in *; [by rewrite Eo|by rewrite Ef|done].
Qed.

Lemma tour_load_visit_failed (Q : bool -> guide -> Prop) g :
  Q false g -> pwp tour_inv load_visit_failed Q g.
Proof.
  intros HQ. apply tour_on_shared. intros s F Hs. exists g. split_and!; try done.
  simpl. by rewrite (t_flag _ _ Hs).
Qed.

Lemma tour_outstanding n (Q : unit -> guide -> Prop) g :
  Q tt g -> pwp tour_inv (fetch_add_outstanding n) Q g.
Proof. intros HQ. apply tour_on_shared. intros s F [? ? ? ? ?]. exists g. by split_and!. Qed.

Lemma small_count f t : small_stats t ->
  f = count_file \/ f = count_directory \/ f = count_skipped \/ f = count_error -> small_stats (f t).
Proof.
  intros (? & ? & ? & ?) Hf. destruct Hf as [->|[->|[->| ->]]]; split_and!; try done; apply wrap64_range.
Qed.

(** An event is counted. *)
Definition counts (f : bc_io_walk_stats_t -> bc_io_walk_stats_t) (ev : tour_event) : Prop :=
  match ev with
  | TDirectory _ _ => f = count_directory
  | TVisit e => kind e = BC_IO_WALK_ENTRY_FILE /\ f = count_file
  | TSkip _ => f = count_skipped
  | TError _ _ _ => f = count_error
  end.

Lemma add_stats_count f ev t l : counts f ev -> add_stats t (ev :: l) = add_stats (f t) l.
Proof.
  intros Hf. unfold add_stats, tally.
  destruct ev as [p n|e|e|p st er]; simpl in *; [|destruct Hf as [Hk Hf]; rewrite bool_decide_true by done|..];
    rewrite Hf; unfold count_directory, count_file, count_skipped, count_error; simpl;
    rewrite zlen_cons, wrap64_add_l; by rewrite <- Z.add_assoc.
Qed.

Lemma tour_count f ev own fds n tell cnt (Q : unit -> guide -> Prop) :
  counts f ev -> Q tt (mk_guide own fds n tell cnt) ->
  pwp tour_inv (fetch_add_stat f) Q (mk_guide own fds n tell (ev :: cnt)).
Proof.
  intros Hf HQ. apply tour_on_shared. intros s F [Hq Ht Hc Hs Hfl]. eexists.
  split; [|split_and!; [| | |exact HQ]; try done; simpl; lia].
  split; simpl in *; try done.
  - by rewrite <- (add_stats_count f ev).
  - apply small_count; [done|]. destruct ev; simpl in Hf; naive_solver.
Qed.

(** An event is told. *)
Lemma tour_tell {B} (f : list tour_event -> B * list tour_event) b ev own fds n tell cnt
    (Q : B -> guide -> Prop) :
  (forall log, f log = (b, log ++ [ev])) -> Q b (mk_guide own fds n tell cnt) ->
  pwp tour_inv (on_client f) Q (mk_guide own fds n (ev :: tell) cnt).
Proof.
  intros Hf HQ. apply tour_on_shared. intros s F [Hq Ht Hc Hs Hfl]. rewrite Hf. eexists.
  split; [|split_and!; [| | |exact HQ]; try done; simpl; lia].
  split; simpl in *; try done. rewrite <- Ht. by rewrite <- app_assoc.
Qed.

Lemma tour_ask (f : list tour_event -> bool * list tour_event) b (Q : bool -> guide -> Prop) g :
  (forall log, f log = (b, log)) -> Q b g -> pwp tour_inv (on_client f) Q g.
Proof.
  intros Hf HQ. apply tour_on_shared. intros s F [Hq Ht Hc Hs Hfl]. rewrite Hf. exists g. by split_and!.
Qed.

Lemma tour_report_error block path stage e own fds n tell cnt (Q : unit -> guide -> Prop) :
  c_string block = path -> Q tt (mk_guide own fds n tell cnt) ->
  pwp tour_inv (bc_io_walk_report_error config block stage e) Q
    (mk_guide own fds n (TError path stage e :: tell) (TError path stage e :: cnt)).
Proof.
  intros <- HQ. apply pwp_bind. eapply tour_count; [done|]. by eapply tour_tell.
Qed.

Lemma tour_push e own fds n tell cnt (Q : bool -> guide -> Prop) :
  queued_path e -> Q true (mk_guide own fds n tell cnt) ->
  Q false (mk_guide own fds (cost (tour_from e) + n) (told (tour_from e) ++ tell) (counted (tour_from e) ++ cnt)) ->
  pwp tour_inv (push e) Q
    (mk_guide own fds (cost (tour_from e) + n) (told (tour_from e) ++ tell) (counted (tour_from e) ++ cnt)).
Proof.
  intros He HQt HQf. apply tour_on_shared. intros s F [Hq Ht Hc Hs Hfl]. simpl.
  destruct (queue_push (directory_queue s) e) as [[] q] eqn:Ep; simpl.
  - apply queue_push_true in Ep as (Hp & _ & _).
    pose proof (queue_tour_perm follow hidden accept descend full _ _ Hp) as HpT.
    assert (HpT' : tours_from (e :: contents (directory_queue s)) =
      tour_from e ++ tours_from (contents (directory_queue s))) by done.
    rewrite HpT' in HpT. eexists. split; [|split_and!; [| | |exact HQt]; try done].
    + split; simpl in *; try done.
      * rewrite Hp. by constructor.
      * rewrite <- Ht. rewrite HpT, told_app. solve_Permutation.
      * rewrite <- Hc. apply add_stats_perm. rewrite HpT, counted_app. solve_Permutation.
    + simpl. rewrite (cost_perm _ _ HpT), cost_app. lia.
  - apply queue_push_false in Ep as [Hc' _]. eexists. split; [|split_and!; [| | |exact HQf]; try done].
    + split; simpl in *; by rewrite ?Hc'.
    + simpl. by rewrite Hc'.
Qed.

(** ** Actions on the world *)

Lemma tour_world_undisturbed w w' gs : undisturbed w w' -> tour_world w gs -> tour_world w' gs.
Proof.
  intros (Hm & Hh & Ho & _) [? ? Hwf]. split; [by rewrite Hh|by rewrite Ho|].
  unfold wf_world in *. by rewrite Hm, Hh.
Qed.

Lemma tour_resolve_action dfd dir bs x d (Q : option walk_resolved * Z -> guide -> Prop) g :
  fds g !! dfd = Some (dir, bs) -> tells x d ->
  (forall r e, match tour_resolve follow dir d with
     | SysOk y => r = Some y
     | SysErr er => r = None /\ e = er
     end -> Q (r, e) g) ->
  pwp tour_inv (on_world (with_errno (walk_resolve follow dfd x))) Q g.
Proof.
  intros Hfd Hx HQ. apply tour_on_world. intros w F Hw Hn.
  pose proof (splits_lookup _ _ _ _ _ (t_opened _ _ Hw) Hfd) as Ho.
  apply wp_bind. eapply wp_mono; [by eapply walk_resolve_tour|]. intros r w' [Hu Hr].
  apply wp_bind, wp_get_errno, wp_ret. exists g. split_and!; try done.
  - by eapply tour_world_undisturbed.
  - destruct Hu as (_ & _ & _ & ->). lia.
  - apply HQ. by destruct (tour_resolve follow dir d).
Qed.

Lemma tour_open_action path own fds n tell cnt (Q : Z * Z -> guide -> Prop) :
  match tree_open path (walk_open_flags follow) with
  | SysOk bs => forall fd e, 0 <= fd -> fds !! fd = None ->
      Q (fd, e) (mk_guide own (<[fd := (path, bs)]> fds) n tell cnt)
  | SysErr e => Q (-1, e) (mk_guide own fds n tell cnt)
  end ->
  pwp tour_inv (on_world (with_errno (open_ path (walk_open_flags follow) 0))) Q (mk_guide own fds n tell cnt).
Proof.
  intros HQ. apply tour_on_world. intros w F [Hh Ho Hwf] Hn. apply wp_bind, wp_snap_open.
  - intros bs fd k Et Hfd Hnew Hk Hp. rewrite Et in HQ. apply wp_bind, wp_get_errno, wp_ret. eexists.
    split; [|split; [|split; [|split; [|apply HQ]]]]; simpl; try done.
    + split; simpl; [done| |done]. rewrite Hk. by apply splits_insert.
    + rewrite Hp. lia.
    + destruct (fds !! fd) eqn:E; [|done]. by rewrite (splits_lookup _ _ _ _ _ Ho E) in Hnew.
  - intros e k Et Hk Hp. rewrite Et in HQ. apply wp_bind, wp_get_errno, wp_ret. eexists.
    split; [|split; [|split; [|split; [|exact HQ]]]]; simpl; try done; [|by rewrite Hp].
    split; simpl; [done|by rewrite Hk|done].
Qed.

Lemma tour_close_action fd x own fds n tell cnt (Q : unit -> guide -> Prop) :
  fds !! fd = Some x -> Q tt (mk_guide own (delete fd fds) n tell cnt) ->
  pwp tour_inv (on_world (close fd)) Q (mk_guide own fds n tell cnt).
Proof.
  intros Hfd HQ. apply tour_on_world. intros w F [Hh Ho Hwf] Hn. unfold wp, close. simpl.
  destruct (snap_close (env w) fd) as [Hk Hp]. eexists.
  split; [|split; [|split; [|split; [|exact HQ]]]]; simpl; try done; [|rewrite Hp; lia].
  split; simpl; [done| |done]. rewrite Hk. by eapply splits_delete.
Qed.

Lemma tour_create_action own fds n tell cnt (Q : option Z -> guide -> Prop) :
  (forall p r, p <> 0 -> own !! p = None -> reader_sized r ->
     Q (Some p) (mk_guide (<[p := OReader r]> own) fds n tell cnt)) ->
  pwp tour_inv (on_world (bc_io_dirent_reader_create (-1))) Q (mk_guide own fds n tell cnt).
Proof.
  intros HQ. apply tour_on_world. intros w F [Hh Ho Hwf] Hn. apply wp_generous_reader; [done|done|].
  intros p r m Hp Hp0 Hr _ Hm. eexists.
  split; [|split; [|split; [|split; [|apply (HQ p r)]]]]; simpl; try done.
  - split; simpl; [by apply splits_insert|done|].
    unfold wf_world in *. simpl. rewrite Hm, dom_insert_L. set_solver.
  - destruct (own !! p) eqn:E; [|done]. by rewrite (splits_lookup _ _ _ _ _ Hh E) in Hp.
  - destruct Hr as (? & ? & _ & _ & _ & ?). done.
Qed.

Lemma tour_destroy_action p x own fds n tell cnt (Q : unit -> guide -> Prop) :
  p <> 0 -> own !! p = Some x -> Q tt (mk_guide (delete p own) fds n tell cnt) ->
  pwp tour_inv (on_world (bc_io_dirent_reader_destroy p)) Q (mk_guide own fds n tell cnt).
Proof.
  intros Hp0 Hp HQ. apply tour_on_world. intros w F [Hh Ho Hwf] Hn.
  pose proof (splits_lookup _ _ _ _ _ Hh Hp) as Hpw.
  unfold bc_io_dirent_reader_destroy. rewrite decide_False by done.
  eapply wp_pool_free; [done|]. intros m Hm. eexists.
  split; [|split; [|split; [|split; [|exact HQ]]]]; simpl; try done.
  split; simpl; [by eapply splits_delete|done|].
  unfold wf_world in *. simpl. rewrite Hm, dom_delete_L. set_solver.
Qed.

Lemma wf_stored p x o w :
  wf_world w -> heap w !! p = Some x ->
  wf_world (mk_world (env w) (mem w) (errno w) (<[p := o]> (heap w)) (trace w)).
Proof.
  unfold wf_world. simpl. intros Hwf Hp. rewrite dom_insert_L. apply elem_of_dom_2 in Hp. set_solver.
Qed.

Lemma tour_reset_action p r fd own fds n tell cnt (Q : unit -> guide -> Prop) :
  own !! p = Some (OReader r) ->
  Q tt (mk_guide (<[p := OReader (bc_io_dirent_reader_reset r fd)]> own) fds n tell cnt) ->
  pwp tour_inv (on_world (reader_reset p fd)) Q (mk_guide own fds n tell cnt).
Proof.
  intros Hp HQ. apply tour_on_world. intros w F [Hh Ho Hwf] Hn.
  pose proof (splits_lookup _ _ _ _ _ Hh Hp) as Hpw.
  apply wp_bind. eapply wp_load_reader; [done|]. eapply wp_store; [done|]. eexists.
  split; [|split; [|split; [|split; [|exact HQ]]]]; simpl; try done.
  split; simpl; [by eapply splits_update|done|]. by eapply wf_stored.
Qed.

Lemma tour_next_action p r dfd dir ds bs own fds n tell cnt
    (Q : option (option bc_io_dirent_entry_t) * Z -> guide -> Prop) :
  own !! p = Some (OReader r) -> reader_holds r ds -> Forall dirent_ok ds -> dir_fd r = dfd ->
  fds !! dfd = Some (dir, bs) -> batches_ok bs -> (length (ds ++ concat bs) < laps)%nat ->
  (forall e r', reader_holds r' [] -> listed (ds ++ concat bs) = [] ->
     Q (Some None, e) (mk_guide (<[p := OReader r']> own) (<[dfd := (dir, [])]> fds) n tell cnt)) ->
  (forall e r' x d ds' bs',
     listed (ds ++ concat bs) = d :: listed (ds' ++ concat bs') -> tells x d -> dirent_ok d ->
     reader_holds r' ds' -> Forall dirent_ok ds' -> dir_fd r' = dfd -> batches_ok bs' ->
     (length (ds' ++ concat bs') < length (ds ++ concat bs))%nat ->
     Q (Some (Some x), e)
       (mk_guide (<[p := OReader r']> own) (<[dfd := (dir, bs')]> fds) (length bs' + n) tell cnt)) ->
  pwp tour_inv (on_world (reader_next laps p)) Q (mk_guide own fds (length bs + n) tell cnt).
Proof.
  intros Hp Hr Hds Hfd Ho Hbs Hlaps HQn HQs. apply tour_on_world. intros w F [Hh Hop Hwf] Hn. simpl in Hn.
  pose proof (splits_lookup _ _ _ _ _ Hh Hp) as Hpw. pose proof (splits_lookup _ _ _ _ _ Hop Ho) as How.
  apply wp_bind. eapply wp_load_reader; [done|].
  destruct (next_snapshot laps r w dir ds bs Hr Hds) as (answer & r1 & w1 & E & Hm1 & Hh1 & Hfd1 & Hans);
    [by rewrite Hfd|done|lia|done|]. rewrite Hfd in *.
  apply wp_bind. unfold wp at 1. rewrite E. cbn [safe].
  apply wp_bind. eapply wp_store; [by rewrite Hh1|]. apply wp_ret. rewrite Hh1.
  assert (Hwf1 : wf_world (mk_world (env w1) (mem w1) (errno w1) (<[p := OReader r1]> (heap w)) (trace w1))).
  { apply (wf_stored p (OReader r) (OReader r1)) in Hwf; [|done]. unfold wf_world in *. simpl in *. by rewrite Hm1. }
  destruct answer as [x|].
  - destruct Hans as (d & ds' & bs' & Hl & Hx & Hd & Hr1 & Hds' & Hbs' & Ho1 & Hpat1 & Hshort). eexists.
    split; [|split; [|split; [|split; [|by eapply HQs]]]]; simpl; try done; [|lia].
    split; simpl; [by eapply splits_update| |done]. rewrite Ho1. by eapply splits_update.
  - destruct Hans as (Hl & Hr1 & Ho1 & Hpat1). eexists.
    split; [|split; [|split; [|split; [|by eapply HQn]]]]; simpl; try done; [|lia].
    split; simpl; [by eapply splits_update| |done]. rewrite Ho1. by eapply splits_update.
Qed.

(** ** A directory *)

Lemma holds_path_made block len path dep :
  holds_path block len path -> 0 < len < BC_IO_MAX_PATH_LENGTH ->
  exists sub, make_queue_entry stack block len dep = Done sub /\ queue_path_length sub = len /\
    queue_depth sub = dep /\ holds_path (queue_path sub) len path /\ queued_path sub /\
    tour_from sub = T path dep.
Proof.
  intros Hp Hlen. pose proof Hp as ((rest & Eb) & H0 & El). rewrite make_queue_entry_spec.
  - rewrite (holds_path_view _ _ _ Hp). eexists. split; [done|]. simpl.
    assert (Hs : holds_path (path ++ zrepeat 0 (BC_IO_MAX_PATH_LENGTH - len)) len path).
    { split_and!; [|done|done]. exists (zrepeat 0 (BC_IO_MAX_PATH_LENGTH - len - 1)). f_equal.
      unfold zrepeat. replace (Z.to_nat (BC_IO_MAX_PATH_LENGTH - len)) with
        (S (Z.to_nat (BC_IO_MAX_PATH_LENGTH - len - 1))) by lia. done. }
    split_and!; try done.
    + split; [done|]. by exists path.
    + unfold entry_tour. simpl. by rewrite (proj1 (holds_path_string _ _ _ Hs)).
  - done.
  - lia.
  - rewrite Eb, zlen_app. pose proof (zlen_nonneg (0 :: rest)). lia.
Qed.

(** Code that walks a directory with a given reader makes its part of the tour. *)
Definition walks_part (deep : Z) (walk : Z -> list Z -> Z -> Z -> proc state unit) : Prop :=
  forall p r block len path dep own fds n tell cnt,
    own !! p = Some (OReader r) -> reader_sized r -> holds_path block len path ->
    0 < len < BC_IO_MAX_PATH_LENGTH -> BC_IO_MAX_PATH_LENGTH - len <= deep ->
    pwp tour_inv (walk p block len dep)
      (fun _ g' => exists r', reader_sized r' /\ g' = mk_guide (<[p := OReader r']> own) fds n tell cnt)
      (mk_guide own fds (cost (T path dep) + n) (told (T path dep) ++ tell) (counted (T path dep) ++ cnt)).

Section directory.
Variable deep : Z.
Variable recurse : Z -> list Z -> Z -> Z -> proc state unit.
Hypothesis walk : walks_part deep recurse.

Lemma tour_descend block len path e own fds n tell cnt :
  holds_path block len path -> 0 < len < BC_IO_MAX_PATH_LENGTH -> BC_IO_MAX_PATH_LENGTH - len <= deep ->
  absolute_path e = block -> absolute_path_length e = len ->
  pwp tour_inv (parallel_descend config stack recurse e)
    (fun _ g' => g' = mk_guide own fds n tell cnt)
    (mk_guide own fds (cost (T path (depth e)) + n) (told (T path (depth e)) ++ tell)
       (counted (T path (depth e)) ++ cnt)).
Proof.
  intros Hp Hlen Hdeep Ea El.
  destruct (holds_path_made block len path (depth e) Hp Hlen) as (sub & Esub & Eslen & Esdep & Hsub & Hq & HT).
  apply pwp_bind, pwp_local. rewrite Ea, El, Esub. simpl. apply pwp_bind, tour_outstanding.
  rewrite <- HT. apply pwp_bind, tour_push; [done|by apply pwp_ret|].
  apply pwp_bind, tour_outstanding. apply pwp_bind, tour_create_action.
  intros q r Hq0 Hqown Hr. rewrite HT, Eslen, Esdep. apply pwp_bind. eapply pwp_mono.
  { eapply (walk q r); [by simplify_map_eq|done|done|done|done]. }
  intros [] g1 (r' & Hr' & ->). rewrite insert_insert_eq.
  eapply tour_destroy_action; [done|by simplify_map_eq|]. by rewrite delete_insert_id.
Qed.

Lemma tour_dispatch_action block len path dep r own fds n tell cnt :
  holds_path block len path -> 0 < len < BC_IO_MAX_PATH_LENGTH -> BC_IO_MAX_PATH_LENGTH - len <= deep ->
  let e := make_walk_entry path (zlen path) dep r in
  let part :=
    if negb (accept e) then [TSkip e]
    else match kind e with
         | BC_IO_WALK_ENTRY_FILE => [TVisit e]
         | BC_IO_WALK_ENTRY_DIRECTORY => TVisit e :: (if descend e then T path (depth e) else [])
         | _ => []
         end in
  pwp tour_inv (parallel_dispatch config stack recurse (make_walk_entry block len dep r))
    (fun b g' => b = true /\ g' = mk_guide own fds n tell cnt)
    (mk_guide own fds (cost part + n) (told part ++ tell) (counted part ++ cnt)).
Proof.
  intros Hp Hlen Hdeep e part. pose proof (entry_view_make block len path dep r Hp) as Ev. fold e in Ev.
  subst part. unfold parallel_dispatch. apply pwp_bind. eapply (tour_ask _ (accept e)); [by rewrite Ev|].
  destruct (accept e); cbn [negb]; [|by apply pwp_bind; eapply tour_count; [|apply pwp_ret]].
  change (kind (make_walk_entry block len dep r)) with (kind e).
  destruct (decide (kind e = BC_IO_WALK_ENTRY_FILE)) as [Ek|Ek].
  { rewrite Ek, counted_file by done. rewrite bool_decide_false by done.
    apply pwp_bind. eapply tour_count; [done|]. apply pwp_bind.
    eapply (tour_tell _ true (TVisit e)); [by rewrite Ev|]. by apply pwp_ret. }
  destruct (decide (kind e = BC_IO_WALK_ENTRY_DIRECTORY)) as [Ed|Ed].
  2: { destruct (kind e); try done; by apply pwp_ret. }
  rewrite Ed, counted_not_file by congruence.
  apply pwp_bind. eapply (tour_tell _ true (TVisit e)); [by rewrite Ev|]. cbn [negb].
  apply pwp_bind. eapply (tour_ask _ (descend e)); [by rewrite Ev|].
  destruct (descend e); cbn [negb]; [|by apply pwp_ret]. apply pwp_bind. eapply pwp_mono.
  { by apply (tour_descend block len path (make_walk_entry block len dep r)). }
  intros [] g' ->. by apply pwp_ret.
Qed.

Lemma tour_entry_action dfd dir dlen block bs dep x d own fds n tell cnt :
  holds_path block dlen dir -> 0 < dlen < BC_IO_MAX_PATH_LENGTH -> BC_IO_MAX_PATH_LENGTH - dlen <= deep + 1 ->
  fds !! dfd = Some (dir, bs) -> tells x d -> dirent_ok d ->
  let part := tour_entry follow hidden accept descend T dir dep d in
  pwp tour_inv (parallel_entry config stack recurse dfd block dlen dep x)
    (fun b g' => b = true /\ g' = mk_guide own fds n tell cnt)
    (mk_guide own fds (cost part + n) (told part ++ tell) (counted part ++ cnt)).
Proof.
  intros Hblock Hlen Hdeep Hfd Hx Hd part.
  destruct (join_child stack stack_size _ _ _ _ _ Hblock Hlen Hx Hd) as (Hpeek & Hp0 & Hjoin).
  subst part. unfold parallel_entry, tour_entry. rewrite hidden_spec. set (path := child_of dir (d_name d)) in *.
  apply pwp_bind, pwp_local. rewrite Hpeek. simpl.
  destruct (decide (hd 0 (d_name d) = ch "." /\ hidden = false)) as [Eh|Eh].
  { rewrite bool_decide_true by done. by apply pwp_ret. }
  rewrite bool_decide_false by done. apply pwp_bind, pwp_local. rewrite Hjoin. simpl.
  destruct (decide (zlen path + 1 <= BC_IO_MAX_PATH_LENGTH)) as [Hfit|Hfit].
  2: { rewrite decide_True by lia. apply pwp_bind. eapply tour_report_error; [|by apply pwp_ret].
       by apply (holds_path_string _ _ _ Hblock). }
  rewrite (decide_False (P := BC_IO_MAX_PATH_LENGTH <= zlen path)) by lia.
  set (child := path ++ 0 :: zdrop (zlen path + 1) stack).
  assert (Hchild : holds_path child (zlen path) path) by (split_and!; [by eexists|done|done]).
  assert (Hgrow : dlen < zlen path).
  { destruct Hblock as (_ & _ & ->). subst path. unfold child_of. rewrite zlen_app, zlen_cons.
    pose proof (zlen_nonneg (d_name d)). lia. }
  apply pwp_bind. eapply tour_resolve_action; [done|done|]. intros r e Hr.
  destruct (tour_resolve follow dir d) as [y|er].
  - subst r. apply (tour_dispatch_action child (zlen path) path dep y); [done|lia|lia].
  - destruct Hr as [-> ->]. apply pwp_bind. eapply tour_report_error; [|by apply pwp_ret].
    by apply (holds_path_string _ _ _ Hchild).
Qed.

Lemma tour_loop fuel p r dfd dir dlen block ds bs dep own fds n tell cnt :
  holds_path block dlen dir -> 0 < dlen < BC_IO_MAX_PATH_LENGTH -> BC_IO_MAX_PATH_LENGTH - dlen <= deep + 1 ->
  own !! p = Some (OReader r) -> reader_holds r ds -> Forall dirent_ok ds -> dir_fd r = dfd ->
  fds !! dfd = Some (dir, bs) -> batches_ok bs ->
  (length (ds ++ concat bs) < laps)%nat -> (length (ds ++ concat bs) < fuel)%nat ->
  let part := tour_of dir dep (listed (ds ++ concat bs)) in
  pwp tour_inv (parallel_loop config stack recurse fuel laps p dfd block dlen dep)
    (fun _ g' => exists r', reader_sized r' /\
       g' = mk_guide (<[p := OReader r']> own) (<[dfd := (dir, [])]> fds) n tell cnt)
    (mk_guide own fds (length bs + (cost part + n)) (told part ++ tell) (counted part ++ cnt)).
Proof.
  intros Hblock Hlen Hdeep. revert r ds bs own fds.
  induction fuel as [|fuel IH]; intros r ds bs own fds Hp Hr Hds Hfd Ho Hbs Hlaps Hfuel part; [lia|].
  cbn [parallel_loop]. apply pwp_bind, tour_load_visit_failed. apply pwp_bind.
  eapply (tour_next_action p r dfd dir ds bs); try done.
  - intros e r' Hr' Hnone. subst part. rewrite Hnone. apply pwp_ret. exists r'. split; [|done].
    destruct Hr' as (? & ? & _ & _ & _ & ?). done.
  - intros e r' x d ds' bs' Hl Hx Hd Hr' Hds' Hfd' Hbs' Hshort. subst part. rewrite Hl.
    change (tour_of dir dep (d :: listed (ds' ++ concat bs'))) with
      (tour_entry follow hidden accept descend T dir dep d ++ tour_of dir dep (listed (ds' ++ concat bs'))).
    set (part := tour_entry _ _ _ _ _ _ _ _). set (rest := tour_of dir dep _).
    rewrite cost_app, told_app, counted_app, <- !app_assoc.
    replace (length bs' + (cost part + cost rest + n))%nat with (cost part + (length bs' + (cost rest + n)))%nat by lia.
    apply pwp_bind. eapply pwp_mono.
    { eapply (tour_entry_action dfd dir dlen block bs' dep x d); try done. by simplify_map_eq. }
    intros b g' [-> ->]. eapply pwp_mono.
    { eapply (IH r' ds' bs'); try done; [by simplify_map_eq|by simplify_map_eq|lia|lia]. }
    intros [] g' (r2 & Hr2 & ->). exists r2. split; [done|]. by rewrite !insert_insert_eq.
Qed.
End directory.

Lemma process_directory_tours deep :
  walks_part (Z.of_nat deep - 1) (bc_io_walk_process_directory config stack deep laps).
Proof.
  induction deep as [|deep IH]; intros p r block len path dep own fds n tell cnt Hp Hr Hblock Hlen Hdeep; [lia|].
  cbn [bc_io_walk_process_directory]. apply pwp_bind, tour_load_visit_failed.
  pose proof (holds_path_string _ _ _ Hblock) as [Hstr Hterm].
  assert (Hplen : zlen path < BC_IO_MAX_PATH_LENGTH) by (destruct Hblock as (_ & _ & <-); lia).
  apply pwp_bind, pwp_local. rewrite Hterm. simpl. rewrite (tour_unfold _ _ _ _ _ full_enough path dep Hplen).
  apply pwp_bind, tour_open_action. destruct (tree_open path (walk_open_flags follow)) as [bs|e] eqn:Et.
  - intros fd e Hfd Hnew. rewrite decide_False by lia. apply pwp_bind. eapply tour_count; [done|].
    apply pwp_bind. eapply tour_reset_action; [done|]. apply pwp_bind. eapply pwp_mono.
    { simpl. rewrite <- Nat.add_assoc.
      eapply (tour_loop (Z.of_nat deep - 1) _ IH laps p (bc_io_dirent_reader_reset r fd) fd path len block [] bs);
        try done; [lia|by simplify_map_eq|..].
      - exists [], (reader_buffer r). by split_and!.
      - by simplify_map_eq.
      - by eapply tree_records.
      - by eapply roomy.
      - by eapply roomy. }
    intros [] g' (r' & Hr' & ->). eapply tour_close_action; [by simplify_map_eq|]. exists r'. split; [done|].
    by rewrite !insert_insert_eq, delete_insert_id.
  - rewrite decide_True by lia. eapply tour_report_error; [done|]. exists r. split; [done|]. by rewrite insert_id.
Qed.

(** ** Workers *)

Definition idle_guide : guide := mk_guide ∅ ∅ 0 [] [].
Definition with_reader (rd : Z) (g : guide) : Prop :=
  rd <> 0 /\ exists r, reader_sized r /\ g = mk_guide {[rd := OReader r]} ∅ 0 [] [].

Definition tour_worker_ok (k : worker (list tour_event)) (g : guide) : Prop :=
  match k with
  | Starting | Gone => g = idle_guide
  | Giving_up _ => False
  | Processing rd p => pwp tour_inv p (fun _ => with_reader rd) g
  | At_head rd | At_flag rd | At_pop rd | At_outstanding rd | Leaving rd => with_reader rd g
  end.

Lemma process_tours deep rd e g :
  BC_IO_MAX_PATH_LENGTH <= Z.of_nat deep -> queued_path e -> with_reader rd g ->
  pwp tour_inv (bc_io_walk_process_directory config stack deep laps rd (queue_path e) (queue_path_length e)
                  (queue_depth e)) (fun _ => with_reader rd)
    (mk_guide (own g) ∅ (cost (tour_from e)) (told (tour_from e)) (counted (tour_from e))).
Proof.
  intros Hdeep [Hlen (path & Hp)] (Hrd & r & Hr & ->). unfold entry_tour.
  rewrite (proj1 (holds_path_string _ _ _ Hp)). eapply pwp_mono.
  { rewrite <- (Nat.add_0_r (cost _)), <- (app_nil_r (told _)), <- (app_nil_r (counted _)).
    eapply (process_directory_tours deep rd r); [by simplify_map_eq|done|done|done|lia]. }
  intros [] g' (r' & Hr' & ->). split; [done|]. exists r'. split; [done|]. simpl. by rewrite insert_singleton_eq.
Qed.

Lemma tour_pop w s g F e q :
  tour_inv (w, s) (g :: F) -> need g = 0%nat -> to_tell g = [] -> to_count g = [] ->
  queue_pop (directory_queue s) = (Some e, q) ->
  queued_path e /\
  tour_inv (w, with_queue q s)
    (mk_guide (own g) (fds g) (cost (tour_from e)) (told (tour_from e)) (counted (tour_from e)) :: F).
Proof.
  intros [[Hh Ho Hwf] [Hq Ht Hc Hs Hf] Hn] En Et Ec [Hp _]%queue_pop_some. simpl in *.
  pose proof (queue_tour_perm follow hidden accept descend full _ _ Hp) as HpT.
  assert (HpT' : tours_from (e :: contents q) = tour_from e ++ tours_from (contents q)) by done.
  rewrite HpT' in HpT. rewrite Hp in Hq. apply Forall_cons in Hq as [He Hq]. split; [done|].
  rewrite Et in Ht. rewrite Ec in Hc. rewrite En in Hn. split; simpl.
  - by split.
  - split; simpl; try done.
    + rewrite <- Ht, HpT, told_app. solve_Permutation.
    + rewrite <- Hc. apply add_stats_perm. rewrite HpT, counted_app. solve_Permutation.
  - rewrite (cost_perm _ _ HpT), cost_app in Hn. lia.
Qed.

Lemma tour_pop_none w s gs q :
  tour_inv (w, s) gs -> queue_pop (directory_queue s) = (None, q) -> tour_inv (w, with_queue q s) gs.
Proof.
  intros [Hw [Hq Ht Hc Hs Hf] Hn] [Hc' _]%queue_pop_none. simpl in *.
  split; [done| |by simpl; rewrite Hc']. split; simpl; by rewrite ?Hc'.
Qed.

(** A worker that is leaving or gone. *)
Definition has_left (k : worker (list tour_event)) : bool :=
  match k with Leaving _ | Gone => true | _ => false end.

Lemma worker_step_tours deep k w s g F :
  BC_IO_MAX_PATH_LENGTH <= Z.of_nat deep -> tour_worker_ok k g -> tour_inv (w, s) (g :: F) ->
  exists k' c g', worker_step config stack deep laps k w s = Done (k', c) /\ tour_inv c (g' :: F) /\
    tour_worker_ok k' g' /\
    (has_left k' = true -> has_left k = true \/ outstanding_directory_count c.2 = 0).
Proof.
  intros Hdeep Hk Hinv. pose proof (t_flag _ _ (t_shared _ _ Hinv)) as Hflag. simpl in Hflag.
  destruct k as [|p|rd|rd|rd|rd p|rd|rd|]; simpl in Hk; [|done|..]; cbn [worker_step].
  - subst g. destruct (pwp_act _ _ _ _ _ (w, s) F
      (tour_create_action ∅ ∅ 0 [] [] (fun o g' => exists rd, o = Some rd /\ with_reader rd g')
         ltac:(intros p r Hp0 _ Hr; exists p; split; [done|]; split; [done|]; exists r; split; [done|];
               by rewrite insert_empty)) Hinv) as (o & c & g' & E & Hinv' & (rd & -> & Hg')).
    destruct (bc_io_dirent_reader_create (-1) w) as [[o' w']| |]; simplify_eq. by eexists _, _, g'.
  - unfold bc_io_walk_should_stop. simpl. by eexists _, _, g.
  - rewrite Hflag. by eexists _, _, g.
  - destruct (queue_pop (directory_queue s)) as [[e|] q] eqn:E.
    + pose proof Hk as (Hrd & r & Hr & Hg).
      destruct (tour_pop _ _ _ _ _ _ Hinv ltac:(by subst g) ltac:(by subst g) ltac:(by subst g) E) as [He Hinv'].
      eexists _, _, _. split; [done|]. split; [exact Hinv'|]. split; [|done].
      replace (fds g) with (∅ : gmap Z (list Z * list (list dirent))) by by subst g. by apply process_tours.
    + eexists _, _, g. split; [done|]. split; [by eapply tour_pop_none|done].
  - destruct p as [u|B f k].
    + eexists _, _, g. split; [done|]. split; [|by split].
      destruct Hinv as [Hw [? ? ? ? ?] Hn]. by split.
    + destruct (pwp_act _ _ _ _ _ _ _ Hk Hinv) as (x & c & g' & E & Hinv' & Hg').
      simpl. rewrite E. by eexists _, _, g'.
  - eexists _, _, g. split; [done|]. case_decide; split_and!; try done. by right.
  - pose proof Hk as (Hrd & r & Hr & ->).
    destruct (pwp_act _ _ _ _ _ (w, s) F
      (tour_destroy_action rd (OReader r) _ ∅ 0 [] [] (fun _ g' => g' = idle_guide) Hrd
         (lookup_singleton_eq rd (OReader r)) ltac:(by rewrite delete_singleton_eq)) Hinv) as (o & c & g' & E & Hinv' & Hg').
    destruct (bc_io_dirent_reader_destroy rd w) as [[o' w']| |]; simplify_eq.
    eexists _, _, g'. split; [done|]. split; [done|]. split; [done|by left].
  - eexists _, _, g. split; [done|]. split; [done|]. split; [done|by left].
Qed.

Definition pool_tour_inv (base : guide) (gs : list guide) (p : pool (list tour_event)) : Prop :=
  Forall2 tour_worker_ok (members p) gs /\ tour_inv (common p) (base :: gs).

Lemma pool_step_tours deep base gs p i p' :
  BC_IO_MAX_PATH_LENGTH <= Z.of_nat deep -> pool_tour_inv base gs p ->
  pool_step config stack deep laps i p = Done p' ->
  exists gs', pool_tour_inv base gs' p' /\
    (forall k', k' ∈ members p' -> has_left k' = true ->
       (exists k, k ∈ members p /\ has_left k = true) \/ outstanding_directory_count (common p').2 = 0).
Proof.
  intros Hdeep [Hall Hinv]. unfold pool_step. destruct (members p !! i) as [k|] eqn:Hk.
  2: { intros [= <-]. exists gs. split; [done|]. intros k' Hk' Hleft. left. by exists k'. }
  destruct (Forall2_lookup_l _ _ _ _ _ Hall Hk) as (g & Hi & Hok).
  destruct (others gs i g Hi) as (F & HF & Hins). destruct (common p) as [w s] eqn:Ec. simpl.
  assert (Hinv' : tour_inv (w, s) (g :: base :: F)).
  { eapply tour_inv_perm; [|exact Hinv]. rewrite HF. solve_Permutation. }
  destruct (worker_step_tours deep k w s g (base :: F) Hdeep Hok Hinv') as (k' & c & g' & E & Hinv2 & Hok' & Hleft).
  rewrite E. intros [= <-]. exists (<[i := g']> gs). split; [split|]; simpl.
  - by apply Forall2_insert.
  - eapply tour_inv_perm; [|exact Hinv2]. rewrite Hins. solve_Permutation.
  - intros k2 Hk2 Hl2. apply list_elem_of_lookup in Hk2 as [j Hj].
    destruct (decide (j = i)) as [->|Hji].
    + rewrite list_lookup_insert_eq in Hj by by eapply lookup_lt_Some. injection Hj as <-.
      destruct (Hleft Hl2) as [?|?]; [left; exists k|by right]. split; [by eapply list_elem_of_lookup_2|done].
    + rewrite list_lookup_insert_ne in Hj by done. left. exists k2. split; [by eapply list_elem_of_lookup_2|done].
Qed.
End pool_tour.

(** ** Whole runs *)

Section tour_call.
Context {PF : Platform} {PL : PlatformLaws PF}.
Context {SN : Snapshot platform_kernel} {SL : SnapshotLaws SN}.
Context {CC : Concurrency PF bc_io_walk_queue_entry_t} {CL : ConcurrencyLaws CC}.
Variable stack : list Z.
Hypothesis stack_size : zlen stack = BC_IO_MAX_PATH_LENGTH.
Variable follow hidden : bool.
Variable accept descend : bc_io_walk_entry_t -> bool.
Hypothesis generous : forall m n, exists p m', pool_alloc m n = (Some p, m').
Variable deep laps : nat.
Hypothesis deep_enough : BC_IO_MAX_PATH_LENGTH <= Z.of_nat deep.
Hypothesis roomy : roomy_tree follow laps.
Variable root rest : list Z.
Hypothesis root_string : 0 ∉ root.
Hypothesis root_size : 0 < zlen root < BC_IO_MAX_PATH_LENGTH.

Notation config := (observer (root ++ 0 :: rest) (zlen root) follow hidden accept descend).
Notation T := (tour follow hidden accept descend deep).
Notation evs := (T root 0).
Notation anything := (fun _ : list tour_event => True).

(** Both invariants, and that nobody has left before the end. *)
Definition touring (room limit : Z) (baseA : share) (baseB : guide) (p : pool (list tour_event)) : Prop :=
  (exists gs, pool_inv anything anything room limit laps baseA gs p) /\
  (exists gs, pool_tour_inv follow hidden accept descend deep evs baseB gs p) /\
  Forall harmless_member (members p) /\
  (forall k, k ∈ members p -> has_left k = true -> idle p).

Lemma run_touring room limit baseA baseB schedule p p' :
  room + 2 * zlen (members p) + 1 < u32_modulus ->
  touring room limit baseA baseB p -> pool_run config stack deep laps schedule p = Done p' ->
  touring room limit baseA baseB p' /\ length (members p') = length (members p).
Proof.
  revert p. induction schedule as [|i schedule IH]; intros p Hroom Hp E; simpl in E; [by simplify_eq|].
  destruct Hp as ((gsA & HA) & (gsB & HB) & Hh & Hleft).
  destruct (pool_step_ok config stack deep laps stack_size ltac:(done) anything anything (any_client_ok config) room limit
    deep_enough baseA gsA p i HA) as (p1 & gsA' & E1 & HA' & Hlen & _). rewrite E1 in E.
  destruct (pool_step_tours stack stack_size follow hidden accept descend _ _ deep deep_enough generous laps roomy
    evs deep baseB gsB p i p1 deep_enough HB E1) as (gsB' & HB' & Hleft').
  destruct (pool_step_idle config stack deep laps i p p1 Hh E1) as [Hh' Hidle].
  destruct (IH p1) as [Hp' Hlen']; [by unfold zlen; rewrite Hlen| |done|by rewrite Hlen', Hlen].
  split; [by exists gsA'|]. split; [by exists gsB'|]. split; [done|]. intros k Hk Hl.
  destruct (Hleft' k Hk Hl) as [(k0 & Hk0 & Hl0)|Hzero]; [by apply Hidle, (Hleft k0)|].
  destruct (idle_when_zero _ _ _ _ _ _ _ _ HA') as [? ?]; [by unfold zlen; rewrite Hlen|done|by split_and!].
Qed.

Lemma setup_env {U} (c : bc_io_walk_config_t U) u w r w' :
  parallel_setup stack c u w = Done (r, w') -> env w' = env w.
Proof.
  unfold parallel_setup, bc_concurrency_queue_create, bc_concurrency_queue_destroy, lift, mbind, M_bind, mret, M_ret.
  intros E. repeat (case_match; simpl in *; simplify_eq; try done).
Qed.

(** The entry of the root stands for the whole tour. *)
Lemma root_entry_path : holds_path (queue_path (root_entry config (root ++ 0 :: rest))) (zlen root) root.
Proof.
  unfold root_entry. simpl. rewrite ztake_app by done. split_and!; [|done..]. unfold zrepeat, BC_IO_MAX_PATH_LENGTH in *.
  replace (Z.to_nat (4096 - zlen root)) with (S (Z.to_nat (4095 - zlen root))) by lia. by eexists.
Qed.

Lemma root_entry_tour : entry_tour follow hidden accept descend deep (root_entry config (root ++ 0 :: rest)) = evs.
Proof. unfold entry_tour. by rewrite (proj1 (holds_path_string _ _ _ root_entry_path)). Qed.

Definition base_guide (w : world) : guide := mk_guide (heap w) (opened (env w)) 0 [] [].

Lemma concat_replicate_nil {A} n : concat (replicate n (@nil A)) = [].
Proof. by induction n. Qed.

Lemma splits_alone {X} (h : gmap Z X) n : splits h (h :: replicate n ∅).
Proof.
  eapply splits_perm; [|apply (splits_replicate h [h] n)].
  - by rewrite Permutation_app_comm.
  - exists ∅. split_and!; [|apply map_disjoint_empty_r|done]. symmetry. apply (right_id_L ∅ (∪)).
Qed.

Lemma start_tours n w s :
  wf_world w -> launched [] (root_entry config (root ++ 0 :: rest)) s -> (cost evs <= patience (env w))%nat ->
  pool_tour_inv follow hidden accept descend deep evs (base_guide w) (replicate n idle_guide) (pool_start n w s).
Proof.
  intros Hwf [Hc Hr Ho Hst Hf Hu] Hcost. split; simpl.
  { apply Forall2_same_length_lookup_2; [by rewrite !length_replicate|]. intros i k g Hk Hg.
    apply lookup_replicate in Hk as [-> _]. apply lookup_replicate in Hg as [-> _]. done. }
  assert (Hq : queue_tour follow hidden accept descend deep (contents (directory_queue s)) = evs).
  { rewrite Hc. unfold queue_tour. cbn [fmap list_fmap concat]. by rewrite root_entry_tour, app_nil_r. }
  split; simpl.
  - split; simpl; [| |done]; rewrite fmap_replicate; apply splits_alone.
  - split; simpl; rewrite ?Hq, ?fmap_replicate; simpl; rewrite ?concat_replicate_nil.
    + rewrite Hc. apply Forall_singleton. split; [done|]. exists root. apply root_entry_path.
    + by rewrite Hu.
    + cbn [app]. rewrite Hst, add_stats_counted. done.
    + by rewrite Hst.
    + done.
  - rewrite Hq. assert (Hz : total (fun g => Z.of_nat (need g)) (replicate n idle_guide) = 0); [|lia].
    clear. induction n as [|n IH]; simpl; lia.
Qed.

Lemma gone_guides base gs p :
  pool_tour_inv follow hidden accept descend deep evs base gs p -> all_gone p = true ->
  Forall (eq idle_guide) gs.
Proof.
  intros [Hall _] Hgone. unfold all_gone in Hgone. rewrite forallb_forall in Hgone. revert Hgone.
  induction Hall as [|k g ks gs Hk _ IH]; intros Hgone; [done|]. constructor.
  - assert (Ek : is_gone k = true) by (apply Hgone; by left). by destruct k.
  - apply IH. intros x Hx. apply Hgone. by right.
Qed.

(** When all workers are gone and the queue is empty, the tour has been made. *)
Lemma gone_tours w0 gs p :
  pool_tour_inv follow hidden accept descend deep evs (base_guide w0) gs p -> all_gone p = true -> idle p ->
  heap (common p).1 = heap w0 /\ opened (env (common p).1) = opened (env w0) /\
  shared_client (common p).2 ≡ₚ told evs /\ shared_stats (common p).2 = stats_of evs /\
  shared_visit_failed (common p).2 = false.
Proof.
  intros Hp Hgone (Hc & _ & _). pose proof (gone_guides _ _ _ Hp Hgone) as Hg.
  pose proof (replicate_as_Forall_2 _ _ gs eq_refl Hg) as Hgs. clear Hg. destruct Hp as [_ [[Hh Ho _] [_ Ht Hcn Hs Hf] _]]. simpl in *.
  revert Hh Ho Ht Hcn. rewrite <- Hgs, Hc, !fmap_replicate. simpl. rewrite !concat_replicate_nil. simpl.
  rewrite app_nil_r. intros (h & -> & _ & Hh) (o & -> & _ & Ho) Ht Hcn.
  rewrite (splits_empties h _ ltac:(by apply Forall_replicate) Hh), (splits_empties o _ ltac:(by apply Forall_replicate) Ho).
  rewrite !(right_id_L ∅ (∪)). split_and!; try done. by rewrite <- Hcn, add_stats_nil.
Qed.

Lemma root_long : root_long_enough config.
Proof.
  split; [simpl; lia|]. intros r [= <-]. simpl. rewrite zlen_app, zlen_cons. pose proof (zlen_nonneg rest). lia.
Qed.

(** A run of the whole pool from the setup to its end. *)
Lemma gone_left (p : pool (list tour_event)) :
  (0 < length (members p))%nat -> all_gone p = true -> exists k, k ∈ members p /\ has_left k = true.
Proof.
  destruct p as [[|k ks] c]; simpl; [lia|]. unfold all_gone. simpl. intros _ [Hk _]%andb_prop.
  exists k. split; [set_solver|by destruct k].
Qed.

Lemma launched_tours n schedule a s w w1 p :
  wf_world w -> laps_enough laps w -> (cost evs <= patience (env w))%nat ->
  parallel_setup stack config [] w = Done (Some (a, s), w1) ->
  slots (directory_queue s) + 2 * Z.of_nat n + 1 < u32_modulus -> (0 < n)%nat ->
  pool_run config stack deep laps schedule (pool_start n w1 s) = Done p -> all_gone p = true ->
  heap (common p).1 = heap w /\ opened (env (common p).1) = opened (env w) /\
  shared_client (common p).2 ≡ₚ told evs /\ shared_stats (common p).2 = stats_of evs /\
  shared_visit_failed (common p).2 = false.
Proof.
  intros Hwf Hlaps Hcost Hsetup Hslots Hn Hrun Hgone.
  pose proof (setup_spec config stack stack_size root_long [] w Hwf) as H. unfold wp in H. rewrite Hsetup in H.
  destruct H as (_ & He & r & [= <-] & Hq & Hl). pose proof (setup_env _ _ _ _ _ Hsetup) as Henv.
  pose proof (evolved_wf _ _ _ _ He) as Hwf1. rewrite <- Henv in Hcost.
  assert (Hlaps1 : laps_enough laps w1) by (eapply laps_enough_later; [apply He|done]).
  destruct (run_touring (slots (directory_queue s)) (1 + 8193 * Z.of_nat (patience (env w1))) (base_share w1) (base_guide w1)
    schedule (pool_start n w1 s) p) as [(_ & (gs & HB) & _ & Hleft) Hlen]; [| |done|].
  - unfold zlen. simpl. rewrite length_replicate. lia.
  - split_and!.
    + exists (replicate n (fresh_share w1, fresh_share w1)).
      by apply (start_inv anything anything _ _ laps n [] (root_entry config (root ++ 0 :: rest)) w1 s).
    + exists (replicate n idle_guide). by apply start_tours.
    + by apply Forall_replicate.
    + simpl. intros k Hk%elem_of_replicate_inv. by subst k.
  - destruct (gone_left p) as (k & Hk & Hkl); [rewrite Hlen; simpl; by rewrite length_replicate|done|].
    destruct (gone_tours _ _ _ HB Hgone (Hleft k Hk Hkl)) as (Hh & Ho & Hrest). rewrite Hh, Ho, Henv.
    split_and!; try apply Hrest; try done. apply He.
Qed.

Lemma pool_run_launched n schedule a s w w1 :
  wf_world w -> laps_enough laps w -> parallel_setup stack config [] w = Done (Some (a, s), w1) ->
  exists p, pool_run config stack deep laps schedule (pool_start n w1 s) = Done p.
Proof.
  intros Hwf Hlaps Hsetup.
  destruct (launched_pool_inv config stack stack_size root_long deep laps deep_enough [] w a s w1 n schedule Hwf Hlaps Hsetup)
    as (gs & p & E & _). by exists p.
Qed.

(** What the call gives, in terms of its setup. *)
Lemma parallel_tour_spec d a s w w1 :
  wf_world w -> laps_enough laps w -> (cost evs <= patience (env w))%nat ->
  parallel_setup stack config [] w = Done (Some (a, s), w1) ->
  slots (directory_queue s) + 2 * effective_worker_count + 1 < u32_modulus ->
  (0 < started d)%nat -> 0 < effective_worker_count -> dispatch_ok d = true ->
  wp (bc_io_walk_parallel stack deep laps d config (Some zero_walk_stats) [])
    (fun r w' => match r with
       | None => True
       | Some (ok, out, log) => ok = true /\ log ≡ₚ told evs /\ out = Some (stats_of evs) /\
           heap w' = heap w /\ opened (env w') = opened (env w)
       end) w.
Proof.
  intros Hwf Hlaps Hcost Hsetup Hslots Hstarted Hworkers Hok.
  set (n := Nat.min (started d) (Z.to_nat effective_worker_count)).
  pose proof (launched_tours n (schedule d) a s w w1) as Hrun.
  unfold bc_io_walk_parallel, wp, mbind, M_bind. rewrite Hsetup. fold n. fold (@pool_start PF CC (list tour_event) n w1 s).
  destruct (pool_run_launched n (schedule d) a s w w1 Hwf Hlaps Hsetup) as (p & E). rewrite E.
  destruct (all_gone p) eqn:Hgone; [|done].
  destruct (Hrun p Hwf Hlaps Hcost Hsetup) as (Hh & Ho & Hc & Hs & Hf); [lia..|done|done|]. simpl.
  rewrite Hok, Hf, Hs. by split_and!.
Qed.

(** ** Properties *)

(** C3. On a file system that does not change, with an allocator that does not refuse,
    a client that observes and refuses no visit, and fewer queue slots and workers than
    the 32-bit count of outstanding directories can count, the workers of [bc_io_walk_parallel] make the tour of the tree together,
    whatever their number, the size of the queue and their interleaving: when they
    are done the client has been told of exactly the entries and errors of
    [tour], each once, in some order, the statistics count them, the result is
    true, and nothing stays open or allocated. *)
Theorem parallel_walk_makes_tour d a s w w1 :
  wf_world w -> laps_enough laps w -> (cost evs <= patience (env w))%nat ->
  parallel_setup stack config [] w = Done (Some (a, s), w1) ->
  slots (directory_queue s) + 2 * effective_worker_count + 1 < u32_modulus ->
  (0 < started d)%nat -> 0 < effective_worker_count -> dispatch_ok d = true ->
  wp (bc_io_walk_parallel stack deep laps d config (Some zero_walk_stats) [])
    (fun r w' => match r with
       | None => True
       | Some (ok, out, log) => ok = true /\ log ≡ₚ told evs /\ out = Some (stats_of evs) /\
           heap w' = heap w /\ opened (env w') = opened (env w)
       end) w.
Proof. apply parallel_tour_spec. Qed.

(** C8. Both walks see the same, under the conditions of the theorem before: started
    from the same world, whenever the workers
    of the parallel walk are done, its statistics are those of the sequential walk
    and its client was told the same, up to order. *)
Theorem parallel_agrees_with_sequential d a s w w1 :
  wf_world w -> laps_enough laps w -> (cost evs <= patience (env w))%nat ->
  parallel_setup stack config [] w = Done (Some (a, s), w1) ->
  slots (directory_queue s) + 2 * effective_worker_count + 1 < u32_modulus ->
  (0 < started d)%nat -> 0 < effective_worker_count -> dispatch_ok d = true ->
  wp (bc_io_walk_sequential stack deep laps (Some config) (Some zero_walk_stats) [])
    (fun '(ok, out, log) _ =>
       wp (bc_io_walk_parallel stack deep laps d config (Some zero_walk_stats) [])
         (fun r _ => match r with
            | None => True
            | Some (ok', out', log') => ok' = ok /\ out' = out /\ log' ≡ₚ log
            end) w) w.
Proof.
  intros Hwf Hlaps Hcost Hsetup Hslots Hstarted Hworkers Hok. eapply wp_mono.
  { by apply sequential_tour_spec. }
  intros [[ok out] log] w2 (-> & -> & -> & _). eapply wp_mono.
  { by eapply parallel_tour_spec. }
  intros [[[ok out] log]|] w3; [|done]. by intros (-> & ? & -> & _).
Qed.
End tour_call.

(** ** Witnesses: two workers, the first taking three turns for each of the second *)

Definition small_dispatch : dispatch := mk_dispatch 2 (concat (replicate 80 [0; 0; 0; 1]))%nat true.

Lemma plain_root : 0 ∉ bytes_of_string "/r".
Proof. refine (bool_decide_unpack _ _). by vm_compute. Qed.

Lemma small_root_size : 0 < zlen (bytes_of_string "/r") < BC_IO_MAX_PATH_LENGTH.
Proof. by vm_compute. Qed.

Lemma enough_laps : (10 <= Z.to_nat 80000)%nat.
Proof. apply Nat.leb_le. by vm_compute. Qed.

Lemma parallel_walk_makes_tour_witness :
  wp (bc_io_walk_parallel (CC := small_queue) fresh_stack 4096 (Z.to_nat 80000) small_dispatch small_config
        (Some zero_walk_stats) [])
    (fun r w' => match r with
       | None => True
       | Some (ok, out, log) => ok = true /\ log ≡ₚ told small_tour /\ out = Some (stats_of small_tour) /\
           heap w' = ∅ /\ snapshot_opened small_tree (env w') = ∅
       end) (snapshot_world small_tree 9).
Proof.
  apply (parallel_walk_makes_tour (PL := snapshot_platform_laws small_tree) (SL := snapshot_tree_laws small_tree)
           (CL := fifo_laws _ _ _) fresh_stack ltac:(by vm_compute) false false everything everything
           ltac:(intros m n; by do 2 eexists) 4096 (Z.to_nat 80000) ltac:(by vm_compute)
           (small_tree_roomy _ enough_laps) (bytes_of_string "/r") []
           plain_root small_root_size
           small_dispatch small_launch.1.1 small_launch.1.2 (snapshot_world small_tree 9) small_launch.2);
    [apply snapshot_world_wf|apply small_laps_enough|apply Nat.leb_le; by vm_compute|apply small_setup
    |by vm_compute|apply Nat.ltb_lt; by vm_compute|by vm_compute|done].
Defined.

Lemma parallel_agrees_with_sequential_witness :
  wp (bc_io_walk_sequential fresh_stack 4096 (Z.to_nat 80000) (Some small_config) (Some zero_walk_stats) [])
    (fun '(ok, out, log) _ =>
       wp (bc_io_walk_parallel (CC := small_queue) fresh_stack 4096 (Z.to_nat 80000) small_dispatch small_config
             (Some zero_walk_stats) [])
         (fun r _ => match r with
            | None => True
            | Some (ok', out', log') => ok' = ok /\ out' = out /\ log' ≡ₚ log
            end) (snapshot_world small_tree 9)) (snapshot_world small_tree 9).
Proof.
  apply (parallel_agrees_with_sequential (PL := snapshot_platform_laws small_tree)
           (SL := snapshot_tree_laws small_tree) (CL := fifo_laws _ _ _) fresh_stack ltac:(by vm_compute) false false
           everything everything ltac:(intros m n; by do 2 eexists) 4096 (Z.to_nat 80000) ltac:(by vm_compute)
           (small_tree_roomy _ enough_laps) (bytes_of_string "/r") []
           plain_root small_root_size
           small_dispatch small_launch.1.1 small_launch.1.2 (snapshot_world small_tree 9) small_launch.2);
    [apply snapshot_world_wf|apply small_laps_enough|apply Nat.leb_le; by vm_compute|apply small_setup
    |by vm_compute|apply Nat.ltb_lt; by vm_compute|by vm_compute|done].
Defined.
