(* ===== verification/ParallelFair.v ===== *)
(** * Under a fair scheduler the parallel walk ends

    Polling is the only thing the workers of [bc_io_walk_parallel] can do without end, and only as
    long as others have work.  So if every worker gets a turn again and again, all of
    them finish, whatever the kernel and the callbacks do.  The proof is by descent: the
    directories that can still be taken from the queue, then the phases of the
    workers, then the steps to the next decision of a worker that has one to make. *)

From S2P Require Import Prelude Platform Objects Machine Scripted FilePath DirentReader.
From S2P Require Import WalkEntry WalkSpec SnapshotKernel WalkSequential.
From S2P Require Import Interleave Concurrency WalkParallel ParallelSafe ParallelPool.

(** ** Replacing one element of a list by a smaller one *)

Section pointwise.
Context {X : Type} (R : X -> X -> Prop).

Definition one_less (l' l : list X) : Prop := exists i x y, l !! i = Some x /\ R y x /\ l' = <[i := y]> l.

Lemma one_less_acc l : Forall (Acc R) l -> Acc one_less l.
Proof.
  induction 1 as [|x l Hx _ IH]; [constructor; by intros l' (i & x & y & Hi & _)|].
  induction Hx as [x Hx IHx] in l, IH |- *. induction IH as [l Hl IHl]. constructor.
  intros l' ([|i] & x' & y & Hi & Hy & ->); simpl in *; simplify_eq.
  - apply IHx; [done|by constructor].
  - apply IHl. by exists i, x', y.
Qed.
End pointwise.

Section phases.
Context {PF : Platform} {CC : Concurrency PF bc_io_walk_queue_entry_t} {U : Type}.

(** ** The phases of a worker *)

Inductive phase : Type :=
| Ready
| Quitting (p : proc (world * bc_io_walk_shared_t qstate U) unit)
| Working (p : proc (world * bc_io_walk_shared_t qstate U) unit)
| Polling
| Closing
| Over.

Definition phase_of (k : worker U) : phase :=
  match k with
  | Starting => Ready
  | Giving_up p => Quitting p
  | Processing _ p => Working p
  | At_head _ | At_flag _ | At_pop _ | At_outstanding _ => Polling
  | Leaving _ => Closing
  | Gone => Over
  end.

(** [later x y]: one action takes a worker from phase [y] to phase [x]. *)
Definition later (x y : phase) : Prop :=
  match y with
  | Ready => x = Polling \/ exists p, x = Quitting p
  | Quitting (Act _ k) => exists b, x = Quitting (k b)
  | Quitting (Return _) => x = Over
  | Working (Act _ k) => exists b, x = Working (k b)
  | Working (Return _) => x = Polling
  | Polling => x = Closing
  | Closing => x = Over
  | Over => False
  end.

Lemma later_acc x : Acc later x.
Proof.
  assert (Hover : Acc later Over) by (constructor; done).
  assert (Hclosing : Acc later Closing) by (constructor; by intros ? ->).
  assert (Hpolling : Acc later Polling) by (constructor; by intros ? ->).
  assert (Hquitting : forall p, Acc later (Quitting p)).
  { intros p. induction p as [u|B f k IH]; constructor; [by intros ? ->|]. intros ? [b ->]. apply IH. }
  destruct x as [|p|p| | |]; [| | |exact Hpolling|exact Hclosing|exact Hover].
  - constructor. intros ? [->|[p ->]]; [exact Hpolling|apply Hquitting].
  - apply Hquitting.
  - induction p as [u|B f k IH]; constructor; [by intros ? ->|]. intros ? [b ->]. apply IH.
Qed.

(** A worker is busy if its next action changes its phase. *)
Definition busy (k : worker U) : bool :=
  match k with Starting | Giving_up _ | Processing _ _ | Leaving _ => true | _ => false end.

(** The turns of a polling worker until it decides, when nobody is busy. *)
Definition turns_left (queued : list bc_io_walk_queue_entry_t) (k : worker U) : nat :=
  match queued, k with
  | [], At_head _ => 3
  | [], At_flag _ => 2
  | [], At_pop _ => 1
  | _ :: _, At_outstanding _ => 3
  | _ :: _, At_head _ => 2
  | _ :: _, At_flag _ => 1
  | _, _ => 0
  end.
End phases.

Section fair.
Context {PF : Platform} {PL : PlatformLaws PF}.
Context {CC : Concurrency PF bc_io_walk_queue_entry_t} {CL : ConcurrencyLaws CC} {CP : PopsWhenFilled CC}.
Context {U : Type}.
Variable config : bc_io_walk_config_t U.
Variable stack : list Z.
Variable deep laps : nat.

(** ** What a step does *)

(** A polling step: nothing the others look at changes, and the decision of the
    worker comes closer. *)
Definition polls (k k' : worker U) (s s' : bc_io_walk_shared_t qstate U) : Prop :=
  phase_of k = Polling /\ phase_of k' = Polling /\
  contents (directory_queue s') = contents (directory_queue s) /\
  outstanding_directory_count s' = outstanding_directory_count s /\
  ((contents (directory_queue s) = [] -> outstanding_directory_count s = 0) ->
   (turns_left (contents (directory_queue s)) k' < turns_left (contents (directory_queue s)) k)%nat).

Lemma step_moves k w s k' w' s' :
  worker_step config stack deep laps k w s = Done (k', (w', s')) ->
  later (phase_of k') (phase_of k) \/ takes_directory k k' = true \/ polls k k' s s' \/
  (k = Gone /\ k' = Gone /\ w' = w /\ s' = s).
Proof.
  destruct k as [|p|rd|rd|rd|rd p|rd|rd|]; simpl; intros E.
  - left. destruct (bc_io_dirent_reader_create (-1) w) as [[[rd|] w1]| |]; simpl in E; simplify_eq; simpl; eauto.
  - left. destruct p as [u|B f q]; [by simplify_eq|]. simpl in E.
    destruct (f (w, s)) as [[b c]| |]; simpl in E; simplify_eq. by exists b.
  - unfold bc_io_walk_should_stop in E. destruct (should_stop_check config) as [f|].
    + destruct (f (shared_client s)) as [[] u]; simplify_eq; [by left|]. right; right; left.
      split_and!; try done. intros _. destruct (contents _); simpl; lia.
    + simplify_eq. right; right; left. split_and!; try done. intros _. destruct (contents _); simpl; lia.
  - simplify_eq. destruct (shared_visit_failed s'); [by left|]. right; right; left. split_and!; try done.
    intros _. destruct (contents _); simpl; lia.
  - destruct (queue_pop (directory_queue s)) as [[e|] q] eqn:Ep; simplify_eq; [by right; left|].
    right; right; left. pose proof (pop_filled _ _ Ep) as Hc. apply queue_pop_none in Ep as [Hc' _].
    split_and!; try done. rewrite Hc. simpl. lia.
  - left. destruct p as [u|B f q]; [by simplify_eq|]. simpl in E.
    destruct (f (w, s)) as [[b c]| |]; simpl in E; simplify_eq. by exists b.
  - case_decide; simplify_eq; [by left|]. right; right; left. split_and!; try done. simpl.
    destruct (contents (directory_queue s')); [|simpl; lia]. intros H0. by rewrite H0 in *.
  - left. destruct (bc_io_dirent_reader_destroy rd w) as [[u w1]| |]; simpl in E; by simplify_eq.
  - simplify_eq. by do 3 right.
Qed.

Lemma polling_not_busy (k : worker U) : phase_of k = Polling -> busy k = false.
Proof. by destruct k. Qed.

(** Nobody is busy and the queue is empty: nothing is outstanding. *)
Definition nobody_busy (p : pool U) : Prop := Forall (fun k => busy k = false) (members p).

Lemma nobody_busy_outstanding I J room limit base gs p :
  pool_inv I J room limit laps base gs p -> owed base = 0 -> nobody_busy p ->
  contents (directory_queue (common p).2) = [] -> outstanding_directory_count (common p).2 = 0.
Proof.
  intros [Hall Hinv] Hbase Hquiet Hc.
  rewrite (inv_outstanding _ _ _ _ _ (inv_shared _ _ _ _ _ _ Hinv)), Hc. change (zlen []) with 0.
  assert (Hz : total owed (flat gs) = 0).
  { clear -Hall Hquiet. unfold nobody_busy in Hquiet. induction Hall as [|k [a b] ks gs Hk _ IH]; [done|].
    apply Forall_cons in Hquiet as [Hb Hquiet]. change (flat ((a, b) :: gs)) with (a :: b :: flat gs). simpl.
    rewrite IH by done. assert (owed a = 0 /\ owed b = 0) as [-> ->]; [|done].
    destruct k; try done; destruct Hk as [(_ & _ & ? & _) Hk]; (split; [done|]).
    1-4: destruct Hk as (_ & r & _ & Hk). all: by destruct Hk as (_ & _ & [_ ?] & _). }
  simpl. by rewrite Hbase, Hz.
Qed.

Notation pool_step := (pool_step config stack deep laps).
Notation pool_run := (pool_run config stack deep laps).
Notation queued p := (contents (directory_queue (common p).2)).

Lemma pool_step_moves i (p p' : pool U) :
  pool_step i p = Done p' ->
  (p' = p /\ (members p !! i = None \/ members p !! i = Some Gone)) \/
  exists k k', members p !! i = Some k /\ members p' = <[i := k']> (members p) /\
    (later (phase_of k') (phase_of k) \/ takes_directory k k' = true \/
     polls k k' (common p).2 (common p').2).
Proof.
  unfold WalkParallel.pool_step. destruct (members p !! i) as [k|] eqn:Hi; [|intros [= <-]; by left; split; [|left]].
  destruct p as [ks [w s]]. simpl in *.
  destruct (worker_step config stack deep laps k w s) as [[k' [w' s']]| |] eqn:E; simpl; intros [= <-]; simpl.
  destruct (step_moves _ _ _ _ _ _ E) as [H|[H|[H|(-> & -> & -> & ->)]]].
  1-3: right; exists k, k'; tauto.
  left. split; [|by right]. by rewrite list_insert_id.
Qed.

(** ** Fair schedules *)

(** Each of the [n] workers gets a turn again and again. *)
Definition fair (n : nat) (turns : nat -> nat) : Prop :=
  forall i, (i < n)%nat -> forall t, exists m, turns (t + m)%nat = i.

Definition ends (turns : nat -> nat) (t : nat) (p : pool U) : Prop :=
  exists T p', pool_run (turns <$> seq t T) p = Done p' /\ all_gone p' = true.

Lemma ends_step turns t p p' : pool_step (turns t) p = Done p' -> ends turns (S t) p' -> ends turns t p.
Proof. intros E (T & p2 & Hrun & Hgone). exists (S T), p2. simpl. by rewrite E. Qed.

(** A worker whose turns lead to progress: one that is busy, or any when nobody is. *)
Definition promising (d : nat) (i : nat) (p : pool U) : Prop :=
  exists k, members p !! i = Some k /\ k <> Gone /\
    (busy k = true \/ nobody_busy p /\ (turns_left (queued p) k < d)%nat).

Lemma some_promising p : all_gone p = false -> exists d i, (i < length (members p))%nat /\ promising d i p.
Proof.
  intros Hgone.
  destruct (decide (Exists (fun k => busy k = true) (members p))) as [Hb|Hq].
  - apply Exists_exists in Hb as (k & Hk & Hb). apply list_elem_of_lookup in Hk as [i Hi].
    exists 0%nat, i. split; [by eapply lookup_lt_Some|]. exists k. split; [done|]. split; [by intros ->|by left].
  - assert (Hquiet : nobody_busy p).
    { apply Forall_forall. intros k Hk. destruct (busy k) eqn:Hb; [|done]. exfalso. apply Hq, Exists_exists. by exists k. }
    assert (exists i k, members p !! i = Some k /\ is_gone k = false) as (i & k & Hi & Hk).
    { clear -Hgone. unfold all_gone in Hgone. induction (members p) as [|k ks IH]; [done|]. simpl in Hgone.
      destruct (is_gone k) eqn:Hk; [|by exists 0%nat, k]. destruct (IH Hgone) as (i & k' & Hi & Hk'). by exists (S i), k'. }
    exists (S (turns_left (queued p) k)), i. split; [by eapply lookup_lt_Some|].
    exists k. split; [done|]. split; [by intros ->|]. right. split; [done|lia].
Qed.

(** A polling step keeps what is promising promising; the worker that made it is
    nearer to its decision. *)
Lemma polls_promising d i j k k' (p p' : pool U) :
  members p !! j = Some k -> members p' = <[j := k']> (members p) ->
  polls k k' (common p).2 (common p').2 ->
  (nobody_busy p -> queued p = [] -> outstanding_directory_count (common p).2 = 0) ->
  promising d i p -> promising d i p' /\ (i = j -> exists d', (d' < d)%nat /\ promising d' i p').
Proof.
  intros Hj Hms (Hk & Hk' & Hc & _ & Hturns) Hzero (k0 & Hi & Hgone & Hp).
  assert (Hquiet : nobody_busy p -> nobody_busy p').
  { intros Hq. unfold nobody_busy. rewrite Hms. apply Forall_insert; [done|by apply polling_not_busy]. }
  destruct (decide (i = j)) as [->|Hij].
  - rewrite Hj in Hi. injection Hi as <-. rewrite (polling_not_busy k Hk) in Hp. destruct Hp as [?|[Hq Hl]]; [done|].
    specialize (Hturns (Hzero Hq)).
    assert (Hpr : forall d', (turns_left (queued p) k' < d')%nat -> promising d' j p').
    { intros d' Hd'. exists k'. split; [rewrite Hms; apply list_lookup_insert_eq; by eapply lookup_lt_Some|].
      split; [by intros ->|]. right. rewrite Hc. split; [by apply Hquiet|done]. }
    split; [apply Hpr; lia|]. intros _. exists (pred d). split; [lia|]. apply Hpr. lia.
  - split; [|done]. exists k0. split; [by rewrite Hms, list_lookup_insert_ne|]. split; [done|].
    destruct Hp as [?|[Hq Hl]]; [by left|right]. rewrite Hc. split; [by apply Hquiet|done].
Qed.

Section descent.
Hypothesis stack_size : zlen stack = BC_IO_MAX_PATH_LENGTH.
Hypothesis visits : visit config <> None.
Hypothesis deep_enough : BC_IO_MAX_PATH_LENGTH <= Z.of_nat deep.
Variable I J : U -> Prop.
Hypothesis ok : shared_client_ok config I J.
Variable room limit : Z.
Variable base : share.
Hypothesis base_owes : owed base = 0.
Variable n : nat.
Variable turns : nat -> nat.
Hypothesis turns_fair : fair n turns.

Notation phases p := (phase_of <$> members p).
Definition usable_pool (gs : list (share * share)) (p : pool U) : Prop :=
  pool_inv I J room limit laps base gs p /\ length (members p) = n.

Lemma usable_step i gs p :
  usable_pool gs p ->
  exists p' gs', pool_step i p = Done p' /\ usable_pool gs' p' /\ taken gs' = taken gs + step_takes i p p'.
Proof.
  intros [Hp Hlen].
  destruct (pool_step_ok config stack deep laps stack_size visits I J ok room limit deep_enough base gs p i Hp)
    as (p' & gs' & E & Hp' & Hlen' & Htaken). exists p', gs'. split_and!; [done|split; [done|congruence]|done].
Qed.

(** From a state on, whatever makes progress ends. *)
Definition progress_ends (gs : list (share * share)) (phs : list (phase (U := U))) : Prop :=
  forall t p' gs', usable_pool gs' p' ->
    taken gs < taken gs' \/ taken gs' = taken gs /\ one_less later (phases p') phs -> ends turns t p'.

Lemma one_turn gs phs t d i p gs1 :
  progress_ends gs phs -> usable_pool gs1 p -> taken gs1 = taken gs -> phases p = phs -> promising d i p ->
  ends turns t p \/
  exists p' gs', (ends turns (S t) p' -> ends turns t p) /\ usable_pool gs' p' /\ taken gs' = taken gs /\
    phases p' = phs /\ promising d i p' /\ (turns t = i -> exists d', (d' < d)%nat /\ promising d' i p').
Proof.
  intros Hless Hp Ht Hph Hpr. destruct (usable_step (turns t) gs1 p Hp) as (p' & gs' & E & Hp' & Ht').
  unfold step_takes in Ht'. destruct (pool_step_moves _ _ _ E) as [[-> Hnone]|(k & k' & Hk & Hms & Hmv)].
  - right. exists p, gs'. split; [by apply ends_step|]. split; [done|].
    split. { destruct (members p !! turns t) as [k|]; [|lia]. destruct Hnone as [?|[= ->]]; [done|simpl in Ht'; lia]. }
    split; [done|]. split; [done|]. intros <-. destruct Hpr as (k & Hk & Hgone & _).
    rewrite Hk in Hnone. destruct Hnone as [?|?]; congruence.
  - rewrite Hk, Hms, list_lookup_insert_eq in Ht' by by eapply lookup_lt_Some.
    assert (Hphs : phases p' = <[turns t := phase_of k']> phs).
    { rewrite Hms, list_fmap_insert. by rewrite Hph. }
    destruct (takes_directory k k') eqn:Htk.
    { left. apply (ends_step _ _ _ _ E). eapply Hless; [done|]. left. lia. }
    destruct Hmv as [Hl|[?|Hpolls]]; [|done|].
    + left. apply (ends_step _ _ _ _ E). eapply Hless; [done|]. right. split; [lia|].
      exists (turns t), (phase_of k), (phase_of k'). split_and!; [|done|done].
      rewrite <- Hph, list_lookup_fmap, Hk. done.
    + right. exists p', gs'. split; [by apply ends_step|]. split; [done|]. split; [lia|].
      assert (Hzero : nobody_busy p -> queued p = [] -> outstanding_directory_count (common p).2 = 0)
        by (intros; by eapply nobody_busy_outstanding; [apply Hp|..]).
      destruct (polls_promising d i _ _ _ _ _ Hk Hms Hpolls Hzero Hpr) as [Hpr' Hnear].
      split; [|by split; [|intros <-; apply Hnear]]. rewrite Hphs. destruct Hpolls as (Hkp & -> & _).
      apply list_insert_id. rewrite <- Hph, list_lookup_fmap, Hk. simpl. by rewrite Hkp.
Qed.

(** The wait for the turn of a promising worker. *)
Lemma promising_ends gs phs :
  progress_ends gs phs ->
  forall d i m t p gs1, usable_pool gs1 p -> taken gs1 = taken gs -> phases p = phs ->
    promising d i p -> turns (t + m)%nat = i -> (i < n)%nat -> ends turns t p.
Proof.
  intros Hless d. induction (lt_wf d) as [d _ IHd].
  intros i m. induction m as [|m IHm]; intros t p gs1 Hp Ht Hph Hpr Hm Hi;
    destruct (one_turn gs phs t d i p gs1) as [?|(p' & gs' & Hends & Hp' & Ht' & Hph' & Hpr' & Hnear)];
    try done; apply Hends.
  - rewrite Nat.add_0_r in Hm. destruct (Hnear Hm) as (d' & Hd' & Hpr2).
    destruct (turns_fair i Hi (S t)) as [m' Hm']. by apply (IHd d' Hd' i m' (S t) p' gs').
  - apply (IHm (S t) p' gs'); try done. by rewrite <- Nat.add_succ_comm in Hm.
Qed.

Lemma pool_ends L phs :
  Acc (one_less later) phs ->
  (forall t p gs, usable_pool gs p -> (Z.to_nat (limit - taken gs) < L)%nat -> ends turns t p) ->
  forall t p gs, usable_pool gs p -> (Z.to_nat (limit - taken gs) <= L)%nat -> phases p = phs -> ends turns t p.
Proof.
  intros Hacc HL. induction Hacc as [phs _ IH]. intros t p gs Hp Hl Hph.
  destruct (all_gone p) eqn:Hgone; [by exists 0%nat, p|].
  destruct (some_promising p Hgone) as (d & i & Hi & Hpr). destruct Hp as [Hp Hlen]. rewrite Hlen in Hi.
  destruct (turns_fair i Hi t) as [m Hm]. apply (promising_ends gs phs) with d i m gs; try done.
  intros t' p' gs' Hp' [Hless|[Heq Hless]].
  - eapply HL; [done|]. pose proof (taken_bounded _ _ _ _ _ _ _ _ (proj1 Hp')). lia.
  - eapply IH; [exact Hless|exact Hp'|by rewrite Heq|done].
Qed.

Lemma fair_pool_ends t p gs : usable_pool gs p -> ends turns t p.
Proof.
  intros Hp. remember (Z.to_nat (limit - taken gs)) as L eqn:HL. revert t p gs Hp HL.
  induction (lt_wf L) as [L _ IH]. intros t p gs Hp HL.
  eapply (pool_ends L (phases p)); [apply one_less_acc, Forall_forall; intros; apply later_acc| |done|lia|done].
  intros t' p' gs' Hp' Hlt. by eapply (IH _ Hlt).
Qed.
End descent.

(** Workers that are gone stay gone. *)
Lemma pool_run_app s1 s2 (p p' : pool U) : pool_run s1 p = Done p' -> pool_run (s1 ++ s2) p = pool_run s2 p'.
Proof.
  revert p. induction s1 as [|i s1 IH]; intros p E; simpl in *; [by simplify_eq|].
  destruct (pool_step i p) as [p1| |]; simpl in *; [by apply IH|done..].
Qed.

Lemma gone_run s (p : pool U) : all_gone p = true -> pool_run s p = Done p.
Proof.
  intros Hgone. assert (Hstep : forall i, pool_step i p = Done p); [|by induction s as [|i s IH]; simpl; [|rewrite Hstep]].
  intros i. unfold WalkParallel.pool_step. destruct (members p !! i) as [k|] eqn:Hi; [|done].
  unfold all_gone in Hgone. rewrite forallb_forall in Hgone.
  specialize (Hgone k ltac:(apply list_elem_of_In; by eapply list_elem_of_lookup_2)). destruct k; try done.
  simpl. rewrite list_insert_id by done. by destruct p as [ks [w s0]].
Qed.
End fair.

Section properties.
Context {PF : Platform} {PL : PlatformLaws PF}.
Context {CC : Concurrency PF bc_io_walk_queue_entry_t} {CL : ConcurrencyLaws CC} {CP : PopsWhenFilled CC}.
Context {U : Type}.

(** ** Properties *)

(** C7. Under a fair scheduler [bc_io_walk_parallel] returns: if every started worker
    gets a turn again and again, and the queue fails to pop only when it is empty, then
    from some number of turns on all workers have finished, on any kernel and with any
    callbacks.  Together with the other theorems on the parallel walk, which speak of
    finished runs, this makes them statements about every fair run. *)
Theorem parallel_walk_ends stack deep laps n turns ok (config : bc_io_walk_config_t U) out_stats u w :
  zlen stack = BC_IO_MAX_PATH_LENGTH -> root_long_enough config -> wf_world w ->
  BC_IO_MAX_PATH_LENGTH <= Z.of_nat deep -> laps_enough laps w ->
  fair (Nat.min n (Z.to_nat effective_worker_count)) turns ->
  exists T, forall T', (T <= T')%nat ->
    wp (bc_io_walk_parallel stack deep laps (mk_dispatch n (turns <$> seq 0 T') ok) config out_stats u)
      (fun r _ => is_Some r) w.
Proof.
  intros Hstack Hroot Hwf Hdeep Hlaps Hfair. unfold bc_io_walk_parallel, wp, mbind, M_bind.
  pose proof (setup_spec config stack Hstack Hroot u w Hwf) as Hsetup. unfold wp in Hsetup.
  destruct (parallel_setup stack config u w) as [[[[a s]|] w1]| |] eqn:Es; try done; [|by exists 0%nat; eexists].
  destruct Hsetup as (Husable & _). set (k := Nat.min n _) in *. simpl. fold (@pool_start PF CC U k w1 s).
  destruct (launched_pool_inv config stack Hstack Hroot deep laps Hdeep u w a s w1 k [] Hwf Hlaps Es)
    as (gs & p & [= <-] & Hp & Hlen & _).
  destruct (fair_pool_ends config stack deep laps Hstack (usable_visits config Husable) Hdeep _ _
    (any_client_ok config) (slots (directory_queue s)) (1 + 8193 * Z.of_nat (patience (env w1)))
    (base_share w1) eq_refl k turns Hfair 0%nat (pool_start k w1 s) gs)
    as (T & p' & Hrun & Hgone).
  { split; [done|]. simpl. apply length_replicate. }
  exists T. intros T' HT. replace T' with (T + (T' - T))%nat by lia. rewrite seq_app, fmap_app.
  rewrite (pool_run_app _ _ _ _ _ _ _ _ Hrun), gone_run by done. rewrite Hgone. by eexists.
Qed.
End properties.

(** ** Witness *)

Lemma round_robin_fair : fair 2 (fun t => t mod 2)%nat.
Proof.
  intros i Hi t. exists (i + t)%nat. replace (t + (i + t))%nat with (i + t * 2)%nat by lia.
  rewrite Nat.Div0.mod_add. by apply Nat.mod_small.
Qed.

Lemma parallel_walk_ends_witness :
  exists T, forall T', (T <= T')%nat ->
    wp (bc_io_walk_parallel (CC := small_queue) fresh_stack 4096 (Z.to_nat 80000)
          (mk_dispatch 2 ((fun t => t mod 2)%nat <$> seq 0 T') true) small_config None [])
      (fun r _ => is_Some r) (snapshot_world small_tree 9).
Proof.
  apply (parallel_walk_ends (PL := snapshot_platform_laws small_tree) (CL := fifo_laws _ _ _) (CP := fifo_pops _ _ _)
           fresh_stack 4096 (Z.to_nat 80000) 2 (fun t => t mod 2)%nat true small_config None []
           (snapshot_world small_tree 9));
    [by vm_compute|apply small_root_long|apply snapshot_world_wf|by vm_compute|apply small_laps_enough
    |apply round_robin_fair].
Defined.
